(* ===== verification/_CoqProject ===== *)
-Q . S2P
Prelude.v
StdMap.v
CStr.v
Buffer.v
Incremental.v
Url.v
HttpMessage.v
Router.v
HttpContext.v
HttpParse.v
HttpRoundtrip.v
ResponseParser.v
ResponseRoundtrip.v
HttpServer.v
Timestamp.v
TimerQueue.v
EventLoop.v
Double.v
TokenBucket.v
Backoff.v
ConcurrencyLimiter.v
TcpConnection.v
TcpFrames.v
Proxy.v
HttpConnection.v
LoadClient.v
TcpServer.v
ServerSystem.v
EchoServer.v
HttpService.v
RestServer.v
ThreadPool.v
Resolver.v
Connector.v
TcpClient.v
TlsContext.v
FileWatcher.v
OcspStapler.v
KqueuePoller.v
Socket.v
Reactor.v
CaresResolver.v
TlsConnection.v
ConnectionPool.v
HttpClient.v
LogFormat.v
Sink.v
Logging.v
AsyncSink.v
Metrics.v
ServerMetrics.v
