(* ===== verification/Prelude.v ===== *)
(** * Cox: a verification development for the Cox reactor and HTTP library

    Cox (under [src/]) is a C++ networking library in the reactor style: an
    epoll event loop with timers, TCP servers and clients on top of it, and HTTP
    on top of those.  This library models its core and proves what makes the
    parts correct.  The file names below are those of this directory, with the
    sources each one translates.

    ** The program and its model

    Bytes and text.
    - [Prelude]: byte strings, 64-bit arithmetic with its wrap-around, record
      updates, the loops [iter_while], lists and counting; the tactics and the
      hint databases of the development.
    - [StdMap]: [std::map]/[std::set] as sorted association lists over an ordered
      key type (class [KeyOrder]), since the code iterates in key order.
    - [CStr]: the C library functions on text the sources call ([strtoul],
      [atoi], [tolower], [to_string], searching).
    - [Buffer]: [buffer::Buffer] (buffer/), the growable buffer with its read and
      write indices.  The class [ByteQueue] with its laws is what its clients
      rely on; the plain byte string is the abstract specification.
    - [Url]: http/url.cc: percent-encoding and query strings.

    HTTP.
    - [HttpMessage]: requests and responses and their serialisation
      (http/http_request, http/http_response).
    - [Incremental]: the interface [IncParser] of a resumable parser over a byte
      queue, and what its laws give: termination, refinement from buffers to byte
      strings, independence of fragmentation.
    - [HttpContext], [HttpParse], [HttpRoundtrip]: the request parser
      (http/http_context), its invariant and limits, and the round trip with the
      client's serialiser.
    - [ResponseParser], [ResponseRoundtrip]: the same for responses
      (http/response_parser).
    - [Router]: http/router: patterns, captures, dispatch.
    - [HttpServer]: http/http_server: the request loop of a connection with
      pipelining, keep-alive and error responses; the handler is a parameter.
    - [HttpConnection]: the server's plaintext callbacks on a [TcpConnection], and its
      TLS path from the decrypted bytes on.
    - [HttpService]: http/http_server with all its connections: construction and
      limits, and the table of parsers that the callbacks share.
    - [RestServer]: examples/http/rest_server: the example's routes, and the whole
      stack from the client's serialiser to its parser.
    - [ConnectionPool]: http/connection_pool: pooled client connections, the
      request queue, resolution, eviction; the application's callbacks are a
      parameter.
    - [HttpClient]: http/multi_origin_pool, http/http_client: a pool per origin,
      and the pool of one connection.

    The reactor.
    - [Timestamp], [TimerQueue]: logging/timestamp, reactor/timer_queue: timers as
      heap objects, so that a dangling handle is visible.
    - [EventLoop]: reactor/: channels, the epoll poller with the kernel's interest
      list, the task queue and one loop iteration, loop threads.
    - [KqueuePoller]: reactor/poller/kqueue_poller: the kernel's notes per
      descriptor and filter.
    - [Reactor]: reactor/event_loop: task queue, timer queue and poller together --
      timer calls from any thread, construction and destruction of a loop -- and
      the dispatch of channels that handlers may destroy.
    - [FileWatcher]: fswatch/, tls/cert_reloader: watches and their callbacks, and
      the reloading of certificates that they or a polling timer trigger.

    TCP.
    - [TcpConnection]: net/tcp_connection: the state machine with buffers, timers
      and re-entrant callbacks, given by arbitrary scripts.
    - [TcpFrames]: what sending and flushing leave alone, for the components built
      on connections.
    - [Proxy]: examples/c10k/backpressure_proxy: two connections linked by the
      callbacks of [pipe], each pausing the other's reads.
    - [TcpServer]: net/tcp_server, net/acceptor: accepting, shedding, the
      connection map and the graceful drain.
    - [ServerSystem]: a server with the connections it established and the callbacks
      of an application (class [Application]), with all interleavings of their loops.
    - [EchoServer]: examples/c10k/c10k_server: command line, configuration and
      counters of the echo server, an application of [ServerSystem].
    - [LoadClient]: examples/c10k/c10k_client: the load generator on edge-triggered
      epoll over the kernel's answers.
    - [Resolver]: net/inet_address, net/resolver: addresses over the C library's
      text conversion (class [InetText]), and the caching resolver with its
      workers and the loop as interleaved steps.
    - [Socket]: net/socket: the helpers over the descriptors and paths they change,
      and the move-only owner of a descriptor.
    - [CaresResolver]: net/cares_resolver: queries, watched sockets and timers over
      c-ares (class [AresLib]).
    - [Connector]: net/connector: non-blocking connect with failover and backoff.
    - [TcpClient]: net/tcp_client: the current connection, reconnection,
      destruction.
    - [TlsConnection]: tls/tls_engine, tls/tls_connection: the engine over OpenSSL
      and its memory BIOs, and the connection between TCP and the application.
      The calls into OpenSSL are the class [OpenSSL]; [SecureChannel] states what
      the pipe theorem needs of two sessions, and has an instance.
    - [TlsContext]: tls/tls_context: certificates and keys over a model of the
      files, reloading, server names and protocol lists.
    - [OcspStapler]: tls/ocsp_stapler: the cached response and the automatic refresh
      between loop, pool and destructor; OpenSSL's checks are the class [OcspLib].

    Concurrency and flow control.
    - [ThreadPool]: concurrent/thread_pool: critical sections and condition
      variables as interleaved steps.
    - [Double]: what the code relies on of [double] arithmetic, as a class with
      laws; exact rationals are an instance.
    - [TokenBucket], [Backoff], [ConcurrencyLimiter]: flowcontrol/.

    Observability.
    - [LogFormat]: logging/timestamp.cc, the formatters and [Logger::log]: the
      calendar behind [Timestamp::toString], the default and the JSON format.
    - [Sink]: logging/sink: the file, rotating, fan-out and memory sinks over a map
      of files.
    - [Logging]: logging/logger, logging/log_macros.h and the stdio sinks of
      logging/sink: loggers, the shared default sink, and the stream buffers behind
      the stdout and file sinks.
    - [AsyncSink]: logging/async_sink: producers, flushing threads, the writer and
      [stop()] as interleaved steps.
    - [Metrics], [ServerMetrics]: metrics/: instruments, the registry with its
      filtered scrape and text format, and the callbacks chained onto servers.

    State is a record with the members of the class, updated with [Settable]
    setters; an operation is a function on it with the name of the method.  What
    the system decides -- socket results, clock readings, the resolver's answers,
    which thread runs next -- is an argument or a nondeterministic step.  Fields
    marked as ghost record what happened (descriptors closed, requests answered)
    and are never read by the operations.

    ** What the theorems show

    - Parsing: the two parsers terminate on every input, give the same result
      however the network cuts the stream, respect the body limit, and read back
      what the serialisers of the other side write ([request_roundtrip],
      [response_roundtrip], [parse_any_fragmentation], [body_within_limit],
      [chunked_body], [url_codec], [parseQuery_roundtrip]).
    - Serving: every complete request is answered once and in order, and the
      connection ends as keep-alive and errors dictate ([processInput_trace],
      [responses_any_segmentation], [pipelined_requests]), over TLS as over plain TCP
      ([tls_messages_exact]); routing is first match
      with exactly the encoded captures ([route_correct], [route_captures]).
    - Refinement: every history of buffer operations behaves as on a byte queue
      ([buffer_refines_queue], [parse_total_refines]), an established TLS connection
      on a byte pipe ([tls_pipe_transparent]), and the multi-origin pool as
      independent pools ([origins_independent]).
    - Memory and resources: no timer is used after its deletion unless a stale
      handle is cancelled ([timer_queue_safe]); a connection cancels only timers
      it has and writes exactly the stream it was given ([timers_never_stale],
      [output_stream]); accepted descriptors and connector sockets are closed
      exactly once ([connection_accounting], [connector_walk]), and a descriptor
      has one owner ([socket_ownership]); the kernel's lists match the pollers'
      ([epoll_in_sync], [kqueue_in_sync], [updateSockets_spec]); a loop can always be
      torn down ([loop_teardown]) and dispatches safely when handlers destroy other
      channels through its queue ([dispatch_safe]); timer calls mean the same from
      every thread ([timer_calls_marshalled]).
    - Composition: the HTTP server on a TCP connection writes exactly the responses
      to the bytes read, and closes when they are out ([http_connection_exact]); with
      all its connections it serves each as if it were alone ([http_service_isolated]),
      and what clients of the REST server read back is what it promises
      ([rest_end_to_end]);
      the echo server returns what it reads and counts exactly
      ([echo_server_exact]), and the load generator accounts for every socket and
      readiness edge ([load_client_accounting]); two
      connections relay without losing or reordering bytes, their queues stay within
      one read of the high-water mark, and a pause is always ended by the output it
      waits for ([relay_backpressure]).
    - TLS configuration: the lookup of server names, the encoding of protocol lists
      and what reloading leaves live ([sni_lookup], [alpn_roundtrip],
      [reload_outcome]); polling keeps the files' certificate live as far as
      modification times tell ([polling_keeps_current]), watches run their callbacks
      once per batch ([watch_dispatch]), and the refresh of the staple neither dies
      nor doubles ([refresh_chain]).
    - Accounting under concurrency: tasks run exactly once and no wakeup is lost
      ([tasks_exactly_once], [no_lost_wakeup]), permits never exceed the limit
      ([limiter_invariant]), pooled requests are in one place each and the pool
      keeps its cap ([requests_accounted], [pool_capacity]), each name query is
      answered once ([resolver_answers], [cares_answers]), and TLS callbacks
      come once and in order ([tls_callbacks]).
    - Observability: log lines reach the downstream sink once and in order
      ([async_lines_once]), rotation keeps the most recent stream
      ([rotation_keeps_recent]), a flushed line survives the end of the process
      ([flushed_line_survives]), the JSON format and the timestamps read back
      ([json_format_roundtrip], [timestamp_roundtrip]), histograms and server
      counters are exact ([histogram_snapshot], [server_metrics_exact]) and the
      registry is well typed ([registry_scrape]).
    - Bounds: admitted rate, backoff growth and range ([admitted_rate],
      [exponential_growth], [delay_range]).
    - What goes wrong in the code is proved too, on concrete runs:
      [chunked_keep_alive_rejected], [stale_cancel], [queue_from_task_not_woken],
      [high_water_reentrancy], [lost_requests], [flush_returns_early],
      [rotate_reopen_crashes], [rejected_histogram_breaks_scrape], [send_spins],
      [reentrant_resolve_deadlocks], [closing_an_active_connection],
      [last_answer_destroys_running], [destroyed_in_flight], [two_filters_lose_read],
      [reload_not_atomic], [handled_after_close] and the lemmas marked as findings.

    ** Bounds and fuel

    The parse loops run on fuel one more than the bytes in the buffer, and the
    server's request loop on two more; [parseRequest_total], [parse_total_refines]
    and [process_loop_some] show that this is always enough, so the functions are
    total.  The loops of [TlsConnection] depend on OpenSSL's answers: running out of
    fuel is [None], and [tls_pipe_transparent] gives the fuel that is enough,
    [send_spins] the case where none is.  [callback_fuel] in [TcpConnection] does the
    same for nested callbacks.
    Sizes of in-memory objects are naturals; the 64-bit counters of the parsers
    and of the limiter wrap, and theorems that need a bound state it.

    ** Not modelled

    What OpenSSL, c-ares, the C library and the kernel compute is a class or an
    argument.  Left out are thin wrappers (thread ids, ignoring SIGPIPE, the choice
    of the poller at compile time), logging calls inside the other components, the
    reports the example programs print and their several-listener mode, and the other
    examples, benchmarks and tests.  Memory ordering is
    modelled only where the code uses relaxed atomics; elsewhere objects are
    confined to their loop thread as the code asserts. *)

From Stdlib Require Export Ascii String ZArith Lia Sorted.
From stdpp Require Export base option numbers strings relations list.

Close Scope string_scope.
Open Scope nat_scope.

(** ** Byte strings

    [std::string], [std::vector<char>] and the byte ranges [\[begin, end)] of
    the sources are lists of 8-bit characters. *)
Abbreviation bytes := (list ascii).

Declare Scope cox_scope.
Delimit Scope cox_scope with cox.

(** [bs] turns a literal into the bytes of the C++ literal. *)
Definition bs (s : string) : bytes := list_ascii_of_string s.
Arguments bs s%_string_scope.

Definition CR : ascii := "013"%char.
Definition LF : ascii := "010"%char.
Definition CRLF : bytes := [CR; LF].
Definition SP : ascii := " "%char.
Definition COLON : ascii := ":"%char.

(** ** Machine integers

    [size_t], [uint64_t] and [unsigned long] are 64 bits wide: a value is an
    integer of [0 .. 2^64 - 1] and every arithmetic result is wrapped. *)
Definition two64 : Z := (2 ^ 64)%Z.
Definition wrap64 (z : Z) : Z := (z mod two64)%Z.
Notation "a +64 b" := (wrap64 (a + b)%Z) (at level 50, left associativity) : cox_scope.
Notation "a -64 b" := (wrap64 (a - b)%Z) (at level 50, left associativity) : cox_scope.
Notation "a *64 b" := (wrap64 (a * b)%Z) (at level 40, left associativity) : cox_scope.
Definition u64 (z : Z) : Prop := (0 <= z < two64)%Z.
(** [static_cast<int64_t>] of an unsigned 64-bit value. *)
Definition to_i64 (z : Z) : Z := if (z <? 2 ^ 63)%Z then z else (z - two64)%Z.

Lemma two64_val : two64 = 18446744073709551616%Z.
Proof. reflexivity. Qed.

Lemma wrap64_id z : u64 z -> wrap64 z = z.
Proof. apply Z.mod_small. Qed.

Lemma u64_0 : u64 0.
Proof. done. Qed.

Lemma wrap64_add_l a b : wrap64 (wrap64 a + b) = wrap64 (a + b).
Proof. apply Zplus_mod_idemp_l. Qed.
Lemma wrap64_add_r a b : wrap64 (a + wrap64 b) = wrap64 (a + b).
Proof. apply Zplus_mod_idemp_r. Qed.
Lemma wrap64_sub_l a b : wrap64 (wrap64 a - b) = wrap64 (a - b).
Proof. apply Zminus_mod_idemp_l. Qed.
Lemma wrap64_wrap a : wrap64 (wrap64 a) = wrap64 a.
Proof. apply Zmod_mod. Qed.
Lemma wrap64_range z : u64 (wrap64 z).
Proof. apply Z.mod_pos_bound. reflexivity. Qed.

(** The number of bytes of an in-memory object, as a [size_t]. *)
Definition zlen {A} (l : list A) : Z := Z.of_nat (length l).

(** ** Functional update of record fields

    [r <| f := v |>] is [r] with field [f] replaced: the model of the C++
    assignment [r.f = v].  A record opts in by giving its eta expansion. *)
Class Settable (R : Type) := eta_of : R -> R.
Class Setter {R T : Type} (p : R -> T) := set_field : (T -> T) -> R -> R.
Arguments set_field {R T} p {_} / f r.

Ltac build_setter p :=
  lazymatch type of p with
  | ?R -> ?T =>
    let inst := constr:(_ : Settable R) in
    let body := eval hnf in inst in
    let abstracted := eval pattern p in body in
    lazymatch abstracted with
    | ?g _ =>
      let t := eval cbv beta in
        (fun (h : T -> T) (r : R) => g (fun r' => h (p r')) r) in
      exact t
    end
  end.
#[export] Hint Extern 1 (Setter ?p) => build_setter p : typeclass_instances.

Notation "r <| p := v |>" := (set_field p (fun _ => v) r)
  (at level 1, left associativity, p at level 99, v at level 200).

(** ** Automation *)
Create HintDb cox.
Create Rewrite HintDb cox.
#[export] Hint Rewrite @length_app @length_take @length_drop @length_cons
  @length_replicate @app_nil_r @take_drop : cox.

(** Case analysis on a boolean test of the code, with its arithmetic meaning. *)
Ltac bool_prop :=
  repeat match goal with
  | H : (_ <? _)%Z = true |- _ => apply Z.ltb_lt in H
  | H : (_ <? _)%Z = false |- _ => apply Z.ltb_ge in H
  | H : (_ <=? _)%Z = true |- _ => apply Z.leb_le in H
  | H : (_ <=? _)%Z = false |- _ => apply Z.leb_gt in H
  | H : (_ =? _)%Z = true |- _ => apply Z.eqb_eq in H
  | H : (_ =? _)%Z = false |- _ => apply Z.eqb_neq in H
  | H : (_ <? _)%nat = true |- _ => apply Nat.ltb_lt in H
  | H : (_ <? _)%nat = false |- _ => apply Nat.ltb_ge in H
  | H : (_ <=? _)%nat = true |- _ => apply Nat.leb_le in H
  | H : (_ <=? _)%nat = false |- _ => apply Nat.leb_gt in H
  | H : (_ =? _)%nat = true |- _ => apply Nat.eqb_eq in H
  | H : (_ =? _)%nat = false |- _ => apply Nat.eqb_neq in H
  | H : andb _ _ = true |- _ => apply andb_true_iff in H as [? ?]
  | H : orb _ _ = false |- _ => apply orb_false_iff in H as [? ?]
  | H : negb _ = true |- _ => apply negb_true_iff in H
  | H : negb _ = false |- _ => apply negb_false_iff in H
  | H : bool_decide _ = true |- _ => apply bool_decide_eq_true_1 in H
  | H : bool_decide _ = false |- _ => apply bool_decide_eq_false_1 in H
  end.

Ltac case_if :=
  match goal with
  | |- context [if ?b then _ else _] =>
    lazymatch type of b with
    | bool => let E := fresh "E" in destruct b eqn:E; bool_prop
    | _ => let E := fresh "E" in destruct b as [E|E]
    end
  end.

Ltac case_if_in H :=
  match type of H with
  | context [if ?b then _ else _] =>
    lazymatch type of b with
    | bool => let E := fresh "E" in destruct b eqn:E; bool_prop
    | _ => let E := fresh "E" in destruct b as [E|E]
    end
  end.

(** Lengths of concatenations and slices, then arithmetic. *)
Ltac len := autorewrite with cox in *; simpl in *; lia.

(** ** Lists *)
Section lists.
Context {A : Type}.
Implicit Types l k : list A.

Lemma drop_app_le l k n : n <= length l -> drop n (l ++ k) = drop n l ++ k.
Proof. intros. by rewrite drop_app_le. Qed.

Lemma take_app_exact l k n : n = length l -> take n (l ++ k) = l.
Proof. intros ->. apply take_app_length. Qed.

Lemma drop_app_exact l k n : n = length l -> drop n (l ++ k) = k.
Proof. intros ->. apply drop_app_length. Qed.

Lemma take_app_short l k n : n <= length l -> take n (l ++ k) = take n l.
Proof. apply take_app_le. Qed.

Lemma drop_eq_cons l n x : l !! n = Some x -> drop n l = x :: drop (S n) l.
Proof. by apply drop_S. Qed.

Lemma find_app_None (f : A -> bool) l k :
  List.find f l = None -> List.find f (l ++ k) = List.find f k.
Proof. induction l as [|x l IH]; simpl; [done|]. destruct (f x); [done|apply IH]. Qed.

Lemma length_0_nil l : length l = 0 -> l = [].
Proof. apply nil_length_inv. Qed.
End lists.

(** ** Iteration

    A [while] loop whose body reports whether it made progress: [iter_while
    fuel body s] runs [body] until it stops ([inr]) or the fuel is spent
    ([None]).  Each use proves that its fuel is enough. *)
Fixpoint iter_while {S R : Type} (fuel : nat) (body : S -> S + R) (s : S) : option R :=
  match fuel with
  | O => None
  | Datatypes.S fuel' =>
    match body s with
    | inr r => Some r
    | inl s' => iter_while fuel' body s'
    end
  end.

Section iter_while.
Context {S R : Type} (body : S -> S + R).

(** A loop whose body decreases a measure stops within the measure's value. *)
Lemma iter_while_total (mu : S -> nat) (I : S -> Prop) :
  (forall s s', I s -> body s = inl s' -> mu s' < mu s /\ I s') ->
  forall fuel s, I s -> mu s < fuel -> exists r, iter_while fuel body s = Some r.
Proof.
  intros Hdec fuel. induction fuel as [|fuel IH]; intros s HI Hmu; [lia|].
  simpl. destruct (body s) as [s'|r] eqn:E; [|eauto].
  destruct (Hdec s s' HI E). apply IH; [done|lia].
Qed.

(** More fuel does not change the outcome. *)
Lemma iter_while_mono fuel fuel' s r :
  iter_while fuel body s = Some r -> fuel <= fuel' ->
  iter_while fuel' body s = Some r.
Proof.
  revert fuel' s. induction fuel as [|fuel IH]; intros fuel' s H Hle; [done|].
  destruct fuel' as [|fuel']; [lia|]. simpl in *.
  destruct (body s); [apply IH; [done|lia]|done].
Qed.

(** An invariant of the body holds of the state that the loop stops in. *)
Lemma iter_while_inv (I : S -> Prop) (Q : R -> Prop) :
  (forall s, I s -> match body s with inl s' => I s' | inr r => Q r end) ->
  forall fuel s r, I s -> iter_while fuel body s = Some r -> Q r.
Proof.
  intros Hstep fuel. induction fuel as [|fuel IH]; intros s r HI H; [done|].
  simpl in H. specialize (Hstep s HI). destruct (body s); [eauto|naive_solver].
Qed.
End iter_while.

(** ** Lengths as integers *)
Lemma zlen_nonneg {A} (l : list A) : (0 <= zlen l)%Z.
Proof. unfold zlen. lia. Qed.

Lemma zlen_app {A} (l k : list A) : zlen (l ++ k) = (zlen l + zlen k)%Z.
Proof. unfold zlen. rewrite length_app. lia. Qed.

Lemma zlen_drop_le {A} n (l : list A) : (zlen (drop n l) <= zlen l)%Z.
Proof. unfold zlen. rewrite length_drop. lia. Qed.

Lemma take_split {A} n (l : list A) : n <= length l -> (zlen (take n l) + zlen (drop n l) = zlen l)%Z.
Proof. intros. unfold zlen. rewrite length_take, length_drop. lia. Qed.

Lemma zlen_take {A} n (l : list A) : n <= length l -> zlen (take n l) = Z.of_nat n.
Proof. intros. unfold zlen. rewrite length_take. lia. Qed.

Lemma take_all {A} (l : list A) : take (Z.to_nat (zlen l)) l = l /\ drop (Z.to_nat (zlen l)) l = [].
Proof. unfold zlen. rewrite Nat2Z.id. split; [by apply take_ge|by apply drop_ge]. Qed.

Lemma zlen_pos {A} (l : list A) : l <> [] -> (0 < zlen l)%Z.
Proof. unfold zlen. destruct l; simpl; [done|lia]. Qed.

(** Taking [n] bytes of [s ++ t] when [s] is too short. *)
Lemma take_beyond (s t : bytes) (n : Z) :
  (zlen s <= n)%Z ->
  take (Z.to_nat n) (s ++ t) = s ++ take (Z.to_nat (n - zlen s)) t /\
  drop (Z.to_nat n) (s ++ t) = drop (Z.to_nat (n - zlen s)) t.
Proof.
  unfold zlen. intros. rewrite take_app_ge, drop_app_ge by lia.
  replace (Z.to_nat n - length s) with (Z.to_nat (n - Z.of_nat (length s))) by lia. done.
Qed.

(** ** Filtered lists *)
Lemma Forall_filter_impl {A} (P Q R : A -> Prop) `{!forall x, Decision (P x)} (l : list A) :
  (forall x, P x -> Q x -> R x) -> Forall Q l -> Forall R (filter P l).
Proof.
  intros HR HQ. rewrite Forall_forall in *. intros x [Hp Hin]%list_elem_of_filter. auto.
Qed.

Lemma Forall_filter {A} (P Q : A -> Prop) `{!forall x, Decision (P x)} (l : list A) :
  Forall Q l -> Forall Q (filter P l).
Proof. by apply Forall_filter_impl. Qed.

(** Replacing one element changes only its part of a flattened list. *)
Lemma concat_map_insert {A B} (f : A -> list B) (i : nat) (w : A) (l : list A) :
  l !! i = Some w ->
  exists rest, concat (map f l) ≡ₚ f w ++ rest /\
    forall w', concat (map f (<[i := w']> l)) ≡ₚ f w' ++ rest.
Proof.
  intros Hi. exists (concat (map f (take i l)) ++ concat (map f (drop (S i) l))). split.
  - rewrite <-(take_drop_middle l i w Hi) at 1. rewrite map_app, concat_app. simpl.
    by rewrite Permutation_app_swap_app.
  - intros w'. rewrite insert_take_drop by (by eapply lookup_lt_Some). rewrite map_app, concat_app. simpl.
    by rewrite Permutation_app_swap_app.
Qed.

(** How often a number occurs in a list. *)
Definition occ (x : nat) (l : list nat) : nat := count_occ Nat.eq_dec l x.
#[global] Arguments occ x l : simpl never.

Lemma occ_nil x : occ x [] = 0.
Proof. done. Qed.
Lemma occ_app x l k : occ x (l ++ k) = occ x l + occ x k.
Proof. apply count_occ_app. Qed.
Lemma occ_cons x y l : occ x (y :: l) = occ x [y] + occ x l.
Proof. apply (occ_app x [y]). Qed.
Lemma occ_perm x l k : l ≡ₚ k -> occ x l = occ x k.
Proof. intros Hp. by apply (proj1 (Permutation_count_occ Nat.eq_dec l k) Hp). Qed.
Lemma perm_occ l k : (forall x, occ x l = occ x k) -> l ≡ₚ k.
Proof. apply Permutation_count_occ. Qed.

(** The sum of a measure over a list. *)
Definition tally {A} (f : A -> Z) (l : list A) : Z := foldr (fun x n => (f x + n)%Z) 0%Z l.

Lemma tally_insert {A} (f : A -> Z) l i x x' :
  l !! i = Some x -> tally f (<[i := x']> l) = (tally f l - f x + f x')%Z.
Proof.
  revert i. induction l as [|y l IH]; intros [|i] Hi; simplify_eq/=; [lia|]. rewrite IH by done. lia.
Qed.
Lemma tally_app {A} (f : A -> Z) l k : tally f (l ++ k) = (tally f l + tally f k)%Z.
Proof. induction l as [|x l IH]; simpl; [done|]. rewrite IH. lia. Qed.
Lemma tally_ext {A} (f g : A -> Z) l : Forall (fun x => f x = g x) l -> tally f l = tally g l.
Proof. induction 1 as [|x l E _ IH]; simpl; [done|]. by rewrite E, IH. Qed.
Lemma tally_le {A} (f g : A -> Z) l : Forall (fun x => (f x <= g x)%Z) l -> (tally f l <= tally g l)%Z.
Proof. induction 1 as [|x l E _ IH]; simpl; lia. Qed.
Lemma zlen_omap {A B} (f : A -> option B) l : zlen (omap f l) = tally (fun x => if f x then 1%Z else 0%Z) l.
Proof.
  unfold zlen. induction l as [|x l IH]; [done|]. cbn [tally foldr]. fold (tally (fun x => if f x then 1%Z else 0%Z) l).
  rewrite <-IH. change (omap f (x :: l)) with (match f x with Some y => y :: omap f l | None => omap f l end).
  destruct (f x); cbn [length]; lia.
Qed.
