(* ===== verification/StdMap.v ===== *)
(** * [std::map] and [std::set]

    The sources keep ordered containers ([std::map<std::string, ...>],
    [std::set<std::pair<Timestamp, Timer*>>], ...) and iterate over them in key
    order, so the order is observable (for instance in the serialized headers).
    The model is the sorted association list, over any key type with a strict
    total order (the typeclass [KeyOrder] with its laws [KeyOrderLaws]). *)

From S2P Require Import Prelude.

Class KeyOrder (K : Type) := kcmp : K -> K -> comparison.

Class KeyOrderLaws (K : Type) `{KeyOrder K} : Prop := {
  kcmp_eq a b : kcmp a b = Eq <-> a = b;
  kcmp_anti a b : kcmp b a = CompOpp (kcmp a b);
  kcmp_trans a b c : kcmp a b = Lt -> kcmp b c = Lt -> kcmp a c = Lt;
}.

(** ** Key types *)
#[export] Instance Z_order : KeyOrder Z := Z.compare.
#[export] Instance Z_order_laws : KeyOrderLaws Z.
Proof.
  split; unfold kcmp, Z_order.
  - apply Z.compare_eq_iff.
  - intros. apply Z.compare_antisym.
  - intros a b c. rewrite !Z.compare_lt_iff. lia.
Qed.

#[export] Instance nat_order : KeyOrder nat := Nat.compare.
#[export] Instance nat_order_laws : KeyOrderLaws nat.
Proof.
  split; unfold kcmp, nat_order.
  - apply Nat.compare_eq_iff.
  - intros. apply Nat.compare_antisym.
  - intros a b c. rewrite !Nat.compare_lt_iff. lia.
Qed.

(** [std::string] compares its characters as [unsigned char]. *)
#[export] Instance ascii_order : KeyOrder ascii :=
  fun a b => N.compare (N_of_ascii a) (N_of_ascii b).
#[export] Instance ascii_order_laws : KeyOrderLaws ascii.
Proof.
  split; unfold kcmp, ascii_order.
  - intros a b. rewrite N.compare_eq_iff. split; [|by intros ->].
    intros H. by rewrite <-(ascii_N_embedding a), <-(ascii_N_embedding b), H.
  - intros. apply N.compare_antisym.
  - intros a b c. rewrite !N.compare_lt_iff. lia.
Qed.

Fixpoint list_cmp {A} `{KeyOrder A} (l k : list A) : comparison :=
  match l, k with
  | [], [] => Eq
  | [], _ :: _ => Lt
  | _ :: _, [] => Gt
  | x :: l', y :: k' =>
    match kcmp x y with Eq => list_cmp l' k' | c => c end
  end.
#[export] Instance list_order {A} `{KeyOrder A} : KeyOrder (list A) := list_cmp.
Lemma kcmp_cons {A} `{KeyOrder A} (x y : A) (l k : list A) :
  kcmp (x :: l) (y :: k) = match kcmp x y with Eq => kcmp l k | c => c end.
Proof. reflexivity. Qed.

#[export] Instance list_order_laws `{KeyOrderLaws A} : KeyOrderLaws (list A).
Proof.
  split.
  - induction a as [|x a IH]; intros [|y b]; try done.
    rewrite kcmp_cons. destruct (kcmp x y) eqn:E.
    + apply kcmp_eq in E as ->. rewrite IH. naive_solver.
    + split; [done|]. intros [= -> ->]. by rewrite (proj2 (kcmp_eq y y) eq_refl) in E.
    + split; [done|]. intros [= -> ->]. by rewrite (proj2 (kcmp_eq y y) eq_refl) in E.
  - induction a as [|x a IH]; intros [|y b]; try done.
    rewrite !kcmp_cons, (kcmp_anti x y). destruct (kcmp x y); simpl; auto.
  - induction a as [|x a IH]; intros [|y b] [|z c]; try done. rewrite !kcmp_cons.
    destruct (kcmp x y) eqn:E1, (kcmp y z) eqn:E2; try done.
    + apply kcmp_eq in E1 as ->. rewrite E2. apply IH.
    + apply kcmp_eq in E1 as ->. by rewrite E2.
    + apply kcmp_eq in E2 as ->. by rewrite E1.
    + by rewrite (kcmp_trans x y z).
Qed.

#[export] Instance prod_order {A B} `{KeyOrder A, KeyOrder B} : KeyOrder (A * B) :=
  fun p q => match kcmp p.1 q.1 with Eq => kcmp p.2 q.2 | c => c end.
Lemma kcmp_pair {A B} `{KeyOrder A, KeyOrder B} (a a' : A) (b b' : B) :
  kcmp (a, b) (a', b') = match kcmp a a' with Eq => kcmp b b' | c => c end.
Proof. reflexivity. Qed.

#[export] Instance prod_order_laws `{KeyOrderLaws A, KeyOrderLaws B} :
  KeyOrderLaws (A * B).
Proof.
  split.
  - intros [a b] [a' b']. rewrite kcmp_pair. destruct (kcmp a a') eqn:E.
    + apply kcmp_eq in E as ->. rewrite kcmp_eq. naive_solver.
    + split; [done|]. intros [= -> ->]. by rewrite (proj2 (kcmp_eq a' a') eq_refl) in E.
    + split; [done|]. intros [= -> ->]. by rewrite (proj2 (kcmp_eq a' a') eq_refl) in E.
  - intros [a b] [a' b']. rewrite !kcmp_pair, (kcmp_anti a a').
    destruct (kcmp a a'); simpl; [apply kcmp_anti|done|done].
  - intros [a b] [a' b'] [a2 b2]. rewrite !kcmp_pair.
    destruct (kcmp a a') eqn:E1, (kcmp a' a2) eqn:E2; try done.
    + apply kcmp_eq in E1 as ->. rewrite E2. apply kcmp_trans.
    + apply kcmp_eq in E1 as ->. by rewrite E2.
    + apply kcmp_eq in E2 as ->. by rewrite E1.
    + by rewrite (kcmp_trans a a' a2).
Qed.

Lemma kcmp_refl `{KeyOrderLaws K} (k : K) : kcmp k k = Eq.
Proof. by apply kcmp_eq. Qed.
#[export] Hint Resolve kcmp_refl : cox.

(** ** The map *)
Abbreviation stdmap K V := (list (K * V)).

Section stdmap.
Context {K V : Type} `{KeyOrderLaws K}.
Implicit Types m : stdmap K V.

(** [m.find(k)] *)
Fixpoint mlookup (k : K) m : option V :=
  match m with
  | [] => None
  | (k', v) :: m' => match kcmp k k' with Eq => Some v | _ => mlookup k m' end
  end.

(** [m\[k\] = v] *)
Fixpoint minsert (k : K) (v : V) m : stdmap K V :=
  match m with
  | [] => [(k, v)]
  | (k', v') :: m' =>
    match kcmp k k' with
    | Lt => (k, v) :: m
    | Eq => (k, v) :: m'
    | Gt => (k', v') :: minsert k v m'
    end
  end.

(** [m.erase(k)] *)
Fixpoint merase (k : K) m : stdmap K V :=
  match m with
  | [] => []
  | (k', v) :: m' =>
    match kcmp k k' with Eq => merase k m' | _ => (k', v) :: merase k m' end
  end.

Definition mhas (k : K) m : bool :=
  match mlookup k m with Some _ => true | None => false end.

Definition key_lt (p q : K * V) : Prop := kcmp p.1 q.1 = Lt.
Definition msorted m : Prop := StronglySorted key_lt m.

Lemma mlookup_insert_eq k v m : mlookup k (minsert k v m) = Some v.
Proof.
  induction m as [|[k' v'] m IH]; simpl; [by rewrite kcmp_refl|].
  destruct (kcmp k k') eqn:E; simpl; rewrite ?kcmp_refl, ?E; done.
Qed.

Lemma mlookup_insert_ne k k' v m :
  k <> k' -> mlookup k' (minsert k v m) = mlookup k' m.
Proof.
  intros Hne. assert (Hk : forall a b : K, a <> b -> kcmp a b <> Eq).
  { intros a b Hab Heq. by apply kcmp_eq in Heq. }
  induction m as [|[k2 v2] m IH]; simpl.
  - specialize (Hk k' k). destruct (kcmp k' k); naive_solver.
  - destruct (kcmp k k2) eqn:E; simpl.
    + apply kcmp_eq in E as ->. specialize (Hk k' k2). destruct (kcmp k' k2); naive_solver.
    + specialize (Hk k' k). destruct (kcmp k' k); naive_solver.
    + destruct (kcmp k' k2); auto.
Qed.

Lemma mlookup_erase_eq k m : mlookup k (merase k m) = None.
Proof.
  induction m as [|[k' v'] m IH]; simpl; [done|].
  destruct (kcmp k k') eqn:E; simpl; rewrite ?E; done.
Qed.

Lemma mlookup_erase_ne k k' m : k <> k' -> mlookup k' (merase k m) = mlookup k' m.
Proof.
  intros Hne. induction m as [|[k2 v2] m IH]; simpl; [done|].
  destruct (kcmp k k2) eqn:E; simpl; destruct (kcmp k' k2) eqn:E2; try done.
  apply kcmp_eq in E, E2. congruence.
Qed.

Lemma minsert_Forall (P : K * V -> Prop) k v m :
  P (k, v) -> Forall P m -> Forall P (minsert k v m).
Proof.
  intros Hk. induction 1 as [|[k' v'] m Hp Hm IH]; simpl; [by repeat constructor|].
  destruct (kcmp k k'); repeat constructor; auto.
Qed.

Lemma merase_Forall (P : K * V -> Prop) k m : Forall P m -> Forall P (merase k m).
Proof.
  induction 1 as [|[k' v'] m Hp Hm IH]; simpl; [done|].
  destruct (kcmp k k'); repeat constructor; auto.
Qed.

Lemma msorted_insert k v m : msorted m -> msorted (minsert k v m).
Proof.
  unfold msorted. induction 1 as [|[k' v'] m Hs IH Hf]; simpl; [by repeat constructor|].
  destruct (kcmp k k') eqn:E.
  - apply kcmp_eq in E as ->. by constructor.
  - repeat constructor; auto. eapply Forall_impl; [exact Hf|].
    intros [k2 v2] Hlt. unfold key_lt in *; simpl in *. by eapply kcmp_trans.
  - constructor; [done|]. apply minsert_Forall; [|done].
    unfold key_lt; simpl. by rewrite kcmp_anti, E.
Qed.

Lemma msorted_erase k m : msorted m -> msorted (merase k m).
Proof.
  unfold msorted. induction 1 as [|[k' v'] m Hs IH Hf]; simpl; [constructor|].
  destruct (kcmp k k'); [done|constructor; [done|by apply merase_Forall]..].
Qed.

Lemma mlookup_lt_None k m : Forall (fun p => kcmp k p.1 = Lt) m -> mlookup k m = None.
Proof. induction 1 as [|[k' v'] m Hk Hm IH]; simpl in *; [done|by rewrite Hk]. Qed.

Lemma mlookup_elem k v m : mlookup k m = Some v -> (k, v) ∈ m.
Proof.
  induction m as [|[k' v'] m IH]; simpl; [done|]. destruct (kcmp k k') eqn:E.
  - apply kcmp_eq in E as ->. intros [= ->]. by left.
  - right; auto.
  - right; auto.
Qed.

Lemma elem_mlookup k v m : msorted m -> (k, v) ∈ m -> mlookup k m = Some v.
Proof.
  induction 1 as [|[k' v'] m Hs IH Hf]; [by intros ?%elem_of_nil|].
  intros [Heq|Hin]%elem_of_cons; simpl.
  - simplify_eq. by rewrite kcmp_refl.
  - rewrite Forall_forall in Hf. specialize (Hf _ Hin). unfold key_lt in Hf; simpl in Hf.
    rewrite kcmp_anti, Hf. simpl. auto.
Qed.

(** Two ordered maps with the same lookups are the same container. *)
Lemma stdmap_eq m1 m2 :
  msorted m1 -> msorted m2 -> (forall k, mlookup k m1 = mlookup k m2) -> m1 = m2.
Proof.
  intros H1. revert m2. induction H1 as [|[k v] m1 Hs1 IH Hf1]; intros m2 H2 Heq.
  - destruct m2 as [|[k2 v2] m2]; [done|]. specialize (Heq k2). simpl in Heq.
    by rewrite kcmp_refl in Heq.
  - destruct H2 as [|[k2 v2] m2 Hs2 Hf2].
    { specialize (Heq k). simpl in Heq. by rewrite kcmp_refl in Heq. }
    assert (kcmp k k2 = Eq) as E.
    { destruct (kcmp k k2) eqn:E; [done| |].
      - pose proof (Heq k) as Hk. simpl in Hk. rewrite kcmp_refl, E in Hk.
        rewrite mlookup_lt_None in Hk; [done|].
        eapply Forall_impl; [exact Hf2|]. intros p Hp. by eapply kcmp_trans.
      - pose proof (Heq k2) as Hk. simpl in Hk.
        rewrite (kcmp_anti k k2), E, kcmp_refl in Hk. simpl in Hk.
        rewrite mlookup_lt_None in Hk; [done|].
        eapply Forall_impl; [exact Hf1|]. intros p Hp. eapply kcmp_trans; [|exact Hp].
        by rewrite (kcmp_anti k k2), E. }
    apply kcmp_eq in E as ->. pose proof (Heq k2) as Hk; simpl in Hk.
    rewrite kcmp_refl in Hk. simplify_eq. f_equal. apply IH; [done|].
    intros k'. specialize (Heq k'). simpl in Heq. destruct (kcmp k' k2) eqn:E; [|done..].
    apply kcmp_eq in E as ->. rewrite !mlookup_lt_None; [done|exact Hf2|exact Hf1].
Qed.

Lemma length_minsert_le k v m : length (minsert k v m) <= S (length m).
Proof.
  induction m as [|[k' v'] m IH]; simpl; [lia|]. destruct (kcmp k k'); simpl; lia.
Qed.

Lemma length_minsert_new k v m :
  mlookup k m = None -> length (minsert k v m) = S (length m).
Proof.
  induction m as [|[k' v'] m IH]; simpl; [done|]. destruct (kcmp k k') eqn:E; simpl; [done|done|].
  intros. by rewrite IH.
Qed.

Lemma length_merase_le k m : length (merase k m) <= length m.
Proof.
  induction m as [|[k' v'] m IH]; simpl; [lia|]. destruct (kcmp k k'); simpl; lia.
Qed.

(** Membership, as the elements of the container. *)
Lemma mlookup_elem_iff k m : msorted m -> is_Some (mlookup k m) <-> k ∈ map fst m.
Proof.
  intros Hs. split.
  - intros [v Hv%mlookup_elem]. apply list_elem_of_fmap. by exists (k, v).
  - intros ([k' v] & -> & Hin)%list_elem_of_fmap. exists v. by apply elem_mlookup.
Qed.

Lemma msorted_NoDup m : msorted m -> NoDup (map fst m).
Proof.
  induction 1 as [|[k v] m Hs IH Hf]; [constructor|]. constructor; [|done].
  intros ([k' v'] & Hk & Hin)%list_elem_of_fmap. simpl in Hk. subst k'.
  rewrite Forall_forall in Hf. specialize (Hf _ Hin). unfold key_lt in Hf. simpl in Hf.
  by rewrite kcmp_refl in Hf.
Qed.

(** The first key, [m.begin()->first]. *)
Definition mfirst m : option K := head (map fst m).

Lemma mfirst_insert k v m :
  mfirst (minsert k v m) =
  match mfirst m with Some k0 => match kcmp k k0 with Gt => Some k0 | _ => Some k end | None => Some k end.
Proof. destruct m as [|[k0 v0] m]; simpl; [done|]. by destruct (kcmp k k0). Qed.

Lemma mfirst_erase k m :
  msorted m ->
  match mfirst (merase k m) with
  | Some k1 => exists k0, mfirst m = Some k0 /\ kcmp k0 k1 <> Gt
  | None => True
  end.
Proof.
  intros Hs. destruct (mfirst (merase k m)) as [k1|] eqn:E; [|done].
  destruct Hs as [|[k0 v0] m Hs Hf]; [done|]. exists k0. split; [done|].
  assert (Hin : k1 ∈ map fst (merase k ((k0, v0) :: m))).
  { unfold mfirst in E. destruct (map fst (merase _ _)); simplify_eq/=. by left. }
  assert (Hall : Forall (fun p => kcmp k0 p.1 <> Gt) ((k0, v0) :: m)).
  { constructor; [simpl; by rewrite kcmp_refl|]. eapply Forall_impl; [exact Hf|].
    intros p Hp. unfold key_lt in Hp. simpl in Hp. by rewrite Hp. }
  apply (merase_Forall _ k) in Hall. rewrite Forall_forall in Hall.
  apply list_elem_of_fmap in Hin as ([k' v'] & -> & Hin). exact (Hall _ Hin).
Qed.

(** Runs of insertions, later ones winning. *)
Definition minserts (l : list (K * V)) m : stdmap K V :=
  foldl (fun m kv => minsert kv.1 kv.2 m) m l.

Lemma minserts_app l1 l2 m : minserts (l1 ++ l2) m = minserts l2 (minserts l1 m).
Proof. apply foldl_app. Qed.

Lemma msorted_minserts l m : msorted m -> msorted (minserts l m).
Proof.
  revert m. induction l as [|kv l IH]; intros m Hm; [done|]. by apply IH, msorted_insert.
Qed.

Lemma mlookup_minserts k l m :
  msorted l ->
  mlookup k (minserts l m) = match mlookup k l with Some v => Some v | None => mlookup k m end.
Proof.
  intros Hs. revert m. induction Hs as [|[k0 v0] l Hs IH Hf]; intros m; [done|].
  unfold minserts in *. cbn [foldl mlookup fst snd]. rewrite IH. destruct (kcmp k k0) eqn:E.
  - apply kcmp_eq in E as ->. rewrite (mlookup_lt_None k0 l) by exact Hf.
    by rewrite mlookup_insert_eq.
  - destruct (mlookup k l); [done|]. rewrite mlookup_insert_ne; [done|].
    intros ->. by rewrite kcmp_refl in E.
  - destruct (mlookup k l); [done|]. rewrite mlookup_insert_ne; [done|].
    intros ->. by rewrite kcmp_refl in E.
Qed.

(** The entries whose key fails a test. *)
Definition drop_keys (f : K -> bool) m : stdmap K V := filter (fun kv => f kv.1 = false) m.

Lemma msorted_drop_keys f m : msorted m -> msorted (drop_keys f m).
Proof.
  unfold drop_keys. induction 1 as [|kv m Hs IH Hf]; [constructor|].
  destruct (f kv.1) eqn:E; [by rewrite filter_cons_False by congruence|].
  rewrite filter_cons_True by done. constructor; [done|]. by apply Forall_filter.
Qed.

Lemma mlookup_drop_keys f k m :
  mlookup k (drop_keys f m) = if f k then None else mlookup k m.
Proof.
  unfold drop_keys. induction m as [|[k0 v0] m IH]; [by destruct (f k)|].
  destruct (f k0) eqn:E.
  - rewrite filter_cons_False by (simpl; congruence). rewrite IH. simpl.
    destruct (f k) eqn:Ek; [done|]. destruct (kcmp k k0) eqn:Ec; [|done..].
    apply kcmp_eq in Ec. congruence.
  - rewrite filter_cons_True by done. simpl. rewrite IH.
    destruct (kcmp k k0) eqn:Ec; [|done..]. apply kcmp_eq in Ec as ->. by rewrite E.
Qed.
End stdmap.

#[export] Hint Resolve msorted_insert msorted_erase : cox.
#[export] Hint Rewrite @mlookup_insert_eq @mlookup_erase_eq using (typeclasses eauto) : cox.
