(* ===== verification/CStr.v ===== *)
(** * The C and C++ library functions on text that the sources call

    [std::find], [std::string::find]/[substr], [std::tolower], [std::isalnum]
    (in the "C" locale), [std::strtoul], [std::atoi] and [std::to_string], with
    the lemmas the components share about them. *)

From S2P Require Import Prelude.

(** ** Searching *)

(** [std::find(begin, end, c) - begin]: the length of the range when absent. *)
Fixpoint find_char (c : ascii) (s : bytes) : nat :=
  match s with
  | [] => 0
  | x :: s' => if bool_decide (x = c) then 0 else S (find_char c s')
  end.

(** [s.find(c, pos)], [None] for [npos]. *)
Definition find_from (c : ascii) (pos : nat) (s : bytes) : option nat :=
  let i := pos + find_char c (drop pos s) in
  if i <? length s then Some i else None.

(** [s.substr(pos, n)] for [pos <= s.size()]. *)
Definition substr (pos n : nat) (s : bytes) : bytes := take n (drop pos s).

Fixpoint starts_with (p s : bytes) : bool :=
  match p, s with
  | [], _ => true
  | x :: p', y :: s' => bool_decide (x = y) && starts_with p' s'
  | _ :: _, [] => false
  end.

(** [s.find(p) != npos]. *)
Fixpoint contains (p s : bytes) : bool :=
  starts_with p s || match s with [] => false | _ :: s' => contains p s' end.

Lemma find_char_le c s : find_char c s <= length s.
Proof. induction s; simpl; [lia|]. case_bool_decide; lia. Qed.

Lemma find_char_notin c s : c ∉ s -> find_char c s = length s.
Proof.
  induction s as [|x s IH]; simpl; [done|]. intros [Hx Hs]%not_elem_of_cons.
  rewrite bool_decide_eq_false_2 by congruence. by rewrite IH.
Qed.

Lemma find_char_app c s t : c ∉ s -> find_char c (s ++ c :: t) = length s.
Proof.
  induction s as [|x s IH]; simpl; [by rewrite bool_decide_eq_true_2|].
  intros [Hx Hs]%not_elem_of_cons. rewrite bool_decide_eq_false_2 by congruence. auto.
Qed.

Lemma find_char_lookup c s : find_char c s < length s -> s !! find_char c s = Some c.
Proof.
  induction s as [|x s IH]; simpl; [lia|]. case_bool_decide; intros; [by subst|].
  apply IH. lia.
Qed.

Lemma find_char_take c s : c ∉ take (find_char c s) s.
Proof.
  induction s as [|x s IH]; simpl; [by apply not_elem_of_nil|].
  case_bool_decide; simpl; [by apply not_elem_of_nil|].
  apply not_elem_of_cons. split; [congruence|done].
Qed.

Lemma find_char_absent c s : find_char c s = length s <-> c ∉ s.
Proof.
  split; [|apply find_char_notin]. intros E. pose proof (find_char_take c s) as H.
  by rewrite E, take_ge in H.
Qed.

(** ** Character classes (the "C" locale) *)
Definition code (c : ascii) : Z := Z.of_N (N_of_ascii c).

Definition isdigit (c : ascii) : bool := (48 <=? code c)%Z && (code c <=? 57)%Z.
Definition isupper (c : ascii) : bool := (65 <=? code c)%Z && (code c <=? 90)%Z.
Definition islower (c : ascii) : bool := (97 <=? code c)%Z && (code c <=? 122)%Z.
Definition isalnum (c : ascii) : bool := isdigit c || isupper c || islower c.
Definition isspace (c : ascii) : bool :=
  (code c =? 32)%Z || ((9 <=? code c)%Z && (code c <=? 13)%Z).

Definition char_of (z : Z) : ascii := ascii_of_N (Z.to_N z).

Definition tolower (c : ascii) : ascii :=
  if isupper c then char_of (code c + 32) else c.

Lemma code_range c : (0 <= code c < 256)%Z.
Proof. unfold code. pose proof (N_ascii_bounded c). lia. Qed.

Lemma char_of_code c : char_of (code c) = c.
Proof. unfold char_of, code. rewrite N2Z.id. apply ascii_N_embedding. Qed.

Lemma code_char_of z : (0 <= z < 256)%Z -> code (char_of z) = z.
Proof. intros. unfold code, char_of. rewrite N_ascii_embedding; lia. Qed.

Lemma tolower_idem c : tolower (tolower c) = tolower c.
Proof. destruct c as [[] [] [] [] [] [] [] []]; reflexivity. Qed.

(** ** Integers in text *)

(** Value of [c] as a digit of [base] ([base <= 36]). *)
Definition digit_val (base : Z) (c : ascii) : option Z :=
  let v := if isdigit c then (code c - 48)%Z
           else if islower c then (code c - 87)%Z
           else if isupper c then (code c - 55)%Z
           else 99%Z in
  if (v <? base)%Z then Some v else None.

Fixpoint parse_digits (base : Z) (s : bytes) (acc : Z) : Z :=
  match s with
  | [] => acc
  | c :: s' =>
    match digit_val base c with
    | Some d => parse_digits base s' (acc * base + d)%Z
    | None => acc
    end
  end.

Fixpoint skip_spaces (s : bytes) : bytes :=
  match s with
  | c :: s' => if isspace c then skip_spaces s' else s
  | [] => []
  end.

Definition take_sign (s : bytes) : bool * bytes :=
  match s with
  | c :: s' =>
    if bool_decide (c = "-"%char) then (true, s')
    else if bool_decide (c = "+"%char) then (false, s')
    else (false, s)
  | [] => (false, [])
  end.

(** Base 16 accepts a leading [0x]; without a digit after it the value is the
    [0] before the [x], which is what skipping the prefix gives as well. *)
Definition skip_0x (s : bytes) : bytes :=
  match s with
  | z :: x :: s' =>
    if bool_decide (z = "0"%char) && (bool_decide (x = "x"%char) || bool_decide (x = "X"%char))
    then s' else s
  | _ => s
  end.

Definition ULONG_MAX : Z := (two64 - 1)%Z.

(** [std::strtoul(s.c_str(), nullptr, base)] for bases 10 and 16.  A NUL byte
    ends the C string; it is not a digit, so parsing stops there as well. *)
Definition strtoul (base : Z) (s : bytes) : Z :=
  let '(neg, s1) := take_sign (skip_spaces s) in
  let s2 := if (base =? 16)%Z then skip_0x s1 else s1 in
  let v := parse_digits base s2 0 in
  if (ULONG_MAX <? v)%Z then ULONG_MAX
  else if neg then wrap64 (- v) else v.

(** [std::atoi(s.c_str())]: the [long] value clamped as [strtol] does, then
    truncated to the 32-bit [int]. *)
Definition atoi (s : bytes) : Z :=
  let '(neg, s1) := take_sign (skip_spaces s) in
  let v := parse_digits 10 s1 0 in
  let l := if neg then Z.max (- v) (- 2 ^ 63) else Z.min v (2 ^ 63 - 1) in
  ((l + 2 ^ 31) mod 2 ^ 32 - 2 ^ 31)%Z.

Fixpoint dec_loop (fuel : nat) (n : Z) (acc : bytes) : bytes :=
  match fuel with
  | O => acc
  | S fuel' =>
    let acc' := char_of (48 + n mod 10) :: acc in
    if (n <? 10)%Z then acc' else dec_loop fuel' (n / 10) acc'
  end.

(** Decimal digits of [n >= 0]: a number has no more decimal digits than bits. *)
Definition dec (n : Z) : bytes := dec_loop (S (Z.to_nat (Z.log2 n))) n [].

(** [std::to_string] *)
Definition to_string (n : Z) : bytes :=
  if (n <? 0)%Z then "-"%char :: dec (- n) else dec n.

Lemma digit_val_char d base :
  (0 <= d < 10)%Z -> (10 <= base)%Z -> digit_val base (char_of (48 + d)) = Some d.
Proof.
  intros Hd Hb. unfold digit_val, isdigit. rewrite code_char_of by lia.
  rewrite (proj2 (Z.leb_le 48 _)), (proj2 (Z.leb_le _ 57)) by lia. simpl.
  replace (48 + d - 48)%Z with d by lia. by rewrite (proj2 (Z.ltb_lt _ _)) by lia.
Qed.

Lemma isdigit_char d : (0 <= d < 10)%Z -> isdigit (char_of (48 + d)) = true.
Proof.
  intros. unfold isdigit. rewrite code_char_of by lia.
  apply andb_true_intro; split; apply Z.leb_le; lia.
Qed.

Lemma parse_dec_loop fuel n acc :
  (0 <= n < 10 ^ Z.of_nat fuel)%Z ->
  parse_digits 10 (dec_loop fuel n acc) 0 = parse_digits 10 acc n.
Proof.
  revert n acc. induction fuel as [|fuel IH]; intros n acc Hn; simpl.
  - simpl in Hn. by replace n with 0%Z by lia.
  - pose proof (Z.mod_pos_bound n 10 eq_refl) as Hm.
    pose proof (Z.div_mod n 10 ltac:(lia)) as Hdm.
    destruct (Z.ltb_spec n 10) as [Hlt|Hge].
    + simpl. rewrite digit_val_char by lia. rewrite Z.mod_small by lia. reflexivity.
    + rewrite IH.
      * simpl. rewrite digit_val_char by lia. f_equal. lia.
      * rewrite Nat2Z.inj_succ, Z.pow_succ_r in Hn by lia.
        split; [apply Z.div_pos; lia|apply Z.div_lt_upper_bound; lia].
Qed.

Lemma dec_fuel n : (0 <= n)%Z -> (n < 10 ^ Z.of_nat (S (Z.to_nat (Z.log2 n))))%Z.
Proof.
  intros Hn. destruct (Z.eq_dec n 0%Z) as [->|Hnz]; [done|].
  pose proof (Z.log2_spec n ltac:(lia)) as [_ Hlt]. pose proof (Z.log2_nonneg n).
  replace (Z.of_nat (S (Z.to_nat (Z.log2 n)))) with (Z.succ (Z.log2 n)) by lia.
  eapply Z.lt_le_trans; [exact Hlt|]. apply Z.pow_le_mono_l. lia.
Qed.

Lemma parse_dec n : (0 <= n)%Z -> parse_digits 10 (dec n) 0 = n.
Proof. intros. unfold dec. rewrite parse_dec_loop; [done|]. split; [done|by apply dec_fuel]. Qed.

Lemma dec_loop_digits fuel n acc :
  (0 <= n)%Z -> Forall (fun c => isdigit c = true) acc ->
  Forall (fun c => isdigit c = true) (dec_loop fuel n acc).
Proof.
  revert n acc. induction fuel as [|fuel IH]; intros n acc Hn Hacc; simpl; [done|].
  pose proof (Z.mod_pos_bound n 10 eq_refl). case_if.
  - constructor; [apply isdigit_char; lia|done].
  - apply IH; [apply Z.div_pos; lia|]. constructor; [apply isdigit_char; lia|done].
Qed.

Lemma dec_digits n : (0 <= n)%Z -> Forall (fun c => isdigit c = true) (dec n).
Proof. intros. by apply dec_loop_digits. Qed.

Lemma dec_loop_ge fuel n acc : length acc <= length (dec_loop fuel n acc).
Proof.
  revert n acc. induction fuel as [|fuel IH]; intros n acc; simpl; [lia|].
  case_if; simpl; [lia|]. eapply Nat.le_trans; [|apply IH]. simpl; lia.
Qed.

Lemma dec_nonempty n : dec n <> [].
Proof.
  unfold dec. simpl. case_if; [done|]. intros E'.
  pose proof (dec_loop_ge (Z.to_nat (Z.log2 n)) (n / 10) [char_of (48 + n mod 10)]) as H.
  rewrite E' in H. simpl in H. lia.
Qed.

Lemma length_dec_loop fuel : forall n acc, length (dec_loop fuel n acc) <= fuel + length acc.
Proof. induction fuel as [|fuel IH]; intros n acc; simpl; [lia|]. case_if; [simpl; lia|]. etrans; [apply IH|]. simpl. lia. Qed.

(** A 64-bit number has no more than 64 digits. *)
Lemma length_to_string n : u64 n -> length (to_string n) <= 64.
Proof.
  intros [Hn0 Hn1]. unfold to_string. rewrite (proj2 (Z.ltb_ge _ _)) by lia. unfold dec.
  pose proof (length_dec_loop (S (Z.to_nat (Z.log2 n))) n []) as Hl. simpl length in Hl at 2.
  assert (Z.log2 n < 64)%Z; [|lia]. destruct (decide (n = 0)%Z) as [->|Hne]; [done|].
  apply Z.log2_lt_pow2; [lia|]. exact Hn1.
Qed.

Lemma digit_not_space c : isdigit c = true -> isspace c = false.
Proof.
  unfold isdigit, isspace. intros H. bool_prop.
  apply orb_false_iff; split; [apply Z.eqb_neq; lia|].
  apply andb_false_iff. right. apply Z.leb_gt. lia.
Qed.

Lemma digit_ne (c d : ascii) : isdigit c = true -> isdigit d = false -> c <> d.
Proof. congruence. Qed.

Lemma take_sign_digits s :
  Forall (fun c => isdigit c = true) s -> take_sign (skip_spaces s) = (false, s).
Proof.
  destruct s as [|c s]; [done|]. intros [Hc Hs]%Forall_cons. simpl.
  rewrite digit_not_space by done. simpl.
  rewrite !bool_decide_eq_false_2; [done|..]; by apply digit_ne.
Qed.

(** [strtoul] reads back what [to_string] wrote. *)
Lemma strtoul_to_string n : u64 n -> strtoul 10 (to_string n) = n.
Proof.
  intros [H0 H1]. unfold strtoul, to_string. rewrite (proj2 (Z.ltb_ge _ _)) by lia.
  rewrite take_sign_digits by (by apply dec_digits). simpl. rewrite parse_dec by done.
  unfold ULONG_MAX. by rewrite (proj2 (Z.ltb_ge _ _)) by lia.
Qed.

Lemma atoi_to_string n : (0 <= n < 2 ^ 31)%Z -> atoi (to_string n) = n.
Proof.
  intros [H0 H1]. unfold atoi, to_string. rewrite (proj2 (Z.ltb_ge _ _)) by lia.
  rewrite take_sign_digits by (by apply dec_digits). rewrite parse_dec by done.
  rewrite Z.min_l by lia. rewrite Z.mod_small by lia. lia.
Qed.

Lemma parse_digits_ge base s acc :
  (0 <= base)%Z -> (0 <= acc)%Z -> (0 <= parse_digits base s acc)%Z.
Proof.
  intros Hb. revert acc. induction s as [|c s IH]; intros acc Ha; simpl; [done|].
  destruct (digit_val base c) as [d|] eqn:E; [|done]. apply IH.
  assert (0 <= d)%Z; [|nia].
  unfold digit_val in E. case_if_in E; simplify_eq.
  unfold isdigit, islower, isupper in *. repeat case_if; bool_prop; lia.
Qed.

Lemma strtoul_u64 base s : (0 <= base)%Z -> u64 (strtoul base s).
Proof.
  intros Hb. unfold strtoul. destruct (take_sign _) as [neg s1].
  pose proof (parse_digits_ge base (if (base =? 16)%Z then skip_0x s1 else s1) 0 Hb ltac:(lia)).
  case_if; [unfold ULONG_MAX, u64; rewrite two64_val; lia|].
  case_if; [apply wrap64_range|]. unfold u64, ULONG_MAX in *. lia.
Qed.
