(* ===== verification/Buffer.v ===== *)
(** * [buffer::Buffer] (buffer/buffer.h, buffer/buffer.cc)

    The growable byte buffer between sockets and protocol parsers.  [data_] is
    the vector, [reader_index_] and [writer_index_] delimit the readable bytes.
    Sizes are those of in-memory objects, so they are naturals; that none of the
    [size_t] sums of the code wraps is the bound [append_no_overflow] below.

    The parsers and serializers are clients of a byte queue: the class
    [ByteQueue] with its laws [ByteQueueLaws] states what they rely on.  The
    buffer implements it, and so does the plain byte string, which is the
    abstract specification of the buffer. *)

From S2P Require Import Prelude.

(** ** What a byte queue promises to its clients *)
Class ByteQueue (B : Type) := {
  bq_bytes : B -> bytes;
  bq_size : B -> nat;
  bq_retrieve : nat -> B -> B;
  bq_append : bytes -> B -> B;
  bq_wf : B -> Prop;
}.

Class ByteQueueLaws (B : Type) `{ByteQueue B} : Prop := {
  bq_size_bytes b : bq_wf b -> bq_size b = length (bq_bytes b);
  bq_retrieve_wf n b : bq_wf b -> n <= bq_size b -> bq_wf (bq_retrieve n b);
  bq_retrieve_bytes n b :
    bq_wf b -> n <= bq_size b -> bq_bytes (bq_retrieve n b) = drop n (bq_bytes b);
  bq_append_wf s b : bq_wf b -> bq_wf (bq_append s b);
  bq_append_bytes s b : bq_wf b -> bq_bytes (bq_append s b) = bq_bytes b ++ s;
}.

(** The abstract queue: the bytes themselves. *)
#[export] Instance bytes_queue : ByteQueue bytes := {|
  bq_bytes s := s; bq_size s := length s; bq_retrieve n s := drop n s;
  bq_append s t := t ++ s; bq_wf _ := True;
|}.
#[export] Instance bytes_queue_laws : ByteQueueLaws bytes.
Proof. by split. Qed.

(** ** The buffer *)
Module Buffer.

Record Buffer := mkBuffer {
  data_ : bytes;
  reader_index_ : nat;
  writer_index_ : nat;
}.
#[export] Instance Buffer_settable : Settable Buffer :=
  fun b => mkBuffer (data_ b) (reader_index_ b) (writer_index_ b).

Definition kCheapPrepend : nat := 8.
Definition kInitialSize : nat := 1024.

(** [Buffer(initial_size)]: a zero-filled vector. *)
Definition Buffer_new (initial_size : nat) : Buffer :=
  mkBuffer (replicate (kCheapPrepend + initial_size) Ascii.zero) kCheapPrepend kCheapPrepend.

Definition readableBytes (b : Buffer) : nat := writer_index_ b - reader_index_ b.
Definition writableBytes (b : Buffer) : nat := length (data_ b) - writer_index_ b.
Definition prependableBytes (b : Buffer) : nat := reader_index_ b.

(** [\[peek(), peek() + n)] *)
Definition peek (n : nat) (b : Buffer) : bytes := take n (drop (reader_index_ b) (data_ b)).

(** The readable region. *)
Definition content (b : Buffer) : bytes := peek (readableBytes b) b.

(** [memcpy]/[memmove] of [s] to offset [at] of the vector. *)
Definition write_at (at_ : nat) (s : bytes) (d : bytes) : bytes :=
  take at_ d ++ s ++ drop (at_ + length s) d.

Definition retrieveAll (b : Buffer) : Buffer :=
  b <| reader_index_ := kCheapPrepend |> <| writer_index_ := kCheapPrepend |>.

(** [retrieve(len)]; its assertion [len <= readableBytes()] is the precondition
    of the queue law. *)
Definition retrieve (len : nat) (b : Buffer) : Buffer :=
  if len <? readableBytes b
  then b <| reader_index_ := reader_index_ b + len |>
  else retrieveAll b.

Definition retrieveAsString (len : nat) (b : Buffer) : bytes * Buffer :=
  (peek len b, retrieve len b).

Definition retrieveAllAsString (b : Buffer) : bytes * Buffer :=
  retrieveAsString (readableBytes b) b.

(** [std::vector::resize]: new elements are zero. *)
Definition resize_data (n : nat) (d : bytes) : bytes :=
  take n d ++ replicate (n - length d) Ascii.zero.

Definition makeSpace (len : nat) (b : Buffer) : Buffer :=
  if writableBytes b + prependableBytes b <? len + kCheapPrepend then
    b <| data_ := resize_data (writer_index_ b + len) (data_ b) |>
  else
    let readable := readableBytes b in
    b <| data_ := write_at kCheapPrepend (peek readable b) (data_ b) |>
      <| reader_index_ := kCheapPrepend |>
      <| writer_index_ := kCheapPrepend + readable |>.

Definition ensureWritable (len : nat) (b : Buffer) : Buffer :=
  if writableBytes b <? len then makeSpace len b else b.

Definition hasWritten (len : nat) (b : Buffer) : Buffer :=
  b <| writer_index_ := writer_index_ b + len |>.

(** [append(data, len)] *)
Definition append (s : bytes) (b : Buffer) : Buffer :=
  let b1 := ensureWritable (length s) b in
  b1 <| data_ := write_at (writer_index_ b1) s (data_ b1) |>
     <| writer_index_ := writer_index_ b1 + length s |>.

(** [::readv] fills the iovecs in order: an error number, or the bytes it
    delivered.  The kernel is given the capacity of the iovecs it is handed. *)
Inductive readv_result :=
| ReadvError (errno : Z)
| ReadvOk (s : bytes).

Definition kExtraBuf : nat := Z.to_nat 65536.

(** The result is the byte count ([inl errno] for -1) and the new buffer. *)
Definition readFd (readv : nat -> readv_result) (b : Buffer) : (Z + nat) * Buffer :=
  let writable := writableBytes b in
  let capacity := if writable <? kExtraBuf then writable + kExtraBuf else writable in
  match readv capacity with
  | ReadvError e => (inl e, b)
  | ReadvOk s =>
    let n := length s in
    let filled :=
      b <| data_ := write_at (writer_index_ b) (take writable s) (data_ b) |> in
    if n <=? writable
    then (inr n, filled <| writer_index_ := writer_index_ b + n |>)
    else (inr n, append (drop writable s)
                   (filled <| writer_index_ := length (data_ filled) |>))
  end.

(** ** Invariant: [kCheapPrepend <= reader <= writer <= size] *)
Definition buffer_wf (b : Buffer) : Prop :=
  kCheapPrepend <= reader_index_ b <= writer_index_ b /\
  writer_index_ b <= length (data_ b).

Ltac wf := unfold buffer_wf, readableBytes, writableBytes, prependableBytes,
  hasWritten, retrieveAll, kCheapPrepend in *; simpl in *; len.

Lemma new_wf n : buffer_wf (Buffer_new n).
Proof. unfold Buffer_new. wf. Qed.

Lemma new_content n : content (Buffer_new n) = [].
Proof. reflexivity. Qed.

Lemma length_content b : buffer_wf b -> length (content b) = readableBytes b.
Proof. intros. unfold content, peek. wf. Qed.

Lemma length_write_at at_ s d :
  at_ + length s <= length d -> length (write_at at_ s d) = length d.
Proof. intros. unfold write_at. len. Qed.

Lemma length_resize n d : length (resize_data n d) = n.
Proof. unfold resize_data. len. Qed.
#[local] Hint Rewrite length_resize : cox.

(** A write past the readable region does not touch it. *)
Lemma slice_write_after at_ s d r n :
  r + n <= at_ -> at_ <= length d -> take n (drop r (write_at at_ s d)) = take n (drop r d).
Proof.
  intros. unfold write_at.
  rewrite drop_app_le by len. rewrite take_app_short by len.
  rewrite skipn_firstn_comm, firstn_firstn. f_equal. lia.
Qed.

(** Reading at the offset just written gives the bytes written. *)
Lemma slice_write_here at_ s d :
  at_ <= length d -> take (length s) (drop at_ (write_at at_ s d)) = s.
Proof.
  intros. unfold write_at. rewrite drop_app_exact by len. by apply take_app_exact.
Qed.

Lemma slice_resize n d r k :
  r + k <= n -> n >= length d -> r + k <= length d ->
  take k (drop r (resize_data n d)) = take k (drop r d).
Proof.
  intros. unfold resize_data. rewrite (take_ge d) by lia.
  rewrite drop_app_le by lia. by rewrite take_app_short by len.
Qed.

Lemma slice_split {A} r n m (d : list A) :
  take (n + m) (drop r d) = take n (drop r d) ++ take m (drop (r + n) d).
Proof.
  by rewrite <-take_take_drop, drop_drop.
Qed.

(** ** [makeSpace] and [ensureWritable] *)
Lemma makeSpace_spec len b :
  buffer_wf b -> writableBytes b < len ->
  buffer_wf (makeSpace len b) /\ content (makeSpace len b) = content b /\
  len <= writableBytes (makeSpace len b).
Proof.
  intros Hwf Hlt. unfold makeSpace. case_if.
  - unfold content, peek; simpl. split_and!.
    + wf.
    + apply slice_resize; wf.
    + wf.
  - assert (Hlen : length (peek (readableBytes b) b) = readableBytes b)
      by (apply length_content; done).
    assert (Hfit : kCheapPrepend + length (peek (readableBytes b) b) <= length (data_ b))
      by (rewrite Hlen; wf).
    split_and!.
    + unfold buffer_wf in *; simpl. rewrite length_write_at by done. wf.
    + fold (content b) in *. rewrite <-Hlen. generalize dependent (content b).
      intros p Hp ?. unfold content, peek, readableBytes; simpl.
      rewrite Nat.sub_0_r. apply (slice_write_here kCheapPrepend). wf.
    + unfold writableBytes at 1; simpl. rewrite length_write_at by done. wf.
Qed.

Lemma ensureWritable_spec len b :
  buffer_wf b ->
  buffer_wf (ensureWritable len b) /\ content (ensureWritable len b) = content b /\
  len <= writableBytes (ensureWritable len b).
Proof.
  intros Hwf. unfold ensureWritable. case_if; [by apply makeSpace_spec|done].
Qed.

(** Bytes placed at [beginWrite()] become the tail of the readable region. *)
Lemma fill_spec s b :
  buffer_wf b -> length s <= writableBytes b ->
  let b' := b <| data_ := write_at (writer_index_ b) s (data_ b) |>
              <| writer_index_ := writer_index_ b + length s |> in
  buffer_wf b' /\ content b' = content b ++ s.
Proof.
  intros Hwf Hs b'. subst b'.
  assert (Hl : length (write_at (writer_index_ b) s (data_ b)) = length (data_ b))
    by (apply length_write_at; wf).
  split; [unfold buffer_wf; simpl; rewrite Hl; wf|].
  unfold content, peek, readableBytes; simpl.
  replace (writer_index_ b + length s - reader_index_ b)
    with (readableBytes b + length s) by wf.
  rewrite slice_split. f_equal.
  - apply slice_write_after; wf.
  - replace (reader_index_ b + readableBytes b) with (writer_index_ b) by wf.
    apply slice_write_here. wf.
Qed.

Lemma append_spec s b :
  buffer_wf b -> buffer_wf (append s b) /\ content (append s b) = content b ++ s.
Proof.
  intros Hwf. destruct (ensureWritable_spec (length s) b Hwf) as (Hwf1 & Hc & Hw).
  unfold append. rewrite <-Hc. by apply fill_spec.
Qed.

Lemma retrieve_spec n b :
  buffer_wf b -> n <= readableBytes b ->
  buffer_wf (retrieve n b) /\ content (retrieve n b) = drop n (content b).
Proof.
  intros Hwf Hn. unfold retrieve. case_if.
  - split; [wf|]. unfold content, peek, readableBytes; simpl.
    rewrite skipn_firstn_comm, drop_drop. f_equal. lia.
  - split; [wf|]. rewrite drop_ge by (rewrite length_content; done).
    unfold content, peek, readableBytes; simpl. done.
Qed.

(** The buffer implements the byte queue. *)
#[global] Instance buffer_queue : ByteQueue Buffer := {|
  bq_bytes := content; bq_size := readableBytes; bq_retrieve := retrieve;
  bq_append := append; bq_wf := buffer_wf;
|}.
#[global] Instance buffer_queue_laws : ByteQueueLaws Buffer.
Proof.
  split; simpl.
  - intros. symmetry. by apply length_content.
  - intros. by apply retrieve_spec.
  - intros. by apply retrieve_spec.
  - intros. by apply append_spec.
  - intros. by apply append_spec.
Qed.

(** ** Histories of operations *)
Inductive buffer_op :=
| OpAppend (s : bytes)
| OpRetrieve (n : nat)
| OpRetrieveAsString (n : nat)
| OpRetrieveAll
| OpReadFd (r : readv_result).

(** The buffer after an operation and what the caller receives. *)
Definition buffer_run (b : Buffer) (op : buffer_op) : Buffer * option bytes :=
  match op with
  | OpAppend s => (append s b, None)
  | OpRetrieve n => (retrieve n b, None)
  | OpRetrieveAsString n => let '(s, b') := retrieveAsString n b in (b', Some s)
  | OpRetrieveAll => let '(s, b') := retrieveAllAsString b in (b', Some s)
  | OpReadFd r => ((readFd (fun _ => r) b).2, None)
  end.

(** The same operation on the abstract queue; a [retrieve] beyond the content
    is a violated assertion. *)
Definition queue_run (q : bytes) (op : buffer_op) : option (bytes * option bytes) :=
  match op with
  | OpAppend s => Some (q ++ s, None)
  | OpRetrieve n => if n <=? length q then Some (drop n q, None) else None
  | OpRetrieveAsString n =>
    if n <=? length q then Some (drop n q, Some (take n q)) else None
  | OpRetrieveAll => Some ([], Some q)
  | OpReadFd (ReadvError _) => Some (q, None)
  | OpReadFd (ReadvOk s) => Some (q ++ s, None)
  end.

Definition readFd_capacity (b : Buffer) : nat :=
  if writableBytes b <? kExtraBuf then writableBytes b + kExtraBuf else writableBytes b.

Lemma readFd_spec readv b :
  buffer_wf b ->
  buffer_wf (readFd readv b).2 /\
  match readv (readFd_capacity b) with
  | ReadvError e => readFd readv b = (inl e, b)
  | ReadvOk s => (readFd readv b).1 = inr (length s) /\
                 content (readFd readv b).2 = content b ++ s
  end.
Proof.
  intros Hwf. unfold readFd. fold (readFd_capacity b).
  destruct (readv (readFd_capacity b)) as [e|s] eqn:E; [done|].
  set (w := writableBytes b).
  assert (Hl : length (write_at (writer_index_ b) (take w s) (data_ b)) = length (data_ b))
    by (apply length_write_at; unfold w; wf).
  pose proof (fill_spec (take w s) b Hwf ltac:(unfold w; len)) as [Hf1 Hf2].
  case_if; simpl.
  - rewrite (take_ge s) in * by (unfold w; lia). done.
  - assert (Hlast : writer_index_ b + length (take w s) = length (data_ b))
      by (unfold w in *; wf).
    simpl in Hf1, Hf2. rewrite Hlast in Hf1, Hf2. rewrite Hl.
    destruct (append_spec (drop w s) _ Hf1) as [Ha1 Ha2]. split_and!; [done..|].
    rewrite Ha2, Hf2, <-app_assoc. by rewrite take_drop.
Qed.

Lemma buffer_run_step b op q' out :
  buffer_wf b -> queue_run (content b) op = Some (q', out) ->
  buffer_wf (buffer_run b op).1 /\ content (buffer_run b op).1 = q' /\
  (buffer_run b op).2 = out.
Proof.
  intros Hwf. pose proof (length_content b Hwf) as Hl. destruct op as [s|n|n| |r]; simpl.
  - intros [= <- <-]. by destruct (append_spec s b Hwf).
  - case_if; [|done]. intros [= <- <-]. rewrite Hl in *. by destruct (retrieve_spec n b Hwf).
  - case_if; [|done]. intros [= <- <-]. rewrite Hl in *.
    destruct (retrieve_spec n b Hwf); [done|]. split_and!; [done..|].
    unfold content, peek. rewrite firstn_firstn. do 2 f_equal. lia.
  - intros [= <- <-]. destruct (retrieve_spec (readableBytes b) b Hwf) as [? Hc]; [done|].
    split_and!; [done| |done]. rewrite Hc. apply drop_ge. lia.
  - destruct (readFd_spec (fun _ => r) b Hwf) as [Hw Hr].
    destruct r; intros; simplify_eq; [by rewrite Hr|by destruct Hr].
Qed.

(** Run a history on both sides; the abstract side reports a violated assertion. *)
Fixpoint buffer_exec (b : Buffer) (ops : list buffer_op) : Buffer * list (option bytes) :=
  match ops with
  | [] => (b, [])
  | op :: ops' =>
    let r := buffer_run b op in
    let rs := buffer_exec r.1 ops' in (rs.1, r.2 :: rs.2)
  end.

Fixpoint queue_exec (q : bytes) (ops : list buffer_op) : option (bytes * list (option bytes)) :=
  match ops with
  | [] => Some (q, [])
  | op :: ops' =>
    match queue_run q op with
    | Some (q1, o) =>
      match queue_exec q1 ops' with
      | Some (q2, os) => Some (q2, o :: os)
      | None => None
      end
    | None => None
    end
  end.

Lemma buffer_exec_refines b ops q outs :
  buffer_wf b -> queue_exec (content b) ops = Some (q, outs) ->
  buffer_wf (buffer_exec b ops).1 /\ content (buffer_exec b ops).1 = q /\
  (buffer_exec b ops).2 = outs.
Proof.
  revert b q outs. induction ops as [|op ops IH]; simpl; intros b q outs Hwf H.
  { by simplify_eq. }
  destruct (queue_run (content b) op) as [[q1 o]|] eqn:E1; [|done].
  destruct (queue_exec q1 ops) as [[q2 os]|] eqn:E2; [|done]. simplify_eq.
  destruct (buffer_run_step b op q1 o Hwf E1) as (Hw & Hc & Ho). rewrite <-Hc in E2.
  destruct (IH _ _ _ Hw E2) as (? & ? & ?). by rewrite Ho; subst.
Qed.

(** C7: every history of appends, reads from a descriptor and retrievals behaves
    on the buffer as on a FIFO byte string: same bytes handed out, same content
    left, and the index invariant holds at the end. *)
Theorem buffer_refines_queue n ops q outs :
  queue_exec [] ops = Some (q, outs) ->
  buffer_wf (buffer_exec (Buffer_new n) ops).1 /\
  content (buffer_exec (Buffer_new n) ops).1 = q /\
  (buffer_exec (Buffer_new n) ops).2 = outs.
Proof. intros. apply buffer_exec_refines; [apply new_wf|done]. Qed.

Lemma buffer_refines_queue_witness :
  let ops := [OpAppend (bs "hello world"); OpRetrieve 3; OpAppend (bs "!!")] in
  content (buffer_exec (Buffer_new 4) ops).1 = bs "lo world!!".
Proof.
  apply (buffer_refines_queue 4 [OpAppend (bs "hello world"); OpRetrieve 3; OpAppend (bs "!!")]
           (bs "lo world!!") [None; None; None]).
  by vm_compute.
Defined.

(** Growing is the last resort: while the content, the new bytes and the
    prepend area fit in the vector, its size does not change. *)
Lemma append_size s b :
  buffer_wf b ->
  length (data_ (append s b)) =
  if readableBytes b + length s + kCheapPrepend <=? length (data_ b)
  then length (data_ b)
  else if length s <=? writableBytes b then length (data_ b)
  else writer_index_ b + length s.
Proof.
  intros Hwf. destruct (ensureWritable_spec (length s) b Hwf) as (Hw1 & Hc1 & Hs1).
  unfold append; simpl. rewrite length_write_at by wf.
  clear Hw1 Hc1 Hs1. unfold ensureWritable, makeSpace. repeat case_if; simpl; try wf.
  apply length_write_at. pose proof (length_content b Hwf) as Hl. unfold content in Hl. wf.
Qed.

(** The [size_t] sums computed while appending [s] to [b]. *)
Definition append_sums (len : nat) (b : Buffer) : list Z :=
  [Z.of_nat (writableBytes b + prependableBytes b); Z.of_nat (len + kCheapPrepend);
   Z.of_nat (writer_index_ b + len); Z.of_nat (kCheapPrepend + readableBytes b);
   Z.of_nat (writer_index_ (ensureWritable len b) + len)].

(** Appending to a buffer below the allocation limit never wraps a [size_t]
    and allocates at most the old size plus the appended bytes. *)
Theorem append_no_overflow s b :
  buffer_wf b -> (Z.of_nat (length (data_ b)) < 2 ^ 63)%Z -> (zlen s < 2 ^ 63 - 8)%Z ->
  Forall u64 (append_sums (length s) b) /\
  length (data_ (append s b)) <= length (data_ b) + length s.
Proof.
  intros Hwf Hb Hs. unfold zlen in Hs. split.
  - assert (writer_index_ (ensureWritable (length s) b) <= writer_index_ b).
    { unfold ensureWritable, makeSpace. repeat case_if; wf. }
    repeat constructor; rewrite ?two64_val; wf.
  - rewrite append_size by done. repeat case_if; wf.
Qed.

Lemma append_no_overflow_witness :
  Forall u64 (append_sums 5 (Buffer_new 4)) /\
  length (data_ (append (bs "hello") (Buffer_new 4))) <= 12 + 5.
Proof.
  apply (append_no_overflow (bs "hello") (Buffer_new 4)); [apply new_wf|by vm_compute..].
Defined.

End Buffer.
