(* ===== verification/Incremental.v ===== *)
(** * Incremental parsers over a byte queue

    [HttpContext::parseRequest] and [ResponseParser::parse] have the same shape:
    a loop that, state by state, consumes a prefix of the input buffer and stops
    when an iteration makes no progress, so that the caller can resume when more
    bytes have arrived.  This file is the interface both implement ([IncParser],
    with its laws) and what follows from the laws alone: termination, refinement
    from [buffer::Buffer] to plain bytes, and independence of the way the input
    is cut into fragments. *)

From S2P Require Import Prelude Buffer.

(** The result of one iteration of the loop: progress was made; no progress; or
    an early [return false]. *)
Inductive outcome (C B : Type) :=
| Continue (c : C) (b : B)
| Stop (c : C) (b : B)
| Fail (c : C) (b : B).
Arguments Continue {C B} c b.
Arguments Stop {C B} c b.
Arguments Fail {C B} c b.

Class IncParser (C : Type) := {
  inc_step : forall {B : Type} `{ByteQueue B}, C -> B -> outcome C B;
  inc_error : C -> bool;        (* the parser is in its error state *)
  inc_reason_type : Type;
  inc_reason : C -> inc_reason_type;  (* what it reports then *)
}.

(** ** The loop *)
Section loop.
Context {C B : Type} `{!IncParser C, !ByteQueue B}.
Abbreviation result := (bool * C * B)%type.

Definition inc_body (s : C * B) : (C * B) + result :=
  match inc_step s.1 s.2 with
  | Continue c b => inl (c, b)
  | Stop c b => inr (negb (inc_error c), c, b)
  | Fail c b => inr (false, c, b)
  end.

Definition inc_loop (fuel : nat) (c : C) (buf : B) : option result :=
  iter_while fuel inc_body (c, buf).

(** Every iteration that makes progress consumes at least one byte, so one more
    iteration than there are bytes is enough ([inc_loop_result]). *)
Definition inc_run (c : C) (buf : B) : result :=
  default (false, c, buf) (inc_loop (S (bq_size buf)) c buf).

Lemma inc_loop_S fuel c (buf : B) :
  inc_loop (S fuel) c buf =
  match inc_step c buf with
  | Continue c' b' => inc_loop fuel c' b'
  | Stop c' b' => Some (negb (inc_error c'), c', b')
  | Fail c' b' => Some (false, c', b')
  end.
Proof.
  unfold inc_loop. cbn [iter_while]. unfold inc_body at 1. simpl fst; simpl snd.
  by destruct (inc_step c buf).
Qed.

(** The buffer after an iteration: the input less a prefix, whose length is
    positive when the iteration made progress. *)
Definition consumes (buf : B) (o : outcome C B) : Prop :=
  exists n, n <= bq_size buf /\
    match o with
    | Continue _ b => 0 < n /\ b = bq_retrieve n buf
    | Stop _ b => n = 0 /\ b = buf
    | Fail _ b => b = buf \/ b = bq_retrieve n buf
    end.

Lemma consumes_stop c buf : consumes buf (Stop c buf).
Proof. exists 0. split; [lia|done]. Qed.
Lemma consumes_fail c buf : consumes buf (Fail c buf).
Proof. exists 0. split; [lia|by left]. Qed.
Lemma consumes_continue c n buf :
  0 < n <= bq_size buf -> consumes buf (Continue c (bq_retrieve n buf)).
Proof. intros. exists n. split_and!; [lia|lia|done]. Qed.

Definition outcome_bytes (o : outcome C B) : outcome C bytes :=
  match o with
  | Continue c b => Continue c (bq_bytes b)
  | Stop c b => Stop c (bq_bytes b)
  | Fail c b => Fail c (bq_bytes b)
  end.
End loop.
#[export] Hint Resolve consumes_stop consumes_fail consumes_continue : cox.

(** ** The laws of an incremental parser *)
Class IncParserLaws (C : Type) `{IncParser C} : Prop := {
  inc_consumes : forall {B} `{ByteQueueLaws B} c (buf : B),
    bq_wf buf -> consumes buf (inc_step c buf);
  inc_refines : forall {B} `{ByteQueueLaws B} c (buf : B),
    bq_wf buf -> outcome_bytes (inc_step c buf) = inc_step c (bq_bytes buf);
  inc_fail_error : forall c (s : bytes) c' s',
    inc_step c s = Fail c' s' -> inc_error c' = true;
  inc_error_stop : forall c (s : bytes), inc_error c = true -> inc_step c s = Stop c s;
}.

Section progress.
Context {C B : Type} `{IncParserLaws C, ByteQueueLaws B}.

Lemma inc_step_continue c (buf : B) c' buf' :
  bq_wf buf -> inc_step c buf = Continue c' buf' -> bq_wf buf' /\ bq_size buf' < bq_size buf.
Proof.
  intros Hwf E. destruct (inc_consumes c buf Hwf) as (n & Hn & Hc). rewrite E in Hc.
  destruct Hc as [Hpos ->]. assert (Hw : bq_wf (bq_retrieve n buf)) by (by apply bq_retrieve_wf).
  split; [done|]. rewrite !bq_size_bytes, bq_retrieve_bytes, length_drop by done.
  rewrite bq_size_bytes in Hn by done. lia.
Qed.

Lemma inc_loop_total fuel c (buf : B) :
  bq_wf buf -> bq_size buf < fuel -> exists r, inc_loop fuel c buf = Some r.
Proof.
  intros Hwf Hf. unfold inc_loop.
  apply (iter_while_total inc_body (fun s => bq_size s.2) (fun s => bq_wf s.2)); [|done..].
  intros [c1 b1] [c2 b2]; simpl. intros Hw. unfold inc_body; simpl.
  destruct (inc_step c1 b1) eqn:E; [|done..]. intros [= -> ->].
  destruct (inc_step_continue c1 b1 c2 b2 Hw E). auto.
Qed.

Lemma inc_loop_result c (buf : B) fuel :
  bq_wf buf -> bq_size buf < fuel -> inc_loop fuel c buf = Some (inc_run c buf).
Proof.
  intros Hwf Hf. destruct (inc_loop_total (S (bq_size buf)) c buf Hwf) as [r Hr]; [lia|].
  unfold inc_run. rewrite Hr. simpl. unfold inc_loop in *.
  eapply iter_while_mono; [exact Hr|lia].
Qed.

Lemma inc_loop_refines fuel c (buf : B) r :
  bq_wf buf -> inc_loop fuel c buf = Some r ->
  bq_wf r.2 /\ inc_loop fuel c (bq_bytes buf) = Some (r.1, bq_bytes r.2).
Proof.
  revert c buf. induction fuel as [|fuel IH]; intros c buf Hwf; [done|].
  rewrite !inc_loop_S. pose proof (inc_refines c buf Hwf) as Hs.
  pose proof (inc_consumes c buf Hwf) as (n & Hn & Hc).
  destruct (inc_step c buf) as [c' b'|c' b'|c' b'] eqn:E; simpl in Hs; rewrite <-Hs.
  - destruct (inc_step_continue c buf c' b' Hwf E) as [Hw _]. by apply IH.
  - intros [= <-]. simpl. destruct Hc as [_ ->]. done.
  - intros [= <-]. simpl. split; [|done]. destruct Hc as [->| ->]; [done|].
    by apply bq_retrieve_wf.
Qed.

(** Running on a buffer is running on the bytes in it. *)
Lemma inc_run_bytes c (buf : B) :
  bq_wf buf ->
  bq_wf (inc_run c buf).2 /\
  inc_run c (bq_bytes buf) = ((inc_run c buf).1, bq_bytes (inc_run c buf).2).
Proof.
  intros Hwf. pose proof (inc_loop_result c buf (S (bq_size buf)) Hwf ltac:(lia)) as Ht.
  destruct (inc_loop_refines _ _ _ _ Hwf Ht) as [Hw Hb]. split; [done|].
  unfold inc_run at 1. simpl bq_size. rewrite <-(bq_size_bytes buf Hwf), Hb. done.
Qed.
End progress.

(** ** Runs on plain bytes *)
Section bytes_run.
Context {C : Type} `{IncParserLaws C}.
Implicit Types (c : C) (s t : bytes).

Lemma inc_step_shorter c s c' s' : inc_step c s = Continue c' s' -> length s' < length s.
Proof.
  intros E. assert (Hwf : bq_wf s) by exact I.
  by destruct (inc_step_continue c s c' s' Hwf E).
Qed.

(** One iteration of the loop, without fuel. *)
Lemma inc_run_unfold c s :
  inc_run c s =
  match inc_step c s with
  | Continue c' s' => inc_run c' s'
  | Stop c' s' => (negb (inc_error c'), c', s')
  | Fail c' s' => (false, c', s')
  end.
Proof.
  pose proof (inc_loop_result c s (S (length s)) I ltac:(simpl; lia)) as Hr.
  rewrite inc_loop_S in Hr. destruct (inc_step c s) as [c' s'|c' s'|c' s'] eqn:E; try congruence.
  pose proof (inc_step_shorter c s c' s' E) as Hlt.
  pose proof (inc_loop_result c' s' (length s) I ltac:(simpl; lia)) as H'. congruence.
Qed.

(** Induction on the loop. *)
Lemma inc_run_ind (P : C -> bytes -> Prop) :
  (forall c s, (forall c' s', inc_step c s = Continue c' s' -> P c' s') -> P c s) ->
  forall c s, P c s.
Proof.
  intros Hstep c s. remember (length s) as n eqn:Hn. revert c s Hn.
  induction (lt_wf n) as [n _ IH]. intros c s ->. apply Hstep. intros c' s' E.
  eapply IH; [|done]. by eapply inc_step_shorter.
Qed.

(** An invariant of the iterations is an invariant of the run. *)
Lemma inc_run_inv (I : C -> bytes -> Prop) :
  (forall c s, I c s -> match inc_step c s with Continue c' s' | Stop c' s' | Fail c' s' => I c' s' end) ->
  forall c s, I c s -> I (inc_run c s).1.2 (inc_run c s).2.
Proof.
  intros Hstep. apply (inc_run_ind (fun c s => I c s -> I (inc_run c s).1.2 (inc_run c s).2)).
  intros c s IH Hi. rewrite inc_run_unfold. specialize (Hstep c s Hi).
  destruct (inc_step c s) as [c' s'|c' s'|c' s'] eqn:E; [by apply IH|done..].
Qed.

(** A run only removes input. *)
Lemma inc_run_length c s : length (inc_run c s).2 <= length s.
Proof.
  apply (inc_run_inv (fun _ s' => length s' <= length s)); [|done]. clear c.
  intros c s' Hl. pose proof (inc_consumes c s' I) as (n & _ & Hc). simpl in Hc.
  pose proof (length_drop s' n) as Hd.
  destruct (inc_step c s'); [destruct Hc as [_ ->]|destruct Hc as [_ ->]|destruct Hc as [->| ->]]; lia.
Qed.

(** The returned flag says whether the parser is in its error state. *)
Lemma inc_run_flag c s : (inc_run c s).1.1 = negb (inc_error (inc_run c s).1.2).
Proof.
  revert c s. apply inc_run_ind. intros c s IH. rewrite inc_run_unfold.
  destruct (inc_step c s) as [c' s'|c' s'|c' s'] eqn:E; [by apply IH|done|].
  simpl. by rewrite (inc_fail_error _ _ _ _ E).
Qed.

Lemma inc_run_error c s : inc_error c = true -> inc_run c s = (false, c, s).
Proof. intros E. rewrite inc_run_unfold, inc_error_stop by done. by rewrite E. Qed.

(** ** Feeding a connection fragment by fragment *)
Definition feed1 (cfg : C * bytes) (frag : bytes) : C * bytes :=
  let r := inc_run cfg.1 (cfg.2 ++ frag) in (r.1.2, r.2).

Definition feed (cfg : C * bytes) (frags : list bytes) : C * bytes := foldl feed1 cfg frags.

(** Two parser configurations are equivalent when they are equal, or when both
    have rejected the input for the same reason (a rejected connection is
    closed, so what was buffered by then is not used). *)
Definition cfg_equiv (p q : C * bytes) : Prop :=
  p = q \/ (inc_error p.1 = true /\ inc_error q.1 = true /\ inc_reason p.1 = inc_reason q.1).

#[export] Instance cfg_equiv_equivalence : Equivalence cfg_equiv.
Proof.
  split.
  - by left.
  - intros p q [->|(? & ? & ?)]; [by left|by right].
  - intros p q r [->|(? & ? & ?)] [->|(? & ? & ?)]; [by left|by right..|].
    right. split_and!; congruence.
Qed.

#[export] Instance feed1_proper : Proper (cfg_equiv ==> eq ==> cfg_equiv) feed1.
Proof.
  intros p q Hpq t _ <-. destruct Hpq as [->|(Hp & Hq & He)]; [by left|].
  right. unfold feed1. by rewrite !inc_run_error.
Qed.

#[export] Instance feed_proper : Proper (cfg_equiv ==> eq ==> cfg_equiv) feed.
Proof.
  intros p q Hpq frags _ <-. revert p q Hpq.
  induction frags as [|f frags IH]; intros p q Hpq; [done|]. apply IH. by rewrite Hpq.
Qed.

Definition outcome_equiv (o1 o2 : outcome C bytes) : Prop :=
  o1 = o2 \/
  match o1, o2 with
  | Fail c1 _, Fail c2 _ =>
    inc_error c1 = true /\ inc_error c2 = true /\ inc_reason c1 = inc_reason c2
  | _, _ => False
  end.

(** More input [t] behind [s]: what an iteration on [s] becomes. *)
Definition step_stable (c : C) (s t : bytes) : Prop :=
  match inc_step c s with
  | Stop c' s' => c' = c /\ s' = s
  | Fail c' s' => inc_step c (s ++ t) = Fail c' (s' ++ t)
  | Continue c' s' =>
    inc_step c (s ++ t) = Continue c' (s' ++ t) \/
    (s' = [] /\ inc_step c' [] = Stop c' [] /\ inc_error c' = false /\
     (t <> [] -> outcome_equiv (inc_step c (s ++ t)) (inc_step c' t)))
  end.

Lemma outcome_equiv_run c s c' t :
  outcome_equiv (inc_step c s) (inc_step c' t) ->
  cfg_equiv ((inc_run c s).1.2, (inc_run c s).2) ((inc_run c' t).1.2, (inc_run c' t).2).
Proof.
  intros [Heq|Hf].
  - left. rewrite (inc_run_unfold c s), (inc_run_unfold c' t), Heq. done.
  - right. rewrite (inc_run_unfold c s), (inc_run_unfold c' t).
    destruct (inc_step c s), (inc_step c' t); done.
Qed.
End bytes_run.

(** ** Fragmentation does not matter

    [inc_wf k c s] is the parser's invariant with [s] unread and [k] bytes still
    to come; under it every iteration is stable under more input. *)
Class Fragmentable (C : Type) `{IncParser C} := {
  inc_wf : Z -> C -> bytes -> Prop;
  inc_wf_step : forall k c s, inc_wf k c s ->
    match inc_step c s with Continue c' s' | Stop c' s' | Fail c' s' => inc_wf k c' s' end;
  inc_wf_app : forall k c s t, inc_wf k c (s ++ t) <-> (0 <= k)%Z /\ inc_wf (zlen t + k) c s;
  inc_wf_weaken : forall k k' c s, inc_wf k c s -> (0 <= k' <= k)%Z -> inc_wf k' c s;
  inc_stable : forall c s t, inc_wf (zlen t) c s -> step_stable c s t;
  inc_idle : forall k c, inc_wf k c [] -> inc_step c [] = Stop c [];
}.

Section fragments.
Context {C : Type} `{IncParserLaws C} `{!Fragmentable C}.
Implicit Types (c : C) (s t : bytes).

(** Parsing [s] and then [t] is parsing [s ++ t]. *)
Lemma run_fragment c s t :
  inc_wf (zlen t) c s ->
  cfg_equiv (feed1 (c, []) (s ++ t)) (feed1 (feed1 (c, []) s) t).
Proof.
  revert c s. apply (inc_run_ind (fun c s => inc_wf (zlen t) c s ->
    cfg_equiv (feed1 (c, []) (s ++ t)) (feed1 (feed1 (c, []) s) t))).
  intros c s IH Hwf. pose proof (inc_stable c s t Hwf) as Hst.
  pose proof (inc_wf_step _ c s Hwf) as Ho. unfold step_stable in Hst.
  unfold feed1 in *. simpl in *.
  destruct (inc_step c s) as [c' s'|c' s'|c' s'] eqn:E.
  - specialize (IH c' s' eq_refl Ho). destruct Hst as [Hst|(-> & Hstop & Herr & Hst)].
    + rewrite (inc_run_unfold c (s ++ t)), Hst, (inc_run_unfold c s), E. exact IH.
    + rewrite (inc_run_unfold c s), E, (inc_run_unfold c' []), Hstop. simpl.
      destruct t as [|x t'].
      * rewrite app_nil_r, (inc_run_unfold c s), E, inc_run_unfold, Hstop. reflexivity.
      * apply outcome_equiv_run. by apply Hst.
  - destruct Hst as [-> ->]. rewrite (inc_run_unfold c s), E. reflexivity.
  - rewrite (inc_run_unfold c (s ++ t)), Hst, (inc_run_unfold c s), E. simpl.
    by rewrite (inc_run_error c') by (by eapply inc_fail_error).
Qed.

Lemma feed1_nil k c : inc_wf k c [] -> feed1 (c, []) [] = (c, []).
Proof.
  intros Hwf. unfold feed1. simpl. rewrite inc_run_unfold. by rewrite (inc_idle k c Hwf).
Qed.

Lemma feed_prefix c p frags :
  inc_wf (zlen (concat frags)) c p ->
  cfg_equiv (feed (feed1 (c, []) p) frags) (feed1 (c, []) (p ++ concat frags)).
Proof.
  revert p. induction frags as [|f frags IH]; intros p Hwf.
  - simpl. by rewrite app_nil_r.
  - simpl concat in *. rewrite zlen_app in Hwf.
    pose proof (zlen_nonneg f). pose proof (zlen_nonneg (concat frags)).
    change (feed (feed1 (c, []) p) (f :: frags)) with (feed (feed1 (feed1 (c, []) p) f) frags).
    rewrite <-(run_fragment c p f) by (eapply inc_wf_weaken; [done|lia]).
    rewrite (app_assoc p). apply IH. apply inc_wf_app. split; [lia|done].
Qed.

Lemma feed_any_fragmentation c frags :
  inc_wf (zlen (concat frags)) c [] ->
  cfg_equiv (feed (c, []) frags) (feed1 (c, []) (concat frags)).
Proof.
  intros Hwf. pose proof (feed_prefix c [] frags Hwf) as Hp.
  by rewrite (feed1_nil _ c Hwf) in Hp.
Qed.
End fragments.
