(* ===== verification/Url.v ===== *)
(** * Percent-encoding and query strings (http/url.h, http/url.cc)

    [urlDecode], [urlEncode] and [parseQuery] as in the source; the index loop
    of [parseQuery] is proved equal to the structural description of a query
    string (split at '&', then at the first '='). *)

From S2P Require Import Prelude StdMap CStr.

Abbreviation QueryParams := (stdmap bytes bytes).

(** Hex digit -> value, or -1. *)
Definition hexValue (c : ascii) : Z :=
  if (48 <=? code c)%Z && (code c <=? 57)%Z then code c - 48
  else if (97 <=? code c)%Z && (code c <=? 102)%Z then code c - 97 + 10
  else if (65 <=? code c)%Z && (code c <=? 70)%Z then code c - 65 + 10
  else -1.

Definition isUnreserved (c : ascii) : bool :=
  isalnum c || bool_decide (c = "-"%char) || bool_decide (c = "_"%char) ||
  bool_decide (c = "."%char) || bool_decide (c = "~"%char).

(** The index [i] of the source is the remaining suffix: [i + 2 < in.size()]
    says that two more characters follow the ['%']. *)
Fixpoint urlDecode (plus_as_space : bool) (s : bytes) : bytes :=
  match s with
  | [] => []
  | c :: rest =>
    if bool_decide (c = "%"%char) then
      match rest with
      | h :: l :: rest' =>
        let hi := hexValue h in
        let lo := hexValue l in
        if (0 <=? hi)%Z && (0 <=? lo)%Z
        then char_of (Z.lor (Z.shiftl hi 4) lo) :: urlDecode plus_as_space rest'
        else c :: urlDecode plus_as_space rest
      | _ => c :: urlDecode plus_as_space rest
      end
    else if bool_decide (c = "+"%char) && plus_as_space
    then " "%char :: urlDecode plus_as_space rest
    else c :: urlDecode plus_as_space rest
  end.

Definition kHex : bytes := bs "0123456789ABCDEF".
Definition hex_digit (n : Z) : ascii := nth (Z.to_nat n) kHex Ascii.zero.

Definition encode_char (ch : ascii) : bytes :=
  if isUnreserved ch then [ch]
  else ["%"%char; hex_digit (Z.shiftr (code ch) 4); hex_digit (Z.land (code ch) 15)].

Definition urlEncode (s : bytes) : bytes := concat (map encode_char s).

(** [params\[key\] = value] guarded by [!key.empty()]. *)
Definition set_param (key value : bytes) (params : QueryParams) : QueryParams :=
  match key with [] => params | _ => minsert key value params end.

(** One iteration of the loop on [i]. *)
Definition parseQuery_body (query : bytes) (st : nat * QueryParams)
    : (nat * QueryParams) + QueryParams :=
  let '(i, params) := st in
  if i <? length query then
    let amp := default (length query) (find_from "&" i query) in
    let params' :=
      match find_from "=" i query with
      | Some eq =>
        if amp <? eq
        then set_param (urlDecode true (substr i (amp - i) query)) [] params
        else set_param (urlDecode true (substr i (eq - i) query))
                       (urlDecode true (substr (eq + 1) (amp - eq - 1) query)) params
      | None => set_param (urlDecode true (substr i (amp - i) query)) [] params
      end in
    inl (amp + 1, params')
  else inr params.

(** [i] grows by at least one per iteration, so [size + 1] iterations are enough
    ([parseQuery_total]). *)
Definition parseQuery_loop (query : bytes) (fuel : nat) (i : nat) (params : QueryParams)
    : option QueryParams :=
  iter_while fuel (parseQuery_body query) (i, params).

Definition parseQuery (query : bytes) : QueryParams :=
  default [] (parseQuery_loop query (S (length query)) 0 []).

(** ** Percent-encoding *)
Lemma urlDecode_other plus c rest :
  c <> "%"%char -> c <> "+"%char -> urlDecode plus (c :: rest) = c :: urlDecode plus rest.
Proof.
  intros. simpl. rewrite bool_decide_eq_false_2 by done.
  by rewrite (bool_decide_eq_false_2 (c = "+"%char)) by done.
Qed.

Lemma urlDecode_encode_char plus c rest :
  urlDecode plus (encode_char c ++ rest) = c :: urlDecode plus rest.
Proof.
  unfold encode_char. destruct (isUnreserved c) eqn:E.
  - simpl app. apply urlDecode_other; intros ->; discriminate E.
  - clear E. simpl. destruct c as [[] [] [] [] [] [] [] []]; reflexivity.
Qed.

Lemma urlDecode_encode_app plus s t :
  urlDecode plus (urlEncode s ++ t) = s ++ urlDecode plus t.
Proof.
  unfold urlEncode. induction s as [|c s IH]; simpl; [done|].
  rewrite <-app_assoc, urlDecode_encode_char. by rewrite IH.
Qed.

(** Decoding undoes encoding, in both the query and the path convention for ['+']. *)
Lemma decode_encode plus s : urlDecode plus (urlEncode s) = s.
Proof.
  pose proof (urlDecode_encode_app plus s []) as H. by rewrite !app_nil_r in H.
Qed.

Definition url_safe (c : ascii) : Prop := isUnreserved c = true \/ c = "%"%char.

Lemma encode_char_safe c : Forall url_safe (encode_char c).
Proof.
  unfold encode_char, url_safe. destruct (isUnreserved c) eqn:E; [constructor; [by left|constructor]|].
  clear E. constructor; [by right|].
  constructor; [left; by destruct c as [[] [] [] [] [] [] [] []]|].
  constructor; [left; by destruct c as [[] [] [] [] [] [] [] []]|constructor].
Qed.

Lemma urlEncode_safe s : Forall url_safe (urlEncode s).
Proof.
  unfold urlEncode. induction s as [|c s IH]; simpl; [constructor|].
  apply Forall_app. split; [apply encode_char_safe|done].
Qed.

Lemma urlEncode_notin c s : isUnreserved c = false -> c <> "%"%char -> c ∉ urlEncode s.
Proof.
  intros H1 H2 Hin. pose proof (urlEncode_safe s) as Hs. rewrite Forall_forall in Hs.
  destruct (Hs _ Hin); congruence.
Qed.

(** Decoding never lengthens its input. *)
Lemma urlDecode_length plus s : length (urlDecode plus s) <= length s.
Proof.
  revert s. fix IH 1. intros [|c rest]; [done|].
  assert (Hrest := IH rest). simpl. case_if; [|case_if; simpl; lia].
  destruct rest as [|h [|l rest']]; [simpl in *; lia..|].
  assert (Hrest' := IH rest'). case_if; simpl in *; lia.
Qed.

(** The percent codec: for every byte string, and in both the query and the
    path convention for ['+'], decoding undoes encoding; the encoded form uses
    only unreserved characters and '%'; and decoding never lengthens its input,
    so a parser that bounded the encoded size has bounded the decoded one. *)
Theorem url_codec plus s :
  urlDecode plus (urlEncode s) = s /\ Forall url_safe (urlEncode s) /\
  length (urlDecode plus s) <= length s.
Proof.
  split_and!; [apply decode_encode|apply urlEncode_safe|apply urlDecode_length].
Qed.

(** ** [parseQuery] *)

(** Structural description. *)
Fixpoint split_on (c : ascii) (s : bytes) : list bytes :=
  match s with
  | [] => [[]]
  | x :: s' =>
    if bool_decide (x = c) then [] :: split_on c s'
    else match split_on c s' with
         | h :: t => (x :: h) :: t
         | [] => [[x]]
         end
  end.

Definition parse_pair (seg : bytes) (params : QueryParams) : QueryParams :=
  let e := find_char "=" seg in
  if e <? length seg
  then set_param (urlDecode true (take e seg)) (urlDecode true (drop (S e) seg)) params
  else set_param (urlDecode true seg) [] params.

Definition query_spec (q : bytes) : QueryParams :=
  foldl (fun params seg => parse_pair seg params) [] (split_on "&" q).

Lemma split_on_nonnil c s : split_on c s <> [].
Proof. destruct s as [|x s]; simpl; [done|]. case_if; [done|]. by destruct (split_on c s). Qed.

Lemma split_on_find c s :
  split_on c s =
  if find_char c s <? length s
  then take (find_char c s) s :: split_on c (drop (S (find_char c s)) s)
  else [s].
Proof.
  induction s as [|x s IH]; [done|]. cbn [split_on find_char].
  case_bool_decide; [done|]. rewrite IH.
  change (S (find_char c s) <? length (x :: s)) with (find_char c s <? length s).
  by case_if.
Qed.

Lemma find_from_eq c pos s :
  find_from c pos s =
  if find_char c (drop pos s) <? length (drop pos s)
  then Some (pos + find_char c (drop pos s)) else None.
Proof.
  unfold find_from. rewrite length_drop.
  pose proof (find_char_le c (drop pos s)) as Hle. rewrite length_drop in Hle.
  repeat case_if; try done; lia.
Qed.

(** Searching a prefix finds the same first occurrence, if it is in there. *)
Lemma find_char_prefix c n s :
  find_char c (take n s) = Nat.min (find_char c s) (Nat.min n (length s)).
Proof.
  revert n. induction s as [|x s IH]; intros [|n]; simpl; try done.
  - case_bool_decide; lia.
  - case_bool_decide; [done|]. rewrite IH. lia.
Qed.

Lemma parseQuery_body_step q i params :
  i < length q ->
  let n := find_char "&" (drop i q) in
  parseQuery_body q (i, params) = inl (i + n + 1, parse_pair (take n (drop i q)) params).
Proof.
  intros Hi n. unfold parseQuery_body. rewrite (proj2 (Nat.ltb_lt _ _)) by done.
  assert (Hamp : default (length q) (find_from "&" i q) = i + n).
  { rewrite find_from_eq. fold n. pose proof (find_char_le "&" (drop i q)) as Hle.
    fold n in Hle. rewrite length_drop in *. case_if; simpl; lia. }
  rewrite Hamp. do 2 f_equal. rewrite find_from_eq. unfold parse_pair, substr.
  set (r := drop i q) in *. set (e := find_char "=" r).
  pose proof (find_char_le "&" r) as Hn. fold n in Hn.
  rewrite find_char_prefix. fold e. rewrite length_take, (Nat.min_l n) by lia.
  assert (Hne : e <> n \/ length r <= e).
  { destruct (decide (length r <= e)) as [?|Hlt]; [by right|]. left. intros Hen.
    assert (H1 : r !! e = Some "="%char) by (apply find_char_lookup; unfold e in *; lia).
    assert (H2 : r !! n = Some "&"%char) by (apply find_char_lookup; unfold n in *; lia).
    rewrite Hen in H1. congruence. }
  replace (i + n - i) with n by lia.
  destruct (Nat.ltb_spec e (length r)) as [He|He].
  - destruct (Nat.ltb_spec (i + n) (i + e)) as [H1|H1].
    + rewrite (Nat.min_r e n), Nat.ltb_irrefl by lia. done.
    + rewrite (Nat.min_l e n) by lia. rewrite (proj2 (Nat.ltb_lt e n)) by lia.
      replace (i + e - i) with e by lia. f_equal.
      * rewrite firstn_firstn, Nat.min_l by lia. done.
      * f_equal. rewrite skipn_firstn_comm. unfold r. rewrite drop_drop.
        f_equal; [lia|f_equal; lia].
  - rewrite (Nat.min_r e n), Nat.ltb_irrefl by lia. done.
Qed.

Lemma parse_pair_nil params : parse_pair [] params = params.
Proof. done. Qed.

Abbreviation parse_segs params segs := (foldl (fun p seg => parse_pair seg p) params segs).

Lemma parse_segs_step q i params :
  let n := find_char "&" (drop i q) in
  parse_segs params (split_on "&" (drop i q)) =
  parse_segs (parse_pair (take n (drop i q)) params) (split_on "&" (drop (i + n + 1) q)).
Proof.
  intros n. rewrite split_on_find. fold n. pose proof (find_char_le "&" (drop i q)) as Hn.
  fold n in Hn. case_if.
  - simpl. rewrite drop_drop. do 3 f_equal. lia.
  - rewrite length_drop in *. rewrite (drop_ge q (i + n + 1)) by lia.
    rewrite (take_ge (drop i q)) by len. done.
Qed.

Lemma parseQuery_loop_spec q fuel i params :
  length q < i + fuel -> 0 < fuel ->
  parseQuery_loop q fuel i params = Some (parse_segs params (split_on "&" (drop i q))).
Proof.
  revert i params. induction fuel as [|fuel IH]; intros i params Hf H0; [lia|].
  unfold parseQuery_loop. cbn [iter_while]. destruct (decide (i < length q)) as [Hi|Hi].
  - rewrite parseQuery_body_step by done. rewrite parse_segs_step. apply IH; lia.
  - unfold parseQuery_body. rewrite (proj2 (Nat.ltb_ge _ _)) by lia.
    by rewrite drop_ge by lia.
Qed.

Lemma parseQuery_eq q : parseQuery q = query_spec q.
Proof. unfold parseQuery. by rewrite parseQuery_loop_spec by lia. Qed.

(** The index loop of [parseQuery] terminates within its fuel and computes
    the structural meaning of the query string: segments between '&', each split
    at its first '=', decoded, empty keys dropped, later duplicates winning. *)
Theorem parseQuery_correct q :
  parseQuery_loop q (S (length q)) 0 [] = Some (query_spec q) /\ parseQuery q = query_spec q.
Proof. split; [apply parseQuery_loop_spec; lia|apply parseQuery_eq]. Qed.

(** The client side of a query string: encoded pairs joined by '&'. *)
Definition encode_pair (kv : bytes * bytes) : bytes :=
  urlEncode kv.1 ++ "="%char :: urlEncode kv.2.
Fixpoint encode_query (kvs : list (bytes * bytes)) : bytes :=
  match kvs with
  | [] => []
  | [kv] => encode_pair kv
  | kv :: kvs' => encode_pair kv ++ "&"%char :: encode_query kvs'
  end.

Lemma split_on_app c s t : c ∉ s -> split_on c (s ++ c :: t) = s :: split_on c t.
Proof.
  intros H. rewrite split_on_find, find_char_app by done.
  rewrite (proj2 (Nat.ltb_lt _ _)) by len. rewrite take_app_exact by done.
  by rewrite cons_middle, app_assoc, drop_app_exact by len.
Qed.

Lemma split_on_notin c s : c ∉ s -> split_on c s = [s].
Proof.
  intros H. rewrite split_on_find, find_char_notin by done. by rewrite Nat.ltb_irrefl.
Qed.

Lemma amp_notin_pair kv : "&"%char ∉ encode_pair kv.
Proof.
  unfold encode_pair. rewrite elem_of_app, elem_of_cons.
  intros [H|[H|H]]; [|done|]; by apply urlEncode_notin in H.
Qed.

Lemma parse_pair_encode kv params :
  parse_pair (encode_pair kv) params = set_param kv.1 kv.2 params.
Proof.
  unfold parse_pair, encode_pair.
  rewrite find_char_app by (by apply urlEncode_notin).
  rewrite (proj2 (Nat.ltb_lt _ _)) by len. rewrite take_app_exact by done.
  rewrite cons_middle, app_assoc, drop_app_exact by len.
  by rewrite !decode_encode.
Qed.

Lemma split_encode_query kvs :
  kvs <> [] -> split_on "&" (encode_query kvs) = map encode_pair kvs.
Proof.
  induction kvs as [|kv [|kv' kvs] IH]; intros; [done|..].
  - apply split_on_notin, amp_notin_pair.
  - change (encode_query (kv :: kv' :: kvs))
      with (encode_pair kv ++ "&"%char :: encode_query (kv' :: kvs)).
    rewrite split_on_app by apply amp_notin_pair.
    by rewrite IH.
Qed.

(** A query string built from arbitrary byte keys and values with [urlEncode]
    is parsed back to exactly those parameters, the last value of a repeated key
    winning and empty keys ignored. *)
Theorem parseQuery_roundtrip kvs :
  parseQuery (encode_query kvs) = foldl (fun p kv => set_param kv.1 kv.2 p) [] kvs.
Proof.
  rewrite parseQuery_eq. unfold query_spec.
  destruct kvs as [|kv kvs]; [done|]. rewrite split_encode_query by done.
  generalize (@nil (bytes * bytes)). generalize (kv :: kvs). clear.
  intros kvs. induction kvs as [|kv kvs IH]; intros params; [done|].
  cbn [map foldl]. by rewrite parse_pair_encode.
Qed.
