(* ===== verification/HttpMessage.v ===== *)
(** * HTTP messages (http/http_request.{h,cc}, http/http_response.{h,cc})

    [HttpRequest] and [HttpResponse] as records with the members of the classes
    (the [mutable] query cache included), one definition per method.
    Serialization is against the [ByteQueue] interface, like the sources write
    into a [buffer::Buffer*]. *)

From S2P Require Import Prelude StdMap CStr Buffer Url.

Inductive Method :=
| kInvalid | kGet | kPost | kPut | kDelete | kHead | kOptions | kPatch.

#[export] Instance Method_eq_dec : EqDecision Method.
Proof. solve_decision. Defined.

Definition methodToString (m : Method) : bytes :=
  match m with
  | kGet => bs "GET"
  | kPost => bs "POST"
  | kPut => bs "PUT"
  | kDelete => bs "DELETE"
  | kHead => bs "HEAD"
  | kOptions => bs "OPTIONS"
  | kPatch => bs "PATCH"
  | kInvalid => bs "INVALID"
  end.

Definition methodFromString (s : bytes) : Method :=
  if bool_decide (s = bs "GET") then kGet
  else if bool_decide (s = bs "POST") then kPost
  else if bool_decide (s = bs "PUT") then kPut
  else if bool_decide (s = bs "DELETE") then kDelete
  else if bool_decide (s = bs "HEAD") then kHead
  else if bool_decide (s = bs "OPTIONS") then kOptions
  else if bool_decide (s = bs "PATCH") then kPatch
  else kInvalid.

Definition toLower (s : bytes) : bytes := map tolower s.

(** ** Requests *)
Module HttpRequest.

Record HttpRequest := mkHttpRequest {
  method_ : Method;
  path_ : bytes;
  query_ : bytes;
  version_ : bytes;
  headers_ : stdmap bytes bytes;
  body_ : bytes;
  query_params_ : QueryParams;
  query_parsed_ : bool;
}.
#[export] Instance HttpRequest_settable : Settable HttpRequest := fun r =>
  mkHttpRequest (method_ r) (path_ r) (query_ r) (version_ r) (headers_ r) (body_ r)
    (query_params_ r) (query_parsed_ r).

Definition HttpRequest_new : HttpRequest :=
  mkHttpRequest kInvalid [] [] (bs "HTTP/1.1") [] [] [] false.

Definition setMethod (m : Method) (r : HttpRequest) : HttpRequest := r <| method_ := m |>.
Definition setPath (p : bytes) (r : HttpRequest) : HttpRequest := r <| path_ := p |>.
Definition setQuery (q : bytes) (r : HttpRequest) : HttpRequest :=
  r <| query_ := q |> <| query_parsed_ := false |> <| query_params_ := [] |>.
Definition setVersion (v : bytes) (r : HttpRequest) : HttpRequest := r <| version_ := v |>.
Definition setBody (b : bytes) (r : HttpRequest) : HttpRequest := r <| body_ := b |>.
Definition appendBody (s : bytes) (r : HttpRequest) : HttpRequest :=
  r <| body_ := body_ r ++ s |>.

Definition addHeader (key value : bytes) (r : HttpRequest) : HttpRequest :=
  r <| headers_ := minsert (toLower key) value (headers_ r) |>.

Definition header (key : bytes) (r : HttpRequest) : bytes :=
  default [] (mlookup (toLower key) (headers_ r)).

Definition hasHeader (key : bytes) (r : HttpRequest) : bool :=
  mhas (toLower key) (headers_ r).

(** The cache is filled on first use: the parameters and the updated object. *)
Definition queryParams (r : HttpRequest) : QueryParams * HttpRequest :=
  let r1 :=
    if query_parsed_ r then r
    else r <| query_params_ := parseQuery (query_ r) |> <| query_parsed_ := true |> in
  (query_params_ r1, r1).

Definition queryParam (key : bytes) (r : HttpRequest) : bytes * HttpRequest :=
  let '(p, r1) := queryParams r in (default [] (mlookup key p), r1).

Definition hasQueryParam (key : bytes) (r : HttpRequest) : bool * HttpRequest :=
  let '(p, r1) := queryParams r in (mhas key p, r1).

Definition formParams (r : HttpRequest) : QueryParams :=
  let ct := toLower (header (bs "content-type") r) in
  if contains (bs "application/x-www-form-urlencoded") ct
  then parseQuery (body_ r) else [].

Definition keepAlive (r : HttpRequest) : bool :=
  let conn := toLower (header (bs "connection") r) in
  if bool_decide (version_ r = bs "HTTP/1.1")
  then negb (bool_decide (conn = bs "close"))
  else bool_decide (conn = bs "keep-alive").

Definition reset (r : HttpRequest) : HttpRequest :=
  r <| method_ := kInvalid |> <| path_ := [] |> <| query_ := [] |>
    <| version_ := bs "HTTP/1.1" |> <| headers_ := [] |> <| body_ := [] |>
    <| query_params_ := [] |> <| query_parsed_ := false |>.

(** One line of the header section. *)
Definition header_line (kv : bytes * bytes) : bytes := kv.1 ++ bs ": " ++ kv.2 ++ CRLF.

(** The local [head] of [appendTo]. *)
Definition request_head (r : HttpRequest) (host : bytes) : bytes :=
  methodToString (method_ r) ++ bs " " ++
  (match path_ r with [] => bs "/" | p => p end) ++
  (match query_ r with [] => [] | q => bs "?" ++ q end) ++
  bs " HTTP/1.1" ++ CRLF ++
  (if negb (bool_decide (host = [])) && negb (mhas (bs "host") (headers_ r))
   then header_line (bs "Host", host) else []) ++
  concat (map (fun kv => if bool_decide (kv.1 = bs "content-length") then []
                         else header_line kv) (headers_ r)) ++
  bs "Content-Length: " ++ to_string (zlen (body_ r)) ++ CRLF ++ CRLF.

Definition appendTo {B} `{ByteQueue B} (r : HttpRequest) (host : bytes) (buf : B) : B :=
  let buf1 := bq_append (request_head r host) buf in
  match body_ r with [] => buf1 | b => bq_append b buf1 end.

(** What [appendTo] leaves in the buffer. *)
Lemma appendTo_bytes `{ByteQueueLaws B} r host (buf : B) :
  bq_wf buf ->
  bq_wf (appendTo r host buf) /\
  bq_bytes (appendTo r host buf) = bq_bytes buf ++ request_head r host ++ body_ r.
Proof.
  intros Hwf. unfold appendTo. destruct (body_ r) as [|c b] eqn:E.
  - rewrite app_nil_r. split; [by apply bq_append_wf|by apply bq_append_bytes].
  - split; [by repeat apply bq_append_wf|].
    rewrite !bq_append_bytes by (try apply bq_append_wf; done). by rewrite app_assoc.
Qed.

(** ** Header access *)
Lemma toLower_idem s : toLower (toLower s) = toLower s.
Proof. unfold toLower. induction s; simpl; [done|]. by rewrite tolower_idem, IHs. Qed.

(** Header names are case-insensitive: after [addHeader key value], any
    spelling of [key] reads [value], and every other name reads what it did. *)
Theorem header_addHeader key value key' r :
  header key' (addHeader key value r) =
  if bool_decide (toLower key = toLower key') then value else header key' r.
Proof.
  unfold header, addHeader; simpl. case_bool_decide as E.
  - rewrite E. by rewrite mlookup_insert_eq.
  - by rewrite mlookup_insert_ne.
Qed.

(** ** The query cache *)
Definition cache_ok (r : HttpRequest) : Prop :=
  query_parsed_ r = true -> query_params_ r = parseQuery (query_ r).

(** Every way a request object is changed. *)
Inductive request_step : HttpRequest -> HttpRequest -> Prop :=
| rs_method m r : request_step r (setMethod m r)
| rs_path p r : request_step r (setPath p r)
| rs_query q r : request_step r (setQuery q r)
| rs_version v r : request_step r (setVersion v r)
| rs_body b r : request_step r (setBody b r)
| rs_append s r : request_step r (appendBody s r)
| rs_header k v r : request_step r (addHeader k v r)
| rs_params r : request_step r (queryParams r).2
| rs_param k r : request_step r (queryParam k r).2
| rs_hasparam k r : request_step r (hasQueryParam k r).2
| rs_reset r : request_step r (reset r).

Lemma queryParams_cache r :
  cache_ok r -> (queryParams r).1 = parseQuery (query_ r) /\ cache_ok (queryParams r).2.
Proof.
  unfold queryParams, cache_ok. intros H. destruct (query_parsed_ r) eqn:E; simpl; auto.
Qed.

Lemma request_step_cache r r' : request_step r r' -> cache_ok r -> cache_ok r'.
Proof.
  destruct 1; intros Hc; try exact Hc; try (by intros ?).
  - by apply queryParams_cache.
  - unfold queryParam. destruct (queryParams r) as [p r1] eqn:E; simpl.
    pose proof (queryParams_cache r Hc) as [_ H]. by rewrite E in H.
  - unfold hasQueryParam. destruct (queryParams r) as [p r1] eqn:E; simpl.
    pose proof (queryParams_cache r Hc) as [_ H]. by rewrite E in H.
Qed.

(** The lazily parsed query cache is never stale: in every state reachable
    by the request's methods, [queryParams] is the parse of the current query. *)
Theorem queryParams_fresh r :
  rtc request_step HttpRequest_new r -> (queryParams r).1 = parseQuery (query_ r).
Proof.
  intros Hr. assert (cache_ok r) as Hc; [|by apply queryParams_cache].
  assert (H0 : cache_ok HttpRequest_new) by done. revert H0.
  induction Hr as [|r r1 r2 Hs Hr IH]; [done|].
  intros H0. apply IH. by eapply request_step_cache.
Qed.

Lemma queryParams_fresh_witness :
  (queryParams (setQuery (bs "b=2") (queryParams (setQuery (bs "a=1") HttpRequest_new)).2)).1
  = parseQuery (bs "b=2").
Proof.
  apply (queryParams_fresh (setQuery (bs "b=2") (queryParams (setQuery (bs "a=1") HttpRequest_new)).2)).
  eapply rtc_l; [apply (rs_query (bs "a=1"))|].
  eapply rtc_l; [apply rs_params|].
  eapply rtc_l; [apply (rs_query (bs "b=2"))|apply rtc_refl].
Defined.

End HttpRequest.

(** ** Responses *)
Module HttpResponse.

Record HttpResponse := mkHttpResponse {
  status_code_ : Z;
  status_reason_ : bytes;
  headers_ : stdmap bytes bytes;
  body_ : bytes;
  keep_alive_ : bool;
}.
#[export] Instance HttpResponse_settable : Settable HttpResponse := fun r =>
  mkHttpResponse (status_code_ r) (status_reason_ r) (headers_ r) (body_ r) (keep_alive_ r).

Definition HttpResponse_new (keep_alive : bool) : HttpResponse :=
  mkHttpResponse 200 (bs "OK") [] [] keep_alive.

Definition defaultReason (code : Z) : bytes :=
  match code with
  | 200 => bs "OK"
  | 201 => bs "Created"
  | 204 => bs "No Content"
  | 301 => bs "Moved Permanently"
  | 302 => bs "Found"
  | 304 => bs "Not Modified"
  | 400 => bs "Bad Request"
  | 401 => bs "Unauthorized"
  | 403 => bs "Forbidden"
  | 404 => bs "Not Found"
  | 405 => bs "Method Not Allowed"
  | 408 => bs "Request Timeout"
  | 413 => bs "Payload Too Large"
  | 429 => bs "Too Many Requests"
  | 500 => bs "Internal Server Error"
  | 501 => bs "Not Implemented"
  | 503 => bs "Service Unavailable"
  | _ => bs "OK"
  end%Z.

Definition setStatus (code : Z) (reason : bytes) (r : HttpResponse) : HttpResponse :=
  r <| status_code_ := code |>
    <| status_reason_ := match reason with [] => defaultReason code | _ => reason end |>.

Definition addHeader (key value : bytes) (r : HttpResponse) : HttpResponse :=
  r <| headers_ := minsert key value (headers_ r) |>.

Definition header (key : bytes) (r : HttpResponse) : bytes :=
  default [] (mlookup key (headers_ r)).

Definition setContentType (type_ : bytes) (r : HttpResponse) : HttpResponse :=
  addHeader (bs "Content-Type") type_ r.

Definition setBody (b : bytes) (r : HttpResponse) : HttpResponse := r <| body_ := b |>.
Definition setKeepAlive (on : bool) (r : HttpResponse) : HttpResponse := r <| keep_alive_ := on |>.

Definition managed_header (k : bytes) : bool :=
  bool_decide (k = bs "Content-Length") || bool_decide (k = bs "Connection").

(** The local [head] of [appendTo]. *)
Definition response_head (r : HttpResponse) : bytes :=
  bs "HTTP/1.1 " ++ to_string (status_code_ r) ++ bs " " ++ status_reason_ r ++ CRLF ++
  bs "Content-Length: " ++ to_string (zlen (body_ r)) ++ CRLF ++
  bs "Connection: " ++ (if keep_alive_ r then bs "keep-alive" else bs "close") ++ CRLF ++
  concat (map (fun kv => if managed_header kv.1 then [] else HttpRequest.header_line kv)
              (headers_ r)) ++
  CRLF.

Definition appendTo {B} `{ByteQueue B} (r : HttpResponse) (buf : B) : B :=
  let buf1 := bq_append (response_head r) buf in
  match body_ r with [] => buf1 | b => bq_append b buf1 end.

Lemma response_appendTo_bytes `{ByteQueueLaws B} r (buf : B) :
  bq_wf buf ->
  bq_wf (appendTo r buf) /\
  bq_bytes (appendTo r buf) = bq_bytes buf ++ response_head r ++ body_ r.
Proof.
  intros Hwf. unfold appendTo. destruct (body_ r) as [|c b] eqn:E.
  - rewrite app_nil_r. split; [by apply bq_append_wf|by apply bq_append_bytes].
  - split; [by repeat apply bq_append_wf|].
    rewrite !bq_append_bytes by (try apply bq_append_wf; done). by rewrite app_assoc.
Qed.

End HttpResponse.

(** ** Methods *)
Lemma methodFromString_toString m : m <> kInvalid -> methodFromString (methodToString m) = m.
Proof. by destruct m. Qed.

Lemma methodToString_FromString s :
  methodFromString s <> kInvalid -> methodToString (methodFromString s) = s.
Proof.
  unfold methodFromString. intros H. repeat case_bool_decide; by subst.
Qed.

(** ** Line scanning, shared by the request and the response parser

    [findCrlf] (http/http_context.cc and http/response_parser.cc): the offset of
    the first CRLF. *)
Fixpoint findCrlf (s : bytes) : option nat :=
  match s with
  | a :: ((b :: _) as s') =>
    if bool_decide (a = CR) && bool_decide (b = LF) then Some 0 else S <$> findCrlf s'
  | _ => None
  end.

(** The value of a header field: leading spaces are dropped. *)
Fixpoint skip_sp (s : bytes) : bytes :=
  match s with
  | c :: s' => if bool_decide (c = SP) then skip_sp s' else s
  | [] => []
  end.

(** ** Scanning for CRLF *)
Lemma findCrlf_cons a b s :
  findCrlf (a :: b :: s) =
  if bool_decide (a = CR) && bool_decide (b = LF) then Some 0 else S <$> findCrlf (b :: s).
Proof. done. Qed.

Lemma findCrlf_bound s n : findCrlf s = Some n -> n + 2 <= length s.
Proof.
  revert n. induction s as [|a [|b s] IH]; intros n; [done..|].
  rewrite findCrlf_cons. case_if; [intros [= <-]; simpl; lia|].
  destruct (findCrlf (b :: s)) as [m|]; [|done]. intros [= <-].
  specialize (IH _ eq_refl). simpl in *. lia.
Qed.

(** A CRLF that has arrived stays the first one. *)
Lemma findCrlf_app s t n : findCrlf s = Some n -> findCrlf (s ++ t) = Some n.
Proof.
  revert n. induction s as [|a [|b s] IH]; intros n; [done..|].
  cbn [app]. rewrite !findCrlf_cons. case_if; [done|].
  destruct (findCrlf (b :: s)) as [m|]; [|done]. intros [= <-].
  specialize (IH _ eq_refl). cbn [app] in IH. by rewrite IH.
Qed.
