(* ===== verification/Router.v ===== *)
(** * The REST router (http/router.h, http/router.cc)

    Routes are tried in registration order; a [{name}] segment captures one
    percent-decoded path segment.  A handler is a function of the request, the
    captured parameters and the response it fills. *)

From S2P Require Import Prelude StdMap CStr Buffer Url HttpMessage.
Import HttpRequest HttpResponse.

Module Router.

Abbreviation PathParams := (stdmap bytes bytes).
Abbreviation Handler := (HttpRequest -> PathParams -> HttpResponse -> HttpResponse).

Record Route := mkRoute {
  method : Method;
  segments : list bytes;
  is_param : list bool;
  handler : Handler;
}.

Abbreviation Router := (list Route).

Definition SLASH : ascii := "/"%char.

(** One iteration of the loop of [splitPath]. *)
Definition splitPath_body (path : bytes) (st : nat * list bytes)
    : (nat * list bytes) + list bytes :=
  let '(i, segs) := st in
  if i <? length path then
    if bool_decide (path !! i = Some SLASH) then inl (i + 1, segs)
    else
      let j := default (length path) (find_from SLASH i path) in
      inl (j, segs ++ [substr i (j - i) path])
  else inr segs.

Definition splitPath_loop (path : bytes) (fuel i : nat) (segs : list bytes) : option (list bytes) :=
  iter_while fuel (splitPath_body path) (i, segs).

Definition splitPath (path : bytes) : list bytes :=
  default [] (splitPath_loop path (S (length path)) 0 []).

(** [seg.size() >= 2 && seg.front() == '{' && seg.back() == '}'] *)
Definition is_param_seg (seg : bytes) : bool :=
  (2 <=? length seg) && bool_decide (seg !! 0 = Some "{"%char) &&
  bool_decide (last seg = Some "}"%char).

Definition strip_braces (seg : bytes) : bytes :=
  if is_param_seg seg then substr 1 (length seg - 2) seg else seg.

Definition addRoute (m : Method) (pattern : bytes) (h : Handler) (rt : Router) : Router :=
  let segs := splitPath pattern in
  rt ++ [mkRoute m (map strip_braces segs) (map is_param_seg segs) h].

Definition get (pattern : bytes) (h : Handler) (rt : Router) : Router := addRoute kGet pattern h rt.
Definition post (pattern : bytes) (h : Handler) (rt : Router) : Router := addRoute kPost pattern h rt.
Definition put (pattern : bytes) (h : Handler) (rt : Router) : Router := addRoute kPut pattern h rt.
Definition del (pattern : bytes) (h : Handler) (rt : Router) : Router := addRoute kDelete pattern h rt.

(** The loop of [matchRoute] over the three parallel vectors. *)
Fixpoint match_segments (segs : list bytes) (isp : list bool) (path_segs : list bytes)
    (captured : PathParams) : option PathParams :=
  match segs, isp, path_segs with
  | s :: segs', b :: isp', p :: path_segs' =>
    if (b : bool) then match_segments segs' isp' path_segs' (minsert s (urlDecode false p) captured)
    else if bool_decide (s = p) then match_segments segs' isp' path_segs' captured
    else None
  | _, _, _ => Some captured
  end.

Definition matchRoute (r : Route) (path_segs : list bytes) : option PathParams :=
  if length (segments r) =? length path_segs
  then match_segments (segments r) (is_param r) path_segs []
  else None.

(** The loop over [routes_], then the 405/404 decision. *)
Fixpoint route_loop (rt : Router) (path_segs : list bytes) (req : HttpRequest)
    (resp : HttpResponse) (path_matched : bool) : bool * HttpResponse :=
  match rt with
  | r :: rt' =>
    match matchRoute r path_segs with
    | Some params =>
      if bool_decide (method r = method_ req)
      then (true, handler r req params resp)
      else route_loop rt' path_segs req resp true
    | None => route_loop rt' path_segs req resp path_matched
    end
  | [] =>
    if path_matched
    then (false, setBody (bs "Method Not Allowed")
                   (setContentType (bs "text/plain") (setStatus 405 [] resp)))
    else (false, setBody (bs "Not Found")
                   (setContentType (bs "text/plain") (setStatus 404 [] resp)))
  end.

Definition route (rt : Router) (req : HttpRequest) (resp : HttpResponse) : bool * HttpResponse :=
  route_loop rt (splitPath (path_ req)) req resp false.

(** ** [splitPath] *)

(** The non-empty pieces between slashes. *)
Definition path_segments (p : bytes) : list bytes :=
  filter (fun s => s <> []) (split_on SLASH p).

Lemma path_segments_slash s : path_segments (SLASH :: s) = path_segments s.
Proof. done. Qed.

Lemma path_segments_nil : path_segments [] = [].
Proof. done. Qed.

(** The piece up to the next slash, then the rest from that slash on. *)
Lemma path_segments_step s :
  0 < find_char SLASH s ->
  path_segments s = take (find_char SLASH s) s :: path_segments (drop (find_char SLASH s) s).
Proof.
  intros Hpos. unfold path_segments at 1. rewrite split_on_find.
  pose proof (find_char_le SLASH s) as Hle.
  assert (Hne : take (find_char SLASH s) s <> []).
  { intros Hnil%(f_equal length). rewrite length_take in Hnil. simpl in Hnil. lia. }
  case_if.
  - rewrite filter_cons_True by done. f_equal.
    rewrite (drop_eq_cons s (find_char SLASH s) SLASH) by (by apply find_char_lookup).
    by rewrite path_segments_slash.
  - assert (find_char SLASH s = length s) as -> by lia. rewrite take_ge, drop_ge in * by lia.
    by rewrite filter_cons_True.
Qed.

Lemma splitPath_loop_spec path fuel i segs :
  length path < i + fuel -> 0 < fuel ->
  splitPath_loop path fuel i segs = Some (segs ++ path_segments (drop i path)).
Proof.
  revert i segs. induction fuel as [|fuel IH]; intros i segs Hf H0; [lia|].
  unfold splitPath_loop. cbn [iter_while]. unfold splitPath_body at 1.
  destruct (Nat.ltb_spec i (length path)) as [Hi|Hi].
  2:{ rewrite drop_ge by lia. by rewrite path_segments_nil, app_nil_r. }
  case_bool_decide as Hc.
  - fold (splitPath_loop path fuel (i + 1) segs). rewrite IH by lia.
    rewrite (drop_eq_cons path i SLASH Hc), path_segments_slash. by rewrite Nat.add_1_r.
  - set (n := find_char SLASH (drop i path)).
    assert (Hn : 0 < n /\ i + n <= length path).
    { pose proof (find_char_le SLASH (drop i path)) as Hle. fold n in Hle.
      rewrite length_drop in Hle. split; [|lia]. destruct n eqn:En; [|lia].
      exfalso. apply Hc. pose proof (find_char_lookup SLASH (drop i path)) as Hl.
      subst n. rewrite En, lookup_drop, Nat.add_0_r in Hl. apply Hl. rewrite length_drop. lia. }
    assert (Hj : default (length path) (find_from SLASH i path) = i + n).
    { rewrite find_from_eq. fold n. rewrite length_drop. case_if; simpl; lia. }
    rewrite Hj. fold (splitPath_loop path fuel (i + n) (segs ++ [substr i (i + n - i) path])).
    rewrite IH by lia. rewrite (path_segments_step (drop i path)) by (fold n; lia). fold n.
    rewrite drop_drop, <-app_assoc. unfold substr. replace (i + n - i) with n by lia. done.
Qed.

(** The scanning loop of [splitPath] terminates within its fuel and returns
    exactly the non-empty pieces between slashes, in order. *)
Lemma splitPath_correct path :
  splitPath_loop path (S (length path)) 0 [] = Some (path_segments path) /\
  splitPath path = path_segments path.
Proof.
  assert (H : splitPath_loop path (S (length path)) 0 [] = Some (path_segments path))
    by (apply splitPath_loop_spec; lia).
  split; [done|]. unfold splitPath. by rewrite H.
Qed.

(** ** Dispatch *)
Definition route_matches (segs : list bytes) (r : Route) : bool :=
  match matchRoute r segs with Some _ => true | None => false end.

(** What the router must do: the first route that matches path and method
    answers; otherwise 405 if some route has the path, else 404. *)
Definition route_spec (rt : Router) (req : HttpRequest) (resp : HttpResponse)
    : bool * HttpResponse :=
  let segs := splitPath (path_ req) in
  match List.find (fun r => route_matches segs r &&
                            bool_decide (method r = method_ req)) rt with
  | Some r => (true, handler r req (default [] (matchRoute r segs)) resp)
  | None =>
    let code := if existsb (fun r => route_matches segs r) rt then 405%Z else 404%Z in
    (false, setBody (defaultReason code)
              (setContentType (bs "text/plain") (setStatus code [] resp)))
  end.

Lemma route_loop_spec rt segs req resp pm :
  route_loop rt segs req resp pm =
  match List.find (fun r => route_matches segs r &&
                            bool_decide (method r = method_ req)) rt with
  | Some r => (true, handler r req (default [] (matchRoute r segs)) resp)
  | None =>
    let code := if pm || existsb (fun r => route_matches segs r) rt
                then 405%Z else 404%Z in
    (false, setBody (defaultReason code)
              (setContentType (bs "text/plain") (setStatus code [] resp)))
  end.
Proof.
  revert pm. induction rt as [|r rt IH]; intros pm; simpl.
  { by destruct pm. }
  assert (Hm : route_matches segs r = match matchRoute r segs with Some _ => true | None => false end)
    by done.
  rewrite Hm. destruct (matchRoute r segs) as [params|] eqn:E; simpl; [|apply IH].
  case_bool_decide; [by rewrite E|]. rewrite IH, orb_true_r. by destruct (find _ rt).
Qed.

(** C31: dispatch is first match in registration order on path and method; a
    path known under other methods only gives 405, an unknown path 404, each
    with its reason phrase as a text/plain body and no handler run. *)
Theorem route_correct rt req resp : route rt req resp = route_spec rt req resp.
Proof. apply route_loop_spec. Qed.

(** ** Captures *)

(** A pattern as the application writes it, and a request path for it. *)
Inductive pattern_seg := Lit (s : bytes) | Param (name : bytes).

Definition pattern_text (ps : list pattern_seg) : bytes :=
  concat (map (fun p => SLASH :: match p with
                                 | Lit s => s
                                 | Param n => "{"%char :: n ++ ["}"%char]
                                 end) ps).

(** Each parameter with the value the client wants to send for it. *)
Definition path_text (pvs : list (pattern_seg * bytes)) : bytes :=
  concat (map (fun pv => SLASH :: match pv.1 with
                                  | Lit s => s
                                  | Param _ => urlEncode pv.2
                                  end) pvs).

Definition pattern_ok (p : pattern_seg) : Prop :=
  match p with
  | Lit s => s <> [] /\ (SLASH ∉ s) /\ is_param_seg s = false
  | Param n => SLASH ∉ n
  end.

Definition pv_ok (pv : pattern_seg * bytes) : Prop :=
  pattern_ok pv.1 /\ match pv.1 with Lit _ => True | Param _ => pv.2 <> [] end.

Fixpoint captures (pvs : list (pattern_seg * bytes)) (m : PathParams) : PathParams :=
  match pvs with
  | [] => m
  | (Lit _, _) :: pvs' => captures pvs' m
  | (Param n, v) :: pvs' => captures pvs' (minsert n v m)
  end.

Lemma path_segments_texts (ss : list bytes) :
  Forall (fun s => s <> [] /\ (SLASH ∉ s)) ss ->
  path_segments (concat (map (cons SLASH) ss)) = ss.
Proof.
  induction 1 as [|s ss [Hne Hns] Hss IH]; [done|]. cbn [map concat app].
  rewrite path_segments_slash. destruct ss as [|s' ss].
  - simpl. rewrite app_nil_r. unfold path_segments. rewrite split_on_notin by done.
    by rewrite filter_cons_True.
  - cbn [map concat app] in *. unfold path_segments in *. rewrite split_on_app by done.
    rewrite filter_cons_True by done. f_equal. exact IH.
Qed.

Lemma is_param_seg_braces n : is_param_seg ("{"%char :: n ++ ["}"%char]) = true.
Proof.
  unfold is_param_seg. rewrite (app_comm_cons n), last_snoc. simpl.
  rewrite length_app. simpl.
  by rewrite Nat.add_comm.
Qed.

Lemma strip_braces_name n : strip_braces ("{"%char :: n ++ ["}"%char]) = n.
Proof.
  unfold strip_braces. rewrite is_param_seg_braces. unfold substr. simpl.
  rewrite length_app. simpl. apply take_app_exact. lia.
Qed.

Lemma urlEncode_nonnil s : s <> [] -> urlEncode s <> [].
Proof.
  intros H E. apply H. rewrite <-(decode_encode false s), E. done.
Qed.

Definition seg_text (p : pattern_seg) : bytes :=
  match p with Lit s => s | Param n => "{"%char :: n ++ ["}"%char] end.
Definition path_seg (pv : pattern_seg * bytes) : bytes :=
  match pv.1 with Lit s => s | Param _ => urlEncode pv.2 end.

Lemma split_pattern ps : Forall pattern_ok ps -> splitPath (pattern_text ps) = map seg_text ps.
Proof.
  intros H. rewrite (proj2 (splitPath_correct _)).
  unfold pattern_text. rewrite <-(map_map seg_text (cons SLASH)).
  apply path_segments_texts. rewrite Forall_map. eapply Forall_impl; [exact H|].
  intros [s|n]; simpl; [naive_solver|]. intros Hn. split; [done|].
  rewrite elem_of_cons, elem_of_app, list_elem_of_singleton.
  intros [?|[?|?]]; [discriminate|by apply Hn|discriminate].
Qed.

Lemma split_path pvs : Forall pv_ok pvs -> splitPath (path_text pvs) = map path_seg pvs.
Proof.
  intros H. rewrite (proj2 (splitPath_correct _)).
  unfold path_text. rewrite <-(map_map path_seg (cons SLASH)).
  apply path_segments_texts. rewrite Forall_map. eapply Forall_impl; [exact H|].
  intros [[s|n] v] [Hp Hv]; unfold path_seg; simpl in *; [naive_solver|].
  split; [by apply urlEncode_nonnil|]. by apply urlEncode_notin.
Qed.

Lemma match_segments_captures pvs m :
  Forall pv_ok pvs ->
  match_segments (map strip_braces (map (fun pv => seg_text pv.1) pvs))
    (map is_param_seg (map (fun pv => seg_text pv.1) pvs)) (map path_seg pvs) m =
  Some (captures pvs m).
Proof.
  intros H. revert m. induction H as [|[[s|n] v] pvs [Hp Hv] Hpvs IH]; intros m; [done|..].
  - destruct Hp as (_ & _ & Hs). cbn [map seg_text fst match_segments]. rewrite Hs.
    assert (strip_braces s = s) as -> by (unfold strip_braces; by rewrite Hs).
    rewrite bool_decide_eq_true_2 by done. apply IH.
  - cbn [map seg_text fst match_segments]. rewrite strip_braces_name, is_param_seg_braces.
    change (path_seg (Param n, v)) with (urlEncode v). rewrite decode_encode. apply IH.
Qed.

(** A route registered for a pattern is matched by every path built for it
    with [urlEncode]d values, and the handler receives exactly those values:
    an encoded slash stays inside its segment. *)
Theorem route_captures m h pvs rt req resp :
  Forall pv_ok pvs ->
  List.find (fun r => route_matches (splitPath (path_ req)) r &&
                      bool_decide (method r = method_ req)) rt = None ->
  path_ req = path_text pvs -> method_ req = m ->
  route (addRoute m (pattern_text (map fst pvs)) h rt) req resp =
  (true, h req (captures pvs []) resp).
Proof.
  intros Hpv Hnone Hpath Hm. unfold route. rewrite route_loop_spec. unfold route_spec, addRoute.
  assert (Hok : Forall pattern_ok (map fst pvs)).
  { rewrite Forall_map. eapply Forall_impl; [exact Hpv|]. by intros pv []. }
  assert (Hmatch : matchRoute
    (mkRoute m (map strip_braces (splitPath (pattern_text (map fst pvs))))
       (map is_param_seg (splitPath (pattern_text (map fst pvs)))) h)
    (splitPath (path_ req)) = Some (captures pvs [])).
  { rewrite Hpath, split_pattern, split_path by done. unfold matchRoute; simpl.
    rewrite !length_map, Nat.eqb_refl, (map_map fst seg_text). by apply match_segments_captures. }
  rewrite (find_app_None _ _ _ Hnone). simpl. unfold route_matches. rewrite Hmatch. simpl.
  rewrite bool_decide_eq_true_2 by done. by rewrite Hmatch.
Qed.

Definition demo_handler : Handler := fun _ params resp => resp <| body_ := default [] (mlookup (bs "id") params) |>.

Lemma route_captures_witness :
  let req := setPath (bs "/users/a%2Fb") (setMethod kGet HttpRequest_new) in
  route (addRoute kGet (bs "/users/{id}") demo_handler []) req (HttpResponse_new false) =
  (true, demo_handler req [(bs "id", bs "a/b")] (HttpResponse_new false)).
Proof.
  apply (route_captures kGet demo_handler
    [(Lit (bs "users"), []); (Param (bs "id"), bs "a/b")] []
    (setPath (bs "/users/a%2Fb") (setMethod kGet HttpRequest_new))
    (HttpResponse_new false)); try done.
  repeat constructor; try done; by apply (bool_decide_eq_true_1 (_ ∉ _)); vm_compute.
Defined.

End Router.
