(* ===== verification/HttpContext.v ===== *)
(** * The incremental request parser (http/http_context.h, http/http_context.cc)

    [HttpContext] keeps the parse state of one connection.  [parseRequest] is a
    [while (progress)] loop; one iteration is [parse_step], split into one
    definition per parser state.  The parser reads any [ByteQueue]: the server
    runs it on a [buffer::Buffer], the theorems use that it behaves the same on
    the plain bytes ([parseRequest_refines]). *)

From S2P Require Import Prelude StdMap CStr Buffer Incremental Url HttpMessage.
Import HttpRequest.

Module HttpContext.

Inductive State :=
| kExpectRequestLine | kExpectHeaders | kExpectBody | kExpectChunkSize
| kExpectChunkData | kExpectChunkCrlf | kGotAll | kError.
#[export] Instance State_eq_dec : EqDecision State.
Proof. solve_decision. Defined.

Inductive Error := kNone | kBadRequest | kTooLarge.
#[export] Instance Error_eq_dec : EqDecision Error.
Proof. solve_decision. Defined.

Record HttpContext := mkHttpContext {
  state_ : State;
  error_ : Error;
  request_ : HttpRequest;
  content_length_ : Z;
  body_received_ : Z;
  header_bytes_ : Z;
  chunk_remaining_ : Z;
  max_body_bytes_ : Z;
}.
#[export] Instance HttpContext_settable : Settable HttpContext := fun c =>
  mkHttpContext (state_ c) (error_ c) (request_ c) (content_length_ c) (body_received_ c)
    (header_bytes_ c) (chunk_remaining_ c) (max_body_bytes_ c).

Definition kMaxHeaderBytes : Z := 64 * 1024.
Definition kDefaultMaxBodyBytes : Z := 8 * 1024 * 1024.

Definition HttpContext_new : HttpContext :=
  mkHttpContext kExpectRequestLine kNone HttpRequest_new 0 0 0 0 0.

Definition gotAll (c : HttpContext) : bool := bool_decide (state_ c = kGotAll).
Definition hasError (c : HttpContext) : bool := bool_decide (state_ c = kError).
Definition setMaxBodyBytes (n : Z) (c : HttpContext) : HttpContext := c <| max_body_bytes_ := n |>.

Definition reset (c : HttpContext) : HttpContext :=
  c <| state_ := kExpectRequestLine |> <| error_ := kNone |>
    <| request_ := HttpRequest.reset (request_ c) |>
    <| content_length_ := 0%Z |> <| body_received_ := 0%Z |> <| header_bytes_ := 0%Z |>
    <| chunk_remaining_ := 0%Z |>.

Definition QMARK : ascii := "?"%char.

(** METHOD SP path[?query] SP HTTP/x.y.  The request is updated piecewise, also
    when a later piece is malformed. *)
Definition parseRequestLine (line : bytes) (req : HttpRequest) : bool * HttpRequest :=
  let space1 := find_char SP line in
  if space1 =? length line then (false, req)
  else
    let m := methodFromString (take space1 line) in
    if bool_decide (m = kInvalid) then (false, req)
    else
      let req1 := setMethod m req in
      let target := drop (S space1) line in
      let space2 := find_char SP target in
      if space2 =? length target then (false, req1)
      else
        let t := take space2 target in
        let q := find_char QMARK t in
        let req2 := setPath (take q t) req1 in
        let req3 := if q =? length t then req2 else setQuery (drop (S q) t) req2 in
        let version := drop (S space2) target in
        if negb (bool_decide (version = bs "HTTP/1.0")) &&
           negb (bool_decide (version = bs "HTTP/1.1"))
        then (false, req3)
        else (true, setVersion version req3).

Section parser.
Context {B : Type} `{ByteQueue B}.
Open Scope cox_scope.

Definition step_request_line (c : HttpContext) (buf : B) : outcome HttpContext B :=
  match findCrlf (bq_bytes buf) with
  | None => Stop c buf
  | Some crlf =>
    let '(ok, req) := parseRequestLine (take crlf (bq_bytes buf)) (request_ c) in
    let c1 := c <| request_ := req |> in
    if ok
    then Continue (c1 <| header_bytes_ := header_bytes_ c +64 Z.of_nat (crlf + 2) |>
                      <| state_ := kExpectHeaders |>) (bq_retrieve (crlf + 2) buf)
    else Fail (c1 <| state_ := kError |>) buf
  end.

(** The blank line: choose the body framing. *)
Definition end_of_headers (c : HttpContext) (buf : B) : outcome HttpContext B :=
  let buf1 := bq_retrieve 2 buf in
  let te := toLower (header (bs "transfer-encoding") (request_ c)) in
  if contains (bs "chunked") te then Continue (c <| state_ := kExpectChunkSize |>) buf1
  else
    let cl := header (bs "content-length") (request_ c) in
    let n := match cl with [] => 0%Z | _ => strtoul 10 cl end in
    let c1 := c <| content_length_ := n |> <| body_received_ := 0%Z |> in
    if (0 <? max_body_bytes_ c)%Z && (max_body_bytes_ c <? n)%Z
    then Fail (c1 <| error_ := kTooLarge |> <| state_ := kError |>) buf1
    else Continue (c1 <| state_ := if (0 <? n)%Z then kExpectBody else kGotAll |>) buf1.

(** A non-blank line of [n] bytes before its CRLF. *)
Definition header_field (n : nat) (c : HttpContext) (buf : B) : outcome HttpContext B :=
  let line := take n (bq_bytes buf) in
  let colon := find_char COLON line in
  if colon =? length line then Fail (c <| state_ := kError |>) buf
  else
    let key := take colon line in
    let value := skip_sp (drop (S colon) line) in
    let hb := header_bytes_ c +64 Z.of_nat (n + 2) in
    let c1 := c <| request_ := addHeader key value (request_ c) |>
                <| header_bytes_ := hb |> in
    if (kMaxHeaderBytes <? hb)%Z then Fail (c1 <| state_ := kError |>) buf
    else Continue c1 (bq_retrieve (n + 2) buf).

Definition step_headers (c : HttpContext) (buf : B) : outcome HttpContext B :=
  match findCrlf (bq_bytes buf) with
  | None => Stop c buf
  | Some O => end_of_headers c buf
  | Some n => header_field n c buf
  end.

Definition step_body (c : HttpContext) (buf : B) : outcome HttpContext B :=
  let avail := Z.of_nat (bq_size buf) in
  let need := content_length_ c -64 body_received_ c in
  let take_ := Z.min avail need in
  if (0 <? take_)%Z then
    let n := Z.to_nat take_ in
    let c1 := c <| request_ := appendBody (take n (bq_bytes buf)) (request_ c) |>
                <| body_received_ := body_received_ c +64 take_ |> in
    let c2 := if (body_received_ c1 =? content_length_ c1)%Z then c1 <| state_ := kGotAll |> else c1 in
    Continue c2 (bq_retrieve n buf)
  else
    Stop (if (body_received_ c =? content_length_ c)%Z then c <| state_ := kGotAll |> else c) buf.

Definition step_chunk_size (c : HttpContext) (buf : B) : outcome HttpContext B :=
  match findCrlf (bq_bytes buf) with
  | None => Stop c buf
  | Some crlf =>
    let n := strtoul 16 (take crlf (bq_bytes buf)) in
    Continue (c <| chunk_remaining_ := n |>
                <| state_ := if (n =? 0)%Z then kGotAll else kExpectChunkData |>)
             (bq_retrieve (crlf + 2) buf)
  end.

Definition step_chunk_data (c : HttpContext) (buf : B) : outcome HttpContext B :=
  let avail := Z.of_nat (bq_size buf) in
  let take_ := Z.min avail (chunk_remaining_ c) in
  if (0 <? take_)%Z then
    if (0 <? max_body_bytes_ c)%Z && (max_body_bytes_ c <? body_received_ c +64 take_)%Z
    then Fail (c <| error_ := kTooLarge |> <| state_ := kError |>) buf
    else
      let n := Z.to_nat take_ in
      let c1 := c <| request_ := appendBody (take n (bq_bytes buf)) (request_ c) |>
                  <| chunk_remaining_ := chunk_remaining_ c -64 take_ |>
                  <| body_received_ := body_received_ c +64 take_ |> in
      let c2 := if (chunk_remaining_ c1 =? 0)%Z then c1 <| state_ := kExpectChunkCrlf |> else c1 in
      Continue c2 (bq_retrieve n buf)
  else
    Stop (if (chunk_remaining_ c =? 0)%Z then c <| state_ := kExpectChunkCrlf |> else c) buf.

Definition step_chunk_crlf (c : HttpContext) (buf : B) : outcome HttpContext B :=
  if 2 <=? bq_size buf
  then Continue (c <| state_ := kExpectChunkSize |>) (bq_retrieve 2 buf)
  else Stop c buf.

Definition parse_step (c : HttpContext) (buf : B) : outcome HttpContext B :=
  match state_ c with
  | kExpectRequestLine => step_request_line c buf
  | kExpectHeaders => step_headers c buf
  | kExpectBody => step_body c buf
  | kExpectChunkSize => step_chunk_size c buf
  | kExpectChunkData => step_chunk_data c buf
  | kExpectChunkCrlf => step_chunk_crlf c buf
  | kGotAll | kError => Stop c buf
  end.

End parser.

#[export] Instance request_parser : IncParser HttpContext := {|
  inc_step B _ := parse_step; inc_error := hasError;
  inc_reason_type := Error; inc_reason := error_;
|}.

Section run.
Context {B : Type} `{ByteQueue B}.

(** The [while (progress)] loop; its fuel bounds the number of iterations, and
    [parseRequest] gives it enough ([parseRequest_total]). *)
Definition parse_loop (fuel : nat) (c : HttpContext) (buf : B) : option (bool * HttpContext * B) :=
  inc_loop fuel c buf.

Definition parseRequest (c : HttpContext) (buf : B) : bool * HttpContext * B := inc_run c buf.
End run.

(** ** One iteration *)
Section iteration.
Context {B : Type} `{ByteQueueLaws B}.

Lemma parse_step_consumes c buf : bq_wf buf -> consumes buf (parse_step c buf).
Proof.
  intros Hwf. pose proof (bq_size_bytes buf Hwf) as Hsz.
  assert (Hcr : forall n, findCrlf (bq_bytes buf) = Some n -> n + 2 <= bq_size buf).
  { intros n Hn. rewrite Hsz. by apply findCrlf_bound. }
  unfold parse_step. destruct (state_ c); auto with cox.
  - unfold step_request_line. destruct (findCrlf _) as [n|]; [|auto with cox].
    specialize (Hcr n eq_refl).
    destruct (parseRequestLine _ _) as [[] req]; [apply consumes_continue; lia|auto with cox].
  - unfold step_headers. destruct (findCrlf _) as [[|n]|]; [| |auto with cox].
    + specialize (Hcr 0 eq_refl). unfold end_of_headers.
      case_if; [apply consumes_continue; lia|].
      destruct (match header _ _ with [] => _ | _ => _ end) eqn:?;
        (case_if; [exists 2; split; [lia|by right]|apply consumes_continue; lia]).
    + specialize (Hcr (S n) eq_refl). unfold header_field.
      case_if; [auto with cox|]. case_if; [auto with cox|]. apply consumes_continue. lia.
  - unfold step_body. case_if; [apply consumes_continue; lia|auto with cox].
  - unfold step_chunk_size. destruct (findCrlf _) as [n|]; [|auto with cox].
    specialize (Hcr n eq_refl). apply consumes_continue. lia.
  - unfold step_chunk_data. case_if; [|auto with cox].
    case_if; [auto with cox|apply consumes_continue; lia].
  - unfold step_chunk_crlf. case_if; [apply consumes_continue; lia|auto with cox].
Qed.

Lemma parse_step_refines c buf :
  bq_wf buf -> outcome_bytes (parse_step c buf) = parse_step c (bq_bytes buf).
Proof.
  intros Hwf. pose proof (bq_size_bytes buf Hwf) as Hsz.
  assert (Hcr : forall n, findCrlf (bq_bytes buf) = Some n -> n + 2 <= bq_size buf).
  { intros n Hn. rewrite Hsz. by apply findCrlf_bound. }
  assert (Hr : forall n, n <= bq_size buf -> bq_bytes (bq_retrieve n buf) = drop n (bq_bytes buf))
    by (intros; by apply bq_retrieve_bytes).
  unfold parse_step. destruct (state_ c); try done.
  - unfold step_request_line. simpl bq_bytes. destruct (findCrlf _) as [n|]; [|done].
    destruct (parseRequestLine _ _) as [[] req]; simpl; [|done]. by rewrite Hr by auto.
  - unfold step_headers. simpl bq_bytes. destruct (findCrlf _) as [[|n]|]; [| |done].
    + specialize (Hcr 0 eq_refl). unfold end_of_headers. simpl bq_retrieve.
      repeat case_if; simpl; by rewrite Hr by lia.
    + specialize (Hcr (S n) eq_refl). unfold header_field. simpl bq_bytes.
      case_if; [done|]. case_if; [done|]. simpl outcome_bytes. by rewrite Hr by lia.
  - unfold step_body. rewrite Hsz. simpl bq_bytes. simpl bq_size. case_if; simpl; [|done].
    by rewrite Hr by lia.
  - unfold step_chunk_size. simpl bq_bytes. destruct (findCrlf _) as [n|]; [|done].
    simpl. by rewrite Hr by auto.
  - unfold step_chunk_data. rewrite Hsz. simpl bq_bytes. simpl bq_size.
    case_if; simpl; [|done]. case_if; simpl; [done|]. by rewrite Hr by lia.
  - unfold step_chunk_crlf. rewrite Hsz. simpl bq_size. case_if; simpl; [|done].
    by rewrite Hr by lia.
Qed.

End iteration.

Lemma parse_step_fail_state c (s : bytes) c' s' : parse_step c s = Fail c' s' -> hasError c' = true.
Proof.
  unfold parse_step. destruct (state_ c); try done.
  - unfold step_request_line. destruct (findCrlf _); [|done].
    destruct (parseRequestLine _ _) as [[] req]; [done|]. by intros [= <- <-].
  - unfold step_headers. destruct (findCrlf _) as [[|n]|]; [| |done].
    + unfold end_of_headers. repeat (case_if; try done). all: by intros [= <- <-].
    + unfold header_field. repeat (case_if; try done). all: by intros [= <- <-].
  - unfold step_body. by case_if.
  - unfold step_chunk_size. by destruct (findCrlf _).
  - unfold step_chunk_data. case_if; [|done]. case_if; [|done]. by intros [= <- <-].
  - unfold step_chunk_crlf. by case_if.
Qed.

#[export] Instance request_parser_laws : IncParserLaws HttpContext.
Proof.
  split.
  - intros. by apply parse_step_consumes.
  - intros. by apply parse_step_refines.
  - intros c s c' s'. apply parse_step_fail_state.
  - intros c s E. unfold inc_step; simpl. unfold parse_step. simpl in E. unfold hasError in E.
    bool_prop. by rewrite E.
Qed.

(** C33: the parse loop terminates on every input and in every parser state:
    one iteration more than there are buffered bytes always suffices, and
    [parseRequest] is the result of that run. *)
Theorem parseRequest_total `{ByteQueueLaws B} c (buf : B) fuel :
  bq_wf buf -> bq_size buf < fuel -> parse_loop fuel c buf = Some (parseRequest c buf).
Proof. apply inc_loop_result. Qed.

Lemma parseRequest_total_witness :
  parse_loop 8 HttpContext_new (bs "GET / H") = Some (parseRequest HttpContext_new (bs "GET / H")).
Proof. apply (parseRequest_total HttpContext_new (bs "GET / H") 8); [exact I|simpl; lia]. Defined.

(** The parser run on a [buffer::Buffer], through [peek], [readableBytes]
    and [retrieve], computes what it computes on the readable bytes themselves,
    respects the buffer's assertions, and leaves a well-formed buffer holding
    exactly the bytes it did not consume. *)
Theorem parseRequest_refines c (buf : Buffer.Buffer) :
  Buffer.buffer_wf buf ->
  Buffer.buffer_wf (parseRequest c buf).2 /\
  parseRequest c (Buffer.content buf) =
  ((parseRequest c buf).1, Buffer.content (parseRequest c buf).2).
Proof. intros Hwf. exact (inc_run_bytes c buf Hwf). Qed.

Lemma parseRequest_refines_witness :
  let buf := Buffer.append (bs "GET / HTTP/1.1") (Buffer.Buffer_new 4) in
  parseRequest HttpContext_new (Buffer.content buf) =
  ((parseRequest HttpContext_new buf).1, Buffer.content (parseRequest HttpContext_new buf).2).
Proof.
  intros buf. apply (parseRequest_refines HttpContext_new buf).
  apply Buffer.append_spec, Buffer.new_wf.
Defined.

End HttpContext.
