(* ===== verification/HttpParse.v ===== *)
(** * What the request parser guarantees, however the bytes arrive

    The server calls [parseRequest] each time bytes have been appended to the
    connection's buffer.  This file proves the parser's invariant, that the
    configured body limit bounds the body, and that cutting the input into
    fragments does not change the outcome.  By [parseRequest_refines] it is
    enough to reason on plain bytes. *)

From S2P Require Import Prelude StdMap CStr Buffer Incremental Url HttpMessage HttpContext.
Import HttpRequest HttpContext.

Lemma parseRequest_unfold c (s : bytes) :
  parseRequest c s =
  match parse_step c s with
  | Continue c' s' => parseRequest c' s'
  | Stop c' s' => (negb (hasError c'), c', s')
  | Fail c' s' => (false, c', s')
  end.
Proof. exact (inc_run_unfold c s). Qed.

Lemma parseRequest_done c (s : bytes) : state_ c = kGotAll -> parseRequest c s = (true, c, s).
Proof.
  intros E. rewrite parseRequest_unfold. unfold parse_step. rewrite E. simpl.
  unfold hasError. by rewrite E.
Qed.

(** ** The invariant

    [ctx_wf k c s]: the counters agree with the body received so far, and the
    bytes in memory (the body, the unread input [s] and [k] bytes still to come)
    number less than 2^64. *)
Definition ctx_wf (k : Z) (c : HttpContext) (s : bytes) : Prop :=
  (0 <= k)%Z /\
  (zlen (body_ (request_ c)) + zlen s + k < two64)%Z /\
  body_received_ c = zlen (body_ (request_ c)) /\
  match state_ c with
  | kExpectRequestLine | kExpectHeaders => body_ (request_ c) = []
  | kExpectBody => (body_received_ c < content_length_ c < two64)%Z
  | kExpectChunkData => (0 < chunk_remaining_ c < two64)%Z
  | _ => True
  end.

(** The iteration's result satisfies the invariant. *)
Definition outcome_wf (k : Z) (o : outcome HttpContext bytes) : Prop :=
  match o with Continue c s | Stop c s | Fail c s => ctx_wf k c s end.

Lemma parseRequestLine_body line req : body_ (parseRequestLine line req).2 = body_ req.
Proof. unfold parseRequestLine. repeat case_if; reflexivity. Qed.

(** Field access of updated contexts and requests, without touching the rest. *)
Ltac fields := cbn [set_field state_ error_ request_ content_length_ body_received_
  header_bytes_ chunk_remaining_ max_body_bytes_ body_ method_ path_ query_ version_ headers_
  query_params_ query_parsed_ appendBody setMethod setPath setQuery setVersion setBody addHeader
  fst snd bq_bytes bq_size bq_retrieve bytes_queue] in *.

Lemma ctx_wf_step_request_line k c s :
  ctx_wf k c s -> state_ c = kExpectRequestLine -> outcome_wf k (step_request_line c s).
Proof.
  intros (Hk & Hmem & Hrecv & Hst) Est. rewrite Est in Hst. unfold step_request_line. fields.
  destruct (findCrlf s) as [n|]; [|unfold outcome_wf, ctx_wf; by rewrite Est].
  pose proof (parseRequestLine_body (take n s) (request_ c)) as Hpb.
  pose proof (zlen_drop_le (n + 2) s).
  destruct (parseRequestLine _ _) as [[] req]; unfold outcome_wf, ctx_wf; fields;
    rewrite Hpb; split_and!; done || lia.
Qed.

Lemma ctx_wf_end_of_headers k c s :
  ctx_wf k c s -> state_ c = kExpectHeaders -> outcome_wf k (end_of_headers c s).
Proof.
  intros (Hk & Hmem & Hrecv & Hst) Est. rewrite Est in Hst. unfold end_of_headers. fields.
  pose proof (zlen_drop_le 2 s) as Hd.
  case_if; [unfold outcome_wf, ctx_wf; fields; split_and!; done || lia|].
  set (n := match header _ _ with [] => 0%Z | _ => _ end).
  assert (Hu : u64 n).
  { subst n. destruct (header (bs "content-length") (request_ c)); [apply u64_0|by apply strtoul_u64]. }
  rewrite Hst in *. change (zlen []) with 0%Z in *.
  case_if; unfold outcome_wf, ctx_wf; fields; rewrite Hst; change (zlen []) with 0%Z;
    split_and!; try done; try lia.
  unfold u64 in Hu. case_if; [lia|done].
Qed.

Lemma ctx_wf_header_field k n c s :
  ctx_wf k c s -> state_ c = kExpectHeaders -> outcome_wf k (header_field n c s).
Proof.
  intros (Hk & Hmem & Hrecv & Hst) Est. rewrite Est in Hst. unfold header_field. fields.
  pose proof (zlen_drop_le (n + 2) s).
  repeat case_if; unfold outcome_wf, ctx_wf; fields; rewrite ?Est; split_and!; done || lia.
Qed.

(** Consuming [n] bytes as body. *)
Lemma body_append_len n s (req : HttpRequest) :
  n <= length s ->
  zlen (body_ (appendBody (take n s) req)) = (zlen (body_ req) + Z.of_nat n)%Z /\
  zlen (drop n s) = (zlen s - Z.of_nat n)%Z.
Proof.
  intros Hn. fields. rewrite zlen_app, zlen_take by done. unfold zlen. rewrite length_drop. lia.
Qed.

Lemma ctx_wf_step_body k c s :
  ctx_wf k c s -> state_ c = kExpectBody -> outcome_wf k (step_body c s).
Proof.
  intros (Hk & Hmem & Hrecv & Hst) Est. rewrite Est in Hst. unfold step_body. fields.
  pose proof (zlen_nonneg (body_ (request_ c))). pose proof (zlen_nonneg s).
  rewrite (wrap64_id (content_length_ c - body_received_ c)) by (unfold u64; lia).
  fold (zlen s). case_if.
  - set (n := Z.to_nat _). destruct (body_append_len n s (request_ c)) as [Hb Hd];
      [unfold n, zlen; lia|].
    assert (Hn : Z.of_nat n = Z.min (zlen s) (content_length_ c - body_received_ c)) by lia.
    rewrite <-Hn, wrap64_id by (unfold u64; lia). fields.
    case_if; unfold outcome_wf, ctx_wf; fields; rewrite ?Est, Hb, Hd; split_and!; done || lia.
  - case_if; [lia|]. unfold outcome_wf, ctx_wf. by rewrite Est.
Qed.

Lemma ctx_wf_step_chunk_size k c s :
  ctx_wf k c s -> outcome_wf k (step_chunk_size c s) \/ state_ c <> kExpectChunkSize.
Proof.
  intros (Hk & Hmem & Hrecv & Hst). destruct (decide (state_ c = kExpectChunkSize)) as [Est|]; [left|by right].
  unfold step_chunk_size. fields. destruct (findCrlf s) as [n|].
  - pose proof (zlen_drop_le (n + 2) s). unfold outcome_wf, ctx_wf; fields.
    pose proof (strtoul_u64 16 (take n s) ltac:(lia)) as Hu. unfold u64 in Hu.
    split_and!; [done|lia|done|]. case_if; [done|lia].
  - unfold outcome_wf, ctx_wf. by rewrite Est.
Qed.

Lemma ctx_wf_step_chunk_data k c s :
  ctx_wf k c s -> state_ c = kExpectChunkData -> outcome_wf k (step_chunk_data c s).
Proof.
  intros (Hk & Hmem & Hrecv & Hst) Est. rewrite Est in Hst. unfold step_chunk_data. fields.
  pose proof (zlen_nonneg (body_ (request_ c))). pose proof (zlen_nonneg s).
  fold (zlen s). case_if.
  - case_if; [unfold outcome_wf, ctx_wf; fields; split_and!; done|].
    set (n := Z.to_nat _). destruct (body_append_len n s (request_ c)) as [Hb Hd];
      [unfold n, zlen; lia|].
    assert (Hn : Z.of_nat n = Z.min (zlen s) (chunk_remaining_ c)) by lia.
    rewrite <-Hn, !wrap64_id by (unfold u64; lia). fields.
    case_if; unfold outcome_wf, ctx_wf; fields; rewrite ?Est, Hb, Hd; split_and!; done || lia.
  - case_if; [lia|]. unfold outcome_wf, ctx_wf. by rewrite Est.
Qed.

Lemma parse_step_wf k c s : ctx_wf k c s -> outcome_wf k (parse_step c s).
Proof.
  intros Hwf. unfold parse_step. destruct (state_ c) eqn:Est; try exact Hwf.
  - by apply ctx_wf_step_request_line.
  - unfold step_headers. destruct (findCrlf _) as [[|n]|]; [| |exact Hwf].
    + by apply ctx_wf_end_of_headers.
    + by apply ctx_wf_header_field.
  - by apply ctx_wf_step_body.
  - by destruct (ctx_wf_step_chunk_size k c s Hwf).
  - by apply ctx_wf_step_chunk_data.
  - unfold step_chunk_crlf. fields. case_if; [|exact Hwf].
    destruct Hwf as (Hk & Hmem & Hrecv & _). pose proof (zlen_drop_le 2 s).
    unfold outcome_wf, ctx_wf; fields; split_and!; done || lia.
Qed.

Lemma parseRequest_wf k c s :
  ctx_wf k c s -> ctx_wf k (parseRequest c s).1.2 (parseRequest c s).2.
Proof. apply (inc_run_inv (ctx_wf k)). apply parse_step_wf. Qed.

(** ** The body limit *)
Definition capped (c : HttpContext) : Prop :=
  (0 < max_body_bytes_ c)%Z ->
  (zlen (body_ (request_ c)) <= max_body_bytes_ c)%Z /\
  (state_ c = kExpectBody -> (content_length_ c <= max_body_bytes_ c)%Z).

Definition outcome_capped (m : Z) (o : outcome HttpContext bytes) : Prop :=
  match o with Continue c _ | Stop c _ | Fail c _ => capped c /\ max_body_bytes_ c = m end.

Ltac capped_tac := unfold outcome_capped, capped in *; fields; intuition (try done; try lia).

Lemma capped_step_body k c s :
  ctx_wf k c s -> state_ c = kExpectBody -> capped c ->
  outcome_capped (max_body_bytes_ c) (step_body c s).
Proof.
  intros (Hk & Hmem & Hrecv & Hst) Est Hcap. rewrite Est in Hst. unfold step_body. fields.
  pose proof (zlen_nonneg (body_ (request_ c))). pose proof (zlen_nonneg s).
  rewrite (wrap64_id (content_length_ c - body_received_ c)) by (unfold u64; lia).
  fold (zlen s). case_if; [|case_if; [lia|done]].
  set (n := Z.to_nat _). destruct (body_append_len n s (request_ c)) as [Hb Hd];
    [unfold n, zlen; lia|]. fields.
  unfold outcome_capped, capped in *; case_if; fields; rewrite Hb; split; try done;
    intros Hpos; destruct (Hcap Hpos) as [H1 H2]; specialize (H2 Est); split; try done; lia.
Qed.

Lemma capped_step_chunk_data k c s :
  ctx_wf k c s -> state_ c = kExpectChunkData -> capped c ->
  outcome_capped (max_body_bytes_ c) (step_chunk_data c s).
Proof.
  intros (Hk & Hmem & Hrecv & Hst) Est Hcap. rewrite Est in Hst. unfold step_chunk_data. fields.
  pose proof (zlen_nonneg (body_ (request_ c))). pose proof (zlen_nonneg s).
  fold (zlen s). case_if; [|case_if; [lia|done]].
  destruct (body_append_len (Z.to_nat (Z.min (zlen s) (chunk_remaining_ c))) s (request_ c))
    as [Hb Hd]; [unfold zlen; lia|].
  rewrite (wrap64_id (body_received_ c + _)) by (unfold u64; lia). fields.
  case_if; [capped_tac; congruence|]. apply andb_false_iff in E0.
  case_if; unfold outcome_capped, capped in *; fields; rewrite Hb; split; try done;
    intros Hpos; destruct (Hcap Hpos) as [H1 H2]; (split; [|congruence]);
    destruct E0; bool_prop; lia.
Qed.

Lemma parse_step_capped k c s :
  ctx_wf k c s -> capped c -> outcome_capped (max_body_bytes_ c) (parse_step c s).
Proof.
  intros Hwf Hcap. pose proof Hwf as (Hk & Hmem & Hrecv & Hst).
  unfold parse_step. destruct (state_ c) eqn:Est; try done.
  - unfold step_request_line. fields. destruct (findCrlf s) as [n|]; [|done].
    pose proof (parseRequestLine_body (take n s) (request_ c)) as Hpb.
    destruct (parseRequestLine _ _) as [[] req]; fields;
      unfold outcome_capped, capped in *; fields; rewrite Hpb; naive_solver.
  - unfold step_headers. fields. destruct (findCrlf s) as [[|n]|]; [| |done].
    + unfold end_of_headers. fields. case_if; [capped_tac; congruence|].
      case_if; [capped_tac; congruence|]. apply andb_false_iff in E0.
      unfold outcome_capped, capped in *; fields. split; [|done]. intros Hpos.
      rewrite Hst. change (zlen []) with 0%Z. split; [lia|]. intros _.
      destruct E0; bool_prop; lia.
    + unfold header_field. fields. repeat case_if; capped_tac; congruence.
  - by apply (capped_step_body k).
  - unfold step_chunk_size. fields. destruct (findCrlf s) as [n|]; [|done].
    unfold outcome_capped, capped in *; fields. split; [|done]. intros Hpos.
    split; [by apply Hcap|]. by case_if.
  - by apply (capped_step_chunk_data k).
  - unfold step_chunk_crlf. fields. case_if; [|done]. capped_tac.
Qed.

Lemma parseRequest_capped k c s :
  ctx_wf k c s -> capped c ->
  capped (parseRequest c s).1.2 /\ max_body_bytes_ (parseRequest c s).1.2 = max_body_bytes_ c.
Proof.
  intros Hwf Hcap. remember (max_body_bytes_ c) as m eqn:Hm.
  apply (inc_run_inv (fun c s => ctx_wf k c s /\ capped c /\ max_body_bytes_ c = m)); [|done].
  clear. intros c s (Hwf & Hcap & <-). pose proof (parse_step_wf k c s Hwf) as Ho.
  pose proof (parse_step_capped k c s Hwf Hcap) as Hc. unfold inc_step; simpl.
  by destruct (parse_step c s).
Qed.

(** ** Feeding a connection fragment by fragment *)
Lemma ctx_wf_app k c s t : ctx_wf k c (s ++ t) <-> (0 <= k)%Z /\ ctx_wf (zlen t + k) c s.
Proof.
  unfold ctx_wf. rewrite zlen_app. pose proof (zlen_nonneg t).
  split; intros; destruct_and!; split_and!; done || lia.
Qed.

Lemma reset_wf k c :
  (0 <= k < two64)%Z -> ctx_wf k (reset c) [] /\ capped (reset c).
Proof.
  intros Hk. unfold ctx_wf, capped, reset; simpl. change (zlen []) with 0%Z.
  split_and!; (done || lia || (intros; split; [lia|done])).
Qed.

Lemma feed_invariant k frags c s :
  ctx_wf (zlen (concat frags) + k) c s -> (0 <= k)%Z -> capped c ->
  let cfg := feed (c, s) frags in
  ctx_wf k cfg.1 cfg.2 /\ capped cfg.1 /\ max_body_bytes_ cfg.1 = max_body_bytes_ c.
Proof.
  revert c s. induction frags as [|f frags IH]; intros c s Hwf Hk Hcap; [done|].
  simpl concat in Hwf. rewrite zlen_app, <-Z.add_assoc in Hwf.
  assert (Hwf1 : ctx_wf (zlen (concat frags) + k) c (s ++ f)).
  { apply ctx_wf_app. pose proof (zlen_nonneg (concat frags)). split; [lia|done]. }
  destruct (parseRequest_capped _ c (s ++ f) Hwf1 Hcap) as [Hc1 Hm1].
  apply parseRequest_wf in Hwf1. unfold feed. cbn [foldl]. unfold feed1 at 2 4 6. simpl.
  rewrite <-Hm1. by apply IH.
Qed.

(** C8: the configured limit is a real bound: however a request arrives (any
    fragmentation, Content-Length or chunked, valid or not), the body
    accumulated after [reset] never exceeds [max_body_bytes_]. *)
Theorem body_within_limit c frags :
  (0 < max_body_bytes_ c)%Z -> (zlen (concat frags) < two64)%Z ->
  (zlen (body_ (request_ (feed (reset c, []) frags).1)) <= max_body_bytes_ c)%Z.
Proof.
  intros Hpos Hlen. pose proof (zlen_nonneg (concat frags)).
  destruct (reset_wf (zlen (concat frags) + 0) c) as [Hwf Hcap]; [lia|].
  destruct (feed_invariant 0 frags (reset c) [] Hwf ltac:(lia) Hcap) as (_ & Hc & Hm).
  change (max_body_bytes_ (reset c)) with (max_body_bytes_ c) in Hm.
  unfold capped in Hc. rewrite Hm in Hc. by apply Hc.
Qed.

Lemma body_within_limit_witness :
  let c := setMaxBodyBytes 4 HttpContext_new in
  let frags := [bs "POST / HTTP/1.1"; CRLF ++ bs "Content-Length: 3"; CRLF ++ CRLF ++ bs "ab"] in
  (zlen (body_ (request_ (feed (reset c, []) frags).1)) <= max_body_bytes_ c)%Z.
Proof.
  intros c frags. apply (body_within_limit c frags); [reflexivity|].
  rewrite two64_val. vm_compute. reflexivity.
Defined.

(** ** Fragmentation does not matter *)

(** Positions inside [s] do not see [t]. *)
Ltac stable_line n Hn :=
  rewrite (take_app_short _ _ n) by lia; rewrite ?drop_app_le by lia.

Lemma stable_request_line c s t : state_ c = kExpectRequestLine -> step_stable c s t.
Proof.
  intros Est. unfold step_stable, inc_step, inc_error; simpl. unfold parse_step. rewrite Est. unfold step_request_line. fields.
  destruct (findCrlf s) as [n|] eqn:E; [|done]. rewrite (findCrlf_app s t n E).
  apply findCrlf_bound in E. stable_line n E.
  destruct (parseRequestLine _ _) as [[] req]; [by left|done].
Qed.

Lemma stable_headers c s t : state_ c = kExpectHeaders -> step_stable c s t.
Proof.
  intros Est. unfold step_stable, inc_step, inc_error; simpl. unfold parse_step. rewrite Est. unfold step_headers. fields.
  destruct (findCrlf s) as [[|n]|] eqn:E; [| |done]; rewrite (findCrlf_app s t _ E);
    apply findCrlf_bound in E.
  - unfold end_of_headers. fields. rewrite drop_app_le by lia.
    case_if; [by left|]. case_if; [done|by left].
  - unfold header_field. fields. stable_line (S n) E.
    case_if; [done|]. case_if; [done|by left].
Qed.

Lemma stable_chunk_size c s t : state_ c = kExpectChunkSize -> step_stable c s t.
Proof.
  intros Est. unfold step_stable, inc_step, inc_error; simpl. unfold parse_step. rewrite Est. unfold step_chunk_size. fields.
  destruct (findCrlf s) as [n|] eqn:E; [|done]. rewrite (findCrlf_app s t n E).
  apply findCrlf_bound in E. stable_line n E. by left.
Qed.

Lemma stable_chunk_crlf c s t : state_ c = kExpectChunkCrlf -> step_stable c s t.
Proof.
  intros Est. unfold step_stable, inc_step, inc_error; simpl. unfold parse_step. rewrite Est. unfold step_chunk_crlf. fields.
  case_if; [|done]. rewrite (proj2 (Nat.leb_le _ _)) by (rewrite length_app; lia).
  rewrite drop_app_le by lia. by left.
Qed.

(** In the body states the iteration either completes the piece inside [s], or
    takes all of [s] and goes on with [t]. *)
Lemma appendBody_app x y r : appendBody (x ++ y) r = appendBody y (appendBody x r).
Proof. unfold appendBody. fields. by rewrite app_assoc. Qed.

Lemma stable_body c s t :
  ctx_wf (zlen t) c s -> state_ c = kExpectBody -> step_stable c s t.
Proof.
  intros (Hk & Hmem & Hrecv & Hst) Est. rewrite Est in Hst.
  unfold step_stable, inc_step, inc_error; simpl. unfold parse_step. rewrite Est. unfold step_body. fields.
  pose proof (zlen_nonneg (body_ (request_ c))). pose proof (zlen_nonneg s).
  rewrite !(wrap64_id (content_length_ c - body_received_ c)) by (unfold u64; lia).
  fold (zlen s) (zlen (s ++ t)). rewrite zlen_app.
  set (need := (content_length_ c - body_received_ c)%Z) in *.
  case_if; [|case_if; [lia|done]]. destruct (decide (need <= zlen s)%Z) as [Hfull|Hpart].
  { left. rewrite !Z.min_r by lia. rewrite (proj2 (Z.ltb_lt 0 need)) by lia.
    rewrite take_app_short, drop_app_le by (unfold zlen in *; lia). done. }
  right. rewrite (Z.min_l (zlen s)) by lia. destruct (take_all s) as [-> ->].
  rewrite (wrap64_id (body_received_ c + zlen s)) by (unfold u64; lia).
  fields. rewrite (proj2 (Z.eqb_neq (body_received_ c + zlen s) _)) by lia. fields. rewrite Est.
  rewrite !(wrap64_id (content_length_ c - (body_received_ c + zlen s))) by (unfold u64; lia).
  split_and!; [done| |done|].
  { change (Z.of_nat (length [])) with 0%Z. rewrite Z.min_l by lia. simpl.
    rewrite (proj2 (Z.eqb_neq (body_received_ c + zlen s) _)) by lia. done. }
  intros Ht%zlen_pos. fold (zlen t). left. set (n := Z.min (zlen s + zlen t) need).
  replace (Z.min (zlen t) _) with (n - zlen s)%Z by lia.
  rewrite !(proj2 (Z.ltb_lt 0 _)) by lia.
  destruct (take_beyond s t n) as [-> ->]; [lia|]. rewrite <-appendBody_app.
  replace (body_received_ c + zlen s + (n - zlen s))%Z with (body_received_ c + n)%Z by lia.
  reflexivity.
Qed.

Lemma stable_chunk_data c s t :
  ctx_wf (zlen t) c s -> state_ c = kExpectChunkData -> step_stable c s t.
Proof.
  intros (Hk & Hmem & Hrecv & Hst) Est. rewrite Est in Hst.
  unfold step_stable, inc_step, inc_error; simpl. unfold parse_step. rewrite Est. unfold step_chunk_data. fields.
  pose proof (zlen_nonneg (body_ (request_ c))). pose proof (zlen_nonneg s).
  fold (zlen s) (zlen (s ++ t)). rewrite zlen_app.
  set (need := chunk_remaining_ c) in *. set (m := max_body_bytes_ c).
  case_if; [|case_if; [lia|done]]. destruct (decide (need <= zlen s)%Z) as [Hfull|Hpart].
  { rewrite !Z.min_r by lia. rewrite (proj2 (Z.ltb_lt 0 need)) by lia.
    case_if; [done|]. left.
    rewrite take_app_short, drop_app_le by (unfold zlen in *; lia). done. }
  rewrite (Z.min_l (zlen s)) by lia. set (n := Z.min (zlen s + zlen t) need).
  rewrite !(wrap64_id (body_received_ c + zlen s)) by (unfold u64; lia).
  rewrite !(wrap64_id (body_received_ c + n)) by (unfold u64; lia).
  rewrite (proj2 (Z.ltb_lt 0 n)) by lia. case_if.
  { rewrite (proj2 (Z.ltb_lt 0 m)), (proj2 (Z.ltb_lt m _)) by lia. done. }
  right. destruct (take_all s) as [-> ->]. rewrite (wrap64_id (need - zlen s)) by (unfold u64; lia).
  fields. rewrite (proj2 (Z.eqb_neq (need - zlen s) 0)) by lia. fields. rewrite Est.
  split_and!; [done| |done|].
  { change (Z.of_nat (length [])) with 0%Z. rewrite Z.min_l by lia. simpl.
    by rewrite (proj2 (Z.eqb_neq (need - zlen s) 0)) by lia. }
  intros Ht%zlen_pos. fold (zlen t). replace (Z.min (zlen t) _) with (n - zlen s)%Z by lia.
  rewrite (proj2 (Z.ltb_lt 0 (n - zlen s))) by lia.
  rewrite !wrap64_id by (unfold u64; lia).
  replace (body_received_ c + zlen s + (n - zlen s))%Z with (body_received_ c + n)%Z by lia.
  case_if; [by right|]. left.
  destruct (take_beyond s t n) as [-> ->]; [lia|]. rewrite <-appendBody_app.
  replace (need - zlen s - (n - zlen s))%Z with (need - n)%Z by lia. reflexivity.
Qed.

Lemma parse_step_stable c s t : ctx_wf (zlen t) c s -> step_stable c s t.
Proof.
  intros Hwf. destruct (state_ c) eqn:Est.
  - by apply stable_request_line.
  - by apply stable_headers.
  - by apply stable_body.
  - by apply stable_chunk_size.
  - by apply stable_chunk_data.
  - by apply stable_chunk_crlf.
  - unfold step_stable, inc_step, inc_error; simpl. unfold parse_step. by rewrite Est.
  - unfold step_stable, inc_step, inc_error; simpl. unfold parse_step. by rewrite Est.
Qed.

Lemma ctx_wf_weaken k k' c s : ctx_wf k c s -> (0 <= k' <= k)%Z -> ctx_wf k' c s.
Proof. intros (? & ? & ? & ?) ?. split_and!; done || lia. Qed.

Lemma parse_step_idle k c : ctx_wf k c [] -> parse_step c [] = Stop c [].
Proof.
  intros (Hk & Hmem & Hrecv & Hst). unfold parse_step. destruct (state_ c) eqn:Est; try done.
  - unfold step_body. fields.
    rewrite (wrap64_id (content_length_ c - body_received_ c))
      by (unfold u64; pose proof (zlen_nonneg (body_ (request_ c))); lia).
    rewrite Z.min_l by (simpl; lia). simpl.
    by rewrite (proj2 (Z.eqb_neq (body_received_ c) _)) by lia.
  - unfold step_chunk_data. fields. rewrite Z.min_l by (simpl; lia). simpl.
    by rewrite (proj2 (Z.eqb_neq (chunk_remaining_ c) 0)) by lia.
Qed.

#[export] Instance request_fragmentable : Fragmentable HttpContext := {|
  inc_wf := ctx_wf; inc_wf_step := parse_step_wf; inc_wf_app := ctx_wf_app;
  inc_wf_weaken := ctx_wf_weaken; inc_stable := parse_step_stable; inc_idle := parse_step_idle;
|}.

(** C6: the outcome of parsing does not depend on how the network cuts the
    stream: feeding the fragments one by one leaves the same request, parser
    state and unread bytes as parsing their concatenation at once, or both
    reject the request for the same reason. *)
Theorem parse_any_fragmentation c frags :
  ctx_wf (zlen (concat frags)) c [] ->
  cfg_equiv (feed (c, []) frags) (feed1 (c, []) (concat frags)).
Proof. exact (feed_any_fragmentation c frags). Qed.

Lemma parse_any_fragmentation_witness :
  let frags := [bs "GET /a"; bs "b HTTP/1.1" ++ [CR]; [LF] ++ bs "Host: x" ++ CRLF; CRLF ++ bs "GET"] in
  cfg_equiv (feed (reset HttpContext_new, []) frags) (feed1 (reset HttpContext_new, []) (concat frags)).
Proof.
  intros frags. apply (parse_any_fragmentation (reset HttpContext_new) frags).
  apply reset_wf. split; [done|]. vm_compute. reflexivity.
Defined.
