(* ===== verification/HttpRoundtrip.v ===== *)
(** * What the client writes is what the server reads

    [HttpRequest::appendTo] (the client) against [HttpContext::parseRequest] (the
    server): a serialized request is parsed back to the same request, bytes of a
    following request are left alone, and chunked bodies are reassembled. *)

From S2P Require Import Prelude StdMap CStr Buffer Incremental Url HttpMessage HttpContext HttpParse.
Import HttpRequest HttpContext.

(** ** Lines *)
Lemma findCrlf_line l rest : CR ∉ l -> findCrlf (l ++ CRLF ++ rest) = Some (length l).
Proof.
  induction l as [|a l IH]; intros Hl; [done|]. apply not_elem_of_cons in Hl as [Ha Hl].
  assert (Hcons : exists b t, l ++ CRLF ++ rest = b :: t) by (destruct l; eauto).
  destruct Hcons as (b & t & Hbt). simpl app in *. rewrite Hbt, findCrlf_cons, <-Hbt, IH by done.
  by rewrite bool_decide_eq_false_2 by congruence.
Qed.

Lemma line_split l rest :
  take (length l) (l ++ CRLF ++ rest) = l /\ drop (length l + 2) (l ++ CRLF ++ rest) = rest.
Proof.
  split; [by apply take_app_exact|]. rewrite app_assoc. apply drop_app_exact.
  by rewrite length_app.
Qed.

(** ** The request line *)
Definition request_line (m : Method) (path query : bytes) : bytes :=
  methodToString m ++ bs " " ++ path ++
  (match query with [] => [] | q => bs "?" ++ q end) ++ bs " HTTP/1.1".

(** No SP, '?' or CR in the path; no SP or CR in the query. *)
Definition target_ok (path query : bytes) : Prop :=
  path <> [] /\ (SP ∉ path) /\ (QMARK ∉ path) /\ (CR ∉ path) /\ (SP ∉ query) /\ (CR ∉ query).

Lemma method_no_char m c : isupper c = false -> c ∉ methodToString m.
Proof.
  intros Hc Hin. assert (Hall : Forall (fun x => isupper x = true) (methodToString m)).
  { destruct m; repeat constructor. }
  rewrite Forall_forall in Hall. specialize (Hall _ Hin). congruence.
Qed.

Lemma parseRequestLine_ok m path query req :
  m <> kInvalid -> target_ok path query -> query_ req = [] ->
  query_parsed_ req = false -> query_params_ req = [] ->
  parseRequestLine (request_line m path query) req =
  (true, req <| method_ := m |> <| path_ := path |> <| query_ := query |>
             <| version_ := bs "HTTP/1.1" |>).
Proof.
  intros Hm (Hne & Hsp & Hq & Hcr & Hqsp & Hqcr) Hq0 Hp0 Hpp0.
  set (target := path ++ match query with [] => [] | q => bs "?" ++ q end).
  assert (Ht : SP ∉ target).
  { unfold target. rewrite elem_of_app. intros [H|H]; [done|]. destruct query; [by apply elem_of_nil in H|].
    apply elem_of_cons in H as [H|H]; done. }
  assert (Hline : request_line m path query
                  = methodToString m ++ SP :: (target ++ SP :: bs "HTTP/1.1")).
  { unfold request_line, target. by rewrite <-app_assoc. }
  unfold parseRequestLine. rewrite Hline.
  rewrite find_char_app by (by apply method_no_char).
  rewrite (proj2 (Nat.eqb_neq _ _)) by (rewrite length_app; simpl; lia).
  rewrite take_app_exact by done. rewrite methodFromString_toString by done.
  rewrite bool_decide_eq_false_2 by done.
  rewrite (cons_middle SP), app_assoc, drop_app_exact by (rewrite length_app; simpl; lia).
  rewrite find_char_app by done.
  rewrite (proj2 (Nat.eqb_neq _ _)) by (rewrite length_app; simpl; lia).
  rewrite take_app_exact by done.
  rewrite (cons_middle SP), app_assoc, drop_app_exact by (rewrite length_app; simpl; lia).
  change (negb (bool_decide (bs "HTTP/1.1" = bs "HTTP/1.0")) &&
          negb (bool_decide (bs "HTTP/1.1" = bs "HTTP/1.1"))) with false. cbn iota.
  f_equal. unfold target. destruct query as [|q0 query].
  - rewrite app_nil_r, find_char_notin, Nat.eqb_refl by done. rewrite take_ge by lia.
    unfold setMethod, setPath, setVersion. destruct req; simpl in *. by subst.
  - change (bs "?" ++ q0 :: query) with (QMARK :: q0 :: query).
    rewrite find_char_app by done.
    rewrite (proj2 (Nat.eqb_neq _ _)) by (rewrite length_app; simpl; lia).
    rewrite take_app_exact by done.
    rewrite (cons_middle QMARK), app_assoc, drop_app_exact by (rewrite length_app; simpl; lia).
    unfold setMethod, setPath, setVersion, setQuery. destruct req; simpl in *. by subst.
Qed.

(** ** Header fields *)
Definition field_ok (kv : bytes * bytes) : Prop :=
  (COLON ∉ kv.1) /\ (CR ∉ kv.1) /\ (CR ∉ kv.2) /\ skip_sp kv.2 = kv.2.

Definition field_line (kv : bytes * bytes) : bytes := kv.1 ++ COLON :: SP :: kv.2.

Lemma header_line_eq kv : header_line kv = field_line kv ++ CRLF.
Proof. unfold header_line, field_line. by rewrite <-app_assoc. Qed.

Lemma field_line_cr kv : field_ok kv -> CR ∉ field_line kv.
Proof.
  intros (_ & Hk & Hv & _). unfold field_line. rewrite elem_of_app, !elem_of_cons.
  intros [?|[?|[?|?]]]; done.
Qed.

(** The line splits at its first colon into the name and the value. *)
Lemma field_line_parts kv :
  field_ok kv ->
  find_char COLON (field_line kv) = length kv.1 /\
  length kv.1 <> length (field_line kv) /\
  take (length kv.1) (field_line kv) = kv.1 /\
  skip_sp (drop (S (length kv.1)) (field_line kv)) = kv.2.
Proof.
  intros (Hcol & _ & _ & Hval). unfold field_line. split_and!.
  - by apply find_char_app.
  - rewrite length_app. simpl. lia.
  - by apply take_app_exact.
  - rewrite (cons_middle COLON), app_assoc, drop_app_exact by (rewrite length_app; simpl; lia).
    cbn [skip_sp]. by rewrite bool_decide_eq_true_2.
Qed.

(** The parser after reading one field. *)
Definition after_field (c : HttpContext) (kv : bytes * bytes) : HttpContext :=
  c <| request_ := addHeader kv.1 kv.2 (request_ c) |>
    <| header_bytes_ := (header_bytes_ c + zlen (header_line kv))%Z |>.

Lemma parse_field c kv rest :
  state_ c = kExpectHeaders -> field_ok kv -> (0 <= header_bytes_ c)%Z ->
  (header_bytes_ c + zlen (header_line kv) <= kMaxHeaderBytes)%Z ->
  parseRequest c (header_line kv ++ rest) = parseRequest (after_field c kv) rest.
Proof.
  intros Est Hok Hh0 Hmax. rewrite parseRequest_unfold. unfold parse_step. rewrite Est.
  unfold step_headers. fields. rewrite header_line_eq, <-app_assoc.
  rewrite findCrlf_line by (by apply field_line_cr).
  assert (Hpos : exists n, length (field_line kv) = S n).
  { unfold field_line. rewrite length_app. simpl. eexists. rewrite Nat.add_succ_r. done. }
  destruct Hpos as [n Hn]. rewrite Hn. rewrite <-Hn. unfold header_field. fields.
  destruct (line_split (field_line kv) rest) as [-> ->].
  destruct (field_line_parts kv Hok) as (-> & Hne & -> & ->).
  rewrite (proj2 (Nat.eqb_neq _ _) Hne).
  assert (Hlen : Z.of_nat (length (field_line kv) + 2) = zlen (header_line kv)).
  { unfold zlen. rewrite header_line_eq, length_app. done. }
  rewrite Hlen. pose proof (zlen_nonneg (header_line kv)).
  rewrite wrap64_id by (unfold u64; rewrite two64_val; unfold kMaxHeaderBytes in *; lia).
  by rewrite (proj2 (Z.ltb_ge _ _)) by lia.
Qed.

Lemma parse_fields kvs : forall c rest,
  state_ c = kExpectHeaders -> Forall field_ok kvs -> (0 <= header_bytes_ c)%Z ->
  (header_bytes_ c + zlen (concat (map header_line kvs)) <= kMaxHeaderBytes)%Z ->
  parseRequest c (concat (map header_line kvs) ++ rest) = parseRequest (foldl after_field c kvs) rest.
Proof.
  induction kvs as [|kv kvs IH]; intros c rest Est Hok Hh0 Hmax; [done|].
  apply Forall_cons in Hok as [Hkv Hkvs]. cbn [map concat foldl] in *. rewrite zlen_app in Hmax.
  pose proof (zlen_nonneg (header_line kv)). pose proof (zlen_nonneg (concat (map header_line kvs))).
  rewrite <-app_assoc, parse_field by (done || lia).
  apply IH; [done|done|..]; unfold after_field; fields; lia.
Qed.

(** What a run of fields leaves in the request. *)
Lemma after_fields c kvs :
  foldl after_field c kvs =
  c <| request_ := foldl (fun r kv => addHeader kv.1 kv.2 r) (request_ c) kvs |>
    <| header_bytes_ := (header_bytes_ c + zlen (concat (map header_line kvs)))%Z |>.
Proof.
  revert c. induction kvs as [|kv kvs IH]; intros c; cbn [foldl map concat].
  - change (zlen []) with 0%Z. rewrite Z.add_0_r. by destruct c.
  - rewrite IH. unfold after_field. fields. rewrite zlen_app, Z.add_assoc. done.
Qed.

Lemma add_headers r kvs :
  foldl (fun r kv => addHeader kv.1 kv.2 r) r kvs =
  r <| headers_ := foldl (fun m kv => minsert (toLower kv.1) kv.2 m) (headers_ r) kvs |>.
Proof.
  revert r. induction kvs as [|kv kvs IH]; intros r; cbn [foldl]; [by destruct r|].
  rewrite IH. unfold addHeader. fields. done.
Qed.

(** ** The blank line and the body *)
Lemma parse_blank_line c rest :
  state_ c = kExpectHeaders ->
  parseRequest c (CRLF ++ rest) =
  match end_of_headers c (CRLF ++ rest) with
  | Continue c' s' => parseRequest c' s'
  | Stop c' s' => (negb (hasError c'), c', s')
  | Fail c' s' => (false, c', s')
  end.
Proof.
  intros Est. rewrite parseRequest_unfold. unfold parse_step. rewrite Est. unfold step_headers.
  fields. assert (findCrlf (CRLF ++ rest) = Some 0) as -> by done. done.
Qed.

(** The parser once a body of known length is complete. *)
Definition body_done (c : HttpContext) (body : bytes) : HttpContext :=
  c <| request_ := appendBody body (request_ c) |> <| body_received_ := content_length_ c |>
    <| state_ := kGotAll |>.

Lemma parse_body_all c body rest :
  state_ c = kExpectBody -> content_length_ c = zlen body -> body_received_ c = 0%Z ->
  body <> [] -> (zlen body < two64)%Z ->
  parseRequest c (body ++ rest) = (true, body_done c body, rest).
Proof.
  intros Est Hcl Hr0 Hne Hlt. rewrite parseRequest_unfold. unfold parse_step. rewrite Est.
  unfold step_body. fields. fold (zlen (body ++ rest)). pose proof (zlen_pos body Hne).
  pose proof (zlen_nonneg rest). rewrite Hcl, Hr0, Z.sub_0_r, Z.add_0_l, zlen_app.
  rewrite (wrap64_id (zlen body)) by (unfold u64; lia). rewrite Z.min_r by lia.
  rewrite (wrap64_id (zlen body)) by (unfold u64; lia).
  rewrite (proj2 (Z.ltb_lt 0 _)), Z.eqb_refl by lia.
  assert (Z.to_nat (zlen body) = length body) as -> by (unfold zlen; lia).
  rewrite take_app_exact, drop_app_exact by done. rewrite parseRequest_done by done.
  unfold body_done. fields. by rewrite Hcl.
Qed.

(** ** The whole request *)
Definition CL : bytes := bs "content-length".

Definition adds_host (r : HttpRequest) (host : bytes) : bool :=
  negb (bool_decide (host = [])) && negb (mhas (bs "host") (headers_ r)).

(** The header fields on the wire, in order. *)
Definition wire_fields (r : HttpRequest) (host : bytes) : list (bytes * bytes) :=
  (if adds_host r host then [(bs "Host", host)] else []) ++
  merase CL (headers_ r) ++ [(bs "Content-Length", to_string (zlen (body_ r)))].

Lemma concat_skip_cl m :
  concat (map (fun kv => if bool_decide (kv.1 = CL) then [] else header_line kv) m) =
  concat (map header_line (merase CL m)).
Proof.
  induction m as [|[k v] m IH]; [done|]. cbn [map concat merase fst]. rewrite IH.
  case_bool_decide as E; [by rewrite E, kcmp_refl|].
  destruct (kcmp CL k) eqn:Ek; [|done..]. apply kcmp_eq in Ek. congruence.
Qed.

Lemma request_head_eq r host :
  path_ r <> [] ->
  request_head r host =
  request_line (method_ r) (path_ r) (query_ r) ++ CRLF ++
  concat (map header_line (wire_fields r host)) ++ CRLF.
Proof.
  intros Hp. unfold request_head, request_line, wire_fields.
  change (bs "content-length") with CL. rewrite concat_skip_cl.
  fold (adds_host r host). rewrite !map_app, !concat_app.
  destruct (path_ r) as [|p0 p] eqn:Epath; [done|].
  assert (Hcl : bs "Content-Length: " ++ to_string (zlen (body_ r)) ++ CRLF ++ CRLF =
    header_line (bs "Content-Length", to_string (zlen (body_ r))) ++ CRLF).
  { unfold header_line; cbn [fst snd]. rewrite <-!app_assoc. done. }
  rewrite Hcl. destruct (adds_host r host); cbn [map concat];
    rewrite ?app_nil_r, <-!app_assoc; by destruct (query_ r).
Qed.

(** The request as the server sees it: [Host] and [Content-Length] filled in. *)
Definition received (r : HttpRequest) (host : bytes) : HttpRequest :=
  mkHttpRequest (method_ r) (path_ r) (query_ r) (bs "HTTP/1.1")
    (minsert CL (to_string (zlen (body_ r)))
       (if adds_host r host then minsert (bs "host") host (headers_ r) else headers_ r))
    (body_ r) [] false.

(** Requests the wire format can carry. *)
Record sendable (r : HttpRequest) (host : bytes) : Prop := {
  send_method : method_ r <> kInvalid;
  send_target : target_ok (path_ r) (query_ r);
  send_sorted : msorted (headers_ r);
  send_lower : Forall (fun kv => toLower kv.1 = kv.1) (headers_ r);
  send_fields : Forall field_ok (headers_ r);
  send_host : field_ok (bs "Host", host);
  send_identity : contains (bs "chunked") (toLower (header (bs "transfer-encoding") r)) = false;
  send_head : (zlen (request_head r host) <= kMaxHeaderBytes)%Z;
  send_body : (zlen (body_ r) < two64)%Z;
}.

Lemma digits_cr s : Forall (fun c => isdigit c = true) s -> (CR ∉ s) /\ skip_sp s = s.
Proof.
  intros Hs. split.
  - intros Hin. rewrite Forall_forall in Hs. by specialize (Hs _ Hin).
  - destruct Hs as [|x s Hx Hs]; [done|]. cbn [skip_sp].
    by rewrite bool_decide_eq_false_2 by (intros ->; done).
Qed.

Lemma to_string_field n : (0 <= n)%Z -> field_ok (bs "Content-Length", to_string n).
Proof.
  intros Hn. unfold to_string. rewrite (proj2 (Z.ltb_ge n 0)) by lia.
  destruct (digits_cr (dec n) (dec_digits n Hn)). unfold field_ok; cbn [fst snd].
  split_and!; try done; by vm_compute; repeat (apply not_elem_of_cons; split); try apply not_elem_of_nil.
Qed.

Lemma wire_fields_ok r host : sendable r host -> Forall field_ok (wire_fields r host).
Proof.
  intros Hs. unfold wire_fields. rewrite !Forall_app. split_and!.
  - destruct (adds_host r host); [|constructor]. constructor; [apply Hs|constructor].
  - apply merase_Forall, Hs.
  - constructor; [|constructor]. apply to_string_field, zlen_nonneg.
Qed.

(** Inserting a sorted run of lower-case fields into a map. *)
Lemma mlookup_fold_insert k l m :
  msorted l -> Forall (fun kv : bytes * bytes => toLower kv.1 = kv.1) l ->
  mlookup k (foldl (fun m kv => minsert (toLower kv.1) kv.2 m) m l) =
  match mlookup k l with Some v => Some v | None => mlookup k m end.
Proof.
  intros Hs. revert m. induction Hs as [|[k0 v0] l Hs IH Hf]; intros m Hl; [done|].
  apply Forall_cons in Hl as [Hk0 Hl]. cbn [foldl mlookup fst snd] in *. rewrite IH, Hk0 by done.
  destruct (kcmp k k0) eqn:E.
  - apply kcmp_eq in E as ->. rewrite (mlookup_lt_None k0 l) by exact Hf.
    by rewrite mlookup_insert_eq.
  - destruct (mlookup k l); [done|]. rewrite mlookup_insert_ne; [done|].
    intros ->. by rewrite kcmp_refl in E.
  - destruct (mlookup k l); [done|]. rewrite mlookup_insert_ne; [done|].
    intros ->. by rewrite kcmp_refl in E.
Qed.

Lemma msorted_fold_insert (l : stdmap bytes bytes) m :
  msorted m -> msorted (foldl (fun m kv => minsert (toLower kv.1) kv.2 m) m l).
Proof. revert m. induction l as [|kv l IH]; intros m Hm; [done|]. by apply IH, msorted_insert. Qed.

Lemma received_headers r host :
  sendable r host ->
  foldl (fun m kv => minsert (toLower kv.1) kv.2 m) [] (wire_fields r host) =
  headers_ (received r host).
Proof.
  intros Hs. unfold wire_fields. rewrite !foldl_app. unfold received; cbn [headers_ foldl fst snd].
  change (toLower (bs "Content-Length")) with CL.
  apply stdmap_eq.
  - apply msorted_insert, msorted_fold_insert, msorted_fold_insert. constructor.
  - apply msorted_insert. destruct (adds_host r host); [apply msorted_insert|]; apply Hs.
  - intros k. destruct (decide (k = CL)) as [->|Hk]; [by rewrite !mlookup_insert_eq|].
    rewrite !mlookup_insert_ne by done.
    rewrite mlookup_fold_insert, mlookup_erase_ne
      by (done || (apply msorted_erase, Hs) || (apply merase_Forall, Hs)).
    destruct (adds_host r host) eqn:Ea; cbn [foldl fst snd].
    + change (toLower (bs "Host")) with (bs "host").
      destruct (decide (k = bs "host")) as [->|Hh].
      * unfold adds_host, mhas in Ea. bool_prop.
        destruct (mlookup (bs "host") (headers_ r)); [done|]. by rewrite !mlookup_insert_eq.
      * rewrite !mlookup_insert_ne by done. by destruct (mlookup k (headers_ r)).
    + by destruct (mlookup k (headers_ r)).
Qed.

Lemma request_line_cr m path query :
  m <> kInvalid -> target_ok path query -> CR ∉ request_line m path query.
Proof.
  intros Hm (_ & _ & _ & Hp & _ & Hq). unfold request_line. rewrite !elem_of_app.
  intros [H|[H|[H|[H|H]]]]; try done.
  - by apply method_no_char in H.
  - by apply list_elem_of_singleton in H.
  - destruct query; [by apply elem_of_nil in H|]. apply elem_of_app in H as [H|H]; [|done].
    by apply list_elem_of_singleton in H.
  - repeat (apply elem_of_cons in H as [H|H]; [done|]). by apply elem_of_nil in H.
Qed.

(** The parser after the request line. *)
Lemma parse_request_line c m path query rest :
  m <> kInvalid -> target_ok path query -> (zlen (request_line m path query) < two64 - 2)%Z ->
  parseRequest (reset c) (request_line m path query ++ CRLF ++ rest) =
  parseRequest ((reset c) <| request_ := HttpRequest_new <| method_ := m |> <| path_ := path |>
                                         <| query_ := query |> |>
                        <| header_bytes_ := (zlen (request_line m path query) + 2)%Z |>
                        <| state_ := kExpectHeaders |>) rest.
Proof.
  intros Hm Ht Hlen. rewrite parseRequest_unfold. unfold parse_step, reset at 1. fields.
  unfold step_request_line. fields. rewrite findCrlf_line by (by apply request_line_cr).
  destruct (line_split (request_line m path query) rest) as [-> ->].
  change (HttpRequest.reset (request_ c)) with HttpRequest_new.
  rewrite parseRequestLine_ok by done. unfold reset. fields.
  pose proof (zlen_nonneg (request_line m path query)).
  rewrite wrap64_id by (unfold u64, zlen in *; lia).
  assert (0 + Z.of_nat (length (request_line m path query) + 2) =
          zlen (request_line m path query) + 2)%Z as -> by (unfold zlen; lia). done.
Qed.

(** End of headers with a known length, no chunking, and room for the body. *)
Lemma end_of_headers_length c (body rest : bytes) :
  contains (bs "chunked") (toLower (header (bs "transfer-encoding") (request_ c))) = false ->
  header (bs "content-length") (request_ c) = to_string (zlen body) ->
  (zlen body < two64)%Z -> (max_body_bytes_ c = 0 \/ zlen body <= max_body_bytes_ c)%Z ->
  end_of_headers c (CRLF ++ rest) =
  Continue (c <| content_length_ := zlen body |> <| body_received_ := 0%Z |>
              <| state_ := if (0 <? zlen body)%Z then kExpectBody else kGotAll |>) rest.
Proof.
  intros Hte Hcl Hlen Hmax. unfold end_of_headers. rewrite Hte, Hcl.
  assert (Hn : strtoul 10 (to_string (zlen body)) = zlen body).
  { apply strtoul_to_string. split; [apply zlen_nonneg|done]. }
  assert (Hne : to_string (zlen body) <> []).
  { unfold to_string. case_if; [done|apply dec_nonempty]. }
  destruct (to_string (zlen body)) as [|d ds]; [done|]. rewrite Hn.
  assert (Hck : (0 <? max_body_bytes_ c)%Z && (max_body_bytes_ c <? zlen body)%Z = false).
  { apply andb_false_iff. destruct Hmax; [left|right]; apply Z.ltb_ge; lia. }
  by rewrite Hck.
Qed.

(** The parser at the blank line after the fields of a request. *)
Definition at_blank (c : HttpContext) (r : HttpRequest) (host : bytes) : HttpContext :=
  (reset c) <| request_ := (received r host) <| body_ := [] |> |>
            <| header_bytes_ := (zlen (request_head r host) - 2)%Z |> <| state_ := kExpectHeaders |>.

Lemma parse_head c r host rest :
  sendable r host ->
  parseRequest (reset c) (request_head r host ++ rest) = parseRequest (at_blank c r host) (CRLF ++ rest).
Proof.
  intros Hs. pose proof (send_target _ _ Hs) as Ht. pose proof (send_head _ _ Hs) as Hh.
  unfold at_blank. rewrite request_head_eq in * by apply Ht. rewrite !zlen_app in *.
  change (zlen CRLF) with 2%Z in *. rewrite <-!app_assoc.
  set (line := request_line (method_ r) (path_ r) (query_ r)) in *.
  set (flds := concat (map header_line (wire_fields r host))) in *.
  pose proof (zlen_nonneg line). pose proof (zlen_nonneg flds).
  assert (kMaxHeaderBytes < two64 - 2)%Z by done.
  unfold line. rewrite parse_request_line by (apply Hs || done || (fold line; lia)). fold line.
  unfold flds. rewrite parse_fields; fold flds;
    [|done|by apply wire_fields_ok|fields; lia|fields; lia].
  rewrite after_fields. fields. rewrite add_headers. fields. rewrite received_headers by done.
  f_equal. unfold reset, received. fields. f_equal. fold flds. lia.
Qed.

Lemma at_blank_framing c r host :
  sendable r host ->
  contains (bs "chunked") (toLower (header (bs "transfer-encoding") (request_ (at_blank c r host)))) = false /\
  header (bs "content-length") (request_ (at_blank c r host)) = to_string (zlen (body_ r)).
Proof.
  intros Hs. unfold at_blank; fields. split.
  - etrans; [|exact (send_identity _ _ Hs)]. do 2 f_equal. unfold header; fields.
    change (toLower (bs "transfer-encoding")) with (bs "transfer-encoding").
    unfold received; fields. rewrite mlookup_insert_ne by done.
    destruct (adds_host r host); [|done]. by rewrite mlookup_insert_ne.
  - unfold header, received; fields. change (toLower (bs "content-length")) with CL.
    by rewrite mlookup_insert_eq.
Qed.

Lemma parse_request c r host rest :
  sendable r host -> (max_body_bytes_ c = 0 \/ zlen (body_ r) <= max_body_bytes_ c)%Z ->
  exists c', parseRequest (reset c) (request_head r host ++ body_ r ++ rest) = (true, c', rest) /\
    gotAll c' = true /\ request_ c' = received r host /\ max_body_bytes_ c' = max_body_bytes_ c.
Proof.
  intros Hs Hmax. rewrite parse_head by done. pose proof (at_blank_framing c r host Hs) as [Hte Hcl].
  assert (Est : state_ (at_blank c r host) = kExpectHeaders) by reflexivity.
  assert (Hreq : request_ (at_blank c r host) = (received r host) <| body_ := [] |>) by reflexivity.
  assert (Hm : max_body_bytes_ (at_blank c r host) = max_body_bytes_ c) by reflexivity.
  rewrite <-Hm in *. revert Est Hreq Hte Hcl Hmax. generalize (at_blank c r host) as cb.
  intros cb Est Hreq Hte Hcl Hmax. rewrite parse_blank_line by done.
  rewrite (end_of_headers_length _ (body_ r)) by (done || apply Hs).
  destruct (decide (body_ r = [])) as [Eb|Eb].
  - rewrite Eb. change (zlen []) with 0%Z. cbn [app]. rewrite parseRequest_done by done.
    eexists. split; [reflexivity|]. fields. split; [done|]. split; [|done].
    rewrite Hreq. unfold received. by rewrite Eb.
  - rewrite (proj2 (Z.ltb_lt 0 _)) by (by apply zlen_pos).
    rewrite parse_body_all; [|done..|apply Hs].
    eexists. split; [reflexivity|]. unfold body_done. fields. split; [done|]. split; [|done].
    rewrite Hreq. reflexivity.
Qed.

(** C1: client to server round trip: the bytes that [appendTo] writes for a
    sendable request are parsed by a fresh or reset parser into that request
    (method, path, query, headers completed with Host and Content-Length, body),
    consuming exactly those bytes: whatever follows is left for the next one. *)
Theorem request_roundtrip c r host n rest :
  sendable r host -> (max_body_bytes_ c = 0 \/ zlen (body_ r) <= max_body_bytes_ c)%Z ->
  let wire := Buffer.content (appendTo r host (Buffer.Buffer_new n)) in
  exists c', parseRequest (reset c) (wire ++ rest) = (true, c', rest) /\
    gotAll c' = true /\ request_ c' = received r host.
Proof.
  intros Hs Hmax wire. assert (Hw : wire = request_head r host ++ body_ r).
  { subst wire. destruct (appendTo_bytes r host (Buffer.Buffer_new n)) as [_ H]; [|exact H].
    exact (Buffer.new_wf n). }
  rewrite Hw, <-app_assoc. destruct (parse_request c r host rest Hs Hmax) as (c' & ? & ? & ? & _). eauto.
Qed.

Definition demo_request : HttpRequest :=
  addHeader (bs "X-Trace") (bs "7") (HttpRequest_new <| method_ := kPost |> <| path_ := bs "/echo" |>
    <| query_ := bs "a=1" |> <| body_ := bs "hello" |>).

Lemma demo_sendable : sendable demo_request (bs "h:80").
Proof.
  split; try done.
  - split_and!; try done; by apply (bool_decide_eq_true_1 (_ ∉ _)); vm_compute.
  - repeat constructor.
  - repeat constructor.
  - repeat constructor; by apply (bool_decide_eq_true_1 (_ ∉ _)); vm_compute.
  - split_and!; try done; by apply (bool_decide_eq_true_1 (_ ∉ _)); vm_compute.
Qed.

Lemma request_roundtrip_witness :
  let wire := Buffer.content (appendTo demo_request (bs "h:80") (Buffer.Buffer_new 16)) in
  exists c', parseRequest (reset HttpContext_new) (wire ++ bs "GET /next") = (true, c', bs "GET /next") /\
    gotAll c' = true /\ request_ c' = received demo_request (bs "h:80").
Proof.
  apply (request_roundtrip HttpContext_new demo_request (bs "h:80") 16 (bs "GET /next")).
  - exact demo_sendable.
  - by left.
Defined.

(** ** Chunked bodies *)

(** A size line (with its extensions, if any) and the data it announces. *)
Definition chunk_ok (lc : bytes * bytes) : Prop :=
  (CR ∉ lc.1) /\ strtoul 16 lc.1 = zlen lc.2 /\ lc.2 <> [].

Definition chunk_bytes (lc : bytes * bytes) : bytes := lc.1 ++ CRLF ++ lc.2 ++ CRLF.

Definition after_chunk (c : HttpContext) (lc : bytes * bytes) : HttpContext :=
  c <| request_ := appendBody lc.2 (request_ c) |> <| chunk_remaining_ := 0%Z |>
    <| body_received_ := (body_received_ c + zlen lc.2)%Z |>.

Definition within_cap (c : HttpContext) (n : Z) : Prop :=
  (max_body_bytes_ c = 0 \/ n <= max_body_bytes_ c)%Z.

Lemma parse_size_line c line rest :
  state_ c = kExpectChunkSize -> CR ∉ line ->
  parseRequest c (line ++ CRLF ++ rest) =
  parseRequest (c <| chunk_remaining_ := strtoul 16 line |>
    <| state_ := if (strtoul 16 line =? 0)%Z then kGotAll else kExpectChunkData |>) rest.
Proof.
  intros Est Hcr. rewrite parseRequest_unfold. unfold parse_step. rewrite Est.
  unfold step_chunk_size. fields. rewrite findCrlf_line by done.
  by destruct (line_split line rest) as [-> ->].
Qed.

Lemma parse_chunk_data c data rest :
  state_ c = kExpectChunkData -> chunk_remaining_ c = zlen data -> data <> [] ->
  (0 <= body_received_ c)%Z -> (body_received_ c + zlen data < two64)%Z ->
  within_cap c (body_received_ c + zlen data) ->
  parseRequest c (data ++ rest) =
  parseRequest (c <| request_ := appendBody data (request_ c) |> <| chunk_remaining_ := 0%Z |>
                  <| body_received_ := (body_received_ c + zlen data)%Z |>
                  <| state_ := kExpectChunkCrlf |>) rest.
Proof.
  intros Est Hrem Hne H0 Hlt Hcap. rewrite parseRequest_unfold. unfold parse_step. rewrite Est.
  unfold step_chunk_data. fields. fold (zlen (data ++ rest)). pose proof (zlen_pos data Hne).
  pose proof (zlen_nonneg rest). rewrite Hrem, zlen_app, Z.min_r by lia.
  rewrite (proj2 (Z.ltb_lt 0 _)) by lia.
  rewrite (wrap64_id (body_received_ c + _)) by (unfold u64; lia).
  rewrite Z.sub_diag, (wrap64_id 0) by done. rewrite Z.eqb_refl.
  assert (Hck : (0 <? max_body_bytes_ c)%Z &&
                (max_body_bytes_ c <? body_received_ c + zlen data)%Z = false).
  { apply andb_false_iff. destruct Hcap; [left|right]; apply Z.ltb_ge; lia. }
  rewrite Hck. assert (Z.to_nat (zlen data) = length data) as -> by (unfold zlen; lia).
  by rewrite take_app_exact, drop_app_exact by done.
Qed.

Lemma parse_chunk c lc rest :
  state_ c = kExpectChunkSize -> chunk_ok lc ->
  (0 <= body_received_ c)%Z -> (body_received_ c + zlen lc.2 < two64)%Z ->
  within_cap c (body_received_ c + zlen lc.2) ->
  parseRequest c (chunk_bytes lc ++ rest) = parseRequest (after_chunk c lc) rest.
Proof.
  intros Est (Hcr & Hsz & Hne) H0 Hlt Hcap. unfold chunk_bytes. rewrite <-!app_assoc.
  rewrite parse_size_line, Hsz by done. pose proof (zlen_pos _ Hne).
  rewrite (proj2 (Z.eqb_neq _ _)) by lia. rewrite parse_chunk_data by done.
  rewrite parseRequest_unfold. unfold parse_step. fields. unfold step_chunk_crlf. fields.
  unfold after_chunk. rewrite <-Est. done.
Qed.

Lemma parse_chunks lcs : forall c rest,
  state_ c = kExpectChunkSize -> Forall chunk_ok lcs -> (0 <= body_received_ c)%Z ->
  (body_received_ c + zlen (concat (map snd lcs)) < two64)%Z ->
  within_cap c (body_received_ c + zlen (concat (map snd lcs))) ->
  parseRequest c (concat (map chunk_bytes lcs) ++ rest) =
  parseRequest (foldl after_chunk c lcs) rest.
Proof.
  induction lcs as [|lc lcs IH]; intros c rest Est Hok H0 Hlt Hcap; [done|].
  apply Forall_cons in Hok as [Hlc Hlcs]. cbn [map concat foldl] in *.
  unfold within_cap in *. rewrite zlen_app in *. rewrite Z.add_assoc in *.
  pose proof (zlen_nonneg lc.2). pose proof (zlen_nonneg (concat (map snd lcs))).
  rewrite <-app_assoc, parse_chunk by (done || lia || (unfold within_cap; lia)).
  apply IH; [done|done|unfold within_cap, after_chunk; fields; lia..].
Qed.

Lemma after_chunks lcs : forall c,
  let c' := foldl after_chunk c lcs in
  state_ c' = state_ c /\ error_ c' = error_ c /\ max_body_bytes_ c' = max_body_bytes_ c /\
  request_ c' = appendBody (concat (map snd lcs)) (request_ c).
Proof.
  induction lcs as [|lc lcs IH]; intros c c'; subst c'; cbn [foldl map concat].
  - split_and!; try done. unfold appendBody. rewrite app_nil_r. by destruct (request_ c).
  - destruct (IH (after_chunk c lc)) as (-> & -> & -> & ->).
    by rewrite appendBody_app.
Qed.

(** Chunked decoding: from the end of the headers, any well-formed run of
    chunks (size lines with or without extensions) that fits the body limit,
    closed by a last-chunk line of size zero, is parsed to a complete request
    whose body is the concatenation of the chunks' data; parsing stops right
    after the last-chunk line. *)
Theorem chunked_body c lcs last rest :
  state_ c = kExpectChunkSize -> body_received_ c = 0%Z -> Forall chunk_ok lcs ->
  (zlen (concat (map snd lcs)) < two64)%Z -> within_cap c (zlen (concat (map snd lcs))) ->
  CR ∉ last -> strtoul 16 last = 0%Z ->
  exists c', parseRequest c (concat (map chunk_bytes lcs) ++ last ++ CRLF ++ rest) = (true, c', rest) /\
    gotAll c' = true /\
    request_ c' = appendBody (concat (map snd lcs)) (request_ c).
Proof.
  intros Est Hr0 Hok Hlt Hcap Hcr Hz.
  rewrite parse_chunks; [|done|done|rewrite Hr0; by rewrite ?Z.add_0_l..].
  destruct (after_chunks lcs c) as (Hs' & _ & _ & Hreq).
  rewrite parse_size_line by (congruence || done). rewrite Hz, Z.eqb_refl.
  rewrite parseRequest_done by done. eexists. split; [reflexivity|]. by fields.
Qed.

Lemma chunked_body_witness :
  let c := HttpContext_new <| state_ := kExpectChunkSize |> in
  exists c', parseRequest c (concat (map chunk_bytes [(bs "5;x=1", bs "hello"); (bs "1", bs "!")]) ++
                             bs "0" ++ CRLF ++ CRLF) = (true, c', CRLF) /\
    gotAll c' = true /\ request_ c' = appendBody (bs "hello!") (request_ c).
Proof.
  apply (chunked_body (HttpContext_new <| state_ := kExpectChunkSize |>)
           [(bs "5;x=1", bs "hello"); (bs "1", bs "!")] (bs "0") CRLF); try done.
  - repeat constructor; try done; by apply (bool_decide_eq_true_1 (_ ∉ _)); vm_compute.
  - by left.
  - by apply (bool_decide_eq_true_1 (_ ∉ _)); vm_compute.
Defined.

(** The bytes an HTTP/1.1 client sends after the last chunk are a blank line; a
    parser reset for the next request on the connection reads that blank line as
    a request line and refuses it, whatever follows. *)
Lemma blank_line_refused c rest :
  exists c', parseRequest (reset c) (CRLF ++ rest) = (false, c', CRLF ++ rest) /\ error_ c' = kNone.
Proof.
  eexists. rewrite parseRequest_unfold. unfold parse_step, reset at 1. fields.
  unfold step_request_line. fields.
  assert (findCrlf (CRLF ++ rest) = Some 0) as -> by done. by split.
Qed.
