(* ===== verification/ResponseParser.v ===== *)
(** * The client's response parser (http/response_parser.h, http/response_parser.cc)

    The state machine of [ResponseParser::parse], one definition per state, over
    any byte queue; [onEof] and [reset].  It is an incremental parser in the
    sense of [Incremental]: its laws and its invariant are proved here. *)

From S2P Require Import Prelude StdMap CStr Buffer Incremental Url HttpMessage.
Import HttpResponse.

Module ResponseParser.

Inductive State :=
| kExpectStatusLine | kExpectHeaders | kExpectBody | kExpectChunkSize | kExpectChunkData
| kExpectChunkCrlf | kExpectEofBody | kGotAll | kError.
#[export] Instance State_eq_dec : EqDecision State.
Proof. solve_decision. Defined.

Record ResponseParser := mkResponseParser {
  state_ : State;
  response_ : HttpResponse;
  lower_headers_ : stdmap bytes bytes;
  content_length_ : Z;
  body_received_ : Z;
  header_bytes_ : Z;
  chunk_remaining_ : Z;
  has_content_length_ : bool;
  body_accum_ : bytes;
}.
#[export] Instance ResponseParser_settable : Settable ResponseParser := fun p =>
  mkResponseParser (state_ p) (response_ p) (lower_headers_ p) (content_length_ p)
    (body_received_ p) (header_bytes_ p) (chunk_remaining_ p) (has_content_length_ p)
    (body_accum_ p).

Definition kMaxHeaderBytes : Z := 64 * 1024.

(** [reset] gives every field its initial value, so it is also the constructor. *)
Definition reset : ResponseParser :=
  mkResponseParser kExpectStatusLine (HttpResponse_new true) [] 0 0 0 0 false [].

Definition gotAll (p : ResponseParser) : bool := bool_decide (state_ p = kGotAll).
Definition hasError (p : ResponseParser) : bool := bool_decide (state_ p = kError).

(** [HTTP/1.1 <code> <reason>] *)
Definition parseStatusLine (line : bytes) (resp : HttpResponse) : bool * HttpResponse :=
  let sp1 := find_char SP line in
  if sp1 =? length line then (false, resp)
  else
    let version := take sp1 line in
    if negb (bool_decide (version = bs "HTTP/1.0")) && negb (bool_decide (version = bs "HTTP/1.1"))
    then (false, resp)
    else
      let rest := drop (S sp1) line in
      let sp2 := find_char SP rest in
      let code := atoi (take sp2 rest) in
      if (code <? 100)%Z || (599 <? code)%Z then (false, resp)
      else
        let reason := if sp2 =? length rest then [] else drop (S sp2) rest in
        (true, setStatus code reason resp).

(** [response_.setBody(std::move(body_accum_))]: the moved-from string is empty. *)
Definition deliver_body (p : ResponseParser) : ResponseParser :=
  p <| response_ := setBody (body_accum_ p) (response_ p) |> <| body_accum_ := [] |>
    <| state_ := kGotAll |>.

Section parser.
Context {B : Type} `{ByteQueue B}.
Open Scope cox_scope.

Definition step_status_line (p : ResponseParser) (buf : B) : outcome ResponseParser B :=
  match findCrlf (bq_bytes buf) with
  | None => Stop p buf
  | Some crlf =>
    let '(ok, resp) := parseStatusLine (take crlf (bq_bytes buf)) (response_ p) in
    let p1 := p <| response_ := resp |> in
    if ok then Continue (p1 <| state_ := kExpectHeaders |>) (bq_retrieve (crlf + 2) buf)
    else Fail (p1 <| state_ := kError |>) buf
  end.

(** The blank line: choose the body framing. *)
Definition end_of_headers (p : ResponseParser) (buf : B) : outcome ResponseParser B :=
  let chunked := match mlookup (bs "transfer-encoding") (lower_headers_ p) with
                 | Some te => contains (bs "chunked") te
                 | None => false
                 end in
  Continue (p <| state_ :=
      if chunked then kExpectChunkSize
      else if has_content_length_ p
           then if (0 <? content_length_ p)%Z then kExpectBody else kGotAll
           else kExpectEofBody |>) (bq_retrieve 2 buf).

(** What one header field leaves in the parser. *)
Definition store_header (key value : bytes) (p : ResponseParser) : ResponseParser :=
  let lkey := toLower key in
  let p1 := p <| response_ := addHeader key value (response_ p) |>
              <| lower_headers_ := minsert lkey value (lower_headers_ p) |> in
  if bool_decide (lkey = bs "content-length")
  then p1 <| has_content_length_ := true |> <| content_length_ := strtoul 10 value |>
  else p1.

(** A non-blank line of [n] bytes before its CRLF. *)
Definition header_field (n : nat) (p : ResponseParser) (buf : B) : outcome ResponseParser B :=
  let line := take n (bq_bytes buf) in
  let colon := find_char COLON line in
  if colon =? length line then Fail (p <| state_ := kError |>) buf
  else
    let p1 := store_header (take colon line) (skip_sp (drop (S colon) line)) p in
    let p2 := p1 <| header_bytes_ := header_bytes_ p +64 Z.of_nat (n + 2) |> in
    if (kMaxHeaderBytes <? header_bytes_ p2)%Z then Fail (p2 <| state_ := kError |>) buf
    else Continue p2 (bq_retrieve (n + 2) buf).

Definition step_headers (p : ResponseParser) (buf : B) : outcome ResponseParser B :=
  match findCrlf (bq_bytes buf) with
  | None => Stop p buf
  | Some 0 => end_of_headers p buf
  | Some n => header_field n p buf
  end.

Definition step_body (p : ResponseParser) (buf : B) : outcome ResponseParser B :=
  let take_ := Z.min (Z.of_nat (bq_size buf)) (content_length_ p -64 body_received_ p) in
  if (0 <? take_)%Z then
    let n := Z.to_nat take_ in
    let p1 := p <| body_accum_ := body_accum_ p ++ take n (bq_bytes buf) |>
                <| body_received_ := body_received_ p +64 take_ |> in
    Continue (if (body_received_ p1 =? content_length_ p)%Z then deliver_body p1 else p1)
             (bq_retrieve n buf)
  else Stop (if (body_received_ p =? content_length_ p)%Z then deliver_body p else p) buf.

Definition step_eof_body (p : ResponseParser) (buf : B) : outcome ResponseParser B :=
  if 0 <? bq_size buf
  then Continue (p <| body_accum_ := body_accum_ p ++ take (bq_size buf) (bq_bytes buf) |>)
                (bq_retrieve (bq_size buf) buf)
  else Stop p buf.

Definition step_chunk_size (p : ResponseParser) (buf : B) : outcome ResponseParser B :=
  match findCrlf (bq_bytes buf) with
  | None => Stop p buf
  | Some crlf =>
    let n := strtoul 16 (take crlf (bq_bytes buf)) in
    let p1 := p <| chunk_remaining_ := n |> in
    Continue (if (n =? 0)%Z then deliver_body p1 else p1 <| state_ := kExpectChunkData |>)
             (bq_retrieve (crlf + 2) buf)
  end.

Definition step_chunk_data (p : ResponseParser) (buf : B) : outcome ResponseParser B :=
  let take_ := Z.min (Z.of_nat (bq_size buf)) (chunk_remaining_ p) in
  let finish q := if (chunk_remaining_ q =? 0)%Z then q <| state_ := kExpectChunkCrlf |> else q in
  if (0 <? take_)%Z then
    let n := Z.to_nat take_ in
    Continue (finish (p <| body_accum_ := body_accum_ p ++ take n (bq_bytes buf) |>
                        <| chunk_remaining_ := chunk_remaining_ p -64 take_ |>))
             (bq_retrieve n buf)
  else Stop (finish p) buf.

Definition step_chunk_crlf (p : ResponseParser) (buf : B) : outcome ResponseParser B :=
  if 2 <=? bq_size buf
  then Continue (p <| state_ := kExpectChunkSize |>) (bq_retrieve 2 buf)
  else Stop p buf.

Definition parse_step (p : ResponseParser) (buf : B) : outcome ResponseParser B :=
  match state_ p with
  | kExpectStatusLine => step_status_line p buf
  | kExpectHeaders => step_headers p buf
  | kExpectBody => step_body p buf
  | kExpectEofBody => step_eof_body p buf
  | kExpectChunkSize => step_chunk_size p buf
  | kExpectChunkData => step_chunk_data p buf
  | kExpectChunkCrlf => step_chunk_crlf p buf
  | kGotAll | kError => Stop p buf
  end.

End parser.

#[export] Instance response_parser : IncParser ResponseParser := {|
  inc_step B _ := parse_step; inc_error := hasError;
  inc_reason_type := unit; inc_reason _ := tt;
|}.

(** [parse]: the [while (progress)] loop with fuel enough for every byte. *)
Definition parse {B} `{ByteQueue B} (p : ResponseParser) (buf : B) : bool * ResponseParser * B :=
  inc_run p buf.

(** The peer closed the connection. *)
Definition onEof (p : ResponseParser) : ResponseParser :=
  if bool_decide (state_ p = kExpectEofBody) then deliver_body p else p.

(** ** The laws of the loop *)
Section iteration.
Context {B : Type} `{ByteQueueLaws B}.

Lemma resp_step_consumes p (buf : B) : bq_wf buf -> consumes buf (parse_step p buf).
Proof.
  intros Hwf. pose proof (bq_size_bytes buf Hwf) as Hsz.
  assert (Hcr : forall n, findCrlf (bq_bytes buf) = Some n -> n + 2 <= bq_size buf).
  { intros n Hn. rewrite Hsz. by apply findCrlf_bound. }
  unfold parse_step. destruct (state_ p); auto with cox.
  - unfold step_status_line. destruct (findCrlf _) as [n|]; [|auto with cox].
    specialize (Hcr n eq_refl).
    destruct (parseStatusLine _ _) as [[] resp]; [apply consumes_continue; lia|auto with cox].
  - unfold step_headers. destruct (findCrlf _) as [[|n]|]; [| |auto with cox].
    + specialize (Hcr 0 eq_refl). apply consumes_continue; lia.
    + specialize (Hcr (S n) eq_refl). unfold header_field.
      case_if; [auto with cox|]. case_if; [auto with cox|]. apply consumes_continue. lia.
  - unfold step_body. case_if; [apply consumes_continue; lia|auto with cox].
  - unfold step_chunk_size. destruct (findCrlf _) as [n|]; [|auto with cox].
    specialize (Hcr n eq_refl). apply consumes_continue. lia.
  - unfold step_chunk_data. case_if; [apply consumes_continue; lia|auto with cox].
  - unfold step_chunk_crlf. case_if; [apply consumes_continue; lia|auto with cox].
  - unfold step_eof_body. case_if; [apply consumes_continue; lia|auto with cox].
Qed.

Lemma resp_step_refines p (buf : B) :
  bq_wf buf -> outcome_bytes (parse_step p buf) = parse_step p (bq_bytes buf).
Proof.
  intros Hwf. pose proof (bq_size_bytes buf Hwf) as Hsz.
  assert (Hcr : forall n, findCrlf (bq_bytes buf) = Some n -> n + 2 <= bq_size buf).
  { intros n Hn. rewrite Hsz. by apply findCrlf_bound. }
  assert (Hr : forall n, n <= bq_size buf -> bq_bytes (bq_retrieve n buf) = drop n (bq_bytes buf))
    by (intros; by apply bq_retrieve_bytes).
  unfold parse_step. destruct (state_ p); try done.
  - unfold step_status_line. simpl bq_bytes. destruct (findCrlf _) as [n|]; [|done].
    destruct (parseStatusLine _ _) as [[] resp]; simpl; [|done]. by rewrite Hr by auto.
  - unfold step_headers. simpl bq_bytes. destruct (findCrlf _) as [[|n]|]; [| |done].
    + specialize (Hcr 0 eq_refl). simpl. by rewrite Hr by lia.
    + specialize (Hcr (S n) eq_refl). unfold header_field. simpl bq_bytes.
      case_if; [done|]. case_if; [done|]. simpl outcome_bytes. by rewrite Hr by lia.
  - unfold step_body. rewrite Hsz. simpl bq_bytes. simpl bq_size. case_if; simpl; [|done].
    by rewrite Hr by lia.
  - unfold step_chunk_size. simpl bq_bytes. destruct (findCrlf _) as [n|]; [|done].
    simpl. by rewrite Hr by auto.
  - unfold step_chunk_data. rewrite Hsz. simpl bq_bytes. simpl bq_size.
    case_if; simpl; [|done]. by rewrite Hr by lia.
  - unfold step_chunk_crlf. rewrite Hsz. simpl bq_size. case_if; simpl; [|done].
    by rewrite Hr by lia.
  - unfold step_eof_body. rewrite Hsz. simpl bq_size. simpl bq_bytes.
    case_if; simpl; [|done]. by rewrite Hr by lia.
Qed.
End iteration.

Lemma resp_step_fail_state p (s : bytes) p' s' : parse_step p s = Fail p' s' -> hasError p' = true.
Proof.
  unfold parse_step. destruct (state_ p); try done.
  - unfold step_status_line. destruct (findCrlf _); [|done].
    destruct (parseStatusLine _ _) as [[] resp]; [done|]. by intros [= <- <-].
  - unfold step_headers. destruct (findCrlf _) as [[|n]|]; [done| |done].
    unfold header_field. repeat (case_if; try done). all: by intros [= <- <-].
  - unfold step_body. by case_if.
  - unfold step_chunk_size. by destruct (findCrlf _).
  - unfold step_chunk_data. by case_if.
  - unfold step_chunk_crlf. by case_if.
  - unfold step_eof_body. by case_if.
Qed.

#[export] Instance response_parser_laws : IncParserLaws ResponseParser.
Proof.
  split.
  - intros. by apply resp_step_consumes.
  - intros. by apply resp_step_refines.
  - intros p s p' s'. apply resp_step_fail_state.
  - intros p s E. unfold inc_step; simpl. unfold parse_step. simpl in E. unfold hasError in E.
    bool_prop. by rewrite E.
Qed.

Lemma parse_unfold p (s : bytes) :
  parse p s =
  match parse_step p s with
  | Continue p' s' => parse p' s'
  | Stop p' s' => (negb (hasError p'), p', s')
  | Fail p' s' => (false, p', s')
  end.
Proof. exact (inc_run_unfold p s). Qed.

Lemma parse_done p (s : bytes) : state_ p = kGotAll -> parse p s = (true, p, s).
Proof.
  intros E. rewrite parse_unfold. unfold parse_step. rewrite E. simpl. unfold hasError. by rewrite E.
Qed.

(** ** The invariant

    The counters agree with the accumulated body, and the bytes in memory (the
    body, the unread input [s] and [k] bytes still to come) number less than 2^64. *)
Definition resp_wf (k : Z) (p : ResponseParser) (s : bytes) : Prop :=
  (0 <= k)%Z /\ (zlen (body_accum_ p) + zlen s + k < two64)%Z /\ u64 (content_length_ p) /\
  match state_ p with
  | kExpectStatusLine | kExpectHeaders => body_accum_ p = [] /\ body_received_ p = 0%Z
  | kExpectBody => body_received_ p = zlen (body_accum_ p) /\ (body_received_ p < content_length_ p)%Z
  | kExpectChunkData => (0 < chunk_remaining_ p < two64)%Z
  | _ => True
  end.

Definition outcome_wf (k : Z) (o : outcome ResponseParser bytes) : Prop :=
  match o with Continue p s | Stop p s | Fail p s => resp_wf k p s end.

Ltac fields := cbn [set_field state_ response_ lower_headers_ content_length_ body_received_
  header_bytes_ chunk_remaining_ has_content_length_ body_accum_ deliver_body
  bytes_queue bq_bytes bq_size bq_retrieve ResponseParser_settable] in *.
Ltac wf_goal := unfold outcome_wf, resp_wf; fields; split_and!; try done; try lia.

Lemma zlen_appended n (s b : bytes) :
  n <= length s ->
  (zlen (b ++ take n s) = zlen b + Z.of_nat n /\ zlen (drop n s) = zlen s - Z.of_nat n)%Z.
Proof.
  intros Hn. rewrite zlen_app, zlen_take by done.
  pose proof (take_split n s Hn) as H. rewrite zlen_take in H by done. lia.
Qed.

Lemma wf_store_header k v p :
  u64 (content_length_ p) ->
  let p' := store_header k v p in
  u64 (content_length_ p') /\ body_accum_ p' = body_accum_ p /\
  body_received_ p' = body_received_ p /\ state_ p' = state_ p.
Proof.
  intros Hu. unfold store_header. case_if; fields; [|done].
  split_and!; try done; by apply strtoul_u64.
Qed.

Lemma wf_step_headers k p s :
  resp_wf k p s -> state_ p = kExpectHeaders -> outcome_wf k (step_headers p s).
Proof.
  intros (Hk & Hmem & Hcl & Hst) Est. rewrite Est in Hst. destruct Hst as [Hb Hr].
  unfold step_headers. fields.
  destruct (findCrlf s) as [[|n]|]; [| |by wf_goal; rewrite ?Est].
  - unfold end_of_headers. pose proof (zlen_drop_le 2 s). unfold outcome_wf, resp_wf; fields.
    split; [done|]. split; [lia|]. split; [done|].
    case_if; [done|]. case_if; [|done]. case_if; [|done]. bool_prop. rewrite Hb, Hr. done.
  - unfold header_field. fields. set (line := take (S n) s).
    case_if; [by wf_goal; apply Hcl|].
    destruct (wf_store_header (take (find_char COLON line) line)
      (skip_sp (drop (S (find_char COLON line)) line)) p Hcl) as (Hu' & Hb' & Hr' & Hs').
    pose proof (zlen_drop_le (S n + 2) s).
    case_if; unfold outcome_wf, resp_wf; fields; rewrite ?Hs', ?Est, Hb', ?Hr';
      split_and!; try done; try lia; apply Hu'.
Qed.

Lemma wf_step_body k p s :
  resp_wf k p s -> state_ p = kExpectBody -> outcome_wf k (step_body p s).
Proof.
  intros (Hk & Hmem & Hcl & Hst) Est. rewrite Est in Hst. destruct Hst as [Hr Hlt].
  unfold step_body. fields. pose proof (zlen_nonneg (body_accum_ p)). pose proof (zlen_nonneg s).
  unfold u64 in Hcl. rewrite (wrap64_id (content_length_ p - body_received_ p)) by (unfold u64; lia).
  fold (zlen s). case_if.
  - set (t := Z.min _ _) in *. destruct (zlen_appended (Z.to_nat t) s (body_accum_ p)) as [Ha Hd];
      [unfold t, zlen; lia|]. rewrite Z2Nat.id in Ha, Hd by lia.
    rewrite wrap64_id by (unfold u64; lia). case_if.
    + change (zlen []) with 0%Z. wf_goal. change (zlen []) with 0%Z. lia.
    + unfold outcome_wf, resp_wf; fields. rewrite Est, Ha, Hd. unfold u64. split_and!; lia.
  - case_if; [lia|]. unfold outcome_wf, resp_wf, u64. rewrite Est. split_and!; done || lia.
Qed.

Lemma wf_step_chunk_data k p s :
  resp_wf k p s -> state_ p = kExpectChunkData -> outcome_wf k (step_chunk_data p s).
Proof.
  intros (Hk & Hmem & Hcl & Hst) Est. rewrite Est in Hst.
  unfold step_chunk_data. fields. pose proof (zlen_nonneg (body_accum_ p)). pose proof (zlen_nonneg s).
  fold (zlen s). case_if.
  - set (t := Z.min _ _) in *. destruct (zlen_appended (Z.to_nat t) s (body_accum_ p)) as [Ha Hd];
      [unfold t, zlen; lia|]. rewrite Z2Nat.id in Ha, Hd by lia.
    rewrite wrap64_id by (unfold u64; lia).
    case_if; unfold outcome_wf, resp_wf; fields; rewrite ?Est, Ha, Hd; split_and!; done || lia.
  - case_if; [lia|]. unfold outcome_wf, resp_wf. rewrite Est. split_and!; done || lia.
Qed.

Lemma resp_step_wf k p s : resp_wf k p s -> outcome_wf k (parse_step p s).
Proof.
  intros Hwf. pose proof Hwf as (Hk & Hmem & Hcl & Hst).
  unfold parse_step. destruct (state_ p) eqn:Est; try exact Hwf.
  - unfold step_status_line. fields. destruct (findCrlf s) as [n|]; [|exact Hwf].
    pose proof (zlen_drop_le (n + 2) s).
    destruct (parseStatusLine _ _) as [[] resp]; wf_goal; apply Hcl || apply Hst.
  - by apply wf_step_headers.
  - by apply wf_step_body.
  - unfold step_chunk_size. fields. destruct (findCrlf s) as [n|]; [|exact Hwf].
    pose proof (zlen_drop_le (n + 2) s). pose proof (zlen_nonneg (body_accum_ p)).
    pose proof (strtoul_u64 16 (take n s) ltac:(lia)) as [Hn0 Hn1].
    case_if; unfold outcome_wf, resp_wf; fields; change (zlen []) with 0%Z;
      split_and!; done || lia || apply Hcl.
  - by apply wf_step_chunk_data.
  - unfold step_chunk_crlf. fields. pose proof (zlen_drop_le 2 s).
    case_if; [|exact Hwf]. wf_goal; apply Hcl.
  - unfold step_eof_body. fields. case_if; [|exact Hwf].
    destruct (zlen_appended (length s) s (body_accum_ p)) as [Ha Hd]; [done|].
    unfold outcome_wf, resp_wf; fields. rewrite Ha, Hd, Est. unfold zlen in *. split_and!; try done; try lia; apply Hcl.
Qed.

(** ** More input behind the input *)
Lemma stable_lines p s t :
  state_ p = kExpectStatusLine \/ state_ p = kExpectHeaders \/ state_ p = kExpectChunkSize ->
  step_stable p s t.
Proof.
  intros Est. unfold step_stable, inc_step, inc_error; simpl. unfold parse_step.
  destruct Est as [-> |[-> | ->]]; unfold step_status_line, step_headers, step_chunk_size; fields;
    (destruct (findCrlf s) as [n|] eqn:E; [|done]);
    rewrite (findCrlf_app s t n E); apply findCrlf_bound in E.
  - rewrite (take_app_short _ _ n), ?drop_app_le by lia.
    destruct (parseStatusLine _ _) as [[] resp]; [by left|done].
  - destruct n as [|n]; [left; unfold end_of_headers; fields; by rewrite drop_app_le by lia|].
    unfold header_field. fields. rewrite (take_app_short _ _ (S n)), drop_app_le by lia.
    case_if; [done|]. case_if; [done|by left].
  - left. by rewrite (take_app_short _ _ n), drop_app_le by lia.
Qed.

Lemma stable_resp_chunk_crlf p s t : state_ p = kExpectChunkCrlf -> step_stable p s t.
Proof.
  intros Est. unfold step_stable, inc_step, inc_error; simpl. unfold parse_step. rewrite Est.
  unfold step_chunk_crlf. fields. case_if; [|done].
  rewrite (proj2 (Nat.leb_le _ _)) by (rewrite length_app; lia).
  rewrite drop_app_le by lia. by left.
Qed.

Lemma stable_eof_body p s t : state_ p = kExpectEofBody -> step_stable p s t.
Proof.
  intros Est. unfold step_stable, inc_step, inc_error; simpl. unfold parse_step. rewrite Est.
  unfold step_eof_body. fields. case_if; [|done]. right. fields.
  rewrite !take_ge, !drop_ge by done. unfold hasError. fields. rewrite Est.
  split_and!; try done. intros Ht. left.
  rewrite (proj2 (Nat.ltb_lt _ _)) by (rewrite length_app; lia).
  rewrite (proj2 (Nat.ltb_lt 0 (length t))) by (destruct t; [done|simpl; lia]).
  by rewrite app_assoc.
Qed.

Lemma stable_resp_body p s t :
  resp_wf (zlen t) p s -> state_ p = kExpectBody -> step_stable p s t.
Proof.
  intros (Hk & Hmem & Hcl & Hst) Est. rewrite Est in Hst. destruct Hst as [Hr Hlt]. unfold u64 in Hcl.
  unfold step_stable, inc_step, inc_error; simpl. unfold parse_step. rewrite Est. unfold step_body.
  fields. pose proof (zlen_nonneg (body_accum_ p)). pose proof (zlen_nonneg s).
  rewrite !(wrap64_id (content_length_ p - body_received_ p)) by (unfold u64; lia).
  fold (zlen s) (zlen (s ++ t)). rewrite zlen_app.
  set (need := (content_length_ p - body_received_ p)%Z) in *.
  case_if; [|case_if; [lia|done]]. destruct (decide (need <= zlen s)%Z) as [Hfull|Hpart].
  { left. rewrite !Z.min_r by lia. rewrite (proj2 (Z.ltb_lt 0 need)) by lia.
    rewrite take_app_short, drop_app_le by (unfold zlen in *; lia). done. }
  right. rewrite (Z.min_l (zlen s)) by lia. destruct (take_all s) as [-> ->].
  rewrite (wrap64_id (body_received_ p + zlen s)) by (unfold u64; lia).
  rewrite (proj2 (Z.eqb_neq (body_received_ p + zlen s) _)) by lia. unfold hasError. fields. rewrite Est.
  rewrite !(wrap64_id (content_length_ p - (body_received_ p + zlen s))) by (unfold u64; lia).
  split_and!; [done| |done|].
  { change (Z.of_nat (length [])) with 0%Z. rewrite Z.min_l by lia. simpl.
    rewrite (proj2 (Z.eqb_neq (body_received_ p + zlen s) _)) by lia. done. }
  intros Ht%zlen_pos. fold (zlen t). left. set (n := Z.min (zlen s + zlen t) need).
  replace (Z.min (zlen t) _) with (n - zlen s)%Z by lia.
  rewrite !(proj2 (Z.ltb_lt 0 _)) by lia.
  destruct (take_beyond s t n) as [-> ->]; [lia|]. rewrite app_assoc.
  replace (body_received_ p + zlen s + (n - zlen s))%Z with (body_received_ p + n)%Z by lia.
  reflexivity.
Qed.

Lemma stable_resp_chunk_data p s t :
  resp_wf (zlen t) p s -> state_ p = kExpectChunkData -> step_stable p s t.
Proof.
  intros (Hk & Hmem & Hcl & Hst) Est. rewrite Est in Hst.
  unfold step_stable, inc_step, inc_error; simpl. unfold parse_step. rewrite Est.
  unfold step_chunk_data. fields. pose proof (zlen_nonneg (body_accum_ p)). pose proof (zlen_nonneg s).
  fold (zlen s) (zlen (s ++ t)). rewrite zlen_app. set (need := chunk_remaining_ p) in *.
  case_if; [|case_if; [lia|done]]. destruct (decide (need <= zlen s)%Z) as [Hfull|Hpart].
  { left. rewrite !Z.min_r by lia. rewrite (proj2 (Z.ltb_lt 0 need)) by lia.
    rewrite take_app_short, drop_app_le by (unfold zlen in *; lia). done. }
  right. rewrite (Z.min_l (zlen s)) by lia. destruct (take_all s) as [-> ->].
  rewrite !(wrap64_id (need - zlen s)) by (unfold u64; lia).
  rewrite (proj2 (Z.eqb_neq (need - zlen s) 0)) by lia. unfold hasError. fields. rewrite Est.
  split_and!; [done| |done|].
  { change (Z.of_nat (length [])) with 0%Z. rewrite Z.min_l by lia. simpl.
    by rewrite (proj2 (Z.eqb_neq (need - zlen s) 0)) by lia. }
  intros Ht%zlen_pos. fold (zlen t). left. set (n := Z.min (zlen s + zlen t) need).
  replace (Z.min (zlen t) _) with (n - zlen s)%Z by lia.
  rewrite !(proj2 (Z.ltb_lt 0 _)) by lia.
  destruct (take_beyond s t n) as [-> ->]; [lia|]. rewrite app_assoc.
  replace (need - zlen s - (n - zlen s))%Z with (need - n)%Z by lia. reflexivity.
Qed.

Lemma resp_step_stable p s t : resp_wf (zlen t) p s -> step_stable p s t.
Proof.
  intros Hwf. destruct (state_ p) eqn:Est;
    try (unfold step_stable, inc_step; simpl; unfold parse_step; by rewrite Est).
  all: try by apply stable_lines; auto.
  - by apply stable_resp_body.
  - by apply stable_resp_chunk_data.
  - by apply stable_resp_chunk_crlf.
  - by apply stable_eof_body.
Qed.

Lemma resp_step_idle k p : resp_wf k p [] -> parse_step p [] = Stop p [].
Proof.
  intros (Hk & Hmem & Hcl & Hst). unfold parse_step. destruct (state_ p) eqn:Est; try done.
  - destruct Hst as [Hr Hlt]. unfold step_body. fields. pose proof (zlen_nonneg (body_accum_ p)).
    rewrite (wrap64_id (content_length_ p - body_received_ p)) by (unfold u64 in *; lia).
    rewrite Z.min_l by (simpl; lia). simpl.
    by rewrite (proj2 (Z.eqb_neq (body_received_ p) _)) by lia.
  - unfold step_chunk_data. fields. rewrite Z.min_l by (simpl; lia). simpl.
    by rewrite (proj2 (Z.eqb_neq (chunk_remaining_ p) 0)) by lia.
Qed.

Lemma resp_wf_app k p s t : resp_wf k p (s ++ t) <-> (0 <= k)%Z /\ resp_wf (zlen t + k) p s.
Proof.
  unfold resp_wf. rewrite zlen_app. pose proof (zlen_nonneg t).
  split; [intros (? & ? & ? & ?)|intros (? & ? & ? & ? & ?)]; split_and?; done || lia.
Qed.

Lemma resp_wf_weaken k k' p s : resp_wf k p s -> (0 <= k' <= k)%Z -> resp_wf k' p s.
Proof. intros (? & ? & ? & ?) ?. unfold resp_wf. split_and?; done || lia. Qed.

#[export] Instance response_fragmentable : Fragmentable ResponseParser := {|
  inc_wf := resp_wf; inc_wf_step := resp_step_wf; inc_wf_app := resp_wf_app;
  inc_wf_weaken := resp_wf_weaken; inc_stable := resp_step_stable; inc_idle := resp_step_idle;
|}.

(** The response parser terminates on every input (one iteration more than
    there are buffered bytes is enough), computes on a [buffer::Buffer] what it
    computes on the bytes in it, and leaves a well-formed buffer with exactly
    the bytes it did not consume. *)
Theorem parse_total_refines p (buf : Buffer.Buffer) fuel :
  Buffer.buffer_wf buf -> Buffer.readableBytes buf < fuel ->
  inc_loop fuel p buf = Some (parse p buf) /\
  Buffer.buffer_wf (parse p buf).2 /\
  parse p (Buffer.content buf) = ((parse p buf).1, Buffer.content (parse p buf).2).
Proof.
  intros Hwf Hf. split; [by apply inc_loop_result|]. exact (inc_run_bytes p buf Hwf).
Qed.

Lemma parse_total_refines_witness :
  let buf := Buffer.append (bs "HTTP/1.1 200 OK") (Buffer.Buffer_new 4) in
  parse reset (Buffer.content buf) = ((parse reset buf).1, Buffer.content (parse reset buf).2).
Proof.
  apply (parse_total_refines reset (Buffer.append (bs "HTTP/1.1 200 OK") (Buffer.Buffer_new 4)) 16).
  - apply Buffer.append_spec, Buffer.new_wf.
  - by vm_compute; lia.
Defined.

(** How the network cuts a response does not matter: after [reset], feeding
    the fragments one by one leaves the parser and the unread bytes as parsing
    their concatenation does, or both reject the response. *)
Theorem response_any_fragmentation frags :
  (zlen (concat frags) < two64)%Z ->
  cfg_equiv (feed (reset, []) frags) (feed1 (reset, []) (concat frags)).
Proof.
  intros Hlen. apply feed_any_fragmentation. pose proof (zlen_nonneg (concat frags)).
  unfold inc_wf; simpl. unfold resp_wf; simpl. change (zlen []) with 0%Z. split_and!; done || lia.
Qed.

Lemma response_any_fragmentation_witness :
  let frags := [bs "HTTP/1.1 20"; bs "0 OK" ++ [CR]; [LF] ++ bs "Content-Length: 2" ++ CRLF; CRLF ++ bs "hi"] in
  cfg_equiv (feed (reset, []) frags) (feed1 (reset, []) (concat frags)).
Proof.
  apply (response_any_fragmentation
    [bs "HTTP/1.1 20"; bs "0 OK" ++ [CR]; [LF] ++ bs "Content-Length: 2" ++ CRLF; CRLF ++ bs "hi"]).
  by vm_compute.
Defined.

End ResponseParser.
