(* ===== verification/ResponseRoundtrip.v ===== *)
(** * What the server writes is what the client reads

    [HttpResponse::appendTo] (the server) against [ResponseParser::parse] (the
    client), and bodies delimited by the end of the connection. *)

From S2P Require Import Prelude StdMap CStr Buffer Incremental Url HttpMessage HttpRoundtrip.
From S2P Require Import ResponseParser.
Import HttpResponse ResponseParser.

Module ResponseRoundtrip.

Definition header_line : bytes * bytes -> bytes := HttpRequest.header_line.
Definition CL : bytes := bs "Content-Length".
Definition CONN : bytes := bs "Connection".
Definition TE : bytes := bs "transfer-encoding".

Definition status_line (code : Z) (reason : bytes) : bytes :=
  bs "HTTP/1.1 " ++ to_string code ++ bs " " ++ reason.

Definition connection_value (r : HttpResponse) : bytes :=
  if keep_alive_ r then bs "keep-alive" else bs "close".

(** The header fields on the wire, in order. *)
Definition wire_fields (r : HttpResponse) : list (bytes * bytes) :=
  [(CL, to_string (zlen (body_ r))); (CONN, connection_value r)] ++
  drop_keys managed_header (headers_ r).

(** A response the application may send: a status the client accepts, a reason
    and fields without CR or LF-breaking content, no second spelling of
    Content-Length, no chunked coding. *)
Record sendable (r : HttpResponse) : Prop := {
  send_code : (100 <= status_code_ r <= 599)%Z;
  send_reason : (CR ∉ status_reason_ r) /\ status_reason_ r <> [];
  send_sorted : msorted (headers_ r);
  send_fields : Forall field_ok (headers_ r);
  send_framing : Forall (fun kv => managed_header kv.1 = false ->
    toLower kv.1 <> bs "content-length" /\
    (toLower kv.1 = TE -> contains (bs "chunked") kv.2 = false)) (headers_ r);
  send_head : (zlen (concat (map header_line (wire_fields r))) <= kMaxHeaderBytes)%Z;
  send_body : (zlen (body_ r) < two64)%Z;
}.

(** The response as the client sees it ([keep_alive_] is not a parsed field). *)
Definition client_view (r : HttpResponse) : HttpResponse :=
  mkHttpResponse (status_code_ r) (status_reason_ r)
    (minsert CL (to_string (zlen (body_ r))) (minsert CONN (connection_value r) (headers_ r)))
    (body_ r) true.

(** ** The head on the wire *)
Lemma concat_skip_managed m :
  concat (map (fun kv => if managed_header kv.1 then [] else header_line kv) m) =
  concat (map header_line (drop_keys managed_header m)).
Proof.
  unfold drop_keys. induction m as [|kv m IH]; [done|]. cbn [map concat]. rewrite IH.
  destruct (managed_header kv.1) eqn:E.
  - by rewrite filter_cons_False by congruence.
  - by rewrite filter_cons_True.
Qed.

Lemma response_head_eq r :
  response_head r =
  status_line (status_code_ r) (status_reason_ r) ++ CRLF ++
  concat (map header_line (wire_fields r)) ++ CRLF.
Proof.
  unfold response_head, status_line, wire_fields, connection_value.
  rewrite map_app, concat_app, <-concat_skip_managed.
  cbn [map concat]. unfold header_line, HttpRequest.header_line, CL, CONN; cbn [fst snd].
  rewrite app_nil_r, <-!app_assoc. done.
Qed.

(** ** The status line *)
Lemma to_string_chars n c : (0 <= n)%Z -> isdigit c = false -> c ∉ to_string n.
Proof.
  intros Hn Hc Hin. unfold to_string in Hin. rewrite (proj2 (Z.ltb_ge n 0)) in Hin by lia.
  pose proof (dec_digits n Hn) as Hd. rewrite Forall_forall in Hd. specialize (Hd _ Hin). congruence.
Qed.

Lemma parseStatusLine_ok code reason resp :
  (100 <= code <= 599)%Z -> reason <> [] ->
  parseStatusLine (status_line code reason) resp =
  (true, resp <| status_code_ := code |> <| status_reason_ := reason |>).
Proof.
  intros Hc Hr. unfold parseStatusLine, status_line.
  change (bs "HTTP/1.1 " ++ to_string code ++ bs " " ++ reason)
    with (bs "HTTP/1.1" ++ SP :: (to_string code ++ SP :: reason)).
  rewrite find_char_app by (by apply (bool_decide_eq_true_1 (_ ∉ _)); vm_compute).
  rewrite (proj2 (Nat.eqb_neq _ _)) by (rewrite length_app; simpl; lia).
  rewrite take_app_exact by done.
  rewrite (cons_middle SP), app_assoc, drop_app_exact by done.
  change (negb (bool_decide (bs "HTTP/1.1" = bs "HTTP/1.0")) &&
          negb (bool_decide (bs "HTTP/1.1" = bs "HTTP/1.1"))) with false. cbn iota.
  rewrite find_char_app by (apply to_string_chars; [lia|done]).
  rewrite take_app_exact, atoi_to_string by (done || lia).
  rewrite (proj2 (Z.ltb_ge code 100)), (proj2 (Z.ltb_ge 599 code)) by lia. cbn [orb].
  rewrite (proj2 (Nat.eqb_neq _ _)) by (rewrite length_app; simpl; lia).
  rewrite (cons_middle SP), app_assoc, drop_app_exact by (rewrite length_app; simpl; lia).
  unfold setStatus. by destruct reason.
Qed.

Lemma status_line_cr code reason : (0 <= code)%Z -> CR ∉ reason -> CR ∉ status_line code reason.
Proof.
  intros Hc Hr. unfold status_line. rewrite !elem_of_app. intros [H|[H|[H|H]]]; try done.
  - revert H. by apply (bool_decide_eq_true_1 (_ ∉ _)); vm_compute.
  - by apply to_string_chars in H.
  - by apply list_elem_of_singleton in H.
Qed.

(** ** Header fields *)
Definition after_field (p : ResponseParser) (kv : bytes * bytes) : ResponseParser :=
  (store_header kv.1 kv.2 p) <| header_bytes_ := (header_bytes_ p + zlen (header_line kv))%Z |>.

Lemma store_header_state k v p : state_ (store_header k v p) = state_ p.
Proof. unfold store_header. by case_if. Qed.

Lemma parse_resp_field p kv rest :
  state_ p = kExpectHeaders -> field_ok kv -> (0 <= header_bytes_ p)%Z ->
  (header_bytes_ p + zlen (header_line kv) <= kMaxHeaderBytes)%Z ->
  parse p (header_line kv ++ rest) = parse (after_field p kv) rest.
Proof.
  intros Est Hok Hh0 Hmax. rewrite parse_unfold. unfold parse_step. rewrite Est.
  unfold step_headers. fields. unfold header_line in *. rewrite header_line_eq, <-app_assoc.
  rewrite findCrlf_line by (by apply field_line_cr).
  assert (Hpos : exists n, length (field_line kv) = S n).
  { unfold field_line. rewrite length_app. simpl. eexists. rewrite Nat.add_succ_r. done. }
  destruct Hpos as [n Hn]. rewrite Hn. rewrite <-Hn. unfold header_field. fields.
  destruct (line_split (field_line kv) rest) as [-> ->].
  destruct (field_line_parts kv Hok) as (-> & Hne & -> & ->).
  rewrite (proj2 (Nat.eqb_neq _ _) Hne).
  assert (Hlen : Z.of_nat (length (field_line kv) + 2) = zlen (HttpRequest.header_line kv)).
  { unfold zlen. rewrite header_line_eq, length_app. done. }
  rewrite Hlen. pose proof (zlen_nonneg (HttpRequest.header_line kv)).
  rewrite wrap64_id by (unfold u64; rewrite two64_val; unfold kMaxHeaderBytes in *; lia).
  by rewrite (proj2 (Z.ltb_ge _ _)) by lia.
Qed.

Lemma parse_resp_fields kvs : forall p rest,
  state_ p = kExpectHeaders -> Forall field_ok kvs -> (0 <= header_bytes_ p)%Z ->
  (header_bytes_ p + zlen (concat (map header_line kvs)) <= kMaxHeaderBytes)%Z ->
  parse p (concat (map header_line kvs) ++ rest) = parse (foldl after_field p kvs) rest.
Proof.
  induction kvs as [|kv kvs IH]; intros p rest Est Hok Hh0 Hmax; [done|].
  apply Forall_cons in Hok as [Hkv Hkvs]. cbn [map concat foldl] in *. rewrite zlen_app in Hmax.
  pose proof (zlen_nonneg (header_line kv)). pose proof (zlen_nonneg (concat (map header_line kvs))).
  rewrite <-app_assoc, parse_resp_field by (done || lia).
  apply IH; [by unfold after_field; fields; rewrite store_header_state|done|..];
    unfold after_field; fields; lia.
Qed.

(** The parser's framing fields while header fields that do not frame go by. *)
Definition framing (p : ResponseParser) (n : Z) : Prop :=
  state_ p = kExpectHeaders /\ has_content_length_ p = true /\ content_length_ p = n /\
  body_received_ p = 0%Z /\ body_accum_ p = [] /\
  (forall te, mlookup TE (lower_headers_ p) = Some te -> contains (bs "chunked") te = false).

Definition neutral (kv : bytes * bytes) : Prop :=
  toLower kv.1 <> bs "content-length" /\ (toLower kv.1 = TE -> contains (bs "chunked") kv.2 = false).

Lemma framing_field p n kv : framing p n -> neutral kv -> framing (after_field p kv) n.
Proof.
  intros (? & ? & ? & ? & ? & Hte) (Hcl & Hne). unfold framing, after_field, store_header.
  rewrite bool_decide_eq_false_2 by done. fields. split_and!; try done. intros te.
  destruct (decide (toLower kv.1 = TE)) as [E|E].
  - rewrite <-E, mlookup_insert_eq. intros [= <-]. by apply Hne.
  - rewrite mlookup_insert_ne by done. apply Hte.
Qed.

Lemma framing_fields kvs p n : framing p n -> Forall neutral kvs -> framing (foldl after_field p kvs) n.
Proof.
  intros Hf Hn. revert p Hf. induction Hn as [|kv kvs Hkv Hn IH]; intros p Hf; [done|].
  apply IH. by apply framing_field.
Qed.

(** What a run of fields leaves in the response. *)
Lemma response_fields kvs p :
  response_ (foldl after_field p kvs) =
  (response_ p) <| headers_ := minserts kvs (headers_ (response_ p)) |>.
Proof.
  revert p. induction kvs as [|kv kvs IH]; intros p; cbn [foldl]; [by destruct (response_ p)|].
  rewrite IH. unfold after_field, store_header. case_if; reflexivity.
Qed.

Lemma managed_spec k : managed_header k = true <-> k = CL \/ k = CONN.
Proof. unfold managed_header. rewrite orb_true_iff, !bool_decide_eq_true. done. Qed.

Lemma wire_headers r :
  msorted (headers_ r) -> minserts (wire_fields r) [] = headers_ (client_view r).
Proof.
  intros Hs. apply stdmap_eq.
  - apply msorted_minserts. constructor.
  - by apply msorted_insert, msorted_insert.
  - intros k. unfold wire_fields. rewrite minserts_app.
    rewrite mlookup_minserts, mlookup_drop_keys by (by apply msorted_drop_keys).
    unfold client_view, minserts; cbn [headers_ foldl fst snd].
    destruct (decide (k = CL)) as [->|Hk1]; [by rewrite mlookup_insert_eq|].
    rewrite (mlookup_insert_ne CL) by done.
    destruct (decide (k = CONN)) as [->|Hk2]; [by rewrite !mlookup_insert_eq|].
    rewrite !(mlookup_insert_ne CONN) by done.
    destruct (managed_header k) eqn:E; [apply managed_spec in E; naive_solver|].
    rewrite mlookup_insert_ne by done. by destruct (mlookup k (headers_ r)).
Qed.

Lemma resp_wire_fields_ok r : sendable r -> Forall field_ok (wire_fields r).
Proof.
  intros Hs. unfold wire_fields. repeat constructor; try done.
  - by apply (bool_decide_eq_true_1 (_ ∉ _)); vm_compute.
  - by apply (bool_decide_eq_true_1 (_ ∉ _)); vm_compute.
  - apply to_string_field, zlen_nonneg.
  - apply to_string_field, zlen_nonneg.
  - by apply (bool_decide_eq_true_1 (_ ∉ _)); vm_compute.
  - by apply (bool_decide_eq_true_1 (_ ∉ _)); vm_compute.
  - unfold connection_value. destruct (keep_alive_ r);
      by apply (bool_decide_eq_true_1 (_ ∉ _)); vm_compute.
  - unfold connection_value. by destruct (keep_alive_ r).
  - apply Forall_filter, Hs.
Qed.

(** ** The whole response *)
Lemma parse_status p code reason rest :
  state_ p = kExpectStatusLine -> (100 <= code <= 599)%Z -> CR ∉ reason -> reason <> [] ->
  parse p (status_line code reason ++ CRLF ++ rest) =
  parse (p <| response_ := (response_ p) <| status_code_ := code |> <| status_reason_ := reason |> |>
           <| state_ := kExpectHeaders |>) rest.
Proof.
  intros Est Hc Hcr Hne. rewrite parse_unfold. unfold parse_step. rewrite Est.
  unfold step_status_line. fields. rewrite findCrlf_line by (apply status_line_cr; [lia|done]).
  destruct (line_split (status_line code reason) rest) as [-> ->].
  by rewrite parseStatusLine_ok.
Qed.

Lemma parse_end p (body rest : bytes) :
  framing p (zlen body) -> (zlen body < two64)%Z ->
  exists p', parse p (CRLF ++ body ++ rest) = (true, p', rest) /\ gotAll p' = true /\
    response_ p' = if decide (body = []) then response_ p else setBody body (response_ p).
Proof.
  intros (Est & Hh & Hcl & Hr0 & Ha & Hte) Hlt. rewrite parse_unfold. unfold parse_step. rewrite Est.
  unfold step_headers. fields. assert (findCrlf (CRLF ++ body ++ rest) = Some 0) as -> by done.
  unfold end_of_headers. fields. rewrite Hh, Hcl.
  assert (Hck : match mlookup (bs "transfer-encoding") (lower_headers_ p) with
                | Some te => contains (bs "chunked") te | None => false end = false).
  { change (bs "transfer-encoding") with TE. destruct (mlookup TE _) eqn:E; [by apply Hte|done]. }
  rewrite Hck. change (drop 2 (CRLF ++ body ++ rest)) with (body ++ rest).
  destruct (decide (body = [])) as [->|Hne].
  - change (zlen []) with 0%Z. cbn [app]. rewrite parse_done by done. eexists.
    split; [reflexivity|]. by split_and!.
  - pose proof (zlen_pos body Hne). rewrite (proj2 (Z.ltb_lt 0 _)) by done.
    rewrite parse_unfold. unfold parse_step. fields. unfold step_body. fields.
    fold (zlen (body ++ rest)). pose proof (zlen_nonneg rest).
    rewrite Hr0, ?Hcl, Z.sub_0_r, Z.add_0_l, zlen_app.
    rewrite (wrap64_id (zlen body)) by (unfold u64; lia). rewrite Z.min_r by lia.
    rewrite (wrap64_id (zlen body)) by (unfold u64; lia).
    rewrite (proj2 (Z.ltb_lt 0 _)), Z.eqb_refl by lia.
    assert (Z.to_nat (zlen body) = length body) as -> by (unfold zlen; lia).
    rewrite take_app_exact, drop_app_exact by done. rewrite parse_done by done.
    eexists. split; [reflexivity|]. rewrite Ha. by split_and!.
Qed.

(** A reset parser reads back what [appendTo] wrote. *)
Lemma parse_appended r n rest :
  sendable r ->
  let wire := Buffer.content (appendTo r (Buffer.Buffer_new n)) in
  exists p', parse reset (wire ++ rest) = (true, p', rest) /\ gotAll p' = true /\
    response_ p' = client_view r.
Proof.
  intros Hs wire. assert (Hw : wire = response_head r ++ body_ r).
  { subst wire. destruct (response_appendTo_bytes r (Buffer.Buffer_new n)) as [_ H]; [|exact H].
    exact (Buffer.new_wf n). }
  rewrite Hw, response_head_eq, <-!app_assoc.
  rewrite parse_status by (done || apply Hs).
  rewrite parse_resp_fields; [|done|by apply resp_wire_fields_ok|done|apply Hs].
  set (p := foldl after_field _ _).
  assert (Hf : framing p (zlen (body_ r))).
  { unfold p, wire_fields. rewrite foldl_app. apply framing_fields.
    - unfold framing, after_field, store_header; cbn [foldl fst snd].
      rewrite (bool_decide_eq_true_2 (toLower CL = _)) by done.
      rewrite (bool_decide_eq_false_2 (toLower CONN = _)) by done. fields.
      split_and!; try done. apply strtoul_to_string. split; [apply zlen_nonneg|apply Hs].
    - eapply Forall_filter_impl; [|exact (send_framing _ Hs)]. intros kv Hm Hf. exact (Hf Hm). }
  destruct (parse_end p (body_ r) rest Hf) as (p' & Hp & Hgot & Hresp); [apply Hs|].
  exists p'. split_and!; [done|done|]. rewrite Hresp. unfold p. rewrite response_fields. fields.
  cbn [headers_ HttpResponse_new reset response_]. rewrite wire_headers by apply Hs.
  destruct (decide (body_ r = [])) as [E|E]; unfold client_view, setBody; simpl; by rewrite ?E.
Qed.


Definition demo_response : HttpResponse :=
  setBody (bs "hello") (addHeader (bs "X-Trace") (bs "7") (setStatus 404 [] (HttpResponse_new true))).

Lemma demo_response_sendable : sendable demo_response.
Proof.
  split; try done.
  - split; [|done]. by apply (bool_decide_eq_true_1 (_ ∉ _)); vm_compute.
  - repeat constructor.
  - repeat constructor; by apply (bool_decide_eq_true_1 (_ ∉ _)); vm_compute.
  - repeat constructor; done.
Qed.


(** ** Bodies that end with the connection *)
Lemma parse_eof_fragment p s :
  state_ p = kExpectEofBody ->
  feed1 (p, []) s = (p <| body_accum_ := body_accum_ p ++ s |>, []).
Proof.
  intros Est. unfold feed1. cbn [fst snd app]. change (inc_run p s) with (parse p s).
  assert (Hidle : forall q, state_ q = kExpectEofBody -> parse q [] = (true, q, [])).
  { intros q Eq. rewrite parse_unfold. unfold parse_step. rewrite Eq. unfold step_eof_body; simpl.
    unfold hasError. by rewrite Eq. }
  destruct s as [|b s]; [rewrite Hidle, app_nil_r by done; by destruct p|].
  rewrite parse_unfold. unfold parse_step. rewrite Est. unfold step_eof_body. fields.
  rewrite (proj2 (Nat.ltb_lt _ _)) by (simpl; lia). rewrite take_ge, drop_ge by done.
  by rewrite Hidle.
Qed.

(** Without Content-Length and chunked coding the body is everything up to
    the end of the connection: after the blank line, whatever fragments arrive
    are accumulated, the response is complete only when [onEof] reports the
    close, and its body is the concatenation of the fragments. *)
Theorem eof_body p frags :
  state_ p = kExpectHeaders -> has_content_length_ p = false ->
  mlookup TE (lower_headers_ p) = None -> body_accum_ p = [] ->
  let cfg := feed (p, []) (CRLF :: frags) in
  gotAll cfg.1 = false /\ cfg.2 = [] /\ gotAll (onEof cfg.1) = true /\
  response_ (onEof cfg.1) = setBody (concat frags) (response_ p).
Proof.
  intros Est Hcl Hte Ha. cbn zeta. change (feed (p, []) (CRLF :: frags))
    with (feed (feed1 (p, []) CRLF) frags).
  assert (H1 : feed1 (p, []) CRLF = (p <| state_ := kExpectEofBody |>, [])).
  { unfold feed1. cbn [fst snd app]. change (inc_run p CRLF) with (parse p CRLF).
    rewrite parse_unfold. unfold parse_step. rewrite Est. unfold step_headers. fields.
    change (findCrlf CRLF) with (Some 0). unfold end_of_headers. fields.
    change (bs "transfer-encoding") with TE. rewrite Hte, Hcl. reflexivity. }
  rewrite H1. set (q := p <| state_ := kExpectEofBody |>).
  assert (Hq : forall fs q', state_ q' = kExpectEofBody ->
    feed (q', []) fs = (q' <| body_accum_ := body_accum_ q' ++ concat fs |>, [])).
  { induction fs as [|f fs IH]; intros q' Eq; [simpl; rewrite app_nil_r; by destruct q'|].
    unfold feed in *. cbn [foldl concat]. rewrite parse_eof_fragment by done.
    rewrite IH by done. fields. by rewrite app_assoc. }
  rewrite Hq by done. unfold onEof. unfold q; fields. rewrite Ha. by split_and!.
Qed.

Lemma eof_body_witness :
  let p := reset <| state_ := kExpectHeaders |> in
  let cfg := feed (p, []) [CRLF; bs "ab"; bs "c"] in
  gotAll cfg.1 = false /\ cfg.2 = [] /\ gotAll (onEof cfg.1) = true /\
  response_ (onEof cfg.1) = setBody (bs "abc") (response_ p).
Proof.
  apply (eof_body (reset <| state_ := kExpectHeaders |>) [bs "ab"; bs "c"]); reflexivity.
Defined.

(** ** The blank line after the last chunk

    A chunked message ends with an empty line after the last chunk (RFC 9112,
    7.1).  The parser reports the response complete without reading it, and a
    parser reset for the next response on the connection rejects it. *)
Lemma chunk_terminator_left : forall rest,
  exists p', parse (reset <| state_ := kExpectChunkSize |>) (bs "0" ++ CRLF ++ CRLF ++ rest)
               = (true, p', CRLF ++ rest) /\ gotAll p' = true.
Proof.
  intros rest. rewrite parse_unfold. unfold parse_step. fields. unfold step_chunk_size. fields.
  rewrite (findCrlf_line (bs "0")) by (by apply (bool_decide_eq_true_1 (_ ∉ _)); vm_compute).
  destruct (line_split (bs "0") (CRLF ++ rest)) as [-> ->].
  change (strtoul 16 (bs "0") =? 0)%Z with true. rewrite parse_done by done. eauto.
Qed.

Lemma next_response_refused rest : (parse reset (CRLF ++ rest)).1.1 = false.
Proof.
  rewrite parse_unfold. unfold parse_step. cbn [state_ reset]. unfold step_status_line. fields.
  assert (findCrlf (CRLF ++ rest) = Some 0) as -> by done. done.
Qed.

(** Finding: a complete chunked response that ends as RFC 9112 prescribes
    leaves its final CRLF in the input, and the next response on the same
    connection is then rejected whatever it is. *)
Theorem chunked_response_poisons_connection next :
  exists p' left, parse (reset <| state_ := kExpectChunkSize |>) (bs "0" ++ CRLF ++ CRLF ++ next)
                    = (true, p', left) /\ gotAll p' = true /\ (parse reset left).1.1 = false.
Proof.
  destruct (chunk_terminator_left next) as (p' & Hp & Hg). exists p', (CRLF ++ next).
  split_and!; [done|done|apply next_response_refused].
Qed.

End ResponseRoundtrip.
