(* ===== verification/HttpServer.v ===== *)
(** * The HTTP server (http/http_server.h, http/http_server.cc)

    Per-connection parse contexts, the request loop of [processInput] with
    pipelining, keep-alive and the error responses, and the two ways bytes reach
    it (plaintext and TLS).  What the server does to the outside is a trace of
    [event]s.  The application's handler is a parameter that may keep state. *)

From S2P Require Import Prelude StdMap CStr Buffer Incremental Url HttpMessage.
From S2P Require Import HttpContext HttpParse HttpRoundtrip.
Import HttpResponse HttpContext.

Module HttpServer.

(** What [processInput] does, in order: run the handler on a request, report a
    status to the request observer (the handler's wall time is left out), write
    bytes to the connection, half-close it. *)
Inductive event :=
| Handled (req : HttpRequest.HttpRequest)
| Notified (status : Z)
| Sent (data : bytes)
| Closed.

(** [struct PerConn]; the TLS session itself is outside the model. *)
Record PerConn := mkPerConn {
  ctx : HttpContext;
  in_ : Buffer.Buffer;
}.

Definition errorResponse (e : Error) : bytes :=
  match e with
  | kTooLarge => bs "HTTP/1.1 413 Payload Too Large" ++ CRLF ++ bs "Content-Length: 0" ++ CRLF ++
                 bs "Connection: close" ++ CRLF ++ CRLF
  | _ => bs "HTTP/1.1 400 Bad Request" ++ CRLF ++ bs "Content-Length: 0" ++ CRLF ++
         bs "Connection: close" ++ CRLF ++ CRLF
  end.

(** [int status = ctx.error() == kTooLarge ? 413 : 400] *)
Definition errorStatus (e : Error) : Z := match e with kTooLarge => 413 | _ => 400 end%Z.

(** [send(errorResponse(..)); notify(status, 0.0); close();] *)
Definition reject (c : HttpContext) : list event :=
  [Sent (errorResponse (error_ c)); Notified (errorStatus (error_ c)); Closed].

(** [buffer::Buffer out; resp.appendTo(&out); out.retrieveAllAsString()] *)
Definition serialize (resp : HttpResponse) : bytes :=
  (Buffer.retrieveAllAsString (appendTo resp (Buffer.Buffer_new Buffer.kInitialSize))).1.

Section server.
Context {S : Type}.

(** [handler_], empty or a callable over the application's state. *)
Variable handler_ : option (S -> HttpRequest.HttpRequest -> HttpResponse -> S * HttpResponse).

(** Dispatch one request: the events and the application's next state. *)
Definition respond (app : S) (req : HttpRequest.HttpRequest) : S * list event :=
  let keep_alive := HttpRequest.keepAlive req in
  let resp0 := HttpResponse_new keep_alive in
  let '(app', resp1, ran) :=
    match handler_ with
    | Some h => let '(a, r) := h app req resp0 in (a, r, [Handled req])
    | None => (app, setBody (bs "No handler") (setStatus 404 [] resp0), [])
    end in
  (app', ran ++ [Notified (status_code_ resp1); Sent (serialize (setKeepAlive keep_alive resp1))]).

Section input.
Context {B : Type} `{ByteQueue B}.

Record loop_state := mkLoop {
  l_app : S;
  l_ctx : HttpContext;
  l_in : B;
  l_trace : list event;
}.

(** One iteration of [while (ctx.gotAll())]. *)
Definition process_body (st : loop_state) : loop_state + loop_state :=
  let '(mkLoop app c inb tr) := st in
  if gotAll c then
    let keep_alive := HttpRequest.keepAlive (request_ c) in
    let '(app', evs) := respond app (request_ c) in
    let c1 := reset c in
    if negb keep_alive then inr (mkLoop app' c1 inb (tr ++ evs ++ [Closed]))
    else
      let '(ok, c2, inb2) := parseRequest c1 inb in
      if negb ok then inr (mkLoop app' c2 inb2 (tr ++ evs ++ reject c2))
      else inl (mkLoop app' c2 inb2 (tr ++ evs))
  else inr st.

Definition process_loop (fuel : nat) (st : loop_state) : option loop_state :=
  iter_while fuel process_body st.

(** The body of [processInput] once the connection has been found.  Every
    request takes at least one byte of the input, so two iterations more than
    there are bytes are enough ([process_loop_total]). *)
Definition process (app : S) (c : HttpContext) (inb : B) : loop_state :=
  let '(ok, c1, inb1) := parseRequest c inb in
  if negb ok then mkLoop app c1 inb1 (reject c1)
  else
    let st := mkLoop app c1 inb1 [] in
    default st (process_loop (2 + bq_size inb1) st).

Definition processInput (conns : stdmap bytes PerConn) (conn_name : bytes) (app : S) (inb : B)
    : S * stdmap bytes PerConn * B * list event :=
  match mlookup conn_name conns with
  | None => (app, conns, inb, [])
  | Some pc =>
    let st := process app (ctx pc) inb in
    (l_app st, minsert conn_name (mkPerConn (l_ctx st) (in_ pc)) conns, l_in st, l_trace st)
  end.
End input.

(** ** Connections *)
Record HttpServer := mkHttpServer {
  tls_ctx_ : bool;   (* a TlsContext is set *)
  max_body_bytes_ : Z;
  conns_ : stdmap bytes PerConn;
}.

(** [onConnection]: a new connection gets a fresh context with the body limit;
    a closed one is forgotten. *)
Definition onConnection (connected : bool) (name : bytes) (srv : HttpServer) : HttpServer :=
  if connected
  then mkHttpServer (tls_ctx_ srv) (max_body_bytes_ srv)
         (minsert name (mkPerConn (setMaxBodyBytes (max_body_bytes_ srv) HttpContext_new)
                                  (Buffer.Buffer_new Buffer.kInitialSize)) (conns_ srv))
  else mkHttpServer (tls_ctx_ srv) (max_body_bytes_ srv) (merase name (conns_ srv)).

(** [onPlainMessage]: bytes from the socket, in the connection's own buffer. *)
Definition onPlainMessage (name : bytes) (buf : Buffer.Buffer) (app : S) (srv : HttpServer)
    : S * HttpServer * Buffer.Buffer * list event :=
  if tls_ctx_ srv then (app, srv, buf, [])
  else
    let '(app', conns', buf', evs) := processInput (conns_ srv) name app buf in
    (app', mkHttpServer (tls_ctx_ srv) (max_body_bytes_ srv) conns', buf', evs).

(** The TLS message callback: decrypted bytes are appended to the reassembly
    buffer of the connection, which [processInput] then drains in place. *)
Definition onTlsMessage (name pt : bytes) (app : S) (srv : HttpServer)
    : S * HttpServer * list event :=
  match mlookup name (conns_ srv) with
  | None => (app, srv, [])
  | Some pc =>
    let '(app', conns', buf', evs) := processInput (conns_ srv) name app (Buffer.append pt (in_ pc)) in
    let conns'' := match mlookup name conns' with
                   | Some pc' => minsert name (mkPerConn (ctx pc') buf') conns'
                   | None => conns'
                   end in
    (app', mkHttpServer (tls_ctx_ srv) (max_body_bytes_ srv) conns'', evs)
  end.

(** ** The request loop terminates *)
Lemma parse_got_consumes `{ByteQueueLaws B} c (inb : B) ok c' inb' :
  bq_wf inb -> parseRequest (reset c) inb = (ok, c', inb') ->
  bq_wf inb' /\ (gotAll c' = true -> bq_size inb' < bq_size inb).
Proof.
  intros Hwf E. destruct (inc_run_bytes (reset c) inb Hwf) as [Hw Hb].
  unfold parseRequest in E. rewrite E in Hw, Hb. simpl in Hw, Hb. split; [done|]. intros Hg.
  rewrite !bq_size_bytes by done. rewrite inc_run_unfold in Hb.
  destruct (inc_step (reset c) (bq_bytes inb)) as [c1 s1|c1 s1|c1 s1] eqn:Es.
  - apply inc_step_shorter in Es.
    pose proof (inc_run_length c1 s1) as Hle.
    rewrite Hb in Hle. simpl in Hle. lia.
  - injection Hb as _ <- <-. unfold inc_step in Es; simpl in Es.
    unfold parse_step, reset in Es; simpl in Es. unfold step_request_line in Es.
    destruct (findCrlf _); [|by injection Es as <- <-].
    by destruct (parseRequestLine _ _) as [[] ?].
  - injection Hb as _ <- <-. apply inc_fail_error in Es. simpl in Es.
    unfold hasError, gotAll in *. bool_prop. congruence.
Qed.

Definition loop_measure {B} `{ByteQueue B} (st : @loop_state B) : nat :=
  if gotAll (l_ctx st) then Datatypes.S (bq_size (l_in st)) else 0.

Lemma process_loop_some `{ByteQueueLaws B} (st : @loop_state B) fuel :
  bq_wf (l_in st) -> loop_measure st < fuel -> exists st', process_loop fuel st = Some st'.
Proof.
  intros Hwf Hf. unfold process_loop.
  apply (iter_while_total process_body loop_measure (fun st => bq_wf (l_in st))); [|done..].
  intros [app c inb tr] st' Hw. unfold process_body, loop_measure; simpl in *.
  destruct (gotAll c); [|done]. destruct (respond app (request_ c)) as [app' evs].
  case_if; [done|]. destruct (parseRequest (reset c) inb) as [[ok c2] inb2] eqn:Ep.
  destruct (parse_got_consumes c inb ok c2 inb2 Hw Ep) as [Hw2 Hlt].
  destruct ok; [|done]. intros [= <-]. simpl. split; [|done].
  destruct (gotAll c2); [specialize (Hlt eq_refl)|]; lia.
Qed.

Lemma process_loop_mono {B} `{ByteQueue B} fuel fuel' (st st' : @loop_state B) :
  process_loop fuel st = Some st' -> fuel <= fuel' -> process_loop fuel' st = Some st'.
Proof. apply iter_while_mono. Qed.

Lemma process_run `{ByteQueueLaws B} app c (inb : B) fuel :
  bq_wf inb -> (parseRequest c inb).1.1 = true -> 2 + bq_size (parseRequest c inb).2 <= fuel ->
  process_loop fuel (mkLoop app (parseRequest c inb).1.2 (parseRequest c inb).2 []) =
  Some (process app c inb).
Proof.
  intros Hwf Hok Hf. unfold process. destruct (inc_run_bytes c inb Hwf) as [Hw _].
  change (inc_run c inb) with (parseRequest c inb) in Hw.
  destruct (parseRequest c inb) as [[ok c1] inb1]. simpl in *. rewrite Hok. simpl.
  destruct (process_loop_some (mkLoop app c1 inb1 []) (2 + bq_size inb1)) as [st Hst]; [done| |].
  { unfold loop_measure; simpl. destruct (gotAll c1); lia. }
  simpl in Hst. rewrite Hst. by eapply process_loop_mono.
Qed.

Lemma process_loop_S {B} `{ByteQueue B} fuel (st : @loop_state B) :
  process_loop (Datatypes.S fuel) st =
  match process_body st with inl st' => process_loop fuel st' | inr r => Some r end.
Proof. reflexivity. Qed.

(** ** The trace of a run

    [serve_all]: the requests answered one after the other. *)
Fixpoint serve_all (app : S) (reqs : list HttpRequest.HttpRequest) : S * list event :=
  match reqs with
  | [] => (app, [])
  | req :: reqs' =>
    let r := respond app req in
    let rs := serve_all r.1 reqs' in (rs.1, r.2 ++ rs.2)
  end.

(** How a run of [processInput] may end: waiting for more bytes, every answered
    request being keep-alive; closed after the one that was not; or closed after
    the error response for a rejected one. *)
Definition run_end (reqs : list HttpRequest.HttpRequest) (c : HttpContext) (tail : list event) : Prop :=
  (tail = [] /\ gotAll c = false /\ hasError c = false /\
     Forall (fun r => HttpRequest.keepAlive r = true) reqs) \/
  (tail = [Closed] /\ exists reqs1 r, reqs = reqs1 ++ [r] /\ HttpRequest.keepAlive r = false /\
     Forall (fun r => HttpRequest.keepAlive r = true) reqs1) \/
  (tail = reject c /\ hasError c = true /\ Forall (fun r => HttpRequest.keepAlive r = true) reqs).

Lemma run_end_cons r reqs c tail :
  HttpRequest.keepAlive r = true -> run_end reqs c tail -> run_end (r :: reqs) c tail.
Proof.
  intros Hr [(-> & ? & ? & ?)|[(-> & reqs1 & r1 & -> & ? & ?)|(-> & ? & ?)]].
  - left. split_and!; try done. by constructor.
  - right; left. split; [done|]. exists (r :: reqs1), r1. split_and!; [done|done|by constructor].
  - right; right. split_and!; [done|done|by constructor].
Qed.

Lemma parse_ok_flag `{ByteQueueLaws B} c (inb : B) :
  bq_wf inb -> (parseRequest c inb).1.1 = negb (hasError (parseRequest c inb).1.2).
Proof.
  intros Hwf. destruct (inc_run_bytes c inb Hwf) as [_ Hb].
  pose proof (inc_run_flag c (bq_bytes inb)) as Hf. by rewrite Hb in Hf.
Qed.

Lemma process_loop_trace `{ByteQueueLaws B} fuel : forall (st st' : @loop_state B),
  bq_wf (l_in st) -> hasError (l_ctx st) = false -> process_loop fuel st = Some st' ->
  exists reqs tail, l_trace st' = l_trace st ++ (serve_all (l_app st) reqs).2 ++ tail /\
    l_app st' = (serve_all (l_app st) reqs).1 /\ run_end reqs (l_ctx st') tail.
Proof.
  induction fuel as [|fuel IH]; intros [app c inb tr] st' Hw Herr; [done|].
  rewrite process_loop_S. unfold process_body. simpl in *.
  destruct (gotAll c) eqn:Eg.
  2:{ intros [= <-]. exists [], []. simpl. rewrite app_nil_r. split_and!; [done|done|].
      left. by split_and!. }
  destruct (respond app (request_ c)) as [app1 evs] eqn:Er.
  destruct (HttpRequest.keepAlive (request_ c)) eqn:Eka; simpl.
  2:{ intros [= <-]. exists [request_ c], [Closed]. simpl. rewrite Er. simpl. rewrite app_nil_r.
      split_and!; [done|done|]. right; left. split; [done|]. exists [], (request_ c). done. }
  pose proof (parse_ok_flag (reset c) inb Hw) as Hfl.
  destruct (parseRequest (reset c) inb) as [[ok c2] inb2] eqn:Ep. simpl in Hfl.
  destruct (parse_got_consumes c inb ok c2 inb2 Hw Ep) as [Hw2 _].
  destruct ok; simpl.
  - intros Hl. destruct (IH (mkLoop app1 c2 inb2 (tr ++ evs)) st' Hw2) as (reqs & tail & Ht & Ha & He);
      [by apply negb_true_iff|done|].
    exists (request_ c :: reqs), tail. simpl in *. rewrite Er. simpl. rewrite Ht, Ha.
    split_and!; [by rewrite <-!app_assoc|done|by apply run_end_cons].
  - intros [= <-]. exists [request_ c], (reject c2). simpl. rewrite Er. simpl. rewrite app_nil_r.
    split_and!; [done|done|]. right; right. split_and!; [done|by apply negb_false_iff|].
    by repeat constructor.
Qed.

Lemma process_trace_lemma `{ByteQueueLaws B} app c (inb : B) :
  bq_wf inb ->
  exists reqs tail,
    l_trace (process app c inb) = (serve_all app reqs).2 ++ tail /\
    l_app (process app c inb) = (serve_all app reqs).1 /\
    run_end reqs (l_ctx (process app c inb)) tail.
Proof.
  intros Hwf. pose proof (parse_ok_flag c inb Hwf) as Hfl.
  destruct ((parseRequest c inb).1.1) eqn:Eok.
  - pose proof (process_run app c inb _ Hwf Eok ltac:(reflexivity)) as Hr.
    destruct (inc_run_bytes c inb Hwf) as [Hw _].
    apply process_loop_trace in Hr; [exact Hr|exact Hw|]. simpl.
    by apply negb_true_iff.
  - unfold process. destruct (parseRequest c inb) as [[ok c1] inb1]. simpl in *. rewrite Eok. simpl.
    exists [], (reject c1). split_and!; [done|done|]. right; right.
    split_and!; [done|by apply negb_false_iff; congruence|constructor].
Qed.

(** ** Runs on plain bytes *)
Definition loop_bytes {B} `{ByteQueue B} (st : @loop_state B) : @loop_state bytes :=
  mkLoop (l_app st) (l_ctx st) (bq_bytes (l_in st)) (l_trace st).

Lemma process_loop_bytes `{ByteQueueLaws B} fuel : forall (st : @loop_state B),
  bq_wf (l_in st) -> process_loop fuel (loop_bytes st) = loop_bytes <$> process_loop fuel st.
Proof.
  induction fuel as [|fuel IH]; intros [app c inb tr] Hw; [done|].
  unfold loop_bytes; simpl. rewrite !process_loop_S. unfold process_body. simpl in *.
  destruct (gotAll c); [|done]. destruct (respond app (request_ c)) as [app1 evs].
  case_if; [done|]. destruct (inc_run_bytes (reset c) inb Hw) as [Hw2 Hb].
  change (inc_run (reset c)) with (fun b : B => parseRequest (reset c) b) in Hw2.
  unfold parseRequest at 1. rewrite Hb. unfold parseRequest in *.
  destruct (inc_run (reset c) inb) as [[ok c2] inb2]. simpl in *. case_if; [done|].
  by apply (IH (mkLoop app1 c2 inb2 (tr ++ evs))).
Qed.

Lemma process_bytes `{ByteQueueLaws B} app c (inb : B) :
  bq_wf inb -> process app c (bq_bytes inb) = loop_bytes (process app c inb).
Proof.
  intros Hw. unfold process. destruct (inc_run_bytes c inb Hw) as [Hw1 Hb].
  unfold parseRequest. rewrite Hb. destruct (inc_run c inb) as [[ok c1] inb1]. simpl in *.
  case_if; [done|]. rewrite <-(bq_size_bytes inb1) by done.
  pose proof (process_loop_bytes (2 + bq_size inb1) (mkLoop app c1 inb1 []) Hw1) as Hl.
  unfold loop_bytes at 1 in Hl. simpl in Hl. simpl plus. rewrite Hl.
  by destruct (process_loop (Datatypes.S (Datatypes.S (bq_size inb1))) (mkLoop app c1 inb1 [])) as [[]|].
Qed.

Lemma process_wf `{ByteQueueLaws B} app c (inb : B) : bq_wf inb -> bq_wf (l_in (process app c inb)).
Proof.
  intros Hw. unfold process. destruct (inc_run_bytes c inb Hw) as [Hw1 _].
  unfold parseRequest. destruct (inc_run c inb) as [[ok c1] inb1]. simpl in *. case_if; [done|].
  destruct (process_loop _ _) as [st|] eqn:El; [|done]. simpl.
  revert El. apply (iter_while_inv process_body (fun st => bq_wf (l_in st)) (fun st => bq_wf (l_in st)));
    [|done]. clear app c inb Hw Hw1 E. intros [app c inb tr] Hw. unfold process_body; simpl in *.
  destruct (gotAll c); [|done]. destruct (respond app (request_ c)) as [app2 evs].
  case_if; [done|]. destruct (parseRequest (reset c) inb) as [[ok2 c2] inb2] eqn:Ep.
  destruct (parse_got_consumes c inb ok2 c2 inb2 Hw Ep) as [Hw2 _]. by case_if.
Qed.

Definition prepend {B} (tr : list event) (st : @loop_state B) : @loop_state B :=
  mkLoop (l_app st) (l_ctx st) (l_in st) (tr ++ l_trace st).

Lemma process_loop_prefix {B} `{ByteQueue B} fuel : forall app c (inb : B) tr1 tr2,
  process_loop fuel (mkLoop app c inb (tr1 ++ tr2)) =
  prepend tr1 <$> process_loop fuel (mkLoop app c inb tr2).
Proof.
  induction fuel as [|fuel IH]; intros app c inb tr1 tr2; [done|].
  rewrite !process_loop_S. unfold process_body. destruct (gotAll c); [|done].
  destruct (respond app (request_ c)) as [app1 evs]. case_if.
  { unfold prepend; simpl. by rewrite <-app_assoc. }
  destruct (parseRequest (reset c) inb) as [[ok c2] inb2]. case_if.
  { unfold prepend; simpl. by rewrite <-app_assoc. }
  by rewrite <-app_assoc, IH.
Qed.

Lemma process_loop_agree `{ByteQueueLaws B} f1 f2 (st : @loop_state B) :
  bq_wf (l_in st) -> loop_measure st < f1 -> loop_measure st < f2 ->
  process_loop f1 st = process_loop f2 st.
Proof.
  intros Hw H1 H2. destruct (process_loop_some st f1 Hw H1) as [r1 E1].
  destruct (process_loop_some st f2 Hw H2) as [r2 E2].
  pose proof (process_loop_mono _ (f1 `max` f2) _ _ E1 ltac:(lia)).
  pose proof (process_loop_mono _ (f1 `max` f2) _ _ E2 ltac:(lia)). congruence.
Qed.

(** One request at a time. *)
Lemma process_unfold app c (s : bytes) :
  process app c s =
  let '(ok, c1, s1) := parseRequest c s in
  if negb ok then mkLoop app c1 s1 (reject c1)
  else if gotAll c1 then
    let r := respond app (request_ c1) in
    if HttpRequest.keepAlive (request_ c1)
    then prepend r.2 (process r.1 (reset c1) s1)
    else mkLoop r.1 (reset c1) s1 (r.2 ++ [Closed])
  else mkLoop app c1 s1 [].
Proof.
  unfold process at 1. destruct (parseRequest c s) as [[ok c1] s1]. case_if; [done|]. simpl bq_size.
  change (2 + length s1) with (Datatypes.S (1 + length s1)). rewrite process_loop_S. unfold process_body.
  destruct (gotAll c1); [|done]. destruct (respond app (request_ c1)) as [app1 evs].
  destruct (HttpRequest.keepAlive (request_ c1)); [|done]. simpl negb. cbn iota.
  unfold process. destruct (parseRequest (reset c1) s1) as [[ok2 c2] s2] eqn:Ep.
  destruct ok2; [|done]. simpl negb. cbn iota. rewrite app_nil_l.
  assert (Hws : bq_wf s1) by exact I.
  destruct (parse_got_consumes c1 s1 true c2 s2 Hws Ep) as [_ Hlt].
  rewrite <-(app_nil_r evs), process_loop_prefix, app_nil_r. simpl in Hlt.
  assert (Hm : loop_measure (mkLoop app1 c2 s2 []) < 1 + length s1).
  { unfold loop_measure; simpl. destruct (gotAll c2); [specialize (Hlt eq_refl)|]; lia. }
  assert (Hm2 : loop_measure (mkLoop app1 c2 s2 []) < 2 + length s2).
  { unfold loop_measure; simpl. destruct (gotAll c2); lia. }
  rewrite (process_loop_agree _ (2 + length s2)) by done.
  destruct (process_loop_some (mkLoop app1 c2 s2 []) (2 + length s2)) as [st Hst]; [done..|].
  simpl bq_size. simpl fst. simpl snd. by rewrite Hst.
Qed.

(** ** Segmentation of the input *)

(** Same application state and trace, equivalent parsers. *)
Definition run_equiv (st1 st2 : @loop_state bytes) : Prop :=
  l_app st1 = l_app st2 /\ l_trace st1 = l_trace st2 /\
  cfg_equiv (l_ctx st1, l_in st1) (l_ctx st2, l_in st2).

Lemma process_equiv app c1 s1 c2 s2 :
  cfg_equiv (feed1 (c1, []) s1) (feed1 (c2, []) s2) -> run_equiv (process app c1 s1) (process app c2 s2).
Proof.
  intros He. rewrite (process_unfold app c1 s1), (process_unfold app c2 s2).
  pose proof (inc_run_flag c1 s1) as Hf1. pose proof (inc_run_flag c2 s2) as Hf2.
  unfold feed1 in He. simpl in He. unfold parseRequest in *.
  destruct (inc_run c1 s1) as [[ok1 d1] t1]. destruct (inc_run c2 s2) as [[ok2 d2] t2]. simpl in *.
  destruct He as [[= -> ->]|(He1 & He2 & Hr)].
  - subst ok1 ok2. unfold run_equiv. repeat case_if; (split_and!; [done..|reflexivity]).
  - simpl in *. rewrite He1 in Hf1. rewrite He2 in Hf2. subst ok1 ok2. simpl. unfold run_equiv; simpl.
    split_and!; [done| |by right]. unfold reject. by rewrite Hr.
Qed.

Lemma prepend_equiv tr st1 st2 : run_equiv st1 st2 -> run_equiv (prepend tr st1) (prepend tr st2).
Proof. intros (? & Ht & ?). unfold run_equiv; simpl. by rewrite Ht. Qed.

Definition closed (tr : list event) : bool :=
  existsb (fun e => match e with Closed => true | _ => false end) tr.

Lemma closed_app tr1 tr2 : closed (tr1 ++ tr2) = closed tr1 || closed tr2.
Proof. apply existsb_app. Qed.

Lemma respond_no_close app req : closed (respond app req).2 = false.
Proof. unfold respond. destruct handler_ as [h|]; [by destruct (h _ _ _)|done]. Qed.

Lemma reset_ctx_wf k c s c1 s1 :
  ctx_wf k c s -> inc_run c s = (true, c1, s1) -> ctx_wf k (reset c1) s1.
Proof.
  intros Hwf E. pose proof (parseRequest_wf k c s Hwf) as Hw. unfold parseRequest in Hw.
  rewrite E in Hw. destruct Hw as (Hk & Hmem & _). simpl in *. unfold ctx_wf, reset; simpl.
  change (zlen []) with 0%Z. pose proof (zlen_nonneg (HttpRequest.body_ (request_ c1))).
  split_and!; done || lia.
Qed.

Lemma got_consumes k c (s : bytes) ok c1 s1 :
  ctx_wf k c s -> gotAll c = false -> inc_run c s = (ok, c1, s1) -> gotAll c1 = true ->
  length s1 < length s.
Proof.
  intros Hwf Hg E Hg1. rewrite inc_run_unfold in E.
  pose proof (parse_step_stable c s [] ltac:(eapply ctx_wf_weaken; [exact Hwf|]; destruct Hwf; done)) as Hst.
  unfold step_stable in Hst.
  destruct (inc_step c s) as [c' s'|c' s'|c' s'] eqn:Es.
  - apply inc_step_shorter in Es. pose proof (inc_run_length c' s') as Hl. rewrite E in Hl. simpl in Hl. lia.
  - destruct Hst as [-> ->]. injection E as _ <- <-. congruence.
  - apply inc_fail_error in Es. injection E as _ <- <-. simpl in Es. unfold hasError, gotAll in *.
    bool_prop. congruence.
Qed.

Lemma prepend_app {B} tr1 tr2 (st : @loop_state B) : prepend (tr1 ++ tr2) st = prepend tr1 (prepend tr2 st).
Proof. unfold prepend; simpl. by rewrite app_assoc. Qed.

Lemma prepend_nil {B} (st : @loop_state B) : prepend [] st = st.
Proof. by destruct st. Qed.

Definition input_measure (c : HttpContext) (s : bytes) : nat := 2 * length s + if gotAll c then 1 else 0.

(** When parsing [s] stops at a complete request, parsing [s ++ t] stops there too. *)
Lemma run_complete_app c s t c1 s1 :
  ctx_wf (zlen t) c s -> inc_run c s = (true, c1, s1) -> gotAll c1 = true ->
  inc_run c (s ++ t) = (true, c1, s1 ++ t).
Proof.
  intros Hwf Erun Eg. pose proof (run_fragment c s t Hwf) as Hfr.
  unfold feed1 in Hfr. simpl in Hfr. rewrite Erun in Hfr. simpl in Hfr.
  assert (Hdone : inc_run c1 (s1 ++ t) = (true, c1, s1 ++ t)).
  { apply parseRequest_done. unfold gotAll in Eg. by bool_prop. }
  rewrite Hdone in Hfr. simpl in Hfr. pose proof (inc_run_flag c (s ++ t)) as Hf2.
  destruct (inc_run c (s ++ t)) as [[ok2 c2] s2]. simpl in *.
  assert (Herr : hasError c1 = false).
  { unfold gotAll, hasError in *. bool_prop. by rewrite Eg. }
  destruct Hfr as [[= -> ->]|(_ & He & _)]; [by rewrite Hf2, Herr|]. simpl in He. congruence.
Qed.

(** When parsing [s] fails, parsing [s ++ t] fails for the same reason. *)
Lemma run_failed_app c s t c1 s1 :
  ctx_wf (zlen t) c s -> inc_run c s = (false, c1, s1) ->
  exists c2 s2, inc_run c (s ++ t) = (false, c2, s2) /\ error_ c2 = error_ c1.
Proof.
  intros Hwf Erun. pose proof (run_fragment c s t Hwf) as Hfr.
  pose proof (inc_run_flag c s) as Hf1. pose proof (inc_run_flag c (s ++ t)) as Hf2.
  unfold feed1 in Hfr. simpl in Hfr. rewrite Erun in Hfr, Hf1. simpl in Hfr, Hf1.
  assert (He : inc_error c1 = true) by (by apply negb_false_iff).
  rewrite (inc_run_error c1) in Hfr by exact He. simpl in Hfr.
  destruct (inc_run c (s ++ t)) as [[ok2 c2] s2]. simpl in *. exists c2, s2.
  destruct Hfr as [[= -> ->]|(He2 & _ & Hr)]; simpl in *.
  - split; [|done]. by rewrite Hf2, He.
  - split; [|done]. by rewrite Hf2, He2.
Qed.

(** More input [t] after [s]: if processing [s] closed the connection, [t] adds
    nothing; otherwise processing goes on where it stopped. *)
Lemma process_app n : forall app c s t,
  input_measure c s < n -> ctx_wf (zlen t) c s ->
  let st := process app c s in
  if closed (l_trace st)
  then l_trace (process app c (s ++ t)) = l_trace st
  else run_equiv (process app c (s ++ t))
         (prepend (l_trace st) (process (l_app st) (l_ctx st) (l_in st ++ t))).
Proof.
  induction n as [|n IH]; intros app c s t Hn Hwf; [lia|]. cbn zeta.
  rewrite (process_unfold app c s). unfold parseRequest.
  destruct (inc_run c s) as [[ok c1] s1] eqn:Erun. destruct ok; simpl negb; cbn iota.
  2:{ destruct (run_failed_app c s t c1 s1 Hwf Erun) as (c2 & s2 & E2 & He). simpl.
      rewrite process_unfold. unfold parseRequest. rewrite E2. simpl. unfold reject. by rewrite He. }
  destruct (gotAll c1) eqn:Eg.
  - pose proof (run_complete_app c s t c1 s1 Hwf Erun Eg) as E2.
    assert (Hm : input_measure (reset c1) s1 < n).
    { unfold input_measure in *. change (gotAll (reset c1)) with false. destruct (gotAll c) eqn:Ec.
      - assert (inc_run c s = (true, c, s)) as E3.
        { apply parseRequest_done. unfold gotAll in Ec. by bool_prop. }
        rewrite Erun in E3. injection E3 as _ ->. lia.
      - pose proof (got_consumes _ c s _ c1 s1 Hwf Ec Erun Eg). lia. }
    pose proof (reset_ctx_wf _ _ _ _ _ Hwf Erun) as Hwf1.
    rewrite (process_unfold app c (s ++ t)). unfold parseRequest. rewrite E2. simpl negb. cbn iota.
    rewrite Eg. destruct (respond app (request_ c1)) as [app1 evs] eqn:Er.
    pose proof (respond_no_close app (request_ c1)) as Hnc. rewrite Er in Hnc. simpl in Hnc.
    destruct (HttpRequest.keepAlive (request_ c1)); simpl.
    2:{ by rewrite closed_app, orb_true_r. }
    specialize (IH app1 (reset c1) s1 t Hm Hwf1). cbn zeta in IH. rewrite closed_app, Hnc. simpl.
    destruct (closed (l_trace (process app1 (reset c1) s1))); [by rewrite IH|].
    rewrite prepend_app. by apply prepend_equiv.
  - simpl. pose proof (run_fragment c s t Hwf) as Hfr. unfold feed1 at 2 3 in Hfr. simpl in Hfr.
    rewrite Erun in Hfr. simpl in Hfr. rewrite prepend_nil. by apply process_equiv.
Qed.

(** The connection's buffer filled fragment by fragment, [processInput] called
    after each; the events of all calls in order. *)
Fixpoint deliver {B} `{ByteQueue B} (app : S) (c : HttpContext) (buf : B) (frags : list bytes)
    : @loop_state B :=
  match frags with
  | [] => mkLoop app c buf []
  | f :: fs =>
    let st := process app c (bq_append f buf) in
    prepend (l_trace st) (deliver (l_app st) (l_ctx st) (l_in st) fs)
  end.

Lemma deliver_bytes `{ByteQueueLaws B} frags : forall app c (buf : B),
  bq_wf buf -> deliver app c (bq_bytes buf) frags = loop_bytes (deliver app c buf frags).
Proof.
  induction frags as [|f fs IH]; intros app c buf Hw; [done|]. simpl.
  pose proof (bq_append_wf f buf Hw) as Hw1.
  assert (Hp : process app c (bq_bytes buf ++ f) = loop_bytes (process app c (bq_append f buf))).
  { rewrite <-bq_append_bytes by done. by apply process_bytes. }
  rewrite Hp. simpl. rewrite IH by (by apply process_wf). done.
Qed.

#[local] Instance run_equiv_equivalence : Equivalence run_equiv.
Proof.
  split.
  - intros st. by split_and!.
  - intros st1 st2 (? & ? & ?). by split_and!.
  - intros st1 st2 st3 (? & ? & ?) (? & ? & ?). split_and!; [congruence..|by etrans].
Qed.

Lemma process_ctx_wf n : forall k app c s,
  input_measure c s < n -> ctx_wf k c s ->
  ctx_wf k (l_ctx (process app c s)) (l_in (process app c s)).
Proof.
  induction n as [|n IH]; intros k app c s Hn Hwf; [lia|].
  rewrite process_unfold. pose proof (parseRequest_wf k c s Hwf) as Hw. unfold parseRequest in *.
  destruct (inc_run c s) as [[ok c1] s1] eqn:Erun. simpl in Hw. destruct ok; [|done]. simpl negb. cbn iota.
  pose proof (reset_ctx_wf _ _ _ _ _ Hwf Erun) as Hwf1.
  destruct (gotAll c1) eqn:Eg; [|done].
  destruct (HttpRequest.keepAlive (request_ c1)); [|done]. simpl. apply IH; [|done].
  unfold input_measure in *. change (gotAll (reset c1)) with false. destruct (gotAll c) eqn:Ec.
  - assert (inc_run c s = (true, c, s)) as E3.
    { apply parseRequest_done. unfold gotAll in Ec. by bool_prop. }
    rewrite Erun in E3. injection E3 as _ ->. lia.
  - pose proof (got_consumes _ c s _ c1 s1 Hwf Ec Erun Eg). lia.
Qed.

Lemma deliver_whole fs : forall app c (buf : bytes) f,
  ctx_wf (zlen (concat (f :: fs))) c buf ->
  closed (l_trace (process app c (buf ++ concat (f :: fs)))) = false ->
  run_equiv (deliver app c buf (f :: fs)) (process app c (buf ++ concat (f :: fs))).
Proof.
  induction fs as [|f2 fs IH]; intros app c buf f Hwf Hcl.
  - simpl. rewrite app_nil_r. unfold prepend; simpl. rewrite app_nil_r. by destruct (process app c _).
  - change (concat (f :: f2 :: fs)) with (f ++ concat (f2 :: fs)) in *.
    rewrite zlen_app in Hwf. rewrite app_assoc in *.
    pose proof (zlen_nonneg (concat (f2 :: fs))) as Hnn.
    assert (Hwf1 : ctx_wf (zlen (concat (f2 :: fs))) c (buf ++ f)) by (by apply ctx_wf_app).
    pose proof (process_app _ app c (buf ++ f) (concat (f2 :: fs)) (Nat.lt_succ_diag_r _) Hwf1) as Hpa.
    cbn zeta in Hpa. pose proof (process_ctx_wf _ _ app c _ (Nat.lt_succ_diag_r _) Hwf1) as Hwf2.
    change (deliver app c buf (f :: f2 :: fs)) with
      (prepend (l_trace (process app c (buf ++ f)))
        (deliver (l_app (process app c (buf ++ f))) (l_ctx (process app c (buf ++ f)))
                 (l_in (process app c (buf ++ f))) (f2 :: fs))).
    destruct (closed (l_trace (process app c (buf ++ f)))) eqn:Ec; [congruence|].
    rewrite Hpa. apply prepend_equiv, IH; [done|].
    destruct Hpa as (_ & Ht & _). rewrite Ht in Hcl. simpl in Hcl. rewrite closed_app in Hcl.
    by apply orb_false_iff in Hcl as [_ ?].
Qed.

(** ** Pipelined requests *)
Definition request_bytes (rh : HttpRequest.HttpRequest * bytes) : bytes :=
  HttpRequest.request_head rh.1 rh.2 ++ HttpRequest.body_ rh.1.

(** A request a client may pipeline to this server: well formed, within the body
    limit, and not asking to close. *)
Definition pipelinable (c : HttpContext) (rh : HttpRequest.HttpRequest * bytes) : Prop :=
  sendable rh.1 rh.2 /\ within_cap c (zlen (HttpRequest.body_ rh.1)) /\
  HttpRequest.keepAlive (received rh.1 rh.2) = true.

Lemma process_pipeline rhs : forall app c,
  Forall (pipelinable c) rhs ->
  let st := process app (reset c) (concat (map request_bytes rhs)) in
  let sa := serve_all app (map (fun rh => received rh.1 rh.2) rhs) in
  l_trace st = sa.2 /\ l_app st = sa.1 /\ l_in st = [] /\ state_ (l_ctx st) = kExpectRequestLine.
Proof.
  induction rhs as [|rh rhs IH]; intros app c Hall; cbn zeta.
  - cbn [map concat]. rewrite process_unfold. by assert (parseRequest (reset c) [] = (true, reset c, [])) as -> by done.
  - apply Forall_cons in Hall as [(Hs & Hcap & Hka) Hall]. cbn [map concat].
    destruct (parse_request c rh.1 rh.2 (concat (map request_bytes rhs)) Hs Hcap)
      as (c1 & Hp & Hg & Hreq & Hmax).
    assert (Hst1 : process app (reset c) (request_bytes rh ++ concat (map request_bytes rhs)) =
      prepend (respond app (received rh.1 rh.2)).2
        (process (respond app (received rh.1 rh.2)).1 (reset c1) (concat (map request_bytes rhs)))).
    { unfold request_bytes at 1. rewrite <-app_assoc, process_unfold, Hp. simpl negb. cbn iota.
      by rewrite Hg, Hreq, Hka. }
    rewrite Hst1. assert (Hall1 : Forall (pipelinable c1) rhs).
    { eapply Forall_impl; [exact Hall|]. intros rh' (? & ? & ?). unfold pipelinable, within_cap in *.
      by rewrite Hmax. }
    destruct (IH (respond app (received rh.1 rh.2)).1 c1 Hall1) as (Ht & Ha & Hi & Hst).
    cbn [prepend l_trace l_app l_in l_ctx serve_all fst snd]. by rewrite Ht, Ha, Hi.
Qed.

End server.

(** ** The server's guarantees *)
#[local] Opaque process deliver.

(** The request loop terminates: with two iterations more than there are
    unread bytes, [processInput]'s loop ends, whatever the handler answers. *)
Theorem process_loop_total {S : Type} (h : option (S -> HttpRequest.HttpRequest -> HttpResponse -> S * HttpResponse))
    app c (buf : Buffer.Buffer) fuel :
  Buffer.buffer_wf buf -> (parseRequest c buf).1.1 = true ->
  2 + Buffer.readableBytes (parseRequest c buf).2 <= fuel ->
  process_loop h fuel (mkLoop app (parseRequest c buf).1.2 (parseRequest c buf).2 []) =
  Some (process h app c buf).
Proof.
  intros Hwf Hok Hf. assert (Hq : bq_wf buf) by exact Hwf. exact (process_run h app c buf fuel Hq Hok Hf).
Qed.

Definition echo_handler : option (nat -> HttpRequest.HttpRequest -> HttpResponse -> nat * HttpResponse) :=
  Some (fun n req resp => (n + 1, setBody (HttpRequest.path_ req) resp)).

Lemma process_loop_total_witness :
  let buf := Buffer.append (bs "GET / HTTP/1.1" ++ CRLF ++ CRLF) (Buffer.Buffer_new 4) in
  process_loop echo_handler 9 (mkLoop 0 (parseRequest HttpContext_new buf).1.2
                                 (parseRequest HttpContext_new buf).2 []) =
  Some (process echo_handler 0 HttpContext_new buf).
Proof.
  apply (process_loop_total echo_handler 0 HttpContext_new
           (Buffer.append (bs "GET / HTTP/1.1" ++ CRLF ++ CRLF) (Buffer.Buffer_new 4)) 9).
  - apply Buffer.append_spec, Buffer.new_wf.
  - by vm_compute.
  - vm_compute. lia.
Defined.



(** What the server answers does not depend on how TCP cuts the stream:
    delivering fragments one by one to the connection's buffer produces the same
    events and application state as processing all bytes at once, as long as
    that does not close the connection. *)
Theorem responses_any_segmentation {S : Type}
    (h : option (S -> HttpRequest.HttpRequest -> HttpResponse -> S * HttpResponse))
    app c n f fs :
  (zlen (concat (f :: fs)) < two64)%Z ->
  closed (l_trace (process h app (reset c) (concat (f :: fs)))) = false ->
  let whole := process h app (reset c) (concat (f :: fs)) in
  let cut := deliver h app (reset c) (Buffer.Buffer_new n) (f :: fs) in
  l_trace cut = l_trace whole /\ l_app cut = l_app whole.
Proof.
  intros Hlen Hcl. cbn zeta. pose proof (zlen_nonneg (concat (f :: fs))) as Hnn.
  destruct (reset_wf (zlen (concat (f :: fs))) c) as [Hwf _]; [done|].
  destruct (deliver_whole h fs app (reset c) [] f Hwf Hcl) as (Ha & Ht & _).
  assert (Hb : deliver h app (reset c) [] (f :: fs) =
               loop_bytes (deliver h app (reset c) (Buffer.Buffer_new n) (f :: fs))).
  { assert (Hq : bq_wf (Buffer.Buffer_new n)) by exact (Buffer.new_wf n).
    exact (deliver_bytes h (f :: fs) app (reset c) (Buffer.Buffer_new n) Hq). }
  rewrite Hb in Ha, Ht. rewrite app_nil_l in Ha, Ht. cbn [loop_bytes l_trace l_app] in Ha, Ht. split; [exact Ht|exact Ha].
Qed.

Lemma responses_any_segmentation_witness :
  let f := bs "GET /a HTTP/1.1" ++ [CR] in
  let fs := [[LF] ++ CRLF ++ bs "GET"; bs " /b HTTP/1.1" ++ CRLF ++ CRLF] in
  let whole := process echo_handler 0 (reset HttpContext_new) (concat (f :: fs)) in
  let cut := deliver echo_handler 0 (reset HttpContext_new) (Buffer.Buffer_new 8) (f :: fs) in
  l_trace cut = l_trace whole /\ l_app cut = l_app whole.
Proof.
  apply (responses_any_segmentation echo_handler 0 HttpContext_new 8 (bs "GET /a HTTP/1.1" ++ [CR])
           [[LF] ++ CRLF ++ bs "GET"; bs " /b HTTP/1.1" ++ CRLF ++ CRLF]).
  - by vm_compute.
  - by vm_compute.
Defined.

(** Pipelining: any number of keep-alive requests written back to back by
    [HttpRequest::appendTo] are all answered in one call, in order, and leave an
    empty buffer and a parser ready for the next request. *)
Theorem pipelined_requests {S : Type}
    (h : option (S -> HttpRequest.HttpRequest -> HttpResponse -> S * HttpResponse))
    app c rhs (buf : Buffer.Buffer) :
  Buffer.buffer_wf buf -> Buffer.content buf = concat (map request_bytes rhs) ->
  Forall (pipelinable c) rhs ->
  let st := process h app (reset c) buf in
  let sa := serve_all h app (map (fun rh => received rh.1 rh.2) rhs) in
  l_trace st = sa.2 /\ l_app st = sa.1 /\ Buffer.content (l_in st) = [] /\
  state_ (l_ctx st) = kExpectRequestLine.
Proof.
  intros Hwf Hc Hall. cbn zeta. pose proof (process_pipeline h rhs app c Hall) as Hp. cbn zeta in Hp.
  rewrite <-Hc in Hp. assert (Hq : bq_wf buf) by exact Hwf.
  pose proof (process_bytes h app (reset c) buf Hq) as Hb.
  change (bq_bytes buf) with (Buffer.content buf) in Hb. rewrite Hb in Hp.
  cbn [loop_bytes l_trace l_app l_in l_ctx] in Hp. exact Hp.
Qed.

Lemma pipelined_requests_witness :
  let rhs := [(demo_request, bs "h:80"); (demo_request, bs "h:80")] in
  let buf := Buffer.append (concat (map request_bytes rhs)) (Buffer.Buffer_new 4) in
  let st := process echo_handler 0 (reset HttpContext_new) buf in
  l_trace st = (serve_all echo_handler 0 (map (fun rh => received rh.1 rh.2) rhs)).2.
Proof.
  intros rhs buf. apply (pipelined_requests echo_handler 0 HttpContext_new rhs buf).
  - apply Buffer.append_spec, Buffer.new_wf.
  - by vm_compute.
  - repeat (constructor; [split_and!; [exact demo_sendable|by left|done]|]). constructor.
Defined.

(** A declared body above the limit is refused up front: the server sends
    the 413 response, reports 413 and closes, without running the handler and
    without waiting for the body. *)
Theorem declared_body_too_large {S : Type}
    (h : option (S -> HttpRequest.HttpRequest -> HttpResponse -> S * HttpResponse))
    app c r host (rest : bytes) :
  sendable r host -> (0 < HttpContext.max_body_bytes_ c < zlen (HttpRequest.body_ r))%Z ->
  let st := process h app (reset c) (HttpRequest.request_head r host ++ rest) in
  l_trace st = [Sent (errorResponse kTooLarge); Notified 413; Closed] /\ l_app st = app.
Proof.
  intros Hs Hmax. cbn zeta. rewrite process_unfold, parse_head by done.
  pose proof (at_blank_framing c r host Hs) as [Hte Hcl].
  assert (Est : state_ (at_blank c r host) = kExpectHeaders) by reflexivity.
  assert (Hm : HttpContext.max_body_bytes_ (at_blank c r host) = HttpContext.max_body_bytes_ c) by reflexivity.
  rewrite <-Hm in Hmax. revert Est Hte Hcl Hmax. generalize (at_blank c r host) as cb.
  intros cb Est Hte Hcl Hmax. rewrite parse_blank_line by done.
  assert (He : exists c', end_of_headers cb (CRLF ++ rest) = Fail c' rest /\ error_ c' = kTooLarge).
  { unfold end_of_headers. rewrite Hte, Hcl.
    assert (Hn : strtoul 10 (to_string (zlen (HttpRequest.body_ r))) = zlen (HttpRequest.body_ r)).
    { apply strtoul_to_string. split; [apply zlen_nonneg|apply Hs]. }
    assert (Hne : to_string (zlen (HttpRequest.body_ r)) <> []).
    { unfold to_string. case_if; [done|apply dec_nonempty]. }
    destruct (to_string (zlen (HttpRequest.body_ r))) as [|d ds]; [done|]. rewrite Hn.
    rewrite (proj2 (Z.ltb_lt 0 _)), (proj2 (Z.ltb_lt _ (zlen _))) by lia. eexists. by split. }
  destruct He as (c' & -> & He). simpl. unfold reject. by rewrite He.
Qed.

Lemma declared_body_too_large_witness :
  let st := process echo_handler 7 (reset (setMaxBodyBytes 4 HttpContext_new))
              (HttpRequest.request_head demo_request (bs "h:80") ++ bs "hello") in
  l_trace st = [Sent (errorResponse kTooLarge); Notified 413; Closed] /\ l_app st = 7.
Proof.
  apply (declared_body_too_large echo_handler 7 (setMaxBodyBytes 4 HttpContext_new) demo_request
           (bs "h:80") (bs "hello")).
  - exact demo_sendable.
  - by vm_compute.
Defined.

(** C35: finding: a keep-alive client that ends its chunked request as RFC 9112
    prescribes (last chunk, then an empty line) gets its response followed by a
    400 and a closed connection, whatever it sends next: the parser leaves the
    empty line in the buffer and reads it as the next request line. *)
Theorem chunked_keep_alive_rejected {S : Type}
    (h : option (S -> HttpRequest.HttpRequest -> HttpResponse -> S * HttpResponse))
    app c (next : bytes) :
  state_ c = kExpectChunkSize -> HttpRequest.keepAlive (request_ c) = true ->
  l_trace (process h app c (bs "0" ++ CRLF ++ CRLF ++ next)) =
  (respond h app (request_ c)).2 ++ [Sent (errorResponse kBadRequest); Notified 400; Closed].
Proof.
  intros Est Hka. rewrite process_unfold.
  rewrite parse_size_line by (done || by apply (bool_decide_eq_true_1 (_ ∉ _)); vm_compute).
  change (strtoul 16 (bs "0")) with 0%Z. rewrite Z.eqb_refl, parseRequest_done by done.
  simpl negb. cbn iota. set (c1 := c <| chunk_remaining_ := 0%Z |> <| state_ := kGotAll |>).
  change (gotAll c1) with true. change (request_ c1) with (request_ c). rewrite Hka. cbn iota.
  cbn [prepend l_trace]. rewrite process_unfold. destruct (blank_line_refused c1 next) as (c' & -> & He).
  simpl. unfold reject. by rewrite He.
Qed.

Lemma chunked_keep_alive_rejected_witness :
  let c := (HttpContext_new <| state_ := kExpectChunkSize |>)
             <| request_ := demo_request |> in
  l_trace (process echo_handler 0 c (bs "0" ++ CRLF ++ CRLF ++ bs "GET / HTTP/1.1" ++ CRLF ++ CRLF)) =
  (respond echo_handler 0 (request_ c)).2 ++ [Sent (errorResponse kBadRequest); Notified 400; Closed].
Proof.
  apply (chunked_keep_alive_rejected echo_handler 0 (HttpContext_new <| state_ := kExpectChunkSize |>
           <| request_ := demo_request |>) (bs "GET / HTTP/1.1" ++ CRLF ++ CRLF)); reflexivity.
Defined.
End HttpServer.
