(* ===== verification/Timestamp.v ===== *)
(** * Timestamps (logging/timestamp.h, logging/timestamp.cc)

    A timestamp is its [microSecondsSinceEpoch()], an unsigned 64-bit count; the
    comparison operators compare those counts. *)

From S2P Require Import Prelude.

Module Timestamp.
Open Scope cox_scope.

Abbreviation Timestamp := Z.

Definition kMicroSecondsPerSecond : Z := 1000 * 1000.
Definition MicroSecondsPerMillisecond : Z := 1000.

Definition invalid : Timestamp := 0%Z.
Definition valid (t : Timestamp) : bool := (0 <? t)%Z.
Definition millisecondsSinceEpoch (t : Timestamp) : Z := (t / MicroSecondsPerMillisecond)%Z.
Definition secondsSinceEpoch (t : Timestamp) : Z := (t / kMicroSecondsPerSecond)%Z.

Definition lt (a b : Timestamp) : bool := (a <? b)%Z.
Definition eq (a b : Timestamp) : bool := (a =? b)%Z.
Definition le (a b : Timestamp) : bool := negb (lt b a).

Definition addMilliseconds (t : Timestamp) (milliseconds : Z) : Timestamp :=
  t +64 (milliseconds *64 1000).

(** The two fields [gettimeofday] fills, as one count. *)
Definition now (tv_sec tv_usec : Z) : Timestamp := (tv_sec *64 kMicroSecondsPerSecond) +64 tv_usec.

Lemma addMilliseconds_exact t ms :
  (0 <= t)%Z -> (0 <= ms)%Z -> (t + ms * 1000 < two64)%Z -> addMilliseconds t ms = (t + ms * 1000)%Z.
Proof.
  intros. unfold addMilliseconds. rewrite (wrap64_id (ms * 1000)) by (unfold u64; lia).
  apply wrap64_id. unfold u64. lia.
Qed.
End Timestamp.
