(* ===== verification/TimerQueue.v ===== *)
(** * Timers (reactor/timer.h, reactor/timer_queue.h, reactor/timer_queue.cc)

    Timers are heap objects; the queue is the ordered set of (expiration,
    pointer) pairs.  Reading through a pointer that was deleted is undefined
    behaviour and makes the operation return [None].  User callbacks may add and
    cancel timers while they run, so a batch of expired timers is processed with
    the queue changing underneath. *)

From stdpp Require Import gmap.
From S2P Require Import Prelude StdMap Timestamp.
Import Timestamp.

Module TimerQueue.
Open Scope cox_scope.

Abbreviation addr := Z.

Record Timer := mkTimer {
  callback_ : option nat;   (* which callable; None for an empty function *)
  expiration_ : Timestamp;
  interval_ms_ : Z;
  repeat_ : bool;
  sequence_ : Z;
}.
#[export] Instance Timer_settable : Settable Timer := fun t =>
  mkTimer (callback_ t) (expiration_ t) (interval_ms_ t) (repeat_ t) (sequence_ t).

Record TimerId := mkTimerId {
  timer_ : option addr;
  id_sequence_ : Z;
}.

Definition Timer_new (cb : option nat) (when_ : Timestamp) (interval_ms seq : Z) : Timer :=
  mkTimer cb when_ interval_ms (0 <? interval_ms)%Z seq.

Definition restart (now : Timestamp) (t : Timer) : Timer :=
  t <| expiration_ := if repeat_ t then addMilliseconds now (interval_ms_ t) else invalid |>.

Abbreviation Entry := (Timestamp * addr)%type.

Record TimerQueue := mkTimerQueue {
  heap : gmap addr Timer;              (* the live Timer objects *)
  s_num_created_ : Z;
  timers_ : stdmap Entry unit;
  active_sequences_ : gset Z;
  cancelling_ : gset Z;
  calling_expired_callbacks_ : bool;
  timerfd_ : option Timestamp;         (* the time it is armed for *)
}.
#[export] Instance TimerQueue_settable : Settable TimerQueue := fun q =>
  mkTimerQueue (heap q) (s_num_created_ q) (timers_ q) (active_sequences_ q) (cancelling_ q)
    (calling_expired_callbacks_ q) (timerfd_ q).

Definition TimerQueue_new (num_created : Z) : TimerQueue :=
  mkTimerQueue ∅ num_created [] ∅ ∅ false None.

(** ** The kernel timer *)

(** [howMuchTimeFromNow]: the [timespec] (seconds, nanoseconds) until [when]. *)
Definition howMuchTimeFromNow (when_ now : Timestamp) : Z * Z :=
  let d := (to_i64 when_ - to_i64 now)%Z in
  let micros := if (d <? 1)%Z then 1%Z else d in
  (Z.quot micros kMicroSecondsPerSecond, (Z.rem micros kMicroSecondsPerSecond * 1000)%Z).

Definition resetTimerfd (expiration : Timestamp) (q : TimerQueue) : TimerQueue :=
  q <| timerfd_ := Some expiration |>.

(** ** Operations *)
Definition insert (t : addr) (when_ : Timestamp) (q : TimerQueue) : bool * TimerQueue :=
  let earliest_changed :=
    match timers_ q with [] => true | ((first, _), _) :: _ => lt when_ first end in
  (earliest_changed, q <| timers_ := minsert (when_, t) tt (timers_ q) |>).

Section queue.

(** [new Timer]: the address the allocator returns for the current heap. *)
Variable alloc : gmap addr Timer -> addr.

Definition addTimer (cb : option nat) (when_ : Timestamp) (interval_ms : Z) (q : TimerQueue)
    : TimerId * TimerQueue :=
  let a := alloc (heap q) in
  let seq := s_num_created_ q +64 1 in
  let t := Timer_new cb when_ interval_ms seq in
  let q1 := q <| heap := <[a := t]> (heap q) |> <| s_num_created_ := seq |> in
  let '(earliest_changed, q2) := insert a when_ q1 in
  let q3 := q2 <| active_sequences_ := {[seq]} ∪ active_sequences_ q2 |> in
  let q4 := if earliest_changed then resetTimerfd when_ q3 else q3 in
  (mkTimerId (Some a) seq, q4).

Definition cancel (id : TimerId) (q : TimerQueue) : option TimerQueue :=
  match timer_ id with
  | None => Some q
  | Some a =>
    match heap q !! a with
    | None => None  (* id.timer_->expiration() through a dangling pointer *)
    | Some t =>
      if mhas (expiration_ t, a) (timers_ q) then
        Some (q <| active_sequences_ := active_sequences_ q ∖ {[sequence_ t]} |>
                <| heap := delete a (heap q) |>
                <| timers_ := merase (expiration_ t, a) (timers_ q) |>)
      else if calling_expired_callbacks_ q
           then Some (q <| cancelling_ := {[id_sequence_ id]} ∪ cancelling_ q |>)
           else Some q
    end
  end.

Definition UINTPTR_MAX : Z := (two64 - 1)%Z.

(** The entries up to [upper_bound((now, UINTPTR_MAX))], and the others. *)
Fixpoint split_expired (now : Timestamp) (l : stdmap Entry unit) : list Entry * stdmap Entry unit :=
  match l with
  | [] => ([], [])
  | (e, u) :: l' =>
    match kcmp (now, UINTPTR_MAX) e with
    | Lt => ([], l)
    | _ => let r := split_expired now l' in (e :: r.1, r.2)
    end
  end.

Definition getExpired (now : Timestamp) (q : TimerQueue) : list Entry * TimerQueue :=
  let r := split_expired now (timers_ q) in (r.1, q <| timers_ := r.2 |>).

(** What a callback may do to the queue. *)
Inductive cb_op :=
| CAdd (cb : option nat) (when_ : Timestamp) (interval_ms : Z)
| CCancel (id : TimerId).

Definition run_op (op : cb_op) (q : TimerQueue) : option TimerQueue :=
  match op with
  | CAdd cb w i => Some (addTimer cb w i q).2
  | CCancel id => cancel id q
  end.

Fixpoint run_ops (ops : list cb_op) (q : TimerQueue) : option TimerQueue :=
  match ops with
  | [] => Some q
  | op :: ops' => match run_op op q with Some q' => run_ops ops' q' | None => None end
  end.

(** The callables' behaviour, given the queue they run in. *)
Variable acts : nat -> TimerQueue -> list cb_op.

(** [Timer::run] *)
Definition run (t : Timer) (q : TimerQueue) : option TimerQueue :=
  match callback_ t with None => Some q | Some cb => run_ops (acts cb q) q end.

(** The loop over the expired entries: the addresses whose timer ran, in order. *)
Fixpoint run_expired (expired : list Entry) (q : TimerQueue) : option (list addr * TimerQueue) :=
  match expired with
  | [] => Some ([], q)
  | (_, a) :: es =>
    match heap q !! a with
    | None => None
    | Some t =>
      if decide (sequence_ t ∈ cancelling_ q) then run_expired es q
      else
        match run t q with
        | None => None
        | Some q' =>
          match run_expired es q' with
          | None => None
          | Some (ran, q'') => Some (a :: ran, q'')
          end
        end
    end
  end.

(** The loop of [reset]: re-arm the repeating timers, delete the others. *)
Fixpoint rearm (expired : list Entry) (now : Timestamp) (q : TimerQueue) : option TimerQueue :=
  match expired with
  | [] => Some q
  | (_, a) :: es =>
    match heap q !! a with
    | None => None
    | Some t =>
      if repeat_ t && negb (bool_decide (sequence_ t ∈ cancelling_ q)) then
        let t' := restart now t in
        let q1 := q <| heap := <[a := t']> (heap q) |> in
        rearm es now (insert a (expiration_ t') q1).2
      else
        rearm es now (q <| active_sequences_ := active_sequences_ q ∖ {[sequence_ t]} |>
                        <| heap := delete a (heap q) |>)
    end
  end.

Definition reset (expired : list Entry) (now : Timestamp) (q : TimerQueue) : option TimerQueue :=
  match rearm expired now q with
  | None => None
  | Some q1 =>
    Some (match timers_ q1 with [] => q1 | ((first, _), _) :: _ => resetTimerfd first q1 end)
  end.

(** [handleRead]: the timerfd has expired, so it is no longer armed. *)
Definition handleRead (now : Timestamp) (q : TimerQueue) : option (list addr * TimerQueue) :=
  let '(expired, q1) := getExpired now (q <| timerfd_ := None |>) in
  let q2 := q1 <| calling_expired_callbacks_ := true |> <| cancelling_ := ∅ |> in
  match run_expired expired q2 with
  | None => None
  | Some (ran, q3) =>
    match reset expired now (q3 <| calling_expired_callbacks_ := false |>) with
    | None => None
    | Some q4 => Some (ran, q4)
    end
  end.

(** ** Splitting the expired timers off *)
Lemma split_expired_app now l : map fst l = (split_expired now l).1 ++ map fst (split_expired now l).2.
Proof.
  induction l as [|[e u] l IH]; [done|]. cbn [split_expired]. destruct (kcmp _ e); [|done|];
    cbn [map fst snd app]; by rewrite IH.
Qed.

Definition addr_ok (a : addr) : Prop := (0 <= a <= UINTPTR_MAX)%Z.

Lemma kcmp_sentinel now w a : addr_ok a -> kcmp (now, UINTPTR_MAX) (w, a) = Lt <-> (now < w)%Z.
Proof.
  intros Ha. rewrite kcmp_pair. change (kcmp now w) with (Z.compare now w).
  change (kcmp UINTPTR_MAX a) with (Z.compare UINTPTR_MAX a).
  destruct (Z.compare_spec now w).
  - rewrite Z.compare_lt_iff. unfold addr_ok in Ha. lia.
  - done.
  - split; [done|lia].
Qed.

Lemma split_expired_spec now l :
  msorted l -> Forall (fun e => addr_ok e.1.2) l ->
  Forall (fun e => (e.1 <= now)%Z) (split_expired now l).1 /\
  Forall (fun e => (now < e.1.1)%Z) (split_expired now l).2 /\ msorted (split_expired now l).2.
Proof.
  induction 1 as [|[[w a] u] l Hs IH Hf]; intros Ha; [by repeat constructor|].
  apply Forall_cons in Ha as [Ha Hl]. cbn [split_expired]. simpl in Ha.
  pose proof (kcmp_sentinel now w a Ha) as Hk.
  destruct (kcmp (now, UINTPTR_MAX) (w, a)) eqn:E; cbn [fst snd].
  2:{ split_and!; [constructor| |by constructor]. assert (now < w)%Z by (by apply Hk).
      constructor; [done|]. eapply Forall_impl; [exact Hf|].
      intros [[w' a'] u'] Hlt. simpl. unfold key_lt in Hlt. simpl in Hlt. rewrite kcmp_pair in Hlt.
      change (kcmp w w') with (Z.compare w w') in Hlt. destruct (Z.compare_spec w w'); [lia|lia|done]. }
  all: destruct (IH Hl) as (? & ? & ?); split_and!; [|done..]; constructor; [|done]; simpl;
    destruct (decide (now < w)%Z) as [Hlt|]; [apply Hk in Hlt; congruence|lia].
Qed.

(** ** The invariant

    [infl]: the entries taken out of the set by [getExpired] and not yet handled
    by [reset].  Pointers in the set are live and filed under their current
    expiration; every live timer is in the set or in flight (no leak). *)
Definition in_set (e : Entry) (q : TimerQueue) : Prop := is_Some (mlookup e (timers_ q)).

Record tq_wf (infl : list Entry) (q : TimerQueue) : Prop := {
  wf_sorted : msorted (timers_ q);
  wf_set w a : in_set (w, a) q -> exists t, heap q !! a = Some t /\ expiration_ t = w;
  wf_infl w a : (w, a) ∈ infl -> is_Some (heap q !! a) /\ forall w', ~ in_set (w', a) q;
  wf_nodup : NoDup (map snd infl);
  wf_heap a t : heap q !! a = Some t -> in_set (expiration_ t, a) q \/ a ∈ map snd infl;
  wf_addr a t : heap q !! a = Some t -> addr_ok a;
}.

(** [new] succeeds, with an address not in use, while there is room. *)
Definition room (h : gmap addr Timer) : Prop := (Z.of_nat (size h) < 2 ^ 40)%Z.
Hypothesis alloc_fresh : forall h, room h -> h !! alloc h = None /\ addr_ok (alloc h).

Lemma in_set_insert e w a q1 q :
  timers_ q1 = minsert (w, a) tt (timers_ q) -> in_set e q1 <-> e = (w, a) \/ in_set e q.
Proof.
  intros Ht. unfold in_set. rewrite Ht. destruct (decide (e = (w, a))) as [->|Hne].
  - rewrite mlookup_insert_eq. split; [by left|eauto].
  - rewrite mlookup_insert_ne by done. naive_solver.
Qed.

Lemma in_set_erase e k q1 q :
  timers_ q1 = merase k (timers_ q) -> in_set e q1 <-> e <> k /\ in_set e q.
Proof.
  intros Ht. unfold in_set. rewrite Ht. destruct (decide (e = k)) as [->|Hne].
  - rewrite mlookup_erase_eq. split; [intros []; done|naive_solver].
  - rewrite mlookup_erase_ne by done. naive_solver.
Qed.

Lemma addTimer_fields cb w i q :
  let q' := (addTimer cb w i q).2 in
  heap q' = <[alloc (heap q) := Timer_new cb w i (s_num_created_ q +64 1)]> (heap q) /\
  timers_ q' = minsert (w, alloc (heap q)) tt (timers_ q) /\ cancelling_ q' = cancelling_ q /\
  calling_expired_callbacks_ q' = calling_expired_callbacks_ q.
Proof. unfold addTimer. simpl. by destruct (match timers_ q with [] => _ | _ => _ end). Qed.

(** A new timer at a fresh address. *)
Lemma wf_add_entry infl q q' a t :
  tq_wf infl q -> heap q !! a = None -> addr_ok a ->
  heap q' = <[a := t]> (heap q) -> timers_ q' = minsert (expiration_ t, a) tt (timers_ q) ->
  tq_wf infl q'.
Proof.
  intros Hwf Hnone Ha Hh Ht.
  assert (Hset : forall e, in_set e q' <-> e = (expiration_ t, a) \/ in_set e q)
    by (intros e; by apply in_set_insert).
  assert (Hne : forall w, ~ in_set (w, a) q).
  { intros w (t' & Ht' & _)%(wf_set _ _ Hwf). congruence. }
  split.
  - rewrite Ht. apply msorted_insert, Hwf.
  - intros w b [[= -> ->]|Hb]%Hset; rewrite Hh.
    + exists t. by rewrite lookup_insert_eq.
    + destruct (wf_set _ _ Hwf _ _ Hb) as (t' & Hb' & He). exists t'.
      rewrite lookup_insert_ne by congruence. done.
  - intros w b Hb. destruct (wf_infl _ _ Hwf _ _ Hb) as [[t' Hl] Hn]. rewrite Hh. split.
    + rewrite lookup_insert_ne by congruence. eauto.
    + intros w' [[= _ ->]|Hin]%Hset; [congruence|by eapply Hn].
  - apply Hwf.
  - intros b t'. rewrite Hh. intros [[<- <-]|[Hn Hl]]%lookup_insert_Some.
    + left. apply Hset. by left.
    + destruct (wf_heap _ _ Hwf _ _ Hl); [left; apply Hset; by right|by right].
  - intros b t'. rewrite Hh. intros [[<- <-]|[Hn Hl]]%lookup_insert_Some; [done|].
    by eapply (wf_addr _ _ Hwf).
Qed.

Lemma wf_addTimer infl cb w i q :
  tq_wf infl q -> room (heap q) -> tq_wf infl (addTimer cb w i q).2.
Proof.
  intros Hwf Hroom. destruct (addTimer_fields cb w i q) as (Hh & Ht & _).
  destruct (alloc_fresh (heap q) Hroom).
  eapply (wf_add_entry infl q _ (alloc (heap q))); done.
Qed.

Definition op_ok (op : cb_op) (q : TimerQueue) : Prop :=
  match op with
  | CAdd _ _ _ => room (heap q)
  | CCancel id => match timer_ id with None => True | Some a => is_Some (heap q !! a) end
  end.

(** What callbacks cannot change: the timers in flight; and cancellations of
    this batch only accumulate. *)
Definition op_frame (infl : list Entry) (q q' : TimerQueue) : Prop :=
  (forall w a, (w, a) ∈ infl -> heap q' !! a = heap q !! a) /\ cancelling_ q ⊆ cancelling_ q' /\
  calling_expired_callbacks_ q' = calling_expired_callbacks_ q.

Lemma wf_cancel infl id q :
  tq_wf infl q -> op_ok (CCancel id) q ->
  exists q', cancel id q = Some q' /\ tq_wf infl q' /\ op_frame infl q q'.
Proof.
  intros Hwf Hok. unfold cancel. simpl in Hok. destruct (timer_ id) as [a|]; [|by eexists].
  destruct Hok as [t Ht]. rewrite Ht.
  destruct (mhas (expiration_ t, a) (timers_ q)) eqn:Em.
  2:{ destruct (calling_expired_callbacks_ q); eexists; (split; [reflexivity|]); [|done].
      split; [|split_and!; [done|set_solver|done]].
      destruct Hwf. split; try done. }
  eexists. split; [reflexivity|].
  assert (Hin : in_set (expiration_ t, a) q).
  { unfold mhas in Em. unfold in_set. destruct (mlookup _ _); [eauto|done]. }
  assert (Hset : forall q1 e, timers_ q1 = merase (expiration_ t, a) (timers_ q) ->
    in_set e q1 <-> e <> (expiration_ t, a) /\ in_set e q) by (intros; by apply in_set_erase).
  assert (Hfl : forall w, (w, a) ∉ infl).
  { intros w Hw. destruct (wf_infl _ _ Hwf _ _ Hw) as [_ Hn]. by eapply Hn. }
  split; [|split_and!; simpl; [|done|done]; intros w b Hb; rewrite lookup_delete_ne; [done|];
           intros <-; by eapply Hfl].
  split; simpl.
  - apply msorted_erase, Hwf.
  - intros w b [Hne Hb]%Hset; [|done]. destruct (wf_set _ _ Hwf _ _ Hb) as (t' & Hl & He).
    exists t'. rewrite lookup_delete_ne; [done|]. intros ->. congruence.
  - intros w b Hb. destruct (wf_infl _ _ Hwf _ _ Hb) as [Hs Hn]. split.
    + rewrite lookup_delete_ne; [done|]. intros ->. by eapply Hfl.
    + intros w' [_ Hw']%Hset; [by eapply Hn|done].
  - apply Hwf.
  - intros b t' [Hne Hl]%lookup_delete_Some. destruct (wf_heap _ _ Hwf _ _ Hl) as [Hb|Hb]; [|by right].
    left. apply Hset; [done|]. split; [|done]. congruence.
  - intros b t' [_ Hl]%lookup_delete_Some. by eapply (wf_addr _ _ Hwf).
Qed.

Lemma frame_refl infl q : op_frame infl q q.
Proof. by split_and!. Qed.

Lemma frame_trans infl q1 q2 q3 : op_frame infl q1 q2 -> op_frame infl q2 q3 -> op_frame infl q1 q3.
Proof.
  intros (H1 & C1 & F1) (H2 & C2 & F2). split_and!; [|set_solver|congruence].
  intros w a Ha. by rewrite (H2 w a Ha), (H1 w a Ha).
Qed.

Lemma wf_run_op infl op q :
  tq_wf infl q -> op_ok op q -> exists q', run_op op q = Some q' /\ tq_wf infl q' /\ op_frame infl q q'.
Proof.
  intros Hwf Hok. destruct op as [cb w i|id]; [|by apply wf_cancel].
  exists (addTimer cb w i q).2. split; [done|]. split; [by apply wf_addTimer|].
  destruct (addTimer_fields cb w i q) as (Hh & _ & Hc & Hf). destruct (alloc_fresh (heap q) Hok) as [Hn _].
  split_and!; [|by rewrite Hc|done]. intros w' a Ha. rewrite Hh.
  destruct (wf_infl _ _ Hwf _ _ Ha) as [[t Ht] _]. rewrite lookup_insert_ne; congruence.
Qed.

(** A callback that never cancels through a dangling pointer or runs out of memory. *)
Fixpoint ops_ok (ops : list cb_op) (q : TimerQueue) : Prop :=
  match ops with
  | [] => True
  | op :: ops' => op_ok op q /\ forall q', run_op op q = Some q' -> ops_ok ops' q'
  end.

Lemma wf_run_ops infl ops : forall q,
  tq_wf infl q -> ops_ok ops q -> exists q', run_ops ops q = Some q' /\ tq_wf infl q' /\ op_frame infl q q'.
Proof.
  induction ops as [|op ops IH]; intros q Hwf Hok; [eexists; by split_and!|].
  destruct Hok as [Hop Hrest]. destruct (wf_run_op infl op q Hwf Hop) as (q1 & Hr & Hwf1 & Hf1).
  simpl. rewrite Hr. destruct (IH q1 Hwf1 (Hrest q1 Hr)) as (q2 & Hr2 & Hwf2 & Hf2).
  exists q2. split_and!; [done|done|]. by eapply frame_trans.
Qed.

Hypothesis acts_ok : forall cb q, ops_ok (acts cb q) q.

Lemma wf_run infl t q : tq_wf infl q -> exists q', run t q = Some q' /\ tq_wf infl q' /\ op_frame infl q q'.
Proof.
  intros Hwf. unfold run. destruct (callback_ t) as [cb|]; [by apply wf_run_ops|].
  eexists. by split_and!.
Qed.

(** The batch: no undefined behaviour, timers run in order, and one that did not
    run was cancelled by a callback of the batch. *)
Lemma wf_run_expired infl es : forall q,
  tq_wf infl q -> es ⊆ infl ->
  exists ran q', run_expired es q = Some (ran, q') /\ tq_wf infl q' /\ op_frame infl q q' /\
    sublist ran (map snd es) /\
    (forall w a t, (w, a) ∈ es -> heap q !! a = Some t -> a ∈ ran \/ sequence_ t ∈ cancelling_ q').
Proof.
  induction es as [|[w a] es IH]; intros q Hwf Hsub.
  { exists [], q. split_and!; try done. by intros ??? ?%elem_of_nil. }
  assert (Hin : (w, a) ∈ infl) by (apply Hsub; by left).
  assert (Hsub' : es ⊆ infl) by (intros x Hx; apply Hsub; by right).
  destruct (wf_infl _ _ Hwf _ _ Hin) as [[t Ht] _]. cbn [run_expired]. rewrite Ht.
  case_decide as Hc.
  - destruct (IH q Hwf Hsub') as (ran & q' & Hr & Hwf' & Hf & Hsl & Hall). exists ran, q'.
    split; [done|]. split; [done|]. split; [exact Hf|]. split; [by constructor|].
    intros w' a' t' [[= -> ->]|Hin']%elem_of_cons Ht'; [|by eapply Hall].
    right. assert (t' = t) as -> by congruence. destruct Hf as (_ & Hsubc & _). by apply Hsubc.
  - destruct (wf_run infl t q Hwf) as (q1 & Hr1 & Hwf1 & Hf1). rewrite Hr1.
    destruct (IH q1 Hwf1 Hsub') as (ran & q' & Hr & Hwf' & Hf & Hsl & Hall). rewrite Hr.
    exists (a :: ran), q'. split; [done|]. split; [done|]. split; [by eapply frame_trans|].
    split; [by constructor|]. intros w' a' t' [[= -> ->]|Hin']%elem_of_cons Ht'; [left; by left|].
    destruct Hf1 as (Hh1 & _ & _). rewrite <-(Hh1 w' a') in Ht' by (by apply Hsub').
    destruct (Hall _ _ _ Hin' Ht'); [left; by right|by right].
Qed.

(** ** Re-arming *)
Lemma wf_cons_inv w a es q :
  tq_wf ((w, a) :: es) q -> (a ∉ map snd es) /\ is_Some (heap q !! a) /\ (forall w', ~ in_set (w', a) q).
Proof.
  intros Hwf. split.
  - pose proof (wf_nodup _ _ Hwf) as Hnd. cbn in Hnd. by apply NoDup_cons in Hnd as [? _].
  - apply (wf_infl _ _ Hwf w a). by left.
Qed.

(** An in-flight timer goes back into the set. *)
Lemma wf_rearm_one w a es t q q' :
  tq_wf ((w, a) :: es) q -> heap q' = <[a := t]> (heap q) ->
  timers_ q' = minsert (expiration_ t, a) tt (timers_ q) -> tq_wf es q'.
Proof.
  intros Hwf Hh Ht. destruct (wf_cons_inv _ _ _ _ Hwf) as (Hnotin & [t0 Ht0] & Hns).
  assert (Hset : forall e, in_set e q' <-> e = (expiration_ t, a) \/ in_set e q)
    by (intros e; by apply in_set_insert).
  split.
  - rewrite Ht. apply msorted_insert, Hwf.
  - intros w' b [[= -> ->]|Hb]%Hset; rewrite Hh.
    + exists t. by rewrite lookup_insert_eq.
    + rewrite lookup_insert_ne; [by apply (wf_set _ _ Hwf)|]. intros <-. by eapply Hns.
  - intros w' b Hb. destruct (wf_infl _ _ Hwf w' b) as [Hs Hn]; [by right|].
    assert (a <> b). { intros <-. apply Hnotin. apply list_elem_of_fmap. by exists (w', a). }
    rewrite Hh, lookup_insert_ne by done. split; [done|].
    intros w2 [[= _ ->]|Hw2]%Hset; [done|by eapply Hn].
  - pose proof (wf_nodup _ _ Hwf) as Hnd. cbn in Hnd. by apply NoDup_cons in Hnd as [_ ?].
  - intros b t'. rewrite Hh. intros [[<- <-]|[Hn Hl]]%lookup_insert_Some.
    + left. apply Hset. by left.
    + destruct (wf_heap _ _ Hwf _ _ Hl) as [?|Hin]; [left; apply Hset; by right|].
      cbn in Hin. apply elem_of_cons in Hin as [->|?]; [done|by right].
  - intros b t'. rewrite Hh. intros [[<- <-]|[Hn Hl]]%lookup_insert_Some; by eapply (wf_addr _ _ Hwf).
Qed.

(** An in-flight timer is deleted. *)
Lemma wf_delete_one w a es q q' :
  tq_wf ((w, a) :: es) q -> heap q' = delete a (heap q) -> timers_ q' = timers_ q -> tq_wf es q'.
Proof.
  intros Hwf Hh Ht. destruct (wf_cons_inv _ _ _ _ Hwf) as (Hnotin & [t0 Ht0] & Hns).
  assert (Hset : forall e, in_set e q' <-> in_set e q) by (intros e; unfold in_set; by rewrite Ht).
  split.
  - rewrite Ht. apply Hwf.
  - intros w' b Hb%Hset. rewrite Hh, lookup_delete_ne; [by apply (wf_set _ _ Hwf)|].
    intros <-. by eapply Hns.
  - intros w' b Hb. destruct (wf_infl _ _ Hwf w' b) as [Hs Hn]; [by right|].
    assert (a <> b). { intros <-. apply Hnotin. apply list_elem_of_fmap. by exists (w', a). }
    rewrite Hh, lookup_delete_ne by done. split; [done|]. intros w2 Hw2%Hset. by eapply Hn.
  - pose proof (wf_nodup _ _ Hwf) as Hnd. cbn in Hnd. by apply NoDup_cons in Hnd as [_ ?].
  - intros b t'. rewrite Hh. intros [Hne Hl]%lookup_delete_Some.
    destruct (wf_heap _ _ Hwf _ _ Hl) as [?|Hin]; [left; by apply Hset|].
    cbn in Hin. apply elem_of_cons in Hin as [->|?]; [done|by right].
  - intros b t'. rewrite Hh. intros [Hne Hl]%lookup_delete_Some. by eapply (wf_addr _ _ Hwf).
Qed.

(** What becomes of an expired timer. *)
Definition rearmed (now : Timestamp) (cancelled : gset Z) (t : Timer) (a : addr) (q' : TimerQueue) : Prop :=
  if repeat_ t && negb (bool_decide (sequence_ t ∈ cancelled))
  then heap q' !! a = Some (restart now t) /\ in_set (addMilliseconds now (interval_ms_ t), a) q'
  else heap q' !! a = None.

Lemma rearm_spec now es : forall q,
  tq_wf es q ->
  exists q', rearm es now q = Some q' /\ tq_wf [] q' /\
    calling_expired_callbacks_ q' = calling_expired_callbacks_ q /\
    (forall a, a ∉ map snd es -> heap q' !! a = heap q !! a /\ forall w, in_set (w, a) q' <-> in_set (w, a) q) /\
    (forall w a t, (w, a) ∈ es -> heap q !! a = Some t -> rearmed now (cancelling_ q) t a q').
Proof.
  induction es as [|[w a] es IH]; intros q Hwf.
  { exists q. split_and!; try done. by intros ??? ?%elem_of_nil. }
  destruct (wf_cons_inv _ _ _ _ Hwf) as (Hnotin & [t Ht] & Hns). cbn [rearm]. rewrite Ht.
  destruct (repeat_ t && negb (bool_decide (sequence_ t ∈ cancelling_ q))) eqn:Er.
  - set (q1 := (insert a (expiration_ (restart now t)) (q <| heap := <[a:=restart now t]> (heap q) |>)).2).
    assert (Hset : forall e, in_set e q1 <-> e = (expiration_ (restart now t), a) \/ in_set e q)
      by (intros e; by apply in_set_insert).
    destruct (IH q1) as (q' & Hr & Hwf' & Hc & Hout & Hin).
    { eapply wf_rearm_one; [exact Hwf|reflexivity..]. }
    exists q'. split; [done|]. split; [done|]. split; [done|]. split.
    + intros b Hb. cbn in Hb. apply not_elem_of_cons in Hb as [Hne Hb].
      destruct (Hout b Hb) as [Hl Hs]. rewrite Hl. simpl. rewrite lookup_insert_ne by done.
      split; [done|]. intros w'. rewrite Hs, Hset. naive_solver.
    + intros w' b t' [[= -> ->]|Hb]%elem_of_cons Ht'.
      * assert (t' = t) as -> by congruence. unfold rearmed. rewrite Er.
        destruct (Hout a Hnotin) as [Hl Hs]. rewrite Hl. simpl. rewrite lookup_insert_eq.
        split; [done|]. apply Hs, Hset. left. unfold restart. simpl.
        by apply andb_true_iff in Er as [-> _].
      * eapply Hin; [exact Hb|]. simpl. rewrite lookup_insert_ne; [done|].
        intros <-. apply Hnotin. apply list_elem_of_fmap. by exists (w', a).
  - set (q1 := q <| active_sequences_ := active_sequences_ q ∖ {[sequence_ t]} |> <| heap := delete a (heap q) |>).
    destruct (IH q1) as (q' & Hr & Hwf' & Hc & Hout & Hin).
    { eapply wf_delete_one; [exact Hwf|reflexivity..]. }
    exists q'. split; [done|]. split; [done|]. split; [done|]. split.
    + intros b Hb. cbn in Hb. apply not_elem_of_cons in Hb as [Hne Hb].
      destruct (Hout b Hb) as [Hl Hs]. rewrite Hl. simpl. rewrite lookup_delete_ne by done. done.
    + intros w' b t' [[= -> ->]|Hb]%elem_of_cons Ht'.
      * assert (t' = t) as -> by congruence. unfold rearmed. rewrite Er.
        destruct (Hout a Hnotin) as [Hl _]. rewrite Hl. simpl. by rewrite lookup_delete_eq.
      * eapply Hin; [exact Hb|]. simpl. rewrite lookup_delete_ne; [done|].
        intros <-. apply Hnotin. apply list_elem_of_fmap. by exists (w', a).
Qed.

(** ** Getting the expired timers *)
Lemma wf_getExpired now q :
  tq_wf [] q ->
  let r := getExpired now q in
  tq_wf r.1 r.2 /\ heap r.2 = heap q /\
  map fst (timers_ q) = r.1 ++ map fst (timers_ r.2) /\
  Forall (fun e => (e.1 <= now)%Z) r.1 /\ Forall (fun e => (now < e.1.1)%Z) (timers_ r.2).
Proof.
  intros Hwf. cbn zeta. unfold getExpired. cbn [fst snd].
  pose proof (wf_sorted _ _ Hwf) as Hs. pose proof (split_expired_app now (timers_ q)) as Happ.
  assert (Hok : Forall (fun e => addr_ok e.1.2) (timers_ q)).
  { apply Forall_forall. intros [[w a] u] Hin. simpl.
    destruct (wf_set _ _ Hwf w a) as (t & Ht & _); [|by eapply (wf_addr _ _ Hwf)].
    exists u. by apply elem_mlookup. }
  destruct (split_expired_spec now _ Hs Hok) as (Hle & Hgt & Hs').
  pose proof (msorted_NoDup _ Hs) as Hnd.
  set (es := (split_expired now (timers_ q)).1) in *. set (rest := (split_expired now (timers_ q)).2) in *.
  assert (Hset : forall e, in_set e q <-> e ∈ es \/ e ∈ map fst rest).
  { intros e. unfold in_set. by rewrite mlookup_elem_iff, Happ, elem_of_app by done. }
  assert (Hset' : forall e q', timers_ q' = rest -> in_set e q' <-> e ∈ map fst rest).
  { intros e q' Hq'. unfold in_set. by rewrite Hq', mlookup_elem_iff. }
  rewrite Happ in Hnd. apply NoDup_app in Hnd as (Hnd1 & Hdisj & Hnd2).
  assert (Huniq : forall w w' a, in_set (w, a) q -> in_set (w', a) q -> w = w').
  { intros w w' a (t & Ht & <-)%(wf_set _ _ Hwf) (t' & Ht' & <-)%(wf_set _ _ Hwf). congruence. }
  split; [|by split_and!]. split; simpl.
  - done.
  - intros w a Ha%Hset'; [|done]. apply (wf_set _ _ Hwf). apply Hset. by right.
  - intros w a Ha. assert (Hq : in_set (w, a) q) by (apply Hset; by left). split.
    + destruct (wf_set _ _ Hwf _ _ Hq) as (t & ? & _). eauto.
    + intros w' Hw'%Hset'; [|done]. assert (w = w') as <-.
      { eapply Huniq; [exact Hq|]. apply Hset. by right. }
      by eapply Hdisj.
  - apply NoDup_fmap_2_strong; [|done]. intros [w a] [w' a'] H1 H2. simpl. intros ->. f_equal.
    eapply Huniq; apply Hset; by left.
  - intros a t Ht. destruct (wf_heap _ _ Hwf _ _ Ht) as [Hin|Hin]; [|by apply elem_of_nil in Hin].
    apply Hset in Hin as [Hin|Hin]; [right; apply list_elem_of_fmap; by eexists (_, _)|].
    left. by apply Hset'.
  - intros a t Ht. by eapply (wf_addr _ _ Hwf).
Qed.

(** ** The timerfd *)
Definition armed_ok (q : TimerQueue) : Prop :=
  match mfirst (timers_ q) with
  | None => True
  | Some first => exists at_, timerfd_ q = Some at_ /\ (at_ <= first.1)%Z
  end.

Lemma armed_addTimer cb w i q : armed_ok q -> armed_ok (addTimer cb w i q).2.
Proof.
  unfold armed_ok. intros Hq. destruct (addTimer_fields cb w i q) as (_ & -> & _).
  rewrite mfirst_insert. unfold addTimer; simpl. destruct (timers_ q) as [|[[f b] u] l]; simpl in *.
  { eexists. split; [done|]. simpl. lia. }
  destruct Hq as (at_ & Hat & Hle). simpl in Hle. unfold lt in *.
  destruct (w <? f)%Z eqn:E; bool_prop; simpl.
  - rewrite kcmp_pair. change (kcmp w f) with (Z.compare w f). rewrite (proj2 (Z.compare_lt_iff w f)) by lia.
    eexists. split; [done|]. simpl. lia.
  - rewrite kcmp_pair. change (kcmp w f) with (Z.compare w f).
    destruct (Z.compare_spec w f); [destruct (kcmp _ b)|lia|]; exists at_; (split; [done|simpl; lia]).
Qed.

Lemma armed_cancel id q q' : msorted (timers_ q) -> armed_ok q -> cancel id q = Some q' -> armed_ok q'.
Proof.
  intros Hs Hq. unfold cancel. destruct (timer_ id) as [a|]; [|by intros [= <-]].
  destruct (heap q !! a) as [t|]; [|done]. case_if; [|case_if; by intros [= <-]].
  intros [= <-]. unfold armed_ok in *. simpl.
  pose proof (mfirst_erase (expiration_ t, a) (timers_ q) Hs) as Hf.
  destruct (mfirst (merase _ _)) as [[f1 b1]|]; [|done]. destruct Hf as ([f0 b0] & Hf0 & Hcmp).
  rewrite Hf0 in Hq. destruct Hq as (at_ & Hat & Hle). exists at_. split; [done|]. simpl in *.
  rewrite kcmp_pair in Hcmp. change (kcmp f0 f1) with (Z.compare f0 f1) in Hcmp.
  destruct (Z.compare_spec f0 f1); [lia|lia|done].
Qed.

(** ** The loop thread's steps *)
Inductive step : TimerQueue -> TimerQueue -> Prop :=
| step_op op q q' : op_ok op q -> run_op op q = Some q' -> step q q'
| step_fire now q ran q' : handleRead now q = Some (ran, q') -> step q q'.

Lemma handleRead_spec now q :
  tq_wf [] q ->
  exists ran q', handleRead now q = Some (ran, q') /\ tq_wf [] q' /\ armed_ok q' /\
    calling_expired_callbacks_ q' = false /\
    let expired := (getExpired now q).1 in
    sublist ran (map snd expired) /\
    exists cancelled, forall w a t, (w, a) ∈ expired -> heap q !! a = Some t ->
      (a ∈ ran \/ sequence_ t ∈ cancelled) /\ rearmed now cancelled t a q'.
Proof.
  intros Hwf. unfold handleRead. destruct (wf_getExpired now (q <| timerfd_ := None |>)) as (Hwf1 & Hh & _).
  { destruct Hwf. by split. }
  change ((getExpired now q).1) with ((getExpired now (q <| timerfd_ := None |>)).1).
  destruct (getExpired now (q <| timerfd_ := None |>)) as [es q1]. cbn [fst snd] in *.
  set (q2 := q1 <| calling_expired_callbacks_ := true |> <| cancelling_ := ∅ |>).
  assert (Hwf2 : tq_wf es q2) by (destruct Hwf1; by split).
  destruct (wf_run_expired es es q2 Hwf2 ltac:(done)) as (ran & q3 & Hr & Hwf3 & (Hfr & _ & _) & Hsub & Hran).
  rewrite Hr. set (q3' := q3 <| calling_expired_callbacks_ := false |>).
  assert (Hwf3' : tq_wf es q3') by (destruct Hwf3; by split).
  destruct (rearm_spec now es q3' Hwf3') as (q4 & Hre & Hwf4 & Hc4 & _ & Hin).
  unfold reset. rewrite Hre. eexists ran, _. split; [reflexivity|].
  split; [destruct (timers_ q4) as [|[[f b] u] l]; [done|]; destruct Hwf4; by split|].
  split; [unfold armed_ok; destruct (timers_ q4) as [|[[f b] u] l] eqn:E; simpl; rewrite E; simpl;
    [done|exists f; split; [done|lia]]|].
  split; [by destruct (timers_ q4) as [|[[f b] u] l]|]. split; [done|].
  exists (cancelling_ q3). intros w a t Ha Ht.
  assert (Ht2 : heap q2 !! a = Some t) by (simpl; by rewrite Hh). split; [by eapply Hran|].
  assert (Ht3 : heap q3' !! a = Some t) by (simpl; by rewrite (Hfr w a Ha)).
  pose proof (Hin w a t Ha Ht3) as Hre1. change (cancelling_ q3') with (cancelling_ q3) in Hre1.
  unfold rearmed in *. by destruct (timers_ q4) as [|[[f b] u] l].
Qed.

Lemma step_wf q q' : step q q' -> tq_wf [] q -> armed_ok q -> tq_wf [] q' /\ armed_ok q'.
Proof.
  intros [op q0 q1 Hok Hr|now q0 ran q1 Hr] Hwf Harm.
  - destruct (wf_run_op [] op q0 Hwf Hok) as (q2 & Hr2 & Hwf2 & _).
    rewrite Hr in Hr2. injection Hr2 as <-. split; [done|].
    destruct op as [cb w i|id]; [injection Hr as <-; by apply armed_addTimer|].
    eapply armed_cancel; [apply Hwf|done|exact Hr].
  - destruct (handleRead_spec now q0 Hwf) as (ran2 & q2 & Hr2 & Hwf2 & Harm2 & _).
    rewrite Hr in Hr2. by injection Hr2 as -> ->.
Qed.

Lemma reachable_wf n q : rtc step (TimerQueue_new n) q -> tq_wf [] q /\ armed_ok q.
Proof.
  intros Hr. assert (H0 : tq_wf [] (TimerQueue_new n) /\ armed_ok (TimerQueue_new n)).
  { split; [|done]. split; simpl; try done.
    - constructor.
    - intros w a [? ?]; done.
    - by intros w a ?%elem_of_nil.
    - constructor. }
  revert H0. induction Hr as [|q1 q2 q3 Hs Hr IH]; [done|]. intros [Hwf Harm]. apply IH. by eapply step_wf.
Qed.

End queue.

(** ** Guarantees *)

(** C9: memory safety and no lost timer: as long as user code does not cancel
    through a stale handle, no sequence of additions, cancellations and
    expirations (with callbacks that add and cancel timers themselves) touches a
    deleted timer; afterwards every live timer is filed in the set under its own
    expiration, none leaks, and the timerfd is armed no later than the earliest
    of them. *)
Theorem timer_queue_safe alloc acts n q :
  (forall h, room h -> h !! alloc h = None /\ addr_ok (alloc h)) ->
  (forall cb q, ops_ok alloc (acts cb q) q) ->
  rtc (step alloc acts) (TimerQueue_new n) q ->
  (forall a t, heap q !! a = Some t -> in_set (expiration_ t, a) q) /\
  (forall w a, in_set (w, a) q -> exists t, heap q !! a = Some t /\ expiration_ t = w) /\
  armed_ok q /\ (forall now, is_Some (handleRead alloc acts now q)).
Proof.
  intros Hal Hac Hr. destruct (reachable_wf alloc acts Hal Hac n q Hr) as [Hwf Harm].
  split; [|split; [apply Hwf|split; [done|]]].
  - intros a t Ht. destruct (wf_heap _ _ Hwf _ _ Ht) as [?|?%elem_of_nil]; done.
  - intros now. destruct (handleRead_spec alloc acts Hal Hac now q Hwf) as (ran & q' & -> & _). eauto.
Qed.

(** An allocator: the lowest address not in use. *)
Definition candidates (h : gmap addr Timer) : list addr := map Z.of_nat (seq 1 (S (size h))).
Definition first_free (h : gmap addr Timer) : addr :=
  default 0%Z (List.find (fun i => negb (bool_decide (is_Some (h !! i)))) (candidates h)).

Lemma first_free_ok h : room h -> h !! first_free h = None /\ addr_ok (first_free h).
Proof.
  intros Hroom. unfold first_free.
  destruct (List.find _ (candidates h)) as [i|] eqn:E; simpl.
  - apply List.find_some in E as [Hin Hb]. bool_prop.
    split; [by apply eq_None_not_Some|]. unfold candidates in Hin.
    apply in_map_iff in Hin as (n & <- & Hn%in_seq). unfold addr_ok, UINTPTR_MAX, room in *.
    rewrite two64_val. lia.
  - exfalso. assert (Hall : forall i, i ∈ candidates h -> is_Some (h !! i)).
    { intros i Hi. apply list_elem_of_In in Hi. pose proof (List.find_none _ _ E i Hi) as Hb.
      simpl in Hb. by bool_prop. }
    assert (Hnd : NoDup (candidates h)).
    { unfold candidates. apply NoDup_fmap_2; [apply _|]. apply NoDup_seq. }
    assert (Hsub : (list_to_set (candidates h) : gset addr) ⊆ dom h).
    { intros i Hi%elem_of_list_to_set. by apply elem_of_dom, Hall. }
    apply subseteq_size in Hsub. rewrite size_list_to_set in Hsub by done.
    rewrite size_dom in Hsub. unfold candidates in Hsub. rewrite length_map, length_seq in Hsub. lia.
Qed.

(** Callbacks that leave the timers alone. *)
Definition no_acts (cb : nat) (q : TimerQueue) : list cb_op := [].

Lemma timer_queue_safe_witness :
  let q := (addTimer first_free (Some 0) 100 5 (TimerQueue_new 0)).2 in
  armed_ok q /\ (forall now, is_Some (handleRead first_free no_acts now q)).
Proof.
  intros q. apply (timer_queue_safe first_free no_acts 0 q).
  - exact first_free_ok.
  - done.
  - eapply rtc_l; [|apply rtc_refl]. by apply (step_op _ _ (CAdd (Some 0) 100 5)).
Defined.

(** An expiration at [now] handles exactly the timers that are due, in
    order of expiration: every one of them runs unless a callback of the same
    batch cancelled it, none runs twice; a repeating timer that was not
    cancelled is due again one interval after [now], every other one is
    deleted; timers due later stay. *)
Theorem handleRead_batch alloc acts now q :
  (forall h, room h -> h !! alloc h = None /\ addr_ok (alloc h)) ->
  (forall cb q, ops_ok alloc (acts cb q) q) -> tq_wf [] q ->
  exists ran q' expired later,
    handleRead alloc acts now q = Some (ran, q') /\
    map fst (timers_ q) = expired ++ later /\
    Forall (fun e => (e.1 <= now)%Z) expired /\ Forall (fun e => (now < e.1)%Z) later /\
    sublist ran (map snd expired) /\ NoDup ran /\
    exists cancelled, forall w a t, (w, a) ∈ expired -> heap q !! a = Some t ->
      (a ∈ ran \/ sequence_ t ∈ cancelled) /\ rearmed now cancelled t a q'.
Proof.
  intros Hal Hac Hwf. destruct (wf_getExpired now q Hwf) as (Hwf1 & _ & Happ & Hle & Hgt).
  destruct (handleRead_spec alloc acts Hal Hac now q Hwf) as (ran & q' & Hr & _ & _ & _ & Hsub & Hc).
  exists ran, q', (getExpired now q).1, (map fst (timers_ (getExpired now q).2)).
  split_and!; try done.
  - apply Forall_fmap. exact Hgt.
  - eapply sublist_NoDup; [apply Hwf1|exact Hsub].
Qed.

Definition demo_queue : TimerQueue :=
  (addTimer first_free (Some 1) 300 0 (addTimer first_free (Some 0) 100 5 (TimerQueue_new 0)).2).2.

Lemma demo_queue_wf : tq_wf [] demo_queue.
Proof.
  apply (reachable_wf first_free no_acts first_free_ok ltac:(done) 0).
  eapply rtc_l; [by apply (step_op _ _ (CAdd (Some 0) 100 5))|].
  eapply rtc_l; [by apply (step_op _ _ (CAdd (Some 1) 300 0))|]. apply rtc_refl.
Qed.

Lemma handleRead_batch_witness :
  exists ran q' expired later,
    handleRead first_free no_acts 200 demo_queue = Some (ran, q') /\
    map fst (timers_ demo_queue) = expired ++ later /\ sublist ran (map snd expired).
Proof.
  destruct (handleRead_batch first_free no_acts 200 demo_queue) as (ran & q' & ex & la & ? & ? & _ & _ & ? & _);
    [exact first_free_ok|done|exact demo_queue_wf|]. by exists ran, q', ex, la.
Defined.

(** Finding: a handle outlives its timer.  After a one-shot timer has fired,
    cancelling it through the handle [addTimer] returned reads a deleted object;
    and when the allocator has given its address to a new timer, the new timer
    is cancelled instead (the sequence number in the handle and the set
    [active_sequences_] are not consulted). *)
Theorem stale_cancel :
  let '(id1, q1) := addTimer first_free (Some 0) 100 0 (TimerQueue_new 0) in
  match handleRead first_free no_acts 200 q1 with
  | Some (_, q2) =>
    cancel id1 q2 = None /\
    let '(id2, q3) := addTimer first_free (Some 1) 100 0 q2 in
    id_sequence_ id2 <> id_sequence_ id1 /\ active_sequences_ q3 = {[id_sequence_ id2]} /\
    exists q4, cancel id1 q3 = Some q4 /\ timers_ q4 = [] /\ heap q4 = ∅
  | None => False
  end.
Proof. vm_compute. split; [done|]. split; [done|]. split; [done|]. by eexists. Qed.

(** The relative time given to the kernel: never zero (which would disarm the
    timerfd), and exactly the distance when the expiration is in the future. *)
Lemma howMuchTimeFromNow_spec when_ now :
  (0 <= when_ < 2 ^ 63)%Z -> (0 <= now < 2 ^ 63)%Z ->
  let '(sec, nsec) := howMuchTimeFromNow when_ now in
  (0 <= sec)%Z /\ (0 <= nsec < 1000000000)%Z /\ (0 < sec \/ 0 < nsec)%Z /\
  (sec * 1000000 + nsec / 1000 = Z.max 1 (when_ - now))%Z.
Proof.
  intros Hw Hn. unfold howMuchTimeFromNow, to_i64.
  rewrite !(proj2 (Z.ltb_lt _ (2 ^ 63))) by lia. unfold kMicroSecondsPerSecond.
  change (1000 * 1000)%Z with 1000000%Z.
  set (m := if (when_ - now <? 1)%Z then 1%Z else (when_ - now)%Z).
  assert (Hm : m = Z.max 1 (when_ - now)) by (unfold m; case_if; lia).
  rewrite <-Hm. rewrite Z.quot_div_nonneg, Z.rem_mod_nonneg by lia.
  pose proof (Z.mod_pos_bound m 1000000 ltac:(lia)). pose proof (Z.div_mod m 1000000 ltac:(lia)).
  pose proof (Z.div_pos m 1000000 ltac:(lia) ltac:(lia)). rewrite Z.div_mul by lia. lia.
Qed.

End TimerQueue.
