(* ===== verification/EventLoop.v ===== *)
(** * The reactor: channels, the epoll poller, the event loop and loop threads
    (reactor/io_event.h, io_channel.h/.cc, poller/epoll_poller.cc,
    event_loop.h/.cc, event_loop_thread.h/.cc, event_loop_thread_pool.h/.cc) *)

From stdpp Require Import gmap.
From S2P Require Import Prelude.

(** ** Channels *)
Module Channel.

Definition IO_NONE : Z := 0.
Definition IO_READ : Z := Z.shiftl 1 0.
Definition IO_WRITE : Z := Z.shiftl 1 1.
Definition IO_ERROR : Z := Z.shiftl 1 2.

Inductive callback := ReadCallback | WriteCallback | ErrorCallback.

Record Channel := mkChannel {
  fd_ : Z;
  events_ : Z;
  revents_ : Z;
  tied_ : bool;
  has_read : bool;   (* readCallback_ is set *)
  has_write : bool;
  has_error : bool;
}.
#[export] Instance Channel_settable : Settable Channel := fun c =>
  mkChannel (fd_ c) (events_ c) (revents_ c) (tied_ c) (has_read c) (has_write c) (has_error c).

Definition Channel_new (fd : Z) : Channel := mkChannel fd IO_NONE IO_NONE false false false false.

Definition enable (bit : Z) (c : Channel) : Channel := c <| events_ := Z.lor (events_ c) bit |>.
Definition disable (bit : Z) (c : Channel) : Channel := c <| events_ := Z.land (events_ c) (Z.lnot bit) |>.
Definition enableRead (c : Channel) : Channel := enable IO_READ c.
Definition disableRead (c : Channel) : Channel := disable IO_READ c.
Definition enableWrite (c : Channel) : Channel := enable IO_WRITE c.
Definition disableWrite (c : Channel) : Channel := disable IO_WRITE c.
Definition enableError (c : Channel) : Channel := enable IO_ERROR c.
Definition disableError (c : Channel) : Channel := disable IO_ERROR c.
Definition disableAll (c : Channel) : Channel := c <| events_ := IO_NONE |>.
Definition setRevents (revents : Z) (c : Channel) : Channel := c <| revents_ := revents |>.

Definition flag (v bit : Z) : bool := negb (Z.land v bit =? 0)%Z.
Definition isReading (c : Channel) : bool := flag (events_ c) IO_READ.
Definition isWriting (c : Channel) : bool := flag (events_ c) IO_WRITE.

(** The callbacks [handleEventsGuarded] runs, in order. *)
Definition handleEventsGuarded (c : Channel) : list callback :=
  (if flag (revents_ c) IO_ERROR && has_error c then [ErrorCallback] else []) ++
  (if flag (revents_ c) IO_READ && has_read c then [ReadCallback] else []) ++
  (if flag (revents_ c) IO_WRITE && has_write c then [WriteCallback] else []).

(** [owner_alive]: [tie_.lock()] succeeds. *)
Definition handleEvents (owner_alive : bool) (c : Channel) : list callback :=
  if tied_ c then if owner_alive then handleEventsGuarded c else [] else handleEventsGuarded c.

Lemma flag_pow2 v i : (0 <= i)%Z -> flag v (Z.shiftl 1 i) = Z.testbit v i.
Proof.
  intros Hi. unfold flag. rewrite Z.shiftl_1_l.
  destruct (Z.testbit v i) eqn:E.
  - apply negb_true_iff, Z.eqb_neq. intros H0. apply (f_equal (fun z => Z.testbit z i)) in H0.
    rewrite Z.land_spec, E, Z.pow2_bits_true, Z.bits_0 in H0 by done. done.
  - apply negb_false_iff, Z.eqb_eq. apply Z.bits_inj'. intros n Hn.
    rewrite Z.land_spec, Z.pow2_bits_eqb, Z.bits_0 by done.
    destruct (Z.eqb_spec i n) as [->|]; [by rewrite E|by rewrite andb_false_r].
Qed.

Lemma flag_enable c i j :
  (0 <= i)%Z -> (0 <= j)%Z ->
  flag (events_ (enable (Z.shiftl 1 i) c)) (Z.shiftl 1 j) =
  bool_decide (i = j) || flag (events_ c) (Z.shiftl 1 j).
Proof.
  intros Hi Hj. rewrite !flag_pow2 by done. simpl. rewrite Z.lor_spec, Z.shiftl_1_l, Z.pow2_bits_eqb by done.
  case_bool_decide as E; [subst; by rewrite Z.eqb_refl, orb_true_r|].
  rewrite (proj2 (Z.eqb_neq i j)) by done. by rewrite orb_false_r.
Qed.

Lemma flag_disable c i j :
  (0 <= i)%Z -> (0 <= j)%Z ->
  flag (events_ (disable (Z.shiftl 1 i) c)) (Z.shiftl 1 j) =
  negb (bool_decide (i = j)) && flag (events_ c) (Z.shiftl 1 j).
Proof.
  intros Hi Hj. rewrite !flag_pow2 by done. simpl.
  rewrite Z.land_spec, Z.lnot_spec, Z.shiftl_1_l, Z.pow2_bits_eqb by done.
  case_bool_decide as E; [subst; by rewrite Z.eqb_refl, andb_false_r|].
  rewrite (proj2 (Z.eqb_neq i j)) by done. by rewrite andb_true_r.
Qed.
End Channel.

(** ** The epoll poller *)
Module EPollPoller.
Import Channel.

Definition EPOLLIN : Z := 1.
Definition EPOLLPRI : Z := 2.
Definition EPOLLOUT : Z := 4.
Definition EPOLLERR : Z := 8.
Definition EPOLLHUP : Z := 16.

Definition toEpollEvents (events : Z) : Z :=
  let ep := 0%Z in
  let ep := if flag events IO_READ then Z.lor ep EPOLLIN else ep in
  if flag events IO_WRITE then Z.lor ep EPOLLOUT else ep.

Definition toIOEvents (ep : Z) : Z :=
  let events := IO_NONE in
  let events := if flag ep (Z.lor EPOLLERR EPOLLHUP) then Z.lor events IO_ERROR else events in
  let events := if flag ep (Z.lor EPOLLIN EPOLLPRI) then Z.lor events IO_READ else events in
  if flag ep EPOLLOUT then Z.lor events IO_WRITE else events.

Inductive operation := EPOLL_CTL_ADD | EPOLL_CTL_MOD | EPOLL_CTL_DEL.

(** [channels_] and the kernel's interest list (fd to events); [perror_] counts
    the failed [epoll_ctl] calls. *)
Record EPollPoller := mkPoller {
  channels_ : gset Z;
  interest : gmap Z Z;
  events_size : nat;
  perror_ : nat;
}.

(** [epoll_ctl]: adding a present fd and changing or deleting an absent one fail. *)
Definition update (op : operation) (c : Channel) (p : EPollPoller) : EPollPoller :=
  let ev := toEpollEvents (events_ c) in
  let fail := mkPoller (channels_ p) (interest p) (events_size p) (S (perror_ p)) in
  match op, interest p !! fd_ c with
  | EPOLL_CTL_ADD, None | EPOLL_CTL_MOD, Some _ =>
    mkPoller (channels_ p) (<[fd_ c := ev]> (interest p)) (events_size p) (perror_ p)
  | EPOLL_CTL_DEL, Some _ =>
    mkPoller (channels_ p) (delete (fd_ c) (interest p)) (events_size p) (perror_ p)
  | _, _ => fail
  end.

Definition updateChannel (c : Channel) (p : EPollPoller) : EPollPoller :=
  if decide (fd_ c ∈ channels_ p) then update EPOLL_CTL_MOD c p
  else update EPOLL_CTL_ADD c
         (mkPoller ({[fd_ c]} ∪ channels_ p) (interest p) (events_size p) (perror_ p)).

Definition removeChannel (c : Channel) (p : EPollPoller) : EPollPoller :=
  if decide (fd_ c ∈ channels_ p)
  then update EPOLL_CTL_DEL c (mkPoller (channels_ p ∖ {[fd_ c]}) (interest p) (events_size p) (perror_ p))
  else p.

(** [poll]: the ready (channel, epoll events) pairs of a successful
    [epoll_wait] become the active channels; a full array is doubled. *)
Definition poll (ready : list (Channel * Z)) (p : EPollPoller) : list Channel * EPollPoller :=
  (map (fun ce => setRevents (toIOEvents ce.2) ce.1) ready,
   if length ready =? events_size p
   then mkPoller (channels_ p) (interest p) (events_size p * 2) (perror_ p) else p).

Definition poller_new : EPollPoller := mkPoller ∅ ∅ 64 0.

Inductive step : EPollPoller -> EPollPoller -> Prop :=
| step_update c p : step p (updateChannel c p)
| step_remove c p : step p (removeChannel c p)
| step_poll ready p : length ready <= events_size p -> step p (poll ready p).2.

Definition in_sync (p : EPollPoller) : Prop :=
  dom (interest p) = channels_ p /\ perror_ p = 0 /\ 0 < events_size p.

Lemma update_sync c p :
  in_sync p -> in_sync (updateChannel c p) /\
  interest (updateChannel c p) !! fd_ c = Some (toEpollEvents (events_ c)).
Proof.
  intros (Hd & Hp & Hs). unfold updateChannel, in_sync. case_decide as Hc; unfold update; simpl.
  - rewrite <-Hd in Hc. pose proof Hc as [ev Hev]%elem_of_dom. rewrite Hev. simpl.
    rewrite lookup_insert_eq, dom_insert_L. split_and!; try done. set_solver.
  - assert (Hn : interest p !! fd_ c = None) by (apply not_elem_of_dom; by rewrite Hd).
    rewrite Hn. simpl. rewrite lookup_insert_eq, dom_insert_L. split_and!; try done. set_solver.
Qed.

Lemma remove_sync c p : in_sync p -> in_sync (removeChannel c p) /\ interest (removeChannel c p) !! fd_ c = None.
Proof.
  intros (Hd & Hp & Hs). unfold removeChannel. case_decide as Hc.
  - unfold update, in_sync; simpl. rewrite <-Hd in Hc. pose proof Hc as [ev Hev]%elem_of_dom. rewrite Hev.
    simpl. rewrite lookup_delete_eq, dom_delete_L. split_and!; try done. set_solver.
  - split; [by split_and!|]. apply not_elem_of_dom. by rewrite Hd.
Qed.

Lemma step_sync p p' : step p p' -> in_sync p -> in_sync p'.
Proof.
  intros [c q|c q|ready q Hlen] Hsy.
  - by apply update_sync.
  - by apply remove_sync.
  - unfold poll; simpl. case_if; [|done]. destruct Hsy as (? & ? & ?). unfold in_sync; simpl.
    split_and!; [done|done|lia].
Qed.

Lemma reachable_sync p : rtc step poller_new p -> in_sync p.
Proof.
  intros Hr. assert (H0 : in_sync poller_new) by (split_and!; [set_solver|done|simpl; lia]).
  revert H0. induction Hr; [done|]. eauto using step_sync.
Qed.

(** The poller never issues a failing [epoll_ctl]: in every state reachable
    by registrations, updates, removals and polls (of descriptors closed only
    after removal), the kernel's interest list is exactly the registered
    descriptors, each with the events its channel last asked for. *)
Theorem epoll_in_sync p c :
  rtc step poller_new p ->
  perror_ p = 0 /\ dom (interest p) = channels_ p /\
  interest (updateChannel c p) !! fd_ c = Some (toEpollEvents (events_ c)) /\
  perror_ (updateChannel c p) = 0 /\ perror_ (removeChannel c p) = 0 /\
  interest (removeChannel c p) !! fd_ c = None.
Proof.
  intros Hr. pose proof (reachable_sync p Hr) as Hs. destruct (update_sync c p Hs) as [(_ & Hu & _) Hi].
  destruct (remove_sync c p Hs) as [(_ & Hrm & _) Hd]. destruct Hs as (? & ? & _). by split_and!.
Qed.

Lemma epoll_in_sync_witness :
  let c := enableRead (Channel_new 5) in
  let p := updateChannel c poller_new in
  perror_ p = 0 /\ dom (interest p) = channels_ p.
Proof.
  intros c p. destruct (epoll_in_sync p c) as (? & ? & _); [|by split].
  eapply rtc_l; [apply step_update|apply rtc_refl].
Defined.

(** Readiness asked for comes back as the same events. *)
Lemma epoll_events_roundtrip (r w : bool) :
  let ev := Z.lor (if r then IO_READ else IO_NONE) (if w then IO_WRITE else IO_NONE) in
  toIOEvents (toEpollEvents ev) = ev.
Proof. by destruct r, w. Qed.
End EPollPoller.

(** ** The event loop's task queue *)
Module EventLoop.

(** A task, as what it does to the loop when run on the loop thread: queue a
    task, run one through [runInLoop], quit, or throw. *)
Inductive task := Task (id : nat) (body : list task_op)
with task_op := QueueInLoop (t : task) | RunInLoop (t : task) | Quit | Throw.

Definition task_id (t : task) : nat := match t with Task id _ => id end.

Record EventLoop := mkLoop {
  pending_tasks_ : list task;
  wakeups : nat;               (* the eventfd counter *)
  wakeup_fd_open : bool;       (* wakeup_fd_ >= 0 *)
  quit_ : bool;
  processing_channel_ : option nat;
  iterations_ : Z;
}.
#[export] Instance EventLoop_settable : Settable EventLoop := fun l =>
  mkLoop (pending_tasks_ l) (wakeups l) (wakeup_fd_open l) (quit_ l) (processing_channel_ l) (iterations_ l).

Definition wakeup (l : EventLoop) : EventLoop :=
  if wakeup_fd_open l then l <| wakeups := S (wakeups l) |> else l.

(** A single read drains the eventfd counter. *)
Definition handleWakeup (l : EventLoop) : EventLoop := l <| wakeups := 0 |>.

Definition queueInLoop (in_loop_thread : bool) (t : task) (l : EventLoop) : EventLoop :=
  let l1 := l <| pending_tasks_ := pending_tasks_ l ++ [t] |> in
  if negb in_loop_thread || bool_decide (is_Some (processing_channel_ l1)) then wakeup l1 else l1.

Definition quit (in_loop_thread : bool) (l : EventLoop) : EventLoop :=
  let l1 := l <| quit_ := true |> in if in_loop_thread then l1 else wakeup l1.

(** Perform operations in order until one throws. *)
Definition seq_ops (f : task_op -> EventLoop -> list nat * EventLoop * bool) :=
  fix go (ops : list task_op) (l : EventLoop) : list nat * EventLoop * bool :=
    match ops with
    | [] => ([], l, false)
    | op :: ops' =>
      let '(s1, l1, threw1) := f op l in
      if threw1 then (s1, l1, true)
      else let '(s2, l2, threw2) := go ops' l1 in (s1 ++ s2, l2, threw2)
    end.

(** Run a task on the loop thread: the tasks started (it and those it runs
    inline), the loop after, and whether it ended by an exception. *)
Fixpoint run_task (t : task) (l : EventLoop) : list nat * EventLoop * bool :=
  match t with
  | Task id body =>
    let '(started, l', threw) :=
      seq_ops (fun op l =>
        match op with
        | QueueInLoop t' => ([], queueInLoop true t' l, false)
        | RunInLoop t' => run_task t' l
        | Quit => ([], quit true l, false)
        | Throw => ([], l, true)
        end) body l in
    (id :: started, l', threw)
  end.

(** [runInLoop] *)
Definition runInLoop (in_loop_thread : bool) (t : task) (l : EventLoop) : list nat * EventLoop * bool :=
  if in_loop_thread then run_task t l else ([], queueInLoop false t l, false).

(** The loop over the swapped-out queue; exceptions are logged and dropped. *)
Fixpoint run_tasks (ts : list task) (l : EventLoop) : list nat * EventLoop :=
  match ts with
  | [] => ([], l)
  | t :: ts' =>
    let '(s1, l1, _) := run_task t l in
    let '(s2, l2) := run_tasks ts' l1 in (s1 ++ s2, l2)
  end.

Definition doPendingTasks (l : EventLoop) : list nat * EventLoop :=
  run_tasks (pending_tasks_ l) (l <| pending_tasks_ := [] |>).

(** Dispatch the active channels; an exception of a handler leaves [loop()]. *)
Fixpoint dispatch (active : list (nat * task)) (l : EventLoop) : list nat * EventLoop * bool :=
  match active with
  | [] => ([], l, false)
  | (ch, handler) :: active' =>
    let '(s1, l1, threw) := run_task handler (l <| processing_channel_ := Some ch |>) in
    if threw then (s1, l1, true)
    else let '(s2, l2, threw2) := dispatch active' l1 in (s1 ++ s2, l2, threw2)
  end.

(** One iteration of [loop()] after [poll] returned [active]. *)
Definition iterate (active : list (nat * task)) (l : EventLoop) : list nat * EventLoop * bool :=
  let l0 := l <| iterations_ := wrap64 (iterations_ l + 1) |> in
  let '(s1, l1, threw) := dispatch active l0 in
  if threw then (s1, l1, true)
  else
    let '(s2, l2) := doPendingTasks (l1 <| processing_channel_ := None |>) in
    (s1 ++ s2, l2, false).

(** [poll] blocks when no descriptor is ready: here, when the eventfd is not. *)
Definition poll_blocks (l : EventLoop) : bool := wakeups l =? 0.

(** ** What a task does, independent of the loop's state *)
Definition seq_effects (f : task_op -> list nat * list task * bool) :=
  fix go (ops : list task_op) : list nat * list task * bool :=
    match ops with
    | [] => ([], [], false)
    | op :: ops' =>
      let '(s1, q1, threw1) := f op in
      if threw1 then (s1, q1, true)
      else let '(s2, q2, threw2) := go ops' in (s1 ++ s2, q1 ++ q2, threw2)
    end.

Fixpoint effects (t : task) : list nat * list task * bool :=
  match t with
  | Task id body =>
    let '(started, queued, threw) :=
      seq_effects (fun op =>
        match op with
        | QueueInLoop t' => ([], [t'], false)
        | RunInLoop t' => effects t'
        | Quit => ([], [], false)
        | Throw => ([], [], true)
        end) body in
    (id :: started, queued, threw)
  end.

(** The tasks [t] starts (itself first) and the tasks it queues. *)
Definition started (t : task) : list nat := (effects t).1.1.
Definition queued (t : task) : list task := (effects t).1.2.

Lemma queueInLoop_pending b t l :
  pending_tasks_ (queueInLoop b t l) = pending_tasks_ l ++ [t] /\
  processing_channel_ (queueInLoop b t l) = processing_channel_ l.
Proof. unfold queueInLoop, wakeup; simpl. by destruct (negb b || _), (wakeup_fd_open l). Qed.

(** [P] of every task an operation of [ops] mentions. *)
Fixpoint ops_forall (P : task -> Prop) (ops : list task_op) : Prop :=
  match ops with
  | [] => True
  | QueueInLoop t :: ops' | RunInLoop t :: ops' => P t /\ ops_forall P ops'
  | _ :: ops' => ops_forall P ops'
  end.

Lemma ops_forall_elem P ops t :
  ops_forall P ops -> QueueInLoop t ∈ ops \/ RunInLoop t ∈ ops -> P t.
Proof.
  induction ops as [|op ops IH]; [intros _ [H|H]; by apply elem_of_nil in H|].
  intros Hall [[<-|H]%elem_of_cons|[<-|H]%elem_of_cons]; try destruct op; simpl in Hall; intuition.
Qed.

Lemma task_deep_ind (P : task -> Prop) :
  (forall id body, (forall t, QueueInLoop t ∈ body \/ RunInLoop t ∈ body -> P t) -> P (Task id body)) ->
  forall t, P t.
Proof.
  intros Hstep. fix IH 1. intros [id body]. apply Hstep. intros t. apply ops_forall_elem. clear t.
  induction body as [|[t|t| |] body IHb]; simpl; [exact I| | |exact IHb|exact IHb]; (split; [apply IH|exact IHb]).
Qed.

(** The effects [e] describe what [r] did to [l]. *)
Definition described (l : EventLoop) (r : list nat * EventLoop * bool) (e : list nat * list task * bool) : Prop :=
  r.1.1 = e.1.1 /\ r.2 = e.2 /\ pending_tasks_ r.1.2 = pending_tasks_ l ++ e.1.2 /\
  processing_channel_ r.1.2 = processing_channel_ l.

Lemma seq_described f g ops : forall l,
  (forall op l, op ∈ ops -> described l (f op l) (g op)) ->
  described l (seq_ops f ops l) (seq_effects g ops).
Proof.
  induction ops as [|op ops IH]; intros l Hall; [by repeat split; simpl; rewrite ?app_nil_r|].
  pose proof (Hall op l ltac:(by left)) as H1. cbn [seq_ops seq_effects].
  destruct (f op l) as [[s1 l1] th1], (g op) as [[s1' q1] th1'].
  destruct H1 as (Hs & Ht & Hp & Hc). simpl in Hs, Ht, Hp, Hc. subst. destruct th1'; [by repeat split|].
  specialize (IH l1 ltac:(intros; apply Hall; by right)).
  change ((fix go (ops : list task_op) (l : EventLoop) {struct ops} : list nat * EventLoop * bool := _) ops l1)
    with (seq_ops f ops l1).
  change ((fix go (ops : list task_op) : list nat * list task * bool := _) ops) with (seq_effects g ops).
  destruct (seq_ops f ops l1) as [[s2 l2] th2], (seq_effects g ops) as [[s2' q2] th2'].
  destruct IH as (Hs & Ht & Hp2 & Hc2). simpl in Hs, Ht, Hp2, Hc2. subst.
  split_and!; simpl; [done|done| |congruence]. by rewrite Hp2, Hp, app_assoc.
Qed.

Lemma run_task_effects t : forall l, described l (run_task t l) (effects t).
Proof.
  induction t as [id body IH] using task_deep_ind. intros l. cbn [run_task effects].
  match goal with |- context [seq_ops ?f body l] => match goal with |- context [seq_effects ?g body] =>
    pose proof (seq_described f g body l) as Hs; set (f0 := f) in *; set (g0 := g) in * end end.
  destruct (seq_ops f0 body l) as [[s l'] th], (seq_effects g0 body) as [[s' q'] th'].
  destruct Hs as (Hs & Ht & Hp & Hc).
  { intros op l0 Hop. destruct op as [t|t| |]; unfold f0, g0.
    - destruct (queueInLoop_pending true t l0). by repeat split.
    - apply IH. by right.
    - by repeat split; simpl; rewrite ?app_nil_r.
    - by repeat split; simpl; rewrite ?app_nil_r. }
  simpl in Hs, Ht, Hp, Hc. subst. by repeat split.
Qed.

Lemma run_tasks_effects ts : forall l,
  let r := run_tasks ts l in
  r.1 = concat (map started ts) /\ pending_tasks_ r.2 = pending_tasks_ l ++ concat (map queued ts) /\
  processing_channel_ r.2 = processing_channel_ l.
Proof.
  induction ts as [|t ts IH]; intros l; [cbn; by rewrite app_nil_r|]. cbn [run_tasks].
  destruct (run_task_effects t l) as (Hs & _ & Hp & Hc). destruct (run_task t l) as [[s1 l1] th1].
  destruct (IH l1) as (Hs2 & Hp2 & Hc2). destruct (run_tasks ts l1) as [s2 l2]. cbn in *.
  rewrite Hs2, Hp2, Hc2, Hp, Hs, Hc, <-app_assoc. done.
Qed.

(** Queued tasks run once, in FIFO order, and an exception in one does not
    stop the others; a task queued while they run is never run inline but left,
    in order, for a later iteration. *)
Theorem doPendingTasks_fifo l :
  (doPendingTasks l).1 = concat (map started (pending_tasks_ l)) /\
  pending_tasks_ (doPendingTasks l).2 = concat (map queued (pending_tasks_ l)).
Proof.
  unfold doPendingTasks. by destruct (run_tasks_effects (pending_tasks_ l) (l <| pending_tasks_ := [] |>))
    as (-> & -> & _).
Qed.

(** A task queued from another thread wakes the loop up. *)
Lemma cross_thread_wakes t l :
  wakeup_fd_open l = true -> poll_blocks (queueInLoop false t l) = false.
Proof. intros Ho. unfold queueInLoop, poll_blocks, wakeup; simpl. by rewrite Ho. Qed.

(** Operations of the loop thread outside channel dispatch do not signal. *)
Lemma run_task_no_wakeup t : forall l,
  processing_channel_ l = None ->
  wakeups (run_task t l).1.2 = wakeups l /\ wakeup_fd_open (run_task t l).1.2 = wakeup_fd_open l.
Proof.
  induction t as [id body IH] using task_deep_ind. intros l Hl. cbn [run_task].
  match goal with |- context [seq_ops ?f body l] => set (f0 := f) end.
  assert (Hseq : forall ops, (forall t, RunInLoop t ∈ ops -> RunInLoop t ∈ body) -> forall l, processing_channel_ l = None ->
    let r := seq_ops f0 ops l in wakeups r.1.2 = wakeups l /\ wakeup_fd_open r.1.2 = wakeup_fd_open l).
  { induction ops as [|op ops IHo]; intros Hsub l0 Hl0; [done|]. cbn [seq_ops].
    assert (H1 : wakeups (f0 op l0).1.2 = wakeups l0 /\ wakeup_fd_open (f0 op l0).1.2 = wakeup_fd_open l0 /\
                 processing_channel_ (f0 op l0).1.2 = None).
    { destruct op as [t|t| |]; unfold f0; simpl; try done.
      - unfold queueInLoop; simpl. by rewrite Hl0.
      - destruct (IH t ltac:(right; apply Hsub; by left) l0 Hl0).
        destruct (run_task_effects t l0) as (_ & _ & _ & Hc). by rewrite Hc. }
    destruct (f0 op l0) as [[s1 l1] th1]. simpl in H1. destruct H1 as (H1 & H2 & H3).
    destruct th1; [done|]. specialize (IHo ltac:(intros; apply Hsub; by right) l1 H3).
    change ((fix go (ops : list task_op) (l : EventLoop) {struct ops} : list nat * EventLoop * bool := _) ops l1)
      with (seq_ops f0 ops l1).
    destruct (seq_ops f0 ops l1) as [[s2 l2] th2]. simpl in *. destruct IHo. split; congruence. }
  specialize (Hseq body ltac:(done) l Hl). destruct (seq_ops f0 body l) as [[s2 l2] th2]. exact Hseq.
Qed.

Lemma run_tasks_no_wakeup ts : forall l,
  processing_channel_ l = None -> wakeups (run_tasks ts l).2 = wakeups l.
Proof.
  induction ts as [|t ts IH]; intros l Hl; [done|]. cbn [run_tasks].
  destruct (run_task_no_wakeup t l Hl) as [Hw _]. destruct (run_task_effects t l) as (_ & _ & _ & Hc).
  destruct (run_task t l) as [[s1 l1] th1]. simpl in *. specialize (IH l1 ltac:(congruence)).
  destruct (run_tasks ts l1). simpl in *. congruence.
Qed.

(** Finding: a lost wakeup.  A task queued by a pending task (rather than by
    a channel handler) is not signalled: after the iteration the task is still
    pending, yet nothing makes the next [poll] return, so it waits for the poll
    timeout (or for ever where there is none). *)
Theorem queue_from_task_not_woken l id t rest :
  pending_tasks_ l = Task id [QueueInLoop t] :: rest -> wakeups l = 0 ->
  let '(_, l', _) := iterate [] l in
  t ∈ pending_tasks_ l' /\ poll_blocks l' = true.
Proof.
  intros Hp Hw. unfold iterate. cbn [dispatch].
  set (l1 := (l <| iterations_ := wrap64 (iterations_ l + 1) |>) <| processing_channel_ := None |>).
  destruct (run_tasks_effects (pending_tasks_ l1) (l1 <| pending_tasks_ := [] |>)) as (_ & Hq & _).
  pose proof (run_tasks_no_wakeup (pending_tasks_ l1) (l1 <| pending_tasks_ := [] |>) eq_refl) as Hn.
  unfold doPendingTasks. destruct (run_tasks _ _) as [s2 l2]. simpl in Hq, Hn.
  change (pending_tasks_ l1) with (pending_tasks_ l) in Hq. rewrite Hp in Hq. split.
  - rewrite Hq. simpl. by left.
  - unfold poll_blocks. rewrite Hn. change (wakeups l1) with (wakeups l). by rewrite Hw.
Qed.

Lemma queue_from_task_not_woken_witness :
  let t := Task 2 [] in
  let l := mkLoop [Task 1 [QueueInLoop t]] 0 true false None 0 in
  let '(_, l', _) := iterate [] l in
  t ∈ pending_tasks_ l' /\ poll_blocks l' = true.
Proof.
  apply (queue_from_task_not_woken (mkLoop [Task 1 [QueueInLoop (Task 2 [])]] 0 true false None 0) 1 (Task 2 []) []);
    reflexivity.
Defined.

End EventLoop.

(** ** A loop thread *)
Module EventLoopThread.

(** [thread_]: not started, running [threadFunc], or finished but not joined;
    [loop_] is non-null while the loop runs. *)
Inductive thread_state := NotStarted | Running | Finished | Joined.

Record EventLoopThread := mkThread {
  loop_ : bool;
  exiting_ : bool;
  thread_ : thread_state;
}.

Definition EventLoopThread_new : EventLoopThread := mkThread false false NotStarted.

(** [startLoop]: launch the thread and wait until it has published its loop. *)
Definition startLoop (t : EventLoopThread) : EventLoopThread := mkThread true (exiting_ t) Running.

(** The end of [threadFunc]: somebody called [quit()] on the loop. *)
Definition threadFunc_end (t : EventLoopThread) : EventLoopThread := mkThread false (exiting_ t) Finished.

Definition joinable (s : thread_state) : bool :=
  match s with Running | Finished => true | _ => false end.

(** The destructor; [false] when [std::thread]'s own destructor then finds the
    thread joinable and terminates the process. *)
Definition destroy (t : EventLoopThread) : bool * EventLoopThread :=
  let t1 := mkThread (loop_ t) true (thread_ t) in
  let t2 := if loop_ t1
            then (* loop_->quit(); the loop ends; join *)
              if joinable (thread_ t1) then mkThread false true Joined else t1
            else t1 in
  (negb (joinable (thread_ t2)), t2).

(** Destroying the thread object while its loop runs, or unstarted, is clean. *)
Lemma destroy_running : (destroy (startLoop EventLoopThread_new)).1 = true /\
                        (destroy EventLoopThread_new).1 = true.
Proof. done. Qed.

(** Finding: when the loop has ended by itself (its [quit()] was called), [loop_]
    is null, the destructor skips the join and the process is terminated. *)
Lemma destroy_after_quit_terminates :
  (destroy (threadFunc_end (startLoop EventLoopThread_new))).1 = false.
Proof. done. Qed.
End EventLoopThread.

(** ** The pool of loops *)
Module EventLoopThreadPool.

Record EventLoopThreadPool := mkPool {
  base_loop_ : nat;
  loops_ : list nat;
  next_ : nat;
}.

Definition start (base : nat) (io_loops : list nat) : EventLoopThreadPool := mkPool base io_loops 0.

Definition getNextLoop (p : EventLoopThreadPool) : nat * EventLoopThreadPool :=
  match loops_ p with
  | [] => (base_loop_ p, p)
  | _ => (nth (next_ p) (loops_ p) (base_loop_ p),
          mkPool (base_loop_ p) (loops_ p) ((next_ p + 1) mod length (loops_ p)))
  end.

Definition getAllLoops (p : EventLoopThreadPool) : list nat :=
  match loops_ p with [] => [base_loop_ p] | ls => ls end.

Fixpoint next_loops (k : nat) (p : EventLoopThreadPool) : list nat * EventLoopThreadPool :=
  match k with
  | 0 => ([], p)
  | S k' => let '(l, p1) := getNextLoop p in let '(ls, p2) := next_loops k' p1 in (l :: ls, p2)
  end.

Lemma next_loops_rotate k : forall base ls i,
  i < length ls ->
  next_loops k (mkPool base ls i) =
  (map (fun j => nth ((i + j) mod length ls) ls base) (seq 0 k), mkPool base ls ((i + k) mod length ls)).
Proof.
  induction k as [|k IH]; intros base ls i Hi.
  { cbn. by rewrite Nat.add_0_r, Nat.mod_small. }
  assert (Hnil : ls <> []) by (by intros ->; simpl in Hi; lia).
  cbn [next_loops]. unfold getNextLoop; cbn [loops_ next_ base_loop_].
  destruct ls as [|l0 ls0] eqn:E; [done|]. rewrite <-E in *.
  assert (Hm : (i + 1) mod length ls < length ls) by (apply Nat.mod_upper_bound; lia).
  rewrite IH by done. cbn [seq map]. f_equal; [f_equal|].
  - by rewrite Nat.add_0_r, Nat.mod_small.
  - rewrite <-seq_shift, map_map. apply map_ext. intros j.
    rewrite Nat.Div0.add_mod_idemp_l. do 2 f_equal. lia.
  - f_equal. rewrite Nat.Div0.add_mod_idemp_l. f_equal. lia.
Qed.

(** Round robin: as many calls as there are loops pick every loop once. *)
Lemma round_robin base ls :
  ls <> [] -> (next_loops (length ls) (start base ls)).1 = ls.
Proof.
  intros Hne. unfold start. rewrite next_loops_rotate by (destruct ls; [done|simpl; lia]). cbn [fst].
  apply (nth_ext _ _ base base); [by rewrite length_map, length_seq|].
  intros n Hn. rewrite length_map, length_seq in Hn.
  rewrite (nth_indep _ base (nth ((0 + 0) mod length ls) ls base)) by (by rewrite length_map, length_seq).
  rewrite (map_nth (fun j => nth ((0 + j) mod length ls) ls base) (seq 0 (length ls)) 0 n).
  rewrite seq_nth by done. cbn. by rewrite Nat.mod_small.
Qed.
End EventLoopThreadPool.
