(* ===== verification/Double.v ===== *)
(** * Floating-point arithmetic, as far as the library relies on it

    [TokenBucket], [Backoff] and the histograms compute with [double].  Their
    code is modelled over the operations below; the laws are the ones IEEE 754
    arithmetic has on the finite values involved (rounding is monotone and exact
    on representable numbers) and are all that the range theorems use.  Exact
    rationals are one instance; theorems about accumulated quantities, which
    rounding would blur, are stated for it. *)

From Stdlib Require Import QArith Qround Lqa.
From S2P Require Import Prelude.

Class Double (D : Type) := {
  d_le : D -> D -> bool;
  d_add : D -> D -> D;
  d_sub : D -> D -> D;
  d_mul : D -> D -> D;
  d_div : D -> D -> D;
  d_of_Z : Z -> D;
  d_trunc : D -> Z;  (* conversion to a 64-bit integer: towards zero *)
}.
Definition d_lt {D} `{Double D} (a b : D) : bool := negb (d_le b a).
(** [std::min(a, b)]: [(b < a) ? b : a] *)
Definition d_min {D} `{Double D} (a b : D) : D := if d_lt b a then b else a.

(** Integers every [double] represents exactly. *)
Definition exact_int (z : Z) : Prop := (0 <= z <= 2 ^ 53)%Z.

Class DoubleLaws (D : Type) `{Double D} : Prop := {
  d_le_refl a : d_le a a = true;
  d_le_trans a b c : d_le a b = true -> d_le b c = true -> d_le a c = true;
  d_le_total a b : d_le a b = true \/ d_le b a = true;
  d_add_ge a b : d_le (d_of_Z 0) b = true -> d_le a (d_add a b) = true;
  d_add_mono a b c : d_le b c = true -> d_le (d_add a b) (d_add a c) = true;
  d_sub_nonneg a b : d_le b a = true -> d_le (d_of_Z 0) (d_sub a b) = true;
  d_sub_le a b : d_le (d_of_Z 0) b = true -> d_le (d_sub a b) a = true;
  d_mul_nonneg a b :
    d_le (d_of_Z 0) a = true -> d_le (d_of_Z 0) b = true -> d_le (d_of_Z 0) (d_mul a b) = true;
  d_mul_mono a b c :
    d_le (d_of_Z 0) a = true -> d_le b c = true -> d_le (d_mul a b) (d_mul a c) = true;
  d_mul_1 a : d_le a (d_mul a (d_of_Z 1)) = true /\ d_le (d_mul a (d_of_Z 1)) a = true;
  d_div_nonneg a b : (0 <= a)%Z -> (0 < b)%Z ->
    d_le (d_of_Z 0) (d_div (d_of_Z a) (d_of_Z b)) = true;
  d_div_unit a b : (0 <= a <= b)%Z -> (0 < b)%Z -> exact_int a -> exact_int b ->
    d_le (d_div (d_of_Z a) (d_of_Z b)) (d_of_Z 1) = true;
  d_of_Z_nonneg z : (0 <= z)%Z -> d_le (d_of_Z 0) (d_of_Z z) = true;
  d_of_Z_mono a b : (a <= b)%Z -> d_le (d_of_Z a) (d_of_Z b) = true;
  d_trunc_mono a b : d_le a b = true -> (d_trunc a <= d_trunc b)%Z;
  d_trunc_Z z : exact_int z -> d_trunc (d_of_Z z) = z;
}.

Section laws.
Context {D : Type} `{DoubleLaws D}.

Lemma d_lt_le a b : d_lt a b = true -> d_le a b = true.
Proof. unfold d_lt. rewrite negb_true_iff. destruct (d_le_total a b); congruence. Qed.

Lemma d_min_le_l a b : d_le (d_min a b) a = true.
Proof. unfold d_min. case_if; [by apply d_lt_le|apply d_le_refl]. Qed.

Lemma d_min_le_r a b : d_le (d_min a b) b = true.
Proof. unfold d_min, d_lt. case_if; [apply d_le_refl|done]. Qed.

Lemma d_min_glb a b c : d_le c a = true -> d_le c b = true -> d_le c (d_min a b) = true.
Proof. unfold d_min. by case_if. Qed.
End laws.

(** ** Exact rationals *)
#[export] Instance Q_double : Double Q := {|
  d_le := Qle_bool; d_add := Qplus; d_sub := Qminus; d_mul := Qmult; d_div := Qdiv;
  d_of_Z := inject_Z; d_trunc q := if Qle_bool 0 q then Qfloor q else Qceiling q;
|}.

Lemma Qtrunc_mono a b : (a <= b)%Q ->
  ((if Qle_bool 0 a then Qfloor a else Qceiling a) <= (if Qle_bool 0 b then Qfloor b else Qceiling b))%Z.
Proof.
  intros Hab. destruct (Qle_bool 0 a) eqn:Ea, (Qle_bool 0 b) eqn:Eb.
  - by apply Qfloor_resp_le.
  - rewrite Qle_bool_iff in Ea. assert (Qle_bool 0 b = true) by (apply Qle_bool_iff; lra). congruence.
  - rewrite Qle_bool_iff in Eb. assert (a < 0)%Q as Ha.
    { apply Qnot_le_lt. intros H%Qle_bool_iff. congruence. }
    transitivity 0%Z.
    + change 0%Z with (Qceiling 0). apply Qceiling_resp_le. lra.
    + change 0%Z with (Qfloor 0). by apply Qfloor_resp_le.
  - by apply Qceiling_resp_le.
Qed.

#[export] Instance Q_double_laws : DoubleLaws Q.
Proof.
  split; simpl; intros *; rewrite ?Qle_bool_iff.
  - apply Qle_refl.
  - apply Qle_trans.
  - destruct (Qlt_le_dec a b); [left; lra|right; lra].
  - change (inject_Z 0) with 0%Q. lra.
  - lra.
  - change (inject_Z 0) with 0%Q. lra.
  - change (inject_Z 0) with 0%Q. lra.
  - change (inject_Z 0) with 0%Q. apply Qmult_le_0_compat.
  - change (inject_Z 0) with 0%Q. intros Ha Hbc. rewrite !(Qmult_comm a). by apply Qmult_le_compat_r.
  - change (inject_Z 1) with 1%Q. rewrite Qmult_1_r. split; apply Qle_refl.
  - intros H0 Hb. change (inject_Z 0) with 0%Q.
    assert (0 < inject_Z b)%Q by (by rewrite (Zlt_Qlt 0 b) in Hb).
    apply Qle_shift_div_l; [done|]. rewrite Qmult_0_l. by rewrite (Zle_Qle 0 a) in H0.
  - intros [H0 Hab] Hb _ _. change (inject_Z 1) with 1%Q.
    assert (0 < inject_Z b)%Q by (by rewrite (Zlt_Qlt 0 b) in Hb).
    apply Qle_shift_div_r; [done|]. rewrite Qmult_1_l. by rewrite <-Zle_Qle.
  - intros Hz. by rewrite <-Zle_Qle.
  - intros Hab. by rewrite <-Zle_Qle.
  - apply Qtrunc_mono.
  - intros [Hz _]. assert (Qle_bool 0 (inject_Z z) = true) as ->.
    { apply Qle_bool_iff. change 0%Q with (inject_Z 0). by rewrite <-Zle_Qle. }
    apply Qfloor_Z.
Qed.
