(* ===== verification/TokenBucket.v ===== *)
(** * The token bucket (flowcontrol/token_bucket.h, flowcontrol/token_bucket.cc)

    Lazy refill from the elapsed time, capped at the burst size.  Every method
    holds the mutex for its whole body, so a method is one atomic step; the
    clock's reading is an argument (nanoseconds of the steady clock). *)

From Stdlib Require Import QArith Lqa.
From S2P Require Import Prelude Double.

Module TokenBucket.

Record TokenBucket {D : Type} := mkTokenBucket {
  qps_ : D;
  burst_ : D;
  tokens_ : D;
  last_refill_ : Z;
}.
Arguments TokenBucket D : clear implicits.
#[export] Instance TokenBucket_settable D : Settable (TokenBucket D) := fun b =>
  mkTokenBucket D (qps_ b) (burst_ b) (tokens_ b) (last_refill_ b).

Section bucket.
Context {D : Type} `{Double D}.

Definition TokenBucket_new (qps burst : D) (now : Z) : TokenBucket D :=
  let burst' := if d_le (d_of_Z 1) burst then burst else d_of_Z 1 in
  mkTokenBucket D (if d_lt (d_of_Z 0) qps then qps else d_of_Z 0) burst' burst' now.

(** [std::chrono::duration<double>] of a number of nanoseconds. *)
Definition seconds (ns : Z) : D := d_div (d_of_Z ns) (d_of_Z 1000000000).

Definition refillLocked (now : Z) (b : TokenBucket D) : TokenBucket D :=
  if (now <=? last_refill_ b)%Z then b
  else
    let elapsed_s := seconds (now - last_refill_ b) in
    b <| last_refill_ := now |>
      <| tokens_ := d_min (burst_ b) (d_add (tokens_ b) (d_mul elapsed_s (qps_ b))) |>.

Definition tryAcquireN (n : D) (now : Z) (b : TokenBucket D) : bool * TokenBucket D :=
  if d_le n (d_of_Z 0) then (true, b)
  else
    let b1 := refillLocked now b in
    if d_le n (tokens_ b1) then (true, b1 <| tokens_ := d_sub (tokens_ b1) n |>) else (false, b1).

Definition tryAcquire (now : Z) (b : TokenBucket D) : bool * TokenBucket D :=
  tryAcquireN (d_of_Z 1) now b.

Definition availableTokens (now : Z) (b : TokenBucket D) : D * TokenBucket D :=
  let b1 := refillLocked now b in (tokens_ b1, b1).

(** ** The bucket never holds less than nothing or more than the burst *)
Inductive step : TokenBucket D -> TokenBucket D -> Prop :=
| step_acquire n now b : step b (tryAcquireN n now b).2
| step_available now b : step b (availableTokens now b).2.

Definition bucket_wf (b : TokenBucket D) : Prop :=
  d_le (d_of_Z 0) (qps_ b) = true /\ d_le (d_of_Z 1) (burst_ b) = true /\
  d_le (d_of_Z 0) (tokens_ b) = true /\ d_le (tokens_ b) (burst_ b) = true.

Context `{!DoubleLaws D}.

Lemma bucket_new_wf qps burst now : bucket_wf (TokenBucket_new qps burst now).
Proof.
  unfold bucket_wf, TokenBucket_new; simpl.
  assert (H01 : d_le (d_of_Z 0) (d_of_Z 1) = true) by (by apply d_of_Z_mono).
  split_and!; [case_if; [by apply d_lt_le|apply d_le_refl]| | |apply d_le_refl].
  - case_if; [done|apply d_le_refl].
  - case_if; [by eapply d_le_trans|done].
Qed.

Lemma refill_wf now b : bucket_wf b -> bucket_wf (refillLocked now b).
Proof.
  intros (Hq & Hb & Ht0 & Htb). unfold refillLocked. case_if; [done|].
  unfold bucket_wf; simpl. split_and!; [done|done| |apply d_min_le_l].
  assert (H01 : d_le (d_of_Z 0) (d_of_Z 1) = true) by (by apply d_of_Z_mono).
  apply d_min_glb; [by eapply d_le_trans|]. eapply d_le_trans; [exact Ht0|]. apply d_add_ge.
  apply d_mul_nonneg; [|done]. apply d_div_nonneg; lia.
Qed.

Lemma tryAcquireN_wf n now b : bucket_wf b -> bucket_wf (tryAcquireN n now b).2.
Proof.
  intros Hwf. unfold tryAcquireN. case_if; [done|].
  destruct (refill_wf now b Hwf) as (Hq & Hb & Ht0 & Htb). case_if; [|done].
  unfold bucket_wf; simpl. split_and!; [done|done|by apply d_sub_nonneg|].
  eapply d_le_trans; [apply d_sub_le|exact Htb].
  destruct (d_le_total n (d_of_Z 0)) as [Hn|Hn]; [congruence|done].
Qed.

Lemma bucket_step_wf b b' : step b b' -> bucket_wf b -> bucket_wf b'.
Proof. intros [n now b0|now b0]; [apply tryAcquireN_wf|apply refill_wf]. Qed.
End bucket.

(** Whatever the calls and the clock's readings, the bucket's tokens stay
    between zero and the burst size (for any arithmetic with the listed
    IEEE 754 properties). *)
Theorem tokens_in_range {D : Type} `{DoubleLaws D} (qps burst : D) now b :
  rtc step (TokenBucket_new qps burst now) b ->
  d_le (d_of_Z 0) (tokens_ b) = true /\ d_le (tokens_ b) (burst_ b) = true.
Proof.
  intros Hr. enough (bucket_wf b) as (_ & _ & ? & ?) by done.
  pose proof (bucket_new_wf qps burst now) as Hwf. revert Hwf. induction Hr as [b|b1 b2 b3 Hs Hr IH]; [done|].
  intros Hwf. apply IH. by eapply bucket_step_wf.
Qed.

Lemma tokens_in_range_witness :
  let b := (tryAcquireN (1#2)%Q 5 (TokenBucket_new 2%Q 3%Q 0)).2 in
  d_le (d_of_Z 0) (tokens_ b) = true /\ d_le (tokens_ b) (burst_ b) = true.
Proof.
  intros b. apply (tokens_in_range 2%Q 3%Q 0 b).
  eapply rtc_l; [apply (step_acquire (1#2)%Q 5)|apply rtc_refl].
Defined.

(** ** The rate bound (exact arithmetic) *)

(** Run a list of requests [(n, now)]; the tokens admitted and the final state.
    Requests for no tokens at all are admitted without touching the bucket. *)
Fixpoint admitted (reqs : list (Q * Z)) (b : TokenBucket Q) : Q * TokenBucket Q :=
  match reqs with
  | [] => (0%Q, b)
  | (n, now) :: reqs' =>
    let r := tryAcquireN n now b in
    let rs := admitted reqs' r.2 in
    ((if r.1 && negb (Qle_bool n 0) then n else 0) + rs.1, rs.2)%Q
  end.

Definition accrued (b b' : TokenBucket Q) : Q :=
  (qps_ b * (inject_Z (last_refill_ b' - last_refill_ b) / inject_Z 1000000000))%Q.

Lemma refill_bound now b :
  bucket_wf b ->
  let b' := refillLocked now b in
  (tokens_ b' <= tokens_ b + accrued b b')%Q /\ (last_refill_ b <= last_refill_ b')%Z /\
  qps_ b' = qps_ b /\ burst_ b' = burst_ b.
Proof.
  intros Hwf. unfold refillLocked, accrued. case_if; cbn [tokens_ last_refill_ qps_ burst_ set_field eta_of].
  - split_and!; [|lia|done..]. rewrite Z.sub_diag. change (inject_Z 0) with 0%Q. unfold Qdiv.
    rewrite Qmult_0_l, Qmult_0_r, Qplus_0_r. apply Qle_refl.
  - simpl. split_and!; [|lia|done..].
    pose proof (d_min_le_r (burst_ b) (d_add (tokens_ b) (d_mul (seconds (now - last_refill_ b)) (qps_ b)))) as H.
    simpl in H. apply Qle_bool_iff in H. unfold seconds in *; simpl in *. lra.
Qed.

Lemma accrued_add b b1 b2 :
  qps_ b1 = qps_ b -> (accrued b b2 == accrued b b1 + accrued b1 b2)%Q.
Proof.
  intros Hq. unfold accrued. rewrite Hq.
  replace (last_refill_ b2 - last_refill_ b)%Z
    with ((last_refill_ b1 - last_refill_ b) + (last_refill_ b2 - last_refill_ b1))%Z by lia.
  rewrite inject_Z_plus. unfold Qdiv. ring.
Qed.

(** One request: what it takes plus what is left is at most what there was plus
    what accrued. *)
Lemma acquire_bound n now b :
  bucket_wf b ->
  let r := tryAcquireN n now b in
  ((if r.1 && negb (Qle_bool n 0) then n else 0) + tokens_ r.2 <= tokens_ b + accrued b r.2)%Q /\
  qps_ r.2 = qps_ b /\ burst_ r.2 = burst_ b.
Proof.
  intros Hwf. destruct (refill_bound now b Hwf) as (Hb & _ & Hq & Hbu).
  unfold tryAcquireN. change (d_le n (d_of_Z 0)) with (Qle_bool n 0).
  destruct (Qle_bool n 0) eqn:En.
  - cbn [fst snd andb negb]. split; [|done]. unfold accrued. rewrite Z.sub_diag.
    change (inject_Z 0) with 0%Q. unfold Qdiv. rewrite Qmult_0_l, Qmult_0_r. lra.
  - destruct (d_le n (tokens_ (refillLocked now b))); cbn [fst snd andb negb]; [|split; [lra|done]].
    unfold accrued in *. simpl. split; [|done]. simpl in Hb. lra.
Qed.

Lemma admitted_bound reqs : forall b,
  bucket_wf b ->
  let r := admitted reqs b in
  (r.1 + tokens_ r.2 <= tokens_ b + accrued b r.2)%Q /\ bucket_wf r.2.
Proof.
  induction reqs as [|[n now] reqs IH]; intros b Hwf; cbn zeta.
  - simpl. split; [|done]. unfold accrued. rewrite Z.sub_diag. change (inject_Z 0) with 0%Q.
    unfold Qdiv. rewrite Qmult_0_l, Qmult_0_r. lra.
  - destruct (acquire_bound n now b Hwf) as (Ha & Hq & Hbu).
    pose proof (tryAcquireN_wf n now b Hwf) as Hwf1. cbn [admitted fst snd].
    destruct (IH (tryAcquireN n now b).2 Hwf1) as [Hr Hwf2]. cbn zeta in Hr. split; [|done].
    rewrite (accrued_add b (tryAcquireN n now b).2 (admitted reqs (tryAcquireN n now b).2).2) by done. lra.
Qed.



End TokenBucket.
