(* ===== verification/Backoff.v ===== *)
(** * Per-key exponential backoff (flowcontrol/backoff.h, flowcontrol/backoff.cc)

    Every method holds the mutex for its whole body.  Durations are
    [std::chrono::milliseconds], clock readings nanoseconds; the reading of
    [Clock::now()] is an argument.  The pseudo-random state is the 64-bit
    xorshift register. *)

From stdpp Require Import gmap.
From Stdlib Require Import QArith.
From S2P Require Import Prelude Double.

Module Backoff.

Record Entry := mkEntry {
  duration : Z;
  last_update : Z;
}.

Record Backoff {D : Type} := mkBackoff {
  initial_ : Z;
  max_ : Z;
  jitter_ : D;
  entries_ : gmap bytes Entry;
  rng_state_ : Z;
}.
Arguments Backoff D : clear implicits.
#[export] Instance Backoff_settable D : Settable (Backoff D) := fun b =>
  mkBackoff D (initial_ b) (max_ b) (jitter_ b) (entries_ b) (rng_state_ b).

Definition seedFromClock (now : Z) : Z :=
  let s := wrap64 now in if (s =? 0)%Z then 0x9e3779b97f4a7c15%Z else s.

(** [x ^= x << 13; x ^= x >> 7; x ^= x << 17] *)
Definition xorshift64 (x : Z) : Z :=
  let x1 := Z.lxor x (wrap64 (Z.shiftl x 13)) in
  let x2 := Z.lxor x1 (Z.shiftr x1 7) in
  Z.lxor x2 (wrap64 (Z.shiftl x2 17)).

Section backoff.
Context {D : Type} `{Double D}.

Definition Backoff_new (initial max : Z) (jitter : D) (now : Z) : Backoff D :=
  mkBackoff D (if (0 <? initial)%Z then initial else 1%Z)
    (if (initial <=? max)%Z then max else initial)
    (if d_lt jitter (d_of_Z 0) then d_of_Z 0 else jitter) ∅ (seedFromClock now).

Definition applyJitter (d : Z) (b : Backoff D) : Z * Backoff D :=
  if d_le (jitter_ b) (d_of_Z 0) then (d, b)
  else
    let s := xorshift64 (rng_state_ b) in
    let r := d_div (d_of_Z (Z.shiftr s 11)) (d_of_Z (Z.shiftl 1 53)) in
    let factor := d_add (d_of_Z 1) (d_mul (jitter_ b) r) in
    (d_trunc (d_mul (d_of_Z d) factor), b <| rng_state_ := s |>).

Definition next (key : bytes) (now : Z) (b : Backoff D) : Backoff D :=
  match entries_ b !! key with
  | None => b <| entries_ := <[key := mkEntry (initial_ b) now]> (entries_ b) |>
  | Some e =>
    let doubled := (duration e * 2)%Z in
    b <| entries_ := <[key := mkEntry (Z.min doubled (max_ b)) now]> (entries_ b) |>
  end.

Definition baseDelay (key : bytes) (b : Backoff D) : Z :=
  match entries_ b !! key with None => initial_ b | Some e => duration e end.

Definition get (key : bytes) (b : Backoff D) : Z * Backoff D :=
  let base := match entries_ b !! key with None => initial_ b | Some e => duration e end in
  applyJitter base b.

Definition nextDelay (key : bytes) (now : Z) (b : Backoff D) : Z * Backoff D :=
  let '(base, b1) :=
    match entries_ b !! key with
    | None =>
      (initial_ b, b <| entries_ := <[key := mkEntry (initial_ b) now]> (entries_ b) |>)
    | Some e =>
      let dur := Z.min (duration e * 2) (max_ b) in
      (dur, b <| entries_ := <[key := mkEntry dur now]> (entries_ b) |>)
    end in
  applyJitter base b1.

Definition reset (key : bytes) (b : Backoff D) : Backoff D :=
  b <| entries_ := delete key (entries_ b) |>.

(** [now - it->second.last_update > max_age], nanoseconds against milliseconds. *)
Definition stale (max_age now : Z) (e : Entry) : bool :=
  (max_age * 1000000 <? now - last_update e)%Z.

Definition gc (max_age now : Z) (b : Backoff D) : Backoff D :=
  b <| entries_ := filter (fun kv => stale max_age now kv.2 = false) (entries_ b) |>.

End backoff.

(** ** The xorshift register *)
Lemma lxor_u64 a b : u64 a -> u64 b -> u64 (Z.lxor a b).
Proof.
  intros Ha Hb. unfold u64 in *. rewrite two64_val in *.
  assert (0 <= Z.lxor a b)%Z by (apply Z.lxor_nonneg; lia). split; [done|].
  destruct (decide (Z.lxor a b = 0%Z)) as [->|Hne]; [done|].
  change 18446744073709551616%Z with (2 ^ 64)%Z in *. apply Z.log2_lt_pow2; [lia|].
  pose proof (Z.log2_lxor a b ltac:(lia) ltac:(lia)).
  assert (forall x, 0 <= x < 2 ^ 64 -> Z.log2 x < 64)%Z as Hlog.
  { intros x Hx. destruct (decide (x = 0%Z)) as [->|]; [done|]. apply Z.log2_lt_pow2; lia. }
  pose proof (Hlog a Ha). pose proof (Hlog b Hb). lia.
Qed.

Lemma shiftr_u64 a n : u64 a -> (0 <= n)%Z -> u64 (Z.shiftr a n).
Proof.
  intros [H0 H1] Hn. rewrite Z.shiftr_div_pow2 by done. split; [apply Z.div_pos; lia|].
  eapply Z.le_lt_trans; [|exact H1]. apply Z.div_le_upper_bound; [lia|]. nia.
Qed.

Lemma xorshift64_u64 x : u64 x -> u64 (xorshift64 x).
Proof.
  intros Hx. unfold xorshift64. repeat apply lxor_u64; auto using wrap64_range, shiftr_u64.
  all: try apply shiftr_u64; try lia; repeat apply lxor_u64; auto using wrap64_range.
Qed.

(** A register that is not zero stays so: each of the three steps is injective. *)
Lemma lxor_shiftl_nonzero x n :
  u64 x -> (0 < n)%Z -> x <> 0%Z -> Z.lxor x (wrap64 (Z.shiftl x n)) <> 0%Z.
Proof.
  intros Hx Hn Hne Hz. apply Z.lxor_eq in Hz. apply Hne. apply Z.bits_inj_0.
  assert (Hbit : forall i, (0 <= i)%Z -> Z.testbit x i = if (i <? 64)%Z then Z.testbit x (i - n) else false).
  { intros i Hi. rewrite Hz at 1. unfold wrap64, two64.
    destruct (i <? 64)%Z eqn:E; bool_prop.
    - rewrite Z.mod_pow2_bits_low by lia. by apply Z.shiftl_spec.
    - by apply Z.mod_pow2_bits_high. }
  assert (Hall : forall k i, (i < n * Z.of_nat k)%Z -> Z.testbit x i = false).
  { induction k as [|k IH]; intros i Hi; [apply Z.testbit_neg_r; lia|].
    destruct (decide (i < 0)%Z); [by apply Z.testbit_neg_r|].
    rewrite Hbit by lia. case_if; [|done]. apply IH. lia. }
  intros i. destruct (decide (i < 0)%Z); [by apply Z.testbit_neg_r|].
  apply (Hall (Z.to_nat (i + 1))). rewrite Z2Nat.id by lia. nia.
Qed.

Lemma lxor_shiftr_nonzero x n : u64 x -> (0 < n)%Z -> x <> 0%Z -> Z.lxor x (Z.shiftr x n) <> 0%Z.
Proof.
  intros [H0 H1] Hn Hne Hz. apply Z.lxor_eq in Hz. rewrite Z.shiftr_div_pow2 in Hz by lia.
  pose proof (Z.pow_gt_1 2 n ltac:(lia)) as [Hp _]. specialize (Hp Hn).
  pose proof (Z.div_lt x (2 ^ n) ltac:(lia) Hp). lia.
Qed.

Lemma xorshift64_nonzero x : u64 x -> x <> 0%Z -> xorshift64 x <> 0%Z.
Proof.
  intros Hx Hne. unfold xorshift64.
  assert (H1 : u64 (Z.lxor x (wrap64 (Z.shiftl x 13)))) by (auto using lxor_u64, wrap64_range).
  apply lxor_shiftl_nonzero; [|done|].
  - apply lxor_u64; [done|]. by apply shiftr_u64.
  - apply lxor_shiftr_nonzero; [done|done|]. by apply lxor_shiftl_nonzero.
Qed.

Lemma seed_ok now : u64 (seedFromClock now) /\ seedFromClock now <> 0%Z.
Proof.
  unfold seedFromClock. case_if; [done|]. split; [apply wrap64_range|done].
Qed.

Section invariant.
Context {D : Type} `{Double D}.

(** ** Steps and their invariant *)
Inductive step : Backoff D -> Backoff D -> Prop :=
| step_next key now b : step b (next key now b)
| step_get key b : step b (get key b).2
| step_nextDelay key now b : step b (nextDelay key now b).2
| step_reset key b : step b (reset key b)
| step_gc max_age now b : step b (gc max_age now b).

(** Every stored duration lies between the initial one and the cap, and the
    random register is a non-zero 64-bit value (zero would be a fixed point). *)
Definition backoff_wf (b : Backoff D) : Prop :=
  (0 < initial_ b <= max_ b)%Z /\ (u64 (rng_state_ b) /\ rng_state_ b <> 0%Z) /\
  map_Forall (fun _ e => (initial_ b <= duration e <= max_ b)%Z) (entries_ b).

Lemma jitter_fields d b :
  let b' := (applyJitter d b).2 in
  initial_ b' = initial_ b /\ max_ b' = max_ b /\ jitter_ b' = jitter_ b /\ entries_ b' = entries_ b.
Proof. unfold applyJitter. by case_if. Qed.

Lemma applyJitter_wf d b : backoff_wf b -> backoff_wf (applyJitter d b).2.
Proof.
  intros (Hi & [Hu Hn] & Hall). unfold backoff_wf. destruct (jitter_fields d b) as (-> & -> & _ & ->).
  split; [exact Hi|]. split; [|done]. unfold applyJitter. case_if; [done|]. simpl. split.
  - by apply xorshift64_u64.
  - by apply xorshift64_nonzero.
Qed.

Lemma insert_wf key dur now b :
  backoff_wf b -> (initial_ b <= dur <= max_ b)%Z ->
  backoff_wf (b <| entries_ := <[key := mkEntry dur now]> (entries_ b) |>).
Proof.
  intros (Hi & Hrng & Hall) Hd. split; [exact Hi|]. split; [exact Hrng|]. simpl. by apply map_Forall_insert_2.
Qed.

Lemma doubled_range key e b :
  backoff_wf b -> entries_ b !! key = Some e ->
  (initial_ b <= Z.min (duration e * 2) (max_ b) <= max_ b)%Z.
Proof. intros (Hi & _ & Hall) Hk. specialize (Hall _ _ Hk). simpl in Hall. lia. Qed.

Lemma backoff_step_wf b b' : step b b' -> backoff_wf b -> backoff_wf b'.
Proof.
  intros [key now c|key c|key now c|key c|max_age now c] Hwf.
  - unfold next. destruct (entries_ c !! key) as [e|] eqn:E; apply insert_wf; try done.
    + by eapply doubled_range.
    + destruct Hwf; lia.
  - by apply applyJitter_wf.
  - unfold nextDelay. destruct (entries_ c !! key) as [e|] eqn:E; apply applyJitter_wf, insert_wf; try done.
    + by eapply doubled_range.
    + destruct Hwf; lia.
  - destruct Hwf as (Hi & Hrng & Hall). split; [exact Hi|]. split; [exact Hrng|]. simpl. by apply map_Forall_delete.
  - destruct Hwf as (Hi & Hrng & Hall). split; [exact Hi|]. split; [exact Hrng|]. simpl. intros k e [Hk _]%map_lookup_filter_Some.
    by apply (Hall k e).
Qed.

Lemma step_fields b b' : step b b' -> initial_ b' = initial_ b /\ max_ b' = max_ b /\ jitter_ b' = jitter_ b.
Proof.
  intros [key now c|key c|key now c|key c|max_age now c].
  - unfold next. by destruct (entries_ c !! key).
  - by destruct (jitter_fields (baseDelay key c) c) as (? & ? & ? & _).
  - unfold nextDelay. destruct (entries_ c !! key) as [e|].
    + by destruct (jitter_fields (Z.min (duration e * 2) (max_ c))
        (c <| entries_ := <[key := mkEntry (Z.min (duration e * 2) (max_ c)) now]> (entries_ c) |>))
        as (? & ? & ? & _).
    + by destruct (jitter_fields (initial_ c)
        (c <| entries_ := <[key := mkEntry (initial_ c) now]> (entries_ c) |>)) as (? & ? & ? & _).
  - done.
  - done.
Qed.

Lemma backoff_reachable_wf b0 b : rtc step b0 b -> backoff_wf b0 ->
  backoff_wf b /\ initial_ b = initial_ b0 /\ max_ b = max_ b0 /\ jitter_ b = jitter_ b0.
Proof.
  induction 1 as [b|b1 b2 b3 Hs Hr IH]; intros Hwf; [done|].
  destruct (step_fields _ _ Hs) as (<- & <- & <-). apply IH. by eapply backoff_step_wf.
Qed.

Lemma backoff_new_wf initial max jitter now :
  (0 < initial)%Z -> backoff_wf (Backoff_new initial max jitter now).
Proof.
  intros Hi. unfold backoff_wf, Backoff_new; simpl. split; [repeat case_if; lia|].
  split; [apply seed_ok|apply map_Forall_empty].
Qed.

Lemma base_range key b : backoff_wf b -> (initial_ b <= baseDelay key b <= max_ b)%Z.
Proof.
  intros (Hi & _ & Hall). unfold baseDelay. destruct (entries_ b !! key) as [e|] eqn:E; [|lia].
  exact (Hall _ _ E).
Qed.

(** ** The jitter factor *)
Context `{!DoubleLaws D}.

Lemma jitter_bounds d b :
  (0 <= d)%Z -> exact_int d -> u64 (xorshift64 (rng_state_ b)) ->
  (d <= (applyJitter d b).1)%Z /\
  ((applyJitter d b).1 <= d_trunc (d_mul (d_of_Z d) (d_add (d_of_Z 1) (jitter_ b))) \/
   d_le (jitter_ b) (d_of_Z 0) = true)%Z.
Proof.
  intros Hd Hex Hs. unfold applyJitter. destruct (d_le (jitter_ b) (d_of_Z 0)) eqn:Ej.
  { simpl. split; [lia|by right]. }
  simpl. set (s := xorshift64 (rng_state_ b)) in *.
  assert (Hj : d_le (d_of_Z 0) (jitter_ b) = true) by (destruct (d_le_total (jitter_ b) (d_of_Z 0)); congruence).
  assert (Hr : (0 <= Z.shiftr s 11 <= 2 ^ 53)%Z).
  { rewrite Z.shiftr_div_pow2 by lia. unfold u64 in Hs. rewrite two64_val in Hs.
    split; [apply Z.div_pos; lia|]. apply Z.div_le_upper_bound; lia. }
  change (Z.shiftl 1 53) with (2 ^ 53)%Z.
  set (r := d_div (d_of_Z (Z.shiftr s 11)) (d_of_Z (2 ^ 53))).
  assert (Hr0 : d_le (d_of_Z 0) r = true) by (apply d_div_nonneg; lia).
  assert (Hr1 : d_le r (d_of_Z 1) = true) by (apply d_div_unit; unfold exact_int; lia).
  assert (Hd0 : d_le (d_of_Z 0) (d_of_Z d) = true) by (by apply d_of_Z_nonneg).
  assert (Hmul : d_le (d_mul (jitter_ b) r) (jitter_ b) = true).
  { eapply d_le_trans; [by apply d_mul_mono|]. apply d_mul_1. }
  split.
  - rewrite <-(d_trunc_Z d) at 1 by done. apply d_trunc_mono.
    eapply d_le_trans; [apply (d_mul_1 (d_of_Z d))|]. apply d_mul_mono; [done|].
    apply d_add_ge. by apply d_mul_nonneg.
  - left. apply d_trunc_mono, d_mul_mono; [done|]. by apply d_add_mono.
Qed.
End invariant.

(** ** Guarantees *)

(** With a positive initial delay, whatever sequence of failures, successes,
    reads and collections, the base delay of every key stays between the initial
    delay and the cap, and the jittered delay handed out is never shorter than
    the base nor longer than the base times [1 + jitter]. *)
Theorem delay_range {D : Type} `{DoubleLaws D} initial max (jitter : D) now b key :
  (0 < initial)%Z -> (Z.max initial max <= 2 ^ 53)%Z ->
  rtc step (Backoff_new initial max jitter now) b ->
  (initial <= baseDelay key b <= Z.max initial max)%Z /\
  (baseDelay key b <= (get key b).1)%Z /\
  ((get key b).1 <= d_trunc (d_mul (d_of_Z (baseDelay key b)) (d_add (d_of_Z 1) (jitter_ b))) \/
   d_le (jitter_ b) (d_of_Z 0) = true)%Z.
Proof.
  intros Hi Hmax Hr. destruct (backoff_reachable_wf _ _ Hr (backoff_new_wf _ _ _ _ Hi)) as (Hwf & Hini & Hm & _).
  pose proof (base_range key b Hwf) as Hb. rewrite Hini, Hm in Hb. unfold Backoff_new in Hb; simpl in Hb.
  rewrite (proj2 (Z.ltb_lt 0 initial) Hi) in Hb.
  assert (Hb' : (initial <= baseDelay key b <= Z.max initial max)%Z).
  { destruct (initial <=? max)%Z eqn:E; bool_prop; lia. }
  split; [done|]. apply (jitter_bounds (baseDelay key b) b); [lia|unfold exact_int; lia|].
  apply xorshift64_u64, Hwf.
Qed.

Lemma delay_range_witness :
  let b := next (bs "k") 7 (next (bs "k") 5 (Backoff_new 100 150 (1#2)%Q 9)) in
  (100 <= baseDelay (bs "k") b <= 150)%Z /\
  (baseDelay (bs "k") b <= (get (bs "k") b).1)%Z.
Proof.
  intros b. destruct (delay_range 100 150 (1#2)%Q 9 b (bs "k")) as (? & ? & _); [done|done| |done].
  eapply rtc_l; [apply step_next|]. eapply rtc_l; [apply step_next|]. apply rtc_refl.
Defined.

(** [k] failures in a row. *)
Fixpoint failures {D} (key : bytes) (times : list Z) (b : Backoff D) : Backoff D :=
  match times with [] => b | t :: ts => failures key ts (next key t b) end.

Lemma next_base {D} key now (b : Backoff D) :
  baseDelay key (next key now b) =
  match entries_ b !! key with None => initial_ b | Some e => Z.min (duration e * 2) (max_ b) end.
Proof.
  unfold next, baseDelay. destruct (entries_ b !! key); simpl; by rewrite lookup_insert_eq.
Qed.

Lemma failures_base {D} `{Double D} key times : forall (b : Backoff D) e,
  backoff_wf b -> entries_ b !! key = Some e ->
  baseDelay key (failures key times b) = Z.min (duration e * 2 ^ Z.of_nat (length times)) (max_ b).
Proof.
  induction times as [|t ts IH]; intros b e Hwf He.
  - simpl. unfold baseDelay. rewrite He. destruct Hwf as (_ & _ & Hall). specialize (Hall _ _ He).
    simpl in Hall. change (2 ^ 0)%Z with 1%Z. lia.
  - assert (Hn : entries_ (next key t b) !! key = Some (mkEntry (Z.min (duration e * 2) (max_ b)) t)).
    { unfold next. rewrite He. simpl. by rewrite lookup_insert_eq. }
    assert (Hwf1 : backoff_wf (next key t b)) by (eapply backoff_step_wf; [apply step_next|done]).
    cbn [failures length]. rewrite (IH _ _ Hwf1 Hn).
    assert (max_ (next key t b) = max_ b) as -> by (by unfold next; rewrite He). simpl duration.
    rewrite Nat2Z.inj_succ, Z.pow_succ_r by lia. destruct Hwf as (Hi & _ & Hall). specialize (Hall _ _ He).
    simpl in Hall. assert (0 < 2 ^ Z.of_nat (length ts))%Z by (apply Z.pow_pos_nonneg; lia).
    destruct (Z.le_ge_cases (duration e * 2) (max_ b)).
    + rewrite (Z.min_l (duration e * 2)) by lia. f_equal. lia.
    + rewrite (Z.min_r (duration e * 2)) by lia. rewrite !Z.min_r by nia. done.
Qed.

(** The growth is exponential with a cap: the base delay after a success
    (or for a new key) and [k + 1] failures in a row is
    [min (initial * 2^k) max], whatever the other keys did before. *)
Theorem exponential_growth {D : Type} `{Double D} (b : Backoff D) key t ts :
  backoff_wf b ->
  baseDelay key (failures key (t :: ts) (reset key b)) =
  Z.min (initial_ b * 2 ^ Z.of_nat (length ts)) (max_ b).
Proof.
  intros Hwf. assert (Hwf0 : backoff_wf (reset key b)) by (eapply backoff_step_wf; [apply step_reset|done]).
  assert (Hwf1 : backoff_wf (next key t (reset key b))) by (eapply backoff_step_wf; [apply step_next|done]).
  cbn [failures]. rewrite (failures_base key ts _ (mkEntry (initial_ b) t) Hwf1).
  - unfold next. simpl. by rewrite lookup_delete_eq.
  - unfold next. simpl. rewrite lookup_delete_eq. simpl. by rewrite lookup_insert_eq.
Qed.

Lemma exponential_growth_witness :
  baseDelay (bs "k") (failures (bs "k") [1; 2; 3]%Z (reset (bs "k") (Backoff_new 100 1000 (1#2)%Q 9))) = 400%Z.
Proof.
  apply (exponential_growth (Backoff_new 100 1000 (1#2)%Q 9) (bs "k") 1 [2; 3]%Z).
  by apply backoff_new_wf.
Defined.

(** Finding: the cap is compared with the constructor's argument, not with the
    adjusted [initial_]: [Backoff(0, 0)] keeps a cap of 0 ms below its initial
    1 ms, and from the second failure on the delay is 0. *)
Theorem zero_initial_never_waits {D : Type} `{Double D} (jitter : D) now key t1 t2 :
  baseDelay key (failures key [t1; t2] (Backoff_new 0 0 jitter now)) = 0%Z.
Proof.
  cbn [failures]. rewrite next_base. unfold next. simpl. rewrite lookup_empty. simpl. by rewrite lookup_insert_eq.
Qed.

End Backoff.
