(* ===== verification/ConcurrencyLimiter.v ===== *)
(** * The concurrency limiter (flowcontrol/concurrency_limiter.h)

    A lock-free counter of the permits in use.  Threads interleave at the atomic
    operations; a permit object is an identifier, and the permits whose
    [limiter_] is not null form the set [held_].  A relaxed load may return any
    value the counter had, so the model lets it return any value at all: only
    the compare-and-swap ties the thread to the current one. *)

From stdpp Require Import gmap.
From S2P Require Import Prelude.

Module ConcurrencyLimiter.

Abbreviation permit := nat.
Abbreviation thread := nat.

Record ConcurrencyLimiter := mkLimiter {
  max_ : Z;
  in_flight_ : Z;
}.
#[export] Instance ConcurrencyLimiter_settable : Settable ConcurrencyLimiter := fun l =>
  mkLimiter (max_ l) (in_flight_ l).

Definition ConcurrencyLimiter_new (max_concurrency : Z) : ConcurrencyLimiter :=
  mkLimiter max_concurrency 0.

Open Scope cox_scope.

(** The atomic operations on the counter. *)
Definition fetch_add (l : ConcurrencyLimiter) : ConcurrencyLimiter := l <| in_flight_ := in_flight_ l +64 1 |>.
Definition release (l : ConcurrencyLimiter) : ConcurrencyLimiter := l <| in_flight_ := in_flight_ l -64 1 |>.

Definition inFlight (l : ConcurrencyLimiter) : Z := in_flight_ l.
Definition isOverloaded (l : ConcurrencyLimiter) : bool :=
  negb (max_ l =? 0)%Z && (max_ l <=? in_flight_ l)%Z.

(** [tryAcquire] run without interference: the first [compare_exchange] either
    succeeds or the loop condition fails. *)
Definition tryAcquire (l : ConcurrencyLimiter) : bool * ConcurrencyLimiter :=
  if (max_ l =? 0)%Z then (true, fetch_add l)
  else
    let cur := in_flight_ l in
    if (cur <? max_ l)%Z then (true, l <| in_flight_ := cur +64 1 |>) else (false, l).

(** ** Interleavings *)
Record config := mkConfig {
  limiter : ConcurrencyLimiter;
  held_ : gset permit;         (* permits with a non-null limiter_ *)
  loops : gmap thread Z;       (* threads inside tryAcquire's loop, with their [cur] *)
}.

(** [Permit::release()], also the destructor: idempotent. *)
Definition permit_release (p : permit) (c : config) : config :=
  if decide (p ∈ held_ c)
  then mkConfig (release (limiter c)) (held_ c ∖ {[p]}) (loops c)
  else c.

(** The part of a move that transfers the slot from [src] to [dst]. *)
Definition permit_transfer (dst src : permit) (c : config) : config :=
  if decide (src ∈ held_ c)
  then mkConfig (limiter c) ({[dst]} ∪ (held_ c ∖ {[src]})) (loops c)
  else c.

(** Move construction of a new object [dst], and move assignment. *)
Definition permit_move_assign (dst src : permit) (c : config) : config :=
  if decide (dst = src) then c else permit_transfer dst src (permit_release dst c).

Inductive step : config -> config -> Prop :=
| step_unlimited c p :
    max_ (limiter c) = 0%Z -> p ∉ held_ c ->
    step c (mkConfig (fetch_add (limiter c)) ({[p]} ∪ held_ c) (loops c))
| step_load c t v :
    max_ (limiter c) <> 0%Z -> loops c !! t = None ->
    step c (mkConfig (limiter c) (held_ c) (<[t := v]> (loops c)))
| step_cas_success c t cur p :
    loops c !! t = Some cur -> (cur < max_ (limiter c))%Z -> in_flight_ (limiter c) = cur ->
    p ∉ held_ c ->
    step c (mkConfig ((limiter c) <| in_flight_ := cur +64 1 |>) ({[p]} ∪ held_ c) (delete t (loops c)))
| step_cas_failure c t cur v :
    loops c !! t = Some cur -> (cur < max_ (limiter c))%Z ->
    step c (mkConfig (limiter c) (held_ c) (<[t := v]> (loops c)))
| step_at_capacity c t cur :
    loops c !! t = Some cur -> (max_ (limiter c) <= cur)%Z ->
    step c (mkConfig (limiter c) (held_ c) (delete t (loops c)))
| step_release c p : step c (permit_release p c)
| step_move_construct c dst src : dst ∉ held_ c -> step c (permit_transfer dst src c)
| step_move_assign c dst src : step c (permit_move_assign dst src c).

Definition start (max_concurrency : Z) : config := mkConfig (ConcurrencyLimiter_new max_concurrency) ∅ ∅.

(** The counter is the number of permits in use (modulo the word size), and a
    limit bounds that number. *)
Definition accounted (c : config) : Prop :=
  in_flight_ (limiter c) = wrap64 (Z.of_nat (size (held_ c))) /\
  u64 (max_ (limiter c)) /\
  (max_ (limiter c) <> 0%Z -> (Z.of_nat (size (held_ c)) <= max_ (limiter c))%Z).

Lemma size_add (X : gset permit) p : p ∉ X -> size ({[p]} ∪ X) = S (size X).
Proof. intros Hp. rewrite size_union by set_solver. by rewrite size_singleton. Qed.

Lemma size_remove (X : gset permit) p : p ∈ X -> S (size (X ∖ {[p]})) = size X.
Proof.
  intros Hp. rewrite size_difference by set_solver. rewrite size_singleton.
  assert (size X <> 0); [|lia]. intros ->%size_empty_inv%leibniz_equiv. set_solver.
Qed.

Lemma accounted_release p c : accounted c -> accounted (permit_release p c).
Proof.
  intros (Hi & Hm & Hb). unfold permit_release. case_decide as Hp; [|done].
  pose proof (size_remove _ _ Hp) as Hs. unfold accounted; simpl. split_and!; [|apply Hm..|].
  - rewrite Hi, wrap64_sub_l. f_equal. lia.
  - intros Hne. specialize (Hb Hne). lia.
Qed.

Lemma accounted_transfer dst src c : dst ∉ held_ c -> accounted c -> accounted (permit_transfer dst src c).
Proof.
  intros Hd (Hi & Hm & Hb). unfold permit_transfer. case_decide as Hs; [|done].
  assert (Hsz : size ({[dst]} ∪ (held_ c ∖ {[src]})) = size (held_ c)).
  { rewrite size_add by set_solver. by apply size_remove. }
  unfold accounted; simpl. by rewrite Hsz.
Qed.

Lemma release_not_held p c : p ∉ held_ (permit_release p c).
Proof. unfold permit_release. case_decide; simpl; set_solver. Qed.

Lemma step_accounted c c' : step c c' -> accounted c -> accounted c'.
Proof.
  intros Hs Hacc. pose proof Hacc as (Hi & Hm & Hb).
  destruct Hs as [c p Hmax Hp|c t v|c t cur p Ht Hlt Heq Hp|c t cur v|c t cur|c p|c dst src Hd|c dst src];
    try done.
  - unfold accounted; simpl. rewrite size_add by done. split_and!; [|apply Hm..|done].
    rewrite Hi, wrap64_add_l. f_equal. lia.
  - unfold accounted; simpl. rewrite size_add by done.
    assert (Hne : max_ (limiter c) <> 0%Z).
    { intros E. rewrite E in Hlt. rewrite Hi in Heq. pose proof (wrap64_range (Z.of_nat (size (held_ c)))).
      unfold u64 in *. lia. }
    specialize (Hb Hne). destruct Hm as [Hm0 Hm1].
    rewrite wrap64_id in Hi by (unfold u64; lia). split_and!; [|done..|lia].
    rewrite <-Heq, Hi. f_equal. lia.
  - by apply accounted_release.
  - by apply accounted_transfer.
  - unfold permit_move_assign. case_decide; [done|].
    apply accounted_transfer; [apply release_not_held|by apply accounted_release].
Qed.

Lemma max_constant c c' : step c c' -> max_ (limiter c') = max_ (limiter c).
Proof.
  destruct 1; try done.
  - unfold permit_release. by case_decide.
  - unfold permit_transfer. by case_decide.
  - unfold permit_move_assign, permit_transfer, permit_release. by repeat case_decide.
Qed.

Lemma start_accounted m : u64 m -> accounted (start m).
Proof.
  intros Hm. unfold accounted, start; cbn [limiter held_ max_ in_flight_ ConcurrencyLimiter_new].
  change (size (∅ : gset permit)) with 0. split; [done|]. split; [done|]. destruct Hm. lia.
Qed.

Lemma reachable_accounted m c : u64 m -> rtc step (start m) c -> accounted c /\ max_ (limiter c) = m.
Proof.
  intros Hm Hr. pose proof (start_accounted m Hm) as Ha.
  assert (max_ (limiter (start m)) = m) as Hmax by done. revert Ha Hmax.
  induction Hr as [c|c1 c2 c3 Hs Hr IH]; intros Ha Hmax; [done|].
  apply IH; [by eapply step_accounted|]. by rewrite (max_constant _ _ Hs).
Qed.

(** C10: the limit is never exceeded, and slots are neither lost nor duplicated:
    in every interleaving of acquisitions, moves and releases by any number of
    threads, at most [max] permits are in use, and the counter is exactly the
    number of permits in use; so once every permit is gone it is zero again. *)
Theorem limiter_invariant m c :
  u64 m -> m <> 0%Z -> rtc step (start m) c ->
  (Z.of_nat (size (held_ c)) <= m)%Z /\ inFlight (limiter c) = Z.of_nat (size (held_ c)).
Proof.
  intros Hm Hne Hr. destruct (reachable_accounted m c Hm Hr) as [(Hi & _ & Hb) Hmax].
  rewrite Hmax in Hb. specialize (Hb Hne). split; [done|]. unfold inFlight. rewrite Hi.
  apply wrap64_id. unfold u64 in *. lia.
Qed.

Lemma limiter_invariant_witness :
  let c := mkConfig (mkLimiter 2 1) {[0]} ∅ in
  (Z.of_nat (size (held_ c)) <= 2)%Z /\ inFlight (limiter c) = Z.of_nat (size (held_ c)).
Proof.
  intros c. apply (limiter_invariant 2 c); [done|done|].
  eapply rtc_l; [apply (step_load _ 7 0); done|].
  eapply rtc_l; [apply (step_cas_success _ 7 0 0); done|].
  apply rtc_refl.
Defined.

(** ** The call without contention *)

(** A call that no other thread disturbs admits exactly when a slot is
    free (always when unlimited), takes exactly one slot, and is one of the
    interleavings above. *)
Theorem tryAcquire_uncontended c p t :
  accounted c -> p ∉ held_ c -> loops c !! t = None ->
  (Z.of_nat (size (held_ c)) < two64 - 1)%Z ->
  let r := tryAcquire (limiter c) in
  r.1 = (bool_decide (max_ (limiter c) = 0%Z) ||
         bool_decide (Z.of_nat (size (held_ c)) < max_ (limiter c))%Z) /\
  in_flight_ r.2 = (in_flight_ (limiter c) + if r.1 then 1 else 0)%Z /\
  rtc step c (mkConfig r.2 (if r.1 then {[p]} ∪ held_ c else held_ c) (loops c)).
Proof.
  intros (Hi & Hm & Hb) Hp Ht Hsz. cbn zeta. rewrite wrap64_id in Hi by (unfold u64; lia).
  unfold tryAcquire. destruct (max_ (limiter c) =? 0)%Z eqn:Em; bool_prop.
  - rewrite bool_decide_eq_true_2 by done. cbn [fst snd]. split_and!; [done| |].
    + simpl. apply wrap64_id. unfold u64. lia.
    + apply rtc_once. by apply step_unlimited.
  - rewrite (bool_decide_eq_false_2 (max_ (limiter c) = 0%Z)) by done. rewrite Hi. simpl orb.
    destruct (Z.of_nat (size (held_ c)) <? max_ (limiter c))%Z eqn:Elt; bool_prop; cbn [fst snd].
    + rewrite bool_decide_eq_true_2 by done. split_and!; [done| |].
      * simpl. apply wrap64_id. unfold u64. lia.
      * eapply rtc_l; [by apply (step_load c t (in_flight_ (limiter c)))|]. apply rtc_once.
        pose proof (step_cas_success (mkConfig (limiter c) (held_ c) (<[t:=in_flight_ (limiter c)]> (loops c)))
          t (in_flight_ (limiter c)) p) as Hs. simpl in Hs. rewrite delete_insert_id in Hs by done.
        rewrite <-Hi. apply Hs; [by rewrite lookup_insert_eq|by rewrite Hi|done|done].
    + rewrite bool_decide_eq_false_2 by lia. split_and!; [done|lia|].
      eapply rtc_l; [by apply (step_load c t (in_flight_ (limiter c)))|]. apply rtc_once.
      pose proof (step_at_capacity (mkConfig (limiter c) (held_ c) (<[t:=in_flight_ (limiter c)]> (loops c)))
        t (in_flight_ (limiter c))) as Hs. simpl in Hs. rewrite delete_insert_id in Hs by done.
      apply Hs; [by rewrite lookup_insert_eq|by rewrite Hi].
Qed.

Lemma tryAcquire_uncontended_witness :
  (tryAcquire (limiter (start 1))).1 = true.
Proof.
  apply (tryAcquire_uncontended (start 1) 0 0); [by apply start_accounted|done..].
Defined.

End ConcurrencyLimiter.
