(* ===== verification/TcpConnection.v ===== *)
(** * TCP connections (net/tcp_connection.h, net/tcp_connection.cc)

    A connection with its channel, buffers and timers, on the loop it belongs
    to.  Around the connection's own fields the model keeps what it acts on:
    the loop's poller, the live timers, the tasks other threads queued, and the
    socket: [wire] is what the kernel accepted, [writes] the results the next
    calls of [::write] will have.

    Callbacks of the application and of the owner run in the middle of the
    handlers and call back into the connection.  What they do is given by
    [scripts]: each invocation takes the next script and performs its
    operations, nested callbacks included.  A theorem for all scripts is a
    theorem for every application whose callbacks return.  An invocation
    consumes a script, so [callback] needs no more fuel than there are scripts
    ([callback_fuel]). *)

From stdpp Require Import gmap.
From S2P Require Import Prelude Buffer EventLoop.
Import Channel EPollPoller.

Module TcpConnection.

Inductive State := kConnecting | kConnected | kDisconnecting | kDisconnected.
#[export] Instance State_eq_dec : EqDecision State.
Proof. solve_decision. Defined.

(** The callbacks; the connection callback sees whether [connected()]. *)
Inductive cb_kind :=
| CbConnection (connected : bool) | CbMessage | CbWriteComplete | CbHighWater (queued : nat) | CbClose.

(** The setters' fields: timeouts, limits and which callbacks are set. *)
Record Settings := mkSettings {
  idle_seconds_ : Z;
  write_seconds_ : Z;
  max_age_seconds_ : Z;
  max_input_buffer_size_ : Z;
  high_water_mark_ : Z;
  has_connection : bool;
  has_message : bool;
  has_write_complete : bool;
  has_high_water : bool;
  has_close : bool;
}.
#[export] Instance Settings_settable : Settable Settings := fun s =>
  mkSettings (idle_seconds_ s) (write_seconds_ s) (max_age_seconds_ s) (max_input_buffer_size_ s) (high_water_mark_ s)
    (has_connection s) (has_message s) (has_write_complete s) (has_high_water s) (has_close s).

(** The initial values and the setters; of a callback, whether it is not empty. *)
Definition Settings_new : Settings := mkSettings 0 0 0 0 (64 * 1024 * 1024) false false false false false.
Definition setIdleTimeout (idle_seconds : Z) (s : Settings) : Settings := s <| idle_seconds_ := idle_seconds |>.
Definition setWriteTimeout (write_seconds : Z) (s : Settings) : Settings := s <| write_seconds_ := write_seconds |>.
Definition setMaxInputBufferSize (max_bytes : Z) (s : Settings) : Settings := s <| max_input_buffer_size_ := max_bytes |>.
Definition setMaxConnectionAge (max_age : Z) (s : Settings) : Settings := s <| max_age_seconds_ := max_age |>.
Definition setConnectionCallback (cb : bool) (s : Settings) : Settings := s <| has_connection := cb |>.
Definition setMessageCallback (cb : bool) (s : Settings) : Settings := s <| has_message := cb |>.
Definition setWriteCompleteCallback (cb : bool) (s : Settings) : Settings := s <| has_write_complete := cb |>.
Definition setHighWaterMarkCallback (cb : bool) (mark : Z) (s : Settings) : Settings :=
  s <| has_high_water := cb |> <| high_water_mark_ := mark |>.
Definition setCloseCallback (cb : bool) (s : Settings) : Settings := s <| has_close := cb |>.

(** What a callback does with the connection, on the loop thread. *)
Inductive app_op :=
| Send (s : bytes) | Shutdown | ForceClose | StopRead | StartRead
| Consume (n : nat)            (* retrieve from the input buffer *)
| Configure (s : Settings)     (* the setters *)
| ConnectDestroyed.            (* the owner's removal *)

Definition script := cb_kind -> list app_op.

Inductive timer_kind := IdleTimer | WriteTimer | MaxAgeTimer.

(** Tasks queued to the loop by other threads. *)
Inductive loop_task :=
| TSend (s : bytes) | TShutdown | TForceClose | TStopRead | TStartRead.

Inductive write_result := WriteOk (n : nat) | WriteError (errno : Z).

Inductive event :=
| ECallback (k : cb_kind)
| EShutdownWrite (st : State) (written sent : bytes).

Record World := mkWorld {
  (* the connection *)
  state_ : State;
  settings : Settings;
  channel_ : Channel;
  input_buffer_ : Buffer.Buffer;
  output_buffer_ : Buffer.Buffer;
  bytes_read_ : Z;
  bytes_written_ : Z;
  idle_timer_ : nat;
  idle_timer_armed_ : bool;
  write_timer_ : nat;
  write_timer_armed_ : bool;
  max_age_timer_ : nat;
  max_age_timer_armed_ : bool;
  reading_ : bool;
  (* the loop *)
  poller : EPollPoller;
  timers : gmap nat (timer_kind * Z);
  next_timer : nat;
  stale : bool;                  (* a deleted timer was cancelled *)
  tasks : list loop_task;
  (* the socket *)
  writes : list write_result;
  wire : bytes;
  (* the application *)
  scripts : list script;
  sent : list bytes;             (* the messages [sendInLoop] took, in order *)
  trace : list event;
}.
#[export] Instance World_settable : Settable World := fun w =>
  mkWorld (state_ w) (settings w) (channel_ w) (input_buffer_ w) (output_buffer_ w) (bytes_read_ w)
    (bytes_written_ w) (idle_timer_ w) (idle_timer_armed_ w) (write_timer_ w) (write_timer_armed_ w)
    (max_age_timer_ w) (max_age_timer_armed_ w) (reading_ w) (poller w) (timers w) (next_timer w) (stale w)
    (tasks w) (writes w) (wire w) (scripts w) (sent w) (trace w).

Definition log (e : event) (w : World) : World := w <| trace := trace w ++ [e] |>.
Definition setState (s : State) (w : World) : World := w <| state_ := s |>.
Definition connected (w : World) : bool := bool_decide (state_ w = kConnected).
Definition outputBufferPending (w : World) : nat := Buffer.readableBytes (output_buffer_ w).

(** The constructor: the channel's three callbacks are set. *)
Definition TcpConnection_new (fd : Z) (s : Settings) (p : EPollPoller) (ws : list write_result)
    (scr : list script) : World :=
  mkWorld kConnecting s (mkChannel fd IO_NONE IO_NONE false true true true)
    (Buffer.Buffer_new Buffer.kInitialSize) (Buffer.Buffer_new Buffer.kInitialSize) 0 0 0 false 0 false 0 false
    true p ∅ 0 false [] ws [] scr [] [].

(** [Channel::update] and [Channel::remove] *)
Definition set_channel (f : Channel -> Channel) (w : World) : World :=
  let c := f (channel_ w) in w <| channel_ := c |> <| poller := updateChannel c (poller w) |>.
Definition channel_remove (w : World) : World := w <| poller := removeChannel (channel_ w) (poller w) |>.

(** [EventLoop::runAfter] and [EventLoop::cancel] on the loop thread: what the
    timer queue promises.  Cancelling a timer that is gone is an error of the
    caller. *)
Definition runAfter (delay_ms : Z) (k : timer_kind) (w : World) : nat * World :=
  (next_timer w, w <| timers := <[next_timer w := (k, delay_ms)]> (timers w) |>
                   <| next_timer := S (next_timer w) |>).
Definition cancel (id : nat) (w : World) : World :=
  match timers w !! id with
  | Some _ => w <| timers := delete id (timers w) |>
  | None => w <| stale := true |>
  end.

Definition cancelIdleTimer (w : World) : World :=
  if idle_timer_armed_ w then (cancel (idle_timer_ w) w) <| idle_timer_armed_ := false |> else w.
Definition cancelWriteTimer (w : World) : World :=
  if write_timer_armed_ w then (cancel (write_timer_ w) w) <| write_timer_armed_ := false |> else w.
Definition cancelMaxAgeTimer (w : World) : World :=
  if max_age_timer_armed_ w then (cancel (max_age_timer_ w) w) <| max_age_timer_armed_ := false |> else w.

Definition resetIdleTimer (w : World) : World :=
  if (idle_seconds_ (settings w) =? 0)%Z || bool_decide (state_ w <> kConnected) then w
  else
    let w1 := cancelIdleTimer w in
    let '(id, w2) := runAfter (idle_seconds_ (settings w1) * 1000) IdleTimer w1 in
    w2 <| idle_timer_ := id |> <| idle_timer_armed_ := true |>.

Definition armWriteTimer (w : World) : World :=
  if (write_seconds_ (settings w) =? 0)%Z || write_timer_armed_ w || bool_decide (state_ w <> kConnected) then w
  else
    let '(id, w1) := runAfter (write_seconds_ (settings w) * 1000) WriteTimer w in
    w1 <| write_timer_ := id |> <| write_timer_armed_ := true |>.

Definition armMaxAgeTimer (w : World) : World :=
  if (max_age_seconds_ (settings w) =? 0)%Z || max_age_timer_armed_ w then w
  else
    let '(id, w1) := runAfter (max_age_seconds_ (settings w) * 1000) MaxAgeTimer w in
    w1 <| max_age_timer_ := id |> <| max_age_timer_armed_ := true |>.

(** [::write(fd, s)]: the kernel takes a prefix, or fails. *)
Definition sys_write (s : bytes) (w : World) : write_result * World :=
  match writes w with
  | [] => (WriteError 11, w)
  | WriteOk n :: rest =>
    let n := Nat.min n (length s) in
    (WriteOk n, w <| writes := rest |> <| wire := wire w ++ take n s |>)
  | WriteError e :: rest => (WriteError e, w <| writes := rest |>)
  end.

Definition count_written (n : nat) (w : World) : World :=
  w <| bytes_written_ := wrap64 (bytes_written_ w + Z.of_nat n) |>.

Definition shutdownInLoop (w : World) : World :=
  if isWriting (channel_ w) then w
  else log (EShutdownWrite (state_ w) (wire w) (concat (sent w))) w.

Definition stopReadInLoop (w : World) : World :=
  if reading_ w && isReading (channel_ w)
  then (set_channel disableRead w) <| reading_ := false |> else w.

Definition startReadInLoop (w : World) : World :=
  if negb (reading_ w) && connected w
  then (set_channel enableRead w) <| reading_ := true |> else w.

(** [runInLoop] for a member call: inline on the loop thread, else queued. *)
Definition in_loop_or_queue (in_loop : bool) (f : World -> World) (t : loop_task) (w : World) : World :=
  if in_loop then f w else w <| tasks := tasks w ++ [t] |>.

Definition shutdown (in_loop : bool) (w : World) : World :=
  if bool_decide (state_ w = kConnected)
  then in_loop_or_queue in_loop shutdownInLoop TShutdown (setState kDisconnecting w) else w.
Definition stopRead (in_loop : bool) (w : World) : World := in_loop_or_queue in_loop stopReadInLoop TStopRead w.
Definition startRead (in_loop : bool) (w : World) : World := in_loop_or_queue in_loop startReadInLoop TStartRead w.

(** ** The operations that run callbacks *)
Section ops.
Context (callback : cb_kind -> World -> World).

Definition notify (has : Settings -> bool) (k : cb_kind) (w : World) : World :=
  if has (settings w) then callback k w else w.

Definition handleClose (w : World) : World :=
  let w := setState kDisconnected w in
  let w := cancelIdleTimer w in
  let w := cancelWriteTimer w in
  let w := cancelMaxAgeTimer w in
  let w := set_channel disableAll w in
  let w := notify has_connection (CbConnection (connected w)) w in
  notify has_close CbClose w.

(** [getSocketError] only decides what is logged. *)
Definition handleError (w : World) : World := handleClose w.

Definition forceCloseInLoop (w : World) : World :=
  if bool_decide (state_ w = kDisconnected) then w else handleClose w.

Definition forceClose (in_loop : bool) (w : World) : World :=
  if bool_decide (state_ w = kConnected) || bool_decide (state_ w = kDisconnecting)
  then in_loop_or_queue in_loop forceCloseInLoop TForceClose (setState kDisconnecting w) else w.

(** The fast path of [sendInLoop]: the bytes left to queue. *)
Definition write_directly (s : bytes) (w : World) : bytes * World :=
  if negb (isWriting (channel_ w)) && (Buffer.readableBytes (output_buffer_ w) =? 0) then
    match sys_write s w with
    | (WriteOk n, w1) =>
      let w2 := count_written n w1 in
      (drop n s, if length (drop n s) =? 0 then notify has_write_complete CbWriteComplete w2 else w2)
    | (WriteError _, w1) => (s, w1)
    end
  else (s, w).

Definition high_water (remaining : nat) (w : World) : World :=
  let old_len := Buffer.readableBytes (output_buffer_ w) in
  if (Z.of_nat old_len <? high_water_mark_ (settings w))%Z &&
     (high_water_mark_ (settings w) <=? Z.of_nat (old_len + remaining))%Z &&
     has_high_water (settings w)
  then callback (CbHighWater (old_len + remaining)) w else w.

Definition queue_output (s : bytes) (w : World) : World :=
  if length s =? 0 then w
  else
    let w := high_water (length s) w in
    let w := w <| output_buffer_ := Buffer.append s (output_buffer_ w) |> in
    let w := if isWriting (channel_ w) then w else set_channel enableWrite w in
    armWriteTimer w.

Definition sendInLoop (s : bytes) (w : World) : World :=
  if bool_decide (state_ w = kDisconnected) then w
  else
    let w := w <| sent := sent w ++ [s] |> in
    let '(remaining, w) := write_directly s w in
    queue_output remaining w.

Definition send (in_loop : bool) (s : bytes) (w : World) : World :=
  if bool_decide (state_ w = kConnected) then in_loop_or_queue in_loop (sendInLoop s) (TSend s) w else w.

Definition handleWrite (w : World) : World :=
  if negb (isWriting (channel_ w)) then w
  else
    let out := Buffer.content (output_buffer_ w) in
    match sys_write out w with
    | (WriteOk (S _ as n), w) =>
      let w := count_written n w in
      let w := w <| output_buffer_ := Buffer.retrieve n (output_buffer_ w) |> in
      if Buffer.readableBytes (output_buffer_ w) =? 0 then
        let w := set_channel disableWrite w in
        let w := cancelWriteTimer w in
        let w := notify has_write_complete CbWriteComplete w in
        if bool_decide (state_ w = kDisconnecting) then shutdownInLoop w else w
      else w
    | (_, w) => w
    end.

(** The cap on the input buffer, after the application consumed. *)
Definition enforce_input_cap (w : World) : World :=
  let m := max_input_buffer_size_ (settings w) in
  if (0 <? m)%Z && (m <? Z.of_nat (Buffer.readableBytes (input_buffer_ w)))%Z then forceClose true w else w.

Definition handleRead (readv : nat -> Buffer.readv_result) (w : World) : World :=
  let '(r, buf) := Buffer.readFd readv (input_buffer_ w) in
  let w := w <| input_buffer_ := buf |> in
  match r with
  | inr (S _ as n) =>
    let w := w <| bytes_read_ := wrap64 (bytes_read_ w + Z.of_nat n) |> in
    let w := resetIdleTimer w in
    let w := notify has_message CbMessage w in
    enforce_input_cap w
  | inr 0 => handleClose w
  | inl _ => handleError w
  end.

Definition connectEstablished (w : World) : World :=
  let w := setState kConnected w in
  let w := w <| channel_ := (channel_ w) <| tied_ := true |> |> in
  let w := set_channel enableRead w in
  let w := notify has_connection (CbConnection (connected w)) w in
  armMaxAgeTimer (resetIdleTimer w).

Definition connectDestroyed (w : World) : World :=
  let w := cancelIdleTimer w in
  let w := cancelWriteTimer w in
  let w := cancelMaxAgeTimer w in
  let w := if bool_decide (state_ w = kConnected)
           then let w := setState kDisconnected w in
                let w := set_channel disableAll w in
                notify has_connection (CbConnection (connected w)) w
           else w in
  channel_remove w.

Definition do_op (op : app_op) (w : World) : World :=
  match op with
  | Send s => send true s w
  | Shutdown => shutdown true w
  | ForceClose => forceClose true w
  | StopRead => stopRead true w
  | StartRead => startRead true w
  | Consume n =>
    w <| input_buffer_ := Buffer.retrieve (Nat.min n (Buffer.readableBytes (input_buffer_ w))) (input_buffer_ w) |>
  | Configure s => w <| settings := s |>
  | ConnectDestroyed => connectDestroyed w
  end.

Definition run_ops (ops : list app_op) (w : World) : World := fold_left (fun w op => do_op op w) ops w.

(** The timers' functions. *)
Definition on_timer (k : timer_kind) (w : World) : World :=
  match k with
  | IdleTimer => forceClose true w
  | WriteTimer =>
    let w := w <| write_timer_armed_ := false |> in
    if 0 <? Buffer.readableBytes (output_buffer_ w) then forceClose true w else w
  | MaxAgeTimer => forceClose true (w <| max_age_timer_armed_ := false |>)
  end.

(** The loop runs an expired timer, then deletes it. *)
Definition fire (id : nat) (w : World) : World :=
  match timers w !! id with
  | Some (k, _) => let w := on_timer k w in w <| timers := delete id (timers w) |>
  | None => w
  end.

Definition run_loop_task (t : loop_task) (w : World) : World :=
  match t with
  | TSend s => sendInLoop s w
  | TShutdown => shutdownInLoop w
  | TForceClose => forceCloseInLoop w
  | TStopRead => stopReadInLoop w
  | TStartRead => startReadInLoop w
  end.

(** [Channel::handleEvents] on this connection's channel. *)
Definition dispatch (revents : Z) (readv : nat -> Buffer.readv_result) (w : World) : World :=
  let w := w <| channel_ := setRevents revents (channel_ w) |> in
  fold_left (fun w cb => match cb with
                         | ErrorCallback => handleError w
                         | ReadCallback => handleRead readv w
                         | WriteCallback => handleWrite w
                         end) (handleEvents true (channel_ w)) w.
End ops.

(** ** Tying the knot *)
Fixpoint run_callback (fuel : nat) (k : cb_kind) (w : World) : World :=
  let w := log (ECallback k) w in
  match fuel, scripts w with
  | S n, s :: rest => run_ops (run_callback n) (s k) (w <| scripts := rest |>)
  | _, _ => w
  end.

Definition callback (k : cb_kind) (w : World) : World := run_callback (length (scripts w)) k w.

(** The steps of the loop thread and of other threads. *)
Inductive step : World -> World -> Prop :=
| step_established w : state_ w = kConnecting -> step w (connectEstablished callback w)
| step_dispatch revents readv w : step w (dispatch callback revents readv w)
| step_fire id w : step w (fire callback id w)
| step_task t ts w : tasks w = t :: ts -> step w (run_loop_task callback t (w <| tasks := ts |>))
| step_destroyed w : step w (connectDestroyed callback w)
| step_op op w : step w (do_op callback op w)
| step_send s w : step w (send callback false s w)
| step_shutdown w : step w (shutdown false w)
| step_forceClose w : step w (forceClose callback false w)
| step_stopRead w : step w (stopRead false w)
| step_startRead w : step w (startRead false w)
| step_kernel rs w : step w (w <| writes := rs |>).

(** ** Fuel: every invocation consumes a script *)
Definition scripts_le (n : nat) (w : World) : Prop := length (scripts w) <= n.

Lemma cancel_scripts id w : scripts (cancel id w) = scripts w.
Proof. unfold cancel. by destruct (timers w !! id). Qed.

Lemma cancelIdle_scripts w : scripts (cancelIdleTimer w) = scripts w.
Proof. unfold cancelIdleTimer. destruct (idle_timer_armed_ w); [|done]. apply cancel_scripts. Qed.
Lemma cancelWrite_scripts w : scripts (cancelWriteTimer w) = scripts w.
Proof. unfold cancelWriteTimer. destruct (write_timer_armed_ w); [|done]. apply cancel_scripts. Qed.
Lemma cancelMaxAge_scripts w : scripts (cancelMaxAgeTimer w) = scripts w.
Proof. unfold cancelMaxAgeTimer. destruct (max_age_timer_armed_ w); [|done]. apply cancel_scripts. Qed.
Lemma resetIdle_scripts w : scripts (resetIdleTimer w) = scripts w.
Proof. unfold resetIdleTimer. case_match; [done|]. simpl. apply cancelIdle_scripts. Qed.
Lemma armWrite_scripts w : scripts (armWriteTimer w) = scripts w.
Proof. unfold armWriteTimer. by case_match. Qed.
Lemma armMaxAge_scripts w : scripts (armMaxAgeTimer w) = scripts w.
Proof. unfold armMaxAgeTimer. by case_match. Qed.
Lemma shutdownInLoop_scripts w : scripts (shutdownInLoop w) = scripts w.
Proof. unfold shutdownInLoop. by case_match. Qed.
Lemma stopRead_scripts b w : scripts (stopRead b w) = scripts w.
Proof. unfold stopRead, in_loop_or_queue, stopReadInLoop. destruct b; [by case_match|done]. Qed.
Lemma startRead_scripts b w : scripts (startRead b w) = scripts w.
Proof. unfold startRead, in_loop_or_queue, startReadInLoop. destruct b; [by case_match|done]. Qed.
Lemma shutdown_scripts b w : scripts (shutdown b w) = scripts w.
Proof. unfold shutdown, in_loop_or_queue. case_match; [|done]. destruct b; [by rewrite shutdownInLoop_scripts|done]. Qed.

Lemma sys_write_scripts s w : scripts (sys_write s w).2 = scripts w.
Proof. unfold sys_write. by destruct (writes w) as [|[]]. Qed.

(** The world in which [handleClose] starts its notifications. *)
Definition closing (w : World) : World :=
  set_channel disableAll (cancelMaxAgeTimer (cancelWriteTimer (cancelIdleTimer (setState kDisconnected w)))).
Definition destroying (w : World) : World := cancelMaxAgeTimer (cancelWriteTimer (cancelIdleTimer w)).

Lemma closing_scripts w : scripts (closing w) = scripts w.
Proof. unfold closing. simpl. by rewrite cancelMaxAge_scripts, cancelWrite_scripts, cancelIdle_scripts. Qed.
Lemma destroying_scripts w : scripts (destroying w) = scripts w.
Proof. unfold destroying. by rewrite cancelMaxAge_scripts, cancelWrite_scripts, cancelIdle_scripts. Qed.

Section fuel.
Context (cb1 cb2 : cb_kind -> World -> World) (n : nat).
Definition agree_at (f g : World -> World) (w : World) : Prop := f w = g w /\ scripts_le n (f w).
Hypothesis Hcb : forall k w, scripts_le n w -> agree_at (cb1 k) (cb2 k) w.

Lemma notify_agree has k w : scripts_le n w -> agree_at (notify cb1 has k) (notify cb2 has k) w.
Proof. intros Hw. unfold agree_at, notify. destruct (has _); [by apply Hcb|done]. Qed.

Lemma handleClose_agree w : scripts_le n w -> agree_at (handleClose cb1) (handleClose cb2) w.
Proof.
  intros Hw. unfold agree_at, handleClose. fold (closing w).
  assert (Hc : scripts_le n (closing w)) by (unfold scripts_le; by rewrite closing_scripts).
  destruct (notify_agree has_connection (CbConnection (connected (closing w))) (closing w) Hc) as [E H1].
  rewrite <-E. by apply notify_agree.
Qed.

Lemma forceClose_agree w : scripts_le n w -> agree_at (forceClose cb1 true) (forceClose cb2 true) w.
Proof.
  intros Hw. unfold agree_at, forceClose, in_loop_or_queue, forceCloseInLoop. case_match; [|done].
  case_match; [done|]. by apply handleClose_agree.
Qed.

Lemma queue_output_agree s w : scripts_le n w -> agree_at (queue_output cb1 s) (queue_output cb2 s) w.
Proof.
  intros Hw. unfold agree_at, queue_output. case_match; [done|].
  assert (Hh : agree_at (high_water cb1 (length s)) (high_water cb2 (length s)) w).
  { unfold agree_at, high_water. case_match; [by apply Hcb|done]. }
  destruct Hh as [E Hh]. rewrite <-E. split; [done|]. unfold scripts_le. rewrite armWrite_scripts.
  by case_match.
Qed.

Lemma sendInLoop_agree s w : scripts_le n w -> agree_at (sendInLoop cb1 s) (sendInLoop cb2 s) w.
Proof.
  intros Hw. unfold agree_at, sendInLoop. case_match; [done|].
  set (w1 := w <| sent := sent w ++ [s] |>). assert (Hw1 : scripts_le n w1) by exact Hw.
  assert (Hd : write_directly cb1 s w1 = write_directly cb2 s w1 /\ scripts_le n (write_directly cb1 s w1).2).
  { unfold write_directly. case_match; [|done]. pose proof (sys_write_scripts s w1) as Hs.
    destruct (sys_write s w1) as [[m|e] w2]; cbn in Hs |- *; unfold scripts_le; [|by rewrite Hs].
    case_match; cbn; [|by rewrite Hs].
    destruct (notify_agree has_write_complete CbWriteComplete (count_written m w2)) as [E Hn];
      [by unfold scripts_le; simpl; rewrite Hs|]. by rewrite E in Hn |- *. }
  destruct Hd as [E Hd]. rewrite <-E. destruct (write_directly cb1 s w1) as [r w2]. by apply queue_output_agree.
Qed.

Lemma connectDestroyed_agree w : scripts_le n w -> agree_at (connectDestroyed cb1) (connectDestroyed cb2) w.
Proof.
  intros Hw. unfold agree_at, connectDestroyed. fold (destroying w).
  assert (Hc : scripts_le n (destroying w)) by (unfold scripts_le; by rewrite destroying_scripts).
  case_match; [|done].
  match goal with |- context [notify cb1 has_connection ?k ?w'] =>
    destruct (notify_agree has_connection k w') as [E H1]; [exact Hc|] end.
  rewrite <-E. split; [reflexivity|exact H1].
Qed.

Lemma run_ops_agree ops : forall w, scripts_le n w -> agree_at (run_ops cb1 ops) (run_ops cb2 ops) w.
Proof.
  induction ops as [|op ops IH]; intros w Hw; [done|].
  assert (H1 : agree_at (do_op cb1 op) (do_op cb2 op) w).
  { destruct op; unfold agree_at, do_op.
    - unfold send. case_match; [by apply sendInLoop_agree|done].
    - split; [reflexivity|]. unfold scripts_le. by rewrite shutdown_scripts.
    - by apply forceClose_agree.
    - split; [reflexivity|]. unfold scripts_le. by rewrite stopRead_scripts.
    - split; [reflexivity|]. unfold scripts_le. by rewrite startRead_scripts.
    - split; [reflexivity|exact Hw].
    - split; [reflexivity|exact Hw].
    - by apply connectDestroyed_agree. }
  destruct H1 as [E H1]. unfold agree_at, run_ops. cbn [fold_left]. rewrite <-E. by apply IH.
Qed.
End fuel.

(** As many callback invocations as there are scripts are enough fuel. *)
Lemma callback_fuel fuel k w :
  length (scripts w) <= fuel -> run_callback fuel k w = callback k w.
Proof.
  unfold callback. intros Hf.
  cut (forall m f1 f2 k w, length (scripts w) <= m -> m <= f1 -> m <= f2 ->
         run_callback f1 k w = run_callback f2 k w /\ scripts_le m (run_callback f1 k w)).
  { intros Hcut. by apply (Hcut (length (scripts w)) fuel (length (scripts w)) k w). }
  clear. induction m as [|m IH]; intros f1 f2 k w Hw H1 H2.
  - assert (E : scripts w = []) by (destruct (scripts w); [done|simpl in Hw; lia]).
    assert (Hrun : forall f, run_callback f k w = log (ECallback k) w) by (intros [|f]; [done|]; simpl; by rewrite E).
    rewrite !Hrun. split; [done|]. unfold scripts_le. simpl. lia.
  - destruct f1 as [|f1], f2 as [|f2]; [lia..|]. cbn [run_callback]. simpl (scripts (log _ _)).
    destruct (scripts w) as [|s rest] eqn:E; [split; [done|]; unfold scripts_le; simpl; rewrite E; simpl; lia|].
    simpl in Hw. destruct (run_ops_agree (run_callback f1) (run_callback f2) m) with
      (ops := s k) (w := (log (ECallback k) w) <| scripts := rest |>) as [E1 H3].
    + intros k' w' Hw'. destruct (IH f1 f2 k' w' Hw' ltac:(lia) ltac:(lia)). by split.
    + unfold scripts_le; simpl; lia.
    + split; [done|]. unfold scripts_le in *. lia.
Qed.

(** ** The output stream *)

(** A high-water-mark callback is quiet when it leaves the output alone: it may
    stop or resume reading, consume input and change settings. *)
Definition quiet_op (op : app_op) : Prop :=
  match op with StopRead | StartRead | Consume _ | Configure _ => True | _ => False end.
Definition quiet_script (s : script) : Prop := forall n, Forall quiet_op (s (CbHighWater n)).

(** Half-closing happens after everything sent was written. *)
Definition event_ok (e : event) : Prop :=
  match e with EShutdownWrite st written sent => st <> kDisconnected -> written = sent | _ => True end.

Record stream_ok (w : World) : Prop := {
  so_in : Buffer.buffer_wf (input_buffer_ w);
  so_out : Buffer.buffer_wf (output_buffer_ w);
  so_wire : wire w ++ Buffer.content (output_buffer_ w) = concat (sent w);
  so_writing : state_ w <> kDisconnected -> isWriting (channel_ w) = negb (Buffer.readableBytes (output_buffer_ w) =? 0);
  so_closed : state_ w = kDisconnected -> isWriting (channel_ w) = false;
  so_trace : Forall event_ok (trace w);
  so_scripts : Forall quiet_script (scripts w);
}.

(** The fields the output stream depends on, and preservation from one world to
    another that agrees on them. *)
Definition same_stream (w w' : World) : Prop :=
  output_buffer_ w' = output_buffer_ w /\ wire w' = wire w /\ sent w' = sent w /\ state_ w' = state_ w /\
  isWriting (channel_ w') = isWriting (channel_ w) /\ trace w' = trace w /\ scripts w' = scripts w.

Lemma same_stream_refl w : same_stream w w.
Proof. by repeat split. Qed.

Lemma same_stream_trans w1 w2 w3 : same_stream w1 w2 -> same_stream w2 w3 -> same_stream w1 w3.
Proof. intros (?&?&?&?&?&?&?) (?&?&?&?&?&?&?). repeat split; congruence. Qed.

Lemma same_stream_ok w w' :
  same_stream w w' -> Buffer.buffer_wf (input_buffer_ w') -> stream_ok w -> stream_ok w'.
Proof.
  intros (Ho & Hw & Hs & Hst & Hi & Ht & Hc) Hin [? ? ? ? ? ? ?].
  split; rewrite ?Ho, ?Hw, ?Hs, ?Hst, ?Hi, ?Ht, ?Hc; done.
Qed.

(** Interest in reading does not change interest in writing. *)
Lemma writing_enableRead c : isWriting (enableRead c) = isWriting c.
Proof. exact (flag_enable c 0 1 ltac:(lia) ltac:(lia)). Qed.
Lemma writing_disableRead c : isWriting (disableRead c) = isWriting c.
Proof. exact (flag_disable c 0 1 ltac:(lia) ltac:(lia)). Qed.
Lemma writing_enableWrite c : isWriting (enableWrite c) = true.
Proof. exact (flag_enable c 1 1 ltac:(lia) ltac:(lia)). Qed.
Lemma writing_disableWrite c : isWriting (disableWrite c) = false.
Proof. exact (flag_disable c 1 1 ltac:(lia) ltac:(lia)). Qed.

Lemma cancel_same id w : same_stream w (cancel id w) /\ input_buffer_ (cancel id w) = input_buffer_ w.
Proof. unfold cancel. destruct (timers w !! id); (split; [repeat split|reflexivity]). Qed.

Ltac timer_same := first
  [ apply cancel_same
  | split; [repeat split; reflexivity|reflexivity] ].

Lemma cancelIdle_same w : same_stream w (cancelIdleTimer w) /\ input_buffer_ (cancelIdleTimer w) = input_buffer_ w.
Proof. unfold cancelIdleTimer. destruct (idle_timer_armed_ w); timer_same. Qed.
Lemma cancelWrite_same w : same_stream w (cancelWriteTimer w) /\ input_buffer_ (cancelWriteTimer w) = input_buffer_ w.
Proof. unfold cancelWriteTimer. destruct (write_timer_armed_ w); timer_same. Qed.
Lemma cancelMaxAge_same w : same_stream w (cancelMaxAgeTimer w) /\ input_buffer_ (cancelMaxAgeTimer w) = input_buffer_ w.
Proof. unfold cancelMaxAgeTimer. destruct (max_age_timer_armed_ w); timer_same. Qed.
Lemma resetIdle_same w : same_stream w (resetIdleTimer w) /\ input_buffer_ (resetIdleTimer w) = input_buffer_ w.
Proof. unfold resetIdleTimer. case_match; [timer_same|]. apply cancelIdle_same. Qed.
Lemma armWrite_same w : same_stream w (armWriteTimer w) /\ input_buffer_ (armWriteTimer w) = input_buffer_ w.
Proof. unfold armWriteTimer. case_match; timer_same. Qed.
Lemma armMaxAge_same w : same_stream w (armMaxAgeTimer w) /\ input_buffer_ (armMaxAgeTimer w) = input_buffer_ w.
Proof. unfold armMaxAgeTimer. case_match; timer_same. Qed.

Lemma same_ok w w' :
  same_stream w w' /\ input_buffer_ w' = input_buffer_ w -> stream_ok w -> stream_ok w'.
Proof. intros [Hs Hi] Hok. eapply same_stream_ok; [done| |done]. rewrite Hi. apply Hok. Qed.

Lemma destroying_same w : same_stream w (destroying w) /\ input_buffer_ (destroying w) = input_buffer_ w.
Proof.
  unfold destroying. destruct (cancelIdle_same w) as [S1 I1].
  destruct (cancelWrite_same (cancelIdleTimer w)) as [S2 I2].
  destruct (cancelMaxAge_same (cancelWriteTimer (cancelIdleTimer w))) as [S3 I3].
  split; [|congruence]. eauto using same_stream_trans.
Qed.

(** Closing in whatever state leaves nothing to write. *)
Lemma closing_ok w : stream_ok w -> stream_ok (closing w).
Proof.
  intros [Hin Hout Hw _ _ Ht Hc]. unfold closing. fold (destroying (setState kDisconnected w)).
  destruct (destroying_same (setState kDisconnected w)) as [(Ho & Hwi & Hs & Hst & _ & Htr & Hsc) Hi].
  set (d := destroying (setState kDisconnected w)) in *. simpl in Ho, Hwi, Hs, Hst, Htr, Hsc, Hi.
  split; simpl; rewrite ?Ho, ?Hwi, ?Hs, ?Hst, ?Htr, ?Hsc, ?Hi; done.
Qed.

Lemma stopReadInLoop_same w : same_stream w (stopReadInLoop w) /\ input_buffer_ (stopReadInLoop w) = input_buffer_ w.
Proof.
  unfold stopReadInLoop. case_match; [|timer_same]. split; [|reflexivity].
  repeat split. simpl. apply writing_disableRead.
Qed.
Lemma startReadInLoop_same w : same_stream w (startReadInLoop w) /\ input_buffer_ (startReadInLoop w) = input_buffer_ w.
Proof.
  unfold startReadInLoop. case_match; [|timer_same]. split; [|reflexivity].
  repeat split. simpl. apply writing_enableRead.
Qed.

Lemma consume_wf n b :
  Buffer.buffer_wf b -> Buffer.buffer_wf (Buffer.retrieve (Nat.min n (Buffer.readableBytes b)) b).
Proof. intros Hb. apply Buffer.retrieve_spec; [done|lia]. Qed.

Lemma shutdownInLoop_ok w : stream_ok w -> stream_ok (shutdownInLoop w).
Proof.
  intros Hok. unfold shutdownInLoop. destruct (isWriting (channel_ w)) eqn:E; [done|].
  destruct Hok as [Hin Hout Hw Hwr Hcl Ht Hc]. split; try done. simpl. apply Forall_app. split; [done|].
  constructor; [|constructor]. intros Hst. simpl. specialize (Hwr Hst). rewrite E in Hwr.
  symmetry in Hwr. apply negb_false_iff, Nat.eqb_eq in Hwr.
  rewrite <-Buffer.length_content in Hwr by done. apply length_0_nil in Hwr.
  rewrite Hwr, app_nil_r in Hw. done.
Qed.

Lemma shutdown_ok b w : stream_ok w -> stream_ok (shutdown b w).
Proof.
  intros Hok. unfold shutdown, in_loop_or_queue. case_match; bool_prop; [|done].
  assert (H1 : stream_ok (setState kDisconnecting w)).
  { destruct Hok as [? ? ? Hwr ? ? ?]. split; simpl; try done. intros _. apply Hwr. congruence. }
  destruct b; [by apply shutdownInLoop_ok|]. destruct H1; by split.
Qed.

(** What a quiet callback guarantees. *)
Record quietly (w w' : World) : Prop := {
  q_out : output_buffer_ w' = output_buffer_ w;
  q_wire : wire w' = wire w;
  q_sent : sent w' = sent w;
  q_state : state_ w' = state_ w;
  q_writing : isWriting (channel_ w') = isWriting (channel_ w);
  q_in : Buffer.buffer_wf (input_buffer_ w) -> Buffer.buffer_wf (input_buffer_ w');
  q_trace : Forall event_ok (trace w) -> Forall event_ok (trace w');
  q_scripts : Forall quiet_script (scripts w) -> Forall quiet_script (scripts w');
}.

Lemma quietly_trans w1 w2 w3 : quietly w1 w2 -> quietly w2 w3 -> quietly w1 w3.
Proof. intros [] []. split; first [congruence|auto]. Qed.

Lemma same_quietly w w' : same_stream w w' /\ input_buffer_ w' = input_buffer_ w -> quietly w w'.
Proof. intros [(?&?&?&?&?&?&?) ?]. split; congruence. Qed.

Section stream.
Context (cb : cb_kind -> World -> World).
Hypothesis Hcb : forall k w, (forall n, k <> CbHighWater n) -> stream_ok w -> stream_ok (cb k w).
Hypothesis Hhw : forall n w, Forall quiet_script (scripts w) -> quietly w (cb (CbHighWater n) w).

Lemma notify_ok has k w : (forall n, k <> CbHighWater n) -> stream_ok w -> stream_ok (notify cb has k w).
Proof. intros Hk Hw. unfold notify. destruct (has _); [by apply Hcb|done]. Qed.

Lemma handleClose_ok w : stream_ok w -> stream_ok (handleClose cb w).
Proof. intros Hw. unfold handleClose. fold (closing w). apply notify_ok, notify_ok, closing_ok; done. Qed.

Lemma forceCloseInLoop_ok w : stream_ok w -> stream_ok (forceCloseInLoop cb w).
Proof. intros Hw. unfold forceCloseInLoop. case_match; [done|by apply handleClose_ok]. Qed.

Lemma forceClose_ok b w : stream_ok w -> stream_ok (forceClose cb b w).
Proof.
  intros Hok. unfold forceClose, in_loop_or_queue. case_match eqn:E; [|done].
  assert (Hst : state_ w <> kDisconnected) by (intros Hd; by rewrite Hd in E).
  assert (H1 : stream_ok (setState kDisconnecting w)).
  { destruct Hok as [? ? ? Hwr ? ? ?]. split; simpl; try done. intros _. by apply Hwr. }
  destruct b; [by apply forceCloseInLoop_ok|]. destruct H1; by split.
Qed.

Lemma connectDestroyed_ok w : stream_ok w -> stream_ok (connectDestroyed cb w).
Proof.
  intros Hw. unfold connectDestroyed. fold (destroying w).
  pose proof (same_ok _ _ (destroying_same w) Hw) as Hd. set (d := destroying w) in *.
  assert (Hch : forall w, stream_ok w -> stream_ok (channel_remove w)) by (intros ? []; by split).
  apply Hch. case_match; [|done]. apply notify_ok; [done|]. destruct Hd. by split.
Qed.

(** The part of a message not yet written. *)
Definition partly_sent (rest : bytes) (w : World) : Prop :=
  state_ w <> kDisconnected /\ Buffer.buffer_wf (input_buffer_ w) /\ Buffer.buffer_wf (output_buffer_ w) /\
  (wire w ++ Buffer.content (output_buffer_ w)) ++ rest = concat (sent w) /\
  isWriting (channel_ w) = negb (Buffer.readableBytes (output_buffer_ w) =? 0) /\
  Forall event_ok (trace w) /\ Forall quiet_script (scripts w).

Lemma partly_quietly rest w w' : quietly w w' -> partly_sent rest w -> partly_sent rest w'.
Proof.
  intros [Ho Hw Hs Hst Hi Hin Ht Hsc] (? & ? & ? & ? & ? & ? & ?). unfold partly_sent.
  rewrite Ho, Hw, Hs, Hst, Hi. split_and!; auto.
Qed.

Lemma append_readable s b :
  Buffer.buffer_wf b -> s <> [] -> (Buffer.readableBytes (Buffer.append s b) =? 0) = false.
Proof.
  intros Hb Hs. destruct (Buffer.append_spec s b Hb) as [Hwf Hc]. rewrite <-Buffer.length_content, Hc by done.
  rewrite length_app. destruct s; [done|]. apply Nat.eqb_neq. simpl. lia.
Qed.

Lemma queue_output_ok s w : s <> [] -> partly_sent s w -> stream_ok (queue_output cb s w).
Proof.
  intros Hne Hp. unfold queue_output. destruct (length s =? 0) eqn:E; [by destruct s|].
  assert (Hh : partly_sent s (high_water cb (length s) w)).
  { unfold high_water. case_match; [|done]. eapply partly_quietly; [apply Hhw; apply Hp|done]. }
  set (h := high_water cb (length s) w) in *. clearbody h. clear Hp.
  destruct Hh as (Hst & Hin & Hout & Hw & Hwr & Ht & Hsc).
  destruct (Buffer.append_spec s (output_buffer_ h) Hout) as [Hwf Hc].
  pose proof (append_readable s _ Hout Hne) as Hr.
  eapply same_ok; [apply armWrite_same|]. rewrite <-app_assoc in Hw. simpl.
  destruct (isWriting (channel_ h)) eqn:Ew; split; simpl; rewrite ?Hc, ?Hr; try done.
  intros _. apply writing_enableWrite.
Qed.

(** [::write] of the front of what is left moves it to the wire. *)
Lemma sys_write_ok s w :
  match sys_write s w with
  | (WriteOk n, w') => n <= length s /\ wire w' = wire w ++ take n s
  | (WriteError _, w') => wire w' = wire w
  end /\
  let w' := (sys_write s w).2 in
  output_buffer_ w' = output_buffer_ w /\ input_buffer_ w' = input_buffer_ w /\ sent w' = sent w /\
  state_ w' = state_ w /\ channel_ w' = channel_ w /\ trace w' = trace w /\ scripts w' = scripts w.
Proof.
  unfold sys_write. destruct (writes w) as [|[n|e] rest]; simpl; (split; [|by repeat split]); try done.
  split; [lia|done].
Qed.

Lemma sendInLoop_ok s w : stream_ok w -> stream_ok (sendInLoop cb s w).
Proof.
  intros Hok. unfold sendInLoop. case_match; bool_prop; [done|].
  set (w1 := w <| sent := sent w ++ [s] |>).
  assert (Hp : partly_sent s w1).
  { destruct Hok as [? ? Hw Hwr ? ? ?]. split_and!; try done; [|by apply Hwr].
    simpl. rewrite Hw, concat_app. simpl. by rewrite app_nil_r. }
  cut (let '(rest, w2) := write_directly cb s w1 in
       (rest = [] /\ stream_ok w2) \/ (rest <> [] /\ partly_sent rest w2)).
  { destruct (write_directly cb s w1) as [rest w2]. intros [[-> Hs]|[Hr Hs]]; [done|by apply queue_output_ok]. }
  clearbody w1. clear w Hok H. destruct Hp as (Hst & Hin & Hout & Hw & Hwr & Ht & Hsc).
  assert (Hdone : forall w2, s = [] -> same_stream w1 w2 -> input_buffer_ w2 = input_buffer_ w1 -> stream_ok w2).
  { intros w2 -> Hss Hi. eapply same_ok; [by split|]. rewrite app_nil_r in Hw. by split. }
  assert (Hrest : forall w2, same_stream w1 w2 -> input_buffer_ w2 = input_buffer_ w1 ->
            (s = [] /\ stream_ok w2) \/ (s <> [] /\ partly_sent s w2)).
  { intros w2 Hss Hi. destruct s as [|a s'] eqn:Es; [left; split; [done|by eapply Hdone]|right; split; [done|]].
    eapply partly_quietly; [apply same_quietly; by split|]. by split_and!. }
  unfold write_directly. destruct (negb _ && _) eqn:E; [|apply Hrest; [apply same_stream_refl|done]].
  bool_prop. pose proof (sys_write_ok s w1) as Hsw.
  destruct (sys_write s w1) as [[n|e] w2]; cbn in Hsw; destruct Hsw as [Hwire (Ho & Hi & Hse & Hs2 & Hch & Ht2 & Hsc2)].
  2: { apply Hrest; [|done]. repeat split; congruence. }
  destruct Hwire as [Hn Hwire].
  assert (Hempty : Buffer.content (output_buffer_ w1) = []).
  { apply length_0_nil. by rewrite Buffer.length_content. }
  rewrite Hempty, app_nil_r in Hw.
  destruct (length (drop n s) =? 0) eqn:Ed; bool_prop.
  - left. apply length_0_nil in Ed. split; [done|]. apply notify_ok; [done|].
    assert (Hs : take n s = s) by (rewrite <-(take_drop n s) at 2; by rewrite Ed, app_nil_r).
    split; simpl; rewrite ?Ho, ?Hi, ?Hwire, ?Hse, ?Hs2, ?Hch, ?Ht2, ?Hsc2; try done.
    by rewrite Hempty, app_nil_r, Hs.
  - right. split; [by intros Hd0; rewrite Hd0 in Ed|].
    unfold partly_sent; simpl. rewrite ?Ho, ?Hi, ?Hwire, ?Hse, ?Hs2, ?Hch, ?Ht2, ?Hsc2.
    split_and!; try done. by rewrite Hempty, app_nil_r, <-app_assoc, take_drop.
Qed.

Lemma handleWrite_ok w : stream_ok w -> stream_ok (handleWrite cb w).
Proof.
  intros Hok. unfold handleWrite. destruct (negb (isWriting (channel_ w))) eqn:E; [done|]. bool_prop.
  pose proof Hok as [Hin Hout Hw Hwr Hcl Ht Hsc].
  assert (Hst : state_ w <> kDisconnected) by (intros Hd; rewrite (Hcl Hd) in E; done).
  pose proof (sys_write_ok (Buffer.content (output_buffer_ w)) w) as Hsw.
  destruct (sys_write _ w) as [[n|e] w2]; cbn in Hsw; destruct Hsw as [Hwire (Ho & Hi & Hse & Hs2 & Hch & Ht2 & Hsc2)].
  2: { eapply same_ok; [|exact Hok]. split; [repeat split; congruence|done]. }
  destruct Hwire as [Hn Hwire]. destruct n as [|n].
  { eapply same_ok; [|exact Hok]. rewrite take_0, app_nil_r in Hwire. split; [repeat split; congruence|done]. }
  assert (Hn' : S n <= Buffer.readableBytes (output_buffer_ w2)) by (rewrite Ho; by rewrite <-Buffer.length_content).
  assert (Hout2 : Buffer.buffer_wf (output_buffer_ w2)) by (by rewrite Ho).
  destruct (Buffer.retrieve_spec (S n) _ Hout2 Hn') as [Hwf Hc].
  set (w3 := (count_written (S n) w2) <| output_buffer_ :=
      Buffer.retrieve (S n) (output_buffer_ (count_written (S n) w2)) |>).
  assert (Hw3 : wire w3 ++ Buffer.content (output_buffer_ w3) = concat (sent w3)).
  { simpl. rewrite Hwire, Hc, Hse, Ho, <-Hw, <-app_assoc, take_drop. done. }
  assert (Hf : state_ w3 = state_ w /\ Forall event_ok (trace w3) /\ Forall quiet_script (scripts w3) /\
               Buffer.buffer_wf (input_buffer_ w3) /\ isWriting (channel_ w3) = true).
  { simpl. rewrite Hs2, Ht2, Hsc2, Hi, Hch. by split_and!. }
  destruct Hf as (Hst3 & Ht3 & Hsc3 & Hin3 & Hwr3).
  destruct (Buffer.readableBytes (output_buffer_ w3) =? 0) eqn:E3.
  - assert (H4 : stream_ok (notify cb has_write_complete CbWriteComplete (cancelWriteTimer (set_channel disableWrite w3)))).
    { apply notify_ok; [done|]. eapply same_ok; [apply cancelWrite_same|].
      split; try done; intros ?; simpl; [|exact (writing_disableWrite (channel_ w3))].
      change (Buffer.retrieve (S n) (output_buffer_ w2)) with (output_buffer_ w3). rewrite E3.
      exact (writing_disableWrite (channel_ w3)). }
    case_match; [by apply shutdownInLoop_ok|done].
  - split; try done; intros Hs; [|by rewrite Hst3 in Hs]. by rewrite E3.
Qed.

Lemma input_ok w b : stream_ok w -> Buffer.buffer_wf b -> stream_ok (w <| input_buffer_ := b |>).
Proof. intros [] Hb. by split. Qed.

Lemma handleRead_ok readv w : stream_ok w -> stream_ok (handleRead cb readv w).
Proof.
  intros Hok. unfold handleRead. destruct (Buffer.readFd_spec readv _ (so_in _ Hok)) as [Hwf _].
  destruct (Buffer.readFd readv (input_buffer_ w)) as [r buf]. simpl in Hwf.
  pose proof (input_ok w buf Hok Hwf) as H1. destruct r as [e|[|n]]; [by apply handleClose_ok..|].
  unfold enforce_input_cap.
  match goal with |- context [notify cb has_message CbMessage (resetIdleTimer ?w')] =>
    assert (H2 : stream_ok (notify cb has_message CbMessage (resetIdleTimer w'))) end.
  { apply notify_ok; [done|]. eapply same_ok; [apply resetIdle_same|]. destruct H1. by split. }
  case_match; [by apply forceClose_ok|done].
Qed.

Lemma connectEstablished_ok w : state_ w = kConnecting -> stream_ok w -> stream_ok (connectEstablished cb w).
Proof.
  intros Hst Hok. unfold connectEstablished. eapply same_ok; [apply armMaxAge_same|].
  eapply same_ok; [apply resetIdle_same|]. apply notify_ok; [done|].
  destruct Hok as [? ? ? Hwr ? ? ?]. split; simpl; try done. intros _. rewrite <-Hwr by congruence.
  apply (writing_enableRead (channel_ w)).
Qed.

Lemma do_op_ok op w : stream_ok w -> stream_ok (do_op cb op w).
Proof.
  intros Hok. destruct op; simpl.
  - unfold send. case_match; [by apply sendInLoop_ok|done].
  - by apply shutdown_ok.
  - by apply forceClose_ok.
  - eapply same_ok; [apply stopReadInLoop_same|done].
  - eapply same_ok; [apply startReadInLoop_same|done].
  - apply input_ok; [done|]. apply consume_wf, Hok.
  - destruct Hok. by split.
  - by apply connectDestroyed_ok.
Qed.

Lemma run_ops_ok ops : forall w, stream_ok w -> stream_ok (run_ops cb ops w).
Proof. induction ops as [|op ops IH]; intros w Hok; [done|]. cbn. apply IH. by apply do_op_ok. Qed.

Lemma fire_ok id w : stream_ok w -> stream_ok (fire cb id w).
Proof.
  intros Hok. unfold fire. destruct (timers w !! id) as [[k d]|]; [|done].
  assert (Hs : stream_ok (on_timer cb k w)).
  { destruct k; simpl; [by apply forceClose_ok| |].
    - case_match; [apply forceClose_ok|]; destruct Hok; by split.
    - apply forceClose_ok. destruct Hok; by split. }
  destruct Hs. by split.
Qed.

Lemma run_loop_task_ok t w : stream_ok w -> stream_ok (run_loop_task cb t w).
Proof.
  intros Hok. destruct t; simpl.
  - by apply sendInLoop_ok.
  - by apply shutdownInLoop_ok.
  - by apply forceCloseInLoop_ok.
  - eapply same_ok; [apply stopReadInLoop_same|done].
  - eapply same_ok; [apply startReadInLoop_same|done].
Qed.

Lemma dispatch_ok revents readv w : stream_ok w -> stream_ok (dispatch cb revents readv w).
Proof.
  intros Hok. unfold dispatch. set (w1 := w <| channel_ := _ |>).
  assert (H1 : stream_ok w1) by (destruct Hok; by split). clearbody w1.
  generalize (handleEvents true (channel_ w1)). intros cbs. revert w1 H1.
  induction cbs as [|c cbs IH]; intros w1 H1; [done|]. cbn. apply IH. destruct c.
  - by apply handleRead_ok.
  - by apply handleWrite_ok.
  - by apply handleClose_ok.
Qed.
End stream.

Lemma quiet_op_quietly cb op w : quiet_op op -> quietly w (do_op cb op w).
Proof.
  intros Hq. destruct op; try done; simpl.
  - apply same_quietly, stopReadInLoop_same.
  - apply same_quietly, startReadInLoop_same.
  - split; try done. intros Hb. by apply consume_wf.
Qed.

Lemma quiet_ops_quietly cb ops : forall w, Forall quiet_op ops -> quietly w (run_ops cb ops w).
Proof.
  induction ops as [|op ops IH]; intros w Hq; [by split|]. inversion Hq; subst. cbn.
  eapply quietly_trans; [by apply quiet_op_quietly|by apply IH].
Qed.

Lemma run_callback_ok fuel : forall k w,
  ((forall n, k <> CbHighWater n) -> stream_ok w -> stream_ok (run_callback fuel k w)) /\
  (forall n, k = CbHighWater n -> Forall quiet_script (scripts w) -> quietly w (run_callback fuel k w)).
Proof.
  assert (Hlog : forall k w, quietly w (log (ECallback k) w)).
  { intros k w. split; try done. simpl. intros Ht. apply Forall_app. split; [done|]. by repeat constructor. }
  assert (Hlok : forall k w, stream_ok w -> stream_ok (log (ECallback k) w)).
  { intros k w []. split; try done. by apply (q_trace _ _ (Hlog k w)). }
  induction fuel as [|fuel IH]; intros k w; simpl; [split; [by auto|intros n ->; auto]|].
  destruct (scripts w) as [|s rest] eqn:E; [split; [by auto|intros n ->; auto]|].
  set (w1 := (log (ECallback k) w) <| scripts := rest |>).
  split.
  - intros Hk Hok. apply run_ops_ok; [intros; by apply IH|intros n w' Hs; by apply (proj2 (IH _ w') n)|].
    pose proof (so_scripts _ Hok) as Hsc. rewrite E in Hsc. inversion Hsc; subst.
    destruct (Hlok k w Hok). by split.
  - intros n Hk Hsc. inversion Hsc as [|? ? Hs Hrest]; subst. eapply quietly_trans; [|apply quiet_ops_quietly; apply Hs].
    destruct (Hlog (CbHighWater n) w). by split.
Qed.

Lemma step_stream_ok w w' : step w w' -> stream_ok w -> stream_ok w'.
Proof.
  assert (Hcb : forall k w, (forall n, k <> CbHighWater n) -> stream_ok w -> stream_ok (callback k w)).
  { intros k w0. apply run_callback_ok. }
  assert (Hhw : forall n w, Forall quiet_script (scripts w) -> quietly w (callback (CbHighWater n) w)).
  { intros n w0. by apply (proj2 (run_callback_ok _ _ _) n). }
  intros Hstep Hok. destruct Hstep.
  - by apply connectEstablished_ok.
  - by apply dispatch_ok.
  - by apply fire_ok.
  - apply run_loop_task_ok; [done..|]. destruct Hok. by split.
  - by apply connectDestroyed_ok.
  - by apply do_op_ok.
  - unfold send, in_loop_or_queue. case_match; [|done]. destruct Hok. by split.
  - by apply shutdown_ok.
  - by apply forceClose_ok.
  - destruct Hok. by split.
  - destruct Hok. by split.
  - destruct Hok. by split.
Qed.

(** C11: the output stream: whatever the application's callbacks do (except from
    the high-water-mark callback, which may only touch the reading side),
    whatever threads send and however the kernel takes the data, the bytes on
    the wire followed by the output buffer are exactly the messages sent, whole
    and in order; and the write side of an open connection is shut down only
    when every byte sent before is on the wire. *)
Theorem output_stream fd s p ws scr w :
  Forall quiet_script scr -> rtc step (TcpConnection_new fd s p ws scr) w ->
  wire w ++ Buffer.content (output_buffer_ w) = concat (sent w) /\
  (forall st written sent, EShutdownWrite st written sent ∈ trace w -> st <> kDisconnected -> written = sent).
Proof.
  intros Hq Hr. assert (Hok : stream_ok w).
  { assert (H0 : stream_ok (TcpConnection_new fd s p ws scr)).
    { split; try done; apply Buffer.new_wf. }
    revert H0. induction Hr; [done|]. eauto using step_stream_ok. }
  split; [apply Hok|]. intros st wr se Hin. pose proof (so_trace _ Hok) as Ht. rewrite Forall_forall in Ht.
  exact (Ht _ Hin).
Qed.

(** A peer that reads slowly: the greeting goes out in two parts, then the
    half-close requested meanwhile. *)
Definition demo_settings (hwm : Z) : Settings :=
  mkSettings 60 30 3600 1048576 hwm true true true true true.
Definition greet : script := fun k =>
  match k with CbConnection true => [Send (bs "hello"); Shutdown] | _ => [] end.

Lemma output_stream_witness :
  let w0 := TcpConnection_new 7 (demo_settings 100) poller_new [WriteOk 3; WriteOk 9] [greet] in
  let w := dispatch callback IO_WRITE (fun _ => Buffer.ReadvError 11) (connectEstablished callback w0) in
  wire w = bs "hello" /\ trace w = [ECallback (CbConnection true); ECallback CbWriteComplete;
                                   EShutdownWrite kDisconnecting (bs "hello") (bs "hello")] /\
  wire w ++ Buffer.content (output_buffer_ w) = concat (sent w).
Proof.
  intros w0 w. split; [vm_compute; reflexivity|]. split; [vm_compute; reflexivity|].
  apply (output_stream 7 (demo_settings 100) poller_new [WriteOk 3; WriteOk 9] [greet] w).
  - constructor; [|constructor]. intros n. constructor.
  - eapply rtc_l; [by apply step_established|]. eapply rtc_l; [apply step_dispatch|]. apply rtc_refl.
Defined.

(** Finding: the high-water-mark callback runs in the middle of a send,
    before the unsent rest is queued.  If it sends, its bytes go out inside the
    first message; if it closes the connection, the send then registers the
    removed channel with the poller again and queues output on a closed
    connection. *)
Theorem high_water_reentrancy :
  let run ops := do_op callback (Send (bs "abcdef"))
        (connectEstablished callback
          (TcpConnection_new 7 (demo_settings 4) poller_new [WriteOk 2; WriteOk 1]
             [fun _ => []; fun k => match k with CbHighWater _ => ops | _ => [] end;
              fun _ => []; fun k => match k with CbClose => [ConnectDestroyed] | _ => [] end])) in
  (wire (run [Send (bs "!")]) ++ Buffer.content (output_buffer_ (run [Send (bs "!")])) = bs "ab!cdef" /\
   sent (run [Send (bs "!")]) = [bs "abcdef"; bs "!"]) /\
  (state_ (run [ForceClose]) = kDisconnected /\ (7%Z : Z) ∈ channels_ (poller (run [ForceClose])) /\
   isWriting (channel_ (run [ForceClose])) = true).
Proof.
  intros run. split; [split; vm_compute; reflexivity|]. split; [vm_compute; reflexivity|].
  split; [|vm_compute; reflexivity]. apply (bool_decide_unpack _). vm_compute. exact I.
Qed.

(** ** The connection's timers

    [fl] is the timer being run, which the loop deletes afterwards.  A timer is
    live exactly when its flag says it is armed, and the idle and write timers
    only while the connection is open. *)
Record timers_core (fl : option (nat * timer_kind)) (w : World) : Prop := {
  tc_stale : stale w = false;
  tc_idle : idle_timer_armed_ w = true -> exists d, timers w !! idle_timer_ w = Some (IdleTimer, d);
  tc_write : write_timer_armed_ w = true -> exists d, timers w !! write_timer_ w = Some (WriteTimer, d);
  tc_age : max_age_timer_armed_ w = true -> exists d, timers w !! max_age_timer_ w = Some (MaxAgeTimer, d);
  tc_live : forall id k d, timers w !! id = Some (k, d) -> fl = Some (id, k) \/
    match k with
    | IdleTimer => idle_timer_armed_ w = true /\ idle_timer_ w = id
    | WriteTimer => write_timer_armed_ w = true /\ write_timer_ w = id
    | MaxAgeTimer => max_age_timer_armed_ w = true /\ max_age_timer_ w = id
    end;
  tc_fresh : forall id, next_timer w <= id -> timers w !! id = None;
  tc_fl : forall id k, fl = Some (id, k) -> id < next_timer w /\
    (k <> IdleTimer -> idle_timer_armed_ w = true -> idle_timer_ w <> id) /\
    (write_timer_armed_ w = true -> write_timer_ w <> id) /\
    (max_age_timer_armed_ w = true -> max_age_timer_ w <> id);
}.

Definition open (w : World) : Prop := state_ w = kConnected \/ state_ w = kDisconnecting.
Definition alive (w : World) : Prop :=
  (idle_timer_armed_ w = true -> open w) /\ (write_timer_armed_ w = true -> open w).
Definition timers_ok (fl : option (nat * timer_kind)) (w : World) : Prop := timers_core fl w /\ alive w.

(** The rest of the state, for the timer operations. *)
Definition same_but_timers (w w' : World) : Prop :=
  state_ w' = state_ w /\ (idle_timer_armed_ w = false -> idle_timer_armed_ w' = false) /\
  (write_timer_armed_ w = false -> write_timer_armed_ w' = false) /\
  (max_age_timer_armed_ w = false -> max_age_timer_armed_ w' = false).

Lemma core_cancel fl w id k d (flag : World) :
  timers_core fl w -> timers w !! id = Some (k, d) ->
  (match k with
   | IdleTimer => flag = (cancel id w) <| idle_timer_armed_ := false |> /\ idle_timer_ w = id
   | WriteTimer => flag = (cancel id w) <| write_timer_armed_ := false |> /\ write_timer_ w = id
   | MaxAgeTimer => flag = (cancel id w) <| max_age_timer_armed_ := false |> /\ max_age_timer_ w = id
   end) ->
  timers_core fl flag /\ same_but_timers w flag.
Proof.
  intros [Hs Hi Hw Ha Hl Hf Hfl] Hk Hflag.
  assert (Hne : forall id' k' d', timers w !! id' = Some (k', d') -> k' <> k -> id' <> id).
  { intros id' k' d' H1 Hn ->. rewrite Hk in H1. by injection H1 as <- <-. }
  assert (Hdel : forall id' k' d', timers w !! id' = Some (k', d') -> k' <> k ->
            delete id (timers w) !! id' = Some (k', d')).
  { intros id' k' d' H1 Hn. rewrite lookup_delete_ne; [done|]. by eapply not_eq_sym, Hne. }
  assert (Hcan : cancel id w = w <| timers := delete id (timers w) |>) by (unfold cancel; by rewrite Hk).
  rewrite Hcan in Hflag. clear Hcan.
  destruct k; destruct Hflag as [-> Hid]; (split; [|by repeat split]); (split; simpl; [done| | | | | | ]);
    try (by intros ?);
    try (intros Harm; first [destruct (Hi Harm) as [d' H']|destruct (Hw Harm) as [d' H']|destruct (Ha Harm) as [d' H']];
         exists d'; by apply Hdel);
    try (intros id' k' d' [Hn H']%lookup_delete_Some; destruct (Hl id' k' d' H') as [?|H'']; [by left|right];
         destruct k'; try done; destruct H''; congruence);
    try (intros id' Hge; rewrite lookup_delete_None; right; by apply Hf);
    try (intros id' k' Hfl'; destruct (Hfl id' k' Hfl') as (? & ? & ? & ?); split_and!; auto; done).
Qed.

Lemma same_but_timers_refl w : same_but_timers w w.
Proof. by repeat split. Qed.
Lemma same_but_timers_trans w1 w2 w3 : same_but_timers w1 w2 -> same_but_timers w2 w3 -> same_but_timers w1 w3.
Proof. intros (? & ? & ? & ?) (? & ? & ? & ?). repeat split; auto; congruence. Qed.

Lemma core_cancelIdle fl w : timers_core fl w ->
  timers_core fl (cancelIdleTimer w) /\ same_but_timers w (cancelIdleTimer w) /\ idle_timer_armed_ (cancelIdleTimer w) = false.
Proof.
  intros Hc. unfold cancelIdleTimer. destruct (idle_timer_armed_ w) eqn:E; [|by split_and!].
  destruct (tc_idle _ _ Hc E) as [d Hd]. destruct (core_cancel fl w _ _ _ _ Hc Hd (conj eq_refl eq_refl)) as [H1 H2].
  by split_and!.
Qed.
Lemma core_cancelWrite fl w : timers_core fl w ->
  timers_core fl (cancelWriteTimer w) /\ same_but_timers w (cancelWriteTimer w) /\ write_timer_armed_ (cancelWriteTimer w) = false.
Proof.
  intros Hc. unfold cancelWriteTimer. destruct (write_timer_armed_ w) eqn:E; [|by split_and!].
  destruct (tc_write _ _ Hc E) as [d Hd]. destruct (core_cancel fl w _ _ _ _ Hc Hd (conj eq_refl eq_refl)) as [H1 H2].
  by split_and!.
Qed.
Lemma core_cancelMaxAge fl w : timers_core fl w ->
  timers_core fl (cancelMaxAgeTimer w) /\ same_but_timers w (cancelMaxAgeTimer w) /\ max_age_timer_armed_ (cancelMaxAgeTimer w) = false.
Proof.
  intros Hc. unfold cancelMaxAgeTimer. destruct (max_age_timer_armed_ w) eqn:E; [|by split_and!].
  destruct (tc_age _ _ Hc E) as [d Hd]. destruct (core_cancel fl w _ _ _ _ Hc Hd (conj eq_refl eq_refl)) as [H1 H2].
  by split_and!.
Qed.

(** Arming a timer whose flag is down. *)
Lemma core_arm fl w k ms (w' : World) :
  timers_core fl w ->
  (let '(id, w1) := runAfter ms k w in
   match k with
   | IdleTimer => idle_timer_armed_ w = false /\ w' = w1 <| idle_timer_ := id |> <| idle_timer_armed_ := true |>
   | WriteTimer => write_timer_armed_ w = false /\ w' = w1 <| write_timer_ := id |> <| write_timer_armed_ := true |>
   | MaxAgeTimer => max_age_timer_armed_ w = false /\ w' = w1 <| max_age_timer_ := id |> <| max_age_timer_armed_ := true |>
   end) ->
  timers_core fl w'.
Proof.
  intros [Hs Hi Hw Ha Hl Hf Hfl] Hk. simpl in Hk.
  assert (Hins : forall id k' d', timers w !! id = Some (k', d') ->
            <[next_timer w := (k, ms)]> (timers w) !! id = Some (k', d')).
  { intros id k' d' H1. rewrite lookup_insert_ne; [done|]. intros <-. by rewrite (Hf _ (le_n _)) in H1. }
  destruct k; destruct Hk as [Hoff ->]; (split; simpl; [done| | | | | | ]);
    try (by intros _; exists ms; rewrite lookup_insert_eq);
    try (intros Harm; first [destruct (Hi Harm) as [d' H']|destruct (Hw Harm) as [d' H']|destruct (Ha Harm) as [d' H']];
         exists d'; by apply Hins);
    try (intros id k' d' [[<- H']|[Hn H']]%lookup_insert_Some; [right; injection H' as <- <-; done|];
         destruct (Hl id k' d' H') as [?|H'']; [by left|right]; destruct k'; try done; destruct H''; congruence);
    try (intros id Hge; rewrite lookup_insert_ne by lia; apply Hf; lia);
    try (intros id k' Hfl'; destruct (Hfl id k' Hfl') as (? & ? & ? & ?); split_and!; auto; lia).
Qed.

(** What every operation guarantees about timers. *)
Definition kept fl (w w' : World) : Prop :=
  (timers_ok fl w -> timers_ok fl w') /\ (state_ w = kDisconnected -> state_ w' = kDisconnected).

Lemma kept_refl fl w : kept fl w w.
Proof. by split. Qed.
Lemma kept_trans fl w1 w2 w3 : kept fl w1 w2 -> kept fl w2 w3 -> kept fl w1 w3.
Proof. intros [] []. split; auto. Qed.

Lemma kept_cancelIdle fl w : kept fl w (cancelIdleTimer w).
Proof.
  split.
  - intros [Hc [Hi Hw]]. destruct (core_cancelIdle fl w Hc) as (H1 & (Hst & H2 & H3 & _) & H4). split; [done|].
    unfold alive, open. rewrite H4, Hst. split; [done|]. intros Harm. apply Hw.
    destruct (write_timer_armed_ w); [done|]. rewrite H3 in Harm; done.
  - intros Hd. unfold cancelIdleTimer, cancel. repeat case_match; done.
Qed.
Lemma kept_cancelWrite fl w : kept fl w (cancelWriteTimer w).
Proof.
  split.
  - intros [Hc [Hi Hw]]. destruct (core_cancelWrite fl w Hc) as (H1 & (Hst & H2 & H3 & _) & H4). split; [done|].
    unfold alive, open. rewrite H4, Hst. split; [|done]. intros Harm. apply Hi.
    destruct (idle_timer_armed_ w); [done|]. rewrite H2 in Harm; done.
  - intros Hd. unfold cancelWriteTimer, cancel. repeat case_match; done.
Qed.
Lemma kept_cancelMaxAge fl w : kept fl w (cancelMaxAgeTimer w).
Proof.
  split.
  - intros [Hc [Hi Hw]]. destruct (core_cancelMaxAge fl w Hc) as (H1 & (Hst & H2 & H3 & _) & H4). split; [done|].
    unfold alive, open. rewrite Hst. split; intros Harm; [apply Hi|apply Hw].
    + destruct (idle_timer_armed_ w); [done|]. rewrite H2 in Harm; done.
    + destruct (write_timer_armed_ w); [done|]. rewrite H3 in Harm; done.
  - intros Hd. unfold cancelMaxAgeTimer, cancel. repeat case_match; done.
Qed.

Lemma kept_resetIdle fl w : kept fl w (resetIdleTimer w).
Proof.
  unfold resetIdleTimer. destruct (_ || _) eqn:E; [apply kept_refl|]. bool_prop.
  apply dec_stable in H0. split; [|congruence]. intros [Hc Hal].
  destruct (core_cancelIdle fl w Hc) as (H1 & (Hst & H2 & H3 & _) & H4). split.
  - by eapply (core_arm fl (cancelIdleTimer w) IdleTimer); [|split].
  - split; intros _; left; simpl; congruence.
Qed.
Lemma kept_armWrite fl w : kept fl w (armWriteTimer w).
Proof.
  unfold armWriteTimer. destruct (_ || _) eqn:E; [apply kept_refl|]. bool_prop.
  apply dec_stable in H0. split; [|congruence]. intros [Hc Hal]. split.
  - by eapply (core_arm fl w WriteTimer); [|split].
  - split; intros _; by left.
Qed.
Lemma kept_armMaxAge fl w : kept fl w (armMaxAgeTimer w).
Proof.
  unfold armMaxAgeTimer. destruct (_ || _) eqn:E; [apply kept_refl|]. bool_prop.
  split; [|done]. intros [Hc Hal]. split; [|exact Hal]. by eapply (core_arm fl w MaxAgeTimer); [|split].
Qed.

Lemma core_destroying fl w : timers_core fl w ->
  timers_core fl (destroying w) /\ idle_timer_armed_ (destroying w) = false /\
  write_timer_armed_ (destroying w) = false /\ max_age_timer_armed_ (destroying w) = false.
Proof.
  intros H0. unfold destroying.
  destruct (core_cancelIdle fl _ H0) as (H1 & (S1 & I1 & W1 & _) & A1).
  destruct (core_cancelWrite fl _ H1) as (H2 & (S2 & I2 & W2 & _) & A2).
  destruct (core_cancelMaxAge fl _ H2) as (H3 & (S3 & I3 & W3 & _) & A3). auto.
Qed.

(** Closing takes the idle and write timers down with the state. *)
Lemma kept_closing fl w : kept fl w (closing w).
Proof.
  split.
  - intros [Hc _]. unfold closing. fold (destroying (setState kDisconnected w)).
    destruct (core_destroying fl (setState kDisconnected w)) as (H1 & Hi & Hw & _); [destruct Hc; by split|].
    split; [destruct H1; by split|]. split; simpl; congruence.
  - intros _. unfold closing. simpl. unfold cancelMaxAgeTimer, cancelWriteTimer, cancelIdleTimer, cancel.
    repeat case_match; done.
Qed.

Lemma closing_state w : state_ (closing w) = kDisconnected.
Proof.
  unfold closing. simpl. unfold cancelMaxAgeTimer, cancelWriteTimer, cancelIdleTimer, cancel. repeat case_match; done.
Qed.

Lemma kept_destroying fl w : kept fl w (destroying w).
Proof.
  unfold destroying. eapply kept_trans; [apply kept_cancelIdle|]. eapply kept_trans; [apply kept_cancelWrite|].
  apply kept_cancelMaxAge.
Qed.

(** Steps that touch neither timers nor, while it is closed, the state. *)
Lemma kept_same fl w w' :
  timers w' = timers w -> next_timer w' = next_timer w -> stale w' = stale w ->
  (idle_timer_ w', idle_timer_armed_ w') = (idle_timer_ w, idle_timer_armed_ w) ->
  (write_timer_ w', write_timer_armed_ w') = (write_timer_ w, write_timer_armed_ w) ->
  (max_age_timer_ w', max_age_timer_armed_ w') = (max_age_timer_ w, max_age_timer_armed_ w) ->
  (open w -> open w') -> (state_ w = kDisconnected -> state_ w' = kDisconnected) -> kept fl w w'.
Proof.
  intros Ht Hn Hs [= Hi Hia] [= Hw Hwa] [= Ha Haa] Ho Hd. split; [|done]. intros [[] [Hai Haw]]. split.
  - split; rewrite ?Ht, ?Hn, ?Hs, ?Hi, ?Hia, ?Hw, ?Hwa, ?Ha, ?Haa; done.
  - split; rewrite ?Hia, ?Hwa; auto.
Qed.
Ltac kept_triv := apply kept_same; try reflexivity; 
  try (let H := fresh in intros H; exact H).

Lemma kept_remove fl w : kept fl w (channel_remove w).
Proof. kept_triv. Qed.
Lemma kept_shutdownInLoop fl w : kept fl w (shutdownInLoop w).
Proof. unfold shutdownInLoop. case_match; [apply kept_refl|kept_triv]. Qed.
Lemma kept_disconnecting fl w : open w -> kept fl w (setState kDisconnecting w).
Proof. intros [Ho|Ho]; apply kept_same; try done; try (intros; by right); intros; congruence. Qed.
Lemma kept_shutdown fl b w : kept fl w (shutdown b w).
Proof.
  unfold shutdown, in_loop_or_queue. case_match; bool_prop; [|apply kept_refl].
  eapply kept_trans; [apply kept_disconnecting; by left|]. destruct b; [apply kept_shutdownInLoop|kept_triv].
Qed.
Lemma kept_stopReadInLoop fl w : kept fl w (stopReadInLoop w).
Proof. unfold stopReadInLoop. case_match; [kept_triv|apply kept_refl]. Qed.
Lemma kept_startReadInLoop fl w : kept fl w (startReadInLoop w).
Proof. unfold startReadInLoop. case_match; [kept_triv|apply kept_refl]. Qed.
Lemma kept_sys_write fl s w : kept fl w (sys_write s w).2.
Proof. unfold sys_write. destruct (writes w) as [|[]]; [apply kept_refl|kept_triv|kept_triv]. Qed.

Section timers.
Context (cb : cb_kind -> World -> World) (fl : option (nat * timer_kind)).
Hypothesis Hcb : forall k w, kept fl w (cb k w).

Lemma kept_notify has k w : kept fl w (notify cb has k w).
Proof. unfold notify. destruct (has _); [apply Hcb|apply kept_refl]. Qed.

Lemma kept_handleClose w : kept fl w (handleClose cb w) /\ state_ (handleClose cb w) = kDisconnected.
Proof.
  unfold handleClose. fold (closing w).
  pose proof (kept_notify has_connection (CbConnection (connected (closing w))) (closing w)) as K1.
  set (w1 := notify cb has_connection _ _) in *. pose proof (kept_notify has_close CbClose w1) as K2. split.
  - eapply kept_trans; [apply kept_closing|]. by eapply kept_trans.
  - apply K2, K1, closing_state.
Qed.

Lemma kept_forceCloseInLoop w : kept fl w (forceCloseInLoop cb w) /\ state_ (forceCloseInLoop cb w) = kDisconnected.
Proof.
  unfold forceCloseInLoop. case_match; bool_prop; [split; [apply kept_refl|done]|apply kept_handleClose].
Qed.

Lemma kept_forceClose b w : kept fl w (forceClose cb b w) /\ (b = true -> open w -> state_ (forceClose cb b w) = kDisconnected).
Proof.
  unfold forceClose, in_loop_or_queue. destruct (_ || _) eqn:E.
  - assert (Ho : open w) by (apply orb_true_iff in E as [E|E]; bool_prop; [by left|by right]).
    pose proof (kept_disconnecting fl w Ho) as K. destruct b.
    + destruct (kept_forceCloseInLoop (setState kDisconnecting w)) as [K2 Hd]. split; [by eapply kept_trans|done].
    + split; [eapply kept_trans; [exact K|kept_triv]|done].
  - split; [apply kept_refl|]. bool_prop. intros _ [Ho|Ho]; done.
Qed.

Lemma kept_connectDestroyed w : kept fl w (connectDestroyed cb w).
Proof.
  unfold connectDestroyed. fold (destroying w).
  eapply kept_trans; [|apply kept_remove]. case_match; [|apply kept_destroying]. eapply kept_trans; [|apply kept_notify].
  split; [|done]. intros [Hc _]. destruct (core_destroying fl w Hc) as (H1 & Hi & Hw & _).
  split; [destruct H1; by split|]. split; simpl; congruence.
Qed.

Lemma kept_queue_output s w : kept fl w (queue_output cb s w).
Proof.
  unfold queue_output. case_match; [apply kept_refl|]. eapply kept_trans; [|apply kept_armWrite].
  assert (Kh : kept fl w (high_water cb (length s) w)).
  { unfold high_water. case_match; [apply Hcb|apply kept_refl]. }
  eapply kept_trans; [exact Kh|]. case_match; kept_triv.
Qed.

Lemma kept_sendInLoop s w : kept fl w (sendInLoop cb s w).
Proof.
  unfold sendInLoop. case_match; [apply kept_refl|].
  eapply (kept_trans _ _ (w <| sent := sent w ++ [s] |>)); [kept_triv|]. set (w1 := w <| sent := _ |>).
  assert (Kw : kept fl w1 (write_directly cb s w1).2).
  { unfold write_directly. case_match; [|apply kept_refl]. pose proof (kept_sys_write fl s w1) as K.
    destruct (sys_write s w1) as [[n|e] w2]; [|exact K]. eapply kept_trans; [exact K|]. cbn [snd].
    eapply (kept_trans _ _ (count_written n w2)); [kept_triv|]. case_match; [apply kept_notify|apply kept_refl]. }
  destruct (write_directly cb s w1) as [r w2]. eapply kept_trans; [exact Kw|apply kept_queue_output].
Qed.

Lemma kept_handleWrite w : kept fl w (handleWrite cb w).
Proof.
  unfold handleWrite. case_match; [apply kept_refl|].
  pose proof (kept_sys_write fl (Buffer.content (output_buffer_ w)) w) as K.
  destruct (sys_write _ w) as [[[|n]|e] w2]; [exact K| |exact K]. eapply kept_trans; [exact K|]. cbn [snd].
  set (w3 := (count_written (S n) w2) <| output_buffer_ := _ |>). eapply (kept_trans _ _ w3); [kept_triv|].
  case_match; [|apply kept_refl]. eapply (kept_trans _ _ (set_channel disableWrite w3)); [kept_triv|].
  eapply kept_trans; [apply kept_cancelWrite|]. eapply kept_trans; [apply kept_notify|].
  case_match; [apply kept_shutdownInLoop|apply kept_refl].
Qed.

Lemma kept_handleRead readv w : kept fl w (handleRead cb readv w).
Proof.
  unfold handleRead. destruct (Buffer.readFd readv (input_buffer_ w)) as [r buf].
  eapply (kept_trans _ _ (w <| input_buffer_ := buf |>)); [kept_triv|].
  destruct r as [e|[|n]]; [apply kept_handleClose..|].
  set (w1 := (w <| input_buffer_ := buf |>) <| bytes_read_ := _ |>).
  eapply (kept_trans _ _ w1); [kept_triv|]. eapply kept_trans; [apply kept_resetIdle|].
  eapply kept_trans; [apply kept_notify|]. unfold enforce_input_cap.
  case_match; [apply kept_forceClose|apply kept_refl].
Qed.

Lemma kept_connectEstablished w : state_ w = kConnecting -> kept fl w (connectEstablished cb w).
Proof.
  intros Hst. unfold connectEstablished. eapply kept_trans; [|apply kept_armMaxAge].
  eapply kept_trans; [|apply kept_resetIdle]. eapply kept_trans; [|apply kept_notify].
  apply kept_same; try reflexivity; [by left|simpl; congruence].
Qed.

Lemma kept_do_op op w : kept fl w (do_op cb op w).
Proof.
  destruct op; simpl.
  - unfold send. case_match; [apply kept_sendInLoop|apply kept_refl].
  - apply kept_shutdown.
  - apply kept_forceClose.
  - apply kept_stopReadInLoop.
  - apply kept_startReadInLoop.
  - kept_triv.
  - kept_triv.
  - apply kept_connectDestroyed.
Qed.

Lemma kept_run_ops ops : forall w, kept fl w (run_ops cb ops w).
Proof.
  induction ops as [|op ops IH]; intros w; [apply kept_refl|]. cbn.
  eapply kept_trans; [apply kept_do_op|apply IH].
Qed.

Lemma kept_run_loop_task t w : kept fl w (run_loop_task cb t w).
Proof.
  destruct t; simpl; [apply kept_sendInLoop|apply kept_shutdownInLoop|apply kept_forceCloseInLoop
    |apply kept_stopReadInLoop|apply kept_startReadInLoop].
Qed.

Lemma kept_dispatch revents readv w : kept fl w (dispatch cb revents readv w).
Proof.
  unfold dispatch. set (w1 := w <| channel_ := _ |>). eapply (kept_trans _ _ w1); [kept_triv|].
  generalize (handleEvents true (channel_ w1)) as cbs. clearbody w1. intros cbs. revert w1.
  induction cbs as [|c cbs IH]; intros w1; [apply kept_refl|]. cbn. eapply kept_trans; [|apply IH].
  destruct c; [apply kept_handleRead|apply kept_handleWrite|apply kept_handleClose].
Qed.
End timers.

Lemma run_callback_kept fl fuel : forall k w, kept fl w (run_callback fuel k w).
Proof.
  induction fuel as [|fuel IH]; intros k w; simpl; [kept_triv|].
  destruct (scripts w) as [|s rest]; [kept_triv|].
  eapply (kept_trans _ _ ((log (ECallback k) w) <| scripts := rest |>)); [kept_triv|]. by apply kept_run_ops.
Qed.

(** The timer being run is deleted afterwards. *)
Lemma core_delete id k w :
  timers_core (Some (id, k)) w -> (k = IdleTimer -> idle_timer_armed_ w = false) ->
  timers_core None (w <| timers := delete id (timers w) |>).
Proof.
  intros [Hs Hi Hw Ha Hl Hf Hfl] Hk. destruct (Hfl id k eq_refl) as (Hlt & Hni & Hnw & Hna). split; simpl; try done.
  - intros Harm. destruct (Hi Harm) as [d Hd]. exists d. rewrite lookup_delete_ne; [done|].
    destruct k; [by rewrite (Hk eq_refl) in Harm| |]; intros ->; by apply Hni.
  - intros Harm. destruct (Hw Harm) as [d Hd]. exists d. rewrite lookup_delete_ne; [done|]. intros ->. by apply Hnw.
  - intros Harm. destruct (Ha Harm) as [d Hd]. exists d. rewrite lookup_delete_ne; [done|]. intros ->. by apply Hna.
  - intros id' k' d [Hne Hd]%lookup_delete_Some. destruct (Hl id' k' d Hd) as [[= -> ->]|H']; [done|by right].
  - intros id' Hge. apply lookup_delete_None. right. by apply Hf.
Qed.

(** Starting to run a live timer, its flag taken down where the code does it. *)
Lemma core_start id k d w :
  timers_core None w -> timers w !! id = Some (k, d) ->
  timers_core (Some (id, k)) (match k with
    | IdleTimer => w
    | WriteTimer => w <| write_timer_armed_ := false |>
    | MaxAgeTimer => w <| max_age_timer_armed_ := false |> end) /\
  (k = IdleTimer -> idle_timer_armed_ w = true).
Proof.
  intros [Hs Hi Hw Ha Hl Hf Hfl] Hk. destruct (Hl id k d Hk) as [|Hflag]; [done|].
  assert (Hlt : id < next_timer w).
  { destruct (decide (id < next_timer w)); [done|]. rewrite Hf in Hk by lia. done. }
  assert (Hne : forall id' k' d', timers w !! id' = Some (k', d') -> k' <> k -> id' <> id) by (intros; congruence).
  split; [|by intros ->; apply Hflag].
  destruct k; destruct Hflag as [Hon Hid]; (split; simpl; try done);
    try (intros id' k' d' H'; destruct (Hl id' k' d' H') as [|H'']; [done|];
         destruct k'; try (right; exact H''); left; destruct H''; congruence);
    intros id' k' [= <- <-]; split_and!; try done; intros;
    first [destruct Hi as [? HH]; [done|]; by eapply Hne
          |destruct Hw as [? HH]; [done|]; by eapply Hne
          |destruct Ha as [? HH]; [done|]; by eapply Hne].
Qed.

Lemma fire_timers_ok id w : timers_ok None w -> timers_ok None (fire callback id w).
Proof.
  intros [Hc Hal]. unfold fire. destruct (timers w !! id) as [[k d]|] eqn:E; [|by split].
  destruct (core_start id k d w Hc E) as [Hs Hidle]. set (fl := Some (id, k)) in *.
  assert (Hcb : forall k w, kept fl w (callback k w)) by (intros; apply run_callback_kept).
  assert (Hrun : timers_ok fl (on_timer callback k w) /\ (k = IdleTimer -> idle_timer_armed_ (on_timer callback k w) = false)).
  { destruct k; simpl.
    - destruct (kept_forceClose callback fl Hcb true w) as [[K _] Hd].
      assert (Hok : timers_ok fl (forceClose callback true w)) by (apply K; by split). split; [done|]. intros _.
      specialize (Hd eq_refl (proj1 Hal (Hidle eq_refl))). destruct (idle_timer_armed_ (forceClose callback true w)) eqn:Ei; [|done].
      destruct (proj1 (proj2 Hok) Ei); congruence.
    - assert (Hok : timers_ok fl (w <| write_timer_armed_ := false |>)) by (split; [done|]; split; [apply Hal|done]).
      split; [|done]. case_match; [|done]. by apply (proj1 (kept_forceClose callback fl Hcb true _)).
    - split; [|done]. apply (proj1 (kept_forceClose callback fl Hcb true _)). split; [done|]. exact Hal. }
  destruct Hrun as [[Hc' Hal'] Hoff]. split; [|exact Hal']. by eapply core_delete.
Qed.

Lemma step_timers_ok w w' : step w w' -> timers_ok None w -> timers_ok None w'.
Proof.
  assert (Hcb : forall k w, kept None w (callback k w)) by (intros; apply run_callback_kept).
  intros Hstep Hok. destruct Hstep.
  - by apply (kept_connectEstablished callback None Hcb).
  - by apply (kept_dispatch callback None Hcb).
  - by apply fire_timers_ok.
  - apply (kept_run_loop_task callback None Hcb). destruct Hok as [[] ?]. by split.
  - by apply (kept_connectDestroyed callback None Hcb).
  - by apply (kept_do_op callback None Hcb).
  - unfold send, in_loop_or_queue. case_match; [|done]. destruct Hok as [[] ?]. by split.
  - by apply kept_shutdown.
  - by apply (kept_forceClose callback None Hcb).
  - destruct Hok as [[] ?]. by split.
  - destruct Hok as [[] ?]. by split.
  - destruct Hok as [[] ?]. by split.
Qed.

(** C12: timers: whatever callbacks, threads, timeouts and events do, a connection
    never cancels a timer that is already gone (what [TimerQueue::cancel] needs),
    its live timers are exactly the ones its flags say are armed (none is
    forgotten), and a closed connection has no idle or write timer left. *)
Theorem timers_never_stale fd s p ws scr w :
  rtc step (TcpConnection_new fd s p ws scr) w ->
  stale w = false /\
  (forall id k d, timers w !! id = Some (k, d) ->
     match k with
     | IdleTimer => idle_timer_armed_ w = true /\ idle_timer_ w = id
     | WriteTimer => write_timer_armed_ w = true /\ write_timer_ w = id
     | MaxAgeTimer => max_age_timer_armed_ w = true /\ max_age_timer_ w = id
     end) /\
  (state_ w = kDisconnected -> forall id k d, timers w !! id = Some (k, d) -> k = MaxAgeTimer).
Proof.
  intros Hr. assert (Hok : timers_ok None w).
  { assert (H0 : timers_ok None (TcpConnection_new fd s p ws scr)) by
      (split; [split; simpl; try done; intros *; by rewrite lookup_empty|by split]).
    revert H0. induction Hr; [done|]. eauto using step_timers_ok. }
  destruct Hok as [[Hs _ _ _ Hl _ _] [Hi Hw]]. split; [done|].
  split; [intros id k d Hk; by destruct (Hl id k d Hk)|].
  intros Hd id k d Hk. destruct (Hl id k d Hk) as [|Hl']; [done|]. destruct k; [destruct (Hi (proj1 Hl'))|destruct (Hw (proj1 Hl'))|done]; congruence.
Qed.

(** An idle connection closed by its timer, with a write and a max-age timer armed. *)
Lemma timers_never_stale_witness :
  let w0 := TcpConnection_new 7 (demo_settings 100) poller_new [WriteOk 3] [fun _ => [Send (bs "hello")]] in
  let w1 := connectEstablished callback w0 in
  let w := fire callback (idle_timer_ w1) w1 in
  (size (timers w1) = 3 /\ state_ w = kDisconnected) /\ stale w = false.
Proof.
  intros w0 w1 w. split; [split; vm_compute; reflexivity|].
  apply (timers_never_stale 7 (demo_settings 100) poller_new [WriteOk 3] [fun _ => [Send (bs "hello")]] w).
  eapply rtc_l; [apply step_established; reflexivity|]. eapply rtc_l; [apply (step_fire (idle_timer_ w1))|].
  exact (rtc_refl _ _).
Defined.

(** Finding: the max-age timer is armed without looking at the state: when the
    connection callback itself closes the connection, the timer (and with it the
    connection it keeps alive) outlives the close. *)
Lemma max_age_armed_after_close :
  let w := connectEstablished callback
             (TcpConnection_new 7 (demo_settings 100) poller_new [] [fun _ => [ForceClose]; fun _ => [];
                fun k => match k with CbClose => [ConnectDestroyed] | _ => [] end]) in
  state_ w = kDisconnected /\ max_age_timer_armed_ w = true.
Proof. split; vm_compute; reflexivity. Qed.
End TcpConnection.
