(* ===== verification/TcpFrames.v ===== *)
(** * What the operations of a connection leave alone

    The parts of a TCP connection that writing does not touch, for components
    built on top of connections: while a connection sends and flushes, its reading
    side stays as it is, and callbacks that act elsewhere only leave their mark in
    the trace. *)

From stdpp Require Import gmap.
From S2P Require Import Prelude Buffer EventLoop TcpConnection.
Import Channel TcpConnection.

Module TcpFrames.

(** A callback whose effects are outside of the connection. *)
Definition recorded (k : cb_kind) (w : World) : World := log (ECallback k) w.

Definition pending (w : World) : nat := Buffer.readableBytes (output_buffer_ w).

(** The kernel's next answers to [::write]. *)
Definition set_writes (rs : list write_result) (w : World) : World := w <| writes := rs |>.

(** Writing leaves the reading side alone, and reading the writing side. *)
Record out_frame (w w' : World) : Prop := {
  of_state : state_ w' = state_ w;
  of_settings : settings w' = settings w;
  of_reading : reading_ w' = reading_ w;
  of_interest : isReading (channel_ w') = isReading (channel_ w);
  of_input : input_buffer_ w' = input_buffer_ w;
}.
#[export] Instance out_frame_preorder : PreOrder out_frame.
Proof. split; [by intros w|]. intros a b c [? ? ? ? ?] [? ? ? ? ?]. split; congruence. Qed.

Lemma out_armWrite w :
  out_frame w (armWriteTimer w) /\ trace (armWriteTimer w) = trace w /\ sent (armWriteTimer w) = sent w /\
  output_buffer_ (armWriteTimer w) = output_buffer_ w.
Proof. unfold armWriteTimer. by case_match. Qed.
Lemma out_cancelWrite w :
  out_frame w (cancelWriteTimer w) /\ trace (cancelWriteTimer w) = trace w /\ sent (cancelWriteTimer w) = sent w /\
  output_buffer_ (cancelWriteTimer w) = output_buffer_ w.
Proof.
  unfold cancelWriteTimer, cancel. destruct (write_timer_armed_ w); [|done].
  by destruct (timers w !! write_timer_ w).
Qed.
Lemma out_enableWrite w : out_frame w (set_channel enableWrite w).
Proof. split; try done. exact (flag_enable (channel_ w) 1 0 ltac:(lia) ltac:(lia)). Qed.
Lemma out_disableWrite w : out_frame w (set_channel disableWrite w).
Proof. split; try done. exact (flag_disable (channel_ w) 1 0 ltac:(lia) ltac:(lia)). Qed.
Lemma out_sys_write s w : out_frame w (sys_write s w).2.
Proof. unfold sys_write. by destruct (writes w) as [|[]]. Qed.

Lemma out_resetIdle w : out_frame w (resetIdleTimer w).
Proof.
  unfold resetIdleTimer, cancelIdleTimer, cancel. case_match; [done|]. destruct (idle_timer_armed_ w); [|done].
  by destruct (timers w !! idle_timer_ w).
Qed.

Lemma recorded_ok k w : stream_ok w -> stream_ok (recorded k w).
Proof.
  intros [? ? ? ? ? ? ?]. split; try done. simpl. apply Forall_app. split; [done|by repeat constructor].
Qed.
Lemma recorded_quietly n w : Forall quiet_script (scripts w) -> quietly w (recorded (CbHighWater n) w).
Proof. intros Hs. split; try done. simpl. intros Ht. apply Forall_app. split; [done|by repeat constructor]. Qed.

Lemma same_stream_pending w w' : same_stream w w' -> pending w' = pending w /\ sent w' = sent w.
Proof. intros (Ho & _ & Hs & _). unfold pending. by rewrite Ho, Hs. Qed.

Lemma reading_disableRead c : isReading (disableRead c) = false.
Proof. exact (flag_disable c 0 0 ltac:(lia) ltac:(lia)). Qed.
Lemma reading_enableRead c : isReading (enableRead c) = true.
Proof. exact (flag_enable c 0 0 ltac:(lia) ltac:(lia)). Qed.

(** ** Sending and half-closing *)

(** What had been written whenever the write side was shut down. *)
Definition halfclose_of (e : event) : option bytes := match e with EShutdownWrite _ wr _ => Some wr | _ => None end.
Definition halfcloses (w : World) : list bytes := omap halfclose_of (trace w).

Lemma halfcloses_log e w : halfcloses (log e w) = halfcloses w ++ omap halfclose_of [e].
Proof. unfold halfcloses, log. simpl (trace _). apply omap_app. Qed.
Lemma halfcloses_recorded k w : halfcloses (recorded k w) = halfcloses w.
Proof. unfold recorded. rewrite halfcloses_log. apply app_nil_r. Qed.

(** What the connection callback was told: connected or not. *)
Definition told_of (e : event) : option bool := match e with ECallback (CbConnection b) => Some b | _ => None end.
Definition told (w : World) : list bool := omap told_of (trace w).

Lemma told_log e w : told (log e w) = told w ++ omap told_of [e].
Proof. unfold told, log. simpl (trace _). apply omap_app. Qed.
Lemma told_notify b w :
  told (notify recorded has_connection (CbConnection b) w) =
  told w ++ if has_connection (settings w) then [b] else [].
Proof. unfold notify, recorded. case_match; [by rewrite told_log|by rewrite app_nil_r]. Qed.

(** What it has been told in a state, if it is set from the start. *)
Definition told_in (s : State) : list bool :=
  match s with kConnecting => [] | kConnected | kDisconnecting => [true] | kDisconnected => [true; false] end.

(** Every callback but the connection callback. *)
Definition aside (k : cb_kind) : Prop := forall b, k <> CbConnection b.

(** Neither messages are taken, nor is the write side shut down, nor the
    connection callback called. *)
Record calm (w w' : World) : Prop := {
  ca_frame : out_frame w w';
  ca_sent : sent w' = sent w;
  ca_halfcloses : halfcloses w' = halfcloses w;
  ca_told : told w' = told w;
}.
#[export] Instance calm_preorder : PreOrder calm.
Proof.
  split; [by intros w|]. intros a b c [F Hs Hh Ht] [F' Hs' Hh' Ht']. split; [by etrans|congruence..].
Qed.
Lemma calm_same w w' : out_frame w w' -> trace w' = trace w -> sent w' = sent w -> calm w w'.
Proof. intros F Ht Hs. split; [done|done|..]; unfold halfcloses, told; by rewrite Ht. Qed.
Lemma calm_recorded k w : aside k -> calm w (recorded k w).
Proof.
  intros Hk. split; [done|done|apply halfcloses_recorded|]. unfold recorded. rewrite told_log.
  destruct k as [b| | | |]; simpl; [by destruct (Hk b)|apply app_nil_r..].
Qed.
Lemma calm_notify has k w : aside k -> calm w (notify recorded has k w).
Proof. intros Hk. unfold notify. case_match; [by apply calm_recorded|done]. Qed.
Lemma calm_sys_write s w : calm w (sys_write s w).2.
Proof. apply calm_same; [apply out_sys_write|apply sys_write_ok..]. Qed.
Lemma calm_cancelWrite w : calm w (cancelWriteTimer w).
Proof. destruct (out_cancelWrite w) as (? & ? & ? & _). by apply calm_same. Qed.
Lemma calm_resetIdle w : calm w (resetIdleTimer w).
Proof. destruct (resetIdle_same w) as [(_ & _ & Hs & _ & _ & Ht & _) _]. by apply calm_same; [apply out_resetIdle|..]. Qed.

Lemma calm_armMaxAge w : calm w (armMaxAgeTimer w).
Proof. apply calm_same; unfold armMaxAgeTimer; by case_match. Qed.

Lemma calm_queue_output s w : calm w (queue_output recorded s w).
Proof.
  unfold queue_output. case_match; [done|].
  assert (Hh : calm w (high_water recorded (length s) w)) by (unfold high_water; case_match; [by apply calm_recorded|done]).
  etrans; [exact Hh|]. set (w1 := high_water _ _ _).
  destruct (out_armWrite (if isWriting (channel_ (w1 <| output_buffer_ := Buffer.append s (output_buffer_ w1) |>))
     then w1 <| output_buffer_ := Buffer.append s (output_buffer_ w1) |>
     else set_channel enableWrite (w1 <| output_buffer_ := Buffer.append s (output_buffer_ w1) |>))) as (F & T & Se & _).
  etrans; [|by apply calm_same]. case_match; [done|]. apply calm_same; [|done..]. etrans; [|apply out_enableWrite]. done.
Qed.

Lemma calm_write_directly s w : calm w (write_directly recorded s w).2.
Proof.
  unfold write_directly. case_match; [|done]. pose proof (calm_sys_write s w) as H1.
  destruct (sys_write s w) as [[n|e] w2]; [|exact H1]. cbn [snd] in *. etrans; [exact H1|].
  etrans; [|case_match; [by apply calm_notify|done]]. done.
Qed.

Lemma send_connected s w :
  state_ w = kConnected -> stream_ok w ->
  let w' := send recorded true s w in
  stream_ok w' /\ out_frame w w' /\ sent w' = sent w ++ [s] /\ halfcloses w' = halfcloses w /\ told w' = told w.
Proof.
  intros Hc Hok. unfold send, in_loop_or_queue. rewrite bool_decide_true by done. cbn zeta.
  split; [exact (sendInLoop_ok recorded (fun k w _ => recorded_ok k w) recorded_quietly s w Hok)|].
  unfold sendInLoop. rewrite bool_decide_false by (rewrite Hc; done). set (w1 := w <| sent := _ |>).
  pose proof (calm_write_directly s w1) as H1. destruct (write_directly recorded s w1) as [rest w2]. cbn [snd] in H1.
  pose proof (calm_queue_output rest w2) as H2. assert (H3 : calm w1 (queue_output recorded rest w2)) by (by etrans).
  destruct H3 as [F Hs Hh Ht]. split_and!; [|done..]. by etrans; [|exact F].
Qed.

(** The write side is shut down once everything sent is written, and not before
    the connection is closing. *)
Record shut_ok (w : World) : Prop := {
  sh_open : state_ w = kConnected -> halfcloses w = [];
  sh_written : Forall (fun wr => wr = concat (sent w)) (halfcloses w);
  sh_done : state_ w = kDisconnecting -> pending w = 0 -> halfcloses w <> [];
}.

Lemma shut_same w w' :
  state_ w' = state_ w -> sent w' = sent w -> halfcloses w' = halfcloses w -> pending w' = pending w -> shut_ok w -> shut_ok w'.
Proof. intros Hst Hs Hh Hp []. split; rewrite ?Hh, ?Hs, ?Hp, ?Hst; done. Qed.

Lemma shutdownInLoop_shut w :
  state_ w = kDisconnecting -> stream_ok w -> Forall (fun wr => wr = concat (sent w)) (halfcloses w) ->
  shut_ok (shutdownInLoop w) /\ out_frame w (shutdownInLoop w) /\ sent (shutdownInLoop w) = sent w.
Proof.
  intros Hst Hok Hall. pose proof (so_writing _ Hok ltac:(rewrite Hst; done)) as Hw. fold (pending w) in Hw.
  unfold shutdownInLoop. rewrite Hw. destruct (Nat.eqb_spec (pending w) 0) as [E|E]; simpl.
  - assert (Hwire : wire w = concat (sent w)).
    { rewrite <-(so_wire _ Hok). assert (Buffer.content (output_buffer_ w) = []) as ->; [|by rewrite app_nil_r].
      apply length_0_nil. by rewrite Buffer.length_content by apply Hok. }
    split; [|done]. split; rewrite ?halfcloses_log; simpl; [congruence| |].
    + apply Forall_app. split; [done|]. by repeat constructor.
    + intros _ _ Hnil. by apply app_nil in Hnil as [_ ?].
  - split; [|done]. split; [congruence|done|]. intros _ Hp. congruence.
Qed.

Lemma told_shutdownInLoop w : told (shutdownInLoop w) = told w.
Proof. unfold shutdownInLoop. case_match; [done|]. rewrite told_log. apply app_nil_r. Qed.

Lemma shutdown_connected w :
  state_ w = kConnected -> stream_ok w -> halfcloses w = [] ->
  let w' := shutdown true w in
  stream_ok w' /\ shut_ok w' /\ state_ w' = kDisconnecting /\ sent w' = sent w /\ settings w' = settings w /\
  input_buffer_ w' = input_buffer_ w /\ told w' = told w.
Proof.
  intros Hc Hok Hh. cbn zeta. pose proof (shutdown_ok true w Hok) as Hok'. split; [done|].
  unfold shutdown, in_loop_or_queue in *. rewrite bool_decide_true in * by done.
  assert (H1 : stream_ok (setState kDisconnecting w)).
  { destruct Hok as [? ? ? Hwr ? ? ?]. split; simpl; try done. intros _. apply Hwr. congruence. }
  destruct (shutdownInLoop_shut (setState kDisconnecting w)) as (Hs & F & Hse); [done|done| |].
  { change (halfcloses (setState kDisconnecting w)) with (halfcloses w). rewrite Hh. constructor. }
  split_and!; [done|by rewrite (of_state _ _ F)|done|by rewrite (of_settings _ _ F)|by rewrite (of_input _ _ F)|exact (told_shutdownInLoop (setState kDisconnecting w))].
Qed.

Lemma connectDestroyed_down cb w :
  state_ w = kDisconnected ->
  let w' := connectDestroyed cb w in
  state_ w' = kDisconnected /\ sent w' = sent w /\ trace w' = trace w.
Proof.
  intros Hst. unfold connectDestroyed. fold (destroying w).
  destruct (destroying_same w) as [(_ & _ & Hs & Hst' & _ & Ht & _) _]. rewrite bool_decide_false by (rewrite Hst', Hst; done).
  cbn. split_and!; [congruence|done..].
Qed.

(** A connection that has read some bytes, before the message callback. *)
Definition filled (s : bytes) (w : World) : World :=
  resetIdleTimer (w <| input_buffer_ := (Buffer.readFd (fun _ => Buffer.ReadvOk s) (input_buffer_ w)).2 |>
                    <| bytes_read_ := wrap64 (bytes_read_ w + zlen s) |>).

(** What the message callback finds: the bytes appended to its buffer, the rest of
    the connection as it was. *)
Record entered (s : bytes) (w w' : World) : Prop := {
  en_ok : stream_ok w';
  en_state : state_ w' = state_ w;
  en_settings : settings w' = settings w;
  en_sent : sent w' = sent w;
  en_halfcloses : halfcloses w' = halfcloses w;
  en_told : told w' = told w;
  en_pending : pending w' = pending w;
  en_input : input_buffer_ w' = (Buffer.readFd (fun _ => Buffer.ReadvOk s) (input_buffer_ w)).2;
  en_content : Buffer.content (input_buffer_ w') = Buffer.content (input_buffer_ w) ++ s;
}.

Lemma message_entered s w : stream_ok w -> entered s w (recorded CbMessage (filled s w)).
Proof.
  intros Hok. unfold filled. destruct (Buffer.readFd_spec (fun _ => Buffer.ReadvOk s) _ (so_in _ Hok)) as [Hwf [_ Hc]].
  set (buf := (Buffer.readFd _ _).2) in *. set (w1 := w <| input_buffer_ := buf |> <| bytes_read_ := _ |>).
  assert (Hok1 : stream_ok w1) by (destruct (input_ok _ _ Hok Hwf); by split).
  pose proof (same_ok _ _ (resetIdle_same w1) Hok1) as Hok2.
  destruct (same_stream_pending _ _ (proj1 (resetIdle_same w1))) as [Hp _].
  assert (Hcalm : calm w1 (recorded CbMessage (resetIdleTimer w1))) by (etrans; [apply calm_resetIdle|by apply calm_recorded]).
  destruct Hcalm as [F Hs Hh Ht].
  split; [by apply recorded_ok|exact (of_state _ _ F)|exact (of_settings _ _ F)|exact Hs|exact Hh|exact Ht|exact Hp|exact (of_input _ _ F)|].
  rewrite (of_input _ _ F). exact Hc.
Qed.

(** ** Callbacks that do the same *)
Section ext.
Context (cb1 cb2 : cb_kind -> World -> World) (Hext : forall k w, cb1 k w = cb2 k w).

Lemma notify_ext has k w : notify cb1 has k w = notify cb2 has k w.
Proof. unfold notify. by rewrite Hext. Qed.
Lemma handleClose_ext w : handleClose cb1 w = handleClose cb2 w.
Proof. unfold handleClose. by rewrite !notify_ext. Qed.
Lemma forceClose_ext b w : forceClose cb1 b w = forceClose cb2 b w.
Proof. unfold forceClose, in_loop_or_queue, forceCloseInLoop. by rewrite handleClose_ext. Qed.
Lemma handleRead_ext readv w : handleRead cb1 readv w = handleRead cb2 readv w.
Proof.
  unfold handleRead, handleError, enforce_input_cap. destruct (Buffer.readFd _ _) as [[e|[|n]] b];
    by rewrite ?handleClose_ext, ?notify_ext, ?forceClose_ext.
Qed.
Lemma handleWrite_ext w : handleWrite cb1 w = handleWrite cb2 w.
Proof. unfold handleWrite. destruct (sys_write _ _) as [[[|n]|e] w1]; by rewrite ?notify_ext. Qed.
Lemma fire_ext id w : fire cb1 id w = fire cb2 id w.
Proof. unfold fire. destruct (timers w !! id) as [[[] d]|]; [..|done]; unfold on_timer; by rewrite forceClose_ext. Qed.
Lemma connectEstablished_ext w : connectEstablished cb1 w = connectEstablished cb2 w.
Proof. unfold connectEstablished. by rewrite notify_ext. Qed.
End ext.

(** ** Connections whose only acting callback is the message callback *)
Definition message_only (cb : cb_kind -> World -> World) : Prop := forall k w, k <> CbMessage -> cb k w = recorded k w.

Section message_only.
Context (cb : cb_kind -> World -> World) (Hcb : message_only cb).

Lemma notify_other has k w : k <> CbMessage -> notify cb has k w = notify recorded has k w.
Proof. intros Hk. unfold notify. case_match; [|done]. by apply Hcb. Qed.

(** The connection ends: the connection callback is told, nothing more is sent
    or shut down. *)
Record over (w w' : World) : Prop := {
  ov_state : state_ w' = kDisconnected;
  ov_sent : sent w' = sent w;
  ov_halfcloses : halfcloses w' = halfcloses w;
  ov_told : told w' = told w ++ if has_connection (settings w) then [false] else [];
}.

(** The connection is up, and the connection callback knows. *)
Record up (w w' : World) : Prop := {
  up_state : state_ w' = kConnected;
  up_settings : settings w' = settings w;
  up_input : input_buffer_ w' = input_buffer_ w;
  up_sent : sent w' = sent w;
  up_halfcloses : halfcloses w' = halfcloses w;
  up_told : told w' = told w ++ if has_connection (settings w) then [true] else [];
}.

Lemma connectEstablished_up w : up w (connectEstablished cb w).
Proof.
  unfold connectEstablished. set (w1 := set_channel enableRead _).
  rewrite notify_other by done. set (w2 := notify recorded has_connection _ w1).
  assert (Hc : calm w2 (armMaxAgeTimer (resetIdleTimer w2))) by (etrans; [apply calm_resetIdle|apply calm_armMaxAge]).
  destruct Hc as [F Hs Hh Ht].
  assert (H2 : out_frame w1 w2 /\ sent w2 = sent w1 /\ halfcloses w2 = halfcloses w1).
  { unfold w2, notify. case_match; [|done]. split_and!; [done|done|apply halfcloses_recorded]. }
  destruct H2 as (F2 & Hs2 & Hh2). assert (F3 := transitivity F2 F).
  split; [exact (of_state _ _ F3)|exact (of_settings _ _ F3)|exact (of_input _ _ F3)|by rewrite Hs, Hs2|by rewrite Hh, Hh2|].
  rewrite Ht. exact (told_notify (connected w1) w1).
Qed.

Lemma closing_same w :
  state_ (closing w) = kDisconnected /\ sent (closing w) = sent w /\ trace (closing w) = trace w /\
  settings (closing w) = settings w.
Proof.
  split_and!; unfold closing, set_channel, cancelMaxAgeTimer, cancelWriteTimer, cancelIdleTimer, cancel; by repeat case_match.
Qed.

Lemma notify_connection_false w :
  state_ w = kDisconnected -> over w (notify cb has_connection (CbConnection (connected w)) w).
Proof.
  intros Hst. rewrite notify_other by done. split; [by unfold notify; case_match..| |].
  - unfold notify. case_match; [apply halfcloses_recorded|done].
  - rewrite told_notify. unfold connected. by rewrite bool_decide_false by (rewrite Hst; done).
Qed.

Lemma handleClose_over w : over w (handleClose cb w).
Proof.
  unfold handleClose. fold (closing w). destruct (closing_same w) as (Hst & Hs & Ht & Hse).
  destruct (notify_connection_false (closing w) Hst) as [N1 N2 N3 N4]. set (w2 := notify cb has_connection _ _) in *.
  rewrite notify_other by done. destruct (calm_notify has_close CbClose w2) as [F Hs' Hh Hto]; [done|].
  split; [by rewrite (of_state _ _ F)|congruence|..].
  - rewrite Hh, N3. unfold halfcloses. by rewrite Ht.
  - rewrite Hto, N4, Hse. unfold told. by rewrite Ht.
Qed.

Lemma forceClose_over w :
  forceClose cb true w = w \/ (open w /\ over w (forceClose cb true w)).
Proof.
  unfold forceClose, in_loop_or_queue, forceCloseInLoop. case_match eqn:E; [|by left]. right.
  split; [unfold open; apply orb_true_iff in E; by rewrite !bool_decide_eq_true in E|]. rewrite bool_decide_false by done. destruct (handleClose_over (setState kDisconnecting w)) as [H1 H2 H3 H4]. by split.
Qed.

(** A read of some bytes: the message callback on the filled buffer, then the cap. *)
Lemma handleRead_message b s w :
  Buffer.buffer_wf (input_buffer_ w) -> has_message (settings w) = true ->
  handleRead cb (fun _ => Buffer.ReadvOk (b :: s)) w = enforce_input_cap cb (cb CbMessage (filled (b :: s) w)).
Proof.
  intros Hwf Hm. unfold handleRead, filled. destruct (Buffer.readFd_spec (fun _ => Buffer.ReadvOk (b :: s)) _ Hwf) as [_ [Hn _]].
  destruct (Buffer.readFd _ (input_buffer_ w)) as [n buf]. cbn [fst snd] in *. subst n. cbn [length]. unfold notify.
  rewrite (of_settings _ _ (out_resetIdle _)). change (settings (_ <| bytes_read_ := _ |>)) with (settings w). by rewrite Hm.
Qed.

Lemma handleRead_end r w :
  r = Buffer.ReadvOk [] \/ (exists e, r = Buffer.ReadvError e) -> Buffer.buffer_wf (input_buffer_ w) ->
  over w (handleRead cb (fun _ => r) w).
Proof.
  intros Hr Hwf. unfold handleRead. destruct (Buffer.readFd_spec (fun _ => r) _ Hwf) as [_ Hn].
  destruct (Buffer.readFd _ (input_buffer_ w)) as [n buf]. destruct Hr as [->|[e ->]]; [destruct Hn as [Hn _]|]; simplify_eq/=;
    [destruct (handleClose_over (w <| input_buffer_ := buf |>))|destruct (handleClose_over (w <| input_buffer_ := input_buffer_ w |>))]; by split.
Qed.

Lemma shutdownInLoop_ok_inv w : stream_ok (shutdownInLoop w) -> stream_ok w.
Proof.
  unfold shutdownInLoop. case_match; [done|]. intros [? ? ? ? ? Ht ?]. split; try done. simpl in Ht.
  by apply Forall_app in Ht as [? _].
Qed.

Lemma on_timer_cases k w :
  let w' := on_timer cb k w in (calm w w' /\ pending w' = pending w) \/ (open w /\ over w w').
Proof.
  assert (Hf : forall v, calm w v -> pending v = pending w ->
    (calm w (forceClose cb true v) /\ pending (forceClose cb true v) = pending w) \/
    (open w /\ over w (forceClose cb true v))).
  { intros v Hv Hp. destruct (forceClose_over v) as [->|[Ho [H1 H2 H3 H4]]]; [by left|]. right. destruct Hv as [F Hs Hh Ht].
    split; [unfold open in *; by rewrite (of_state _ _ F) in Ho|]. split; [done|congruence|congruence|]. by rewrite H4, Ht, (of_settings _ _ F). }
  destruct k; simpl; [by apply Hf| |by apply Hf]. case_match; [by apply Hf|by left].
Qed.

Hypothesis Hok_cb : forall k w, (forall n, k <> CbHighWater n) -> stream_ok w -> stream_ok (cb k w).

Lemma handleWrite_shut w :
  stream_ok w -> shut_ok w ->
  let w' := handleWrite cb w in shut_ok w' /\ out_frame w w' /\ sent w' = sent w /\ told w' = told w.
Proof.
  intros Hok Hsh. pose proof (handleWrite_ok cb Hok_cb w Hok) as Hok'.
  cbn zeta. unfold handleWrite in *. destruct (negb (isWriting (channel_ w))); [done|].
  pose proof (calm_sys_write (Buffer.content (output_buffer_ w)) w) as [F Hs Hh Hto].
  pose proof (sys_write_ok (Buffer.content (output_buffer_ w)) w) as [_ (Ho & _ & _ & Hst & _)].
  destruct (sys_write _ w) as [[[|n]|e] w2]; cbn [snd] in *;
    try (split; [apply (shut_same w); unfold pending; by rewrite ?Ho|done]).
  set (w3 := (count_written (Datatypes.S n) w2) <| output_buffer_ := _ |>) in *.
  assert (H3 : calm w w3) by (etrans; [by split|]; done).
  destruct (Buffer.readableBytes (output_buffer_ w3) =? 0) eqn:E.
  2: { destruct H3 as [F3 Hs3 Hh3 Ht3]. split; [|done]. destruct Hsh. split; rewrite ?Hh3, ?Hs3, ?(of_state _ _ F3); try done.
       intros _ Hp. apply Nat.eqb_neq in E. done. }
  rewrite notify_other in * by done.
  set (w5 := notify recorded has_write_complete CbWriteComplete _) in *.
  assert (H5 : calm w w5).
  { etrans; [exact H3|]. etrans; [|by apply calm_notify]. etrans; [|apply calm_cancelWrite].
    apply calm_same; [apply out_disableWrite|done..]. }
  destruct H5 as [F5 Hs5 Hh5 Ht5]. destruct Hsh as [Hop Hwr Hdn]. case_match; bool_prop.
  - destruct (shutdownInLoop_shut w5) as (H1 & H2 & H4); [done|by apply shutdownInLoop_ok_inv|by rewrite Hh5, Hs5|].
    split_and!; [done|by etrans|congruence|by rewrite told_shutdownInLoop].
  - split; [|done]. split; rewrite ?Hh5, ?Hs5; [|done|done]. rewrite (of_state _ _ F5). done.
Qed.
End message_only.
End TcpFrames.
