(* ===== verification/Proxy.v ===== *)
(** * End-to-end backpressure (examples/c10k/backpressure_proxy.cc)

    The relay of the backpressure example: two TCP connections linked by
    callbacks, each forwarding what it reads to the other and pausing its reads
    while the other's output is backed up.  Both connections are the model of
    [TcpConnection].  The callbacks [pipe] installs on a connection act on the
    other one, and the two connections share nothing else, so an operation on
    one connection is run with callbacks that only record ([recorded]), and what
    it recorded is then applied to the other side ([react]). *)

From stdpp Require Import gmap.
From S2P Require Import Prelude Buffer EventLoop TcpConnection TcpFrames.
Import Channel TcpConnection TcpFrames.

Module Proxy.

Definition callback_of (e : event) : option cb_kind := match e with ECallback k => Some k | _ => None end.
Definition new_callbacks (w w' : World) : list cb_kind := omap callback_of (drop (length (trace w)) (trace w')).

(** The high-water-mark and write-complete callbacks [pipe] installs on [to], as
    they act on [from]. *)
Definition react1 (from : World) (k : cb_kind) : World :=
  match k with
  | CbHighWater _ => stopRead true from
  | CbWriteComplete => if reading_ from then from else startRead true from
  | _ => from
  end.
Definition react (backpressure : bool) (ks : list cb_kind) (from : World) : World :=
  if backpressure then fold_left react1 ks from else from.

Definition retrieveAll (w : World) : World := w <| input_buffer_ := Buffer.retrieveAll (input_buffer_ w) |>.

(** The message callback [pipe] installs on [from], on both connections; [to] is
    [None] when it is gone. *)
Definition on_message (backpressure : bool) (to : option World) (from : World) : World * option World :=
  match to with
  | Some to =>
    let '(data, buf) := Buffer.retrieveAllAsString (input_buffer_ from) in
    let to' := send recorded true data to in
    (react backpressure (new_callbacks to to') (from <| input_buffer_ := buf |>), Some to')
  | None => (shutdown true (retrieveAll from), None)
  end.

Definition from_callback (backpressure : bool) (to : option World) (k : cb_kind) (from : World) : World :=
  let from := log (ECallback k) from in
  match k with CbMessage => (on_message backpressure to from).1 | _ => from end.

(** The setters [pipe] calls. *)
Definition with_message (s : Settings) : Settings := setMessageCallback true s.
Definition with_backpressure (hwm : Z) (s : Settings) : Settings :=
  setWriteCompleteCallback true (setHighWaterMarkCallback true hwm s).

Definition pipe (hwm : Z) (backpressure : bool) (from to : World) : World * World :=
  let from := from <| settings := with_message (settings from) |> in
  (from, if backpressure then to <| settings := with_backpressure hwm (settings to) |> else to).

(** The connection callback of a client's connection, as it acts on that
    connection: no reading until the upstream is connected. *)
Definition down_callback (k : cb_kind) (down : World) : World :=
  let down := log (ECallback k) down in if connected down then stopRead true down else down.

(** The connection callback of the upstream connection; [d] is [None] when the
    client's connection is gone. *)
Definition upstream_callback (hwm : Z) (backpressure : bool) (d : option World) (up : World) : option World * World :=
  if connected up then
    match d with
    | None => (None, shutdown true up)
    | Some d =>
      let '(d, up) := pipe hwm backpressure d up in
      let '(up, d) := pipe hwm backpressure up d in
      (Some (startRead true d), up)
    end
  else (option_map (shutdown true) d, up).

(** ** The relay *)
Record Relay := mkRelay {
  down : World;
  up : World;
  from_down : bytes;     (* what was read from either side *)
  from_up : bytes;
}.

(** The client is accepted, the upstream connects, and the two are linked. *)
Definition relay_start (hwm : Z) (backpressure : bool) (down0 up0 : World) : Relay :=
  let d := connectEstablished down_callback down0 in
  let linked up := upstream_callback hwm backpressure (Some d) up in
  mkRelay (default d (linked (setState kConnected up0)).1)
    (connectEstablished (fun k up => (linked (log (ECallback k) up)).2) up0) [] [].

(** [from] is readable: its [handleRead] runs the message callback, which sends
    to [to] and may pause [from]. *)
Definition relay_read (backpressure : bool) (readv : nat -> Buffer.readv_result) (from to : World) : World * World :=
  (handleRead (from_callback backpressure (Some to)) readv from,
   match Buffer.readFd readv (input_buffer_ from) with
   | (inr (S _), buf) =>
     if has_message (settings from)
     then default to (on_message backpressure (Some to) (from <| input_buffer_ := buf |>)).2 else to
   | _ => to
   end).

(** [to] is writable: its [handleWrite] may resume [from]. *)
Definition relay_write (backpressure : bool) (from to : World) : World * World :=
  let to' := handleWrite recorded to in
  (react backpressure (new_callbacks to to') from, to').

(** What the loop does while both sides are connected; the kernel decides how
    much it reads and writes. *)
Inductive relay_step : Relay -> Relay -> Prop :=
| down_readable s r :
    isReading (channel_ (down r)) = true -> 0 < length s <= Buffer.readFd_capacity (input_buffer_ (down r)) ->
    relay_step r (let '(d, u) := relay_read true (fun _ => Buffer.ReadvOk s) (down r) (up r) in
                  mkRelay d u (from_down r ++ s) (from_up r))
| up_readable s r :
    isReading (channel_ (up r)) = true -> 0 < length s <= Buffer.readFd_capacity (input_buffer_ (up r)) ->
    relay_step r (let '(u, d) := relay_read true (fun _ => Buffer.ReadvOk s) (up r) (down r) in
                  mkRelay d u (from_down r) (from_up r ++ s))
| down_writable r :
    relay_step r (let '(u, d) := relay_write true (up r) (down r) in mkRelay d u (from_down r) (from_up r))
| up_writable r :
    relay_step r (let '(d, u) := relay_write true (down r) (up r) in mkRelay d u (from_down r) (from_up r))
| kernel wd wu r :
    relay_step r (mkRelay (set_writes wd (down r)) (set_writes wu (up r)) (from_down r) (from_up r)).

(** ** One connection of the relay *)
Lemma new_callbacks_app w w' ks : trace w' = trace w ++ map ECallback ks -> new_callbacks w w' = ks.
Proof.
  intros Ht. unfold new_callbacks. rewrite Ht, drop_app_length. clear Ht.
  induction ks as [|k ks IH]; [done|]. cbn. f_equal. exact IH.
Qed.

(** One read moves fewer bytes than two of [readFd]'s extra buffers. *)
Definition max_read : Z := 2 * Z.of_nat Buffer.kExtraBuf.
Lemma max_read_val : max_read = 131072%Z.
Proof. vm_compute. reflexivity. Qed.
#[local] Opaque Buffer.kExtraBuf max_read.

(** An input buffer the message callback has emptied: it has grown once at most. *)
Record drained (b : Buffer.Buffer) : Prop := {
  dr_reader : Buffer.reader_index_ b = Buffer.kCheapPrepend;
  dr_writer : Buffer.writer_index_ b = Buffer.kCheapPrepend;
  dr_size : (Z.of_nat Buffer.kCheapPrepend <= Z.of_nat (length (Buffer.data_ b)) < Z.of_nat Buffer.kCheapPrepend + max_read)%Z;
}.

Lemma drained_wf b : drained b -> Buffer.buffer_wf b /\ Buffer.content b = [] /\ Buffer.writableBytes b = length (Buffer.data_ b) - 8.
Proof.
  intros [Hr Hw Hs]. assert (Hwf : Buffer.buffer_wf b) by (unfold Buffer.buffer_wf; rewrite Hr, Hw; lia).
  split; [done|]. unfold Buffer.writableBytes. rewrite Hw. split; [|done].
  apply length_0_nil. rewrite Buffer.length_content by done. unfold Buffer.readableBytes. lia.
Qed.

Lemma retrieveAll_drained b : Buffer.buffer_wf b ->
  Buffer.retrieveAllAsString b = (Buffer.content b, Buffer.retrieveAll b).
Proof.
  intros Hwf. unfold Buffer.retrieveAllAsString, Buffer.retrieveAsString, Buffer.retrieve. by rewrite Nat.ltb_irrefl.
Qed.

(** Reading into a drained buffer yields exactly the bytes read, grows the
    buffer within its bound, and the bytes fit the bound too. *)
Lemma readFd_drained s b :
  drained b -> length s <= Buffer.readFd_capacity b ->
  (Z.of_nat (length s) < max_read)%Z /\
  let '(n, buf) := Buffer.readFd (fun _ => Buffer.ReadvOk s) b in
  n = inr (length s) /\ Buffer.buffer_wf buf /\ Buffer.content buf = s /\ drained (Buffer.retrieveAll buf).
Proof.
  intros Hd Hcap. destruct (drained_wf b Hd) as (Hwf & Hc & Hwr).
  destruct (Buffer.readFd_spec (fun _ => Buffer.ReadvOk s) b Hwf) as [Hwf' [Hn Hc']]. rewrite Hc in Hc'.
  pose proof (dr_size _ Hd) as Hsz. pose proof (dr_writer _ Hd) as Hw.
  assert (HM : max_read = (2 * Z.of_nat Buffer.kExtraBuf)%Z) by reflexivity.
  assert (HK : Buffer.kCheapPrepend = 8) by done.
  assert (Hlen : forall t, length t <= Buffer.writableBytes b ->
    length (Buffer.write_at (Buffer.writer_index_ b) t (Buffer.data_ b)) = length (Buffer.data_ b)).
  { intros t Ht. apply Buffer.length_write_at. unfold Buffer.writableBytes in Ht. lia. }
  assert (Hsize : (Z.of_nat 8 <= Z.of_nat (length (Buffer.data_ (Buffer.readFd (fun _ => Buffer.ReadvOk s) b).2)) < 8 + max_read)%Z).
  { unfold Buffer.readFd. unfold Buffer.readFd_capacity in Hcap.
    destruct (Nat.leb_spec (length s) (Buffer.writableBytes b)); cbn [snd].
    - simpl. rewrite Hlen by len. lia.
    - destruct (Nat.ltb_spec (Buffer.writableBytes b) Buffer.kExtraBuf); [|lia].
      rewrite Buffer.append_size.
      + unfold Buffer.readableBytes, Buffer.writableBytes. simpl. rewrite Hlen by len. rewrite length_drop.
        repeat case_match; lia.
      + unfold Buffer.buffer_wf. simpl. rewrite Hlen by len. rewrite (dr_reader _ Hd). lia. }
  split.
  { unfold Buffer.readFd_capacity in Hcap. destruct (Nat.ltb_spec (Buffer.writableBytes b) Buffer.kExtraBuf); lia. }
  destruct (Buffer.readFd _ b) as [n buf]. cbn [fst snd] in *. split_and!; [exact Hn|exact Hwf'|exact Hc'|].
  split; [reflexivity|reflexivity|exact Hsize].
Qed.

(** A connection of the relay. *)
Record conn_ok (hwm : Z) (w : World) : Prop := {
  co_stream : stream_ok w;
  co_connected : state_ w = kConnected;
  co_interest : isReading (channel_ w) = reading_ w;
  co_hwm : high_water_mark_ (settings w) = hwm;
  co_high : has_high_water (settings w) = true;
  co_complete : has_write_complete (settings w) = true;
  co_message : has_message (settings w) = true;
  co_input : drained (input_buffer_ w);
}.

Lemma conn_frame hwm w w' : out_frame w w' -> stream_ok w' -> conn_ok hwm w -> conn_ok hwm w'.
Proof. intros [F1 F2 F3 F4 F5] Hs []. split; rewrite ?F1, ?F2, ?F3, ?F4, ?F5; done. Qed.

(** ** Sending and flushing, with the callbacks they run *)
Section one.
Variables (hwm : Z).

(** The callbacks of a change of the queue from [p] to [p'] bytes. *)
Definition crossed (p p' : nat) : Prop := (Z.of_nat p < hwm <= Z.of_nat p')%Z.

Inductive queue_change (p p' : nat) : list cb_kind -> Prop :=
| change_empty : p' = 0 -> queue_change p p' [CbWriteComplete]
| change_high n : crossed p p' -> queue_change p p' [CbHighWater n]
| change_quiet : ~ crossed p p' -> (0 < p -> 0 < p') -> queue_change p p' [].

Lemma high_water_spec n w :
  high_water_mark_ (settings w) = hwm -> has_high_water (settings w) = true ->
  exists ks, high_water recorded n w = w <| trace := trace w ++ map ECallback ks |> /\
    (forall p', p' = pending w + n -> queue_change (pending w) p' ks).
Proof.
  intros Hh Hc. unfold high_water. rewrite Hh, Hc, andb_true_r. fold (pending w).
  destruct (Z.ltb_spec (Z.of_nat (pending w)) hwm), (Z.leb_spec hwm (Z.of_nat (pending w + n))); simpl.
  1: { exists [CbHighWater (pending w + n)]. split; [done|]. intros p' ->. apply change_high. by split. }
  all: exists []; simpl; rewrite app_nil_r; split; [by destruct w|]; intros p' ->; apply change_quiet; unfold crossed; lia.
Qed.

Lemma queue_output_spec s w :
  high_water_mark_ (settings w) = hwm -> has_high_water (settings w) = true -> Buffer.buffer_wf (output_buffer_ w) ->
  let w' := queue_output recorded s w in
  out_frame w w' /\ sent w' = sent w /\ pending w' = pending w + length s /\
  exists ks, trace w' = trace w ++ map ECallback ks /\ queue_change (pending w) (pending w') ks.
Proof.
  intros Hh Hc Hwf. unfold queue_output. destruct (Nat.eqb_spec (length s) 0) as [E|E].
  { simpl. rewrite E. split_and!; [done|done|lia|]. exists []. simpl. rewrite app_nil_r. split; [done|].
    apply change_quiet; unfold crossed; lia. }
  destruct (high_water_spec (length s) w Hh Hc) as (ks & -> & Hks).
  destruct (Buffer.append_spec s (output_buffer_ w) Hwf) as [Hwf' Hap].
  match goal with |- context [armWriteTimer ?x] => set (w2 := x) end.
  destruct (out_armWrite w2) as (F2 & T2 & S2 & O2).
  assert (H2 : out_frame w w2 /\ trace w2 = trace w ++ map ECallback ks /\ sent w2 = sent w /\
    output_buffer_ w2 = Buffer.append s (output_buffer_ w)).
  { unfold w2. case_match; [done|]. split; [|done]. etrans; [|apply out_enableWrite]. done. }
  destruct H2 as (F3 & T3 & S3 & O3).
  assert (Hp : pending (armWriteTimer w2) = pending w + length s).
  { unfold pending. rewrite O2, O3, <-!Buffer.length_content, Hap, length_app by done. done. }
  cbn zeta. rewrite Hp, T2, S2. split_and!; [by etrans|done|done|]. exists ks. auto.
Qed.

Lemma write_directly_spec s w :
  has_write_complete (settings w) = true ->
  let '(rest, w') := write_directly recorded s w in
  out_frame w w' /\ sent w' = sent w /\ output_buffer_ w' = output_buffer_ w /\ length rest <= length s /\
  (trace w' = trace w \/ rest = [] /\ pending w = 0 /\ trace w' = trace w ++ [ECallback CbWriteComplete]).
Proof.
  intros Hc. unfold write_directly. destruct (negb _ && _) eqn:E; [|split_and!; auto; done]. bool_prop.
  pose proof (out_sys_write s w) as F. pose proof (sys_write_ok s w) as Hsw.
  destruct (sys_write s w) as [[n|e] w2]; cbn in F, Hsw; destruct Hsw as [_ (Ho & _ & Hse & _ & _ & Ht & _)];
    [|split_and!; auto; done].
  destruct (Nat.eqb_spec (length (drop n s)) 0) as [E2|E2]; [|split_and!; [by etrans|done|done|len|by left]].
  apply length_0_nil in E2. unfold notify. simpl. rewrite (of_settings _ _ F), Hc.
  split_and!; [by etrans|done|done|len|]. right. simpl. by rewrite Ht.
Qed.

Lemma send_spec s w :
  conn_ok hwm w ->
  let w' := send recorded true s w in
  conn_ok hwm w' /\ out_frame w w' /\ sent w' = sent w ++ [s] /\ pending w' <= pending w + length s /\
  queue_change (pending w) (pending w') (new_callbacks w w').
Proof.
  intros Hok. unfold send, in_loop_or_queue. rewrite bool_decide_true by apply Hok. cbn zeta.
  pose proof (sendInLoop_ok recorded (fun k w _ => recorded_ok k w) recorded_quietly s w (co_stream _ _ Hok)) as Hs.
  cut (exists ks, trace (sendInLoop recorded s w) = trace w ++ map ECallback ks /\ out_frame w (sendInLoop recorded s w) /\
    sent (sendInLoop recorded s w) = sent w ++ [s] /\ pending (sendInLoop recorded s w) <= pending w + length s /\
    queue_change (pending w) (pending (sendInLoop recorded s w)) ks).
  { intros (ks & Ht & Hf & Hse & Hp & Hq). rewrite (new_callbacks_app _ _ _ Ht). split_and!; try done. by eapply conn_frame. }
  clear Hs. unfold sendInLoop. rewrite bool_decide_false by (rewrite (co_connected _ _ Hok); done).
  match goal with |- context [write_directly recorded s ?x] =>
    pose proof (write_directly_spec s x (co_complete _ _ Hok)) as Hd; destruct (write_directly recorded s x) as [rest w2] end.
  destruct Hd as (F & Hse & Ho & Hl & Ht).
  assert (Hp2 : pending w2 = pending w) by (unfold pending; by rewrite Ho).
  destruct (queue_output_spec rest w2) as (F2 & Hse2 & Hp & ks & Ht2 & Hq);
    [rewrite (of_settings _ _ F); apply Hok..|rewrite Ho; apply Hok|].
  rewrite Hp2 in Hp, Hq. assert (F3 : out_frame w (queue_output recorded rest w2)) by (etrans; [|exact F2]; by etrans; [|exact F]).
  destruct Ht as [Ht|(-> & Hp0 & Ht)].
  - exists ks. rewrite Ht2, Ht, Hse2, Hse. split_and!; try done. lia.
  - exists [CbWriteComplete]. change (pending w = 0) in Hp0. change (queue_output recorded [] w2) with w2 in *. rewrite Ht, Hse.
    split_and!; try done; [lia|]. apply change_empty. simpl in Hp. lia.
Qed.

Lemma handleWrite_spec w :
  conn_ok hwm w ->
  let w' := handleWrite recorded w in
  conn_ok hwm w' /\ out_frame w w' /\ sent w' = sent w /\ pending w' <= pending w /\
  queue_change (pending w) (pending w') (new_callbacks w w').
Proof.
  intros Hok. cbn zeta.
  pose proof (handleWrite_ok recorded (fun k w _ => recorded_ok k w) w (co_stream _ _ Hok)) as Hs.
  cut (exists ks, trace (handleWrite recorded w) = trace w ++ map ECallback ks /\ out_frame w (handleWrite recorded w) /\
    sent (handleWrite recorded w) = sent w /\ pending (handleWrite recorded w) <= pending w /\
    queue_change (pending w) (pending (handleWrite recorded w)) ks).
  { intros (ks & Ht & Hf & Hse & Hp & Hq). rewrite (new_callbacks_app _ _ _ Ht). split_and!; try done. by eapply conn_frame. }
  clear Hs.
  assert (Hquiet : forall w', out_frame w w' -> sent w' = sent w -> trace w' = trace w ->
    pending w' <= pending w -> (0 < pending w -> 0 < pending w') ->
    exists ks, trace w' = trace w ++ map ECallback ks /\ out_frame w w' /\ sent w' = sent w /\ pending w' <= pending w /\
      queue_change (pending w) (pending w') ks).
  { intros w' F Hse Ht Hp Hp'. exists []. simpl. rewrite app_nil_r. split_and!; try done. apply change_quiet; [|done].
    unfold crossed. lia. }
  unfold handleWrite. case_match; [by apply Hquiet|].
  pose proof (out_sys_write (Buffer.content (output_buffer_ w)) w) as F.
  pose proof (sys_write_ok (Buffer.content (output_buffer_ w)) w) as Hsw.
  destruct (sys_write _ w) as [[[|n]|e] w2]; cbn in F, Hsw; destruct Hsw as [Hn (Ho & _ & Hse & _ & _ & Ht & _)];
    [apply Hquiet; unfold pending; rewrite ?Ho; done| |apply Hquiet; unfold pending; rewrite ?Ho; done].
  destruct Hn as [Hn _]. pose proof (so_out _ (co_stream _ _ Hok)) as Hwf. rewrite Buffer.length_content in Hn by done.
  destruct (Buffer.retrieve_spec (S n) _ Hwf Hn) as [Hwf' Hc].
  assert (Hp : Buffer.readableBytes (Buffer.retrieve (S n) (output_buffer_ w)) <= pending w).
  { unfold pending. rewrite <-!Buffer.length_content, Hc by done. len. }
  cbn [output_buffer_ count_written]. simpl (output_buffer_ _). rewrite Ho. case_match eqn:E.
  2: { bool_prop. apply Hquiet; [by etrans|done|done|done|]. unfold pending; simpl. lia. }
  bool_prop. match goal with |- context [set_channel disableWrite ?x] => set (w3 := x) end.
  destruct (out_cancelWrite (set_channel disableWrite w3)) as (F4 & T4 & S4 & O4). set (w4 := cancelWriteTimer _) in *.
  assert (F5 : out_frame w w4) by (etrans; [exact F|]; etrans; [|exact F4]; etrans; [|apply out_disableWrite]; done).
  unfold notify. rewrite (of_settings _ _ F5), (co_complete _ _ Hok).
  rewrite bool_decide_false by (simpl; rewrite (of_state _ _ F5), (co_connected _ _ Hok); done).
  exists [CbWriteComplete]. simpl. rewrite T4, S4. unfold pending. simpl. rewrite O4. simpl.
  split_and!; try done; [by rewrite Ht|by etrans|by apply change_empty].
Qed.

(** ** Pausing and resuming the other side *)

(** One direction: a side that reads has room ahead of it, and a side that is
    paused waits for output that is registered to be written. *)
Record dir_ok (from to : World) : Prop := {
  do_reading : reading_ from = true -> (Z.of_nat (pending to) < hwm)%Z;
  do_paused : reading_ from = false -> 0 < pending to;
  do_bound : (Z.of_nat (pending to) < hwm + max_read)%Z;
}.

(** [w'] is [w] with reading on or off. *)
Record switched (b : bool) (w w' : World) : Prop := {
  sw_stream : same_stream w w';
  sw_input : input_buffer_ w' = input_buffer_ w;
  sw_settings : settings w' = settings w;
  sw_reading : reading_ w' = b;
  sw_interest : isReading (channel_ w') = b;
}.

Lemma stopRead_spec w : isReading (channel_ w) = reading_ w -> switched false w (stopRead true w).
Proof.
  intros E. destruct (stopReadInLoop_same w) as [Hs Hi]. split; [done|done|..]; simpl; unfold stopReadInLoop; rewrite E, andb_diag;
    destruct (reading_ w) eqn:Er; try done. apply reading_disableRead.
Qed.

Lemma startRead_spec w : isReading (channel_ w) = reading_ w -> state_ w = kConnected -> switched true w (startRead true w).
Proof.
  intros E Hc. destruct (startReadInLoop_same w) as [Hs Hi].
  split; [done|done|..]; simpl; unfold startReadInLoop, connected; rewrite bool_decide_true, andb_true_r by done;
    destruct (reading_ w) eqn:Er; try done. apply reading_enableRead.
Qed.

Lemma conn_switched b w w' : switched b w w' -> conn_ok hwm w -> conn_ok hwm w'.
Proof.
  intros [Hs Hi Hse Hr Hin] Hok. pose proof (same_ok _ _ (conj Hs Hi) (co_stream _ _ Hok)). destruct Hok.
  split; rewrite ?Hi, ?Hse, ?Hr, ?Hin; try done. by rewrite (proj1 (proj2 (proj2 (proj2 Hs)))).
Qed.

Lemma react_spec ks from to to' :
  (0 < hwm)%Z -> conn_ok hwm from -> dir_ok from to -> queue_change (pending to) (pending to') ks ->
  (Z.of_nat (pending to') < hwm + max_read)%Z ->
  let from' := react true ks from in
  conn_ok hwm from' /\ same_stream from from' /\ dir_ok from' to'.
Proof.
  intros Hpos Hok [Hr Hp _] Hq Hb. inversion Hq as [Hz|n [Hc1 Hc2]|Hc Hz]; subst; simpl.
  - assert (Hsw : switched true from (if reading_ from then from else startRead true from)).
    { pose proof (co_interest _ _ Hok) as Hi. destruct (reading_ from) eqn:E; [|by apply startRead_spec; [congruence|apply Hok]].
      by split. }
    split_and!; [by eapply conn_switched|apply Hsw|]. pose proof (sw_reading _ _ _ Hsw) as E. simpl in E.
    split; rewrite ?E; [lia|done|done].
  - pose proof (stopRead_spec from (co_interest _ _ Hok)) as Hsw. split_and!; [by eapply conn_switched|apply Hsw|].
    pose proof (sw_reading _ _ _ Hsw) as E. simpl in E. split; rewrite ?E; [done|lia|done].
  - split_and!; [done|apply same_stream_refl|]. split; [|intros Hf; apply Hz; auto|done].
    intros Hre. specialize (Hr Hre). unfold crossed in Hc. lia.
Qed.

Lemma dir_frame from to from' to' :
  reading_ from' = reading_ from -> pending to' = pending to -> dir_ok from to -> dir_ok from' to'.
Proof. intros Hr Hp []. split; rewrite ?Hr, ?Hp; done. Qed.

Lemma relay_write_ok from to :
  (0 < hwm)%Z -> conn_ok hwm from -> conn_ok hwm to -> dir_ok from to -> dir_ok to from ->
  let '(from', to') := relay_write true from to in
  (conn_ok hwm from' /\ conn_ok hwm to') /\ (dir_ok from' to' /\ dir_ok to' from') /\
  sent from' = sent from /\ sent to' = sent to.
Proof.
  intros Hpos Hf Ht Hd Hd'. unfold relay_write. destruct (handleWrite_spec to Ht) as (Ht' & Fr & Hs & Hp & Hq).
  destruct (react_spec _ from to (handleWrite recorded to) Hpos Hf Hd Hq) as (Hf' & Hss & Hd2); [destruct Hd; lia|].
  destruct (same_stream_pending _ _ Hss) as [Hp' Hs']. split_and!; try done. eapply dir_frame; [apply Fr|done|done].
Qed.

(** The reading connection when its message callback has taken the input. *)
Definition read_by (buf : Buffer.Buffer) (n : nat) (w : World) : World :=
  let w := resetIdleTimer (w <| input_buffer_ := buf |> <| bytes_read_ := wrap64 (bytes_read_ w + Z.of_nat n) |>) in
  log (ECallback CbMessage) w <| input_buffer_ := Buffer.retrieveAll buf |>.

Lemma read_by_spec buf n w :
  conn_ok hwm w -> Buffer.buffer_wf buf -> drained (Buffer.retrieveAll buf) ->
  conn_ok hwm (read_by buf n w) /\ reading_ (read_by buf n w) = reading_ w /\
  pending (read_by buf n w) = pending w /\ sent (read_by buf n w) = sent w.
Proof.
  intros Hok Hwf Hd. unfold read_by.
  set (w1 := w <| input_buffer_ := buf |> <| bytes_read_ := _ |>). destruct (resetIdle_same w1) as [Hs Hi].
  assert (Hst : stream_ok w1) by (pose proof (input_ok _ _ (co_stream _ _ Hok) Hwf) as []; by split).
  apply (same_ok _ _ (conj Hs Hi)) in Hst. pose proof (out_resetIdle w1) as [F1 F2 F3 F4 _].
  destruct (same_stream_pending _ _ Hs) as [Hp Hse]. set (w2 := resetIdleTimer w1) in *.
  split_and!; [|done|done|done]. destruct Hok as [_ Hco Hin Hhw Hhi Hcm Hms _].
  split; [|simpl; rewrite ?F1, ?F2, ?F3, ?F4; done..|exact Hd].
  apply recorded_ok, input_ok; [done|by apply drained_wf].
Qed.

Lemma relay_read_ok s from to :
  (0 < hwm)%Z -> conn_ok hwm from -> conn_ok hwm to -> dir_ok from to -> dir_ok to from ->
  isReading (channel_ from) = true -> 0 < length s <= Buffer.readFd_capacity (input_buffer_ from) ->
  let '(from', to') := relay_read true (fun _ => Buffer.ReadvOk s) from to in
  (conn_ok hwm from' /\ conn_ok hwm to') /\ (dir_ok from' to' /\ dir_ok to' from') /\
  sent from' = sent from /\ sent to' = sent to ++ [s].
Proof.
  intros Hpos Hf Ht Hd Hd' Hre [Hs Hcap]. destruct (readFd_drained s _ (co_input _ _ Hf) Hcap) as [Hmax Hread].
  unfold relay_read, handleRead. destruct (Buffer.readFd _ (input_buffer_ from)) as [n buf].
  destruct Hread as (-> & Hwf & Hc & Hdr). destruct (length s) as [|k] eqn:Ek; [lia|].
  rewrite (co_message _ _ Hf). destruct (send_spec s to Ht) as (Ht' & Fr & Hse & Hp & Hq).
  destruct (read_by_spec buf (S k) from Hf Hwf Hdr) as (Hf1 & Hr1 & Hp1 & Hs1).
  assert (Hd1 : dir_ok (read_by buf (S k) from) to) by (eapply dir_frame; [exact Hr1|done|done]).
  destruct (react_spec _ _ to (send recorded true s to) Hpos Hf1 Hd1 Hq) as (Hf' & Hss & Hd2).
  { rewrite (co_interest _ _ Hf) in Hre. pose proof (do_reading _ _ Hd Hre). lia. }
  destruct (same_stream_pending _ _ Hss) as [Hp2 Hs2].
  set (ks := new_callbacks to (send recorded true s to)) in *.
  assert (Hto : default to (on_message true (Some to) (from <| input_buffer_ := buf |>)).2 = send recorded true s to).
  { unfold on_message. simpl (input_buffer_ _). by rewrite retrieveAll_drained, Hc. }
  rewrite Hto.
  match goal with |- context [notify ?cb has_message CbMessage ?w] =>
    assert (Hfrom : notify cb has_message CbMessage w = react true ks (read_by buf (S k) from)) end.
  { unfold notify. rewrite (of_settings _ _ (out_resetIdle _)). simpl (has_message _). rewrite (co_message _ _ Hf).
    unfold from_callback, on_message. simpl (input_buffer_ (log _ _)). rewrite (of_input _ _ (out_resetIdle _)).
    cbn [input_buffer_]. rewrite (retrieveAll_drained buf Hwf), Hc. reflexivity. }
  rewrite Hfrom. unfold enforce_input_cap. rewrite (proj2 (andb_false_iff _ _)).
  - split_and!; try done; [|congruence]. eapply dir_frame; [apply Fr|by rewrite Hp2|done].
  - destruct (co_input _ _ Hf') as [Hri Hwi _]. unfold Buffer.readableBytes. rewrite Hri, Hwi.
    destruct (Z.ltb_spec 0 (max_input_buffer_size_ (settings (react true ks (read_by buf (S k) from))))); [right|by left].
    apply Z.ltb_ge. lia.
Qed.

(** When the kernel takes all of the output, the queue is empty afterwards. *)
Lemma handleWrite_drains n rest w :
  conn_ok hwm w -> writes w = WriteOk n :: rest -> pending w <= n -> pending (handleWrite recorded w) = 0.
Proof.
  intros Hok Hw Hn. pose proof (co_stream _ _ Hok) as Hs. pose proof (so_out _ Hs) as Hwf.
  pose proof (so_writing _ Hs ltac:(rewrite (co_connected _ _ Hok); done)) as Hi. unfold handleWrite. rewrite Hi, negb_involutive.
  fold (pending w). destruct (Nat.eqb_spec (pending w) 0) as [|E]; [done|].
  unfold sys_write. rewrite Hw, Buffer.length_content by done. fold (pending w). rewrite Nat.min_r by done.
  destruct (pending w) as [|k] eqn:Ek; [done|]. simpl (output_buffer_ _).
  destruct (Buffer.retrieve_spec (S k) _ Hwf) as [Hwf' Hc]; [by rewrite <-Ek|].
  assert (Hz : Buffer.readableBytes (Buffer.retrieve (S k) (output_buffer_ w)) = 0).
  { rewrite <-Buffer.length_content, Hc by done. rewrite length_drop, Buffer.length_content by done. unfold pending in Ek. lia. }
  rewrite Hz. simpl (0 =? 0). match goal with |- context [set_channel disableWrite ?x] => set (w3 := x) end.
  destruct (out_cancelWrite (set_channel disableWrite w3)) as (F4 & T4 & S4 & O4). set (w4 := cancelWriteTimer _) in *.
  assert (Hp4 : pending w4 = 0) by (unfold pending; rewrite O4; exact Hz).
  unfold notify, shutdownInLoop. repeat case_match; exact Hp4.
Qed.

(** ** The invariant of the relay *)
Record relay_inv (r : Relay) : Prop := {
  ri_down : conn_ok hwm (down r);
  ri_up : conn_ok hwm (up r);
  ri_forth : dir_ok (down r) (up r);
  ri_back : dir_ok (up r) (down r);
  ri_from_down : concat (sent (up r)) = from_down r;
  ri_from_up : concat (sent (down r)) = from_up r;
}.

Lemma set_writes_ok rs w : conn_ok hwm w -> conn_ok hwm (set_writes rs w).
Proof. intros Hok. apply (conn_frame _ w); [done|destruct (co_stream _ _ Hok); by split|done]. Qed.

Lemma relay_step_inv r r' : (0 < hwm)%Z -> relay_step r r' -> relay_inv r -> relay_inv r'.
Proof.
  intros Hpos Hstep [Hd Hu Hf Hb Hs1 Hs2]. destruct Hstep as [s r Hre Hlen|s r Hre Hlen|r|r|wd wu r].
  - pose proof (relay_read_ok s _ _ Hpos Hd Hu Hf Hb Hre Hlen) as H. destruct (relay_read _ _ _ _) as [d u].
    destruct H as ((? & ?) & (? & ?) & E1 & E2). split; simpl; rewrite ?E1, ?E2; try done.
    rewrite concat_app, Hs1. simpl. by rewrite app_nil_r.
  - pose proof (relay_read_ok s _ _ Hpos Hu Hd Hb Hf Hre Hlen) as H. destruct (relay_read _ _ _ _) as [u d].
    destruct H as ((? & ?) & (? & ?) & E1 & E2). split; simpl; rewrite ?E1, ?E2; try done.
    rewrite concat_app, Hs2. simpl. by rewrite app_nil_r.
  - pose proof (relay_write_ok _ _ Hpos Hu Hd Hb Hf) as H. destruct (relay_write _ _ _) as [u d].
    destruct H as ((? & ?) & (? & ?) & E1 & E2). split; simpl; rewrite ?E1, ?E2; done.
  - pose proof (relay_write_ok _ _ Hpos Hd Hu Hf Hb) as H. destruct (relay_write _ _ _) as [d u].
    destruct H as ((? & ?) & (? & ?) & E1 & E2). split; simpl; rewrite ?E1, ?E2; done.
  - split; simpl; try done; [by apply set_writes_ok..|by apply (dir_frame (down r) (up r))|by apply (dir_frame (up r) (down r))].
Qed.

(** ** Linking *)
Record ready (w : World) : Prop := {
  rd_stream : stream_ok w;
  rd_connected : state_ w = kConnected;
  rd_interest : isReading (channel_ w) = reading_ w;
  rd_input : input_buffer_ w = Buffer.Buffer_new Buffer.kInitialSize;
  rd_pending : pending w = 0;
  rd_sent : sent w = [];
}.

Lemma ready_frame w w' : out_frame w w' -> same_stream w w' -> ready w -> ready w'.
Proof.
  intros [F1 F2 F3 F4 F5] Hs [Hst Hc Hi Hin Hp Hse]. destruct (same_stream_pending _ _ Hs) as [Hp' Hs'].
  split; rewrite ?F1, ?F3, ?F4, ?F5, ?Hp', ?Hs'; try done. eapply same_ok; [by split|done].
Qed.

Lemma ready_switched b w w' : switched b w w' -> ready w -> ready w'.
Proof.
  intros [Hs Hi Hse Hr Hin] []. pose proof (same_ok _ _ (conj Hs Hi) rd_stream0).
  destruct (same_stream_pending _ _ Hs) as [Hp' Hs'].
  split; rewrite ?Hi, ?Hr, ?Hin, ?Hp', ?Hs'; try done. by rewrite (proj1 (proj2 (proj2 (proj2 Hs)))).
Qed.
Lemma ready_settings w s : ready w -> ready (w <| settings := s |>).
Proof. intros [Hs ? ? ? ? ?]. split; try done. by destruct Hs; split. Qed.

Lemma new_drained : drained (Buffer.Buffer_new Buffer.kInitialSize).
Proof.
  split; [done|done|]. rewrite max_read_val. vm_compute. done.
Qed.

(** The settings [pipe] leaves on both sides. *)
Definition piped (s : Settings) : Prop :=
  high_water_mark_ s = hwm /\ has_high_water s = true /\ has_write_complete s = true /\ has_message s = true.

Lemma ready_conn w : ready w -> piped (settings w) -> conn_ok hwm w.
Proof. intros [] (? & ? & ? & ?). split; try done. rewrite rd_input0. apply new_drained. Qed.

Lemma established_spec cb fd s p ws (P : World -> Prop) :
  (forall w w', out_frame w w' -> same_stream w w' -> P w -> P w') ->
  (forall w, ready w -> reading_ w = true -> settings w = s -> P (notify cb has_connection (CbConnection true) w)) ->
  P (connectEstablished cb (TcpConnection_new fd s p ws [])).
Proof.
  intros Hframe Hcb. unfold connectEstablished.
  match goal with |- context [notify cb has_connection _ ?x] => set (w1 := x) end.
  assert (Hr : ready w1).
  { split; try done. split; try done; apply Buffer.new_wf. }
  apply (Hframe (resetIdleTimer (notify cb has_connection (CbConnection (connected w1)) w1))).
  { unfold armMaxAgeTimer. by case_match. }
  { apply armMaxAge_same. }
  eapply Hframe; [apply out_resetIdle|apply resetIdle_same|]. by apply Hcb.
Qed.

Lemma relay_start_inv fdd sd pd wd fdu su pu wu :
  (0 < hwm)%Z -> has_connection su = true ->
  relay_inv (relay_start hwm true (TcpConnection_new fdd sd pd wd []) (TcpConnection_new fdu su pu wu [])).
Proof.
  intros Hpos Hc. unfold relay_start.
  set (d := connectEstablished down_callback (TcpConnection_new fdd sd pd wd [])).
  assert (Hd : ready d).
  { apply established_spec; [intros; by eapply ready_frame|]. intros w Hw Hre Hs. unfold notify. case_match; [|done].
    assert (Hl : ready (log (ECallback (CbConnection true)) w)).
    { destruct Hw as [Hst ? ? ? ? ?]. split; try done. by apply recorded_ok. }
    unfold down_callback. case_match; [|done]. eapply ready_switched; [apply stopRead_spec; apply Hl|done]. }
  clearbody d. cbn zeta.
  set (u := connectEstablished _ _).
  assert (Hu : ready u /\ reading_ u = true /\ piped (settings u)).
  { refine (established_spec _ fdu su pu wu (fun u => ready u /\ reading_ u = true /\ piped (settings u)) _ _).
    - intros w w' F Hs (Hr & Hre & Hp). rewrite (of_settings _ _ F), (of_reading _ _ F). by split; [eapply ready_frame|].
    - intros w Hw Hre Hs. unfold notify. rewrite Hs, Hc. unfold upstream_callback, connected, log. simpl (state_ _).
      rewrite bool_decide_true by apply Hw. cbn [pipe snd]. split; [|done]. apply ready_settings, ready_settings.
      destruct Hw as [Hst ? ? ? ? ?]. split; try done. by apply recorded_ok. }
  destruct Hu as (Hu & Hre & Hp).
  unfold upstream_callback, connected. simpl (state_ _). rewrite bool_decide_true by done. cbn [pipe fst default].
  set (d1 := d <| settings := _ |> <| settings := _ |>).
  assert (Hd1 : ready d1) by (by apply ready_settings, ready_settings).
  pose proof (startRead_spec d1 (rd_interest _ Hd1) (rd_connected _ Hd1)) as Hsw.
  pose proof (ready_switched _ _ _ Hsw Hd1) as Hd2. set (d2 := startRead true d1) in *.
  assert (Hp2 : piped (settings d2)) by (unfold piped; by rewrite (sw_settings _ _ _ Hsw)).
  split; simpl; [by apply ready_conn|by apply ready_conn| | |by rewrite (rd_sent _ Hu)|by rewrite (rd_sent _ Hd2)].
  - split; rewrite ?(rd_pending _ Hu), ?(sw_reading _ _ _ Hsw); [lia|done|]. rewrite max_read_val. lia.
  - split; rewrite ?(rd_pending _ Hd2), ?Hre; [lia|done|]. rewrite max_read_val. lia.
Qed.

(** What one direction promises. *)
Definition flows (from to : World) : Prop :=
  (reading_ from = true -> (Z.of_nat (outputBufferPending to) < hwm)%Z) /\
  (Z.of_nat (outputBufferPending to) < hwm + 131072)%Z /\
  (reading_ from = false -> 0 < outputBufferPending to /\ isWriting (channel_ to) = true) /\
  (forall n rest, writes to = WriteOk n :: rest -> outputBufferPending to <= n ->
     let '(from', to') := relay_write true from to in reading_ from' = true /\ outputBufferPending to' = 0).

Lemma dir_flows from to :
  (0 < hwm)%Z -> conn_ok hwm from -> conn_ok hwm to -> dir_ok from to -> dir_ok to from -> flows from to.
Proof.
  intros Hpos Hf Ht Hd Hd'. destruct (Hd) as [Hr Hp Hb]. rewrite max_read_val in Hb. unfold flows.
  change outputBufferPending with pending. split_and!; [done|done| |].
  - intros Hre. specialize (Hp Hre). split; [done|]. rewrite (so_writing _ (co_stream _ _ Ht)); [|by rewrite (co_connected _ _ Ht)].
    fold (pending to). destruct (Nat.eqb_spec (pending to) 0); [lia|done].
  - intros n rest Hw Hn. pose proof (relay_write_ok from to Hpos Hf Ht Hd Hd') as H. unfold relay_write in *.
    pose proof (handleWrite_drains n rest to Ht Hw Hn) as Hz. destruct H as (_ & (Hd2 & _) & _). split; [|done].
    destruct (reading_ (react _ _ _)) eqn:E; [done|]. pose proof (do_paused _ _ Hd2 E). lia.
Qed.
End one.

(** C13: a relay between a client and its upstream, linked with backpressure at
    high-water mark [hwm], keeps these for both directions, whatever the two
    sockets deliver and accept: a side is read only while the other side's
    output is below the mark, and the output never exceeds the mark by more than
    one read; a side that is paused waits for queued output whose socket is
    watched for writability, and when the kernel takes that output reading
    resumes, so a pause never becomes a deadlock ([flows]).  What is written to a
    side, with what is queued for it, is exactly what was read from the other. *)
Theorem relay_backpressure hwm fdd sd pd wd fdu su pu wu r :
  (0 < hwm)%Z -> has_connection su = true ->
  rtc relay_step (relay_start hwm true (TcpConnection_new fdd sd pd wd []) (TcpConnection_new fdu su pu wu [])) r ->
  flows hwm (down r) (up r) /\ flows hwm (up r) (down r) /\
  wire (up r) ++ Buffer.content (output_buffer_ (up r)) = from_down r /\
  wire (down r) ++ Buffer.content (output_buffer_ (down r)) = from_up r.
Proof.
  intros Hpos Hc Hr.
  assert (Hinv : relay_inv hwm r).
  { pose proof (relay_start_inv hwm fdd sd pd wd fdu su pu wu Hpos Hc) as H0. revert H0.
    induction Hr; eauto using relay_step_inv. }
  destruct Hinv as [Hd Hu Hf Hb H1 H2]. rewrite (so_wire _ (co_stream _ _ Hd)), (so_wire _ (co_stream _ _ Hu)).
  split_and!; [by apply dir_flows..|done|done].
Qed.

(** An upstream that takes two of five bytes pauses the client at mark 3, and
    reading resumes when it takes the rest. *)
Definition relay_example : Relay :=
  relay_start 3 true (TcpConnection_new 7 (demo_settings 100) EPollPoller.poller_new [] [])
    (TcpConnection_new 8 (demo_settings 100) EPollPoller.poller_new [WriteOk 2; WriteOk 9] []).

Lemma relay_backpressure_witness :
  let '(d, u) := relay_read true (fun _ => Buffer.ReadvOk (bs "hello")) (down relay_example) (up relay_example) in
  let r := mkRelay d u (bs "hello") [] in
  (reading_ d = false /\ outputBufferPending u = 3 /\ reading_ (relay_write true d u).1 = true) /\
  flows 3 (down r) (up r) /\ flows 3 (up r) (down r) /\
  wire (up r) ++ Buffer.content (output_buffer_ (up r)) = from_down r /\
  wire (down r) ++ Buffer.content (output_buffer_ (down r)) = from_up r.
Proof.
  split; [split_and!; vm_compute; reflexivity|].
  apply (relay_backpressure 3 7 (demo_settings 100) EPollPoller.poller_new [] 8 (demo_settings 100)
    EPollPoller.poller_new [WriteOk 2; WriteOk 9]); [lia|reflexivity|].
  eapply rtc_l; [|exact (rtc_refl _ _)]. apply (down_readable (bs "hello") relay_example); [reflexivity|].
  split; [vm_compute; lia|]. apply Nat.leb_le. vm_compute. reflexivity.
Defined.
End Proxy.
