(* ===== verification/HttpConnection.v ===== *)
(** * An HTTP connection end to end (http/http_server.cc on net/tcp_connection.cc)

    The plaintext path of the server on a TCP connection: the message callback
    runs [processInput] on the connection's input buffer, the responses go
    through [TcpConnection::send] and the close through [TcpConnection::shutdown].
    The component theorems meet here: how TCP cuts the input, how much each write
    takes and when timers fire do not change the bytes the client receives. *)

From stdpp Require Import gmap.
From S2P Require Import Prelude StdMap CStr Buffer HttpMessage HttpContext HttpParse HttpServer EventLoop TcpConnection TcpFrames.
Import Channel TcpConnection TcpFrames.

Module HttpConnection.
#[local] Opaque HttpServer.process.
Notation Sent := HttpServer.Sent.
Notation Closed := HttpServer.Closed.

(** [send] and [close] of [onPlainMessage], in the order [processInput] calls
    them; the handler and the observers do not touch the connection. *)
Definition perform1 (w : World) (e : HttpServer.event) : World :=
  match e with
  | Sent data => send recorded true data w
  | Closed => shutdown true w
  | _ => w
  end.
Definition perform (evs : list HttpServer.event) (w : World) : World := fold_left perform1 evs w.

Section connection.
Context {S : Type}.
Variable handler_ : option (S -> HttpRequest.HttpRequest -> HttpResponse.HttpResponse -> S * HttpResponse.HttpResponse).

(** A connection with its parser ([None] once [onConnection] erased it), the
    application's state and, as a ghost, the fragments read so far. *)
Record Session := mkSession {
  world : World;
  app : S;
  pc : option HttpContext.HttpContext;
  frags : list bytes;
}.

(** [processInput] on the connection's buffer. *)
Definition process_on (app : S) (pc : option HttpContext.HttpContext) (buf : Buffer.Buffer)
    : HttpServer.loop_state :=
  match pc with
  | Some c => HttpServer.process handler_ app c buf
  | None => HttpServer.mkLoop app HttpContext.HttpContext_new buf []
  end.

(** The callbacks of the connection: [onPlainMessage], and [onConnection] whose
    effect is on the table of connections. *)
Definition http_callback (app : S) (pc : option HttpContext.HttpContext) (k : cb_kind) (w : World) : World :=
  let w := log (ECallback k) w in
  match k with
  | CbMessage =>
    let st := process_on app pc (input_buffer_ w) in
    perform (HttpServer.l_trace st) (w <| input_buffer_ := HttpServer.l_in st |>)
  | _ => w
  end.

(** [onConnection] of a closed connection forgets the parser. *)
Definition forget (x : Session) : Session :=
  if bool_decide (state_ (world x) = kDisconnected) then mkSession (world x) (app x) None (frags x) else x.

Definition session_start (max_body : Z) (app0 : S) (w : World) : Session :=
  mkSession (connectEstablished (http_callback app0 None) w) app0
    (Some (HttpContext.setMaxBodyBytes max_body HttpContext.HttpContext_new)) [].

(** The socket is readable: [s] arrived ([\[\]] at the end of the stream), or the
    read failed. *)
Definition on_readable (r : Buffer.readv_result) (x : Session) : Session :=
  let w := handleRead (http_callback (app x) (pc x)) (fun _ => r) (world x) in
  forget (match r with
          | Buffer.ReadvOk ((_ :: _) as s) =>
            let st := process_on (app x) (pc x) (Buffer.readFd (fun _ => r) (input_buffer_ (world x))).2 in
            mkSession w (HttpServer.l_app st) ((fun _ => HttpServer.l_ctx st) <$> pc x) (frags x ++ [s])
          | _ => mkSession w (app x) (pc x) (frags x)
          end).
Definition on_writable (x : Session) : Session :=
  forget (mkSession (handleWrite (http_callback (app x) (pc x)) (world x)) (app x) (pc x) (frags x)).
Definition on_timer_expired (id : nat) (x : Session) : Session :=
  forget (mkSession (fire (http_callback (app x) (pc x)) id (world x)) (app x) (pc x) (frags x)).

Inductive http_step : Session -> Session -> Prop :=
| http_readable r x : state_ (world x) <> kDisconnected -> http_step x (on_readable r x)
| http_writable x : http_step x (on_writable x)
| http_timer id x : http_step x (on_timer_expired id x)
| http_kernel rs x : http_step x (mkSession (set_writes rs (world x)) (app x) (pc x) (frags x)).

(** ** What reaches the client, fragment by fragment *)

(** The data sent until the connection is closed. *)
Fixpoint sends (evs : list HttpServer.event) : list bytes :=
  match evs with
  | [] => []
  | Sent d :: evs => d :: sends evs
  | Closed :: _ => []
  | _ :: evs => sends evs
  end.

Lemma sends_app a b : sends (a ++ b) = if HttpServer.closed a then sends a else sends a ++ sends b.
Proof.
  induction a as [|[] a IH]; simpl; [done|done|done| |done]. rewrite IH. by destruct (HttpServer.closed a).
Qed.

(** Processing stops at the fragment that closes the connection. *)
Fixpoint deliver_open (app : S) (c : HttpContext.HttpContext) (buf : bytes) (fs : list bytes)
    : @HttpServer.loop_state S bytes :=
  match fs with
  | [] => HttpServer.mkLoop app c buf []
  | f :: fs =>
    let st := HttpServer.process handler_ app c (buf ++ f) in
    if HttpServer.closed (HttpServer.l_trace st) then st
    else HttpServer.prepend (HttpServer.l_trace st)
           (deliver_open (HttpServer.l_app st) (HttpServer.l_ctx st) (HttpServer.l_in st) fs)
  end.

Lemma deliver_open_snoc fs f : forall app c buf,
  let d := deliver_open app c buf fs in
  deliver_open app c buf (fs ++ [f]) =
  if HttpServer.closed (HttpServer.l_trace d) then d
  else HttpServer.prepend (HttpServer.l_trace d)
         (HttpServer.process handler_ (HttpServer.l_app d) (HttpServer.l_ctx d) (HttpServer.l_in d ++ f)).
Proof.
  induction fs as [|f1 fs IH]; intros app0 c buf; cbn zeta.
  - simpl. set (st := HttpServer.process _ _ _ _). rewrite HttpServer.prepend_nil.
    destruct (HttpServer.closed (HttpServer.l_trace st)); [done|]. unfold HttpServer.prepend; simpl. rewrite app_nil_r. by destruct st.
  - cbn [deliver_open List.app]. set (st := HttpServer.process _ _ _ _).
    destruct (HttpServer.closed (HttpServer.l_trace st)) eqn:E; [by rewrite E|].
    rewrite IH. set (d := deliver_open _ _ _ fs). simpl. rewrite HttpServer.closed_app, E. simpl.
    destruct (HttpServer.closed (HttpServer.l_trace d)); [done|]. by rewrite HttpServer.prepend_app.
Qed.

(** However the stream is cut, the events are those of the whole stream. *)
Lemma deliver_open_whole fs : forall app c buf f,
  ctx_wf (zlen (concat (f :: fs))) c buf ->
  HttpServer.l_trace (deliver_open app c buf (f :: fs)) =
  HttpServer.l_trace (HttpServer.process handler_ app c (buf ++ concat (f :: fs))).
Proof.
  induction fs as [|f2 fs IH]; intros app0 c buf f Hwf.
  - cbn [deliver_open concat]. rewrite app_nil_r. set (st := HttpServer.process _ _ _ _).
    destruct (HttpServer.closed (HttpServer.l_trace st)); [done|]. simpl. by rewrite app_nil_r.
  - change (concat (f :: f2 :: fs)) with (f ++ concat (f2 :: fs)) in *. rewrite zlen_app in Hwf. rewrite app_assoc.
    pose proof (zlen_nonneg (concat (f2 :: fs))) as Hnn.
    assert (Hwf1 : ctx_wf (zlen (concat (f2 :: fs))) c (buf ++ f)) by (by apply ctx_wf_app).
    pose proof (HttpServer.process_app handler_ _ app0 c (buf ++ f) (concat (f2 :: fs)) (Nat.lt_succ_diag_r _) Hwf1) as Hpa.
    cbn zeta in Hpa. pose proof (HttpServer.process_ctx_wf handler_ _ _ app0 c _ (Nat.lt_succ_diag_r _) Hwf1) as Hwf2.
    cbn [deliver_open]. fold (deliver_open). set (st := HttpServer.process handler_ app0 c (buf ++ f)) in *.
    destruct (HttpServer.closed (HttpServer.l_trace st)); [done|]. destruct Hpa as (_ & -> & _).
    change (HttpServer.l_trace (HttpServer.prepend ?t ?d)) with (t ++ HttpServer.l_trace d). f_equal.
    exact (IH _ _ _ f2 Hwf2).
Qed.

(** ** The connection under the server's calls *)

Lemma perform_closing evs w : state_ w <> kConnected -> perform evs w = w.
Proof.
  intros Hc. induction evs as [|e evs IH]; [done|]. simpl. assert (perform1 w e = w) as ->; [|done].
  destruct e; simpl; [done|done| |]; unfold send, shutdown; by rewrite bool_decide_false.
Qed.

Lemma perform_spec evs : forall w,
  state_ w = kConnected -> stream_ok w -> halfcloses w = [] ->
  let w' := perform evs w in
  stream_ok w' /\ shut_ok w' /\ state_ w' = (if HttpServer.closed evs then kDisconnecting else kConnected) /\
  sent w' = sent w ++ sends evs /\ settings w' = settings w /\ input_buffer_ w' = input_buffer_ w /\ told w' = told w.
Proof.
  induction evs as [|e evs IH]; intros w Hc Hok Hh; cbn zeta.
  - simpl. rewrite app_nil_r. split_and!; try done. split; rewrite ?Hh, ?Hc; [done|constructor|done].
  - cbn [perform fold_left]. fold (perform evs (perform1 w e)). destruct e; cbn [perform1 sends HttpServer.closed existsb].
    + by apply IH.
    + by apply IH.
    + destruct (send_connected data w Hc Hok) as (Hok' & F & Hs & Hh' & Ht). set (w1 := send recorded true data w) in *.
      destruct (IH w1) as (H1 & H2 & H3 & H4 & H5 & H6 & H7); [by rewrite (of_state _ _ F)|done|congruence|].
      rewrite H4, H5, H6, H7, Hs, Ht, <-app_assoc. split_and!; try done; apply F.
    + destruct (shutdown_connected w Hc Hok Hh) as (H1 & H2 & H3 & H4 & H5 & H6 & H7).
      rewrite perform_closing by (rewrite H3; done). rewrite app_nil_r. by split_and!.
Qed.

(** ** The callbacks keep the output stream *)
Lemma perform_ok evs : forall w, stream_ok w -> stream_ok (perform evs w).
Proof.
  induction evs as [|e evs IH]; intros w Hok; [done|]. cbn. apply IH. destruct e; simpl; [done|done| |by apply shutdown_ok].
  exact (do_op_ok recorded (fun k w _ => recorded_ok k w) recorded_quietly (Send data) w Hok).
Qed.

Lemma process_on_wf a c buf : Buffer.buffer_wf buf -> Buffer.buffer_wf (HttpServer.l_in (process_on a c buf)).
Proof. intros Hwf. destruct c as [c|]; [|done]. exact (HttpServer.process_wf handler_ a c buf Hwf). Qed.

Lemma http_callback_ok a c k w : (forall n, k <> CbHighWater n) -> stream_ok w -> stream_ok (http_callback a c k w).
Proof.
  intros _ Hok. apply (recorded_ok k) in Hok. destruct k; try done. apply perform_ok, input_ok; [done|].
  apply process_on_wf, Hok.
Qed.

Lemma http_message_only a c : message_only (http_callback a c).
Proof. intros k w Hk. by destruct k. Qed.

(** ** The invariant of a connection *)
Section invariant.
Variables (app0 : S) (c0 : HttpContext.HttpContext) (has_cb : bool).

Definition delivered (x : Session) : HttpServer.loop_state := deliver_open app0 c0 [] (frags x).

Record session_ok (x : Session) : Prop := {
  se_stream : stream_ok (world x);
  se_shut : shut_ok (world x);
  se_state : state_ (world x) <> kConnecting;
  se_message : state_ (world x) <> kDisconnected -> has_message (settings (world x)) = true;
  se_sent : sent (world x) = sends (HttpServer.l_trace (delivered x));
  se_open : state_ (world x) = kConnected ->
    HttpServer.closed (HttpServer.l_trace (delivered x)) = false /\
    pc x = Some (HttpServer.l_ctx (delivered x)) /\ app x = HttpServer.l_app (delivered x) /\
    Buffer.content (input_buffer_ (world x)) = HttpServer.l_in (delivered x);
  se_told : told (world x) = if has_cb then told_in (state_ (world x)) else [];
  se_callback : state_ (world x) <> kDisconnected -> has_connection (settings (world x)) = has_cb;
  se_closing : state_ (world x) = kDisconnecting -> HttpServer.closed (HttpServer.l_trace (delivered x)) = true;
}.

Lemma forget_ok x : session_ok x -> session_ok (forget x).
Proof.
  intros Hok. unfold forget. case_match; bool_prop; [|done]. destruct Hok. split; try done. simpl. congruence.
Qed.

Lemma session_over x w a c :
  session_ok x -> state_ (world x) <> kDisconnected -> stream_ok w -> over (world x) w ->
  session_ok (mkSession w a c (frags x)).
Proof.
  intros [? [_ Hwr _] Hnc ? Hse ? Ht Hcb ?] Hnd Hok [Hst Hs Hh Hto]. split; simpl; rewrite ?Hst; try done.
  - split; rewrite ?Hst, ?Hh, ?Hs; done.
  - by rewrite Hs.
  - rewrite Hto, Ht, Hcb by done. destruct has_cb; [|done]. by destruct (state_ (world x)).
Qed.

(** A read of [s], when the message callback has run. *)
Definition read_in (x : Session) (s : bytes) : Buffer.Buffer :=
  (Buffer.readFd (fun _ => Buffer.ReadvOk s) (input_buffer_ (world x))).2.
Definition after_message (x : Session) (s : bytes) : World :=
  http_callback (app x) (pc x) CbMessage (filled s (world x)).

(** The callback performs the events of [processInput] on the rest. *)
Lemma after_message_perform x s :
  stream_ok (world x) ->
  let st := process_on (app x) (pc x) (read_in x s) in
  exists w, after_message x s = perform (HttpServer.l_trace st) w /\ stream_ok w /\
    halfcloses w = halfcloses (world x) /\ sent w = sent (world x) /\ state_ w = state_ (world x) /\
    settings w = settings (world x) /\ pending w = pending (world x) /\ input_buffer_ w = HttpServer.l_in st /\
    told w = told (world x).
Proof.
  intros Hok st. destruct (message_entered s _ Hok) as [Hok2 Hst2 Hset2 Hs2 Hh2 Ht2 Hp2 Hi2 _]. unfold after_message, http_callback.
  change (log (ECallback CbMessage) (filled s (world x))) with (recorded CbMessage (filled s (world x))).
  rewrite Hi2. fold (read_in x s). fold st. eexists. split; [reflexivity|].
  split_and!; [|exact Hh2|exact Hs2|exact Hst2|exact Hset2|exact Hp2|done|exact Ht2].
  apply input_ok; [done|]. apply process_on_wf. unfold read_in. rewrite <-Hi2. apply Hok2.
Qed.

Lemma after_message_ok x s :
  session_ok x -> state_ (world x) <> kDisconnected ->
  let st := process_on (app x) (pc x) (read_in x s) in
  session_ok (mkSession (after_message x s) (HttpServer.l_app st) ((fun _ => HttpServer.l_ctx st) <$> pc x) (frags x ++ [s])).
Proof.
  intros [Hok Hsh Hcon Hmsg Hse Hop Hto Hcb Hcl] Hnd. cbn zeta.
  destruct (after_message_perform x s Hok) as (w3 & -> & Hok3 & Hh3 & Hs3 & Hst3 & Hset3 & Hp3 & Hi3 & Hto3).
  destruct (Buffer.readFd_spec (fun _ => Buffer.ReadvOk s) _ (so_in _ Hok)) as [Hwf [_ Hc]].
  fold (read_in x s) in Hwf, Hc. set (buf := read_in x s) in *. clearbody buf. set (st := process_on _ _ _) in *.
  unfold delivered in *. destruct (state_ (world x)) eqn:Est; [done| | |done].
  - destruct (Hop eq_refl) as (Hncl & Hpc & Happ & Hin).
    destruct (perform_spec (HttpServer.l_trace st) w3) as (H1 & H2 & H4 & H5 & H6 & H7 & H8);
      [done|done|by rewrite Hh3; apply Hsh|].
    pose proof (HttpServer.process_bytes handler_ (app x) (HttpServer.l_ctx (deliver_open app0 c0 [] (frags x))) buf Hwf) as Hb.
    assert (Hst : st = HttpServer.process handler_ (app x) (HttpServer.l_ctx (deliver_open app0 c0 [] (frags x))) buf)
      by (unfold st; by rewrite Hpc).
    rewrite <-Hst in Hb. change (bq_bytes buf) with (Buffer.content buf) in Hb. rewrite Hc, Hin, Happ in Hb.
    assert (Hd : deliver_open app0 c0 [] (frags x ++ [s]) =
      HttpServer.prepend (HttpServer.l_trace (deliver_open app0 c0 [] (frags x))) (HttpServer.loop_bytes st)).
    { rewrite deliver_open_snoc, Hncl, Hb. done. }
    set (d := deliver_open app0 c0 [] (frags x)) in *. set (w' := perform _ w3) in *. clearbody d st w'.
    split; unfold delivered; cbn [world app pc frags]; rewrite ?Hd; cbn [HttpServer.prepend HttpServer.l_trace HttpServer.l_app HttpServer.l_ctx HttpServer.l_in];
      change (HttpServer.l_trace (HttpServer.loop_bytes st)) with (HttpServer.l_trace st); rewrite ?HttpServer.closed_app, ?Hncl.
    + exact H1.
    + exact H2.
    + rewrite H4. by case_match.
    + intros _. rewrite H6, Hset3. by apply Hmsg.
    + by rewrite sends_app, Hncl, H5, Hs3, Hse.
    + rewrite H4, H7, Hi3, Hpc. by destruct (HttpServer.closed (HttpServer.l_trace st)).
    + rewrite H8, Hto3, Hto, H4. by destruct (HttpServer.closed (HttpServer.l_trace st)).
    + intros _. rewrite H6, Hset3. by apply Hcb.
    + rewrite H4. by destruct (HttpServer.closed (HttpServer.l_trace st)).
  - rewrite perform_closing by (rewrite Hst3; done).
    assert (Hd : deliver_open app0 c0 [] (frags x ++ [s]) = deliver_open app0 c0 [] (frags x)).
    { rewrite deliver_open_snoc. by rewrite Hcl. }
    split; unfold delivered; cbn [world app pc frags]; rewrite ?Hd, ?Hst3, ?Hs3, ?Hset3, ?Hto3; try done.
    apply (shut_same (world x)); congruence.
Qed.

Lemma on_readable_ok r x : state_ (world x) <> kDisconnected -> session_ok x -> session_ok (on_readable r x).
Proof.
  intros Hnd Hx. unfold on_readable. apply forget_ok. pose proof (so_in _ (se_stream _ Hx)) as Hwf.
  pose proof (http_message_only (app x) (pc x)) as Hmo.
  pose proof (handleRead_ok _ (http_callback_ok (app x) (pc x)) (fun _ => r) _ (se_stream _ Hx)) as Hok.
  destruct r as [e|[|b s]]; [apply session_over; [done..|]; apply (handleRead_end _ Hmo); eauto..|].
  rewrite handleRead_message in * by (done || by apply (se_message _ Hx)). fold (after_message x (b :: s)) in *.
  pose proof (after_message_ok x (b :: s) Hx Hnd) as Ha. cbn zeta in Ha. fold (read_in x (b :: s)).
  set (w := after_message x (b :: s)) in *. clearbody w. unfold enforce_input_cap in *. case_match; [|exact Ha].
  destruct (forceClose_over _ Hmo w) as [E|[Ho Hov]]; [by rewrite E|].
  apply (session_over _ _ _ _ Ha); [cbn [world]; by destruct Ho as [->| ->]|done|done].
Qed.

Lemma session_frame x w :
  session_ok x -> stream_ok w -> shut_ok w -> out_frame (world x) w -> sent w = sent (world x) -> told w = told (world x) ->
  session_ok (mkSession w (app x) (pc x) (frags x)).
Proof.
  intros [] Hok Hsh [F1 F2 _ _ F5] Hs Ht. split; unfold delivered in *; cbn [world app pc frags]; rewrite ?F1, ?F2, ?F5, ?Hs, ?Ht; done.
Qed.

Lemma on_writable_ok x : session_ok x -> session_ok (on_writable x).
Proof.
  intros Hx. apply forget_ok. destruct (handleWrite_shut _ (http_message_only (app x) (pc x)) (http_callback_ok (app x) (pc x)) (world x) (se_stream _ Hx) (se_shut _ Hx)) as (H1 & H2 & H3 & H4).
  apply session_frame; [done| |done..]. apply handleWrite_ok; [apply http_callback_ok|apply Hx].
Qed.

Lemma on_timer_expired_ok id x : session_ok x -> session_ok (on_timer_expired id x).
Proof.
  intros Hx. apply forget_ok.
  pose proof (fire_ok _ (http_callback_ok (app x) (pc x)) id _ (se_stream _ Hx)) as Hok.
  unfold fire in *. destruct (timers (world x) !! id) as [[k d]|]; [|by apply session_frame; [done|done|apply Hx|..]].
  destruct (on_timer_cases _ (http_message_only (app x) (pc x)) k (world x)) as [[[F Hs Hh Ht] Hp]|[Ho [H1 H2 H3 H4]]].
  - apply session_frame; [done|done| |by etrans; [exact F|]|done|done].
    apply (shut_same (world x)); [by apply F|done|done|done|apply Hx].
  - apply session_over; [done|by destruct Ho as [Ho|Ho]; rewrite Ho|done|by split].
Qed.

Lemma http_step_ok x x' : http_step x x' -> session_ok x -> session_ok x'.
Proof.
  intros Hs Hx. destruct Hs; [by apply on_readable_ok|by apply on_writable_ok|by apply on_timer_expired_ok|].
  apply session_frame; [done| | |done|done|done].
  - destruct (se_stream _ Hx). by split.
  - by apply (shut_same (world x)); [..|apply Hx].
Qed.
End invariant.

Lemma session_start_ok max_body app0 fd s p ws :
  has_message s = true ->
  session_ok app0 (HttpContext.setMaxBodyBytes max_body HttpContext.HttpContext_new) (has_connection s)
    (session_start max_body app0 (TcpConnection_new fd s p ws [])).
Proof.
  intros Hm. unfold session_start. set (w0 := TcpConnection_new fd s p ws []).
  assert (Hok : stream_ok (connectEstablished (http_callback app0 None) w0)).
  { apply connectEstablished_ok; [apply http_callback_ok|done|]. split; try done; apply Buffer.new_wf. }
  destruct (connectEstablished_up _ (http_message_only app0 None) w0) as [Hst Hse Hin Hs Hh Ht].
  set (w := connectEstablished _ w0) in *. clearbody w.
  split; unfold delivered; cbn [world app pc frags]; rewrite ?Hst; try done.
  - split; rewrite ?Hst, ?Hh; [done|constructor|done].
  - intros _. by rewrite Hse.
  - intros _. rewrite Hin. split_and!; [done..|exact (Buffer.new_content _)].
  - intros _. by rewrite Hse.
Qed.
End connection.

(** All data of the events. *)
Definition responses (evs : list HttpServer.event) : list bytes :=
  omap (fun e => match e with Sent d => Some d | _ => None end) evs.

(** [processInput] sends nothing after it closed. *)
Lemma sends_process {S : Type} (h : option (S -> HttpRequest.HttpRequest -> HttpResponse.HttpResponse -> S * HttpResponse.HttpResponse))
    app c (s : bytes) :
  sends (HttpServer.l_trace (HttpServer.process h app c s)) = responses (HttpServer.l_trace (HttpServer.process h app c s)).
Proof.
  assert (Hopen : forall evs, HttpServer.closed evs = false -> sends evs = responses evs).
  { induction evs as [|[] evs IH]; simpl; [done|by auto..| |done]. intros Hc. cbn. f_equal. by apply IH. }
  assert (Hw : bq_wf s) by exact I. destruct (HttpServer.process_trace_lemma h app c s Hw) as (reqs & tail & -> & _ & He).
  assert (Hserve : forall app, HttpServer.closed (HttpServer.serve_all h app reqs).2 = false).
  { clear He. induction reqs as [|r reqs IH]; intros a; [done|]. simpl. rewrite HttpServer.closed_app, IH.
    by rewrite HttpServer.respond_no_close. }
  unfold responses. rewrite sends_app, omap_app, Hserve, (Hopen _ (Hserve _)). f_equal.
  destruct He as [(-> & _)|[(-> & _)|(-> & _)]]; done.
Qed.

Lemma delivered_whole {S : Type} (h : option (S -> HttpRequest.HttpRequest -> HttpResponse.HttpResponse -> S * HttpResponse.HttpResponse))
    max_body app0 fs :
  let c0 := HttpContext.setMaxBodyBytes max_body HttpContext.HttpContext_new in
  (zlen (concat fs) < two64)%Z ->
  HttpServer.l_trace (deliver_open h app0 c0 [] fs) = HttpServer.l_trace (HttpServer.process h app0 c0 (concat fs)).
Proof.
  intros c0 Hlen. destruct fs as [|f fs].
  - cbn [concat]. rewrite HttpServer.process_unfold.
    assert (HttpContext.parseRequest c0 [] = (true, c0, [])) as -> by reflexivity. reflexivity.
  - apply (deliver_open_whole h fs app0 c0 [] f). pose proof (zlen_nonneg (concat (f :: fs))).
    split_and!; [done|simpl; done|done|done].
Qed.

(** ** The TLS path *)
Section tls.
Context {S : Type}.
Variable h : option (S -> HttpRequest.HttpRequest -> HttpResponse.HttpResponse -> S * HttpResponse.HttpResponse).

(** Decrypted pieces, each handed to [onTlsMessage]. *)
Fixpoint tls_feed (n : bytes) (pts : list bytes) (app : S) (srv : HttpServer.HttpServer) : list HttpServer.event :=
  match pts with
  | [] => []
  | pt :: pts => let '(app', srv', evs) := HttpServer.onTlsMessage h n pt app srv in evs ++ tls_feed n pts app' srv'
  end.

Lemma onTlsMessage_found n pt app srv pc :
  mlookup n (HttpServer.conns_ srv) = Some pc ->
  let st := HttpServer.process h app (HttpServer.ctx pc) (Buffer.append pt (HttpServer.in_ pc)) in
  exists srv', HttpServer.onTlsMessage h n pt app srv = (HttpServer.l_app st, srv', HttpServer.l_trace st) /\
    mlookup n (HttpServer.conns_ srv') = Some (HttpServer.mkPerConn (HttpServer.l_ctx st) (HttpServer.l_in st)).
Proof.
  intros E. unfold HttpServer.onTlsMessage, HttpServer.processInput. rewrite E, mlookup_insert_eq. eexists. split; [done|].
  cbn [HttpServer.conns_ HttpServer.ctx]. by rewrite mlookup_insert_eq.
Qed.

Lemma tls_feed_open n pts : forall app srv pc,
  mlookup n (HttpServer.conns_ srv) = Some pc -> Buffer.buffer_wf (HttpServer.in_ pc) ->
  sends (tls_feed n pts app srv) =
  sends (HttpServer.l_trace (deliver_open h app (HttpServer.ctx pc) (Buffer.content (HttpServer.in_ pc)) pts)).
Proof.
  induction pts as [|pt pts IH]; intros app srv pc E Hwf; [done|]. cbn [tls_feed deliver_open].
  destruct (onTlsMessage_found n pt app srv pc E) as (srv' & -> & E').
  destruct (Buffer.append_spec pt (HttpServer.in_ pc) Hwf) as [Hwf1 Hc1].
  pose proof (HttpServer.process_bytes h app (HttpServer.ctx pc) (Buffer.append pt (HttpServer.in_ pc)) Hwf1) as Hb.
  change (bq_bytes (Buffer.append pt (HttpServer.in_ pc))) with (Buffer.content (Buffer.append pt (HttpServer.in_ pc))) in Hb.
  rewrite Hc1 in Hb. rewrite Hb.
  pose proof (HttpServer.process_wf h app (HttpServer.ctx pc) (Buffer.append pt (HttpServer.in_ pc)) Hwf1) as Hwf2.
  set (st := HttpServer.process h app _ (Buffer.append _ _)) in *. clearbody st.
  cbn [HttpServer.loop_bytes HttpServer.l_trace HttpServer.l_app HttpServer.l_ctx HttpServer.l_in].
  rewrite sends_app. destruct (HttpServer.closed (HttpServer.l_trace st)) eqn:Ecl; [done|].
  unfold HttpServer.prepend. cbn [HttpServer.l_trace]. rewrite sends_app, Ecl. f_equal. exact (IH _ _ _ E' Hwf2).
Qed.
End tls.

(** What the invariant says of the bytes on the wire. *)
Lemma session_exact {S : Type}
    (h : option (S -> HttpRequest.HttpRequest -> HttpResponse.HttpResponse -> S * HttpResponse.HttpResponse))
    max_body app0 hc x :
  session_ok h app0 (HttpContext.setMaxBodyBytes max_body HttpContext.HttpContext_new) hc x ->
  (zlen (concat (frags x)) < two64)%Z ->
  let evs := HttpServer.l_trace (HttpServer.process h app0
               (HttpContext.setMaxBodyBytes max_body HttpContext.HttpContext_new) (concat (frags x))) in
  let w := world x in
  wire w ++ Buffer.content (output_buffer_ w) = concat (responses evs) /\
  (state_ w = kConnected -> HttpServer.closed evs = false) /\
  (state_ w = kDisconnecting -> HttpServer.closed evs = true /\
     (outputBufferPending w = 0 -> exists st wr se, EShutdownWrite st wr se ∈ trace w)) /\
  (forall st wr se, EShutdownWrite st wr se ∈ trace w -> wr = concat (responses evs)).
Proof.
  intros Hx Hlen evs w.
  destruct Hx as [Hst [_ Hwr Hdn] _ _ Hse Hop _ _ Hcl]. unfold delivered in *.
  pose proof (delivered_whole h max_body app0 (frags x) Hlen) as Hd. cbn zeta in Hd. rewrite Hd in Hse, Hop, Hcl. fold evs in Hse, Hop, Hcl. fold w in Hst, Hwr, Hdn, Hse, Hop, Hcl.
  assert (Hs : sent w = responses evs) by (rewrite Hse; apply sends_process).
  rewrite <-Hs. split_and!; [apply Hst|by intros Hc; apply Hop| |].
  - intros Hc. split; [by apply Hcl|]. intros Hp. specialize (Hdn Hc Hp). unfold halfcloses in Hdn.
    destruct (omap halfclose_of (trace w)) as [|b bs] eqn:E; [done|].
    assert (Hin : b ∈ omap halfclose_of (trace w)) by (rewrite E; left).
    apply list_elem_of_omap in Hin as ([|st wr se] & Hin & [= ->]). eauto.
  - intros st wr se Hin. rewrite Forall_forall in Hwr. apply (Hwr wr). apply list_elem_of_omap. by exists (EShutdownWrite st wr se).
Qed.

(** C3: the HTTP server on a TCP connection, end to end: however the client's
    bytes are cut into reads, however little each write takes and whenever timers
    close the connection, the bytes on the wire and those still queued are exactly
    the responses [processInput] gives for all bytes read so far at once, in
    order and once each.  The connection is half-closed only when all of them are
    written, and when they are and the last request or an error asked for the
    close, it has been. *)
Theorem http_connection_exact {S : Type}
    (h : option (S -> HttpRequest.HttpRequest -> HttpResponse.HttpResponse -> S * HttpResponse.HttpResponse))
    max_body app0 fd s p ws x :
  has_message s = true ->
  rtc (http_step h) (session_start h max_body app0 (TcpConnection_new fd s p ws [])) x ->
  (zlen (concat (frags x)) < two64)%Z ->
  let evs := HttpServer.l_trace (HttpServer.process h app0
               (HttpContext.setMaxBodyBytes max_body HttpContext.HttpContext_new) (concat (frags x))) in
  let w := world x in
  wire w ++ Buffer.content (output_buffer_ w) = concat (responses evs) /\
  (state_ w = kConnected -> HttpServer.closed evs = false) /\
  (state_ w = kDisconnecting -> HttpServer.closed evs = true /\
     (outputBufferPending w = 0 -> exists st wr se, EShutdownWrite st wr se ∈ trace w)) /\
  (forall st wr se, EShutdownWrite st wr se ∈ trace w -> wr = concat (responses evs)).
Proof.
  intros Hm Hr. apply (session_exact h max_body app0 (has_connection s)).
  pose proof (session_start_ok h max_body app0 fd s p ws Hm) as H0. revert H0.
  induction Hr; eauto using http_step_ok.
Qed.

(** The TLS path answers the same: however OpenSSL and TCP cut the decrypted
    bytes of a new connection, what is sent until the close is what [processInput]
    sends for all of them at once. *)
Lemma tls_messages_exact {S : Type}
    (h : option (S -> HttpRequest.HttpRequest -> HttpResponse.HttpResponse -> S * HttpResponse.HttpResponse))
    n pts app srv :
  (zlen (concat pts) < two64)%Z ->
  sends (tls_feed h n pts app (HttpServer.onConnection true n srv)) =
  responses (HttpServer.l_trace (HttpServer.process h app
    (HttpContext.setMaxBodyBytes (HttpServer.max_body_bytes_ srv) HttpContext.HttpContext_new) (concat pts))).
Proof.
  intros Hlen. etrans; [eapply tls_feed_open; [apply mlookup_insert_eq|apply Buffer.new_wf]|].
  cbn [HttpServer.ctx HttpServer.in_]. rewrite Buffer.new_content, delivered_whole by done. apply sends_process.
Qed.

(** A request in two reads, answered over two writes and closed. *)
Definition example_start : Session :=
  session_start HttpServer.echo_handler 100 0
    (TcpConnection_new 7 (demo_settings 1000) EPollPoller.poller_new [WriteOk 10; WriteOk 900] []).
Definition example_read1 : Session :=
  on_readable HttpServer.echo_handler (Buffer.ReadvOk (bs "GET /a HTTP/1.1" ++ CRLF)) example_start.
Definition example_read2 : Session :=
  on_readable HttpServer.echo_handler (Buffer.ReadvOk (bs "Connection: close" ++ CRLF ++ CRLF)) example_read1.
Definition http_example : Session := on_writable HttpServer.echo_handler example_read2.

Lemma http_connection_exact_witness :
  let w := world http_example in
  (state_ w = kDisconnecting /\ outputBufferPending w = 0 /\ length (wire w) = 59) /\
  wire w ++ Buffer.content (output_buffer_ w) =
  concat (responses (HttpServer.l_trace (HttpServer.process HttpServer.echo_handler 0
    (HttpContext.setMaxBodyBytes 100 HttpContext.HttpContext_new) (concat (frags http_example))))).
Proof.
  split; [split_and!; vm_compute; reflexivity|].
  apply (http_connection_exact HttpServer.echo_handler 100 0 7 (demo_settings 1000) EPollPoller.poller_new [WriteOk 10; WriteOk 900] http_example).
  - reflexivity.
  - apply (rtc_l _ _ example_read1).
    { apply http_readable. intros Hd. vm_compute in Hd. discriminate Hd. }
    apply (rtc_l _ _ example_read2).
    { apply http_readable. intros Hd. vm_compute in Hd. discriminate Hd. }
    exact (rtc_once _ _ (http_writable HttpServer.echo_handler example_read2)).
  - vm_compute. reflexivity.
Defined.

(** Finding: after the response to a request that asked to close, bytes that
    arrive in a later read are still parsed and handed to the handler; only the
    response is dropped. *)
Lemma handled_after_close :
  let x := on_readable HttpServer.echo_handler (Buffer.ReadvOk (bs "GET /b HTTP/1.1" ++ CRLF ++ CRLF)) http_example in
  app http_example = 1 /\ app x = 2 /\ sent (world x) = sent (world http_example).
Proof. split_and!; vm_compute; reflexivity. Qed.
End HttpConnection.
