(* ===== verification/LoadClient.v ===== *)
(** * The load generator (examples/c10k/c10k_client.cc)

    A single-threaded client on edge-triggered epoll that opens many connections
    and drives requests over them.  The kernel's answers (sockets, connects,
    socket errors, sends and receives) are lists the calls consume, the clock is a
    function of the number of readings, and an iteration of the main loop takes
    the ready list [epoll_wait] returned.  Arithmetic on rates is over the class
    [Double]; [atof] is a parameter of the same kind. *)

From Stdlib Require Import QArith Qround.
From stdpp Require Import gmap sorting.
From S2P Require Import Prelude CStr Double.
Close Scope Q_scope.
Open Scope nat_scope.

Module LoadClient.

Definition EPOLLIN : Z := 1.
Definition EPOLLOUT : Z := 4.
Definition EPOLLERR : Z := 8.
Definition EPOLLHUP : Z := 16.
Definition EPOLLRDHUP : Z := 8192.
(** [e & mask] as a condition. *)
Definition has (e mask : Z) : bool := negb (Z.land e mask =? 0)%Z.

Definition EAGAIN : Z := 11.
Definition EMFILE : Z := 24.
Definition EPIPE : Z := 32.
Definition ECONNRESET : Z := 104.
Definition EINPROGRESS : Z := 115.

Inductive St := kConnecting | kOpen | kDead.
#[export] Instance St_eq_dec : EqDecision St.
Proof. solve_decision. Defined.

(** The last two fields are ghosts: a receive was answered with [EAGAIN] since
    the last readiness, and so was a send. *)
Record Conn := mkConn {
  fd : Z;
  st : St;
  connect_start : Z;
  to_write : Z;
  to_read : Z;
  split_at : Z;
  req_start : Z;
  drained : bool;
  blocked : bool;
}.
#[export] Instance Conn_settable : Settable Conn := fun c =>
  mkConn (fd c) (st c) (connect_start c) (to_write c) (to_read c) (split_at c) (req_start c) (drained c) (blocked c).
Definition Conn_new : Conn := mkConn (-1) kConnecting 0 0 0 0 0 true true.

(** Answers of the kernel. *)
Inductive socket_answer := SocketError (errno : Z) | SocketFd (fd : nat) (connect_errno : option Z).
Inductive io_answer := IoOk (n : nat) | IoError (errno : Z).

Section client.
Context {D : Type} `{Double D} (atof : bytes -> D) (clock : nat -> Z).

Record Options := mkOptions {
  host : bytes;
  port : Z;
  conns_ : Z;
  rate : D;
  duration : Z;
  msg : Z;
  inflight : Z;
  src_ips : list bytes;
  split : bool;
  client_nagle : bool;
}.
#[local] Instance Options_settable : Settable Options := fun o =>
  mkOptions (host o) (port o) (conns_ o) (rate o) (duration o) (msg o) (inflight o) (src_ips o) (split o) (client_nagle o).
Definition Options_new : Options :=
  mkOptions (bs "127.0.0.1") 9100 10000 (d_of_Z 0) 5 64 1 [] false false.

(** [std::getline] until the stream is exhausted. *)
Fixpoint getlines (sep : ascii) (cur s : bytes) : list bytes :=
  match s with
  | [] => match cur with [] => [] | _ => [cur] end
  | c :: s => if Ascii.eqb c sep then cur :: getlines sep [] s else getlines sep (cur ++ [c]) s
  end.

(** [None] is [usage()], which exits. *)
Fixpoint parse (args : list bytes) (o : Options) : option Options :=
  match args with
  | [] => Some o
  | a :: args =>
    if bool_decide (a = bs "--split") then parse args (o <| split := true |>)
    else if bool_decide (a = bs "--client-nagle") then parse args (o <| client_nagle := true |>)
    else match args with
         | [] => None
         | v :: args =>
           if bool_decide (a = bs "--host") then parse args (o <| host := v |>)
           else if bool_decide (a = bs "--port") then parse args (o <| port := (atoi v mod 2 ^ 16)%Z |>)
           else if bool_decide (a = bs "--conns") then parse args (o <| conns_ := atoi v |>)
           else if bool_decide (a = bs "--rate") then parse args (o <| rate := atof v |>)
           else if bool_decide (a = bs "--duration") then parse args (o <| duration := atoi v |>)
           else if bool_decide (a = bs "--msg") then parse args (o <| msg := strtoul 10 v |>)
           else if bool_decide (a = bs "--inflight") then parse args (o <| inflight := Z.max 1 (atoi v) |>)
           else if bool_decide (a = bs "--src-ips") then parse args (o <| src_ips := src_ips o ++ getlines ","%char [] v |>)
           else None
         end
  end.

(** The percentile: [nth_element] puts the element of rank [i] at its place. *)
Definition pct (v : list Z) (p : D) : Z :=
  match v with
  | [] => 0
  | _ => default 0%Z (merge_sort Z.le v !! Z.to_nat (d_trunc (d_mul p (d_of_Z (zlen v - 1)))))
  end.

(** The state of [main]: its variables, the kernel's next answers, and ghosts
    that record the sockets created and closed and the slices of the payload
    handed to [::send]. *)
Record Client := mkClient {
  conns : list Conn;
  errors : gmap Z Z;
  connect_us : list Z;
  req_us : list Z;
  opened : Z;
  connected : Z;
  failed : Z;
  requests : Z;
  t0 : Z;
  traffic : bool;
  traffic_start : Z;
  ticks : nat;
  sockets : list socket_answer;
  so_errors : list Z;
  sends : list io_answer;
  recvs : list io_answer;
  created : list Z;
  closed : list Z;
  slices : list (Z * Z);
}.
#[local] Instance Client_settable : Settable Client := fun s =>
  mkClient (conns s) (errors s) (connect_us s) (req_us s) (opened s) (connected s) (failed s) (requests s) (t0 s)
    (traffic s) (traffic_start s) (ticks s) (sockets s) (so_errors s) (sends s) (recvs s) (created s) (closed s) (slices s).

(** [Clock::now()] *)
Definition now (s : Client) : Z := clock (ticks s).
Definition tick (s : Client) : Client := s <| ticks := S (ticks s) |>.

Section main.
Variable o : Options.

Definition payload_size : Z := wrap64 (Z.max (msg o) 1 * inflight o).

Definition main_start : Client :=
  mkClient (replicate (Z.to_nat (conns_ o)) Conn_new) ∅ [] [] 0 0 0 0 (clock 0) false 0 1 [] [] [] [] [] [] [].

Definition set_conn (i : nat) (c : Conn) (s : Client) : Client := s <| conns := <[i := c]> (conns s) |>.
Definition count_error (err : Z) (s : Client) : Client :=
  s <| errors := <[err := (default 0 (errors s !! err) + 1)%Z]> (errors s) |> <| failed := (failed s + 1)%Z |>.

(** The lambda [fail]. *)
Definition fail (i : nat) (err : Z) (s : Client) : Client :=
  match conns s !! i with
  | None => s
  | Some c =>
    if bool_decide (st c = kDead) then s
    else
      let s := count_error err s in
      let s := s <| connected := if bool_decide (st c = kOpen) then (connected s - 1)%Z else connected s |> in
      (set_conn i (c <| st := kDead |>) s) <| closed := closed s ++ [fd c] |>
  end.

#[local] Arguments fail : simpl never.

(** The lambda [startRequest]. *)
Definition startRequest (i : nat) (s : Client) : Client :=
  match conns s !! i with
  | None => s
  | Some c =>
    let batch := wrap64 (msg o * inflight o) in
    tick (set_conn i (c <| to_write := batch |> <| split_at := if split o then (batch / 2)%Z else 0%Z |>
                        <| to_read := batch |> <| req_start := now s |>) s)
  end.

(** The lambda [flushWrite], by the answers of [::send]. *)
Definition chunk (c : Conn) : Z :=
  if (0 <? split_at c)%Z && (split_at c <? to_write c)%Z then (to_write c - split_at c)%Z else to_write c.

Fixpoint flush_loop (answers : list io_answer) (i : nat) (s : Client) : Client :=
  match conns s !! i with
  | None => s
  | Some c =>
    if (to_write c <=? 0)%Z then s <| sends := answers |>
    else
      let s := s <| slices := slices s ++ [(payload_size - to_write c, chunk c)%Z] |> in
      match answers with
      | [] => set_conn i (c <| blocked := true |>) (s <| sends := [] |>)
      | IoOk n :: answers =>
        let n := Z.min (Z.of_nat n) (chunk c) in
        if (0 <? n)%Z then flush_loop answers i (set_conn i (c <| to_write := (to_write c - n)%Z |>) s)
        else fail i EPIPE (s <| sends := answers |>)
      | IoError e :: answers =>
        if (e =? EAGAIN)%Z then set_conn i (c <| blocked := true |>) (s <| sends := answers |>)
        else fail i e (s <| sends := answers |>)
      end
  end.
Definition flushWrite (i : nat) (s : Client) : Client := flush_loop (sends s) i s.

(** ** Opening connections *)
Definition next_socket (s : Client) : socket_answer * Client :=
  match sockets s with
  | [] => (SocketError EMFILE, s)
  | a :: rest => (a, s <| sockets := rest |>)
  end.

(** One connection: [socket], the optional [bind], [connect], [epoll_ctl]. *)
Definition open_one (s : Client) : Client :=
  let i := Z.to_nat (opened s) in
  match conns s !! i with
  | None => s
  | Some c =>
    let '(a, s) := next_socket s in
    match a with
    | SocketError e => set_conn i (c <| fd := (-1)%Z |> <| st := kDead |>) (count_error e s)
    | SocketFd f connect_errno =>
      let s := s <| created := created s ++ [Z.of_nat f] |> in
      let s := tick (set_conn i (c <| fd := Z.of_nat f |> <| connect_start := now s |>) s) in
      match connect_errno with
      | None => s
      | Some e => if (e =? EINPROGRESS)%Z then s else fail i e s
      end
    end
  end.

Fixpoint open_loop (burst : nat) (allowed : Z) (s : Client) : Client :=
  match burst with
  | O => s
  | S burst =>
    if (opened s <? allowed)%Z
    then let s := open_one s in open_loop burst allowed (s <| opened := (opened s + 1)%Z |>)
    else s
  end.

Definition seconds (ns : Z) : D := d_div (d_of_Z ns) (d_of_Z 1000000000).
Definition allowed (elapsed : D) : Z :=
  if d_lt (d_of_Z 0) (rate o) then Z.min (conns_ o) (d_trunc (d_mul elapsed (rate o)) + 1) else conns_ o.

Definition open_phase (s : Client) : Client :=
  let a := allowed (seconds (now s - t0 s)) in open_loop 512 a (tick s).

(** ** The traffic phase *)
Definition start_if_open (s : Client) (i : nat) : Client :=
  match conns s !! i with
  | Some c => if bool_decide (st c = kOpen) then flushWrite i (startRequest i s) else s
  | None => s
  end.

Definition traffic_phase (s : Client) : Client :=
  if negb (traffic s) && (opened s =? conns_ o)%Z && (connected s + failed s =? conns_ o)%Z then
    let s := tick (s <| traffic := true |> <| traffic_start := now s |>) in
    if (0 <? msg o)%Z then fold_left start_if_open (seq 0 (length (conns s))) s else s
  else s.

(** ** Readiness *)
Definition next_so_error (s : Client) : Z * Client :=
  match so_errors s with [] => (0%Z, s) | e :: rest => (e, s <| so_errors := rest |>) end.

(** A connection that finished connecting. *)
Definition on_connected (i : nat) (s : Client) : Client :=
  match conns s !! i with
  | None => s
  | Some c =>
    let '(err, s) := next_so_error s in
    if negb (err =? 0)%Z then fail i err s
    else
      let s := set_conn i (c <| st := kOpen |>) (s <| connected := (connected s + 1)%Z |>) in
      let s := tick (s <| connect_us := connect_us s ++ [(now s - connect_start c)%Z] |>) in
      if traffic s && (0 <? msg o)%Z then flushWrite i (startRequest i s) else s
  end.

(** A whole response has arrived. *)
Definition on_response (i : nat) (s : Client) : Client :=
  match conns s !! i with
  | None => s
  | Some c =>
    let s := tick (s <| req_us := req_us s ++ [(now s - req_start c)%Z] |>
                     <| requests := wrap64 (requests s + inflight o) |>) in
    flushWrite i (startRequest i s)
  end.

(** The receive loop, by the answers of [::recv]; on a closed descriptor the
    answer is [EBADF], and [fail] has nothing left to do. *)
Fixpoint recv_loop (answers : list io_answer) (i : nat) (s : Client) : Client :=
  match conns s !! i with
  | None => s
  | Some c =>
    if bool_decide (st c = kDead) then s <| recvs := answers |>
    else
      match answers with
      | [] => set_conn i (c <| drained := true |>) (s <| recvs := [] |>)
      | IoOk (S _ as n) :: answers =>
        let c := c <| to_read := (to_read c - Z.min (to_read c) (Z.of_nat n))%Z |> in
        let s := set_conn i c s in
        recv_loop answers i
          (if (to_read c =? 0)%Z && traffic s && (0 <? msg o)%Z then on_response i s else s)
      | IoOk 0 :: answers => fail i ECONNRESET (s <| recvs := answers |>)
      | IoError e :: answers =>
        if (e =? EAGAIN)%Z then set_conn i (c <| drained := true |>) (s <| recvs := answers |>)
        else fail i e (s <| recvs := answers |>)
      end
  end.

Definition state_of (i : nat) (s : Client) : option St := st <$> conns s !! i.
Definition is_open (i : nat) (s : Client) : bool := bool_decide (state_of i s = Some kOpen).
Definition queued (i : nat) (s : Client) : bool :=
  match conns s !! i with Some c => (0 <? to_write c)%Z | None => false end.

(** Readiness resets the ghosts. *)
Definition readiness (e : Z) (i : nat) (s : Client) : Client :=
  match conns s !! i with
  | Some c =>
    set_conn i (c <| drained := drained c && negb (has e EPOLLIN) |> <| blocked := blocked c && negb (has e EPOLLOUT) |>) s
  | None => s
  end.

Definition on_event (s : Client) (ev : nat * Z) : Client :=
  let '(i, e) := ev in
  if bool_decide (state_of i s = Some kDead) then s
  else
    let s := if bool_decide (state_of i s = Some kConnecting) && has e (Z.lor EPOLLOUT (Z.lor EPOLLERR EPOLLHUP))
             then on_connected i s else s in
    if negb (is_open i s) then s
    else
      let s := readiness e i s in
      let s := if has e EPOLLIN then recv_loop (recvs s) i s else s in
      let s := if is_open i s && has e EPOLLOUT && queued i s then flushWrite i s else s in
      if is_open i s && has e (Z.lor EPOLLRDHUP (Z.lor EPOLLHUP EPOLLERR)) && negb (has e EPOLLIN)
      then fail i ECONNRESET s else s.

(** ** The main loop *)

(** The end of an iteration: [inr] is the [break] when the time is over. *)
Definition wait_phase (ready : list (nat * Z)) (s : Client) : Client + Client :=
  if traffic s && d_le (d_of_Z (duration o)) (seconds (now s - traffic_start s))
  then inr (tick s)
  else
    let s := if traffic s then tick s else s in
    inl (fold_left on_event ready s).

Definition iteration (ready : list (nat * Z)) (s : Client) : Client + Client :=
  wait_phase ready (traffic_phase (open_phase s)).

(** After the loop: what is still open is closed; the exit status. *)
Definition close_open (s : Client) (i : nat) : Client :=
  match conns s !! i with
  | Some c => if bool_decide (st c = kOpen) then s <| closed := closed s ++ [fd c] |> else s
  | None => s
  end.
Definition main_end (s : Client) : Client * Z :=
  (fold_left close_open (seq 0 (length (conns s))) s, if (0 <? failed s)%Z then 1%Z else 0%Z).

(** Iterations, between which the kernel may answer anything. *)
Definition kernel (sk : list socket_answer) (se : list Z) (ws rs : list io_answer) (s : Client) : Client :=
  s <| sockets := sk |> <| so_errors := se |> <| sends := ws |> <| recvs := rs |>.

(** [epoll_wait] reports connections that were registered: their descriptor is set. *)
Definition registered (i : nat) (s : Client) : Prop := exists c, conns s !! i = Some c /\ (0 <= fd c)%Z.
Inductive step : Client -> Client -> Prop :=
| step_kernel sk se ws rs s : step s (kernel sk se ws rs s)
| step_iteration ready s s' :
    Forall (fun ev => registered ev.1 (traffic_phase (open_phase s))) ready ->
    iteration ready s = inl s' -> step s s'.

(** ** The accounting *)
Definition one_if (x : St) (c : Conn) : Z := if bool_decide (st c = x) then 1 else 0.
Definition live_fd (c : Conn) : list Z := if bool_decide (st c = kDead) || (fd c <? 0)%Z then [] else [fd c].
Definition live (l : list Conn) : list Z := concat (map live_fd l).
Definition total (m : gmap Z Z) : Z := map_fold (fun _ n a => (n + a)%Z) 0%Z m.
Definition batch : Z := wrap64 (msg o * inflight o).

Lemma tally_split l : (tally (one_if kConnecting) l + tally (one_if kOpen) l + tally (one_if kDead) l = zlen l)%Z.
Proof.
  unfold zlen. induction l as [|c l IH]; simpl; [done|]. unfold one_if at 1 3 5. destruct (st c); simpl; lia.
Qed.
Lemma tally_nonneg x l : (0 <= tally (one_if x) l)%Z.
Proof. induction l as [|c l IH]; simpl; [done|]. unfold one_if at 1. case_bool_decide; lia. Qed.
Lemma tally_zero x l c : tally (one_if x) l = 0%Z -> c ∈ l -> st c <> x.
Proof.
  intros Hz Hin. induction Hin as [c l|c d l Hin IH]; simpl in Hz.
  - intros <-. pose proof (tally_nonneg (st c) l). unfold one_if at 1 in Hz. rewrite bool_decide_true in Hz by done. lia.
  - apply IH. pose proof (tally_nonneg x l). unfold one_if at 1 in Hz. case_bool_decide; lia.
Qed.

Lemma live_insert l i c : l !! i = Some c ->
  exists rest, live l ≡ₚ live_fd c ++ rest /\ forall c', live (<[i := c']> l) ≡ₚ live_fd c' ++ rest.
Proof. apply concat_map_insert. Qed.

Lemma total_count m k : total (<[k := (default 0 (m !! k) + 1)%Z]> m) = (total m + 1)%Z.
Proof.
  unfold total.
  assert (Hins : forall (m : gmap Z Z) v, m !! k = None -> map_fold (fun _ n a => (n + a)%Z) 0%Z (<[k := v]> m) =
    (v + map_fold (fun _ n a => (n + a)%Z) 0%Z m)%Z).
  { intros m' v Hm. rewrite map_fold_insert_L; [done|intros; lia|done]. }
  destruct (m !! k) as [v|] eqn:E; simpl; [|rewrite Hins by done; lia].
  rewrite <-(insert_delete_id m k v E) at 2. rewrite <-(insert_delete_eq m k).
  rewrite !Hins by apply lookup_delete_eq. lia.
Qed.

Record conn_ok (c : Conn) : Prop := {
  ck_write : (0 <= to_write c <= batch)%Z;
  ck_split : (0 <= split_at c)%Z;
  ck_open : st c = kOpen -> (0 <= fd c)%Z;
}.

Record inv (s : Client) : Prop := {
  iv_len : length (conns s) = Z.to_nat (conns_ o);
  iv_opened : (0 <= opened s <= Z.max 0 (conns_ o))%Z;
  iv_fresh : forall i c, conns s !! i = Some c -> (opened s <= Z.of_nat i)%Z -> c = Conn_new;
  iv_conns : Forall conn_ok (conns s);
  iv_connected : connected s = tally (one_if kOpen) (conns s);
  iv_failed : failed s = tally (one_if kDead) (conns s);
  iv_errors : total (errors s) = failed s;
  iv_fds : created s ≡ₚ closed s ++ live (conns s);
  iv_traffic : traffic s = true -> Forall (fun c => st c <> kConnecting) (conns s) /\ opened s = Z.max 0 (conns_ o);
  iv_slices : Forall (fun p => (0 <= p.1 /\ 0 < p.2 /\ p.1 + p.2 <= payload_size)%Z) (slices s);
  iv_requests : requests s = wrap64 (inflight o * zlen (req_us s));
}.

(** Of connection [i], [P] holds. *)
Definition at_conn (i : nat) (s : Client) (P : Conn -> Prop) : Prop := forall c, conns s !! i = Some c -> P c.
Definition begun (c : Conn) : Prop := st c <> kConnecting.

(** An operation on connection [i]. *)
Record upd (i : nat) (s s' : Client) : Prop := {
  u_inv : inv s -> registered i s -> inv s';
  u_only : forall j, j <> i -> conns s' !! j = conns s !! j;
  u_fd : fd <$> conns s' !! i = fd <$> conns s !! i;
  u_traffic : traffic s' = traffic s;
  u_begun : at_conn i s begun -> at_conn i s' begun;
}.
Lemma upd_registered i s s' : upd i s s' -> registered i s -> registered i s'.
Proof.
  intros Hu (c & Hc & Hfd). pose proof (u_fd _ _ _ Hu) as E. rewrite Hc in E. unfold registered.
  destruct (conns s' !! i) as [c'|]; simplify_eq/=. exists c'. split; [done|]. congruence.
Qed.
#[local] Instance upd_preorder i : PreOrder (upd i).
Proof.
  split; [by intros s|]. intros a b c Hab Hbc. split.
  - intros Hi Hr. apply Hbc; [by apply Hab|by eapply upd_registered].
  - intros j Hj. rewrite (u_only _ _ _ Hbc), (u_only _ _ _ Hab); done.
  - rewrite (u_fd _ _ _ Hbc). apply Hab.
  - rewrite (u_traffic _ _ _ Hbc). apply Hab.
  - intros Hb. by apply Hbc, Hab.
Qed.

Lemma inv_frame s s' :
  conns s' = conns s -> errors s' = errors s -> opened s' = opened s -> connected s' = connected s ->
  failed s' = failed s -> requests s' = requests s -> req_us s' = req_us s -> traffic s' = traffic s ->
  created s' = created s -> closed s' = closed s -> slices s' = slices s -> inv s -> inv s'.
Proof.
  intros E1 E2 E3 E4 E5 E6 E7 E8 E9 E10 E11 [].
  split; rewrite ?E1, ?E2, ?E3, ?E4, ?E5, ?E6, ?E7, ?E8, ?E9, ?E10, ?E11; done.
Qed.
Lemma upd_frame i s s' :
  conns s' = conns s -> errors s' = errors s -> opened s' = opened s -> connected s' = connected s ->
  failed s' = failed s -> requests s' = requests s -> req_us s' = req_us s -> traffic s' = traffic s ->
  created s' = created s -> closed s' = closed s -> slices s' = slices s -> upd i s s'.
Proof.
  intros E1 E2 E3 E4 E5 E6 E7 E8 E9 E10 E11. split; [|by rewrite E1..|done|unfold at_conn; by rewrite E1].
  intros Hi _. by apply (inv_frame s s').
Qed.

(** Registered connections are not fresh. *)
Lemma registered_opened i s : inv s -> registered i s -> (Z.of_nat i < opened s)%Z.
Proof.
  intros Hi (c & Hc & Hfd). destruct (Z.lt_ge_cases (Z.of_nat i) (opened s)) as [|Hge]; [done|].
  rewrite (iv_fresh _ Hi i c Hc Hge) in Hfd. simpl in Hfd. lia.
Qed.

Lemma fresh_insert i c' s :
  inv s -> registered i s -> forall j c, <[i := c']> (conns s) !! j = Some c -> (opened s <= Z.of_nat j)%Z -> c = Conn_new.
Proof.
  intros Hi Hr j c Hj Hge. pose proof (registered_opened i s Hi Hr). apply (iv_fresh _ Hi j c); [|done].
  rewrite list_lookup_insert_ne in Hj by lia. done.
Qed.

Lemma conns_insert_fd i c c' s :
  conns s !! i = Some c -> fd c' = fd c -> fd <$> <[i := c']> (conns s) !! i = fd <$> conns s !! i.
Proof. intros Hc Hfd. rewrite Hc, list_lookup_insert_eq by (by eapply lookup_lt_Some). simpl. by rewrite Hfd. Qed.

Lemma at_set i c' s (P : Conn -> Prop) : P c' -> at_conn i (set_conn i c' s) P.
Proof. intros HP c. simpl. intros Hc%list_lookup_insert_Some. naive_solver. Qed.

Lemma upd_set i c c' s :
  conns s !! i = Some c -> st c' = st c -> fd c' = fd c -> (conn_ok c -> conn_ok c') -> upd i s (set_conn i c' s).
Proof.
  intros Hc Hst Hfd Hck.
  split; [|by intros; apply list_lookup_insert_ne|by eapply conns_insert_fd|done|].
  2: { intros Hb. apply at_set. unfold begun. rewrite Hst. exact (Hb c Hc). }
  intros Hi Hr. pose proof (fresh_insert i c' s Hi Hr) as Hfresh. destruct Hi. split; simpl; try done.
  - by rewrite length_insert.
  - apply Forall_insert; [done|]. apply Hck. by eapply Forall_lookup_1.
  - rewrite (tally_insert _ _ _ c) by done. unfold one_if at 2 3. rewrite Hst. lia.
  - rewrite (tally_insert _ _ _ c) by done. unfold one_if at 2 3. rewrite Hst. lia.
  - destruct (live_insert _ _ _ Hc) as (rest & Hl & Hl'). rewrite iv_fds0, Hl, Hl'. unfold live_fd. by rewrite Hst, Hfd.
  - intros Ht. destruct (iv_traffic0 Ht) as [Hall Hop]. split; [|done]. apply Forall_insert; [done|]. rewrite Hst.
    by eapply (Forall_lookup_1 _ _ _ _ Hall).
Qed.

Lemma upd_fail i e s : upd i s (fail i e s).
Proof.
  unfold fail. destruct (conns s !! i) as [c|] eqn:Hc; [|done]. case_bool_decide as Hd; [done|].
  split; simpl; [|by intros; apply list_lookup_insert_ne|by eapply conns_insert_fd|done|].
  2: { intros _ c'. simpl. rewrite list_lookup_insert_eq by (by eapply lookup_lt_Some). by intros [= <-]. }
  intros Hi Hr. pose proof (fresh_insert i (c <| st := kDead |>) s Hi Hr) as Hfresh.
  assert (Hfd : (0 <= fd c)%Z) by (destruct Hr as (c' & Hc' & ?); congruence).
  pose proof (tally_insert (one_if kOpen) _ _ c (c <| st := kDead |>) Hc) as Ho.
  pose proof (tally_insert (one_if kDead) _ _ c (c <| st := kDead |>) Hc) as Hx.
  unfold one_if at 3 4 in Ho. unfold one_if at 3 4 in Hx. simpl in Ho, Hx. rewrite (bool_decide_false (st c = kDead)) in Hx by done.
  destruct (live_insert _ _ _ Hc) as (rest & Hl & Hl'). destruct Hi. split; simpl; try done.
  - by rewrite length_insert.
  - apply Forall_insert; [done|]. pose proof (Forall_lookup_1 _ _ _ _ iv_conns0 Hc) as []. by split.
  - case_bool_decide; lia.
  - lia.
  - rewrite total_count. lia.
  - rewrite Hl', iv_fds0, Hl. unfold live_fd. rewrite bool_decide_false by done. destruct (Z.ltb_spec (fd c) 0); [lia|].
    simpl. by rewrite <-app_assoc.
  - intros Ht. destruct (iv_traffic0 Ht) as [Hall Hop]. split; [|done]. by apply Forall_insert.
Qed.

Definition reads (c : Conn) : Prop := st c <> kDead -> drained c = true.
Definition writes (c : Conn) : Prop := st c <> kDead -> (0 < to_write c)%Z -> blocked c = true.

Lemma at_fail i e s (P : Conn -> Prop) : (forall c, st c = kDead -> P c) -> at_conn i (fail i e s) P.
Proof.
  intros HP c. unfold fail. destruct (conns s !! i) as [c'|] eqn:Hc; [|congruence]. case_bool_decide as Hd.
  - rewrite Hc. intros [= <-]. by apply HP.
  - simpl. rewrite list_lookup_insert_eq by (by eapply lookup_lt_Some). intros [= <-]. by apply HP.
Qed.
Lemma dead_reads c : st c = kDead -> reads c.
Proof. intros Hd Ho. congruence. Qed.
Lemma dead_writes c : st c = kDead -> writes c.
Proof. intros Hd Ho. congruence. Qed.

Lemma upd_startRequest i s : upd i s (startRequest i s).
Proof.
  unfold startRequest. destruct (conns s !! i) as [c|] eqn:Hc; [|done].
  pose proof (wrap64_range (msg o * inflight o)) as [? ?].
  etrans; [apply (upd_set i c (c <| to_write := wrap64 (msg o * inflight o) |>
    <| split_at := if split o then (wrap64 (msg o * inflight o) / 2)%Z else 0%Z |>
    <| to_read := wrap64 (msg o * inflight o) |> <| req_start := now s |>)); [done..|]|by apply upd_frame].
  intros [Hw Hs Ho]. split; simpl; [unfold batch; lia| |done]. case_match; [|done]. apply Z.div_pos; lia.
Qed.

Lemma payload_covers : (1 <= msg o)%Z -> payload_size = batch.
Proof. intros Hm. unfold payload_size, batch. by rewrite Z.max_l. Qed.

Lemma batch_zero : (0 <= msg o)%Z -> (0 < batch)%Z -> payload_size = batch.
Proof.
  intros Hm Hb. apply payload_covers. destruct (Z.eq_dec (msg o) 0%Z) as [E|]; [|lia]. unfold batch in Hb. by rewrite E in Hb.
Qed.

(** Handing a slice of the payload to [::send]. *)
Lemma upd_slice i c s :
  (0 <= msg o)%Z -> conns s !! i = Some c -> (0 < to_write c)%Z ->
  upd i s (s <| slices := slices s ++ [(payload_size - to_write c, chunk c)%Z] |>).
Proof.
  intros Hm Hc Hw. split; [|done..]. intros [] _. split; simpl; try done. apply Forall_app. split; [done|].
  pose proof (Forall_lookup_1 _ _ _ _ iv_conns0 Hc) as [[Hw1 Hw2] Hs _]. pose proof (batch_zero Hm ltac:(lia)) as E.
  constructor; [|done]. simpl. unfold chunk. case_match; bool_prop; lia.
Qed.

(** The outcome of a loop over [::send]. *)
Definition flushed (i : nat) (s s' : Client) : Prop :=
  upd i s s' /\ at_conn i s' writes /\ (at_conn i s reads -> at_conn i s' reads).

Lemma flushed_blocked i c s x :
  conns s !! i = Some c -> flushed i s (set_conn i (c <| blocked := true |>) (s <| sends := x |>)).
Proof.
  intros Hc. split_and!.
  - etrans; [by apply (upd_frame i s (s <| sends := x |>))|]. apply (upd_set i c); [done..|]. intros []. by split.
  - by apply at_set.
  - intros Hr. apply at_set. exact (Hr c Hc).
Qed.
Lemma flushed_fail i e s x : flushed i s (fail i e (s <| sends := x |>)).
Proof.
  split_and!.
  - etrans; [by apply (upd_frame i s (s <| sends := x |>))|]. apply upd_fail.
  - apply at_fail, dead_writes.
  - intros _. apply at_fail, dead_reads.
Qed.
Lemma flushed_after i s s1 s' : upd i s s1 -> (at_conn i s reads -> at_conn i s1 reads) -> flushed i s1 s' -> flushed i s s'.
Proof. intros Hu Hr (H1 & H2 & H3). split_and!; [by etrans|done|auto]. Qed.

Lemma flush_loop_ok answers i : forall s, (0 <= msg o)%Z -> flushed i s (flush_loop answers i s).
Proof.
  intros s Hm. revert s. induction answers as [|a answers IH]; intros s; simpl; (destruct (conns s !! i) as [c|] eqn:Hc;
    [|split_and!; [done|intros c Hc'; congruence|done]]);
  (destruct (Z.leb_spec (to_write c) 0) as [Hw|Hw];
    [split_and!; [by apply upd_frame|intros c' Hc'; simpl in Hc'; simplify_eq; unfold writes; lia|done]|]);
  (eapply flushed_after; [exact (upd_slice i c s Hm Hc Hw)|done|]);
  set (s1 := s <| slices := _ |>); assert (Hc1 : conns s1 !! i = Some c) by exact Hc.
  - exact (flushed_blocked i c s1 [] Hc1).
  - destruct a as [n|e].
    + destruct (Z.ltb_spec 0 (Z.min (Z.of_nat n) (chunk c))) as [Hn|Hn]; [|exact (flushed_fail i EPIPE s1 answers)].
      eapply flushed_after; [|..|apply IH].
      * apply (upd_set i c); [done..|]. intros []. split; simpl; [|done|done].
        assert (chunk c <= to_write c)%Z by (unfold chunk; case_match; bool_prop; lia). lia.
      * intros Hr. apply at_set. exact (Hr c Hc1).
    + case_match; [exact (flushed_blocked i c s1 answers Hc1)|exact (flushed_fail i e s1 answers)].
Qed.

Lemma flushWrite_ok i s : (0 <= msg o)%Z -> flushed i s (flushWrite i s).
Proof. apply flush_loop_ok. Qed.

(** Starting the next request and writing what goes. *)
Lemma request_ok i s : (0 <= msg o)%Z -> flushed i s (flushWrite i (startRequest i s)).
Proof.
  intros Hm. eapply flushed_after; [apply upd_startRequest| |by apply flushWrite_ok].
  intros Hr c. unfold startRequest. destruct (conns s !! i) as [c'|] eqn:Hc; [|congruence]. simpl.
  rewrite list_lookup_insert_eq by (by eapply lookup_lt_Some). intros [= <-]. exact (Hr c' Hc).
Qed.

(** ** The receive loop *)
Definition received (i : nat) (s s' : Client) : Prop :=
  upd i s s' /\ at_conn i s' reads /\ (at_conn i s writes -> at_conn i s' writes).
Lemma received_after i s s1 s' : upd i s s1 -> (at_conn i s writes -> at_conn i s1 writes) -> received i s1 s' -> received i s s'.
Proof. intros Hu Hr (H1 & H2 & H3). split_and!; [by etrans|done|auto]. Qed.
Lemma received_drained i c s x :
  conns s !! i = Some c -> received i s (set_conn i (c <| drained := true |>) (s <| recvs := x |>)).
Proof.
  intros Hc. split_and!.
  - etrans; [by apply (upd_frame i s (s <| recvs := x |>))|]. apply (upd_set i c); [done..|]. intros []. by split.
  - by apply at_set.
  - intros Hr. apply at_set. exact (Hr c Hc).
Qed.
Lemma received_fail i e s x : received i s (fail i e (s <| recvs := x |>)).
Proof.
  split_and!.
  - etrans; [by apply (upd_frame i s (s <| recvs := x |>))|]. apply upd_fail.
  - apply at_fail, dead_reads.
  - intros _. apply at_fail, dead_writes.
Qed.

Lemma on_response_ok i s : (0 <= msg o)%Z -> upd i s (on_response i s) /\ at_conn i (on_response i s) writes.
Proof.
  intros Hm. unfold on_response. destruct (conns s !! i) as [c|] eqn:Hc; [|split; [done|intros c Hc'; congruence]].
  match goal with |- context [startRequest i ?x] => set (s1 := x); destruct (request_ok i s1 Hm) as (H1 & H2 & _) end.
  split; [|done]. etrans; [|exact H1]. split; [|done..]. intros [] _. split; simpl; try done.
  rewrite iv_requests0, zlen_app, wrap64_add_l. f_equal. change (zlen [_]) with 1%Z. lia.
Qed.

Lemma recv_loop_ok answers i : forall s, (0 <= msg o)%Z -> received i s (recv_loop answers i s).
Proof.
  intros s Hm. revert s. induction answers as [|a answers IH]; intros s; simpl; (destruct (conns s !! i) as [c|] eqn:Hc;
    [|split_and!; [done|intros c Hc'; congruence|done]]);
  (case_bool_decide as Hd; [split_and!; [by apply upd_frame|intros c' Hc'; simpl in Hc'; simplify_eq; by apply dead_reads|done]|]).
  - exact (received_drained i c s [] Hc).
  - destruct a as [[|n]|e]; [exact (received_fail i ECONNRESET s answers)| |
      case_match; [exact (received_drained i c s answers Hc)|exact (received_fail i e s answers)]].
    eapply received_after; [|..|apply IH].
    + etrans; [apply (upd_set i c (c <| to_read := (to_read c - Z.min (to_read c) (Z.of_nat (S n)))%Z |>)); [done..|intros []; by split]|].
      case_match; [by apply on_response_ok|done].
    + intros Hw. case_match; [by apply on_response_ok|]. apply at_set. exact (Hw c Hc).
Qed.

(** ** Events *)
Definition kept (i : nat) (s s' : Client) : Prop :=
  upd i s s' /\ (at_conn i s reads -> at_conn i s' reads) /\ (at_conn i s writes -> at_conn i s' writes).
Lemma unaltered_refl i s : kept i s s.
Proof. by split_and!. Qed.
Lemma unaltered_trans i s1 s2 s3 : kept i s1 s2 -> kept i s2 s3 -> kept i s1 s3.
Proof. intros (H1 & H2 & H3) (H4 & H5 & H6). split_and!; [by etrans|auto..]. Qed.
Lemma kept_fail i e s : kept i s (fail i e s).
Proof. split_and!; [apply upd_fail|intros _; apply at_fail, dead_reads|intros _; apply at_fail, dead_writes]. Qed.
Lemma kept_flushed i s s' : flushed i s s' -> kept i s s'.
Proof. intros (H1 & H2 & H3). by split_and!. Qed.

Lemma upd_open i c s :
  conns s !! i = Some c -> st c = kConnecting ->
  upd i s (set_conn i (c <| st := kOpen |>) (s <| connected := (connected s + 1)%Z |>)).
Proof.
  intros Hc Hst. split; simpl; [|by intros; apply list_lookup_insert_ne|by eapply conns_insert_fd|done|].
  2: { intros Hb. exfalso. by apply (Hb c Hc). }
  intros Hi Hr. pose proof (fresh_insert i (c <| st := kOpen |>) s Hi Hr) as Hfresh.
  assert (Hfd : (0 <= fd c)%Z) by (destruct Hr as (c' & Hc' & ?); congruence).
  pose proof (tally_insert (one_if kOpen) _ _ c (c <| st := kOpen |>) Hc) as Ho.
  pose proof (tally_insert (one_if kDead) _ _ c (c <| st := kOpen |>) Hc) as Hx.
  unfold one_if at 3 4 in Ho. unfold one_if at 3 4 in Hx. simpl in Ho, Hx. rewrite Hst in Ho, Hx. simpl in Ho, Hx.
  destruct (live_insert _ _ _ Hc) as (rest & Hl & Hl'). destruct Hi. split; simpl; try done; try lia.
  - by rewrite length_insert.
  - apply Forall_insert; [done|]. pose proof (Forall_lookup_1 _ _ _ _ iv_conns0 Hc) as []. by split.
  - rewrite Hl', iv_fds0, Hl. unfold live_fd. simpl. by rewrite Hst.
  - intros Ht. destruct (iv_traffic0 Ht) as [Hall Hop]. split; [|done]. by apply Forall_insert.
Qed.

Lemma on_connected_ok i s :
  (0 <= msg o)%Z -> state_of i s = Some kConnecting -> kept i s (on_connected i s).
Proof.
  intros Hm Hst. unfold on_connected, state_of in *. destruct (conns s !! i) as [c|] eqn:Hc; [|done]. simplify_eq/=.
  assert (Hse : forall s1, conns s1 = conns s -> upd i s s1 -> kept i s
    (if negb ((next_so_error s).1 =? 0)%Z then fail i (next_so_error s).1 s1
     else let s := set_conn i (c <| st := kOpen |>) (s1 <| connected := (connected s1 + 1)%Z |>) in
      let s := tick (s <| connect_us := connect_us s ++ [(now s - connect_start c)%Z] |>) in
      if traffic s && (0 <? msg o)%Z then flushWrite i (startRequest i s) else s)).
  { intros s1 Hcs Hu. assert (H1 : kept i s s1) by (split_and!; [done|unfold at_conn; by rewrite Hcs..]).
    eapply unaltered_trans; [exact H1|]. case_match; [apply kept_fail|]. cbv zeta.
    set (s2 := set_conn i _ _). assert (Hc1 : conns s1 !! i = Some c) by (by rewrite Hcs).
    assert (H2 : kept i s1 s2).
    { split_and!; [by apply upd_open| |]; intros Hp; apply at_set; intros _; apply (Hp c Hc1); congruence. }
    eapply unaltered_trans; [exact H2|]. set (s3 := tick _).
    assert (H3 : kept i s2 s3) by (split_and!; [by apply upd_frame|done..]).
    eapply unaltered_trans; [exact H3|]. case_match; [by apply kept_flushed, request_ok|apply unaltered_refl]. }
  unfold next_so_error in *. destruct (so_errors s) as [|e rest].
  - by apply (Hse s).
  - by apply (Hse (s <| so_errors := rest |>)); [|apply upd_frame].
Qed.

Lemma readiness_ok e i s :
  upd i s (readiness e i s) /\ (has e EPOLLIN = false -> at_conn i s reads -> at_conn i (readiness e i s) reads) /\
  (has e EPOLLOUT = false -> at_conn i s writes -> at_conn i (readiness e i s) writes).
Proof.
  unfold readiness. destruct (conns s !! i) as [c|] eqn:Hc; [|done]. split_and!.
  - apply (upd_set i c); [done..|]. intros []. by split.
  - intros -> Hr. apply at_set. unfold reads. simpl. rewrite andb_true_r. exact (Hr c Hc).
  - intros -> Hr. apply at_set. unfold writes. simpl. rewrite andb_true_r. exact (Hr c Hc).
Qed.

Lemma is_open_spec i s : is_open i s = true -> at_conn i s begun.
Proof.
  unfold is_open, state_of, begun. intros Ho c Hc. rewrite Hc in Ho. apply bool_decide_eq_true_1 in Ho. simplify_eq/=. congruence.
Qed.

Lemma on_event_ok e i s : (0 <= msg o)%Z -> kept i s (on_event s (i, e)).
Proof.
  intros Hm. unfold on_event. case_bool_decide; [apply unaltered_refl|].
  match goal with |- context [negb (is_open i ?x)] => set (s1 := x) end.
  assert (H1 : kept i s s1).
  { unfold s1. case_match; bool_prop; [by apply on_connected_ok|apply unaltered_refl]. }
  eapply unaltered_trans; [exact H1|]. clearbody s1. clear dependent s.
  destruct (is_open i s1) eqn:Eo; [|apply unaltered_refl]. simpl negb. cbv iota. apply is_open_spec in Eo.
  destruct (readiness_ok e i s1) as (U2 & R2 & W2). set (s2 := readiness e i s1) in *.
  set (s3 := if has e EPOLLIN then recv_loop (recvs s2) i s2 else s2).
  assert (H3 : upd i s1 s3 /\ (at_conn i s1 reads -> at_conn i s3 reads) /\ (at_conn i s2 writes -> at_conn i s3 writes)).
  { unfold s3. destruct (has e EPOLLIN) eqn:Ei; [|by split_and!; auto].
    destruct (recv_loop_ok (recvs s2) i s2 Hm) as (H4 & H5 & H6). split_and!; [by etrans|done|done]. }
  clearbody s3. destruct H3 as (U3 & R3 & W3). pose proof (u_begun _ _ _ U3 Eo) as B3.
  set (s4 := if is_open i s3 && has e EPOLLOUT && queued i s3 then flushWrite i s3 else s3).
  assert (H4 : kept i s1 s4).
  { unfold s4. destruct (is_open i s3 && has e EPOLLOUT && queued i s3) eqn:E4.
    - destruct (flushWrite_ok i s3 Hm) as (U4 & W4 & R4). split_and!; [by etrans|auto|done].
    - split_and!; [done|done|]. intros Hw. destruct (has e EPOLLOUT) eqn:Eout; [|by auto].
      intros c Hc Hd Hq. exfalso. assert (Ho : is_open i s3 = true).
      { unfold is_open, state_of. rewrite Hc. simpl. apply bool_decide_eq_true_2. pose proof (B3 c Hc). unfold begun in *. by destruct (st c). }
      rewrite Ho in E4. unfold queued in E4. rewrite Hc in E4. simpl in E4. by apply Z.ltb_nlt in E4. }
  eapply unaltered_trans; [exact H4|]. case_match; [apply kept_fail|apply unaltered_refl].
Qed.

(** ** Iterations *)

(** No edge is lost: what an open connection could read was read until [EAGAIN],
    and what it has left to write waits for a readiness that will be reported. *)
Definition settled (c : Conn) : Prop := reads c /\ writes c.
Record good (s : Client) : Prop := {
  gd_inv : inv s;
  gd_settled : Forall settled (conns s);
}.

Lemma good_at i s : good s -> at_conn i s reads /\ at_conn i s writes.
Proof. intros [_ Hs]. split; intros c Hc; by apply (Forall_lookup_1 _ _ _ _ Hs Hc). Qed.

Lemma kept_good i s s' : kept i s s' -> registered i s -> good s -> good s'.
Proof.
  intros (U & R & W) Hr Hg. destruct (good_at i s Hg) as [Hre Hwr]. split; [by apply U; [apply Hg|]|].
  apply Forall_lookup. intros j c Hc. destruct (decide (j = i)) as [->|Hne].
  - split; [by apply (R Hre)|by apply (W Hwr)].
  - rewrite (u_only _ _ _ U) in Hc by done. by eapply Forall_lookup_1; [apply Hg|].
Qed.
Lemma kept_registered i j s s' : kept i s s' -> registered j s -> registered j s'.
Proof.
  intros (U & _ & _) Hr. destruct (decide (j = i)) as [->|Hne]; [by eapply upd_registered|].
  destruct Hr as (c & Hc & Hfd). exists c. by rewrite (u_only _ _ _ U).
Qed.

Lemma good_frame s s' :
  conns s' = conns s -> errors s' = errors s -> opened s' = opened s -> connected s' = connected s ->
  failed s' = failed s -> requests s' = requests s -> req_us s' = req_us s -> traffic s' = traffic s ->
  created s' = created s -> closed s' = closed s -> slices s' = slices s -> good s -> good s'.
Proof. intros E1 E2 E3 E4 E5 E6 E7 E8 E9 E10 E11 [Hi Hs]. split; [by apply (inv_frame s s')|by rewrite E1]. Qed.

Lemma fail_opened i e s x : (fail i e s) <| opened := x |> = fail i e (s <| opened := x |>).
Proof. unfold fail. simpl. destruct (conns s !! i) as [c|]; [|done]. by case_bool_decide. Qed.

(** A connection comes into being, or its [socket] fails. *)
Lemma open_slot s f a :
  good s -> (opened s < conns_ o)%Z ->
  let i := Z.to_nat (opened s) in
  let c := Conn_new <| fd := Z.of_nat f |> <| connect_start := a |> in
  good ((set_conn i c (s <| created := created s ++ [Z.of_nat f] |>)) <| opened := (opened s + 1)%Z |>) /\
  forall e, good ((set_conn i (Conn_new <| fd := (-1)%Z |> <| st := kDead |>) (count_error e s)) <| opened := (opened s + 1)%Z |>).
Proof.
  intros [Hi Hs] Hlt i c. pose proof (iv_opened _ Hi) as [Hge Hle]. pose proof (iv_len _ Hi) as Hlen.
  destruct (lookup_lt_is_Some_2 (conns s) i) as [c0 Hc0]; [lia|].
  pose proof (iv_fresh _ Hi i c0 Hc0 ltac:(lia)) as ->.
  destruct (live_insert _ _ _ Hc0) as (rest & Hl & Hl'). change (live_fd Conn_new) with (@nil Z) in Hl. simpl in Hl.
  assert (Htr : traffic s = true -> False) by (intros Ht; destruct (iv_traffic _ Hi Ht); lia).
  assert (Hfresh : forall c' j d, <[i := c']> (conns s) !! j = Some d -> (opened s + 1 <= Z.of_nat j)%Z -> d = Conn_new).
  { intros c' j d Hj Hge'. rewrite list_lookup_insert_ne in Hj by lia. apply (iv_fresh _ Hi j d Hj). lia. }
  assert (Hck : forall c', to_write c' = 0%Z -> split_at c' = 0%Z -> st c' <> kOpen -> Forall conn_ok (<[i := c']> (conns s))).
  { intros c' H1 H2 H3. apply Forall_insert; [apply Hi|]. pose proof (wrap64_range (msg o * inflight o)) as [? ?].
    split; [rewrite H1; unfold batch; lia|lia|done]. }
  pose proof (fun x c' => tally_insert (one_if x) _ _ _ c' Hc0) as Ht. unfold one_if at 3 4 in Ht. simpl in Ht.
  split; [|intros e]; (split; [|simpl; by apply Forall_insert]).
  - destruct Hi. split; simpl; try done; [by rewrite length_insert|lia|by apply Hfresh|by apply Hck|rewrite Ht; simpl; lia..|].
    rewrite Hl', iv_fds0, Hl. unfold c, live_fd. simpl. destruct (Z.ltb_spec (Z.of_nat f) 0); [lia|]. simpl.
    rewrite <-app_assoc. f_equiv. apply Permutation_app_comm.
  - destruct Hi. split; simpl; try done; [by rewrite length_insert|lia|by apply Hfresh|by apply Hck|rewrite Ht; simpl; lia..| |].
    + rewrite total_count. lia.
    + rewrite Hl', iv_fds0, Hl. done.
Qed.

Lemma open_one_ok s :
  good s -> (opened s < conns_ o)%Z -> opened (open_one s) = opened s /\ good ((open_one s) <| opened := (opened s + 1)%Z |>).
Proof.
  intros Hg Hlt. unfold open_one. set (i := Z.to_nat (opened s)).
  destruct (lookup_lt_is_Some_2 (conns s) i) as [c Hc].
  { rewrite (iv_len _ (gd_inv _ Hg)). pose proof (iv_opened _ (gd_inv _ Hg)). lia. }
  pose proof (iv_fresh _ (gd_inv _ Hg) i c Hc ltac:(pose proof (iv_opened _ (gd_inv _ Hg)); lia)) as ->. rewrite Hc.
  assert (Hnext : exists a s1, next_socket s = (a, s1) /\ conns s1 = conns s /\ opened s1 = opened s /\ good s1).
  { unfold next_socket. destruct (sockets s) as [|a rest]; eexists _, _; split_and!; try done. by apply (good_frame s). }
  destruct Hnext as (a & s1 & -> & Hc1 & Ho1 & Hg1).
  assert (Ei : i = Z.to_nat (opened s1)) by (by rewrite Ho1). clearbody i. subst i. rewrite <-Ho1 in Hlt |- *.
  destruct a as [e|f ce].
  - split; [done|]. exact (proj2 (open_slot s1 0 0 Hg1 Hlt) e).
  - set (s2 := tick _). assert (Hc2 : conns s2 !! Z.to_nat (opened s1) = Some (Conn_new <| fd := Z.of_nat f |> <| connect_start := now s1 |>)).
    { simpl. apply list_lookup_insert_eq. rewrite Hc1. by eapply lookup_lt_Some. }
    assert (Hg2 : good (s2 <| opened := (opened s1 + 1)%Z |>)).
    { apply (good_frame _ _) with (12 := proj1 (open_slot s1 f (now s1) Hg1 Hlt)); done. }
    destruct ce as [e|]; [|done]. case_match; [done|]. split.
    { unfold fail. rewrite Hc2. by case_bool_decide. }
    rewrite fail_opened. apply (kept_good _ _ _ (kept_fail _ e _)); [|done]. eexists. split; [exact Hc2|]. simpl. lia.
Qed.

Lemma open_loop_ok burst a : forall s, (a <= conns_ o)%Z -> good s -> good (open_loop burst a s).
Proof.
  induction burst as [|burst IH]; intros s Ha Hg; simpl; [done|]. destruct (Z.ltb_spec (opened s) a); [|done].
  destruct (open_one_ok s Hg ltac:(lia)) as [E Hg']. apply IH; [done|]. by rewrite E.
Qed.

Lemma open_phase_ok s : good s -> good (open_phase s).
Proof.
  intros Hg. apply open_loop_ok; [unfold allowed; case_match; lia|]. by apply (good_frame s).
Qed.

Lemma start_if_open_ok s i : (0 <= msg o)%Z -> good s -> good (start_if_open s i).
Proof.
  intros Hm Hg. unfold start_if_open. destruct (conns s !! i) as [c|] eqn:Hc; [|done]. case_bool_decide as Ho; [|done].
  apply (kept_good i s); [by apply kept_flushed, request_ok| |done]. exists c. split; [done|].
  by apply (Forall_lookup_1 _ _ _ _ (iv_conns _ (gd_inv _ Hg)) Hc).
Qed.

Lemma traffic_phase_ok s : (0 <= msg o)%Z -> good s -> good (traffic_phase s).
Proof.
  intros Hm Hg. unfold traffic_phase. case_match; bool_prop; [|done].
  set (s1 := tick _). assert (Hg1 : good s1).
  { destruct Hg as [Hi Hs]. split; [|done]. pose proof (tally_split (conns s)) as Ht. destruct Hi.
    assert (Hz : tally (one_if kConnecting) (conns s) = 0%Z) by (unfold zlen in Ht; lia).
    split; simpl; try done. intros _. split; [|lia]. apply Forall_forall. intros c. by apply tally_zero. }
  case_match; [|done]. generalize (seq 0 (length (conns s1))). intros l. revert Hg1. generalize s1.
  induction l as [|i l IH]; intros s2 Hg2; [done|]. simpl. by apply IH, start_if_open_ok.
Qed.

Lemma events_ok ready : forall s,
  (0 <= msg o)%Z -> Forall (fun ev => registered ev.1 s) ready -> good s -> good (fold_left on_event ready s).
Proof.
  induction ready as [|[i e] ready IH]; intros s Hm Hr Hg; [done|]. apply Forall_cons in Hr as [Hi Hr]. simpl in *.
  pose proof (on_event_ok e i s Hm) as Hk. apply IH; [done| |by apply (kept_good i s)].
  eapply Forall_impl; [exact Hr|]. intros ev. by apply (kept_registered i).
Qed.

Lemma wait_phase_ok ready s :
  (0 <= msg o)%Z -> good s -> Forall (fun ev => registered ev.1 s) ready ->
  match wait_phase ready s with inl s' => good s' | inr s' => good s' /\ traffic s' = true end.
Proof.
  intros Hm Hg Hr. unfold wait_phase. destruct (traffic s && _) eqn:E; bool_prop; [split; [by apply (good_frame s)|done]|].
  apply events_ok; [done|by destruct (traffic s)|]. destruct (traffic s); [by apply (good_frame s)|done].
Qed.

Lemma iteration_ok ready s :
  (0 <= msg o)%Z -> good s -> Forall (fun ev => registered ev.1 (traffic_phase (open_phase s))) ready ->
  match iteration ready s with inl s' => good s' | inr s' => good s' /\ traffic s' = true end.
Proof. intros Hm Hg Hr. exact (wait_phase_ok ready _ Hm (traffic_phase_ok _ Hm (open_phase_ok s Hg)) Hr). Qed.

Lemma main_start_good : good main_start.
Proof.
  assert (Hall : forall (P : Conn -> Prop) n, P Conn_new -> Forall P (replicate n Conn_new)) by (intros; by apply Forall_replicate).
  assert (Ht : forall x n, x <> kConnecting -> tally (one_if x) (replicate n Conn_new) = 0%Z).
  { intros x n Hx. induction n as [|n IH]; simpl; [done|]. rewrite IH. by destruct x. }
  split; [|by apply Hall]. pose proof (wrap64_range (msg o * inflight o)) as [? ?].
  split; simpl; try done; [by rewrite length_replicate|lia| | |by rewrite Ht..| |].
  - intros i c Hc _. by apply lookup_replicate in Hc as [-> _].
  - apply Hall. split; [simpl; unfold batch; lia|done|done].
  - by assert (live (replicate (Z.to_nat (conns_ o)) Conn_new) = []) as -> by (induction (Z.to_nat (conns_ o)); done).
  - rewrite Z.mul_0_r. done.
Qed.

(** ** The end of the program *)
Definition open_fd (c : Conn) : list Z := if bool_decide (st c = kOpen) then [fd c] else [].

Lemma close_open_all l : forall pre s,
  conns s = pre ++ l ->
  closed (fold_left close_open (seq (length pre) (length l)) s) = closed s ++ concat (map open_fd l).
Proof.
  induction l as [|c l IH]; intros pre s Hc; simpl; [by rewrite app_nil_r|].
  assert (Hlk : conns s !! length pre = Some c) by (rewrite Hc; by rewrite list_lookup_middle).
  assert (H1 : conns (close_open s (length pre)) = (pre ++ [c]) ++ l /\
    closed (close_open s (length pre)) = closed s ++ open_fd c).
  { unfold close_open, open_fd. rewrite Hlk, <-app_assoc. case_bool_decide; simpl; by rewrite ?Hc, ?app_nil_r. }
  destruct H1 as [Hc1 Hcl]. specialize (IH _ _ Hc1). rewrite length_app, Nat.add_1_r in IH. rewrite IH, Hcl. by rewrite <-app_assoc.
Qed.

Lemma live_open l : Forall conn_ok l -> Forall (fun c => st c <> kConnecting) l -> live l = concat (map open_fd l).
Proof.
  unfold live. induction 1 as [|c l Hc _ IH]; intros Hall; [done|]. apply Forall_cons in Hall as [Hn Hall]. simpl.
  rewrite IH by done. f_equal. unfold live_fd, open_fd. destruct (st c) eqn:E; [done| |done]. simpl.
  pose proof (ck_open _ Hc E). by destruct (Z.ltb_spec (fd c) 0); [lia|].
Qed.

Lemma main_end_closes s : good s -> traffic s = true -> closed (main_end s).1 ≡ₚ created s.
Proof.
  intros [Hi _] Ht. destruct (iv_traffic _ Hi Ht) as [Hall _]. simpl.
  pose proof (close_open_all (conns s) [] s eq_refl) as E. simpl in E. rewrite E.
  rewrite <-live_open by (done || apply Hi). symmetry. apply Hi.
Qed.

Lemma reachable_good s : (0 <= msg o)%Z -> rtc step main_start s -> good s.
Proof.
  intros Hm Hr. assert (H0 := main_start_good). revert H0. induction Hr as [|s s1 s2 Hst _ IH]; [done|].
  intros Hg. apply IH. destruct Hst as [sk se ws rs s|ready s s' Hreg E]; [by apply (good_frame s)|].
  pose proof (iteration_ok ready s Hm Hg Hreg) as Hok. by rewrite E in Hok.
Qed.

(** C15: the load generator keeps its books: whatever the kernel answers and in
    whatever order sockets become ready, [connected] and [failed] are the numbers
    of open and dead connections, the failures by errno sum up to [failed], every
    socket created is either held by a live connection or closed exactly once, no
    send reads beyond the payload, and no edge of the edge-triggered polling is
    lost (every open connection was read until [EAGAIN], and what it has left to
    write is waiting for the socket).  When the traffic phase ends the program, every
    socket it created has been closed exactly once. *)
Theorem load_client_accounting s :
  (0 <= msg o)%Z -> rtc step main_start s ->
  (connected s = tally (one_if kOpen) (conns s) /\ failed s = tally (one_if kDead) (conns s) /\
   total (errors s) = failed s) /\
  created s ≡ₚ closed s ++ live (conns s) /\
  Forall (fun p => (0 <= p.1 /\ 0 < p.2 /\ p.1 + p.2 <= payload_size)%Z) (slices s) /\
  Forall (fun c => st c = kOpen -> drained c = true /\ ((0 < to_write c)%Z -> blocked c = true)) (conns s) /\
  (forall s', iteration [] s = inr s' -> closed (main_end s').1 ≡ₚ created s').
Proof.
  intros Hm Hr. pose proof (reachable_good s Hm Hr) as Hg. pose proof (gd_inv _ Hg) as Hi. split_and!; [apply Hi..| |].
  - eapply Forall_impl; [apply (gd_settled _ Hg)|]. intros c [Hre Hw] Ho. split; [apply Hre|apply Hw]; congruence.
  - intros s' E. pose proof (iteration_ok [] s Hm Hg (Forall_nil_2 _)) as Hok. rewrite E in Hok. by apply main_end_closes; apply Hok.
Qed.
End main.

End client.

(** ** Percentiles *)

(** The index is within the vector for every percentile from 0 to 1. *)
Lemma pct_in (v : list Z) (p : Q) : v <> [] -> (0 <= p <= 1)%Q -> pct v p ∈ v.
Proof.
  intros Hv [Hp0 Hp1]. unfold pct. destruct v as [|x v]; [done|]. set (l := x :: v).
  set (q := d_mul p (d_of_Z (zlen l - 1))).
  assert (Hq : (0 <= q <= inject_Z (zlen l - 1))%Q).
  { unfold q. simpl. assert (0 <= inject_Z (zlen l - 1))%Q.
    { change 0%Q with (inject_Z 0). rewrite <-Zle_Qle. unfold l, zlen. simpl. lia. }
    split; [by apply Qmult_le_0_compat|]. pose proof (Qmult_le_compat_r p 1 (inject_Z (zlen l - 1)) Hp1 ltac:(done)) as Hm.
    by rewrite Qmult_1_l in Hm. }
  assert (Ht : (0 <= d_trunc q <= zlen l - 1)%Z).
  { clearbody q. destruct Hq as [Hq0 Hq1]. simpl. pose proof (Qfloor_resp_le _ _ Hq1) as Hf. rewrite Qfloor_Z in Hf.
    destruct (Qle_bool 0 q) eqn:E; [by split; [exact (Qfloor_resp_le 0 q Hq0)|]|].
    apply Qle_bool_iff in Hq0. congruence. }
  assert (Hlt : Z.to_nat (d_trunc q) < length (merge_sort Z.le l)).
  { rewrite (Permutation_length (merge_sort_Permutation Z.le l)). unfold zlen in Ht. lia. }
  apply lookup_lt_is_Some in Hlt as [y Hy]. rewrite Hy. simpl. rewrite <-(merge_sort_Permutation Z.le l).
  by eapply list_elem_of_lookup_2.
Qed.

(** Two connections: one is refused; the other gets half of its first request out
    and waits. *)
Definition demo_options : Options (D := Q) := mkOptions (bs "127.0.0.1") 9100 2 0%Q 5 6 1 [] true false.
Definition demo_clock (n : nat) : Z := Z.of_nat n.
Definition demo_start : Client :=
  kernel [SocketFd 5 None; SocketFd 6 (Some 111%Z)] [0%Z] [IoOk 3; IoError EAGAIN] [] (main_start demo_clock demo_options).
Definition demo_next (ready : list (nat * Z)) (s : Client) : Client :=
  match iteration demo_clock demo_options ready s with inl s' => s' | inr s' => s' end.
Definition demo_connected : Client := demo_next [(0, EPOLLOUT)] demo_start.
Definition demo_writing : Client := demo_next [] demo_connected.

Lemma load_client_accounting_witness :
  (connected demo_writing = 1%Z /\ failed demo_writing = 1%Z /\ closed demo_writing = [6%Z] /\
   slices demo_writing = [(0, 3); (3, 3)]%Z /\ map to_write (conns demo_writing) = [3; 0]%Z) /\
  created demo_writing ≡ₚ closed demo_writing ++ live (conns demo_writing).
Proof.
  split; [split_and!; vm_compute; reflexivity|].
  refine (proj1 (proj2 (load_client_accounting demo_clock demo_options demo_writing _ _))); [vm_compute; discriminate|].
  apply (rtc_l _ _ demo_start); [apply step_kernel|]. apply (rtc_l _ _ demo_connected).
  { apply (step_iteration _ _ [(0, EPOLLOUT)]); [|vm_compute; reflexivity]. repeat constructor.
    eexists. split; [vm_compute; reflexivity|]. vm_compute. discriminate. }
  apply (rtc_once demo_connected demo_writing). apply (step_iteration _ _ []); [constructor|vm_compute; reflexivity].
Defined.
End LoadClient.
