(* ===== verification/TcpServer.v ===== *)
(** * The TCP server and its acceptor (net/tcp_server.h/.cc, net/acceptor.h/.cc)

    The server's state lives on the base loop; its operations run there one
    after the other.  What it does to connections and descriptors is recorded
    in [trace].  A connection's own close may come back inline (same loop) or
    as a later step; [inline] says which connections close at once when asked
    to. *)

From Stdlib Require Import QArith.
From S2P Require Import Prelude StdMap CStr EventLoop Double TokenBucket TcpConnection.
#[local] Open Scope nat_scope.

Module TcpServer.
Import EventLoopThreadPool.

(** What the setters configured for every connection. *)
Record Limits := mkLimits {
  idle_seconds_ : Z;
  write_seconds_ : Z;
  max_input_buffer_size_ : Z;
  max_age_seconds_ : Z;
  has_connection : bool;
  has_message : bool;
  has_write_complete : bool;
}.
#[export] Instance Limits_settable : Settable Limits := fun l =>
  mkLimits (idle_seconds_ l) (write_seconds_ l) (max_input_buffer_size_ l) (max_age_seconds_ l) (has_connection l)
    (has_message l) (has_write_complete l).
Definition Limits_new : Limits := mkLimits 0 0 0 0 false false false.

Inductive event :=
| Closed (fd : Z)                                            (* sockets::close *)
| Overloaded                                                 (* overload_callback_ *)
| Established (name : bytes) (fd : Z) (loop : nat) (s : TcpConnection.Settings)
| Destroyed (name : bytes)                                   (* connectDestroyed on its loop *)
| DrainAsked (name : bytes)                                  (* drain callback, then shutdown() *)
| ForceClosed (name : bytes)
| DrainComplete.

Record TcpServer {D : Type} := mkServer {
  name_ : bytes;
  ip_port_ : bytes;
  limits : Limits;
  has_overload : bool;
  max_connections_ : nat;
  accept_limiter_ : option (TokenBucket.TokenBucket D);
  thread_pool_ : EventLoopThreadPool;
  started_ : bool;
  draining_ : bool;
  listening_ : bool;                   (* of the acceptor *)
  drain_complete_callback_ : bool;     (* set and not yet fired *)
  drain_deadline : option Z;           (* the armed force-close timer, in ms *)
  next_conn_id_ : Z;
  connections_ : stdmap bytes (Z * nat);
  handed : list Z;                     (* the descriptors given to newConnection *)
  trace : list event;
}.
Arguments TcpServer D : clear implicits.
#[export] Instance TcpServer_settable D : Settable (TcpServer D) := fun s =>
  mkServer D (name_ s) (ip_port_ s) (limits s) (has_overload s) (max_connections_ s) (accept_limiter_ s)
    (thread_pool_ s) (started_ s) (draining_ s) (listening_ s) (drain_complete_callback_ s)
    (drain_deadline s) (next_conn_id_ s) (connections_ s) (handed s) (trace s).

Section server.
Context {D : Type} `{Double D}.
Implicit Types s : TcpServer D.

Definition TcpServer_new (name ip_port : bytes) (l : Limits) (overload : bool) (max_connections : nat)
    (base : nat) : TcpServer D :=
  mkServer D name ip_port l overload max_connections None (EventLoopThreadPool.start base []) false false false
    false None 1 [] [] [].

Definition log (e : event) s : TcpServer D := s <| trace := trace s ++ [e] |>.

Definition setAcceptRateLimit (qps burst : D) (now : Z) s : TcpServer D :=
  if d_lt (d_of_Z 0) qps
  then s <| accept_limiter_ := Some (TokenBucket.TokenBucket_new qps burst now) |>
  else s <| accept_limiter_ := None |>.

(** The setters; of a callback, whether it is not empty. *)
Definition setIdleTimeout (idle_seconds : Z) s : TcpServer D := s <| limits := (limits s) <| idle_seconds_ := idle_seconds |> |>.
Definition setWriteTimeout (write_seconds : Z) s : TcpServer D :=
  s <| limits := (limits s) <| write_seconds_ := write_seconds |> |>.
Definition setMaxInputBufferSize (max_bytes : Z) s : TcpServer D :=
  s <| limits := (limits s) <| max_input_buffer_size_ := max_bytes |> |>.
Definition setMaxConnectionAge (max_age_seconds : Z) s : TcpServer D :=
  s <| limits := (limits s) <| max_age_seconds_ := max_age_seconds |> |>.
Definition setMaxConnections (max_connections : nat) s : TcpServer D := s <| max_connections_ := max_connections |>.
Definition setConnectionCallback (cb : bool) s : TcpServer D := s <| limits := (limits s) <| has_connection := cb |> |>.
Definition setMessageCallback (cb : bool) s : TcpServer D := s <| limits := (limits s) <| has_message := cb |> |>.
Definition setWriteCompleteCallback (cb : bool) s : TcpServer D :=
  s <| limits := (limits s) <| has_write_complete := cb |> |>.
Definition setOverloadCallback (cb : bool) s : TcpServer D := s <| has_overload := cb |>.
Definition connectionCount s : nat := length (connections_ s).

(** [Acceptor::listen] and [Acceptor::stopListening]: read interest in the
    listening socket. *)
Definition listen s : TcpServer D := s <| listening_ := true |>.
Definition stopListening s : TcpServer D := s <| listening_ := false |>.

(** [start()]: idempotent; [io_loops] are the loops of the started pool. *)
Definition start (io_loops : list nat) s : TcpServer D :=
  if started_ s then s
  else listen (s <| started_ := true |>
                 <| thread_pool_ := EventLoopThreadPool.start (base_loop_ (thread_pool_ s)) io_loops |>).

(** The settings of a new connection: the callbacks, and the limits that are set. *)
Definition conn_settings s : TcpConnection.Settings :=
  let l := limits s in
  let c := TcpConnection.setConnectionCallback (has_connection l) TcpConnection.Settings_new in
  let c := TcpConnection.setMessageCallback (has_message l) c in
  let c := TcpConnection.setWriteCompleteCallback (has_write_complete l) c in
  let c := TcpConnection.setCloseCallback true c in
  let c := if (0 <? idle_seconds_ l)%Z then TcpConnection.setIdleTimeout (idle_seconds_ l) c else c in
  let c := if (0 <? write_seconds_ l)%Z then TcpConnection.setWriteTimeout (write_seconds_ l) c else c in
  let c := if (0 <? max_input_buffer_size_ l)%Z
           then TcpConnection.setMaxInputBufferSize (max_input_buffer_size_ l) c else c in
  if (0 <? max_age_seconds_ l)%Z then TcpConnection.setMaxConnectionAge (max_age_seconds_ l) c else c.

Definition conn_name s : bytes := name_ s ++ bs "-" ++ ip_port_ s ++ bs "#" ++ to_string (next_conn_id_ s).

(** The accept-rate limiter: [false] to shed the connection. *)
Definition rate_ok (now : Z) s : bool * TcpServer D :=
  match accept_limiter_ s with
  | None => (true, s)
  | Some b => let '(ok, b') := TokenBucket.tryAcquire now b in (ok, s <| accept_limiter_ := Some b' |>)
  end.

(** Accept, then close at once. *)
Definition shed (fd : Z) s : TcpServer D :=
  let s := log (Closed fd) s in if has_overload s then log Overloaded s else s.

Definition newConnection (fd now : Z) s : TcpServer D :=
  let s := s <| handed := handed s ++ [fd] |> in
  if draining_ s then log (Closed fd) s
  else
    let '(ok, s) := rate_ok now s in
    if negb ok then shed fd s
    else if (0 <? max_connections_ s) && (max_connections_ s <=? length (connections_ s)) then shed fd s
    else
      let name := conn_name s in
      let s := s <| next_conn_id_ := (next_conn_id_ s + 1)%Z |> in
      let '(loop, pool) := getNextLoop (thread_pool_ s) in
      let s := s <| thread_pool_ := pool |> <| connections_ := minsert name (fd, loop) (connections_ s) |> in
      log (Established name fd loop (conn_settings s)) s.

Definition maybeFinishDrain s : TcpServer D :=
  if draining_ s && (length (connections_ s) =? 0) && drain_complete_callback_ s
  then log DrainComplete (s <| drain_complete_callback_ := false |>) else s.

Definition removeConnectionInLoop (name : bytes) s : TcpServer D :=
  let s := s <| connections_ := merase name (connections_ s) |> in
  let s := log (Destroyed name) s in
  if draining_ s then maybeFinishDrain s else s.

(** Ask each connection of a copied list; those that close at once come back
    through [removeConnection]. *)
Definition ask_all (ev : bytes -> event) (inline : bytes -> bool) (conns : list bytes) s : TcpServer D :=
  fold_left (fun s name =>
    let s := log (ev name) s in if inline name then removeConnectionInLoop name s else s) conns s.

Definition shutdownInLoop (drain_deadline_seconds : Z) (inline : bytes -> bool) s : TcpServer D :=
  let s := stopListening s in
  let s := ask_all DrainAsked inline (map fst (connections_ s)) s in
  if length (connections_ s) =? 0 then maybeFinishDrain s
  else if (0 <? drain_deadline_seconds)%Z
  then s <| drain_deadline := Some (drain_deadline_seconds * 1000)%Z |> else s.

Definition shutdown (drain_deadline_seconds : Z) (on_complete : bool) (inline : bytes -> bool) s : TcpServer D :=
  if draining_ s then s
  else shutdownInLoop drain_deadline_seconds inline
         (s <| draining_ := true |> <| drain_complete_callback_ := on_complete |>).

Definition forceCloseAllInLoop (inline : bytes -> bool) s : TcpServer D :=
  if length (connections_ s) =? 0 then s
  else ask_all ForceClosed inline (map fst (connections_ s)) s.

(** The deadline timer. *)
Definition deadline (inline : bytes -> bool) s : TcpServer D :=
  match drain_deadline s with
  | Some _ => forceCloseAllInLoop inline (s <| drain_deadline := None |>)
  | None => s
  end.

(** The destructor tears every remaining connection down on its loop. *)
Definition TcpServer_destroy s : TcpServer D :=
  fold_left (fun s c => log (Destroyed c.1) s) (connections_ s) s.

(** ** The acceptor *)
Inductive accept_result := Accepted (fd : Z) | AcceptError (errno : Z).
Definition EINTR : Z := 4.
Definition EAGAIN : Z := 11.
Definition ENFILE : Z := 23.
Definition EMFILE : Z := 24.

(** [Acceptor::handleRead]: [accepts] are the results of the next calls of
    [accept4] (an empty list: no more pending connections); with the spare
    descriptor, [Some] while it could be (re)opened.  Returns the results not
    consumed. *)
Fixpoint handleRead (accepts : list accept_result) (now : Z) (idle_fd_ : bool) (reopened : bool) s
  : list accept_result * bool * TcpServer D :=
  match accepts with
  | [] => ([], idle_fd_, s)
  | Accepted fd :: rest => handleRead rest now idle_fd_ reopened (newConnection fd now s)
  | AcceptError e :: rest =>
    if (e =? EAGAIN)%Z then (rest, idle_fd_, s)
    else if (e =? EINTR)%Z then handleRead rest now idle_fd_ reopened s
    else if (e =? EMFILE)%Z || (e =? ENFILE)%Z then
      if idle_fd_ then
        (* close the spare, accept and close the pending connection, reopen *)
        (tail rest, reopened, s)
      else (rest, idle_fd_, s)
    else (rest, idle_fd_, s)
  end.

(** The connections a round of [handleRead] hands over: every one up to the
    first error other than an interruption. *)
Fixpoint accepted_run (accepts : list accept_result) : list Z :=
  match accepts with
  | [] => []
  | Accepted fd :: rest => fd :: accepted_run rest
  | AcceptError e :: rest => if (e =? EINTR)%Z then accepted_run rest else []
  end.

Lemma newConnection_handed fd now s : handed (newConnection fd now s) = handed s ++ [fd].
Proof.
  unfold newConnection. case_match; [done|]. unfold rate_ok.
  destruct (accept_limiter_ _) as [b|]; [destruct (TokenBucket.tryAcquire now b) as [[] b']|]; simpl; unfold shed;
    repeat case_match; done.
Qed.

Lemma handleRead_handed accepts now idle reopened : forall s,
  handed (handleRead accepts now idle reopened s).2 = handed s ++ accepted_run accepts.
Proof.
  induction accepts as [|[fd|e] rest IH]; intros s; simpl; [by rewrite app_nil_r| |].
  - by rewrite IH, newConnection_handed, <-app_assoc.
  - destruct (Z.eqb_spec e EAGAIN) as [->|_]; [by rewrite app_nil_r|].
    destruct (e =? EINTR)%Z; [apply IH|]. repeat case_match; by rewrite app_nil_r.
Qed.

(** ** Steps of the base loop *)
Definition established_name (e : event) : option bytes :=
  match e with Established n _ _ _ => Some n | _ => None end.

Inductive step : TcpServer D -> TcpServer D -> Prop :=
| step_start ls s : step s (start ls s)
| step_limit qps burst now s : step s (setAcceptRateLimit qps burst now s)
| step_new fd now s : (next_conn_id_ s < 2 ^ 31 - 1)%Z -> step s (newConnection fd now s)
| step_remove name s : name ∈ omap established_name (trace s) -> step s (removeConnectionInLoop name s)
| step_shutdown secs cb inline s : step s (shutdown secs cb inline s)
| step_deadline inline s : step s (deadline inline s).

(** ** Accounting of connections and descriptors *)
Definition fd_outcome (e : event) : option Z :=
  match e with Closed fd | Established _ fd _ _ => Some fd | _ => None end.
Definition destroyed_name (e : event) : option bytes :=
  match e with Destroyed n => Some n | _ => None end.
Definition drain_mark (e : event) : option unit :=
  match e with DrainComplete => Some tt | _ => None end.

Definition established s : list bytes := omap established_name (trace s).
Definition destroyed s : list bytes := omap destroyed_name (trace s).
Definition name_prefix s : bytes := name_ s ++ bs "-" ++ ip_port_ s ++ bs "#".

Record server_ok s : Prop := {
  ok_cap : 0 < max_connections_ s -> length (connections_ s) <= max_connections_ s;
  ok_fds : omap fd_outcome (trace s) = handed s;
  ok_next : (1 <= next_conn_id_ s < 2 ^ 31)%Z;
  ok_ids : forall n, n ∈ established s ->
    exists i, (1 <= i < next_conn_id_ s)%Z /\ n = name_prefix s ++ to_string i;
  ok_nodup : NoDup (established s);
  ok_destroyed : forall n, n ∈ destroyed s -> n ∈ established s;
  ok_live : forall n, is_Some (mlookup n (connections_ s)) <-> n ∈ established s /\ n ∉ destroyed s;
  ok_sorted : msorted (connections_ s);
}.

(** The part of the state the accounting is about. *)
Definition view s :=
  (max_connections_ s, connections_ s, handed s, next_conn_id_ s, name_prefix s,
   (omap fd_outcome (trace s), established s, destroyed s)).

Lemma ok_view s s' : view s' = view s -> server_ok s -> server_ok s'.
Proof.
  intros E []. injection E as E1 E2 E3 E4 E5 E6 E7 E8.
  split; rewrite ?E1, ?E2, ?E3, ?E4, ?E5, ?E6, ?E7, ?E8; done.
Qed.

Lemma view_log e s :
  fd_outcome e = None -> established_name e = None -> destroyed_name e = None -> view (log e s) = view s.
Proof.
  intros H1 H2 H3. unfold view, established, destroyed. simpl. rewrite !omap_app. cbn. rewrite H1, H2, H3.
  by rewrite !app_nil_r.
Qed.

(** A descriptor closed instead of becoming a connection. *)
Lemma ok_closed fd s :
  server_ok s -> server_ok (log (Closed fd) (s <| handed := handed s ++ [fd] |>)).
Proof.
  intros [? Hf ? Hi Hnd Hde Hl Hso]. split; simpl; try done.
  - rewrite omap_app, Hf. done.
  - unfold established. simpl. rewrite omap_app. simpl. rewrite app_nil_r. exact Hi.
  - unfold established. simpl. by rewrite omap_app, app_nil_r.
  - unfold established, destroyed. simpl. by rewrite !omap_app, !app_nil_r.
  - unfold established, destroyed. simpl. by rewrite !omap_app, !app_nil_r.
Qed.

Lemma name_fresh s : server_ok s -> conn_name s ∉ established s.
Proof.
  intros [_ _ Hn Hi _ _ _ _] Hin. destruct (Hi _ Hin) as (i & Hr & He). unfold conn_name in He.
  assert (E : to_string (next_conn_id_ s) = to_string i).
  { unfold name_prefix in He. rewrite !app_assoc in He. by apply app_inv_head in He. }
  apply (f_equal (strtoul 10)) in E. rewrite !strtoul_to_string in E; [lia|split..]; rewrite ?two64_val; lia.
Qed.

Lemma ok_established fd loop pool st s :
  server_ok s -> (next_conn_id_ s < 2 ^ 31 - 1)%Z ->
  (0 < max_connections_ s -> length (connections_ s) < max_connections_ s) ->
  server_ok (log (Established (conn_name s) fd loop st)
    ((((s <| handed := handed s ++ [fd] |>) <| next_conn_id_ := (next_conn_id_ s + 1)%Z |>)
        <| thread_pool_ := pool |>) <| connections_ := minsert (conn_name s) (fd, loop) (connections_ s) |>)).
Proof.
  intros Hok Hlt Hroom. pose proof (name_fresh s Hok) as Hfresh. pose proof Hok as [Hcap Hf Hn Hi Hnd Hde Hl Hso].
  set (n := conn_name s) in *.
  set (s' := log _ _). assert (He : established s' = established s ++ [n]).
  { unfold s', established. simpl. by rewrite omap_app. }
  assert (Hd : destroyed s' = destroyed s).
  { unfold s', destroyed. simpl. by rewrite omap_app, app_nil_r. }
  split; rewrite ?He, ?Hd.
  - simpl. intros H0. pose proof (length_minsert_le n (fd, loop) (connections_ s)). specialize (Hroom H0). lia.
  - simpl. by rewrite omap_app, Hf.
  - simpl. lia.
  - intros m [Hm|Hm%list_elem_of_singleton]%elem_of_app.
    + destruct (Hi m Hm) as (i & ? & ->). exists i. split; [simpl; lia|done].
    + subst m. exists (next_conn_id_ s). split; [simpl; lia|]. change (name_prefix s') with (name_prefix s).
      unfold name_prefix, n, conn_name. by rewrite <-!app_assoc.
  - apply NoDup_app. split_and!; [done| |apply NoDup_singleton].
    intros m Hm ->%list_elem_of_singleton. done.
  - intros m Hm. apply elem_of_app. left. by apply Hde.
  - intros m. simpl. destruct (decide (m = n)) as [->|Hne].
    + rewrite mlookup_insert_eq. split; [|by eauto]. intros _. split; [apply elem_of_app; right; by left|].
      intros Hx. by apply Hfresh, Hde.
    + rewrite mlookup_insert_ne by done. rewrite Hl, elem_of_app, list_elem_of_singleton.
      split; [intros [? ?]; by split; [left|]|intros [[?|?] ?]; by split].
  - by apply msorted_insert.
Qed.

Lemma rate_ok_view now s : view (rate_ok now s).2 = view s /\ next_conn_id_ (rate_ok now s).2 = next_conn_id_ s /\
  draining_ (rate_ok now s).2 = draining_ s.
Proof. unfold rate_ok. destruct (accept_limiter_ s) as [b|]; [|done]. by destruct (TokenBucket.tryAcquire now b). Qed.

Lemma ok_newConnection fd now s :
  server_ok s -> (next_conn_id_ s < 2 ^ 31 - 1)%Z -> server_ok (newConnection fd now s).
Proof.
  intros Hok Hlt. unfold newConnection. case_match; [by apply ok_closed|].
  set (s0 := s <| handed := handed s ++ [fd] |>). 
  assert (Ha : exists lim, (rate_ok now s0).2 = (s <| accept_limiter_ := lim |>) <| handed := handed s ++ [fd] |>).
  { unfold rate_ok. destruct (accept_limiter_ s0) as [b|] eqn:E; [destruct (TokenBucket.tryAcquire now b)|]; eexists; cbn; [reflexivity|].
    instantiate (1 := accept_limiter_ s). by destruct s. }
  destruct Ha as [lim Ha]. destruct (rate_ok now s0) as [ok s1]. simpl in Ha. subst s1.
  set (s1 := s <| accept_limiter_ := lim |>). assert (Hok1 : server_ok s1) by exact (ok_view s s1 eq_refl Hok).
  assert (Hshed : server_ok (shed fd (s1 <| handed := handed s ++ [fd] |>))).
  { pose proof (ok_closed fd s1 Hok1) as Hc. unfold shed. case_match; [|exact Hc].
    eapply ok_view; [by apply view_log|exact Hc]. }
  destruct ok; [|exact Hshed]. simpl negb. cbv iota.
  destruct ((0 <? _) && _) eqn:E; [exact Hshed|].
  destruct (getNextLoop _) as [loop pool].
  apply (ok_established fd loop pool _ s1); [done|done|]. simpl in E |- *. intros Hm.
  rewrite (proj2 (Nat.ltb_lt _ _) Hm) in E. simpl in E. by apply Nat.leb_gt.
Qed.

Lemma ok_erase n s :
  server_ok s -> n ∈ established s -> server_ok (log (Destroyed n) (s <| connections_ := merase n (connections_ s) |>)).
Proof.
  intros [Hcap Hf Hn Hi Hnd Hde Hl Hso] Hin. set (s' := log _ _).
  assert (He : established s' = established s) by (unfold s', established; simpl; by rewrite omap_app, app_nil_r).
  assert (Hd : destroyed s' = destroyed s ++ [n]) by (unfold s', destroyed; simpl; by rewrite omap_app).
  split; rewrite ?He, ?Hd; try done.
  - simpl. intros H0. pose proof (length_merase_le n (connections_ s)). specialize (Hcap H0). lia.
  - simpl. by rewrite omap_app, app_nil_r.
  - intros m [Hm|Hm%list_elem_of_singleton]%elem_of_app; [by apply Hde|by subst].
  - intros m. simpl. rewrite elem_of_app, list_elem_of_singleton. destruct (decide (n = m)) as [->|Hne].
    + rewrite mlookup_erase_eq. split; [by intros []|]. intros [_ Hx]. destruct Hx. by right.
    + rewrite mlookup_erase_ne by done. rewrite Hl.
      split; [intros [? Hx]; split; [done|]; intros [|]; [by apply Hx|congruence]|intros [? Hx]; split; [done|]; intros ?; apply Hx; by left].
  - by apply msorted_erase.
Qed.

Lemma maybeFinishDrain_view s : view (maybeFinishDrain s) = view s.
Proof. unfold maybeFinishDrain. case_match; [|done]. by rewrite view_log. Qed.

Lemma ok_remove n s : server_ok s -> n ∈ established s ->
  server_ok (removeConnectionInLoop n s) /\ established (removeConnectionInLoop n s) = established s.
Proof.
  intros Hok Hin. pose proof (ok_erase n s Hok Hin) as H1. unfold removeConnectionInLoop. set (s' := log _ _) in *.
  assert (He : established s' = established s) by (unfold s', established; simpl; by rewrite omap_app, app_nil_r).
  case_match; [|done]. split; [eapply ok_view; [apply maybeFinishDrain_view|done]|].
  rewrite <-He. pose proof (maybeFinishDrain_view s') as Hv. by injection Hv.
Qed.

Lemma ok_ask_all ev inline conns : forall s,
  (forall n, fd_outcome (ev n) = None /\ established_name (ev n) = None /\ destroyed_name (ev n) = None) ->
  server_ok s -> (forall n, n ∈ conns -> n ∈ established s) -> server_ok (ask_all ev inline conns s).
Proof.
  induction conns as [|c conns IH]; intros s Hev Hok Hin; [done|]. cbn.
  destruct (Hev c) as (H1 & H2 & H3). pose proof (view_log (ev c) s H1 H2 H3) as Hv.
  assert (Hok1 : server_ok (log (ev c) s)) by (by eapply ok_view).
  assert (He : established (log (ev c) s) = established s) by (by injection Hv).
  apply IH; [done| |].
  - destruct (inline c); [|done]. apply ok_remove; [done|]. rewrite He. apply Hin. by left.
  - intros n Hn. destruct (inline c); [|rewrite He; apply Hin; by right].
    destruct (ok_remove c (log (ev c) s) Hok1) as [_ E]; [rewrite He; apply Hin; by left|].
    rewrite E, He. apply Hin. by right.
Qed.

Lemma connections_established s n : server_ok s -> n ∈ map fst (connections_ s) -> n ∈ established s.
Proof. intros Hok Hn. apply (ok_live _ Hok). apply mlookup_elem_iff; [apply Hok|done]. Qed.

Lemma ok_drain_asked inline s : server_ok s -> server_ok (ask_all DrainAsked inline (map fst (connections_ s)) s).
Proof. intros Hok. apply ok_ask_all; [by intros n; split_and!|done|]. intros n. by apply connections_established. Qed.

Lemma server_step_ok s s' : step s s' -> server_ok s -> server_ok s'.
Proof.
  intros Hs Hok. destruct Hs as [ls s|qps burst now s|fd now s Hlt|name s Hin|secs cb inline s|inline s].
  - unfold start. case_match; [done|]. by eapply ok_view; [|exact Hok].
  - unfold setAcceptRateLimit. case_match; by eapply ok_view; [|exact Hok].
  - by apply ok_newConnection.
  - by apply ok_remove.
  - unfold shutdown. case_match; [done|]. unfold shutdownInLoop.
    match goal with |- context [ask_all DrainAsked inline (map fst (connections_ ?s0)) ?s0] =>
      assert (H1 : server_ok (ask_all DrainAsked inline (map fst (connections_ s0)) s0)) end.
    { apply ok_drain_asked. by eapply ok_view; [|exact Hok]. }
    case_match; [eapply ok_view; [apply maybeFinishDrain_view|done]|].
    case_match; [|done]. by eapply ok_view; [|exact H1].
  - unfold deadline. case_match; [|done]. unfold forceCloseAllInLoop.
    assert (H1 : server_ok (s <| drain_deadline := None |>)) by (by eapply ok_view; [|exact Hok]).
    destruct (_ =? 0); [done|]. apply ok_ask_all; [by intros n; split_and!|done|]. intros n. by apply connections_established.
Qed.

Lemma new_ok name ip_port l overload m base : server_ok (TcpServer_new name ip_port l overload m base).
Proof.
  split; simpl; try done; [lia|by intros n ?%elem_of_nil|constructor| |constructor].
  intros n. split; [by intros []|]. by intros [?%elem_of_nil _].
Qed.

(** ** Graceful drain *)
Definition completions s : nat := length (omap drain_mark (trace s)).

(** Before, during ([pending] may already be false) and after a drain. *)
Definition drain_ok (strict : bool) s : Prop :=
  draining_ s = true /\
  ((drain_complete_callback_ s = true /\ completions s = 0 /\ (strict = true -> connections_ s <> [])) \/
   (drain_complete_callback_ s = false /\ completions s = 1 /\ connections_ s = [])).

Lemma completions_log e s : drain_mark e = None -> completions (log e s) = completions s.
Proof. intros E. unfold completions. simpl. rewrite omap_app. cbn. rewrite E. by rewrite app_nil_r. Qed.

Lemma drain_log b e s : drain_mark e = None -> drain_ok b s -> drain_ok b (log e s).
Proof. intros E [Hd Hc]. split; [done|]. by rewrite completions_log. Qed.

Lemma drain_finish b s : drain_ok b s -> drain_ok true (maybeFinishDrain s).
Proof.
  intros [Hd Hc]. unfold maybeFinishDrain. rewrite Hd. simpl.
  destruct Hc as [(Hcb & Hn & _)|(Hcb & Hn & He)]; rewrite Hcb.
  - destruct (length (connections_ s) =? 0) eqn:E; bool_prop; simpl.
    + split; [done|]. right. split; [done|]. split; [|by apply length_0_nil].
      unfold completions in *. simpl. by rewrite omap_app, length_app, Hn.
    + split; [done|]. left. split_and!; try done. intros _ He. by rewrite He in E.
  - rewrite andb_false_r. split; [done|]. by right.
Qed.

Lemma drain_remove b n s : drain_ok b s -> drain_ok true (removeConnectionInLoop n s).
Proof.
  intros Hd. unfold removeConnectionInLoop. set (s' := log _ _).
  assert (H1 : drain_ok false s').
  { apply drain_log; [done|]. destruct Hd as [Hd Hc]. split; [done|].
    destruct Hc as [(? & ? & _)|(? & ? & He)]; [by left|right]. split_and!; [done|done|]. simpl. by rewrite He. }
  rewrite (proj1 H1 : draining_ s' = true). by eapply drain_finish.
Qed.

Lemma drain_weaken s b : drain_ok true s -> drain_ok b s.
Proof. intros [Hd [(? & ? & ?)|?]]; (split; [done|]); [left|by right]. split_and!; auto. Qed.

Lemma drain_ask_all b ev inline conns : forall s,
  (forall n, drain_mark (ev n) = None) -> drain_ok b s -> drain_ok b (ask_all ev inline conns s).
Proof.
  induction conns as [|c conns IH]; intros s Hev Hd; [done|]. cbn. apply IH; [done|].
  destruct (inline c); [|by apply drain_log]. apply drain_weaken. eapply drain_remove. by apply drain_log.
Qed.

Lemma drain_newConnection b fd now s : drain_ok b s -> drain_ok b (newConnection fd now s).
Proof.
  intros Hd. unfold newConnection. change (draining_ (s <| handed := handed s ++ [fd] |>)) with (draining_ s).
  rewrite (proj1 Hd). apply drain_log; [done|]. exact Hd.
Qed.

Lemma step_drain s s' : step s s' -> drain_ok true s -> drain_ok true s'.
Proof.
  intros Hs Hd. destruct Hs as [ls s|qps burst now s|fd now s Hlt|name s Hin|secs cb inline s|inline s].
  - unfold start. by case_match.
  - unfold setAcceptRateLimit. by case_match.
  - by apply drain_newConnection.
  - by eapply drain_remove.
  - unfold shutdown. by rewrite (proj1 Hd).
  - unfold deadline. case_match; [|done]. unfold forceCloseAllInLoop. case_match; [done|].
    by apply drain_ask_all.
Qed.

Lemma shutdown_drain secs inline s :
  draining_ s = false -> completions s = 0 -> drain_ok true (shutdown secs true inline s).
Proof.
  intros Hd Hc. unfold shutdown. rewrite Hd. unfold shutdownInLoop.
  match goal with |- context [ask_all DrainAsked inline ?l ?s0] =>
    assert (H1 : drain_ok false (ask_all DrainAsked inline l s0)) by (apply drain_ask_all; [done|]; split; [done|]; by left) end.
  case_match eqn:E; bool_prop; [by eapply drain_finish|].
  match goal with |- drain_ok true (if _ then ?s1 <| drain_deadline := _ |> else _) =>
    assert (H2 : drain_ok true s1) end.
  { destruct H1 as [H1 [(H2 & H3 & _)|(_ & _ & He)]]; [|by rewrite He in E].
    split; [done|]. left. split_and!; try done. intros _ He. by rewrite He in E. }
  by case_match.
Qed.

Lemma ask_all_cons ev inline c conns s :
  ask_all ev inline (c :: conns) s =
  ask_all ev inline conns (if inline c then removeConnectionInLoop c (log (ev c) s) else log (ev c) s).
Proof. reflexivity. Qed.

(** Nothing completes before a drain. *)
Lemma draining_finish s : draining_ (maybeFinishDrain s) = draining_ s.
Proof. unfold maybeFinishDrain. by case_match. Qed.
Lemma draining_remove n s : draining_ (removeConnectionInLoop n s) = draining_ s.
Proof. unfold removeConnectionInLoop. case_match; [by rewrite draining_finish|done]. Qed.
Lemma draining_ask_all ev inline conns : forall s, draining_ (ask_all ev inline conns s) = draining_ s.
Proof.
  induction conns as [|c conns IH]; intros s; [done|]. rewrite ask_all_cons, IH. by destruct (inline c); [rewrite draining_remove|].
Qed.
Lemma draining_shutdown secs cb inline s : draining_ (shutdown secs cb inline s) = true.
Proof.
  unfold shutdown. case_match; [done|]. unfold shutdownInLoop. case_match; [by rewrite draining_finish, draining_ask_all|].
  case_match; simpl; by rewrite draining_ask_all.
Qed.

Definition quiescent s : Prop := draining_ s = false -> completions s = 0 /\ drain_deadline s = None.

Lemma quiescent_newConnection fd now s : quiescent s -> quiescent (newConnection fd now s).
Proof.
  intros H0. unfold newConnection. destruct (draining_ (s <| handed := handed s ++ [fd] |>)) eqn:Ed.
  { intros Hd. cbn in Hd, Ed. congruence. }
  set (s0 := s <| handed := _ |>).
  assert (Ha : quiescent (rate_ok now s0).2).
  { unfold rate_ok. destruct (accept_limiter_ s0) as [b|]; [|done]. by destruct (TokenBucket.tryAcquire now b). }
  destruct (rate_ok now s0) as [ok s1]. simpl in Ha.
  assert (Hs : quiescent (shed fd s1)).
  { unfold shed. case_match; intros Hd; rewrite !completions_log by done; by apply Ha. }
  destruct ok; simpl; [|done]. case_match; [done|]. destruct (getNextLoop _) as [loop pool].
  intros Hd. rewrite completions_log by done. by apply Ha.
Qed.

Lemma step_quiescent s s' : step s s' -> quiescent s -> quiescent s'.
Proof.
  intros Hs H0. destruct Hs as [ls s|qps burst now s|fd now s Hlt|name s Hin|secs cb inline s|inline s].
  - unfold start. by case_match.
  - unfold setAcceptRateLimit. by case_match.
  - by apply quiescent_newConnection.
  - unfold quiescent. rewrite draining_remove. intros Hd. unfold removeConnectionInLoop. simpl draining_.
    rewrite Hd, completions_log by done. by apply H0.
  - intros Hd. by rewrite draining_shutdown in Hd.
  - unfold deadline. destruct (drain_deadline s) as [z|] eqn:E; [|done]. unfold quiescent, forceCloseAllInLoop.
    case_match; [simpl; intros Hd|rewrite draining_ask_all; simpl; intros Hd]; destruct (H0 Hd); congruence.
Qed.

(** A draining server takes no connection. *)
Lemma established_log e s : established_name e = None -> established (log e s) = established s.
Proof. intros E. unfold established. simpl. rewrite omap_app. cbn. rewrite E. by rewrite app_nil_r. Qed.
Lemma established_finish s : established (maybeFinishDrain s) = established s.
Proof. unfold maybeFinishDrain. case_match; [|done]. by rewrite established_log. Qed.
Lemma established_remove n s : established (removeConnectionInLoop n s) = established s.
Proof. unfold removeConnectionInLoop. case_match; rewrite ?established_finish; by rewrite established_log. Qed.
Lemma established_ask_all ev inline conns : forall s,
  (forall n, established_name (ev n) = None) -> established (ask_all ev inline conns s) = established s.
Proof.
  induction conns as [|c conns IH]; intros s Hev; [done|]. rewrite ask_all_cons, IH by done.
  destruct (inline c); rewrite ?established_remove; by apply established_log.
Qed.
Lemma established_shutdown secs cb inline s : established (shutdown secs cb inline s) = established s.
Proof.
  unfold shutdown. case_match; [done|]. unfold shutdownInLoop.
  case_match; [by rewrite established_finish, established_ask_all|].
  case_match; [change (established (?x <| drain_deadline := _ |>)) with (established x)|]; by rewrite established_ask_all.
Qed.

Lemma step_drain_established s s' : step s s' -> draining_ s = true -> established s' = established s.
Proof.
  intros Hs Hd. destruct Hs as [ls s|qps burst now s|fd now s Hlt|name s Hin|secs cb inline s|inline s].
  - unfold start. by case_match.
  - unfold setAcceptRateLimit. by case_match.
  - unfold newConnection. simpl draining_. rewrite Hd. by rewrite established_log.
  - apply established_remove.
  - apply established_shutdown.
  - unfold deadline. case_match; [|done]. unfold forceCloseAllInLoop. case_match; [done|]. by rewrite established_ask_all.
Qed.
End server.

(** C20: connection accounting: for every sequence of accepts, closes, drains and
    deadlines, the number of connections respects the cap; every accepted
    descriptor is either closed at once or becomes exactly one connection, in
    order; connection names are never reused; and the map holds exactly the
    connections established and not yet destroyed. *)
Theorem connection_accounting {D : Type} `{Double D} name ip_port l overload m base (s : TcpServer D) :
  rtc step (TcpServer_new name ip_port l overload m base) s ->
  (0 < max_connections_ s -> length (connections_ s) <= max_connections_ s) /\
  omap fd_outcome (trace s) = handed s /\
  NoDup (omap established_name (trace s)) /\
  (forall n, is_Some (mlookup n (connections_ s)) <->
             n ∈ omap established_name (trace s) /\ Destroyed n ∉ trace s).
Proof.
  intros Hr. assert (Hok : server_ok s).
  { pose proof (new_ok name ip_port l overload m base : server_ok (D := D) _) as H0. revert H0. induction Hr; [done|]. eauto using server_step_ok. }
  destruct Hok as [Hcap Hf _ _ Hnd _ Hl _]. split_and!; try done. intros n. rewrite Hl.
  assert (Hdes : n ∈ destroyed s <-> Destroyed n ∈ trace s).
  { unfold destroyed. rewrite list_elem_of_omap. split; [|by exists (Destroyed n)].
    intros ([] & Hin & E); try done. by injection E as ->. }
  by rewrite Hdes.
Qed.

Definition demo_limits : Limits := mkLimits 60 30 0 3600 true true true.
Definition demo_server : TcpServer Q :=
  newConnection 12 0 (newConnection 11 0 (newConnection 10 0
    (start [1; 2] (TcpServer_new (bs "srv") (bs "0.0.0.0:80") demo_limits true 2 0)))).

Lemma demo_reachable :
  rtc step (TcpServer_new (bs "srv") (bs "0.0.0.0:80") demo_limits true 2 0) demo_server.
Proof.
  eapply rtc_l; [exact (step_start [1; 2] _)|].
  eapply rtc_l; [apply (step_new 10 0); vm_compute; reflexivity|].
  eapply rtc_l; [apply (step_new 11 0); vm_compute; reflexivity|].
  eapply rtc_l; [apply (step_new 12 0); vm_compute; reflexivity|].
  exact (rtc_refl _ _).
Qed.

(** Two connections, on alternating loops; the third is shed. *)
Lemma connection_accounting_witness :
  map snd (connections_ demo_server) = [(10%Z, 1); (11%Z, 2)] /\ handed demo_server = [10; 11; 12]%Z /\
  omap fd_outcome (trace demo_server) = handed demo_server.
Proof.
  split; [vm_compute; reflexivity|]. split; [vm_compute; reflexivity|].
  apply (connection_accounting (bs "srv") (bs "0.0.0.0:80") demo_limits true 2 0 demo_server demo_reachable).
Defined.

(** C21: graceful drain: from the call of [shutdown] on, in whatever order
    connections close, are force-closed at the deadline, or keep arriving, no
    connection is added, and the completion callback has fired exactly once if
    all connections are gone, and not at all before that. *)
Theorem drain_completes_once {D : Type} `{Double D} name ip_port l overload m base (s s' : TcpServer D) secs inline :
  rtc step (TcpServer_new name ip_port l overload m base) s -> draining_ s = false ->
  rtc step (shutdown secs true inline s) s' ->
  length (omap drain_mark (trace s')) = (if length (connections_ s') =? 0 then 1 else 0) /\
  omap established_name (trace s') = omap established_name (trace s).
Proof.
  intros Hr Hnd Hr'.
  assert (Hq : quiescent s).
  { assert (H0 : quiescent (D := D) (TcpServer_new name ip_port l overload m base)) by done.
    revert H0. clear Hnd Hr'. induction Hr; [done|]. eauto using step_quiescent. }
  pose proof (shutdown_drain secs inline s Hnd (proj1 (Hq Hnd))) as H0.
  pose proof (established_shutdown secs true inline s) as He.
  assert (Hend : drain_ok true s' /\ established s' = established s).
  { revert Hr' H0 He. generalize (shutdown secs true inline s) as s1, (established s) as e.
    intros s1 e Hr' H0 He. induction Hr' as [|x y z Hstep _ IH]; [done|].
    apply IH; [by eapply step_drain|]. rewrite <-He. by apply step_drain_established; [|apply H0]. }
  destruct Hend as [[_ Hc] He']. split; [|exact He']. unfold completions in Hc.
  destruct Hc as [(_ & -> & Hne)|(_ & -> & ->)]; [|done].
  by destruct (connections_ s'); [destruct (Hne eq_refl)|].
Qed.

(** Draining two connections: one closes by itself, the other at the deadline. *)
Lemma drain_completes_once_witness :
  let s1 := shutdown 30 true (fun _ => false) demo_server in
  let s2 := removeConnectionInLoop (bs "srv-0.0.0.0:80#1") s1 in
  let s3 := deadline (fun _ => true) (newConnection 13 0 s2) in
  (length (connections_ s2) = 1 /\ connections_ s3 = []) /\ length (omap drain_mark (trace s3)) = 1.
Proof.
  intros s1 s2 s3. split; [split; vm_compute; reflexivity|].
  destruct (drain_completes_once (bs "srv") (bs "0.0.0.0:80") demo_limits true 2 0 demo_server s3 30 (fun _ => false))
    as [E _].
  - exact demo_reachable.
  - reflexivity.
  - eapply rtc_l; [apply (step_remove (bs "srv-0.0.0.0:80#1")); apply (bool_decide_unpack _); vm_compute; exact I|].
    eapply rtc_l; [apply (step_new 13 0); vm_compute; reflexivity|].
    eapply rtc_l; [apply (step_deadline (fun _ => true))|]. exact (rtc_refl _ _).
  - rewrite E. vm_compute. reflexivity.
Defined.
End TcpServer.
