(* ===== verification/ServerSystem.v ===== *)
(** * Applications on a TCP server

    What a program on [TcpServer] consists of: the server on the base loop and
    every connection it established, each on its own loop, with the callbacks of
    an application that keeps a state of its own.  The parts meet as in the code:
    through the connection and message callbacks, the close callback that makes
    the server remove a connection, and the tasks that establish and destroy a
    connection on its loop, at any later time. *)

From stdpp Require Import gmap.
From S2P Require Import Prelude StdMap Buffer EventLoop Double TokenBucket TcpConnection TcpFrames TcpServer.
Import Channel TcpConnection TcpFrames.
Open Scope nat_scope.

Module ServerSystem.

(** The callbacks an application installs on a server: what the message callback
    does to the connection and to the application's state, and what the connection
    and overload callbacks do to that state.  Connections are known by name. *)
Class Application (A : Type) := {
  message_conn : A -> bytes -> World -> World;
  message_app : bytes -> Buffer.Buffer -> A -> A;
  connection_app : bytes -> A -> bool -> A;
  overload_app : A -> A;
}.

(** A connection with its name in the server, the fragments it has read (a
    ghost) and whether the server has removed it. *)
Record Session := mkSession {
  name : bytes;
  world : World;
  frags : list bytes;
  gone : bool;
}.

(** What happens to a connection on its loop: the tasks the server posted, a
    readable or writable socket, an expired timer; [Kernel] sets how much the next
    writes will take. *)
Inductive activity :=
| Establish
| Readable (r : Buffer.readv_result)
| Writable
| Expired (id : nat)
| Kernel (rs : list write_result)
| Destroy.

(** The channel is in the poller while the connection is up, and timers are armed
    when it comes up; [connectDestroyed] is posted when the server removes the
    connection. *)
Definition enabled (a : activity) (x : Session) : Prop :=
  match a with
  | Establish => state_ (world x) = kConnecting
  | Readable _ => state_ (world x) <> kConnecting /\ state_ (world x) <> kDisconnected
  | Writable | Expired _ => state_ (world x) <> kConnecting
  | Kernel _ => True
  | Destroy => gone x = true
  end.

(** What an activity reads. *)
Definition fragment (a : activity) : list bytes :=
  match a with Readable (Buffer.ReadvOk ((_ :: _) as s)) => [s] | _ => [] end.

Section system.
Context {A : Type} `{Application A} {D : Type} `{Double D}.
Notation Server := (TcpServer.TcpServer D).

Definition callback (app : A) (n : bytes) (k : cb_kind) (w : World) : World :=
  let w := log (ECallback k) w in
  match k with CbMessage => message_conn app n w | _ => w end.

Definition handle (a : activity) (app : A) (n : bytes) (w : World) : World :=
  match a with
  | Establish => connectEstablished (callback app n) w
  | Readable r => handleRead (callback app n) (fun _ => r) w
  | Writable => handleWrite (callback app n) w
  | Expired id => fire (callback app n) id w
  | Kernel rs => set_writes rs w
  | Destroy => connectDestroyed (callback app n) w
  end.

(** The calls of the connection callback between two states of a connection. *)
Definition tell (n : bytes) (w w' : World) (app : A) : A :=
  fold_left (connection_app n) (drop (length (told w)) (told w')) app.

Definition message (a : activity) (n : bytes) (w : World) (app : A) : A :=
  match a with
  | Readable ((Buffer.ReadvOk (_ :: _)) as r) => message_app n (Buffer.readFd (fun _ => r) (input_buffer_ w)).2 app
  | _ => app
  end.

Definition on_activity (a : activity) (x : Session) (app : A) : Session * A :=
  let w := handle a app (name x) (world x) in
  (mkSession (name x) w (frags x ++ fragment a) (gone x), tell (name x) (world x) w (message a (name x) (world x) app)).

Record System := mkSystem {
  server : Server;
  sessions : list Session;
  app : A;
}.

(** The server's callbacks and the connections it makes. *)
Definition fresh_session (n : bytes) (fd : Z) (s : Settings) : Session :=
  mkSession n (TcpConnection_new fd s EPollPoller.poller_new [] []) [] false.
Definition on_server_event (e : System) (ev : TcpServer.event) : System :=
  match ev with
  | TcpServer.Overloaded => mkSystem (server e) (sessions e) (overload_app (app e))
  | TcpServer.Established n fd _ s => mkSystem (server e) (sessions e ++ [fresh_session n fd s]) (app e)
  | _ => e
  end.

Definition on_accept (fd now : Z) (e : System) : System :=
  let s := TcpServer.newConnection fd now (server e) in
  fold_left on_server_event (drop (length (TcpServer.trace (server e))) (TcpServer.trace s))
    (mkSystem s (sessions e) (app e)).

Definition on_session (i : nat) (a : activity) (e : System) : System :=
  match sessions e !! i with
  | Some x => let '(x', st) := on_activity a x (app e) in mkSystem (server e) (<[i := x']> (sessions e)) st
  | None => e
  end.

(** The close callback reached the base loop. *)
Definition on_removed (i : nat) (e : System) : System :=
  match sessions e !! i with
  | Some x =>
    mkSystem (TcpServer.removeConnectionInLoop (name x) (server e))
      (<[i := mkSession (name x) (world x) (frags x) true]> (sessions e)) (app e)
  | None => e
  end.

Inductive step : System -> System -> Prop :=
| step_accept fd now e :
    (TcpServer.next_conn_id_ (server e) < 2 ^ 31 - 1)%Z -> step e (on_accept fd now e)
| step_session i a x e : sessions e !! i = Some x -> enabled a x -> step e (on_session i a e)
| step_removed i x e :
    sessions e !! i = Some x -> gone x = false -> state_ (world x) = kDisconnected -> step e (on_removed i e).

(** ** The server and its connections *)
Definition overload_mark (ev : TcpServer.event) : option unit :=
  match ev with TcpServer.Overloaded => Some tt | _ => None end.
Definition overloads (s : Server) : Z := zlen (omap overload_mark (TcpServer.trace s)).

Record linked (m : nat) (e : System) : Prop := {
  li_server : TcpServer.server_ok (server e);
  li_names : map name (sessions e) = TcpServer.established (server e);
  li_gone : Forall (fun x => gone x = true <-> name x ∈ TcpServer.destroyed (server e)) (sessions e);
  li_limits : TcpServer.has_connection (TcpServer.limits (server e)) = true /\
              TcpServer.has_message (TcpServer.limits (server e)) = true;
  li_max : TcpServer.max_connections_ (server e) = m;
}.

Lemma names_distinct m e i j x y :
  linked m e -> sessions e !! i = Some x -> sessions e !! j = Some y -> name x = name y -> i = j.
Proof.
  intros Hl Hi Hj E. eapply NoDup_lookup; [apply (TcpServer.ok_nodup _ (li_server _ _ Hl))|..].
  - by rewrite <-(li_names _ _ Hl), list_lookup_fmap, Hi.
  - rewrite <-(li_names _ _ Hl), list_lookup_fmap, Hj. simpl. by rewrite E.
Qed.

#[local] Existing Instance TcpServer.TcpServer_settable.
Lemma newConnection_events fd now (s : Server) :
  let s' := TcpServer.newConnection fd now s in
  TcpServer.limits s' = TcpServer.limits s /\ TcpServer.max_connections_ s' = TcpServer.max_connections_ s /\
  exists evs, TcpServer.trace s' = TcpServer.trace s ++ evs /\
    (evs = [TcpServer.Closed fd] \/ evs = [TcpServer.Closed fd; TcpServer.Overloaded] \/
     exists loop, evs = [TcpServer.Established (TcpServer.conn_name s) fd loop (TcpServer.conn_settings s)]).
Proof.
  unfold TcpServer.newConnection, TcpServer.rate_ok. set (s0 := s <| TcpServer.handed := _ |>).
  case_match; [by eauto 10|].
  assert (Hsh : forall lim, let s1 := s0 <| TcpServer.accept_limiter_ := lim |> in
    TcpServer.limits (TcpServer.shed fd s1) = TcpServer.limits s /\
    TcpServer.max_connections_ (TcpServer.shed fd s1) = TcpServer.max_connections_ s /\
    exists evs, TcpServer.trace (TcpServer.shed fd s1) = TcpServer.trace s ++ evs /\
      (evs = [TcpServer.Closed fd] \/ evs = [TcpServer.Closed fd; TcpServer.Overloaded])).
  { intros lim s1. unfold TcpServer.shed. case_match; (split; [done|split; [done|]]).
    - exists [TcpServer.Closed fd; TcpServer.Overloaded]. split; [simpl; by rewrite <-app_assoc|by right].
    - exists [TcpServer.Closed fd]. split; [done|by left]. }
  destruct (TcpServer.accept_limiter_ s0) as [b|] eqn:Eb.
  - destruct (TokenBucket.tryAcquire now b) as [ok b']. destruct (Hsh (Some b')) as (G1 & G2 & evs & G3 & G4).
    destruct ok; [|simpl; split_and!; [done|done|]; exists evs; naive_solver]. simpl negb. cbv iota.
    case_match; [split_and!; [done|done|]; exists evs; naive_solver|].
    destruct (EventLoopThreadPool.getNextLoop _) as [loop pool]. split_and!; [done..|]. eexists. split; [reflexivity|]. eauto.
  - destruct (Hsh None) as (G1 & G2 & evs & G3 & G4).
    assert (E0 : s0 <| TcpServer.accept_limiter_ := None |> = s0) by (rewrite <-Eb; by destruct s).
    cbn zeta in G1, G2, G3. rewrite E0 in G1, G2, G3. simpl negb. cbv iota.
    case_match; [split_and!; [done|done|]; exists evs; naive_solver|].
    destruct (EventLoopThreadPool.getNextLoop _) as [loop pool]. split_and!; [done..|]. eexists. split; [reflexivity|]. eauto.
Qed.

(** What accepting does: the client is turned away, silently or with the overload
    callback, or there is a new connection under a fresh name. *)
Lemma on_accept_cases m fd now e :
  linked m e -> (TcpServer.next_conn_id_ (server e) < 2 ^ 31 - 1)%Z ->
  let e' := on_accept fd now e in
  linked m e' /\
  ((sessions e' = sessions e /\ app e' = app e /\ overloads (server e') = overloads (server e)) \/
   (sessions e' = sessions e /\ app e' = overload_app (app e) /\ overloads (server e') = (overloads (server e) + 1)%Z) \/
   (exists n s, sessions e' = sessions e ++ [fresh_session n fd s] /\ app e' = app e /\
      overloads (server e') = overloads (server e) /\ n ∉ map name (sessions e) /\
      TcpConnection.has_connection s = true /\ TcpConnection.has_message s = true)).
Proof.
  intros [Hsv Hn Hg [Hlc Hlm] Hm] Hlt. unfold on_accept.
  destruct (newConnection_events fd now (server e)) as (Hl & Hmx & evs & Ht & He). cbn zeta in *.
  pose proof (TcpServer.ok_newConnection fd now _ Hsv Hlt) as Hsv'. pose proof (TcpServer.name_fresh _ Hsv) as Hfr.
  set (s' := TcpServer.newConnection fd now (server e)) in *. clearbody s'. rewrite Ht, drop_app_length.
  assert (Ho : overloads s' = (overloads (server e) + zlen (omap overload_mark evs))%Z) by (unfold overloads; by rewrite Ht, omap_app, zlen_app).
  assert (Hes : TcpServer.established s' = TcpServer.established (server e) ++ omap TcpServer.established_name evs)
    by (unfold TcpServer.established; by rewrite Ht, omap_app).
  assert (Hde : TcpServer.destroyed s' = TcpServer.destroyed (server e) ++ omap TcpServer.destroyed_name evs)
    by (unfold TcpServer.destroyed; by rewrite Ht, omap_app).
  destruct He as [->|[->|[loop ->]]]; cbn [fold_left on_server_event] in *; simpl in Ho, Hes, Hde; rewrite ?app_nil_r in Hes;
    rewrite ?app_nil_r in Hde; cbn in Ho; rewrite ?Z.add_0_r in Ho.
  - split; [|by left]. split; cbn [sessions server]; rewrite ?Hes, ?Hde, ?Hl, ?Hmx; done.
  - split; [|by right; left]. split; cbn [sessions server]; rewrite ?Hes, ?Hde, ?Hl, ?Hmx; done.
  - split.
    + split; cbn [sessions server]; rewrite ?Hes, ?Hde, ?Hl, ?Hmx; try done; [by rewrite map_app, Hn|].
      apply Forall_app. split; [done|]. constructor; [|constructor]. split; [done|]. intros Hin.
      destruct Hfr. by apply (TcpServer.ok_destroyed _ Hsv).
    + right; right. eexists _, _. split_and!; [done|done|exact Ho|by rewrite Hn|..];
        unfold TcpServer.conn_settings; rewrite ?Hlc, ?Hlm; by repeat case_match.
Qed.

Lemma removed_facts n (s : Server) :
  let s' := TcpServer.removeConnectionInLoop n s in
  TcpServer.destroyed s' = TcpServer.destroyed s ++ [n] /\ TcpServer.limits s' = TcpServer.limits s /\
  TcpServer.max_connections_ s' = TcpServer.max_connections_ s /\ overloads s' = overloads s.
Proof.
  unfold TcpServer.removeConnectionInLoop, TcpServer.maybeFinishDrain.
  repeat case_match; split_and!; try done; unfold TcpServer.destroyed, overloads; simpl; rewrite !omap_app; cbn; rewrite ?app_nil_r; done.
Qed.

Lemma on_removed_linked m i x e :
  linked m e -> sessions e !! i = Some x -> gone x = false ->
  linked m (on_removed i e) /\ overloads (server (on_removed i e)) = overloads (server e).
Proof.
  intros Hlk Hi Hgo. pose proof Hlk as [Hsv Hn Hg Hl Hm]. unfold on_removed. rewrite Hi.
  assert (Hni : TcpServer.established (server e) !! i = Some (name x)) by (by rewrite <-Hn, list_lookup_fmap, Hi).
  destruct (TcpServer.ok_remove (name x) (server e) Hsv) as [Hsv' Hes]; [by eapply list_elem_of_lookup_2|].
  destruct (removed_facts (name x) (server e)) as (Hde & Hl' & Hm' & Ho). cbn zeta in *.
  set (s' := TcpServer.removeConnectionInLoop _ _) in *. clearbody s'. set (x' := mkSession _ _ _ true).
  split; [|done]. split; cbn [sessions server]; rewrite ?Hl', ?Hm', ?Hes; try done.
  - rewrite <-Hn, list_fmap_insert. apply list_insert_id. by rewrite list_lookup_fmap, Hi.
  - apply Forall_lookup. intros j y Hy. rewrite Forall_lookup in Hg. rewrite Hde, elem_of_app, list_elem_of_singleton.
    destruct (decide (i = j)) as [<-|Hne].
    + rewrite list_lookup_insert_eq in Hy by (by eapply lookup_lt_Some). injection Hy as <-. naive_solver.
    + rewrite list_lookup_insert_ne in Hy by done. rewrite (Hg j y Hy). split; [by left|]. intros [|E]; [done|].
      destruct Hne. by eapply (names_distinct m e i j x y).
Qed.

Lemma on_session_linked m i a x e : linked m e -> sessions e !! i = Some x -> linked m (on_session i a e).
Proof.
  intros [Hsv Hn Hg Hl Hm] Hi. unfold on_session. rewrite Hi. cbn [on_activity].
  split; cbn [sessions server]; try done.
  - rewrite <-Hn, list_fmap_insert. apply list_insert_id. by rewrite list_lookup_fmap, Hi.
  - apply Forall_insert; [done|]. rewrite Forall_lookup in Hg. exact (Hg i x Hi).
Qed.

(** The connections the server has not removed are those it holds. *)
Definition remaining (e : System) : list bytes := omap (fun x => if gone x then None else Some (name x)) (sessions e).

Lemma remaining_connections m e : linked m e -> remaining e ≡ₚ map fst (TcpServer.connections_ (server e)).
Proof.
  intros [Hsv Hn Hg _ _]. pose proof (TcpServer.ok_nodup _ Hsv) as Hnd. rewrite <-Hn in Hnd.
  apply NoDup_Permutation; [|apply msorted_NoDup, Hsv|].
  - clear Hn Hg. unfold remaining. induction (sessions e) as [|x l IH]; [constructor|]. cbn in Hnd |- *.
    apply NoDup_cons in Hnd as [Hni Hnd]. destruct (gone x); [by apply IH|]. constructor; [|by apply IH].
    intros (y & Hy & E)%list_elem_of_omap. destruct (gone y); [done|]. injection E as E. apply Hni. rewrite <-E.
    by apply list_elem_of_fmap_2.
  - intros n. rewrite <-mlookup_elem_iff, (TcpServer.ok_live _ Hsv), <-Hn by apply Hsv.
    rewrite Forall_forall in Hg. unfold remaining. rewrite list_elem_of_omap, list_elem_of_fmap. split.
    + intros (x & Hx & E). pose proof (Hg x Hx) as Hgx. destruct (gone x); [done|]. injection E as <-.
      split; [by eauto|]. intros Hd. by apply Hgx in Hd.
    + intros [(x & -> & Hx) Hd]. exists x. split; [done|]. pose proof (Hg x Hx) as Hgx. destruct (gone x); [|done].
      destruct Hd. by apply Hgx.
Qed.

(** The connections in a given state. *)
Definition count_in (s : State) (e : System) : Z := tally (fun x => if bool_decide (state_ (world x) = s) then 1%Z else 0%Z) (sessions e).

Lemma count_connected_le m e :
  linked m e -> Forall (fun x => gone x = true -> state_ (world x) = kDisconnected) (sessions e) ->
  (count_in kConnected e <= Z.of_nat (TcpServer.connectionCount (server e)))%Z.
Proof.
  intros Hok Hgo. pose proof (Permutation_length (remaining_connections m e Hok)) as Hl. rewrite length_map in Hl.
  unfold TcpServer.connectionCount. rewrite <-Hl. fold (zlen (remaining e)). unfold count_in, remaining. rewrite zlen_omap.
  apply tally_le. eapply Forall_impl; [exact Hgo|]. intros x Hx. cbn beta in Hx.
  case_bool_decide as Hst; destruct (gone x) eqn:Hgx; try done. by rewrite (Hx eq_refl) in Hst.
Qed.

Lemma connectionCount_cap m e : linked m e -> 0 < m -> TcpServer.connectionCount (server e) <= m.
Proof. intros [Hsv _ _ _ Hm] Hpos. rewrite <-Hm in *. by apply (TcpServer.ok_cap _ Hsv). Qed.
End system.
End ServerSystem.
