(* ===== verification/EchoServer.v ===== *)
(** * The echo server (examples/c10k/c10k_server.cc)

    A complete program on the library: a [TcpServer] whose connections send back
    what they receive, with counters shared by all loops; an [Application] of the
    server system. *)

From Stdlib Require Import QArith.
From stdpp Require Import gmap.
From S2P Require Import Prelude StdMap CStr Buffer EventLoop Double TokenBucket TcpConnection TcpFrames TcpServer ServerSystem.
Import Channel TcpConnection TcpFrames ServerSystem.
Close Scope Q_scope.
Open Scope nat_scope.

Module EchoServer.

(** The counters, atomic in the code; [live] is an [int64_t]. *)
Record Stats := mkStats {
  live : Z;
  accepted : Z;
  rejected : Z;
  closed : Z;
  bytes_ : Z;
}.
#[export] Instance Stats_settable : Settable Stats := fun st =>
  mkStats (live st) (accepted st) (rejected st) (closed st) (bytes_ st).
Definition Stats_new : Stats := mkStats 0 0 0 0 0.

(** ** The callbacks [configure] installs *)
Definition overload_callback (st : Stats) : Stats := st <| rejected := wrap64 (rejected st + 1) |>.
Definition connection_callback (st : Stats) (connected : bool) : Stats :=
  if connected
  then st <| accepted := wrap64 (accepted st + 1) |> <| live := (live st + 1)%Z |>
  else st <| closed := wrap64 (closed st + 1) |> <| live := (live st - 1)%Z |>.
(** The message callback, on the counters and on the connection. *)
Definition message_callback (buf : Buffer.Buffer) (st : Stats) : Stats :=
  st <| bytes_ := wrap64 (bytes_ st + Z.of_nat (Buffer.readableBytes buf)) |>.
Definition echo (w : World) : World :=
  let '(data, buf) := Buffer.retrieveAllAsString (input_buffer_ w) in
  send recorded true data (w <| input_buffer_ := buf |>).

#[export] Instance echo_application : Application Stats := {|
  message_conn _ _ := echo;
  message_app _ := message_callback;
  connection_app _ := connection_callback;
  overload_app := overload_callback;
|}.

(** ** A connection sends back what it reads *)
Definition echo_callback (k : cb_kind) (w : World) : World :=
  let w := log (ECallback k) w in
  match k with CbMessage => echo w | _ => w end.

Lemma echo_message_only : message_only echo_callback.
Proof. intros k w Hk. by destruct k. Qed.

Lemma retrieveAll_string b :
  Buffer.buffer_wf b ->
  exists b', Buffer.retrieveAllAsString b = (Buffer.content b, b') /\ Buffer.buffer_wf b' /\ Buffer.content b' = [].
Proof.
  intros Hwf. destruct (Buffer.retrieve_spec (Buffer.readableBytes b) b Hwf) as [H1 H2]; [done|].
  eexists. split; [reflexivity|]. split; [done|]. rewrite H2. apply drop_ge. by rewrite Buffer.length_content.
Qed.

Lemma echo_callback_ok k w : (forall n, k <> CbHighWater n) -> stream_ok w -> stream_ok (echo_callback k w).
Proof.
  intros _ Hok. apply (recorded_ok k) in Hok. destruct k; try done. cbn [echo_callback]. unfold echo.
  destruct (retrieveAll_string (input_buffer_ (recorded CbMessage w)) (so_in _ Hok)) as (b & E & Hwf & _).
  change (log (ECallback CbMessage) w) with (recorded CbMessage w). rewrite E.
  exact (do_op_ok recorded (fun k w _ => recorded_ok k w) recorded_quietly (Send _) _ (input_ok _ _ Hok Hwf)).
Qed.

Record session_ok (x : Session) : Prop := {
  es_stream : stream_ok (world x);
  es_shut : shut_ok (world x);
  es_fresh : state_ (world x) = kConnecting -> halfcloses (world x) = [];
  es_sent : sent (world x) = frags x;
  es_state : state_ (world x) <> kDisconnecting;
  es_told : told (world x) = told_in (state_ (world x));
  es_settings : state_ (world x) <> kDisconnected ->
    has_connection (settings (world x)) = true /\ has_message (settings (world x)) = true;
  es_input : state_ (world x) <> kDisconnected -> Buffer.content (input_buffer_ (world x)) = [];
  es_gone : gone x = true -> state_ (world x) = kDisconnected;
}.

(** A session after an activity that read nothing. *)
Definition moved (x : Session) (w : World) : Session := mkSession (name x) w (frags x ++ []) (gone x).

Lemma moved_frame x w :
  session_ok x -> stream_ok w -> shut_ok w -> out_frame (world x) w -> sent w = sent (world x) ->
  (state_ (world x) = kConnecting -> halfcloses w = halfcloses (world x)) -> told w = told (world x) -> session_ok (moved x w) /\ exists d, told w = told (world x) ++ d.
Proof.
  intros [] Hok Hsh [F1 F2 _ _ F5] Hs Hh Ht. split; [|exists []; by rewrite app_nil_r].
  split; cbn [moved world frags gone]; rewrite ?F1, ?F2, ?F5, ?Hs, ?Ht, ?app_nil_r; try done. intros Hc. rewrite (Hh Hc). auto.
Qed.

Lemma moved_over x w :
  session_ok x -> state_ (world x) = kConnected -> stream_ok w -> over (world x) w ->
  session_ok (moved x w) /\ exists d, told w = told (world x) ++ d.
Proof.
  intros [? [_ Hwr _] _ Hse ? Ht Hset ? Hg] Hst Hok [H1 H2 H3 H4]. split; [|by eexists].
  destruct Hset as [Hc _]; [by rewrite Hst|]. rewrite Hc, Ht, Hst in H4.
  split; simpl; rewrite ?H1, ?H2, ?app_nil_r; try done. split; rewrite ?H1, ?H2, ?H3; done.
Qed.

(** The message callback on a freshly read buffer. *)
Lemma after_echo_ok x s :
  session_ok x -> state_ (world x) = kConnected ->
  let w := echo_callback CbMessage (filled s (world x)) in
  session_ok (mkSession (name x) w (frags x ++ [s]) (gone x)) /\ state_ w = kConnected /\ told w = told (world x).
Proof.
  intros [Hok Hsh _ Hse _ Hto Hset Hi Hg] Hst. cbn zeta.
  destruct (message_entered s _ Hok) as [Hok2 Hst2 Hset2 Hs2 Hh2 Ht2 _ _ Hc]. rewrite Hi in Hc by (rewrite Hst; done).
  cbn [echo_callback]. change (log (ECallback CbMessage) (filled s (world x))) with (recorded CbMessage (filled s (world x))).
  set (w2 := recorded CbMessage _) in *. unfold echo.
  destruct (retrieveAll_string _ (so_in _ Hok2)) as (b' & -> & Hwf' & Hb'). rewrite Hc. cbn [List.app].
  destruct (send_connected s (w2 <| input_buffer_ := b' |>)) as (Hok3 & F3 & Hs3 & Hh3 & Ht3); [by rewrite <-Hst, <-Hst2|by apply input_ok|].
  set (w3 := send recorded true s _) in *.
  assert (Hst3 : state_ w3 = kConnected) by (rewrite (of_state _ _ F3), <-Hst; exact Hst2).
  assert (Hto3 : told w3 = told (world x)) by (rewrite Ht3; exact Ht2).
  assert (Hh3' : halfcloses w3 = []) by (rewrite Hh3; etrans; [exact Hh2|]; by apply Hsh).
  split; [|done]. split; cbn [world frags gone]; rewrite ?Hst3; try done.
  - split; rewrite ?Hh3', ?Hst3; [done|constructor|done].
  - rewrite Hs3. f_equal. etrans; [exact Hs2|done].
  - by rewrite Hto3, Hto, Hst.
  - intros _. rewrite (of_settings _ _ F3). change (settings (w2 <| input_buffer_ := b' |>)) with (settings w2).
    rewrite Hset2. apply Hset. by rewrite Hst.
  - intros _. rewrite (of_input _ _ F3). exact Hb'.
  - intros Hgo. rewrite (Hg Hgo) in Hst. done.
Qed.

Lemma capped_ok x f w :
  let x' w' := mkSession (name x) w' f (gone x) in
  session_ok (x' w) -> state_ w = kConnected -> told w = told (world x) ->
  session_ok (x' (enforce_input_cap echo_callback w)) /\ exists d, told (enforce_input_cap echo_callback w) = told (world x) ++ d.
Proof.
  intros x' Ha Hst Hto. unfold enforce_input_cap. case_match; [|split; [done|exists []; by rewrite app_nil_r]].
  pose proof (forceClose_ok _ echo_callback_ok true w (es_stream _ Ha)) as Hok.
  destruct (forceClose_over _ echo_message_only w) as [->|[_ Hov]]; [split; [done|exists []; by rewrite app_nil_r]|].
  destruct (moved_over _ _ Ha Hst Hok Hov) as [H1 [d H2]]. split; [|exists d; by rewrite <-Hto].
  unfold moved in H1. cbn [x' name frags gone] in H1. by rewrite app_nil_r in H1.
Qed.

Lemma readable_ok (st : Stats) r x :
  session_ok x -> enabled (Readable r) x ->
  session_ok (mkSession (name x) (handle (Readable r) st (name x) (world x)) (frags x ++ fragment (Readable r)) (gone x)) /\
  exists d, told (handle (Readable r) st (name x) (world x)) = told (world x) ++ d.
Proof.
  intros Hx [Hnc Hnd]. assert (Hst : state_ (world x) = kConnected) by (pose proof (es_state _ Hx); by destruct (state_ (world x))).
  pose proof (so_in _ (es_stream _ Hx)) as Hwf.
  assert (Hend : r = Buffer.ReadvOk [] \/ (exists e, r = Buffer.ReadvError e) ->
    session_ok (moved x (handle (Readable r) st (name x) (world x))) /\ exists d, told (handle (Readable r) st (name x) (world x)) = told (world x) ++ d).
  { intros Hr. apply moved_over; [done|done|apply handleRead_ok; [apply echo_callback_ok|apply Hx]|].
    by apply (handleRead_end _ echo_message_only). }
  destruct r as [e|[|b s]]; [apply Hend; eauto..|]. clear Hend. cbn [handle fragment].
  change (callback st (name x)) with echo_callback.
  rewrite handleRead_message by (done || apply (es_settings _ Hx Hnd)).
  destruct (after_echo_ok x (b :: s) Hx Hst) as (Ha & Hst' & Hto). exact (capped_ok x _ _ Ha Hst' Hto).
Qed.

(** Every activity keeps the invariant, and only adds to what the connection
    callback was told. *)
Lemma activity_ok (st : Stats) a x :
  session_ok x -> enabled a x ->
  session_ok (mkSession (name x) (handle a st (name x) (world x)) (frags x ++ fragment a) (gone x)) /\
  exists d, told (handle a st (name x) (world x)) = told (world x) ++ d.
Proof.
  intros Hx Hen. destruct a as [|r| |id|rs|].
  - simpl in Hen. destruct (connectEstablished_up _ echo_message_only (world x)) as [Hst Hse Hin Hs Hh Ht].
    pose proof (connectEstablished_ok _ echo_callback_ok (world x) Hen (es_stream _ Hx)) as Hok.
    cbn [handle]. set (w := connectEstablished _ _) in *. destruct Hx as [_ Hsh Hfr Hsent _ Hto Hset Hi Hg].
    destruct Hset as [Hc Hm]; [by rewrite Hen|]. split; [|by eexists].
    split; cbn [world frags gone fragment]; rewrite ?app_nil_r, ?Hst; try done; [|congruence|..].
    + split; rewrite ?Hst; [|by rewrite Hh, Hs; apply Hsh|done]. intros _. rewrite Hh. by apply Hfr.
    + rewrite Ht, Hc, Hto, Hen. done.
    + intros _. by rewrite Hse.
    + intros _. rewrite Hin. apply Hi. by rewrite Hen.
    + intros Hgo. by rewrite (Hg Hgo) in Hen.
  - by apply readable_ok.
  - destruct (handleWrite_shut _ echo_message_only echo_callback_ok (world x) (es_stream _ Hx) (es_shut _ Hx)) as (H1 & H2 & H3 & H4).
    apply moved_frame; [done| |done..]. apply handleWrite_ok; [apply echo_callback_ok|apply Hx].
  - pose proof (fire_ok _ echo_callback_ok id _ (es_stream _ Hx)) as Hok. cbn [handle]. unfold fire in *.
    destruct (timers (world x) !! id) as [[k d]|]; [|by apply moved_frame; [done|apply Hx|apply Hx|..]].
    destruct (on_timer_cases _ echo_message_only k (world x)) as [[[F Hs Hh Ht] Hp]|[Ho [H1 H2 H3 H4]]].
    + apply moved_frame; [done|done| |by etrans; [exact F|]|done..].
      apply (shut_same (world x)); [by apply F|done|done|done|apply Hx].
    + apply moved_over; [done|destruct Ho; [done|by destruct (es_state _ Hx)]|done|by split].
  - apply moved_frame; [done| | |done..]; [destruct (es_stream _ Hx); by split|by apply (shut_same (world x)); [..|apply Hx]].
  - simpl in Hen. pose proof (es_gone _ Hx Hen) as Hst. destruct (connectDestroyed_down echo_callback (world x) Hst) as (H1 & H2 & H3).
    pose proof (connectDestroyed_ok _ echo_callback_ok _ (es_stream _ Hx)) as Hok. cbn [handle].
    set (w := connectDestroyed _ _) in *. assert (Hto : told w = told (world x)) by (unfold told; by rewrite H3).
    assert (Hh : halfcloses w = halfcloses (world x)) by (unfold halfcloses; by rewrite H3).
    split; [|exists []; by rewrite app_nil_r]. destruct Hx as [_ [_ Hwr _] _ Hse _ Ht _ _ _].
    split; cbn [world frags gone fragment]; rewrite ?app_nil_r, ?H1; try done; [|congruence|by rewrite Hto, Ht, Hst].
    split; rewrite ?H1; [done|by rewrite Hh, H2|done].
Qed.

(** ** The program *)
Section program.
Context {D : Type} `{Double D} (atof : bytes -> D).
Notation Server := (TcpServer.TcpServer D).
Notation Sys := (System (A := Stats) (D := D)).

Record Options := mkOptions {
  port : Z;
  threads : Z;
  reuseport : Z;
  max_conns : Z;
  idle : Z;
  accept_qps : D;
  nodelay : bool;
  quiet : bool;
}.
#[local] Instance Options_settable : Settable Options := fun o =>
  mkOptions (port o) (threads o) (reuseport o) (max_conns o) (idle o) (accept_qps o) (nodelay o) (quiet o).
Definition Options_new : Options := mkOptions 9100 0 0 0 0 (d_of_Z 0) false false.

(** [None] is [usage()], which exits. *)
Fixpoint parse_args (args : list bytes) (o : Options) : option Options :=
  match args with
  | [] => Some o
  | a :: args =>
    if bool_decide (a = bs "--nodelay") then parse_args args (o <| nodelay := true |>)
    else if bool_decide (a = bs "--quiet") then parse_args args (o <| quiet := true |>)
    else match args with
         | [] => None
         | v :: args =>
           if bool_decide (a = bs "--port") then parse_args args (o <| port := (atoi v mod 2 ^ 16)%Z |>)
           else if bool_decide (a = bs "--threads") then parse_args args (o <| threads := atoi v |>)
           else if bool_decide (a = bs "--reuseport") then parse_args args (o <| reuseport := atoi v |>)
           else if bool_decide (a = bs "--max-conns") then parse_args args (o <| max_conns := strtoul 10 v |>)
           else if bool_decide (a = bs "--idle") then parse_args args (o <| idle := (atoi v mod 2 ^ 32)%Z |>)
           else if bool_decide (a = bs "--accept-qps") then parse_args args (o <| accept_qps := atof v |>)
           else None
         end
  end.
Definition parse (args : list bytes) : option Options :=
  o ← parse_args args Options_new;
  if (0 <? threads o)%Z && (0 <? reuseport o)%Z then None else Some o.

(** The setters [configure] calls; the number of threads takes effect in [start]. *)
Definition configure (o : Options) (now : Z) (s : Server) : Server :=
  let s := if (0 <? max_conns o)%Z then TcpServer.setMaxConnections (Z.to_nat (max_conns o)) s else s in
  let s := if (0 <? idle o)%Z then TcpServer.setIdleTimeout (idle o) s else s in
  let s := if d_lt (d_of_Z 0) (accept_qps o) then TcpServer.setAcceptRateLimit (accept_qps o) (accept_qps o) now s else s in
  TcpServer.setMessageCallback true (TcpServer.setConnectionCallback true (TcpServer.setOverloadCallback true s)).

(** One listener with the io threads asked for; loop 0 is the main loop. *)
Definition main_start (o : Options) (ip_port : bytes) (now : Z) : Sys :=
  let s := TcpServer.TcpServer_new (bs "c10k") ip_port TcpServer.Limits_new false 0 0 in
  mkSystem (TcpServer.start (seq 1 (Z.to_nat (threads o))) (configure o now s)) [] Stats_new.

(** ** The counters *)
Definition ups (l : list bool) : Z := tally (fun b : bool => if b then 1%Z else 0%Z) l.
Definition downs (l : list bool) : Z := tally (fun b : bool => if b then 0%Z else 1%Z) l.

(** The counters stand for these numbers. *)
Record counts (st : Stats) (a c l r b : Z) : Prop := {
  ct_accepted : accepted st = wrap64 a;
  ct_closed : closed st = wrap64 c;
  ct_live : live st = l;
  ct_rejected : rejected st = wrap64 r;
  ct_bytes : bytes_ st = wrap64 b;
}.

Lemma counts_connection l : forall st a c li r b,
  counts st a c li r b ->
  counts (fold_left connection_callback l st) (a + ups l) (c + downs l) (li + ups l - downs l) r b.
Proof.
  induction l as [|up l IH]; intros st a c li r b Hc.
  - unfold ups, downs; simpl. rewrite !Z.add_0_r, Z.sub_0_r. exact Hc.
  - assert (H1 : counts (connection_callback st up) (a + ups [up]) (c + downs [up]) (li + ups [up] - downs [up]) r b).
    { destruct Hc. unfold ups, downs. destruct up; split; simpl; rewrite ?Z.add_0_r; try done;
        [by rewrite ct_accepted0, wrap64_add_l|lia|by rewrite ct_closed0, wrap64_add_l|lia]. }
    apply IH in H1. cbn [fold_left]. unfold ups, downs in *. simpl in H1 |- *. rewrite !Z.add_0_r in H1.
    destruct H1. split; (rewrite <-?Z.add_assoc in *; done || lia).
Qed.

Lemma counts_message buf st a c l r b :
  counts st a c l r b -> counts (message_callback buf st) a c l r (b + Z.of_nat (Buffer.readableBytes buf)).
Proof. intros []. split; try done. simpl. by rewrite ct_bytes0, wrap64_add_l. Qed.

Definition session_ups (x : Session) : Z := ups (told (world x)).
Definition session_downs (x : Session) : Z := downs (told (world x)).
Definition session_bytes (x : Session) : Z := zlen (concat (frags x)).

Record echo_ok (m : nat) (e : Sys) : Prop := {
  eo_linked : linked m e;
  eo_sessions : Forall session_ok (sessions e);
  eo_counts : counts (app e) (tally session_ups (sessions e)) (tally session_downs (sessions e))
    (tally session_ups (sessions e) - tally session_downs (sessions e)) (overloads (server e))
    (tally session_bytes (sessions e));
}.

(** ** An activity of a connection *)
Lemma count_message_ok a x st ac c l r b :
  session_ok x -> enabled a x -> counts st ac c l r b ->
  counts (message a (name x) (world x) st) ac c l r (b + zlen (concat (fragment a))).
Proof.
  intros Hx Hen Hc. destruct a as [|[e|[|by_ s]]| | | |]; simpl; rewrite ?Z.add_0_r; try exact Hc.
  destruct Hen as [_ Hnd]. destruct (Buffer.readFd_spec (fun _ => Buffer.ReadvOk (by_ :: s)) _ (so_in _ (es_stream _ Hx))) as [Hwf [_ Hco]].
  rewrite (es_input _ Hx Hnd) in Hco. set (buf := (Buffer.readFd _ _).2) in *.
  pose proof (counts_message buf _ _ _ _ _ _ Hc) as Hm.
  assert (Hl : Z.of_nat (Buffer.readableBytes buf) = zlen (by_ :: s ++ [])).
  { rewrite <-(Buffer.length_content buf Hwf), Hco. unfold zlen. by rewrite app_nil_r. }
  by rewrite Hl in Hm.
Qed.

Lemma on_session_ok m i a x (e : Sys) :
  echo_ok m e -> sessions e !! i = Some x -> enabled a x -> echo_ok m (on_session i a e).
Proof.
  intros [Hlk Hs Hc] Hi Hen. split; [by eapply on_session_linked| |]; unfold on_session; rewrite Hi; cbn [on_activity];
    assert (Hx : session_ok x) by (rewrite Forall_lookup in Hs; eauto);
    destruct (activity_ok (app e) a x Hx Hen) as [Hx' [d Hd]].
  { by apply Forall_insert. }
  pose proof (counts_connection d _ _ _ _ _ _ (count_message_ok a x _ _ _ _ _ _ Hx Hen Hc)) as Hc'.
  unfold on_activity. set (x' := mkSession _ _ _ _) in *. set (w := handle a (app e) (name x) (world x)) in *.
  assert (Ht : tell (name x) (world x) w (message a (name x) (world x) (app e)) =
    fold_left connection_callback d (message a (name x) (world x) (app e))).
  { unfold tell. by rewrite Hd, drop_app_length. }
  assert (Hu : forall f, tally f (<[i := x']> (sessions e)) = (tally f (sessions e) - f x + f x')%Z) by (intros f; by apply tally_insert).
  assert (Hup : session_ups x' = (session_ups x + ups d)%Z) by (unfold session_ups, ups; simpl; by rewrite Hd, tally_app).
  assert (Hdo : session_downs x' = (session_downs x + downs d)%Z) by (unfold session_downs, downs; simpl; by rewrite Hd, tally_app).
  assert (Hby : session_bytes x' = (session_bytes x + zlen (concat (fragment a)))%Z)
    by (unfold session_bytes; simpl; by rewrite concat_app, zlen_app).
  cbn [sessions app server]. rewrite Ht, !Hu, Hup, Hdo, Hby.
  destruct Hc'. split; try (done || lia); [rewrite ct_accepted0|rewrite ct_closed0|rewrite ct_bytes0]; f_equal; lia.
Qed.

(** ** The server *)
Lemma fresh_ok n fd s : has_connection s = true -> has_message s = true -> session_ok (fresh_session n fd s).
Proof. intros Hc Hm. split; try done; simpl. split; try done; apply Buffer.new_wf. Qed.

Lemma on_accept_ok m fd now (e : Sys) :
  echo_ok m e -> (TcpServer.next_conn_id_ (server e) < 2 ^ 31 - 1)%Z -> echo_ok m (on_accept fd now e).
Proof.
  intros [Hlk Hs Hc] Hlt. destruct (on_accept_cases m fd now e Hlk Hlt) as [Hlk' He]. cbn zeta in *.
  set (e' := on_accept fd now e) in *. clearbody e'.
  destruct He as [(Es & Ea & Eo)|[(Es & Ea & Eo)|(n & s & Es & Ea & Eo & _ & Hhc & Hhm)]];
    (split; [done|rewrite Es|rewrite Es, Ea, Eo]); try done.
  - destruct Hc. split; try done. simpl. by rewrite ct_rejected0, wrap64_add_l.
  - apply Forall_app. split; [done|]. constructor; [by apply fresh_ok|constructor].
  - rewrite !tally_app. unfold session_ups, session_downs, session_bytes. simpl. rewrite !Z.add_0_r. exact Hc.
Qed.

Lemma on_removed_ok m i x (e : Sys) :
  echo_ok m e -> sessions e !! i = Some x -> gone x = false -> state_ (world x) = kDisconnected -> echo_ok m (on_removed i e).
Proof.
  intros [Hlk Hs Hc] Hi Hgo Hst. destruct (on_removed_linked m i x e Hlk Hi Hgo) as [Hlk' Ho].
  split; [done|..]; revert Ho; unfold on_removed; rewrite Hi; cbn [sessions app server]; intros Ho; set (x' := mkSession _ _ _ true).
  - apply Forall_insert; [done|]. rewrite Forall_lookup in Hs. destruct (Hs i x Hi). by split.
  - assert (Hu : forall f, f x' = f x -> tally f (<[i := x']> (sessions e)) = tally f (sessions e))
      by (intros f E; rewrite (tally_insert _ _ _ x) by done; lia).
    by rewrite !Hu, Ho.
Qed.

Lemma echo_step_ok m (e e' : Sys) : step e e' -> echo_ok m e -> echo_ok m e'.
Proof. intros [] Hok; [by apply on_accept_ok|by eapply on_session_ok|by eapply on_removed_ok]. Qed.

Lemma counts_states m (e : Sys) :
  echo_ok m e ->
  tally session_ups (sessions e) = (count_in kConnected e + count_in kDisconnected e)%Z /\
  tally session_downs (sessions e) = count_in kDisconnected e.
Proof.
  intros Hok. pose proof (eo_sessions _ _ Hok) as Hs. unfold count_in. clear Hok.
  induction Hs as [|x l Hx _ [IH1 IH2]]; simpl; [done|]. unfold session_ups at 1, session_downs at 1. rewrite (es_told _ Hx).
  pose proof (es_state _ Hx). destruct (state_ (world x)); simpl; try done; cbn; lia.
Qed.

Lemma main_start_ok o ip_port now : echo_ok (Z.to_nat (max_conns o)) (main_start o ip_port now).
Proof.
  set (s0 := TcpServer.TcpServer_new (bs "c10k") ip_port TcpServer.Limits_new false (Z.to_nat (max_conns o)) 0 : Server).
  assert (Hv : TcpServer.view (server (main_start o ip_port now)) = TcpServer.view s0 /\
    TcpServer.trace (server (main_start o ip_port now)) = [] /\
    TcpServer.has_connection (TcpServer.limits (server (main_start o ip_port now))) = true /\
    TcpServer.has_message (TcpServer.limits (server (main_start o ip_port now))) = true).
  { unfold main_start, configure, TcpServer.setAcceptRateLimit, s0.
    destruct (Z.ltb_spec 0 (max_conns o)); [|replace (Z.to_nat (max_conns o)) with 0 by lia]; repeat case_match; done. }
  destruct Hv as (Hv & Ht & Hc & Hm). set (e := main_start o ip_port now) in *.
  split; [|constructor|by unfold overloads; rewrite Ht].
  split; [exact (TcpServer.ok_view _ _ Hv (TcpServer.new_ok _ _ _ _ _ _))| |constructor|done|exact (f_equal (fun v => v.1.1.1.1.1) Hv)].
  unfold TcpServer.established. by rewrite Ht.
Qed.

End program.

(** One connection is up and echoes two bytes, of which the socket takes one; the
    second client is turned away. *)
Definition demo_options : Options (D := Q) := mkOptions 9100 0 0 1 60 0%Q false false.
Definition demo_start : System := main_start demo_options (bs "0.0.0.0:9100") 0.
Definition demo_accepted : System := on_accept 7 1 demo_start.
Definition demo_up : System := on_session 0 (Kernel [WriteOk 1]) (on_session 0 Establish demo_accepted).
Definition demo_echoed : System := on_session 0 (Readable (Buffer.ReadvOk (bs "hi"))) demo_up.
Definition demo_end : System := on_accept 8 2 demo_echoed.

End EchoServer.
