(* ===== verification/HttpService.v ===== *)
(** * The HTTP server with all its connections (http/http_server.h/.cc)

    [HttpServer] on a [TcpServer]: the parsers of all connections are in one table,
    keyed by connection name, that the callbacks of every connection use.  An
    [Application] of the server system whose state is that table.  The handler does
    not keep state between requests. *)

From Stdlib Require Import QArith.
From stdpp Require Import gmap.
From S2P Require Import Prelude StdMap CStr Buffer HttpMessage HttpContext HttpParse HttpServer EventLoop Double TokenBucket TcpConnection TcpFrames HttpConnection TcpServer ServerSystem.
Import Channel TcpConnection TcpFrames ServerSystem.
Close Scope Q_scope.
Open Scope nat_scope.

Module HttpService.
#[local] Opaque HttpServer.process.

Section service.
Variable handler_ : option (HttpRequest.HttpRequest -> HttpResponse.HttpResponse -> HttpResponse.HttpResponse).
Definition stateless : option (unit -> HttpRequest.HttpRequest -> HttpResponse.HttpResponse -> unit * HttpResponse.HttpResponse) :=
  (fun h _ req resp => (tt, h req resp)) <$> handler_.

(** The message callback is [onPlainMessage], with [send] and [shutdown] on the
    connection; the connection callback is [onConnection]. *)
#[export] Instance http_application : Application HttpServer.HttpServer := {|
  message_conn srv n w :=
    let '(_, _, buf, evs) := HttpServer.onPlainMessage stateless n (input_buffer_ w) tt srv in
    HttpConnection.perform evs (w <| input_buffer_ := buf |>);
  message_app n buf srv := let '(_, srv', _, _) := HttpServer.onPlainMessage stateless n buf tt srv in srv';
  connection_app n srv connected := HttpServer.onConnection connected n srv;
  overload_app srv := srv;
|}.

(** ** The server's own operations *)
Section operations.
Context {D : Type} `{Double D}.
Notation Service := (System (A := HttpServer.HttpServer) (D := D)).

(** The constructors: callbacks and a keep-alive limit of a minute. *)
Definition HttpServer_new (name ip_port : bytes) (base : nat) (tls_ctx : bool) : Service :=
  let s := TcpServer.TcpServer_new name ip_port TcpServer.Limits_new false 0 base in
  let s := TcpServer.setConnectionCallback true s in
  let s := TcpServer.setMessageCallback true s in
  mkSystem (TcpServer.setIdleTimeout 60 s) []
    (HttpServer.mkHttpServer tls_ctx HttpContext.kDefaultMaxBodyBytes []).

Definition setKeepAliveTimeout (seconds : Z) (e : Service) : Service :=
  mkSystem (TcpServer.setIdleTimeout seconds (server e)) (sessions e) (app e).
Definition setMaxBodySize (bytes : Z) (e : Service) : Service :=
  mkSystem (server e) (sessions e) (HttpServer.mkHttpServer (HttpServer.tls_ctx_ (app e)) bytes (HttpServer.conns_ (app e))).
Definition setMaxInputBufferSize (bytes : Z) (e : Service) : Service :=
  mkSystem (TcpServer.setMaxInputBufferSize bytes (server e)) (sessions e) (app e).
Definition usesTls (e : Service) : bool := HttpServer.tls_ctx_ (app e).
Definition start (io_loops : list nat) (e : Service) : Service :=
  mkSystem (TcpServer.start io_loops (server e)) (sessions e) (app e).

(** A plaintext server, configured and started. *)
Definition service_start (name ip_port : bytes) (keep_alive max_body max_input : Z) (io_loops : list nat) : Service :=
  start io_loops
    (setMaxInputBufferSize max_input (setMaxBodySize max_body (setKeepAliveTimeout keep_alive
      (HttpServer_new name ip_port 0 false)))).
End operations.

(** ** A connection and its entry in the table *)
Definition ctx_of (srv : HttpServer.HttpServer) (n : bytes) : option HttpContext.HttpContext :=
  HttpServer.ctx <$> mlookup n (HttpServer.conns_ srv).
Definition as_http (srv : HttpServer.HttpServer) (y : Session) : HttpConnection.Session :=
  HttpConnection.mkSession (world y) tt (ctx_of srv (name y)) (frags y).
Notation hcb srv n := (HttpConnection.http_callback stateless tt (ctx_of srv n)).

Lemma callback_http srv n k w :
  HttpServer.tls_ctx_ srv = false -> callback srv n k w = hcb srv n k w.
Proof.
  intros Ht. destruct k; try done. cbn [callback message_conn http_application HttpConnection.http_callback].
  unfold HttpServer.onPlainMessage, HttpServer.processInput, ctx_of. rewrite Ht.
  by destruct (mlookup n (HttpServer.conns_ srv)).
Qed.
(** ** The table under the callbacks *)
Definition ctx0 (max_body : Z) : HttpContext.HttpContext := HttpContext.setMaxBodyBytes max_body HttpContext.HttpContext_new.

(** The entry of [n] becomes [c], nothing else changes. *)
Record table_set (n : bytes) (c : option HttpContext.HttpContext) (srv srv' : HttpServer.HttpServer) : Prop := {
  ts_this : ctx_of srv' n = c;
  ts_other : forall m, m <> n -> ctx_of srv' m = ctx_of srv m;
  ts_tls : HttpServer.tls_ctx_ srv' = HttpServer.tls_ctx_ srv;
  ts_max : HttpServer.max_body_bytes_ srv' = HttpServer.max_body_bytes_ srv;
}.

Lemma table_set_id n srv : table_set n (ctx_of srv n) srv srv.
Proof. done. Qed.
Lemma table_set_trans n c c' srv srv' srv'' : table_set n c srv srv' -> table_set n c' srv' srv'' -> table_set n c' srv srv''.
Proof. intros [? Ho ? ?] [? Ho' ? ?]. split; [done| |congruence..]. intros m Hm. by rewrite Ho', Ho. Qed.

Lemma onConnection_set (b : bool) n srv :
  table_set n (if b then Some (ctx0 (HttpServer.max_body_bytes_ srv)) else None) srv (HttpServer.onConnection b n srv).
Proof.
  destruct b; split; try done; unfold ctx_of; simpl.
  - by rewrite mlookup_insert_eq.
  - intros m Hm. by rewrite mlookup_insert_ne.
  - by rewrite mlookup_erase_eq.
  - intros m Hm. by rewrite mlookup_erase_ne.
Qed.

Lemma message_set n buf srv :
  HttpServer.tls_ctx_ srv = false ->
  table_set n ((fun _ => HttpServer.l_ctx (HttpConnection.process_on stateless tt (ctx_of srv n) buf)) <$> ctx_of srv n)
    srv (message_app n buf srv).
Proof.
  intros Ht. cbn [message_app http_application]. unfold HttpServer.onPlainMessage, HttpServer.processInput. rewrite Ht.
  destruct (mlookup n (HttpServer.conns_ srv)) as [pc|] eqn:E; split; try done; unfold ctx_of; simpl.
  - rewrite mlookup_insert_eq, E. done.
  - intros m Hm. by rewrite mlookup_insert_ne.
  - by rewrite E.
Qed.

(** ** A connection of the service *)
Record conn_ok (mb : Z) (srv : HttpServer.HttpServer) (y : Session) : Prop := {
  co_new : state_ (world y) = kConnecting -> exists fd s ws,
    world y = TcpConnection_new fd s EPollPoller.poller_new ws [] /\ has_connection s = true /\ has_message s = true /\ frags y = [];
  co_up : state_ (world y) <> kConnecting -> HttpConnection.session_ok stateless tt (ctx0 mb) true (as_http srv y);
  co_ctx : is_Some (ctx_of srv (name y)) <-> open (world y);
  co_gone : gone y = true -> state_ (world y) = kDisconnected;
}.

Lemma conn_ok_table mb srv srv' y : ctx_of srv' (name y) = ctx_of srv (name y) -> conn_ok mb srv y -> conn_ok mb srv' y.
Proof. intros E []. split; unfold as_http in *; rewrite ?E; done. Qed.

(** Once a connection is up, the table follows what the connection callback is told. *)
Lemma settled mb srv srv1 y c w f :
  conn_ok mb srv y -> state_ (world y) <> kConnecting -> (state_ (world y) = kDisconnected -> state_ w = kDisconnected) ->
  table_set (name y) c srv srv1 -> (is_Some c <-> is_Some (ctx_of srv (name y))) ->
  HttpConnection.session_ok stateless tt (ctx0 mb) true (HttpConnection.forget (HttpConnection.mkSession w tt c f)) ->
  exists c', table_set (name y) c' srv (tell (name y) (world y) w srv1) /\
    conn_ok mb (tell (name y) (world y) w srv1) (mkSession (name y) w f (gone y)).
Proof.
  intros Hy Hnc Hdead Hset Hc Hs. pose proof (HttpConnection.se_told _ _ _ _ _ (co_up _ _ _ Hy Hnc)) as Ht.
  assert (Hw : HttpConnection.world (HttpConnection.forget (HttpConnection.mkSession w tt c f)) = w)
    by (unfold HttpConnection.forget; by destruct (bool_decide _)).
  pose proof (HttpConnection.se_told _ _ _ _ _ Hs) as Ht'. pose proof (HttpConnection.se_state _ _ _ _ _ Hs) as Hnc'.
  rewrite Hw in Ht', Hnc'. cbn [as_http HttpConnection.world] in Ht. rewrite (co_ctx _ _ _ Hy) in Hc. unfold tell. rewrite Ht, Ht'.
  set (c' := if bool_decide (state_ w = kDisconnected) then None else c).
  assert (Hset' : table_set (name y) c' srv
    (fold_left (connection_app (name y)) (drop (length (told_in (state_ (world y)))) (told_in (state_ w))) srv1)).
  { unfold c', open in *. destruct (state_ (world y)) eqn:E1, (state_ w) eqn:E2; simpl; try done;
      try (by specialize (Hdead eq_refl)); try (eapply table_set_trans; [exact Hset|]; exact (onConnection_set false _ _)).
    assert (c = None) as -> by (destruct c; [|done]; destruct (proj1 Hc ltac:(eauto)); done). done. }
  set (srv2 := fold_left _ _ _) in *. clearbody srv2. exists c'. split; [done|].
  split; cbn [world frags name gone]; [done| | |].
  - intros _. unfold as_http. cbn [world frags name]. rewrite (ts_this _ _ _ _ Hset'). unfold c', HttpConnection.forget in *.
    by destruct (bool_decide (state_ w = kDisconnected)) eqn:E; cbn [HttpConnection.world HttpConnection.app HttpConnection.frags] in Hs; rewrite E in Hs.
  - rewrite (ts_this _ _ _ _ Hset'). unfold c', open in *. case_bool_decide as E; [rewrite E; split; [by intros []|by intros []]|].
    rewrite Hc. destruct (state_ (world y)) eqn:E1, (state_ w) eqn:E2; try done; try (by specialize (Hdead eq_refl)); naive_solver.
  - intros Hg. by apply Hdead, (co_gone _ _ _ Hy).
Qed.

Section activity.
Variables (mb : Z) (srv : HttpServer.HttpServer) (y : Session).
Hypotheses (Htls : HttpServer.tls_ctx_ srv = false) (Hmax : HttpServer.max_body_bytes_ srv = mb) (Hy : conn_ok mb srv y).
#[local] Notation x := (as_http srv y).

(** What an activity leaves: the connection in order, and only its own entry of
    the table changed. *)
Definition outcome (r : Session * HttpServer.HttpServer) : Prop :=
  conn_ok mb r.2 r.1 /\ exists c, table_set (name y) c srv r.2.

Lemma establish_http : state_ (world y) = kConnecting -> outcome (on_activity Establish y srv).
Proof.
  intros Hst. destruct (co_new _ _ _ Hy Hst) as (fd & s & ws & Hw & Hc & Hm & Hf).
  assert (Hctx : ctx_of srv (name y) = None).
  { destruct (ctx_of srv (name y)) eqn:E; [|done]. destruct (proj1 (co_ctx _ _ _ Hy)); [by rewrite E|by rewrite Hst in *..]. }
  unfold outcome, on_activity. cbn [handle fragment message fst snd].
  rewrite (connectEstablished_ext _ (hcb srv (name y)) (fun k w => callback_http srv (name y) k w Htls)), Hctx.
  pose proof (HttpConnection.session_start_ok stateless mb tt fd s EPollPoller.poller_new ws Hm) as Hs.
  unfold HttpConnection.session_start in Hs. rewrite Hc in Hs.
  destruct (connectEstablished_up _ (HttpConnection.http_message_only stateless tt None) (world y)) as [Hst' _ _ _ _ Ht].
  rewrite <-Hw in Hs. rewrite Hw in Ht at 2 3. cbn [settings TcpConnection_new] in Ht. rewrite Hc in Ht.
  set (w := connectEstablished _ (world y)) in *. clearbody w.
  assert (Hset : table_set (name y) (Some (ctx0 mb)) srv (tell (name y) (world y) w srv)).
  { unfold tell. rewrite Ht, Hw. cbn [told trace TcpConnection_new]. rewrite <-Hmax. exact (onConnection_set true _ _). }
  set (srv' := tell _ _ _ _) in *. clearbody srv'. split; [|eauto].
  split; cbn [world name frags gone]; rewrite ?Hst'; [done| | |].
  - intros _. unfold as_http. cbn [world name frags]. rewrite (ts_this _ _ _ _ Hset), Hf. exact Hs.
  - rewrite (ts_this _ _ _ _ Hset). unfold open. rewrite Hst'. split; [by left|done].
  - intros Hg. by rewrite (co_gone _ _ _ Hy Hg) in Hst.
Qed.

Lemma settled_here w f c srv1 :
  state_ (world y) <> kConnecting -> (state_ (world y) = kDisconnected -> state_ w = kDisconnected) ->
  table_set (name y) c srv srv1 -> (is_Some c <-> is_Some (ctx_of srv (name y))) ->
  HttpConnection.session_ok stateless tt (ctx0 mb) true (HttpConnection.forget (HttpConnection.mkSession w tt c f)) ->
  outcome (mkSession (name y) w f (gone y), tell (name y) (world y) w srv1).
Proof. intros. destruct (settled mb srv srv1 y c w f) as (c' & ? & ?); try done. split; [done|eauto]. Qed.

Lemma readable_http r :
  state_ (world y) <> kConnecting -> state_ (world y) <> kDisconnected -> outcome (on_activity (Readable r) y srv).
Proof.
  intros Hnc Hnd. pose proof (HttpConnection.on_readable_ok stateless tt (ctx0 mb) true r x Hnd (co_up _ _ _ Hy Hnc)) as Hs.
  unfold on_activity. cbn [handle].
  rewrite (handleRead_ext _ (hcb srv (name y)) (fun k w => callback_http srv (name y) k w Htls)).
  unfold HttpConnection.on_readable in Hs. cbn [as_http HttpConnection.app HttpConnection.pc HttpConnection.world HttpConnection.frags] in Hs.
  destruct r as [e|[|b s]].
  1,2: apply (settled_here _ _ (ctx_of srv (name y))); [done|done|apply table_set_id|done|]; cbn [fragment]; rewrite app_nil_r; exact Hs.
  cbn [fragment message]. set (w := handleRead _ _ _) in *. clearbody w.
  eapply settled_here; [done|done|by apply message_set|by rewrite fmap_is_Some|].
  set (st := HttpConnection.process_on _ _ _ _) in *. by destruct (HttpServer.l_app st).
Qed.

Lemma other_http a w :
  (a = Writable \/ (exists id, a = Expired id) \/ (exists rs, a = Kernel rs)) ->
  state_ (world y) <> kConnecting -> w = handle a srv (name y) (world y) ->
  (state_ (world y) = kDisconnected -> state_ w = kDisconnected) ->
  HttpConnection.session_ok stateless tt (ctx0 mb) true
    (HttpConnection.forget (HttpConnection.mkSession w tt (ctx_of srv (name y)) (frags y))) ->
  outcome (on_activity a y srv).
Proof.
  intros Ha Hnc -> Hdead Hs. unfold on_activity.
  assert (fragment a = [] /\ message a (name y) (world y) srv = srv) as [-> ->] by (by destruct Ha as [->|[[id ->]|[rs ->]]]).
  rewrite app_nil_r. by apply (settled_here _ _ (ctx_of srv (name y))).
Qed.

Lemma writable_http : state_ (world y) <> kConnecting -> outcome (on_activity Writable y srv).
Proof.
  intros Hnc. pose proof (co_up _ _ _ Hy Hnc) as Hx.
  pose proof (handleWrite_ext _ (hcb srv (name y)) (fun k w => callback_http srv (name y) k w Htls) (world y)) as E.
  eapply other_http; [by left|done|reflexivity|..]; cbn [handle]; rewrite E.
  - destruct (handleWrite_shut _ (HttpConnection.http_message_only stateless tt (ctx_of srv (name y)))
      (HttpConnection.http_callback_ok stateless tt (ctx_of srv (name y))) (world y)
      (HttpConnection.se_stream _ _ _ _ _ Hx) (HttpConnection.se_shut _ _ _ _ _ Hx)) as (_ & F & _). by rewrite (of_state _ _ F).
  - exact (HttpConnection.on_writable_ok stateless tt (ctx0 mb) true x Hx).
Qed.

Lemma expired_http id : state_ (world y) <> kConnecting -> outcome (on_activity (Expired id) y srv).
Proof.
  intros Hnc. pose proof (co_up _ _ _ Hy Hnc) as Hx.
  pose proof (fire_ext _ (hcb srv (name y)) (fun k w => callback_http srv (name y) k w Htls) id (world y)) as E.
  eapply other_http; [by right; left; eauto|done|reflexivity|..]; cbn [handle]; rewrite E.
  - intros Hd. unfold fire. destruct (timers (world y) !! id) as [[k d]|]; [|done].
    destruct (on_timer_cases _ (HttpConnection.http_message_only stateless tt (ctx_of srv (name y))) k (world y)) as [[[F _ _ _] _]|[_ Ho]];
      [etrans; [exact (of_state _ _ F)|done]|exact (ov_state _ _ Ho)].
  - exact (HttpConnection.on_timer_expired_ok stateless tt (ctx0 mb) true id x Hx).
Qed.

Lemma destroy_http : gone y = true -> outcome (on_activity Destroy y srv).
Proof.
  intros Hg. pose proof (co_gone _ _ _ Hy Hg) as Hst. assert (Hnc : state_ (world y) <> kConnecting) by (by rewrite Hst).
  destruct (co_up _ _ _ Hy Hnc) as [Hok [_ Hwr _] _ _ Hse _ Hto _ _]. cbn [as_http HttpConnection.world] in *.
  destruct (connectDestroyed_down (callback srv (name y)) (world y) Hst) as (Hst' & Hs & Ht).
  assert (Hok' : stream_ok (connectDestroyed (callback srv (name y)) (world y))).
  { apply connectDestroyed_ok; [|done]. intros k w Hk. rewrite callback_http by done. by apply HttpConnection.http_callback_ok. }
  unfold on_activity. cbn [handle fragment message]. rewrite app_nil_r.
  set (w := connectDestroyed _ _) in *. clearbody w.
  apply (settled_here _ _ (ctx_of srv (name y))); [done|done|apply table_set_id|done|]. apply HttpConnection.forget_ok.
  assert (Hh : halfcloses w = halfcloses (world y)) by (unfold halfcloses; by rewrite Ht).
  split; unfold HttpConnection.delivered in *; cbn [HttpConnection.world HttpConnection.frags]; rewrite ?Hst', ?Hs; try done.
  - split; rewrite ?Hst', ?Hh, ?Hs; done.
  - unfold told. rewrite Ht. fold (told (world y)). by rewrite Hto, Hst.
Qed.
Lemma kernel_http rs : outcome (on_activity (Kernel rs) y srv).
Proof.
  destruct (decide (state_ (world y) = kConnecting)) as [Hst|Hnc].
  - destruct (co_new _ _ _ Hy Hst) as (fd & s & ws & Hw & Hc & Hm & Hf). unfold outcome, on_activity.
    cbn [handle fragment message fst snd]. unfold tell.
    change (told (set_writes rs (world y))) with (told (world y)). rewrite drop_all. cbn [fold_left]. rewrite app_nil_r.
    split; [|exists (ctx_of srv (name y)); apply table_set_id].
    split; cbn [world name frags gone]; [|done|exact (co_ctx _ _ _ Hy)|exact (co_gone _ _ _ Hy)].
    intros _. exists fd, s, rs. by rewrite Hw.
  - eapply other_http; [by right; right; eauto|done|reflexivity|done|]. apply HttpConnection.forget_ok.
    exact (HttpConnection.http_step_ok stateless tt (ctx0 mb) true x _ (HttpConnection.http_kernel stateless rs x) (co_up _ _ _ Hy Hnc)).
Qed.

Lemma activity_http a : enabled a y -> outcome (on_activity a y srv).
Proof.
  destruct a; simpl; intros Hen.
  - by apply establish_http.
  - by destruct Hen; apply readable_http.
  - by apply writable_http.
  - by apply expired_http.
  - apply kernel_http.
  - by apply destroy_http.
Qed.
End activity.

(** ** The whole service *)
Section system.
Context {D : Type} `{Double D}.
Notation Service := (System (A := HttpServer.HttpServer) (D := D)).

Record service_ok (mb : Z) (e : Service) : Prop := {
  sv_linked : linked 0 e;
  sv_tls : HttpServer.tls_ctx_ (app e) = false;
  sv_max : HttpServer.max_body_bytes_ (app e) = mb;
  sv_conns : Forall (conn_ok mb (app e)) (sessions e);
  sv_table : forall n, is_Some (ctx_of (app e) n) -> n ∈ map name (sessions e);
}.

Lemma on_session_service mb i a x e :
  service_ok mb e -> sessions e !! i = Some x -> enabled a x -> service_ok mb (on_session i a e).
Proof.
  intros [Hlk Ht Hm Hcs Htb] Hi Hen. pose proof (on_session_linked 0 i a x e Hlk Hi) as Hlk'.
  assert (Hx : conn_ok mb (app e) x) by (rewrite Forall_lookup in Hcs; eauto).
  destruct (activity_http mb (app e) x Ht Hm Hx a Hen) as [Hok [c [_ Hot Ht' Hm']]].
  unfold on_session in *. rewrite Hi in *. destruct (on_activity a x (app e)) as [x' srv'] eqn:E. cbn [fst snd] in *.
  assert (Hnm : name x' = name x) by (unfold on_activity in E; by injection E as <- _).
  split; cbn [sessions app]; [done|congruence|congruence| |].
  - apply Forall_lookup. intros j y Hj. rewrite Forall_lookup in Hcs. destruct (decide (i = j)) as [<-|Hne].
    + rewrite list_lookup_insert_eq in Hj by (by eapply lookup_lt_Some). by injection Hj as <-.
    + rewrite list_lookup_insert_ne in Hj by done. apply (conn_ok_table mb (app e)); [|by eapply Hcs].
      apply Hot. intros En. destruct Hne. by eapply (names_distinct 0 e i j x y).
  - intros n Hn. rewrite list_fmap_insert, list_insert_id by (by rewrite list_lookup_fmap, Hi; simpl; rewrite Hnm).
    destruct (decide (n = name x)) as [->|Hne]; [|by apply Htb; rewrite <-Hot].
    apply list_elem_of_fmap_2. by eapply list_elem_of_lookup_2.
Qed.

Lemma on_accept_service mb fd now e :
  service_ok mb e -> (TcpServer.next_conn_id_ (server e) < 2 ^ 31 - 1)%Z -> service_ok mb (on_accept fd now e).
Proof.
  intros [Hlk Ht Hm Hcs Htb] Hlt. destruct (on_accept_cases 0 fd now e Hlk Hlt) as [Hlk' He]. cbn zeta in *.
  set (e' := on_accept fd now e) in *. clearbody e'.
  destruct He as [(Es & Ea & _)|[(Es & Ea & _)|(n & s & Es & Ea & _ & Hfr & Hhc & Hhm)]];
    (split; [done|rewrite Ea..|rewrite Ea, Es]); try done; rewrite ?Es; try done.
  - apply Forall_app. split; [done|]. constructor; [|constructor].
    assert (Hn : ctx_of (app e) n = None) by (destruct (ctx_of (app e) n) eqn:E; [|done]; destruct Hfr; apply Htb; by rewrite E).
    split; cbn [fresh_session name frags gone world]; try done.
    + intros _. exists fd, s, []. done.
    + rewrite Hn. unfold open. split; [by intros []|by intros []].
  - intros m Hs. rewrite map_app. apply elem_of_app. left. by apply Htb.
Qed.

Lemma on_removed_service mb i x e :
  service_ok mb e -> sessions e !! i = Some x -> gone x = false -> state_ (world x) = kDisconnected ->
  service_ok mb (on_removed i e).
Proof.
  intros [Hlk Ht Hm Hcs Htb] Hi Hgo Hst. destruct (on_removed_linked 0 i x e Hlk Hi Hgo) as [Hlk' _].
  split; [done|..]; unfold on_removed; rewrite Hi; cbn [sessions app]; try done; set (x' := mkSession _ _ _ true).
  - apply Forall_insert; [done|]. rewrite Forall_lookup in Hcs. destruct (Hcs i x Hi). by split.
  - intros n Hn. rewrite list_fmap_insert, list_insert_id by (by rewrite list_lookup_fmap, Hi). by apply Htb.
Qed.

Lemma service_step_ok mb (e e' : Service) : step e e' -> service_ok mb e -> service_ok mb e'.
Proof. intros [] Hok; [by apply on_accept_service|by eapply on_session_service|by eapply on_removed_service]. Qed.

Lemma service_start_ok nm ip_port keep_alive mb max_input io_loops :
  service_ok mb (service_start nm ip_port keep_alive mb max_input io_loops).
Proof.
  split; [|done|done|constructor|by intros n [? ?]].
  set (s0 := TcpServer.TcpServer_new nm ip_port TcpServer.Limits_new false 0 0 : TcpServer.TcpServer D).
  split; [|done|constructor|done|done]. by apply (TcpServer.ok_view s0), TcpServer.new_ok.
Qed.

Lemma reachable_service_ok nm ip_port keep_alive mb max_input io_loops (e : Service) :
  rtc step (service_start nm ip_port keep_alive mb max_input io_loops) e -> service_ok mb e.
Proof.
  intros Hr. pose proof (service_start_ok nm ip_port keep_alive mb max_input io_loops) as H0. revert H0.
  induction Hr; eauto using service_step_ok.
Qed.

End system.
End service.

(** Two clients: the second one's request arrives in the middle of the first one's. *)
Definition demo_handler (req : HttpRequest.HttpRequest) (resp : HttpResponse.HttpResponse) : HttpResponse.HttpResponse :=
  HttpResponse.setBody (HttpRequest.path_ req) resp.
Notation "x ▷ f" := (f x) (at level 50, left associativity, only parsing).
Notation Demo := (System (A := HttpServer.HttpServer) (D := Q)).
#[local] Instance demo_application : Application HttpServer.HttpServer := http_application (Some demo_handler).
Definition read (s : bytes) : activity := Readable (Buffer.ReadvOk s).
Definition demo0 : Demo := service_start (bs "web") (bs "0.0.0.0:80") 60 100 0 [].
Definition demo2 : Demo :=
  demo0 ▷ on_accept 7 1 ▷ on_accept 8 2 ▷ on_session 0 Establish ▷ on_session 1 Establish ▷ on_session 0 (Kernel [WriteOk 9])
        ▷ on_session 1 (Kernel [WriteOk 900]).
Definition demo_requests : Demo :=
  demo2 ▷ on_session 0 (read (bs "GET /a HT")) ▷ on_session 1 (read (bs "GET /b HTTP/1.1" ++ CRLF ++ CRLF))
        ▷ on_session 0 (read (bs "TP/1.1" ++ CRLF ++ CRLF)).

Ltac demo_step :=
  match goal with
  | |- step _ (on_accept _ _ _) => apply step_accept; vm_compute; reflexivity
  | |- step _ (on_session _ (Kernel _) _) => eapply step_session; [vm_compute; reflexivity|exact I]
  | |- step _ (on_session _ Establish _) => eapply step_session; vm_compute; reflexivity
  | |- step _ (on_session _ (read _) _) => eapply step_session; [vm_compute; reflexivity|split; vm_compute; discriminate]
  end.

End HttpService.
