(* ===== verification/RestServer.v ===== *)
(** * The REST server, from the client's request to its response
    (examples/http/rest_server.cc on http/)

    The whole stack in one statement: requests written by the client's
    [HttpRequest::appendTo], cut into reads by TCP among other clients' traffic,
    parsed, routed, answered, written out piecewise and read back by the client's
    [ResponseParser].  The handlers are those of the example server. *)

From Stdlib Require Import QArith.
From stdpp Require Import gmap.
From S2P Require Import Prelude StdMap CStr Buffer Url HttpMessage HttpContext HttpParse HttpRoundtrip ResponseParser ResponseRoundtrip Router HttpServer EventLoop Double TcpConnection TcpFrames HttpConnection TcpServer ServerSystem HttpService.
Import TcpConnection TcpFrames ServerSystem.
Close Scope Q_scope.
Open Scope nat_scope.

Module RestServer.
#[local] Opaque HttpServer.process.

(** ** What the client reads *)

(** A client's parser over a stream of responses: [reset] before each. *)
Fixpoint read_responses (n : nat) (s : bytes) : list HttpResponse.HttpResponse :=
  match n with
  | O => []
  | S n =>
    match ResponseParser.parse ResponseParser.reset s with
    | (true, p, rest) => if ResponseParser.gotAll p then ResponseParser.response_ p :: read_responses n rest else []
    | _ => []
    end
  end.

Lemma read_responses_all rs :
  Forall ResponseRoundtrip.sendable rs ->
  read_responses (length rs) (concat (map HttpServer.serialize rs)) = map ResponseRoundtrip.client_view rs.
Proof.
  induction 1 as [|r rs Hr _ IH]; [done|]. cbn [length map concat read_responses].
  destruct (ResponseRoundtrip.parse_appended r Buffer.kInitialSize (concat (map HttpServer.serialize rs)) Hr) as (p & Hp & Hg & He).
  change (HttpServer.serialize r) with (Buffer.content (HttpResponse.appendTo r (Buffer.Buffer_new Buffer.kInitialSize))).
  rewrite Hp, Hg, He. by rewrite IH.
Qed.

(** ** Any handler *)
Section handler.
Variable h : HttpRequest.HttpRequest -> HttpResponse.HttpResponse -> HttpResponse.HttpResponse.

(** The response the server sends to a request. *)
Definition answer (req : HttpRequest.HttpRequest) : HttpResponse.HttpResponse :=
  let keep_alive := HttpRequest.keepAlive req in
  HttpResponse.setKeepAlive keep_alive (h req (HttpResponse.HttpResponse_new keep_alive)).

Lemma serve_all_answers reqs :
  HttpConnection.responses (HttpServer.serve_all (HttpService.stateless (Some h)) tt reqs).2 =
  map (fun req => HttpServer.serialize (answer req)) reqs.
Proof.
  unfold HttpConnection.responses. induction reqs as [|req reqs IH]; [done|].
  cbn [HttpServer.serve_all map snd]. rewrite omap_app. f_equal. exact IH.
Qed.

Lemma exchange mb rhs :
  Forall (HttpServer.pipelinable (HttpService.ctx0 mb)) rhs ->
  HttpConnection.responses (HttpServer.l_trace (HttpServer.process (HttpService.stateless (Some h)) tt (HttpService.ctx0 mb)
    (concat (map HttpServer.request_bytes rhs)))) =
  map (fun rh => HttpServer.serialize (answer (received rh.1 rh.2))) rhs.
Proof.
  intros Hall. pose proof (HttpServer.process_pipeline (HttpService.stateless (Some h)) rhs tt _ Hall) as Hp. cbn zeta in Hp.
  change (HttpContext.reset (HttpService.ctx0 mb)) with (HttpService.ctx0 mb) in Hp. destruct Hp as (-> & _).
  by rewrite serve_all_answers, map_map.
Qed.

(** Once the server has read the requests, in whatever pieces, the responses to
    exactly these requests are on the wire or queued, and the client reads them. *)
Lemma end_to_end {D : Type} `{Double D} nm ip_port keep_alive mb max_input io_loops
    (e : System (A := HttpServer.HttpServer) (D := D)) y rhs :
  rtc (step (H := HttpService.http_application (Some h))) (HttpService.service_start nm ip_port keep_alive mb max_input io_loops) e ->
  y ∈ sessions e -> state_ (world y) <> kConnecting ->
  concat (frags y) = concat (map HttpServer.request_bytes rhs) -> (zlen (concat (frags y)) < two64)%Z ->
  Forall (HttpServer.pipelinable (HttpService.ctx0 mb)) rhs ->
  Forall (fun rh => ResponseRoundtrip.sendable (answer (received rh.1 rh.2))) rhs ->
  let stream := wire (world y) ++ Buffer.content (output_buffer_ (world y)) in
  let answers := map (fun rh => answer (received rh.1 rh.2)) rhs in
  stream = concat (map HttpServer.serialize answers) /\
  read_responses (length rhs) stream = map ResponseRoundtrip.client_view answers /\
  (outputBufferPending (world y) = 0 -> wire (world y) = concat (map HttpServer.serialize answers)).
Proof.
  intros Hr Hin Hnc Hf Hlen Hp Hs stream answers.
  pose proof (HttpService.sv_conns _ _ _ (HttpService.reachable_service_ok _ _ _ _ _ _ _ _ Hr)) as Hcs.
  rewrite Forall_forall in Hcs. pose proof (HttpService.co_up _ _ _ _ (Hcs y Hin) Hnc) as Hx.
  destruct (HttpConnection.session_exact _ mb tt true _ Hx Hlen) as (Hw & _).
  cbn [HttpService.as_http HttpConnection.world HttpConnection.frags] in Hw. rewrite Hf in Hw.
  change (HttpContext.setMaxBodyBytes mb HttpContext.HttpContext_new) with (HttpService.ctx0 mb) in Hw.
  rewrite exchange in Hw by done. fold stream in Hw.
  assert (Hst : stream = concat (map HttpServer.serialize answers)) by (unfold answers; by rewrite map_map).
  split_and!; [done| |].
  - rewrite Hst. unfold answers. rewrite <-(length_map (fun rh => answer (received rh.1 rh.2)) rhs).
    apply read_responses_all. by rewrite Forall_map.
  - intros Hp0. rewrite <-Hst. unfold stream. assert (Buffer.content (output_buffer_ (world y)) = []) as ->; [|by rewrite app_nil_r].
    apply length_0_nil. rewrite Buffer.length_content; [done|]. apply (HttpConnection.se_stream _ _ _ _ _ Hx).
Qed.
End handler.

(** ** The example's routes *)
Import HttpResponse.
Definition JSON : bytes := bs "application/json".
Definition QUOTE : bytes := ["034"%char].
(** A member of a JSON object. *)
Definition member (key value : bytes) : bytes := QUOTE ++ key ++ QUOTE ++ bs ":" ++ QUOTE ++ value ++ QUOTE.

Definition health : Router.Handler := fun _ _ resp =>
  setBody (bs "{" ++ member (bs "status") (bs "ok") ++ bs "}") (setContentType JSON (setStatus 200 [] resp)).
Definition users : Router.Handler := fun _ p resp =>
  let id := default [] (mlookup (bs "id") p) in
  setBody (bs "{" ++ member (bs "id") id ++ bs "," ++ member (bs "name") (bs "user" ++ id) ++ bs "}")
    (setContentType JSON (setStatus 200 [] resp)).
Definition search : Router.Handler := fun req _ resp =>
  let q := (HttpRequest.queryParam (bs "q") req).1 in
  let page := if (HttpRequest.hasQueryParam (bs "page") req).1 then (HttpRequest.queryParam (bs "page") req).1 else bs "1" in
  setBody (bs "{" ++ member (bs "q") q ++ bs "," ++ member (bs "page") page ++ bs "}")
    (setContentType JSON (setStatus 200 [] resp)).
Definition form : Router.Handler := fun req _ resp =>
  setBody (match mlookup (bs "name") (HttpRequest.formParams req) with
           | Some v => bs "hello " ++ v
           | None => bs "no name"
           end) (setContentType (bs "text/plain") (setStatus 200 [] resp)).
Definition echo : Router.Handler := fun req _ resp =>
  setBody (HttpRequest.body_ req) (setContentType (bs "text/plain") (setStatus 200 [] resp)).

Definition router : Router.Router :=
  Router.post (bs "/echo") echo (Router.post (bs "/form") form (Router.get (bs "/search") search
    (Router.get (bs "/users/{id}") users (Router.get (bs "/health") health [])))).
Definition rest_handler (req : HttpRequest.HttpRequest) (resp : HttpResponse) : HttpResponse :=
  (Router.route router req resp).2.

(** ** What the server promises *)
Inductive endpoint := Health | User (id : bytes) | Search | Form | Echo.

Definition endpoint_of (segs : list bytes) : option endpoint :=
  match segs with
  | [s] => if bool_decide (s = bs "health") then Some Health
           else if bool_decide (s = bs "search") then Some Search
           else if bool_decide (s = bs "form") then Some Form
           else if bool_decide (s = bs "echo") then Some Echo else None
  | [s; id] => if bool_decide (s = bs "users") then Some (User (urlDecode false id)) else None
  | _ => None
  end.
Definition method_of (ep : endpoint) : Method :=
  match ep with Form | Echo => kPost | _ => kGet end.
(** Content type and body of the response to the right method. *)
Definition content_of (ep : endpoint) (req : HttpRequest.HttpRequest) : bytes * bytes :=
  match ep with
  | Health => (JSON, bs "{" ++ member (bs "status") (bs "ok") ++ bs "}")
  | User id => (JSON, bs "{" ++ member (bs "id") id ++ bs "," ++ member (bs "name") (bs "user" ++ id) ++ bs "}")
  | Search =>
    let param k := mlookup k (HttpRequest.queryParams req).1 in
    (JSON, bs "{" ++ member (bs "q") (default [] (param (bs "q"))) ++ bs "," ++
           member (bs "page") (default (bs "1") (param (bs "page"))) ++ bs "}")
  | Form => (bs "text/plain", match mlookup (bs "name") (HttpRequest.formParams req) with
                              | Some v => bs "hello " ++ v
                              | None => bs "no name"
                              end)
  | Echo => (bs "text/plain", HttpRequest.body_ req)
  end.
(** Status, content type and body. *)
Definition rest_spec (req : HttpRequest.HttpRequest) : Z * (bytes * bytes) :=
  match endpoint_of (Router.path_segments (HttpRequest.path_ req)) with
  | None => (404%Z, (bs "text/plain", bs "Not Found"))
  | Some ep =>
    if bool_decide (method_of ep = HttpRequest.method_ req) then (200%Z, content_of ep req)
    else (405%Z, (bs "text/plain", bs "Method Not Allowed"))
  end.
Definition respond_with (c : Z * (bytes * bytes)) (resp : HttpResponse) : HttpResponse :=
  setBody c.2.2 (setContentType c.2.1 (setStatus c.1 [] resp)).

Definition routes : list Router.Route := [
  Router.mkRoute kGet [bs "health"] [false] health;
  Router.mkRoute kGet [bs "users"; bs "id"] [false; true] users;
  Router.mkRoute kGet [bs "search"] [false] search;
  Router.mkRoute kPost [bs "form"] [false] form;
  Router.mkRoute kPost [bs "echo"] [false] echo].
Lemma router_routes : router = routes.
Proof. reflexivity. Qed.

Lemma search_content req resp : search req [] resp = respond_with (200%Z, content_of Search req) resp.
Proof.
  unfold search, content_of, HttpRequest.hasQueryParam, HttpRequest.queryParam, respond_with.
  destruct (HttpRequest.queryParams req) as [p r1]. cbn [fst snd]. unfold mhas. by destruct (mlookup (bs "page") p).
Qed.

Lemma rest_routes req resp : rest_handler req resp = respond_with (rest_spec req) resp.
Proof.
  unfold rest_handler, Router.route, rest_spec. rewrite (proj2 (Router.splitPath_correct _)), router_routes.
  set (segs := Router.path_segments _). unfold routes. cbn [Router.route_loop Router.method Router.handler].
  unfold Router.matchRoute. cbn [Router.segments Router.is_param length].
  destruct segs as [|s [|id [|x l]]]; try done; cbn [length Nat.eqb Router.match_segments endpoint_of].
  all: repeat (case_bool_decide; simplify_eq/=; try done); apply search_content.
Qed.

(** Every response of the server is one a client can read. *)
Lemma respond_with_sendable code type_ body k :
  code ∈ [200; 404; 405]%Z -> type_ ∈ [JSON; bs "text/plain"] -> (zlen body < two64)%Z ->
  ResponseRoundtrip.sendable (setKeepAlive k (respond_with (code, (type_, body)) (HttpResponse_new k))).
Proof.
  intros Hc Ht Hb. assert (Hf : field_ok (bs "Content-Type", type_)).
  { rewrite !elem_of_cons, elem_of_nil in Ht. destruct Ht as [->|[->|[]]]; split_and!; try done;
      by apply (bool_decide_eq_true_1 (_ ∉ _)); vm_compute. }
  assert (Hh : headers_ (setKeepAlive k (respond_with (code, (type_, body)) (HttpResponse_new k))) = [(bs "Content-Type", type_)]) by done.
  split; rewrite ?Hh; [|split| | | | |done].
  - simpl. rewrite !elem_of_cons, elem_of_nil in Hc. lia.
  - rewrite !elem_of_cons, elem_of_nil in Hc. destruct Hc as [->|[->|[->|[]]]];
      by apply (bool_decide_eq_true_1 (_ ∉ _)); vm_compute.
  - rewrite !elem_of_cons, elem_of_nil in Hc. by destruct Hc as [->|[->|[->|[]]]].
  - repeat constructor.
  - by constructor.
  - by constructor.
  - assert (Hl : length (to_string (zlen body)) <= 64) by (apply length_to_string; split; [apply zlen_nonneg|done]).
    assert (Hty : length type_ <= 20) by (rewrite !elem_of_cons, elem_of_nil in Ht; destruct Ht as [->|[->|[]]]; vm_compute; lia).
    assert (Hw : ResponseRoundtrip.wire_fields (setKeepAlive k (respond_with (code, (type_, body)) (HttpResponse_new k))) =
      [(bs "Content-Length", to_string (zlen body)); (bs "Connection", if k then bs "keep-alive" else bs "close");
       (bs "Content-Type", type_)]) by (by destruct k).
    rewrite Hw. unfold zlen at 1, ResponseRoundtrip.header_line, HttpRequest.header_line. cbn [map concat fst snd].
    assert (Hk : length (if k then bs "keep-alive" else bs "close") <= 10) by (destruct k; vm_compute; lia).
    assert (length (bs "Content-Length") = 14 /\ length (bs "Connection") = 10 /\ length (bs "Content-Type") = 12 /\
            length (bs ": ") = 2 /\ length CRLF = 2) as (? & ? & ? & ? & ?) by done.
    rewrite !length_app. change ResponseParser.kMaxHeaderBytes with 65536%Z. cbn [length]. lia.
Qed.

Lemma rest_sendable req :
  (zlen (rest_spec req).2.2 < two64)%Z -> ResponseRoundtrip.sendable (answer rest_handler req).
Proof.
  intros Hb. unfold answer. rewrite rest_routes. unfold rest_spec in *.
  destruct (endpoint_of _) as [ep|]; [case_match; [destruct ep|]|];
    (apply respond_with_sendable; [| |exact Hb]); rewrite !elem_of_cons; auto.
Qed.

(** What a client sees of a response. *)
Definition seen (r : HttpResponse) : Z * option bytes * bytes :=
  (status_code_ r, mlookup (bs "Content-Type") (headers_ r), body_ r).

Lemma rest_seen req :
  seen (ResponseRoundtrip.client_view (answer rest_handler req)) =
  ((rest_spec req).1, Some (rest_spec req).2.1, (rest_spec req).2.2).
Proof.
  unfold answer. rewrite rest_routes. destruct (rest_spec req) as [c [t b]]. unfold seen, ResponseRoundtrip.client_view.
  cbn [status_code_ headers_ body_]. rewrite !mlookup_insert_ne by done. done.
Qed.

(** C5: end to end: clients of the REST server send any requests they may
    pipeline, written by [HttpRequest::appendTo]; however TCP cuts them into reads,
    whatever other clients, timers and partial writes do in between, once the server
    has read a connection's requests, a client that parses the bytes on that wire
    and those still queued with [ResponseParser] sees for each request, in order and
    once, the status, content type and body the server promises: the endpoint's
    content for its path and method (with the decoded path, query and form
    parameters), 405 for another method and 404 for another path. *)
Theorem rest_end_to_end {D : Type} `{Double D} nm ip_port keep_alive mb max_input io_loops
    (e : System (A := HttpServer.HttpServer) (D := D)) y rhs :
  rtc (step (H := HttpService.http_application (Some rest_handler)))
    (HttpService.service_start nm ip_port keep_alive mb max_input io_loops) e ->
  y ∈ sessions e -> state_ (world y) <> kConnecting ->
  concat (frags y) = concat (map HttpServer.request_bytes rhs) -> (zlen (concat (frags y)) < two64)%Z ->
  Forall (HttpServer.pipelinable (HttpService.ctx0 mb)) rhs ->
  Forall (fun rh => (zlen (rest_spec (received rh.1 rh.2)).2.2 < two64)%Z) rhs ->
  let stream := wire (world y) ++ Buffer.content (output_buffer_ (world y)) in
  map seen (read_responses (length rhs) stream) =
    map (fun rh => let '(code, (type_, body)) := rest_spec (received rh.1 rh.2) in (code, Some type_, body)) rhs /\
  (outputBufferPending (world y) = 0 -> wire (world y) = stream).
Proof.
  intros Hr Hin Hnc Hf Hlen Hp Hb stream.
  destruct (end_to_end rest_handler nm ip_port keep_alive mb max_input io_loops e y rhs) as (Hs & Hrd & Hw); try done.
  { eapply Forall_impl; [exact Hb|]. intros rh Hrh. by apply rest_sendable. }
  fold stream in Hs, Hrd, Hw. split; [|intros Hp0; by rewrite Hs, Hw].
  rewrite Hrd, !map_map. apply map_ext. intros rh. rewrite rest_seen. by destruct (rest_spec _) as [c [t b]].
Qed.

(** A client asks for a user and for a path the server does not know, in three
    reads. *)
Definition get_request (path : bytes) : HttpRequest.HttpRequest * bytes :=
  (HttpRequest.setPath path (HttpRequest.setMethod kGet HttpRequest.HttpRequest_new), bs "h:80").
Definition demo_requests : list (HttpRequest.HttpRequest * bytes) := [get_request (bs "/users/a%2Fb"); get_request (bs "/x")].
Definition demo_bytes : bytes := concat (map HttpServer.request_bytes demo_requests).
#[local] Instance demo_application : Application HttpServer.HttpServer := HttpService.http_application (Some rest_handler).
Notation Demo := (System (A := HttpServer.HttpServer) (D := Q)).
Definition demo0 : Demo := HttpService.service_start (bs "rest") (bs "0.0.0.0:80") 60 100 0 [].
Definition demo_up : Demo := on_session 0 (Kernel [WriteOk 7]) (on_session 0 Establish (on_accept 7 1 demo0)).
Definition demo_end : Demo :=
  on_session 0 (HttpService.read (drop 50 demo_bytes)) (on_session 0 (HttpService.read (take 40 (drop 10 demo_bytes)))
    (on_session 0 (HttpService.read (take 10 demo_bytes)) demo_up)).
Definition demo_conn : Session := default (fresh_session [] 0 Settings_new) (sessions demo_end !! 0).

Lemma demo_request_sendable path : path ∈ [bs "/users/a%2Fb"; bs "/x"] -> sendable (get_request path).1 (bs "h:80").
Proof.
  rewrite !elem_of_cons, elem_of_nil. intros [->|[->|[]]]; (split; try done);
    try (split_and!; try done; by apply (bool_decide_eq_true_1 (_ ∉ _)); vm_compute); repeat constructor;
    by apply (bool_decide_eq_true_1 (_ ∉ _)); vm_compute.
Qed.

Lemma rest_end_to_end_witness :
  map seen (read_responses 2 (wire (world demo_conn) ++ Buffer.content (output_buffer_ (world demo_conn)))) =
  [(200%Z, Some JSON, bs "{" ++ member (bs "id") (bs "a/b") ++ bs "," ++ member (bs "name") (bs "usera/b") ++ bs "}");
   (404%Z, Some (bs "text/plain"), bs "Not Found")].
Proof.
  refine (proj1 (rest_end_to_end (bs "rest") (bs "0.0.0.0:80") 60 100 0 [] demo_end demo_conn demo_requests _ _ _ _ _ _ _)).
  - unfold demo_end, demo_up. do 5 (eapply rtc_r; [|HttpService.demo_step]). apply rtc_once. HttpService.demo_step.
  - apply (list_elem_of_lookup_2 _ 0). vm_compute. reflexivity.
  - vm_compute. discriminate.
  - vm_compute. reflexivity.
  - vm_compute. reflexivity.
  - repeat (constructor; [split_and!; [apply demo_request_sendable; repeat constructor|right; vm_compute; discriminate|reflexivity]|]). constructor.
  - repeat (constructor; [vm_compute; reflexivity|]). constructor.
Defined.
End RestServer.
