(* ===== verification/ThreadPool.v ===== *)
(** * The worker thread pool (concurrent/thread_pool.h, concurrent/thread_pool.cc)

    Every access to the queue holds the mutex, so a critical section is one
    step; a thread in a condition-variable wait is [Waiting] until a notification
    (or a spurious wakeup) makes it [Woken], and then evaluates its predicate
    again.  [notify_one] wakes some waiting worker: which one is the scheduler's
    choice.  The steps of all threads interleave in any order. *)

From S2P Require Import Prelude.

Module ThreadPool.

(** Tasks are known by their numbers. *)
Abbreviation task := nat.

(** A worker in [runInThread]: before [takeBatch], inside its wait, running its
    batch, or returned. *)
Inductive worker := Ready | Waiting | Woken | Running (batch : list task) | Exited.
#[export] Instance worker_eq_dec : EqDecision worker.
Proof. solve_decision. Defined.

(** A producer inside [run]'s wait for space. *)
Inductive producer := PWaiting (t : task) | PWoken (t : task).

Record ThreadPool := mkPool {
  queue_ : list task;
  threads_ : list worker;
  max_queue_size_ : nat;
  take_batch_size_ : nat;
  running_ : bool;
  blocked : list producer;
  stop_notified : bool;       (* stop() has passed its notify_all calls *)
  accepted : list task;       (* enqueued, in order *)
  dropped : list task;        (* refused by run() or tryRun() *)
  taken : list task;          (* removed from the queue, in order *)
  finished : list task;       (* executed by workers, in order of completion *)
  inlined : list task;        (* executed by the caller: there are no workers *)
}.
#[export] Instance ThreadPool_settable : Settable ThreadPool := fun p =>
  mkPool (queue_ p) (threads_ p) (max_queue_size_ p) (take_batch_size_ p) (running_ p) (blocked p)
    (stop_notified p) (accepted p) (dropped p) (taken p) (finished p) (inlined p).

(** [ThreadPool()] with its setters, then [start(num_threads)]. *)
Definition start (max_queue_size take_batch_size num_threads : nat) : ThreadPool :=
  mkPool [] (replicate num_threads Ready) max_queue_size take_batch_size true [] false [] [] [] [] [].

Definition isFull (p : ThreadPool) : bool :=
  (0 <? max_queue_size_ p) && (max_queue_size_ p <=? length (queue_ p)).

Definition queueSize (p : ThreadPool) : nat := length (queue_ p).

(** [not_empty_.notify_one()], the scheduler choosing worker [i]. *)
Definition notify_one (i : nat) (p : ThreadPool) : ThreadPool :=
  match threads_ p !! i with
  | Some Waiting => p <| threads_ := <[i := Woken]> (threads_ p) |>
  | _ => p
  end.

Definition wake_worker (w : worker) : worker := match w with Waiting => Woken | _ => w end.
Definition wake_producer (b : producer) : producer := match b with PWaiting t => PWoken t | _ => b end.

(** [queue_.push_back(task); not_empty_.notify_one()] *)
Definition enqueue (i : nat) (t : task) (p : ThreadPool) : ThreadPool :=
  notify_one i (p <| queue_ := queue_ p ++ [t] |> <| accepted := accepted p ++ [t] |>).

(** [run(task)]: inline without workers, else from where it holds the mutex,
    with the wait's predicate. *)
Definition run (i : nat) (t : task) (p : ThreadPool) : ThreadPool :=
  if length (threads_ p) =? 0 then p <| inlined := inlined p ++ [t] |>
  else if negb (isFull p) || negb (running_ p) then
    if running_ p then enqueue i t p else p <| dropped := dropped p ++ [t] |>
  else p <| blocked := blocked p ++ [PWaiting t] |>.

Definition tryRun (i : nat) (t : task) (p : ThreadPool) : bool * ThreadPool :=
  if length (threads_ p) =? 0 then (true, p <| inlined := inlined p ++ [t] |>)
  else if negb (running_ p) then (false, p <| dropped := dropped p ++ [t] |>)
  else if isFull p then (false, p <| dropped := dropped p ++ [t] |>)
  else (true, enqueue i t p).

(** How many tasks a worker takes. *)
Definition batch_size (p : ThreadPool) : nat :=
  let workers := if length (threads_ p) =? 0 then 1 else length (threads_ p) in
  let fair_share := (length (queue_ p) + workers - 1) / workers in
  let cap := if 0 <? take_batch_size_ p then take_batch_size_ p else 1 in
  Nat.min cap (Nat.min fair_share (length (queue_ p))).

(** [takeBatch] by worker [i], from where it evaluates the wait's predicate. *)
Definition takeBatch (i : nat) (p : ThreadPool) : ThreadPool :=
  if length (queue_ p) =? 0 then
    if running_ p then p <| threads_ := <[i := Waiting]> (threads_ p) |>
    else p <| threads_ := <[i := Exited]> (threads_ p) |>    (* an empty batch ends the worker *)
  else
    let was_full := isFull p in
    let n := batch_size p in
    let out := take n (queue_ p) in
    let p := p <| queue_ := drop n (queue_ p) |> <| taken := taken p ++ out |>
               <| threads_ := <[i := Running out]> (threads_ p) |> in
    if was_full then p <| blocked := map wake_producer (blocked p) |> else p.

(** [stop()]: clear the flag under the mutex, then notify everyone. *)
Definition stop_flag (p : ThreadPool) : ThreadPool := p <| running_ := false |>.
Definition stop_notify (p : ThreadPool) : ThreadPool :=
  ((p <| threads_ := map wake_worker (threads_ p) |>) <| blocked := map wake_producer (blocked p) |>)
    <| stop_notified := true |>.

(** The end of [stop()]: the workers are joined and forgotten. *)
Definition stop_join (p : ThreadPool) : ThreadPool := p <| threads_ := [] |>.

(** [notify_one] wakes a waiting worker if there is one. *)
Definition choice_ok (i : nat) (p : ThreadPool) : Prop :=
  Waiting ∈ threads_ p -> threads_ p !! i = Some Waiting.

Inductive step : ThreadPool -> ThreadPool -> Prop :=
| step_run i t p : choice_ok i p -> step p (run i t p)
| step_tryRun i t p : choice_ok i p -> step p (tryRun i t p).2
| step_retry i k t p : blocked p !! k = Some (PWoken t) -> choice_ok i p ->
    step p (run i t (p <| blocked := delete k (blocked p) |>))
| step_take i p : threads_ p !! i = Some Ready \/ threads_ p !! i = Some Woken -> step p (takeBatch i p)
| step_task i t ts p : threads_ p !! i = Some (Running (t :: ts)) ->
    step p (p <| threads_ := <[i := Running ts]> (threads_ p) |> <| finished := finished p ++ [t] |>)
| step_batch_done i p : threads_ p !! i = Some (Running []) ->
    step p (p <| threads_ := <[i := Ready]> (threads_ p) |>)
| step_spurious i p : threads_ p !! i = Some Waiting ->
    step p (p <| threads_ := <[i := Woken]> (threads_ p) |>)
| step_spurious_producer k t p : blocked p !! k = Some (PWaiting t) ->
    step p (p <| blocked := <[k := PWoken t]> (blocked p) |>)
| step_stop p : running_ p = true -> step p (stop_flag p)
| step_stop_notify p : running_ p = false -> step p (stop_notify p)
| step_stop_join p : running_ p = false -> Forall (eq Exited) (threads_ p) -> step p (stop_join p).

(** [stop()] has joined: every worker returned. *)
Definition stopped (p : ThreadPool) : Prop := running_ p = false /\ Forall (eq Exited) (threads_ p).

(** ** Invariants *)
Definition batch_of (w : worker) : list task := match w with Running b => b | _ => [] end.
Definition awake (w : worker) : Prop := match w with Ready | Woken | Running _ => True | _ => False end.

Record pool_ok (p : ThreadPool) : Prop := {
  ok_bound : 0 < max_queue_size_ p -> length (queue_ p) <= max_queue_size_ p;
  ok_fifo : accepted p = taken p ++ queue_ p;
  ok_once : taken p ≡ₚ finished p ++ concat (map batch_of (threads_ p));
  ok_threads : threads_ p = [] -> running_ p = false /\ queue_ p = [];
  ok_exit : Exited ∈ threads_ p -> running_ p = false /\ queue_ p = [];
  ok_awake : running_ p = true -> queue_ p <> [] -> exists w, w ∈ threads_ p /\ awake w;
  ok_full : running_ p = true -> forall t, PWaiting t ∈ blocked p -> isFull p = true;
  ok_stopped : stop_notified p = true -> running_ p = false;
  ok_woken : stop_notified p = true -> (Waiting ∉ threads_ p) /\ (forall t, PWaiting t ∉ blocked p);
}.

Lemma elem_insert {A} (x w : A) (i : nat) (l : list A) : x ∈ <[i := w]> l -> x = w \/ x ∈ l.
Proof.
  intros (j & Hj)%list_elem_of_lookup. destruct (decide (i = j)) as [<-|Hne].
  - apply list_lookup_insert_Some in Hj as [(_ & <- & _)|(? & _)]; [by left|done].
  - rewrite list_lookup_insert_ne in Hj by done. right. by eapply list_elem_of_lookup_2.
Qed.

Lemma elem_insert_self {A} (w y : A) (i : nat) (l : list A) : l !! i = Some y -> w ∈ <[i := w]> l.
Proof.
  intros Hi. eapply list_elem_of_lookup_2, list_lookup_insert_eq. by eapply lookup_lt_Some.
Qed.

Lemma insert_nonnil {A} (w y : A) (i : nat) (l : list A) : l !! i = Some y -> <[i := w]> l <> [].
Proof. intros Hl He. apply (f_equal length) in He. rewrite length_insert in He. by destruct l. Qed.

(** Replacing one worker changes only its part of the tasks in progress. *)
Lemma batches_update i w l :
  l !! i = Some w ->
  exists rest, concat (map batch_of l) ≡ₚ batch_of w ++ rest /\
    forall w', concat (map batch_of (<[i := w']> l)) ≡ₚ batch_of w' ++ rest.
Proof. apply concat_map_insert. Qed.

Lemma batches_same i w w' l :
  l !! i = Some w -> batch_of w' = batch_of w ->
  concat (map batch_of (<[i := w']> l)) ≡ₚ concat (map batch_of l).
Proof. intros Hi E. destruct (batches_update i w l Hi) as (rest & -> & H). by rewrite H, E. Qed.

Lemma wake_worker_elem x l : x ∈ map wake_worker l -> x <> Waiting /\ (x = Woken \/ x ∈ l).
Proof.
  intros (y & -> & Hy)%list_elem_of_fmap. destruct y; simpl; split; try done; try (by left); by right.
Qed.

Lemma wake_producer_elem t l : PWaiting t ∉ map wake_producer l.
Proof. intros (y & E & _)%list_elem_of_fmap. by destruct y. Qed.

Lemma isFull_spec p : isFull p = true <-> 0 < max_queue_size_ p /\ max_queue_size_ p <= length (queue_ p).
Proof. unfold isFull. by rewrite andb_true_iff, Nat.ltb_lt, Nat.leb_le. Qed.

(** A worker going from one waiting or idle state to another. *)
Lemma ok_set_worker i w w' p :
  pool_ok p -> threads_ p !! i = Some w -> batch_of w' = batch_of w -> awake w' -> 
  pool_ok (p <| threads_ := <[i := w']> (threads_ p) |>).
Proof.
  intros [Hb Hf Ho Ht He Ha Hfu Hs Hw] Hi Eb Haw. split; simpl; try done.
  - by rewrite (batches_same i w w').
  - intros E. by apply (insert_nonnil w' w) in E.
  - intros [<-|Hx]%elem_insert; [by destruct Haw|by apply He].
  - intros _ _. exists w'. split; [by eapply elem_insert_self|done].
  - intros Hn. destruct (Hw Hn) as [H1 H2]. split; [|done]. intros [<-|Hx]%elem_insert; [by destruct Haw|done].
Qed.

Lemma ok_enqueue i t p :
  pool_ok p -> running_ p = true -> isFull p = false -> choice_ok i p -> pool_ok (enqueue i t p).
Proof.
  intros Hok Hr Hnf Hch. pose proof Hok as [Hb Hf Ho Ht He Ha Hfu Hs Hw].
  assert (Hnex : Exited ∉ threads_ p) by (intros Hx; destruct (He Hx); congruence).
  assert (Hns : stop_notified p = false) by (destruct (stop_notified p); [|done]; rewrite Hs in Hr; done).
  assert (Hlen : 0 < max_queue_size_ p -> S (length (queue_ p)) <= max_queue_size_ p).
  { intros Hm. destruct (decide (S (length (queue_ p)) <= max_queue_size_ p)); [done|].
    rewrite (proj2 (isFull_spec p)) in Hnf; [done|lia]. }
  assert (Htn : threads_ p <> []) by (intros E; destruct (Ht E); congruence).
  set (p1 := p <| queue_ := queue_ p ++ [t] |> <| accepted := accepted p ++ [t] |>).
  assert (Hcore : forall ths, ths <> [] -> concat (map batch_of ths) ≡ₚ concat (map batch_of (threads_ p)) ->
            Exited ∉ ths -> (exists w, w ∈ ths /\ awake w) -> pool_ok (p1 <| threads_ := ths |>)).
  { intros ths H1 H2 H3 H4. split; simpl; try done.
    - intros Hm. rewrite length_app. simpl. specialize (Hlen Hm). lia.
    - by rewrite Hf, app_assoc.
    - by rewrite H2.
    - intros _ t' Hin. exfalso. specialize (Hfu Hr t' Hin). congruence.
    - congruence. }
  change (enqueue i t p) with (notify_one i p1). unfold notify_one. change (threads_ p1) with (threads_ p).
  destruct (threads_ p !! i) as [w|] eqn:Ei.
  - destruct (decide (w = Waiting)) as [->|Hne].
    + apply Hcore; [by eapply insert_nonnil|by eapply batches_same| |exists Woken; split; [by eapply elem_insert_self|done]].
      intros [?|?]%elem_insert; done.
    + assert (Hnw : Waiting ∉ threads_ p) by (intros Hx; specialize (Hch Hx); congruence).
      assert (E : match w with Waiting => p1 <| threads_ := <[i := Woken]> (threads_ p) |> | _ => p1 end
                  = p1 <| threads_ := threads_ p |>) by (by destruct w).
      rewrite E. apply Hcore; try done. assert (Hin : w ∈ threads_ p) by (by eapply list_elem_of_lookup_2).
      exists w. split; [done|]. destruct w; try done.
  - assert (Hnw : Waiting ∉ threads_ p) by (intros Hx; specialize (Hch Hx); congruence).
    change p1 with (p1 <| threads_ := threads_ p |>). apply Hcore; try done.
    destruct (threads_ p) as [|w ws] eqn:E; [done|]. exists w. split; [by left|].
    destruct w; try done; exfalso; [apply Hnw|apply Hnex]; by left.
Qed.

Lemma ok_dropped l p : pool_ok p -> pool_ok (p <| dropped := l |>).
Proof. intros []. by split. Qed.

Lemma ok_run i t p : pool_ok p -> choice_ok i p -> pool_ok (run i t p).
Proof.
  intros Hok Hch. unfold run. case_match; [destruct Hok; by split|].
  destruct (isFull p) eqn:Ef, (running_ p) eqn:Er; simpl.
  - destruct Hok as [Hb Hf Ho Ht He Ha Hfu Hs Hw]. split; simpl; try done. intros Hn. rewrite Hs in Er; done.
  - by apply ok_dropped.
  - by apply ok_enqueue.
  - by apply ok_dropped.
Qed.

Lemma ok_tryRun i t p : pool_ok p -> choice_ok i p -> pool_ok (tryRun i t p).2.
Proof.
  intros Hok Hch. unfold tryRun. case_match; [destruct Hok; by split|]. destruct (running_ p) eqn:Er; simpl; [|by apply ok_dropped].
  destruct (isFull p) eqn:Ef; simpl; [by apply ok_dropped|by apply ok_enqueue].
Qed.

Lemma batch_size_le p : batch_size p <= length (queue_ p).
Proof. unfold batch_size. lia. Qed.

(** A worker always takes something from a nonempty queue, at most its share. *)
Lemma batch_size_pos p : queue_ p <> [] -> 0 < batch_size p.
Proof.
  intros Hq. assert (Hl : 0 < length (queue_ p)) by (destruct (queue_ p); [done|simpl; lia]). unfold batch_size.
  set (wk := if length (threads_ p) =? 0 then 1 else length (threads_ p)).
  assert (Hwk : 0 < wk) by (unfold wk; case_match; bool_prop; lia).
  assert (Hfs : 0 < (length (queue_ p) + wk - 1) / wk) by (apply Nat.div_str_pos; lia).
  case_match; bool_prop; lia.
Qed.

Lemma ok_takeBatch i p :
  pool_ok p -> threads_ p !! i = Some Ready \/ threads_ p !! i = Some Woken -> pool_ok (takeBatch i p).
Proof.
  intros Hok Hi. assert (Hw' : exists w, threads_ p !! i = Some w /\ batch_of w = []) by (destruct Hi; by eexists).
  destruct Hw' as (w & Hwi & Hwb). unfold takeBatch. pose proof Hok as [Hb Hf Ho Ht He Ha Hfu Hs Hw].
  destruct (length (queue_ p) =? 0) eqn:Eq; bool_prop.
  - apply length_0_nil in Eq. destruct (running_ p) eqn:Er; split; simpl; rewrite ?Er; try done;
      try (by rewrite (batches_same i w) by done); try (intros E; by apply (insert_nonnil _ w) in E).
    + intros [?|Hx]%elem_insert; [done|]. by destruct (He Hx).
    + intros Hn. by specialize (Hs Hn).
    + intros Hn. destruct (Hw Hn). split; [|done]. by intros [?|?]%elem_insert.
  - assert (Hne : queue_ p <> []) by (by intros E; rewrite E in Eq).
    assert (Hnex : Exited ∉ threads_ p) by (intros Hx; by destruct (He Hx)).
    destruct (batches_update i w _ Hwi) as (rest & Hr1 & Hr2). rewrite Hwb in Hr1. simpl in Hr1.
    set (n := batch_size p). set (out := take n (queue_ p)).
    assert (Hcore : forall bl, (forall t, PWaiting t ∈ bl -> PWaiting t ∈ blocked p) ->
              (running_ p = true -> forall t, PWaiting t ∉ bl) ->
              pool_ok (((p <| queue_ := drop n (queue_ p) |> <| taken := taken p ++ out |>)
                          <| threads_ := <[i := Running out]> (threads_ p) |>) <| blocked := bl |>)).
    { intros bl Hsub Hbl. split; simpl; try done.
      - intros Hm. rewrite length_drop. specialize (Hb Hm). lia.
      - rewrite Hf, <-app_assoc. unfold out. by rewrite take_drop.
      - rewrite Hr2, Ho, Hr1. simpl. rewrite <-!app_assoc. apply Permutation_app_head, Permutation_app_comm.
      - intros E. by apply (insert_nonnil _ w) in E.
      - by intros [?|?]%elem_insert.
      - intros _ _. exists (Running out). split; [by eapply elem_insert_self|done].
      - intros Hr t Hin. by destruct (Hbl Hr t).
      - intros Hn. destruct (Hw Hn) as [H1 H2]. split; [by intros [?|?]%elem_insert|].
        intros t Hin. by eapply H2, Hsub. }
    destruct (isFull p) eqn:Ef.
    + apply Hcore; intros; [by destruct (wake_producer_elem t (blocked p))|apply wake_producer_elem].
    + apply (Hcore (blocked p)); [done|]. intros Hr t Hin. by specialize (Hfu Hr t Hin).
Qed.

Lemma pool_step_ok p p' : step p p' -> pool_ok p -> pool_ok p'.
Proof.
  intros Hs Hok. destruct Hs as [i t p Hc|i t p Hc|i k t p Hk Hc|i p Hi|i t ts p Hi|i p Hi|i p Hi|k t p Hk|p Hr|p Hr|p Hr Hex].
  - by apply ok_run.
  - by apply ok_tryRun.
  - apply ok_run; [|exact Hc]. destruct Hok as [Hb Hf Ho Ht He Ha Hfu Hst Hw].
    assert (Hsub : forall b, b ∈ delete k (blocked p) -> b ∈ blocked p).
    { intros b Hb'. by eapply list_elem_of_delete_inv. }
    split; simpl; try done.
    + intros Hr t' Hin. by apply (Hfu Hr t'), Hsub.
    + intros Hn. destruct (Hw Hn) as [H1 H2]. split; [done|]. intros t' Hin. by eapply H2, Hsub.
  - by apply ok_takeBatch.
  - destruct Hok as [Hb Hf Ho Ht He Ha Hfu Hst Hw]. destruct (batches_update i _ _ Hi) as (rest & Hr1 & Hr2).
    split; simpl; try done.
    + rewrite Hr2, Ho, Hr1. simpl. rewrite <-!app_assoc. done.
    + intros E. by eapply insert_nonnil in E.
    + intros [?|Hx]%elem_insert; [done|by apply He].
    + intros _ _. exists (Running ts). split; [by eapply elem_insert_self|done].
    + intros Hn. destruct (Hw Hn). split; [|done]. by intros [?|?]%elem_insert.
  - by eapply ok_set_worker.
  - by eapply ok_set_worker.
  - destruct Hok as [Hb Hf Ho Ht He Ha Hfu Hst Hw]. split; simpl; try done.
    + intros Hr t' [?|Hin]%elem_insert; [done|by eapply Hfu].
    + intros Hn. destruct (Hw Hn) as [H1 H2]. split; [done|]. intros t' [?|Hin]%elem_insert; [done|by eapply H2].
  - destruct Hok as [Hb Hf Ho Ht He Ha Hfu Hst Hw]. split; simpl; try done;
      intros Hx; [by destruct (Ht Hx)|by destruct (He Hx)].
  - destruct Hok as [Hb Hf Ho Ht He Ha Hfu Hst Hw].
    assert (Hmap : map batch_of (map wake_worker (threads_ p)) = map batch_of (threads_ p)).
    { rewrite map_map. apply map_ext. by intros []. }
    split; simpl; try done.
    + by rewrite Hmap.
    + intros E. apply Ht. by destruct (threads_ p).
    + intros [_ [?|Hx]]%wake_worker_elem; [done|by apply He].
    + congruence.
    + congruence.
    + intros _. split; [by intros [? _]%wake_worker_elem|]. intros t. apply wake_producer_elem.
  - destruct Hok as [Hb Hf Ho Ht He Ha Hfu Hst Hw].
    assert (Hq : queue_ p = []).
    { destruct (threads_ p) as [|w ws] eqn:E; [by apply Ht|]. inversion Hex; subst. apply He. by left. }
    assert (Hc : concat (map batch_of (threads_ p)) = []).
    { clear -Hex. induction (threads_ p) as [|w ws IH]; [done|]. inversion Hex as [|? ? <- Hws]; subst. by apply IH. }
    split; simpl; try done; try congruence.
    intros Hn. destruct (Hw Hn). split; [by intros ?%elem_of_nil|done].
Qed.

Lemma reachable_ok m b n p : 0 < n -> rtc step (start m b n) p -> pool_ok p.
Proof.
  intros Hn Hr. assert (H0 : pool_ok (start m b n)).
  { split; simpl; try done.
    - lia.
    - assert (E : concat (map batch_of (replicate n Ready)) = []) by (clear; induction n; [done|exact IHn]).
      by rewrite E.
    - intros E. by destruct n; [lia|].
    - intros Hx. by apply elem_of_replicate in Hx as [? _].
    - intros _ t Hx. by apply elem_of_nil in Hx. }
  revert H0. induction Hr; [done|]. eauto using pool_step_ok.
Qed.

(** C18: every accepted task runs exactly once: under every interleaving of
    producers, workers, spurious wakeups and [stop()], the queue respects its
    bound, tasks leave it in the order they were accepted, and a task is either
    queued, in a worker's batch or finished; once [stop()] has joined the
    workers, exactly the accepted tasks have been executed. *)
Theorem tasks_exactly_once m b n p :
  0 < n -> rtc step (start m b n) p ->
  (0 < max_queue_size_ p -> length (queue_ p) <= max_queue_size_ p) /\
  accepted p = taken p ++ queue_ p /\
  accepted p ≡ₚ finished p ++ concat (map batch_of (threads_ p)) ++ queue_ p /\
  (stopped p -> accepted p ≡ₚ finished p).
Proof.
  intros Hn Hr. destruct (reachable_ok m b n p Hn Hr) as [Hb Hf Ho Ht He _ _ _ _].
  assert (Hall : accepted p ≡ₚ finished p ++ concat (map batch_of (threads_ p)) ++ queue_ p).
  { rewrite Hf, Ho. by rewrite <-app_assoc. }
  split_and!; try done. intros [Hrun Hex]. rewrite Hall.
  assert (Hq : queue_ p = []).
  { destruct (threads_ p) as [|w ws] eqn:E; [by apply Ht|]. inversion Hex; subst. apply He. by left. }
  assert (Hc : concat (map batch_of (threads_ p)) = []).
  { clear -Hex. induction (threads_ p) as [|w ws IH]; [done|]. inversion Hex as [|? ? <- Hws]; subst. by apply IH. }
  by rewrite Hq, Hc, !app_nil_r.
Qed.

(** One worker, a queue of one: the second producer blocks until the worker has
    taken the first task. *)
Definition demo_run : ThreadPool :=
  let p := takeBatch 0 (start 1 32 1) in
  let p := run 0 8 (run 0 7 p) in
  let p := takeBatch 0 p in
  let p := run 0 8 (p <| blocked := delete 0 (blocked p) |>) in
  p <| threads_ := <[0 := Running []]> (threads_ p) |> <| finished := finished p ++ [7] |>.

Lemma demo_steps : rtc step (start 1 32 1) demo_run.
Proof.
  assert (Hch : forall i p, bool_decide (Waiting ∈ threads_ p) = false \/ threads_ p !! i = Some Waiting -> choice_ok i p).
  { intros i p [Hx|Hx] Hin; [|done]. apply bool_decide_eq_false in Hx. done. }
  eapply rtc_l; [apply (step_take 0); left; reflexivity|].
  eapply rtc_l; [apply (step_run 0 7), Hch; right; reflexivity|].
  eapply rtc_l; [apply (step_run 0 8), Hch; left; reflexivity|].
  eapply rtc_l; [apply (step_take 0); right; reflexivity|].
  eapply rtc_l; [apply (step_retry 0 0 8); [reflexivity|apply Hch; left; reflexivity]|].
  eapply rtc_l; [apply (step_task 0 7 []); reflexivity|]. exact (rtc_refl _ _).
Qed.

Lemma tasks_exactly_once_witness :
  (accepted demo_run = [7; 8] /\ finished demo_run = [7] /\ queue_ demo_run = [8]) /\
  accepted demo_run = taken demo_run ++ queue_ demo_run.
Proof.
  split; [by vm_compute|]. apply (tasks_exactly_once 1 32 1 demo_run); [lia|exact demo_steps].
Defined.

(** C19: no wakeup is lost: while the pool runs, a queued task always finds a
    worker that is not asleep and a producer waits only while the queue is full;
    after [stop()] has notified, nobody is left waiting. *)
Theorem no_lost_wakeup m b n p :
  0 < n -> rtc step (start m b n) p ->
  (running_ p = true -> queue_ p <> [] -> exists w, w ∈ threads_ p /\ awake w) /\
  (running_ p = true -> forall t, PWaiting t ∈ blocked p -> isFull p = true) /\
  (stop_notified p = true -> (Waiting ∉ threads_ p) /\ (forall t, PWaiting t ∉ blocked p)) /\
  (queue_ p <> [] -> 0 < batch_size p).
Proof.
  intros Hn Hr. destruct (reachable_ok m b n p Hn Hr). split_and!; try done. apply batch_size_pos.
Qed.

Lemma no_lost_wakeup_witness :
  queue_ demo_run <> [] /\ (exists w, w ∈ threads_ demo_run /\ awake w).
Proof.
  split; [done|]. apply (no_lost_wakeup 1 32 1 demo_run); [lia|exact demo_steps|done|done].
Defined.

(** Finding: once [stop()] has returned there are no workers any more, and
    [run] executes the task in the caller's thread where, until then, it drops
    the tasks of a stopping pool; [tryRun] reports success. *)
Lemma run_after_stop_inline i t p :
  run i t (stop_join p) = (stop_join p) <| inlined := inlined p ++ [t] |> /\ (tryRun i t (stop_join p)).1 = true.
Proof. done. Qed.
End ThreadPool.
