(* ===== verification/Resolver.v ===== *)
(** * Addresses and name resolution (net/inet_address, net/resolver.cc)

    [InetAddress] is the address union with its text forms.  The binary
    addresses and their conversion to and from text belong to the C library:
    the class [InetText].  [ThreadPoolResolver] looks names up on a thread pool
    and caches them; [getaddrinfo]'s answers, the clock and the order in which
    workers and the loop run are arguments and steps. *)

From stdpp Require Import gmap.
From S2P Require Import Prelude CStr.

(** [inet_ntop] and [inet_pton]. *)
Class InetText (ip4 ip6 : Type) := {
  ntop4 : ip4 -> bytes;
  pton4 : bytes -> option ip4;
  ntop6 : ip6 -> bytes;
  pton6 : bytes -> option ip6;
  any4 : ip4;
  loopback4 : ip4;
  any6 : ip6;
  loopback6 : ip6;
  pton4_ntop4 x : pton4 (ntop4 x) = Some x;
  pton6_ntop6 x : pton6 (ntop6 x) = Some x;
}.

Module InetAddress.
Section address.
Context {ip4 ip6 : Type} `{!InetText ip4 ip6}.

Inductive InetAddress :=
| Inet (ip : ip4) (port : Z)
| Inet6 (ip : ip6) (port : Z) (scope_id : Z)
| Unix (sun_path : bytes).                     (* up to the padding *)

Definition isIpv6 (a : InetAddress) : bool := match a with Inet6 _ _ _ => true | _ => false end.
Definition isUnix (a : InetAddress) : bool := match a with Unix _ => true | _ => false end.

(** [sizeof(un.sun_path)] *)
Definition sun_path_size : Z := 108.
(** [None]: [std::invalid_argument]. *)
Definition unixDomain (path : bytes) : option InetAddress :=
  if (sun_path_size <=? zlen path)%Z then None else Some (Unix path).

(** A C string ends at its first zero byte. *)
Fixpoint c_string (s : bytes) : bytes :=
  match s with
  | [] => []
  | c :: s => if Ascii.eqb c Ascii.zero then [] else c :: c_string s
  end.
Definition unixPath (a : InetAddress) : bytes := match a with Unix p => c_string p | _ => [] end.

Definition getSockLen (a : InetAddress) : Z :=
  match a with
  | Inet6 _ _ _ => 28
  | Unix p => (2 + zlen (c_string p) + 1)%Z
  | Inet _ _ => 16
  end.

Definition InetAddress_any (p : Z) (loopback_only ipv6 : bool) : InetAddress :=
  if ipv6 then Inet6 (if loopback_only then loopback6 else any6) p 0
  else Inet (if loopback_only then loopback4 else any4) p.

(** [None]: [std::invalid_argument]. *)
Definition InetAddress_of (ip : bytes) (p : Z) (ipv6 : bool) : option InetAddress :=
  if ipv6 then (fun x => Inet6 x p 0) <$> pton6 ip else (fun x => Inet x p) <$> pton4 ip.

Definition port (a : InetAddress) : Z := match a with Inet _ p => p | Inet6 _ p _ => p | Unix _ => 0 end.
Definition toIp (a : InetAddress) : bytes :=
  match a with Inet x _ => ntop4 x | Inet6 x _ _ => ntop6 x | Unix _ => [] end.
Definition toIpPort (a : InetAddress) : bytes :=
  if isUnix a then bs "unix:" ++ unixPath a
  else if isIpv6 a then bs "[" ++ toIp a ++ bs "]:" ++ to_string (port a)
  else toIp a ++ bs ":" ++ to_string (port a).

Lemma c_string_id s : Forall (fun c => c <> Ascii.zero) s -> c_string s = s.
Proof. induction 1 as [|c s Hc _ IH]; [done|]. simpl. destruct (Ascii.eqb_spec c Ascii.zero); [done|]. by rewrite IH. Qed.

(** A path socket is found under the path it was made with. *)
Lemma unixDomain_path path a :
  Forall (fun c => c <> Ascii.zero) path -> unixDomain path = Some a ->
  unixPath a = path /\ toIpPort a = bs "unix:" ++ path /\ (getSockLen a < sun_path_size + 3)%Z.
Proof.
  intros Hp. unfold unixDomain. destruct (Z.leb_spec sun_path_size (zlen path)); [done|]. intros [= <-].
  unfold toIpPort. simpl. by rewrite c_string_id by done; split_and!; try done; lia.
Qed.
End address.
Arguments InetAddress : clear implicits.
End InetAddress.

Module ThreadPoolResolver.
Import InetAddress.

Section resolver.
Context {ip4 ip6 : Type} `{!InetText ip4 ip6}.
#[local] Notation addr := (InetAddress ip4 ip6).

(** What [getaddrinfo] answers. *)
Inductive addrinfo := AI4 (ip : ip4) | AI6 (ip : ip6) (scope_id : Z) | AIOther.
Inductive gai := GaiOk (res : list addrinfo) | GaiError (strerror : bytes).

Definition usable (p : Z) (ai : addrinfo) : option addr :=
  match ai with AI4 ip => Some (Inet ip p) | AI6 ip s => Some (Inet6 ip p s) | AIOther => None end.

(** The addresses, or the error text. *)
Definition resolveBlocking (g : gai) (p : Z) : list addr + bytes :=
  match g with
  | GaiError e => inr e
  | GaiOk res =>
    match omap (usable p) res with
    | [] => inr (bs "no usable address")
    | out => inl out
    end
  end.

Record CacheEntry := mkCacheEntry { addrs : list addr; when : Z }.

(** A query: its callback, host, port, the TTL it was made with. *)
Record Query := mkQuery { q_cb : nat; q_host : bytes; q_port : Z; q_ttl : Z }.

(** What a callback is given; [a_time] is the clock when it was decided. *)
Record Answer := mkAnswer { a_query : Query; a_addrs : list addr; a_error : bytes; a_time : Z }.

Record Impl := mkImpl {
  cache_ : gmap bytes CacheEntry;
  tasks : list Query;                     (* in the thread pool *)
  loop_tasks : list Answer;               (* callbacks queued in the loop *)
  answered : list Answer;                 (* callbacks that ran *)
  queries : list Query;                   (* ghost: every query made *)
  lookups : list (bytes * Z * list addr); (* ghost: successful lookups *)
}.
#[export] Instance Impl_settable : Settable Impl := fun r =>
  mkImpl (cache_ r) (tasks r) (loop_tasks r) (answered r) (queries r) (lookups r).

Definition Impl_new : Impl := mkImpl ∅ [] [] [] [] [].

(** A call returns, throws out of [withPort], or never returns. *)
Inductive outcome := Returns (r : Impl) | Throws | Deadlock.

(** The queries a callback makes. *)
Context (app : nat -> list Query).

(** The port is set by printing the address and reading it back. *)
Definition withPort (p : Z) (a : addr) : option addr := InetAddress_of (toIp a) p (isIpv6 a).

Definition age_s (now : Z) (e : CacheEntry) : Z := (wrap64 (now - when e) / 1000000)%Z.

Definition answer_now (a : Answer) (r : Impl) : Impl := r <| answered := answered r ++ [a] |>.
Definition queueInLoop (a : Answer) (r : Impl) : Impl := r <| loop_tasks := loop_tasks r ++ [a] |>.

(** A hit is handed to [runInLoop] with [mutex_] held: on the loop's thread the
    callback runs at once, and waits forever if it calls [resolve]. *)
Definition hit (in_loop : bool) (a : Answer) (r : Impl) : outcome :=
  if in_loop then
    match app (q_cb (a_query a)) with [] => Returns (answer_now a r) | _ :: _ => Deadlock end
  else Returns (queueInLoop a r).

Definition resolve (in_loop : bool) (now : Z) (q : Query) (r : Impl) : outcome :=
  let r := r <| queries := queries r ++ [q] |> in
  let miss := r <| tasks := tasks r ++ [q] |> in
  match cache_ r !! q_host q with
  | Some e =>
    if (age_s now e <=? q_ttl q)%Z then
      match mapM (withPort (q_port q)) (addrs e) with
      | Some result => hit in_loop (mkAnswer q result [] now) r
      | None => Throws
      end
    else Returns miss
  | None => Returns miss
  end.

(** A worker runs task [i] of the pool. *)
Definition worker (i : nat) (g : gai) (now : Z) (r : Impl) : Impl :=
  match tasks r !! i with
  | None => r
  | Some q =>
    let r := r <| tasks := take i (tasks r) ++ drop (S i) (tasks r) |> in
    match resolveBlocking g (q_port q) with
    | inl out =>
      queueInLoop (mkAnswer q out [] now)
        (r <| cache_ := <[q_host q := mkCacheEntry out now]> (cache_ r) |>
           <| lookups := lookups r ++ [(q_host q, now, out)] |>)
    | inr err => queueInLoop (mkAnswer q [] err now) r
    end
  end.

Fixpoint resolve_all (now : Z) (qs : list Query) (r : Impl) : outcome :=
  match qs with
  | [] => Returns r
  | q :: qs => match resolve true now q r with Returns r => resolve_all now qs r | o => o end
  end.

(** The loop runs its oldest queued callback, which may ask again. *)
Definition loop_turn (now : Z) (r : Impl) : outcome :=
  match loop_tasks r with
  | a :: l => resolve_all now (app (q_cb (a_query a))) (answer_now a (r <| loop_tasks := l |>))
  | [] => Returns r
  end.

(** [resolve(host, port, cb)]: the first address or the error; [None] is
    [front()] of an empty vector. *)
Definition first_answer (a : Answer) : option (addr * bytes) :=
  if length (a_error a) =? 0 then (fun x => (x, [])) <$> head (a_addrs a)
  else Some (InetAddress_any 0 false false, a_error a).

(** Calls from any thread, workers, and the loop; a clock reading each. *)
Inductive step : Impl -> Impl -> Prop :=
| step_resolve in_loop now q r r' : resolve in_loop now q r = Returns r' -> step r r'
| step_worker i g now r : (forall e, g = GaiError e -> e <> []) -> step r (worker i g now r)
| step_loop now r r' : loop_turn now r = Returns r' -> step r r'.

(** ** What the answers are *)

(** An address without its port and scope. *)
Definition same_host (a b : addr) : Prop :=
  match a, b with
  | Inet x _, Inet y _ => x = y
  | Inet6 x _ _, Inet6 y _ _ => x = y
  | _, _ => False
  end.

Definition not_unix (a : addr) : Prop := isUnix a = false.

(** The answer is the error of a lookup, or addresses with the port asked for
    that a lookup of the host found, not longer than the TTL (and the second it
    is rounded by) ago. *)
Definition answer_ok (ls : list (bytes * Z * list addr)) (a : Answer) : Prop :=
  if length (a_error a) =? 0 then
    a_addrs a <> [] /\ Forall (fun x => port x = q_port (a_query a)) (a_addrs a) /\
    exists t found, (q_host (a_query a), t, found) ∈ ls /\ Forall2 same_host (a_addrs a) found /\
      (a_time a = t \/ (wrap64 (a_time a - t) < (q_ttl (a_query a) + 1) * 1000000)%Z)
  else a_addrs a = [].

(** ** The invariant *)
Record resolver_ok (r : Impl) : Prop := {
  ok_cache : forall h e, cache_ r !! h = Some e ->
    (h, when e, addrs e) ∈ lookups r /\ addrs e <> [] /\ Forall not_unix (addrs e);
  ok_answers : Forall (answer_ok (lookups r)) (answered r ++ loop_tasks r);
  ok_once : queries r ≡ₚ map a_query (answered r) ++ map a_query (loop_tasks r) ++ tasks r;
}.

Lemma withPort_ok p a : not_unix a -> exists b, withPort p a = Some b /\ port b = p /\ same_host b a.
Proof.
  unfold withPort, InetAddress_of, not_unix. destruct a as [x ?|x ? ?|]; simpl; [..|done]; intros _.
  - rewrite pton4_ntop4. by eexists.
  - rewrite pton6_ntop6. by eexists.
Qed.

Lemma withPort_all p l :
  Forall not_unix l -> exists k, mapM (withPort p) l = Some k /\ Forall (fun x => port x = p) k /\ Forall2 same_host k l.
Proof.
  induction 1 as [|a l Ha _ (k & Hk & H1 & H2)]; [by exists []|].
  destruct (withPort_ok p a Ha) as (b & Hb & H3 & H4). exists (b :: k). simpl. rewrite Hb, Hk. simpl. auto.
Qed.

Lemma age_bound now e ttl : (age_s now e <= ttl)%Z -> (wrap64 (now - when e) < (ttl + 1) * 1000000)%Z.
Proof.
  unfold age_s. intros H. pose proof (Z.mod_pos_bound (wrap64 (now - when e)) 1000000 ltac:(lia)).
  pose proof (Z.div_mod (wrap64 (now - when e)) 1000000 ltac:(lia)). lia.
Qed.

Lemma same_host_nil k l : Forall2 same_host k l -> l <> [] -> k <> [].
Proof. by destruct 1. Qed.

Lemma hit_answer_ok r q e result now :
  resolver_ok r -> cache_ r !! q_host q = Some e -> (age_s now e <= q_ttl q)%Z ->
  mapM (withPort (q_port q)) (addrs e) = Some result -> answer_ok (lookups r) (mkAnswer q result [] now).
Proof.
  intros Hr He Ha Hm. destruct (ok_cache _ Hr _ _ He) as (H1 & H2 & H3).
  destruct (withPort_all (q_port q) _ H3) as (k & Hk & H4 & H5). rewrite Hm in Hk. injection Hk as <-.
  unfold answer_ok. simpl. split_and!; [by eapply same_host_nil|done|]. exists (when e), (addrs e).
  split_and!; try done. right. by apply age_bound.
Qed.

Lemma ok_asked r q : resolver_ok r ->
  queries (r <| queries := queries r ++ [q] |>) ≡ₚ q :: map a_query (answered r) ++ map a_query (loop_tasks r) ++ tasks r.
Proof. intros [_ _ H]. simpl. by rewrite <-Permutation_cons_append, H. Qed.

Lemma resolve_ok in_loop now q r r' : resolver_ok r -> resolve in_loop now q r = Returns r' -> resolver_ok r'.
Proof.
  intros Hr. unfold resolve. simpl. pose proof (ok_asked r q Hr) as Hq.
  assert (Hmiss : resolver_ok (r <| queries := queries r ++ [q] |> <| tasks := tasks r ++ [q] |>)).
  { destruct Hr. split; [done|done|]. simpl. rewrite Hq, !app_assoc. by rewrite <-Permutation_cons_append. }
  destruct (cache_ r !! q_host q) as [e|] eqn:He; [|by intros [= <-]].
  destruct (Z.leb_spec (age_s now e) (q_ttl q)) as [Ha|]; [|by intros [= <-]].
  destruct (mapM _ _) as [result|] eqn:Hm; [|done]. pose proof (hit_answer_ok r q e result now Hr He Ha Hm) as Hok.
  destruct Hr as [H1 H2 H3]. apply Forall_app in H2 as [H2 H2']. unfold hit. destruct in_loop; simpl.
  - destruct (app (q_cb q)); [|done]. intros [= <-]. split; simpl; [done| |].
    + rewrite !Forall_app. auto.
    + rewrite Hq, map_app. simpl. rewrite <-app_assoc. simpl. by rewrite <-Permutation_middle.
  - intros [= <-]. split; simpl; [done| |].
    + rewrite !Forall_app. auto.
    + rewrite Hq, map_app. simpl. rewrite <-!app_assoc. simpl. by rewrite <-!Permutation_middle.
Qed.

Lemma resolve_all_ok now qs r r' : resolver_ok r -> resolve_all now qs r = Returns r' -> resolver_ok r'.
Proof.
  revert r. induction qs as [|q qs IH]; intros r Hr; simpl; [by intros [= <-]|].
  destruct (resolve true now q r) eqn:E; [|done..]. apply IH. by eapply resolve_ok.
Qed.

Lemma answer_ok_mono ls k a : answer_ok ls a -> answer_ok (ls ++ k) a.
Proof.
  unfold answer_ok. case_match; [|done]. intros (H1 & H2 & t & f & H3 & H4). split_and!; [done..|].
  exists t, f. rewrite elem_of_app. auto.
Qed.

Lemma usable_ok p res :
  let out := omap (usable p) res in
  Forall (fun x => port x = p) out /\ Forall not_unix out /\ Forall2 same_host out out.
Proof.
  induction res as [|ai res (H1 & H2 & H3)]; simpl; [auto|]. destruct ai; simpl; auto using Forall_cons_2, Forall2_cons_2.
  - split_and!; constructor; done.
  - split_and!; constructor; done.
Qed.

Lemma queue_ok a r : resolver_ok (r <| tasks := a_query a :: tasks r |>) -> answer_ok (lookups r) a -> resolver_ok (queueInLoop a r).
Proof.
  intros [H1 H2 H3] Ha. split; simpl in *; [done| |].
  - rewrite !Forall_app in *. naive_solver.
  - rewrite H3, map_app, <-!app_assoc. done.
Qed.

Lemma worker_ok i g now r : (forall e, g = GaiError e -> e <> []) -> resolver_ok r -> resolver_ok (worker i g now r).
Proof.
  intros Hg Hr. unfold worker. destruct (tasks r !! i) as [q|] eqn:Hi; [|done].
  assert (Hp : q :: take i (tasks r) ++ drop (S i) (tasks r) ≡ₚ tasks r).
  { rewrite <-(take_drop_middle _ _ _ Hi) at 3. by rewrite Permutation_middle. }
  assert (Hok : resolver_ok (r <| tasks := q :: take i (tasks r) ++ drop (S i) (tasks r) |>)).
  { destruct Hr. split; simpl; [done..|]. by rewrite Hp. }
  unfold resolveBlocking. destruct g as [res|e]; simpl.
  - destruct (usable_ok (q_port q) res) as (U1 & U2 & U3). destruct (omap (usable (q_port q)) res) as [|x out] eqn:Eo.
    { apply queue_ok; [exact Hok|done]. }
    apply queue_ok.
    + destruct Hok as [C1 C2 C3]. split; simpl in *; [| |exact C3].
      * intros h e' [[<- <-]|[_ Hh]]%lookup_insert_Some; simpl.
        -- split_and!; [apply elem_of_app; right; by left|done|done].
        -- destruct (C1 h e' Hh) as (? & ? & ?). split_and!; [apply elem_of_app; by left|done|done].
      * eapply Forall_impl; [exact C2|]. intros a. apply answer_ok_mono.
    + unfold answer_ok. simpl. split_and!; [done|done|]. exists now, (x :: out). split_and!; [|done|by left].
      apply elem_of_app; right; by left.
  - apply queue_ok; [exact Hok|]. unfold answer_ok. simpl. specialize (Hg e eq_refl).
    by destruct e.
Qed.

Lemma resolver_step_ok r r' : resolver_ok r -> step r r' -> resolver_ok r'.
Proof.
  intros Hr Hs. destruct Hs as [in_loop now q r r' H|i g now r Hg|now r r' H].
  - by eapply resolve_ok.
  - by apply worker_ok.
  - unfold loop_turn in H. destruct (loop_tasks r) as [|a l] eqn:El; [by simplify_eq|].
    eapply resolve_all_ok; [|exact H]. destruct Hr as [H1 H2 H3]. rewrite El in H2, H3. split; simpl; [done| |].
    + by rewrite <-app_assoc.
    + rewrite H3, map_app, <-!app_assoc. done.
Qed.

(** C25: under every interleaving of callers, workers and the loop, each query
    is in one place -- its callback ran, is queued in the loop, or its lookup is
    in the thread pool -- and a callback is given either an error and no
    address, or at least one address, all with the port that was asked for,
    that a lookup of its host found no longer than the TTL (and the second the
    age is rounded down by) before; setting the port never throws. *)
Theorem resolver_answers r :
  rtc step Impl_new r ->
  (queries r ≡ₚ map a_query (answered r) ++ map a_query (loop_tasks r) ++ tasks r) /\
  Forall (answer_ok (lookups r)) (answered r) /\
  (forall a, a ∈ answered r -> first_answer a <> None) /\
  (forall in_loop now q, resolve in_loop now q r <> Throws).
Proof.
  intros Hr. assert (Hok : resolver_ok r).
  { eapply (rtc_ind_r resolver_ok); [|intros y z _ Hs Hy; by eapply resolver_step_ok|exact Hr]. by split. }
  destruct Hok as [H1 H2 H3]. apply Forall_app in H2 as [H2 _]. split_and!; [done..| |].
  - intros a Ha. rewrite Forall_forall in H2. specialize (H2 a Ha). unfold answer_ok, first_answer in *.
    case_match; [|done]. destruct H2 as (Hn & _). by destruct (a_addrs a).
  - intros in_loop now q. unfold resolve, hit. simpl. destruct (cache_ r !! q_host q) as [e|] eqn:He; [|done].
    destruct (H1 _ _ He) as (_ & _ & Hu). destruct (withPort_all (q_port q) _ Hu) as (k & -> & _). by repeat case_match.
Qed.

(** A callback that asks again while it is given a cached answer on the loop's
    thread waits for the mutex its caller holds. *)
Theorem reentrant_resolve_deadlocks now q e r :
  cache_ r !! q_host q = Some e -> (age_s now e <= q_ttl q)%Z -> Forall not_unix (addrs e) -> app (q_cb q) <> [] ->
  resolve true now q r = Deadlock.
Proof.
  intros He Ha Hu Hq. unfold resolve. simpl. rewrite He. destruct (Z.leb_spec (age_s now e) (q_ttl q)); [|lia].
  destruct (withPort_all (q_port q) _ Hu) as (k & -> & _). unfold hit. simpl. by destruct (app (q_cb q)).
Qed.

(** A cached link-local address comes back without its interface. *)
Lemma cached_scope_lost x p scope : withPort p (Inet6 x p scope) = Some (Inet6 x p 0).
Proof. unfold withPort, InetAddress_of. simpl. by rewrite pton6_ntop6. Qed.
End resolver.

(** ** A run

    Addresses that are their own text. *)
#[export] Instance demo_text : InetText bytes bytes := {
  ntop4 x := x; pton4 := Some; ntop6 x := x; pton6 := Some;
  any4 := bs "0.0.0.0"; loopback4 := bs "127.0.0.1"; any6 := bs "::"; loopback6 := bs "::1";
  pton4_ntop4 x := eq_refl; pton6_ntop6 x := eq_refl;
}.

Definition demo_query (cb : nat) (p : Z) : Query := mkQuery cb (bs "h") p 60.
(** Callback 3 asks again. *)
Definition demo_app (cb : nat) : list Query := if cb =? 3 then [demo_query 9 80] else [].
Definition demo_1 : Impl (ip4 := bytes) (ip6 := bytes) := Impl_new <| queries := [demo_query 1 80] |> <| tasks := [demo_query 1 80] |>.
Definition demo_2 : Impl := worker 0 (GaiOk [AI6 (bs "fe80::1") 2; AI4 (bs "10.0.0.1")]) 5000000 demo_1.
Definition demo_3 : Impl :=
  match resolve demo_app true 65999999 (demo_query 2 443) demo_2 with Returns r => r | _ => demo_2 end.

Lemma resolver_demo_reachable : rtc (step demo_app) Impl_new demo_3.
Proof.
  eapply rtc_l; [by apply (step_resolve _ true 0 (demo_query 1 80))|].
  eapply rtc_l; [apply (step_worker _ 0 (GaiOk [AI6 (bs "fe80::1") 2; AI4 (bs "10.0.0.1")]) 5000000); discriminate|].
  apply rtc_once. apply (step_resolve _ true 65999999 (demo_query 2 443)). vm_compute. reflexivity.
Qed.

Lemma resolver_answers_witness :
  map a_addrs (answered demo_3) = [[Inet6 (bs "fe80::1") 443 0; Inet (bs "10.0.0.1") 443]] /\
  Forall (answer_ok (lookups demo_3)) (answered demo_3).
Proof.
  split; [vm_compute; reflexivity|]. apply (resolver_answers demo_app demo_3 resolver_demo_reachable).
Defined.

Lemma reentrant_resolve_deadlocks_witness : resolve demo_app true 5000001 (demo_query 3 443) demo_2 = Deadlock.
Proof.
  apply (reentrant_resolve_deadlocks demo_app 5000001 (demo_query 3 443)
    (mkCacheEntry [Inet6 (bs "fe80::1") 80 2; Inet (bs "10.0.0.1") 80] 5000000)).
  - vm_compute. reflexivity.
  - vm_compute. discriminate.
  - repeat constructor.
  - discriminate.
Defined.
End ThreadPoolResolver.
