(* ===== verification/Connector.v ===== *)
(** * The connector (net/connector.h, net/connector.cc)

    Non-blocking connect with failover over the candidate addresses and jittered
    backoff.  The state lives on the loop: events (the channel's, the timers')
    are dispatched in one iteration, then the tasks queued meanwhile run, so an
    event finds no queued task left.  [connect()]'s error numbers, socket errors
    and clock readings are arguments. *)

From stdpp Require Import gmap.
From Stdlib Require Import QArith.
From S2P Require Import Prelude Double Backoff.
#[local] Open Scope nat_scope.

Module Connector.

Inductive State := kDisconnected | kConnecting | kConnected.
#[export] Instance State_eq_dec : EqDecision State.
Proof. solve_decision. Defined.

(** Tasks queued with [queueInLoop]. *)
Inductive loop_task := TResetChannel | TConnect.

Record Connector {D : Type} := mkConnector {
  candidates_ : list bytes;            (* addresses, as ip:port *)
  current_ : nat;
  connect_ : bool;
  state_ : State;
  channel_ : option Z;                 (* the descriptor of the live Channel *)
  backoff_ : Backoff.Backoff D;
  retry_timer_armed_ : bool;
  connect_timer_armed_ : bool;
  connect_timeout_ms_ : Z;
  has_callback : bool;                 (* new_connection_callback_ is set *)
  (* the loop and the system *)
  tasks : list loop_task;
  registered : option Z;               (* the descriptor in the poller *)
  next_fd : Z;
  opened : list Z;
  closed : list Z;
  handed : list Z;                     (* given to the new-connection callback *)
  attempts : list nat;                 (* the candidates tried, in order *)
  delays : list Z;                     (* the backoff delays, in order *)
}.
Arguments Connector D : clear implicits.
#[export] Instance Connector_settable D : Settable (Connector D) := fun c =>
  mkConnector D (candidates_ c) (current_ c) (connect_ c) (state_ c) (channel_ c) (backoff_ c)
    (retry_timer_armed_ c) (connect_timer_armed_ c) (connect_timeout_ms_ c) (has_callback c) (tasks c)
    (registered c) (next_fd c) (opened c) (closed c) (handed c) (attempts c) (delays c).

Definition kInitRetryDelayMs : Z := 500.
Definition kMaxRetryDelayMs : Z := 30 * 1000.
Definition kConnectTimeoutMs : Z := 1000.

(** [errno] values [connect()] distinguishes (0: connected at once). *)
Definition EINPROGRESS : Z := 115.
Definition EINTR : Z := 4.
Definition EISCONN : Z := 106.
Definition EHOSTUNREACH : Z := 113.
Definition in_progress (errno : Z) : bool := bool_decide (errno ∈ [0; EINPROGRESS; EINTR; EISCONN]%Z).
(** EAGAIN, EADDRINUSE, EADDRNOTAVAIL, ECONNREFUSED, ENETUNREACH, EAFNOSUPPORT,
    ENOENT, ECONNRESET *)
Definition retryable (errno : Z) : bool := bool_decide (errno ∈ [11; 98; 99; 111; 101; 97; 2; 104]%Z).

Section connector.
Context {D : Type} `{Double D}.
Implicit Types c : Connector D.

Definition Connector_new (candidates : list bytes) (cb : bool) (jitter : D) (now : Z) : Connector D :=
  mkConnector D candidates 0 false kDisconnected None
    (Backoff.Backoff_new kInitRetryDelayMs kMaxRetryDelayMs jitter now)
    false false kConnectTimeoutMs cb [] None 3 [] [] [] [] [].

(** The first candidate's address identifies the endpoint. *)
Definition backoffKey c : bytes := match candidates_ c with [] => [] | a :: _ => a end.

Definition setState (s : State) c : Connector D := c <| state_ := s |>.
Definition close (fd : Z) c : Connector D := c <| closed := closed c ++ [fd] |>.
Definition queueInLoop (t : loop_task) c : Connector D := c <| tasks := tasks c ++ [t] |>.

Definition armConnectTimeout c : Connector D := c <| connect_timer_armed_ := true |>.
Definition cancelConnectTimeout c : Connector D := c <| connect_timer_armed_ := false |>.

Definition connecting (fd : Z) c : Connector D :=
  let c := setState kConnecting c in
  let c := c <| channel_ := Some fd |> <| registered := Some fd |> in
  armConnectTimeout c.

(** The channel leaves the poller now and is destroyed by a later task. *)
Definition removeAndResetChannel c : option Z * Connector D :=
  (channel_ c, queueInLoop TResetChannel (c <| registered := None |>)).

Definition resetChannel c : Connector D := c <| channel_ := None |>.

Definition retry (fd : Z) (now : Z) c : Connector D :=
  let c := close fd c in
  let c := setState kDisconnected c in
  if negb (connect_ c) then c
  else if current_ c + 1 <? length (candidates_ c) then
    queueInLoop TConnect (c <| current_ := current_ c + 1 |>)
  else
    let c := c <| current_ := 0 |> in
    let '(delay, b) := Backoff.nextDelay (backoffKey c) now (backoff_ c) in
    c <| backoff_ := b |> <| delays := delays c ++ [delay] |> <| retry_timer_armed_ := true |>.

(** [connect()]: a new socket; [errno] is what [::connect] reports (0 for none). *)
Definition connect (errno now : Z) c : Connector D :=
  let fd := next_fd c in
  let c := c <| next_fd := (fd + 1)%Z |> <| opened := opened c ++ [fd] |>
             <| attempts := attempts c ++ [current_ c] |> in
  if in_progress errno then connecting fd c
  else if retryable errno then retry fd now c
  else close fd c.

Definition startInLoop (errno now : Z) c : Connector D := if connect_ c then connect errno now c else c.
Definition start (errno now : Z) c : Connector D := startInLoop errno now (c <| connect_ := true |>).

Definition stopInLoop c : Connector D :=
  let c := cancelConnectTimeout c in
  let c := c <| retry_timer_armed_ := false |> in
  if bool_decide (state_ c = kConnecting) then
    let '(fd, c) := removeAndResetChannel c in
    setState kDisconnected (match fd with Some fd => close fd c | None => c end)
  else c.
Definition stop c : Connector D := stopInLoop (c <| connect_ := false |>).

Definition restart (errno now : Z) c : Connector D :=
  let c := setState kDisconnected c in
  let c := c <| backoff_ := Backoff.reset (backoffKey c) (backoff_ c) |> <| current_ := 0 |>
             <| connect_ := true |> in
  startInLoop errno now c.

(** The attempt resolved: [err] is SO_ERROR, [self] whether the socket is
    connected to itself. *)
Definition handleWrite (err : Z) (self : bool) (now : Z) c : Connector D :=
  if bool_decide (state_ c <> kConnecting) then c
  else
    let c := cancelConnectTimeout c in
    let '(ofd, c) := removeAndResetChannel c in
    match ofd with
    | None => c
    | Some fd =>
      if negb (err =? 0)%Z then retry fd now c
      else if self then retry fd now c
      else
        let c := setState kConnected c in
        if connect_ c then
          if has_callback c then c <| handed := handed c ++ [fd] |> else close fd c
        else close fd c
    end.

Definition handleError (now : Z) c : Connector D :=
  if bool_decide (state_ c = kConnecting) then
    let c := cancelConnectTimeout c in
    let '(ofd, c) := removeAndResetChannel c in
    match ofd with None => c | Some fd => retry fd now c end
  else c.

(** The connect timer's function. *)
Definition onConnectTimeout (now : Z) c : Connector D :=
  let c := c <| connect_timer_armed_ := false |> in
  if bool_decide (state_ c <> kConnecting) then c
  else
    let '(ofd, c) := removeAndResetChannel c in
    match ofd with None => c | Some fd => retry fd now c end.

(** The retry timer's function. *)
Definition onRetryTimer (errno now : Z) c : Connector D :=
  let c := c <| retry_timer_armed_ := false |> in
  if connect_ c then connect errno now c else c.

(** A queued task runs. *)
Definition run_loop_task (t : loop_task) (errno now : Z) c : Connector D :=
  match t with
  | TResetChannel => resetChannel c
  | TConnect => if connect_ c then connect errno now c else c
  end.

(** What happens after [start()]: events when no task is queued, tasks in order,
    timers while armed, and [stop()]. *)
Inductive step : Connector D -> Connector D -> Prop :=
| step_write err self now c : tasks c = [] -> registered c <> None -> step c (handleWrite err self now c)
| step_error now c : tasks c = [] -> registered c <> None -> step c (handleError now c)
| step_timeout now c : tasks c = [] -> connect_timer_armed_ c = true -> step c (onConnectTimeout now c)
| step_retry errno now c : tasks c = [] -> retry_timer_armed_ c = true -> step c (onRetryTimer errno now c)
| step_task t ts errno now c : tasks c = t :: ts -> step c (run_loop_task t errno now (c <| tasks := ts |>))
| step_stop c : step c (stop c).

(** ** Where an attempt stands

    The candidates are walked in order, again and again, with one backoff delay
    after each full round: [tried] when the last of the attempts is the current
    candidate's, [next_up] when the current candidate comes next. *)
Definition walk c : Prop :=
  let n := length (candidates_ c) in
  0 < n /\ attempts c = map (fun k => k mod n) (seq 0 (length (attempts c))).
Definition tried c : Prop :=
  let n := length (candidates_ c) in
  walk c /\ length (delays c) * n < length (attempts c) <= (length (delays c) + 1) * n /\
  S (current_ c) = length (attempts c) - length (delays c) * n.
Definition next_up c : Prop :=
  let n := length (candidates_ c) in
  walk c /\ length (delays c) * n <= length (attempts c) < (length (delays c) + 1) * n /\
  current_ c = length (attempts c) - length (delays c) * n.

Inductive phase c : Prop :=
| Scheduled :                    (* the next candidate will be tried *)
    state_ c = kDisconnected -> connect_ c = true -> registered c = None -> connect_timer_armed_ c = false ->
    ((retry_timer_armed_ c = false /\ (tasks c = [TResetChannel; TConnect] \/ tasks c = [TConnect])) \/
     (retry_timer_armed_ c = true /\ (tasks c = [TResetChannel] \/ tasks c = []))) ->
    opened c ≡ₚ closed c -> handed c = [] -> next_up c -> phase c
| InProgress fd :                (* waiting for the channel's event *)
    state_ c = kConnecting -> connect_ c = true -> registered c = Some fd -> channel_ c = Some fd ->
    connect_timer_armed_ c = true -> tasks c = [] -> retry_timer_armed_ c = false ->
    opened c ≡ₚ fd :: closed c -> handed c = [] -> tried c -> phase c
| Over :                         (* connected, given up or stopped *)
    registered c = None -> connect_timer_armed_ c = false -> retry_timer_armed_ c = false ->
    connect_ c = false \/ TConnect ∉ tasks c -> state_ c <> kConnecting ->
    opened c ≡ₚ closed c ++ handed c -> length (handed c) <= 1 -> tried c \/ next_up c -> phase c.

Lemma next_up_over c : next_up c -> tried c \/ next_up c.
Proof. by right. Qed.

(** Closing a failed attempt schedules the next one, or ends if stopped. *)
Lemma retry_phase fd now c :
  tried c -> registered c = None -> connect_timer_armed_ c = false ->
  retry_timer_armed_ c = false -> (tasks c = [TResetChannel] \/ tasks c = []) -> connect_ c = true ->
  opened c ≡ₚ fd :: closed c -> handed c = [] -> phase (retry fd now c).
Proof.
  intros (Hw & Hlen & Hcur) Hreg Hct Hrt Htasks Hconn Hop Hha. unfold retry. simpl. rewrite Hconn. simpl.
  assert (Hop' : opened c ≡ₚ closed c ++ [fd]) by (rewrite Hop; apply Permutation_cons_append).
  destruct (current_ c + 1 <? length (candidates_ c)) eqn:E; bool_prop.
  - apply Scheduled; simpl; try done.
    + left. split; [done|]. destruct Htasks as [->| ->]; [by left|by right].
    + split; [exact Hw|]. simpl. lia.
  - match goal with |- context [Backoff.nextDelay ?k now ?b] => destruct (Backoff.nextDelay k now b) as [delay b'] end.
    apply Scheduled; simpl; try done; [by right|].
    split; [exact Hw|]. simpl. rewrite length_app. simpl. nia.
Qed.

Lemma connect_phase errno now c :
  next_up c -> state_ c = kDisconnected -> connect_ c = true -> registered c = None -> connect_timer_armed_ c = false ->
  retry_timer_armed_ c = false -> tasks c = [] -> opened c ≡ₚ closed c -> handed c = [] ->
  phase (connect errno now c).
Proof.
  intros (Hw & Hlen & Hcur) Hst Hconn Hreg Hct Hrt Htasks Hop Hha. unfold connect.
  set (c1 := c <| next_fd := _ |> <| opened := _ |> <| attempts := _ |>).
  assert (Hop1 : opened c1 ≡ₚ next_fd c :: closed c1) by
    (simpl; rewrite Hop; symmetry; apply Permutation_cons_append).
  assert (Htried : tried c1).
  { destruct Hw as [Hn Hwalk]. split; [split; [done|]|].
    - simpl. rewrite length_app, seq_app, map_app, <-Hwalk. simpl. f_equal. f_equal. rewrite Hcur.
      rewrite (Nat.div_mod_eq (length (attempts c)) (length (candidates_ c))) at 1.
      assert (Hd : length (attempts c) / length (candidates_ c) = length (delays c)).
      { symmetry. apply (Nat.div_unique _ _ _ (length (attempts c) - length (delays c) * length (candidates_ c))); lia. }
      rewrite Hd. lia.
    - simpl. rewrite length_app. simpl. lia. }
  destruct (in_progress errno); [|destruct (retryable errno)].
  - by apply (InProgress _ (next_fd c)).
  - apply retry_phase; try done. by right.
  - apply Over; simpl; try done.
    + right. rewrite Htasks. by intros ?%elem_of_nil.
    + by rewrite Hst.
    + by rewrite Hha, app_nil_r, Hop.
    + rewrite Hha. simpl. lia.
    + by left.
Qed.

(** An attempt in progress that resolves: its channel leaves the poller. *)
Lemma removed_phase now fd c (c1 := (removeAndResetChannel (cancelConnectTimeout c)).2) :
  phase c -> registered c <> None -> channel_ c = Some fd -> phase (retry fd now c1).
Proof.
  intros Hp Hreg Hch. destruct Hp as [|? ? ? ? ? ? Htk|]; [done| |done]. simplify_eq.
  apply retry_phase; simpl; try done. left. by rewrite Htk.
Qed.

Lemma removed_eq fd c :
  channel_ c = Some fd ->
  removeAndResetChannel (cancelConnectTimeout c) = (Some fd, (removeAndResetChannel (cancelConnectTimeout c)).2).
Proof. intros Hch. unfold removeAndResetChannel. by rewrite <-Hch. Qed.

Lemma step_phase c c' : step c c' -> phase c -> phase c'.
Proof.
  intros Hs Hp. destruct Hs as [err self now c Ht Hreg|now c Ht Hreg|now c Ht Harm|errno now c Ht Harm|t ts errno now c Ht|c].
  - pose proof Hp as Hp'. destruct Hp as [|fd Hst Hconn Hr Hch Hct Htk Hrt Hop Hha Htr|]; [done| |done].
    unfold handleWrite. rewrite Hst. simpl bool_decide. cbv iota. rewrite (removed_eq fd c Hch).
    destruct (err =? 0)%Z; cbn [negb]; [destruct self|]; [by apply removed_phase| |by apply removed_phase].
    simpl. rewrite Hconn. destruct (has_callback c); apply Over; simpl; try done; rewrite ?Htk, ?Hha; simpl; try (by left); try lia.
    + right. intros [?|?%elem_of_nil]%elem_of_cons; done.
    + rewrite Hop. simpl. apply Permutation_cons_append.
    + right. intros [?|?%elem_of_nil]%elem_of_cons; done.
    + rewrite Hop, app_nil_r. apply Permutation_cons_append.
  - pose proof Hp as Hp'. destruct Hp as [|fd Hst Hconn Hr Hch Hct Htk Hrt Hop Hha Htr|]; [done| |done].
    unfold handleError. rewrite Hst. simpl bool_decide. cbv iota. rewrite (removed_eq fd c Hch). by apply removed_phase.
  - pose proof Hp as Hp'. destruct Hp as [? ? ? Hct|fd Hst Hconn Hr Hch Hct Htk Hrt Hop Hha Htr|? Hct]; [congruence| |congruence].
    unfold onConnectTimeout. change (c <| connect_timer_armed_ := false |>) with (cancelConnectTimeout c).
    rewrite bool_decide_eq_false_2 by (simpl; rewrite Hst; naive_solver). rewrite (removed_eq fd c Hch). apply (removed_phase now fd c); [done|by rewrite Hr|done].
  - destruct Hp as [Hst Hconn Hr Hct Htk Hop Hha Hn|fd Hst Hconn Hr Hch Hct Htk Hrt Hop Hha Htr|? ? Hrt]; [|congruence|congruence].
    unfold onRetryTimer. simpl. rewrite Hconn. by apply connect_phase.
  - destruct Hp as [Hst Hconn Hr Hct Htk Hop Hha Hn|fd Hst Hconn Hr Hch Hct Htk Hrt Hop Hha Htr|Hr Hct Hrt Htk Hst Hop Hha Hw]; [|congruence|].
    + destruct Htk as [[Hrt [Hts|Hts]]|[Hrt [Hts|Hts]]]; rewrite Hts in Ht; simplify_eq; simpl.
      * apply Scheduled; simpl; try done. left. split; [done|by right].
      * rewrite Hconn. by apply connect_phase.
      * apply Scheduled; simpl; try done. right. split; [done|by right].
    + assert (Hrest : TConnect ∉ tasks c -> TConnect ∉ ts).
      { intros Hx Hin. apply Hx. rewrite Ht. by right. }
      destruct t; simpl; [|destruct (connect_ c) eqn:Ec];
        [apply Over; simpl; try done; destruct Htk; auto| |apply Over; simpl; try done; by left].
      destruct Htk as [?|Hx]; [congruence|]. destruct Hx. rewrite Ht. by left.
  - unfold stop, stopInLoop. destruct Hp as [Hst Hconn Hr Hct Htk Hop Hha Hn|fd Hst Hconn Hr Hch Hct Htk Hrt Hop Hha Htr|Hr Hct Hrt Htk Hst Hop Hha Hw].
    + rewrite bool_decide_eq_false_2 by (simpl; congruence).
      apply Over; simpl; try done; [by left|by rewrite Hst|by rewrite Hha, app_nil_r|rewrite Hha; simpl; lia|by right].
    + rewrite bool_decide_eq_true_2 by exact Hst.
      match goal with |- context [removeAndResetChannel ?c'] => 
        assert (E : removeAndResetChannel c' = (Some fd, (removeAndResetChannel c').2)) by (unfold removeAndResetChannel; by rewrite <-Hch);
        rewrite E end.
      apply Over; simpl; try done; [by left| |rewrite Hha; simpl; lia|by left]. rewrite Hha, app_nil_r, Hop. apply Permutation_cons_append.
    + simpl. rewrite bool_decide_eq_false_2 by done. apply Over; simpl; try done. by left.
Qed.

Lemma candidates_retry fd now c : candidates_ (retry fd now c) = candidates_ c.
Proof. unfold retry. repeat case_match; done. Qed.
Lemma candidates_connect errno now c : candidates_ (connect errno now c) = candidates_ c.
Proof. unfold connect. case_match; [done|]. case_match; [by rewrite candidates_retry|done]. Qed.

Lemma step_candidates c c' : step c c' -> candidates_ c' = candidates_ c.
Proof.
  intros Hs. destruct Hs as [err self now c Ht Hreg|now c Ht Hreg|now c Ht Harm|errno now c Ht Harm|t ts errno now c Ht|c].
  - unfold handleWrite, removeAndResetChannel. repeat case_match; rewrite ?candidates_retry; done.
  - unfold handleError, removeAndResetChannel. repeat case_match; rewrite ?candidates_retry; done.
  - unfold onConnectTimeout, removeAndResetChannel. repeat case_match; rewrite ?candidates_retry; done.
  - unfold onRetryTimer. case_match; [by rewrite candidates_connect|done].
  - destruct t; [done|]. simpl. case_match; [by rewrite candidates_connect|done].
  - unfold stop, stopInLoop, removeAndResetChannel. repeat case_match; done.
Qed.

(** The first [connect()] of a fresh connector. *)
Lemma start_phase candidates cb jitter now0 errno now :
  candidates <> [] -> phase (start errno now (Connector_new candidates cb jitter now0)).
Proof.
  intros Hne. assert (Hn : 0 < length candidates) by (destruct candidates; [done|simpl; lia]).
  unfold start, startInLoop. apply connect_phase; try done. split; [done|]. simpl. lia.
Qed.
End connector.

(** C26: the connector's walk: from [start()] on, whatever connects, socket errors,
    timeouts and timers do, and whenever it is stopped, the candidates are tried
    in order and cyclically, with one backoff delay after each full round and
    none within a round; every socket it opened is closed exactly once, except
    one still connecting or the single one handed to the callback. *)
Theorem connector_walk {D : Type} `{Double D} candidates cb (jitter : D) now0 errno now c :
  candidates <> [] -> rtc step (start errno now (Connector_new candidates cb jitter now0)) c ->
  let n := length candidates in
  attempts c = map (fun k => k mod n) (seq 0 (length (attempts c))) /\
  length (delays c) * n <= length (attempts c) <= (length (delays c) + 1) * n /\
  opened c ≡ₚ closed c ++ handed c ++ option_list (registered c) /\ length (handed c) <= 1.
Proof.
  intros Hne Hr n.
  assert (Hinv : phase c /\ candidates_ c = candidates).
  { pose proof (start_phase candidates cb jitter now0 errno now Hne) as H0.
    assert (H1 : candidates_ (start errno now (Connector_new candidates cb jitter now0)) = candidates)
      by (unfold start, startInLoop; apply candidates_connect).
    revert H0 H1. induction Hr as [|x y z Hs _ IH]; [done|]. intros H0 H1.
    apply IH; [by eapply step_phase|]. rewrite <-H1. by apply step_candidates. }
  destruct Hinv as [Hp Hc].
  assert (Htw : tried c \/ next_up c) by (destruct Hp; [by right|by left|done]).
  assert (Hwalk : walk c /\ length (delays c) * n <= length (attempts c) <= (length (delays c) + 1) * n).
  { subst n. rewrite <-Hc. destruct Htw as [(? & ? & _)|(? & ? & _)]; (split; [done|lia]). }
  destruct Hwalk as [[_ Hw] Hl]. rewrite Hc in Hw. split; [exact Hw|]. split; [exact Hl|].
  destruct Hp as [? ? Hr' ? ? Hop Hha|fd ? ? Hr' ? ? ? ? Hop Hha|Hr' ? ? ? ? Hop Hha]; rewrite Hr', Hop, ?Hha; simpl.
  - rewrite app_nil_r. split; [done|lia].
  - split; [apply Permutation_cons_append|lia].
  - by rewrite app_nil_r.
Qed.

(** Two candidates: both refused, then after the backoff the first one accepts. *)
Definition demo_connector : Connector Q :=
  let c := start 115 0 (Connector_new [bs "[::1]:80"; bs "127.0.0.1:80"] true (inject_Z 0) 0) in
  let c := handleWrite 111 false 1 c in
  let c := run_loop_task TResetChannel 0 1 (c <| tasks := [TConnect] |>) in
  let c := run_loop_task TConnect 111 1 (c <| tasks := [] |>) in
  let c := onRetryTimer 115 2 c in
  handleWrite 0 false 3 c.

Lemma demo_connector_steps :
  rtc step (start 115 0 (Connector_new [bs "[::1]:80"; bs "127.0.0.1:80"] true (inject_Z 0) 0)) demo_connector.
Proof.
  eapply rtc_l; [apply (step_write 111 false 1); [reflexivity|discriminate]|].
  eapply rtc_l; [apply (step_task TResetChannel [TConnect] 0 1); reflexivity|].
  eapply rtc_l; [apply (step_task TConnect [] 111 1); reflexivity|].
  eapply rtc_l; [apply (step_retry 115 2); reflexivity|].
  eapply rtc_l; [apply (step_write 0 false 3); [reflexivity|discriminate]|]. exact (rtc_refl _ _).
Qed.

Lemma connector_walk_witness :
  (attempts demo_connector = [0; 1; 0] /\ delays demo_connector = [500%Z] /\ handed demo_connector = [5%Z]) /\
  opened demo_connector ≡ₚ closed demo_connector ++ handed demo_connector ++ option_list (registered demo_connector).
Proof.
  split; [by vm_compute|].
  apply (connector_walk [bs "[::1]:80"; bs "127.0.0.1:80"] true (inject_Z 0) 0 115 0 demo_connector);
    [discriminate|exact demo_connector_steps].
Defined.

(** Finding: an error number outside the list ends the attempt for good: with a
    second candidate left, an unreachable host is neither failed over nor
    retried, and nobody is told. *)
Lemma unlisted_error_gives_up {D : Type} `{Double D} a b cb (jitter : D) now0 now :
  let c := start EHOSTUNREACH now (Connector_new [a; b] cb jitter now0) in
  attempts c = [0] /\ tasks c = [] /\ retry_timer_armed_ c = false /\ registered c = None /\ handed c = [].
Proof. done. Qed.

(** Finding: [stop()] followed by [start()] in one loop iteration: the channel's
    destruction queued by [stop()] runs after the new attempt began, and destroys
    the channel the poller is watching. *)
Lemma stop_start_destroys_channel {D : Type} `{Double D} a cb (jitter : D) now0 now :
  let c := start EINPROGRESS now (stop (start EINPROGRESS now (Connector_new [a] cb jitter now0))) in
  tasks c = [TResetChannel] /\ registered c = Some 4%Z /\
  let c' := run_loop_task TResetChannel 0 now (c <| tasks := [] |>) in
  registered c' = Some 4%Z /\ channel_ c' = None.
Proof. done. Qed.
End Connector.
