(* ===== verification/TcpClient.v ===== *)
(** * The TCP client (net/tcp_client)

    A connector and at most one connection.  The connector is the commands it
    is given; its answer, a connected socket, is an event, and so is the end of
    a connection.  Connections are known by the number in their name.  Steps
    run on the loop; [disconnect] and the destructor may come from elsewhere. *)

From stdpp Require Import list.
From S2P Require Import Prelude CStr.

Module TcpClient.

Inductive command := ConnectorStart | ConnectorStop | ConnectorRestart.

Record TcpClient := mkTcpClient {
  name_ : bytes;
  retry_ : bool;
  connect_ : bool;
  next_conn_id_ : nat;
  connection_ : option nat;
  (* what the client has done *)
  connector : list command;
  names : list bytes;                 (* of the connections made *)
  established : list nat;             (* connectEstablished() *)
  shut : list nat;                    (* shutdown() *)
  destroyed : list nat;               (* connectDestroyed() *)
  queued : list nat;                  (* connectDestroyed() queued in the loop *)
}.
#[export] Instance TcpClient_settable : Settable TcpClient := fun c =>
  mkTcpClient (name_ c) (retry_ c) (connect_ c) (next_conn_id_ c) (connection_ c) (connector c) (names c)
    (established c) (shut c) (destroyed c) (queued c).

Definition TcpClient_new (name : bytes) : TcpClient := mkTcpClient name false true 1 None [] [] [] [] [] [].

Definition enableRetry (c : TcpClient) : TcpClient := c <| retry_ := true |>.
Definition command_ (x : command) (c : TcpClient) : TcpClient := c <| connector := connector c ++ [x] |>.

Definition connect (c : TcpClient) : TcpClient := command_ ConnectorStart (c <| connect_ := true |>).

Definition disconnect (c : TcpClient) : TcpClient :=
  let c := c <| connect_ := false |> in
  match connection_ c with Some i => c <| shut := shut c ++ [i] |> | None => c end.

Definition stop (c : TcpClient) : TcpClient := command_ ConnectorStop (c <| connect_ := false |>).

(** The connector's callback; [peer] is the peer's address as text. *)
Definition newConnection (peer : bytes) (c : TcpClient) : TcpClient :=
  let i := next_conn_id_ c in
  let conn_name := name_ c ++ bs "-" ++ peer ++ bs "#" ++ to_string (Z.of_nat i) in
  c <| next_conn_id_ := S i |> <| names := names c ++ [conn_name] |> <| connection_ := Some i |>
    <| established := established c ++ [i] |>.

(** The close callback of connection [i]. *)
Definition removeConnection (i : nat) (c : TcpClient) : TcpClient :=
  let c := c <| connection_ := None |> <| destroyed := destroyed c ++ [i] |> in
  if retry_ c && connect_ c then command_ ConnectorRestart c else c.

(** The destructor; off the loop's thread the teardown is queued. *)
Definition TcpClient_destroy (in_loop : bool) (c : TcpClient) : TcpClient :=
  let c :=
    match connection_ c with
    | Some i =>
      let c := if in_loop then c <| destroyed := destroyed c ++ [i] |> else c <| queued := queued c ++ [i] |> in
      c <| connection_ := None |>
    | None => c
    end in
  command_ ConnectorStop c.

(** The life of a client before it is destroyed.  The connector reports a
    connection after it was started and before it reports another one; only the
    current connection can close. *)
Inductive step : TcpClient -> TcpClient -> Prop :=
| step_retry c : step c (enableRetry c)
| step_connect c : step c (connect c)
| step_disconnect c : step c (disconnect c)
| step_stop c : step c (stop c)
| step_new peer c : connection_ c = None -> step c (newConnection peer c)
| step_closed i c : connection_ c = Some i -> step c (removeConnection i c).

(** Restarts of the connector. *)
Definition restarts (l : list command) : nat :=
  length (List.filter (fun x => match x with ConnectorRestart => true | _ => false end) l).

Record client_ok (c : TcpClient) : Prop := {
  ids_fresh : established c = seq 1 (next_conn_id_ c - 1) /\ 0 < next_conn_id_ c;
  all_destroyed : established c = destroyed c ++ option_list (connection_ c);
  no_more_restarts : restarts (connector c) <= length (destroyed c);
}.

Lemma restarts_app l x : restarts (l ++ [x]) = restarts l + restarts [x].
Proof. unfold restarts. by rewrite List.filter_app, length_app. Qed.

Lemma client_ok_command x c : restarts [x] = 0 -> client_ok c -> client_ok (command_ x c).
Proof. intros Hx []. split; simpl; [done..|]. rewrite restarts_app, Hx. lia. Qed.

Lemma client_step_ok c c' : client_ok c -> step c c' -> client_ok c'.
Proof.
  intros Hc Hs. destruct Hs as [c|c|c|c|peer c Hn|i c Hi].
  - by destruct Hc.
  - apply client_ok_command; [done|]. by destruct Hc.
  - unfold disconnect. destruct Hc as [H1 H2 H3]. destruct (connection_ c) as [i|] eqn:E; simpl; rewrite E; by split; simpl; rewrite ?E.
  - apply client_ok_command; [done|]. by destruct Hc.
  - destruct Hc as [[H1 H0] H2 H3]. split; simpl; [|rewrite H2, Hn; simpl; by rewrite app_nil_r|done].
    split; [|lia]. rewrite H1. replace (next_conn_id_ c - 0) with ((next_conn_id_ c - 1) + 1) by lia.
    rewrite seq_app. simpl. do 2 f_equal. lia.
  - destruct Hc as [H1 H2 H3]. unfold removeConnection. simpl. rewrite Hi in H2. simpl in H2.
    destruct (retry_ c && connect_ c); split; simpl; rewrite ?app_nil_r, ?restarts_app, ?length_app; try done;
      change (restarts [ConnectorRestart]) with 1; simpl; lia.
Qed.

Lemma client_ok_new name : client_ok (TcpClient_new name).
Proof. split; simpl; [split; [done|lia]|done|]. unfold restarts. simpl. lia. Qed.

(** Every connection the client makes has a number of its own and is destroyed
    exactly once, in order, except the current one, which the destructor tears
    down; the connector is stopped last. *)
Theorem client_connections name c in_loop :
  rtc step (TcpClient_new name) c ->
  let d := TcpClient_destroy in_loop c in
  NoDup (established c) /\ established c = destroyed c ++ option_list (connection_ c) /\
  established d = destroyed d ++ queued d ++ option_list (connection_ d) /\
  connection_ d = None /\ last (connector d) = Some ConnectorStop.
Proof.
  intros Hr. assert (Hq : client_ok c /\ queued c = []).
  { eapply (rtc_ind_r (fun c => client_ok c /\ queued c = [])); [split; [apply client_ok_new|done]| |exact Hr].
    intros y z _ Hs [Hy Hq]. split; [by eapply client_step_ok|]. destruct Hs; simpl; try done.
    - unfold disconnect. simpl. by case_match.
    - unfold removeConnection. simpl. by case_match. }
  destruct Hq as [[[H1 _] H2 _] Hq]. intros d. split_and!; [rewrite H1; apply NoDup_seq|done|..].
  - unfold d, TcpClient_destroy. destruct (connection_ c) as [i|] eqn:E; simpl in *.
    + destruct in_loop; simpl; rewrite H2, Hq; simpl; by rewrite ?app_nil_r.
    + rewrite E, H2, Hq. done.
  - unfold d, TcpClient_destroy. destruct (connection_ c) eqn:E; by destruct in_loop.
  - unfold d, TcpClient_destroy, command_. simpl. by rewrite last_snoc.
Qed.

(** Without the wish to be connected, a closed connection is the end. *)
Lemma disconnect_no_restart i c :
  connection_ c = Some i ->
  let c' := removeConnection i (disconnect c) in connector c' = connector c /\ connection_ c' = None /\ i ∈ shut c'.
Proof.
  intros Hi. unfold removeConnection, disconnect. simpl. rewrite Hi. simpl. rewrite andb_false_r. split_and!; [done..|].
  simpl. rewrite elem_of_app. right. by left.
Qed.

(** With retries on and no [disconnect] the connector starts over. *)
Lemma retry_restarts i c :
  retry_ c = true -> connect_ c = true ->
  connector (removeConnection i c) = connector c ++ [ConnectorRestart].
Proof. intros H1 H2. unfold removeConnection. simpl. by rewrite H1, H2. Qed.
End TcpClient.
