(* ===== verification/TlsContext.v ===== *)
(** * TLS contexts (tls/tls_context)

    Certificates and their hot reload, the SNI registry and its lookup, and the
    ALPN protocol list.  What the files hold, and whether a key belongs to a
    certificate, are parameters; of an [SSL_CTX] the model keeps what these
    calls change.  Contexts are shared pointers: they are known by numbers in a
    heap where one context refers to others. *)

From stdpp Require Import gmap.
From S2P Require Import Prelude CStr.

Module TlsContext.

Inductive Role := kServer | kClient.
#[export] Instance Role_eq_dec : EqDecision Role.
Proof. solve_decision. Defined.

Definition SSL_VERIFY_NONE : Z := 0.
Definition SSL_VERIFY_PEER : Z := 1.
Definition SSL_VERIFY_FAIL_IF_NO_PEER_CERT : Z := 2.

Section context.
(** Certificate chains, private keys, CA bundles. *)
Context {cert key ca : Type}.

(** The files at the time of a call: what each path parses to, if anything. *)
Record Files := mkFiles {
  chain_file : bytes -> option cert;
  key_file : bytes -> option key;
  ca_file : bytes -> option ca;
}.

Context (pair_ok : cert -> key -> bool).
(** What is left of the current key when a certificate is replaced. *)
Context (key_after_cert : cert -> option key -> option key).

Record SSL_CTX := mkSSL_CTX {
  ctx_cert : option cert;
  ctx_key : option key;
  ctx_cas : list ca;
  ctx_verify : Z;
  servername_cb : bool;
  alpn_protos : bytes;                  (* a client's advertisement *)
  alpn_cb : bool;                       (* a server's selection callback *)
}.
#[export] Instance SSL_CTX_settable : Settable SSL_CTX := fun c =>
  mkSSL_CTX (ctx_cert c) (ctx_key c) (ctx_cas c) (ctx_verify c) (servername_cb c) (alpn_protos c) (alpn_cb c).

(** The calls into OpenSSL: the context after, and whether they succeeded.  A
    key is refused when it does not belong to the certificate that is set. *)
Definition use_certificate_chain_file (fs : Files) (path : bytes) (c : SSL_CTX) : SSL_CTX * bool :=
  match chain_file fs path with
  | Some x => (c <| ctx_cert := Some x |> <| ctx_key := key_after_cert x (ctx_key c) |>, true)
  | None => (c, false)
  end.
Definition key_fits (c : SSL_CTX) (k : key) : bool :=
  match ctx_cert c with Some x => pair_ok x k | None => true end.
Definition use_PrivateKey_file (fs : Files) (path : bytes) (c : SSL_CTX) : SSL_CTX * bool :=
  match key_file fs path with
  | Some k => if key_fits c k then (c <| ctx_key := Some k |>, true) else (c, false)
  | None => (c, false)
  end.
Definition check_private_key (c : SSL_CTX) : bool :=
  match ctx_cert c, ctx_key c with Some x, Some k => pair_ok x k | _, _ => false end.
Definition load_verify_locations (fs : Files) (path : bytes) (c : SSL_CTX) : SSL_CTX * bool :=
  match ca_file fs path with
  | Some x => (c <| ctx_cas := ctx_cas c ++ [x] |>, true)
  | None => (c, false)
  end.

Record TlsContext := mkTlsContext {
  role_ : Role;
  ctx_ : SSL_CTX;
  cert_path_ : bytes;
  key_path_ : bytes;
  ca_path_ : bytes;
  alpn_wire_ : bytes;
  sni_contexts_ : gmap bytes nat;
}.
#[export] Instance TlsContext_settable : Settable TlsContext := fun t =>
  mkTlsContext (role_ t) (ctx_ t) (cert_path_ t) (key_path_ t) (ca_path_ t) (alpn_wire_ t) (sni_contexts_ t).

(** A client verifies the server, with the system's CAs; a server asks for no
    certificate. *)
Definition TlsContext_new (system_cas : list ca) (role : Role) : TlsContext :=
  let '(cas, verify) := match role with kClient => (system_cas, SSL_VERIFY_PEER) | kServer => ([], SSL_VERIFY_NONE) end in
  mkTlsContext role (mkSSL_CTX None None cas verify false [] false) [] [] [] [] ∅.

(** The three steps [useCertificateAndKey] and [reload] share; they stop at the
    first failure, with what was changed before it. *)
Definition load_pair (fs : Files) (cp kp : bytes) (c : SSL_CTX) : SSL_CTX * bool :=
  let '(c, ok) := use_certificate_chain_file fs cp c in
  if negb ok then (c, false)
  else
    let '(c, ok) := use_PrivateKey_file fs kp c in
    if negb ok then (c, false) else (c, check_private_key c).

(** [false]: [std::runtime_error]. *)
Definition useCertificateAndKey (fs : Files) (cp kp : bytes) (t : TlsContext) : TlsContext * bool :=
  let '(c, ok) := load_pair fs cp kp (ctx_ t) in
  let t := t <| ctx_ := c |> in
  if ok then (t <| cert_path_ := cp |> <| key_path_ := kp |>, true) else (t, false).

Definition loadCaFile (fs : Files) (path : bytes) (t : TlsContext) : TlsContext * bool :=
  let '(c, ok) := load_verify_locations fs path (ctx_ t) in
  let t := t <| ctx_ := c |> in
  if ok then (t <| ca_path_ := path |>, true) else (t, false).

Definition reload (fs : Files) (t : TlsContext) : TlsContext * bool :=
  if (length (cert_path_ t) =? 0) || (length (key_path_ t) =? 0) then (t, false)
  else
    let '(c, ok) := load_pair fs (cert_path_ t) (key_path_ t) (ctx_ t) in
    if negb ok then (t <| ctx_ := c |>, false)
    else if length (ca_path_ t) =? 0 then (t <| ctx_ := c |>, true)
    else let '(c, ok) := load_verify_locations fs (ca_path_ t) c in (t <| ctx_ := c |>, ok).

Definition setVerifyPeer (verify : bool) (t : TlsContext) : TlsContext :=
  let mode :=
    if verify then
      match role_ t with
      | kServer => Z.lor SSL_VERIFY_PEER SSL_VERIFY_FAIL_IF_NO_PEER_CERT
      | kClient => SSL_VERIFY_PEER
      end
    else SSL_VERIFY_NONE in
  t <| ctx_ := (ctx_ t) <| ctx_verify := mode |> |>.

(** ** SNI *)
Definition toLowerAscii (s : bytes) : bytes := map tolower s.

(** [other]: the registered pointer, if not null; [false]: an exception. *)
Definition addSniContext (heap : gmap nat TlsContext) (hostname : bytes) (other : option nat) (t : TlsContext)
    : TlsContext * bool :=
  match role_ t, other with
  | kServer, Some i =>
    match role_ <$> heap !! i with
    | Some kServer =>
      (t <| sni_contexts_ := <[toLowerAscii hostname := i]> (sni_contexts_ t) |>
         <| ctx_ := (ctx_ t) <| servername_cb := true |> |>, true)
    | _ => (t, false)
    end
  | _, _ => (t, false)
  end.

Definition findSniContext (hostname : bytes) (t : TlsContext) : option nat :=
  let host := toLowerAscii hostname in
  match sni_contexts_ t !! host with
  | Some i => Some i
  | None =>
    match find_from "." 0 host with
    | Some dot =>
      if dot + 1 <? length host then sni_contexts_ t !! (bs "*" ++ substr dot (length host - dot) host) else None
    | None => None
    end
  end.

Definition sniCount (t : TlsContext) : nat := size (sni_contexts_ t).

(** A handshake: the context it runs on and the verification it uses. *)
Record Session := mkSession { session_ctx : nat; session_verify : Z }.

(** [set_ok]: [SSL_set_SSL_CTX] succeeds. *)
Definition sniCallback (heap : gmap nat TlsContext) (set_ok : bool) (servername : option bytes) (self : TlsContext)
    (s : Session) : Session :=
  match servername with
  | None => s
  | Some name =>
    match findSniContext name self with
    | None => s
    | Some i => if set_ok then mkSession i (default (session_verify s) ((fun t => ctx_verify (ctx_ t)) <$> heap !! i)) else s
    end
  end.

(** ** ALPN *)
Fixpoint alpn_encode (protocols : list bytes) (wire : bytes) : bytes * bool :=
  match protocols with
  | [] => (wire, true)
  | p :: ps =>
    if (length p =? 0) || (255 <? zlen p)%Z then (wire, false)
    else alpn_encode ps (wire ++ [char_of (zlen p)] ++ p)
  end.

(** [false]: an exception; the list built so far stays. *)
Definition setAlpnProtocols (protocols : list bytes) (t : TlsContext) : TlsContext * bool :=
  let '(wire, ok) := alpn_encode protocols [] in
  let t := t <| alpn_wire_ := wire |> in
  if negb ok then (t, false)
  else
    match role_ t with
    | kClient => (t <| ctx_ := (ctx_ t) <| alpn_protos := wire |> |>, true)
    | kServer => (t <| ctx_ := (ctx_ t) <| alpn_cb := true |> |>, true)
    end.

(** [select server client]: [SSL_select_next_proto] negotiates. *)
Definition alpnSelectCallback (select : bytes -> bytes -> option bytes) (client : bytes) (t : TlsContext) : option bytes :=
  if length (alpn_wire_ t) =? 0 then None else select (alpn_wire_ t) client.

(** ** Reloading *)

(** The pair of files is complete and fits. *)
Definition good_pair (fs : Files) (cp kp : bytes) : bool :=
  match chain_file fs cp, key_file fs kp with Some x, Some k => pair_ok x k | _, _ => false end.

Lemma load_pair_spec fs cp kp c :
  let '(c', ok) := load_pair fs cp kp c in
  ok = good_pair fs cp kp /\ ctx_cas c' = ctx_cas c /\
  ctx_cert c' = match chain_file fs cp with Some x => Some x | None => ctx_cert c end /\
  (ok = true -> ctx_key c' = key_file fs kp) /\ (chain_file fs cp = None -> c' = c).
Proof.
  unfold load_pair, use_certificate_chain_file, good_pair. destruct (chain_file fs cp) as [x|]; simpl; [|by split_and!].
  unfold use_PrivateKey_file, key_fits. destruct (key_file fs kp) as [k|]; simpl; [|by split_and!].
  destruct (pair_ok x k) eqn:E; simpl; [|by split_and!]. unfold check_private_key. simpl. by split_and!.
Qed.

(** [reload] succeeds exactly when it has paths and the files hold a
    certificate, a key that belongs to it and, if one was loaded, a CA bundle;
    then the live certificate and key are the ones of the files.  When it fails
    on the certificate file nothing has changed; but when it fails later the
    live certificate is already the new one. *)
Theorem reload_outcome fs t :
  let '(t', ok) := reload fs t in
  ok = (negb (length (cert_path_ t) =? 0) && negb (length (key_path_ t) =? 0) &&
        good_pair fs (cert_path_ t) (key_path_ t) &&
        ((length (ca_path_ t) =? 0) || bool_decide (is_Some (ca_file fs (ca_path_ t))))) /\
  (ok = true -> ctx_cert (ctx_ t') = chain_file fs (cert_path_ t) /\ ctx_key (ctx_ t') = key_file fs (key_path_ t)) /\
  (chain_file fs (cert_path_ t) = None -> t' = t) /\
  (forall x, cert_path_ t <> [] -> key_path_ t <> [] -> chain_file fs (cert_path_ t) = Some x ->
     ctx_cert (ctx_ t') = Some x).
Proof.
  assert (Heta : forall t, t <| ctx_ := ctx_ t |> = t) by (by intros []).
  unfold reload. destruct (cert_path_ t) as [|a cp] eqn:Ec; [by split_and!|].
  destruct (key_path_ t) as [|b kp] eqn:Ek; [by split_and!|]. cbn [length Nat.eqb orb negb andb].
  pose proof (load_pair_spec fs (a :: cp) (b :: kp) (ctx_ t)) as Hl.
  destruct (load_pair fs (a :: cp) (b :: kp) (ctx_ t)) as [c ok]. destruct Hl as (-> & Hcas & Hcert & Hkey & Hnone).
  assert (Hold : chain_file fs (a :: cp) = None -> good_pair fs (a :: cp) (b :: kp) = false).
  { unfold good_pair. by intros ->. }
  destruct (good_pair fs (a :: cp) (b :: kp)) eqn:Eg; simpl.
  - specialize (Hkey eq_refl).
    assert (Hx : is_Some (chain_file fs (a :: cp))) by (destruct (chain_file fs (a :: cp)); [eauto|by specialize (Hold eq_refl)]).
    destruct Hx as [x Hx]. rewrite Hx in Hcert.
    destruct (ca_path_ t) as [|d cap]; simpl.
    + split_and!; try done; [by rewrite Hcert, Hx|by rewrite Hx|]. intros y _ _ [= <-]%(eq_trans (eq_sym Hx)). done.
    + unfold load_verify_locations. destruct (ca_file fs (d :: cap)); simpl.
      * split_and!; try done; [by rewrite Hcert, Hx|by rewrite Hx|]. intros y _ _ [= <-]%(eq_trans (eq_sym Hx)). done.
      * split_and!; try done; [by rewrite Hx|]. intros y _ _ [= <-]%(eq_trans (eq_sym Hx)). done.
  - split_and!; try done.
    + intros Hn. rewrite (Hnone Hn). apply Heta.
    + intros x _ _ Hx. by rewrite Hx in Hcert.
Qed.

(** ** Names *)

(** A registered name is matched by itself, a wildcard by one more label. *)
Inductive sni_matches : bytes -> bytes -> Prop :=
| sni_exact h : sni_matches h h
| sni_wildcard label rest : "."%char ∉ label -> rest <> [] -> sni_matches (bs "*." ++ rest) (label ++ bs "." ++ rest).

Lemma toLowerAscii_idem s : toLowerAscii (toLowerAscii s) = toLowerAscii s.
Proof. unfold toLowerAscii. rewrite map_map. apply map_ext. apply tolower_idem. Qed.

(** What the lookup computes of a name with a dot. *)
Lemma find_dot label rest : "."%char ∉ label -> find_from "." 0 (label ++ bs "." ++ rest) = Some (length label).
Proof.
  intros H. unfold find_from. rewrite drop_0. change (bs "." ++ rest) with ("."%char :: rest).
  rewrite find_char_app by done. rewrite length_app. simpl.
  by destruct (Nat.ltb_spec (length label) (length label + S (length rest))); [|lia].
Qed.

Lemma split_dot s dot : find_from "." 0 s = Some dot -> exists label rest,
  s = label ++ bs "." ++ rest /\ "."%char ∉ label /\ length label = dot.
Proof.
  unfold find_from. rewrite drop_0. simpl. destruct (Nat.ltb_spec (find_char "." s) (length s)) as [H|H]; [|done].
  intros [= <-]. exists (take (find_char "." s) s), (drop (S (find_char "." s)) s). split_and!.
  - change (bs "." ++ ?r) with ("."%char :: r).
    rewrite (take_drop_middle s _ "."%char); [done|by apply find_char_lookup].
  - apply find_char_take.
  - rewrite length_take. lia.
Qed.

Lemma wildcard_key label rest :
  substr (length label) (length (label ++ bs "." ++ rest) - length label) (label ++ bs "." ++ rest) = bs "." ++ rest.
Proof.
  unfold substr. rewrite drop_app_length, length_app, firstn_all2; [done|]. lia.
Qed.

Lemma app_inj_dot (l k : bytes) r1 r2 :
  "."%char ∉ l -> "."%char ∉ k -> l ++ bs "." ++ r1 = k ++ bs "." ++ r2 -> l = k /\ r1 = r2.
Proof.
  intros Hl Hk H. pose proof (find_dot l r1 Hl) as F1. rewrite H, (find_dot k r2 Hk) in F1. injection F1 as F1.
  apply app_inj_1 in H as [-> H]; [|done]. by injection H.
Qed.

(** The lookup of a server name finds a context registered for a name that
    matches it -- the exact name before a wildcard, a wildcard for exactly one
    further label -- or no registered name matches; case does not matter. *)
Theorem sni_lookup hostname t :
  match findSniContext hostname t with
  | Some i => exists pattern, sni_contexts_ t !! pattern = Some i /\ sni_matches pattern (toLowerAscii hostname) /\
      (forall j, sni_contexts_ t !! toLowerAscii hostname = Some j -> i = j)
  | None => forall pattern, sni_matches pattern (toLowerAscii hostname) -> sni_contexts_ t !! pattern = None
  end /\ findSniContext (toLowerAscii hostname) t = findSniContext hostname t.
Proof.
  split; [|unfold findSniContext; by rewrite toLowerAscii_idem]. unfold findSniContext.
  generalize (toLowerAscii hostname). intros host. destruct (sni_contexts_ t !! host) as [i|] eqn:E.
  { exists host. split_and!; [done|constructor|]. intros j. congruence. }
  assert (Hw : forall label rest, host = label ++ bs "." ++ rest -> "."%char ∉ label -> rest = [] \/
    match find_from "." 0 host with
    | Some dot => if dot + 1 <? length host then sni_contexts_ t !! (bs "*" ++ substr dot (length host - dot) host) else None
    | None => None
    end = sni_contexts_ t !! (bs "*." ++ rest)).
  { intros label rest -> Hl. rewrite find_dot by done. rewrite wildcard_key.
    destruct rest as [|x rest]; [by left|]. right. rewrite length_app. simpl.
    by destruct (Nat.ltb_spec (length label + 1) (length label + S (S (length rest)))); [|lia]. }
  destruct (find_from "." 0 host) as [dot|] eqn:Ef.
  - destruct (split_dot host dot Ef) as (label & rest & -> & Hl & <-).
    destruct (Hw label rest eq_refl Hl) as [->|Hk].
    + rewrite length_app. simpl. destruct (Nat.ltb_spec (length label + 1) (length label + 1)); [lia|].
      intros pattern Hm. inversion Hm as [h|label' rest' Hl' Hr Hp Hh]; subst; [done|].
      apply (app_inj_dot label' label) in Hh as [_ ->]; done.
    + rewrite Hk. destruct (sni_contexts_ t !! (bs "*." ++ rest)) as [i|] eqn:Ei.
      * exists (bs "*." ++ rest). split_and!; [done| |congruence]. constructor; [done|]. intros ->.
        rewrite length_app in Hk. simpl in Hk.
        destruct (Nat.ltb_spec (length label + 1) (length label + 1)); [lia|]. congruence.
      * intros pattern Hm. inversion Hm as [h|label' rest' Hl' Hr Hp Hh]; subst; [done|].
        apply (app_inj_dot label' label) in Hh as [_ ->]; done.
  - intros pattern Hm. inversion Hm as [h|label rest Hl Hr Hp Hh]; subst; [done|].
    by rewrite find_dot in Ef.
Qed.

(** A name registered in any case is found in any case, and the last
    registration counts. *)
Lemma addSni_find heap h i h' t t' :
  addSniContext heap h (Some i) t = (t', true) -> toLowerAscii h = toLowerAscii h' -> findSniContext h' t' = Some i.
Proof.
  unfold addSniContext. destruct (role_ t); [|done]. destruct (role_ <$> heap !! i) as [[]|]; try done.
  intros [= <-] Hh. unfold findSniContext. simpl. by rewrite Hh, lookup_insert_eq.
Qed.

(** The handshake of a known name runs with the verification of its own
    context. *)
Lemma sniCallback_verify heap name i other self s :
  findSniContext name self = Some i -> heap !! i = Some other ->
  sniCallback heap true (Some name) self s = mkSession i (ctx_verify (ctx_ other)).
Proof. intros Hf Hh. unfold sniCallback. rewrite Hf. by rewrite Hh. Qed.

(** ** The protocol list on the wire (RFC 7301) *)
Fixpoint alpn_decode (fuel : nat) (wire : bytes) : option (list bytes) :=
  match fuel, wire with
  | _, [] => Some []
  | 0, _ => None
  | S fuel, n :: w =>
    let k := Z.to_nat (code n) in
    if (k =? 0) || (length w <? k) then None else cons (take k w) <$> alpn_decode fuel (drop k w)
  end.

Definition alpn_name_ok (p : bytes) : bool := negb (length p =? 0) && (zlen p <=? 255)%Z.

(** The longest prefix of names that can be encoded. *)
Fixpoint alpn_prefix (ps : list bytes) : list bytes :=
  match ps with [] => [] | p :: ps => if alpn_name_ok p then p :: alpn_prefix ps else [] end.

Definition alpn_wire (ps : list bytes) : bytes := concat (map (fun p => char_of (zlen p) :: p) ps).

Lemma alpn_encode_prefix ps wire :
  alpn_encode ps wire = (wire ++ alpn_wire (alpn_prefix ps), forallb alpn_name_ok ps).
Proof.
  revert wire. induction ps as [|p ps IH]; intros wire; simpl; [by rewrite app_nil_r|].
  unfold alpn_name_ok. rewrite (Z.leb_antisym 255 (zlen p)), <-negb_orb.
  destruct ((length p =? 0) || (255 <? zlen p)%Z); simpl; [by rewrite app_nil_r|].
  rewrite IH. unfold alpn_wire. simpl. by rewrite <-!app_assoc.
Qed.

Lemma alpn_decode_wire ps fuel :
  Forall (fun p => alpn_name_ok p = true) ps -> length (alpn_wire ps) <= fuel -> alpn_decode fuel (alpn_wire ps) = Some ps.
Proof.
  intros Hps. revert fuel. induction Hps as [|p ps Hp _ IH]; intros fuel Hf; [by destruct fuel|].
  apply andb_true_iff in Hp as [Hn Hz]. apply negb_true_iff, Nat.eqb_neq in Hn. apply Z.leb_le in Hz.
  unfold alpn_wire in *. cbn [map concat] in *. rewrite length_app in Hf. simpl in Hf. destruct fuel as [|fuel]; [lia|].
  assert (Hk : Z.to_nat (code (char_of (zlen p))) = length p).
  { rewrite code_char_of by (unfold zlen in *; lia). unfold zlen. apply Nat2Z.id. }
  cbn [app alpn_decode]. rewrite Hk.
  destruct (Nat.eqb_spec (length p) 0); [lia|]. rewrite length_app.
  destruct (Nat.ltb_spec (length p + length (concat (map (fun q => char_of (zlen q) :: q) ps))) (length p)); [lia|].
  simpl. rewrite take_app_length, drop_app_length, IH by lia. done.
Qed.

Lemma alpn_prefix_ok ps : Forall (fun p => alpn_name_ok p = true) (alpn_prefix ps).
Proof. induction ps as [|p ps IH]; simpl; [constructor|]. destruct (alpn_name_ok p) eqn:E; by constructor. Qed.

Lemma alpn_prefix_all ps : forallb alpn_name_ok ps = true -> alpn_prefix ps = ps.
Proof. induction ps as [|p ps IH]; simpl; [done|]. intros [-> H]%andb_true_iff. by rewrite IH. Qed.

(** The protocol list is accepted exactly when every name has 1 to 255
    bytes, and the wire form then reads back as the list.  When a name is
    refused the list in effect is cut at it. *)
Theorem alpn_roundtrip protocols t :
  let '(t', ok) := setAlpnProtocols protocols t in
  ok = forallb alpn_name_ok protocols /\
  alpn_decode (length (alpn_wire_ t')) (alpn_wire_ t') = Some (alpn_prefix protocols) /\
  (ok = true -> alpn_prefix protocols = protocols /\
     match role_ t with kClient => alpn_protos (ctx_ t') = alpn_wire_ t' | kServer => alpn_cb (ctx_ t') = true end).
Proof.
  unfold setAlpnProtocols. rewrite alpn_encode_prefix. rewrite app_nil_l.
  assert (Hd := alpn_decode_wire (alpn_prefix protocols) _ (alpn_prefix_ok protocols) (le_n _)).
  destruct (forallb alpn_name_ok protocols) eqn:E; simpl.
  - apply alpn_prefix_all in E. destruct (role_ t); simpl; by rewrite E in *.
  - by split_and!.
Qed.
End context.

(** ** Findings on concrete files

    Certificates and keys are numbers, which fit when they are equal. *)
Definition demo_files (chain k : option nat) : Files (cert := nat) (key := nat) (ca := nat) :=
  mkFiles (fun _ => chain) (fun _ => k) (fun _ => None).
Definition demo_context (f : nat -> option nat -> option nat) : TlsContext :=
  (useCertificateAndKey Nat.eqb f (demo_files (Some 1) (Some 1)) (bs "c.pem") (bs "k.pem")
     (TlsContext_new [] kServer)).1.

(** A rotation seen between its two files: the reload fails, and the server is
    left with the new certificate and at most the old key ([f] says whether
    OpenSSL keeps it). *)
Lemma reload_not_atomic f :
  let '(t, ok) := reload Nat.eqb f (demo_files (Some 2) (Some 1)) (demo_context f) in
  ok = false /\ ctx_cert (ctx_ t) = Some 2 /\ ctx_key (ctx_ t) = f 2 (Some 1).
Proof. done. Qed.
End TlsContext.
