(* ===== verification/FileWatcher.v ===== *)
(** * Watching files and reloading certificates
    (fswatch/file_watcher, tls/cert_reloader)

    [FileWatcher] turns inotify events into callbacks; the kernel's answers --
    watch descriptors, the bytes of [read] -- are arguments.  Callbacks may call
    the watcher: they are given as the calls they make.  [CertReloader] reloads
    a [TlsContext] when files change, by watching or by polling modification
    times. *)

From stdpp Require Import gmap sorting.
From S2P Require Import Prelude CStr TlsContext.

Module FileWatcher.

(** ** inotify's records *)

(** A little-endian 32-bit field at an offset. *)
Definition get32 (off : nat) (buf : bytes) : option Z :=
  b0 ← buf !! off; b1 ← buf !! (off + 1); b2 ← buf !! (off + 2); b3 ← buf !! (off + 3);
  Some (code b0 + 256 * code b1 + 65536 * code b2 + 16777216 * code b3)%Z.
Definition to_i32 (z : Z) : Z := if (z <? 2 ^ 31)%Z then z else (z - 2 ^ 32)%Z.

(** [struct inotify_event]: descriptor, mask, cookie, length, name; [None]: the
    loop reads past the bytes. *)
Fixpoint parse_events (fuel : nat) (buf : bytes) : option (list Z) :=
  match fuel, buf with
  | _, [] => Some []
  | 0, _ => None
  | S fuel, _ =>
    wd ← get32 0 buf; len ← get32 12 buf;
    cons (to_i32 wd) <$> parse_events fuel (drop (16 + Z.to_nat len) buf)
  end.

(** What [read] returns. *)
Inductive read_result := ReadBytes (b : bytes) | ReadEintr | ReadEagain.

(** ** The watcher *)
Record Watch := mkWatch { path : bytes; callback : option nat }.

Record FileWatcher := mkFileWatcher {
  inotify_ok : bool;                   (* inotify_fd_ >= 0 *)
  watches_ : gmap Z Watch;
  by_path_ : gmap bytes Z;
}.
#[export] Instance FileWatcher_settable : Settable FileWatcher := fun w =>
  mkFileWatcher (inotify_ok w) (watches_ w) (by_path_ w).

Definition FileWatcher_new (init_ok : bool) : FileWatcher := mkFileWatcher init_ok ∅ ∅.

(** [watchDirectory] and [watchFile] differ in the mask only; [wd] is what
    [inotify_add_watch] returns. *)
Definition watchPath (p : bytes) (cb : option nat) (wd : Z) (w : FileWatcher) : FileWatcher * bool :=
  if negb (inotify_ok w) then (w, false)
  else if (wd <? 0)%Z then (w, false)
  else (w <| watches_ := <[wd := mkWatch p cb]> (watches_ w) |> <| by_path_ := <[p := wd]> (by_path_ w) |>, true).

Definition unwatch (p : bytes) (w : FileWatcher) : FileWatcher :=
  match by_path_ w !! p with
  | None => w
  | Some wd => w <| watches_ := delete wd (watches_ w) |> <| by_path_ := delete p (by_path_ w) |>
  end.

(** The descriptors of one batch of reads that are watched. *)
Fixpoint collect (reads : list read_result) (w : FileWatcher) : option (list Z) :=
  match reads with
  | [] => Some []
  | ReadEintr :: rs => collect rs w
  | ReadEagain :: _ | ReadBytes [] :: _ => Some []
  | ReadBytes b :: rs =>
    wds ← parse_events (length b) b; rest ← collect rs w;
    Some (filter (fun wd => is_Some (watches_ w !! wd)) wds ++ rest)
  end.

(** [std::unique] on a range: of equal neighbours the first stays. *)
Fixpoint unique (l : list Z) : list Z :=
  match l with
  | x :: ((y :: _) as l') => if (x =? y)%Z then unique l' else x :: unique l'
  | _ => l
  end.

(** The calls a callback makes on the watcher. *)
Inductive watch_op := OpWatch (p : bytes) (cb : option nat) (wd : Z) | OpUnwatch (p : bytes).

Definition do_op (op : watch_op) (w : FileWatcher) : FileWatcher :=
  match op with OpWatch p cb wd => (watchPath p cb wd w).1 | OpUnwatch p => unwatch p w end.

Section dispatch.
Context (app : nat -> bytes -> list watch_op).

(** The callbacks that ran with their paths; [None]: one of them removed or
    replaced its own watch, and with it the function being run. *)
Fixpoint run_ops (wd : Z) (this : Watch) (ops : list watch_op) (w : FileWatcher) : option FileWatcher :=
  match ops with
  | [] => Some w
  | op :: ops =>
    let destroys := match op with
                    | OpWatch _ _ wd' => inotify_ok w && bool_decide (wd' = wd)
                    | OpUnwatch p => bool_decide (by_path_ w !! p = Some wd)
                    end in
    if destroys then None else run_ops wd this ops (do_op op w)
  end.

Fixpoint dispatch (fired : list Z) (w : FileWatcher) : option (list (nat * bytes) * FileWatcher) :=
  match fired with
  | [] => Some ([], w)
  | wd :: fired =>
    match watches_ w !! wd with
    | Some (mkWatch p (Some cb) as this) =>
      w ← run_ops wd this (app cb p) w; '(log, w) ← dispatch fired w; Some ((cb, p) :: log, w)
    | _ => dispatch fired w
    end
  end.

Definition handleRead (reads : list read_result) (w : FileWatcher) : option (list (nat * bytes) * FileWatcher) :=
  fired ← collect reads w; dispatch (unique (merge_sort Z.le fired)) w.
End dispatch.

(** ** The records read back *)
Definition put32 (z : Z) : bytes :=
  [char_of (z mod 256); char_of (z / 256 mod 256); char_of (z / 65536 mod 256); char_of (z / 16777216 mod 256)].

(** An event as the kernel writes it. *)
Record event := mkEvent { ev_wd : Z; ev_mask : Z; ev_cookie : Z; ev_name : bytes }.
Definition event_bytes (e : event) : bytes :=
  put32 (ev_wd e mod 2 ^ 32) ++ put32 (ev_mask e) ++ put32 (ev_cookie e) ++ put32 (zlen (ev_name e)) ++ ev_name e.
Definition event_ok (e : event) : Prop := (- 2 ^ 31 <= ev_wd e < 2 ^ 31)%Z /\ (zlen (ev_name e) < 2 ^ 32)%Z.

Lemma length_put32 z : length (put32 z) = 4.
Proof. done. Qed.

Lemma get_put32 pre z post : (0 <= z < 2 ^ 32)%Z -> get32 (length pre) (pre ++ put32 z ++ post) = Some z.
Proof.
  intros Hz.
  assert (L : forall k, (pre ++ put32 z ++ post) !! (length pre + k) = (put32 z ++ post) !! k).
  { intros k. rewrite lookup_app_r by lia. f_equal. lia. }
  pose proof (L 0) as L0. pose proof (L 1) as L1. pose proof (L 2) as L2. pose proof (L 3) as L3.
  rewrite Nat.add_0_r in L0. revert L0 L1 L2 L3. clear L. generalize (pre ++ put32 z ++ post). intros buf.
  cbn [lookup list_lookup app put32]. unfold get32. intros -> -> -> ->. cbn [mbind option_bind].
  rewrite !code_char_of by (apply Z.mod_pos_bound; lia). f_equal. change (2 ^ 32)%Z with 4294967296%Z in Hz.
  change 65536%Z with (256 * 256)%Z. change 16777216%Z with (256 * 256 * 256)%Z.
  rewrite <-!Z.div_div by lia.
  pose proof (Z.div_mod z 256 ltac:(lia)). pose proof (Z.div_mod (z / 256) 256 ltac:(lia)).
  pose proof (Z.div_mod (z / 256 / 256) 256 ltac:(lia)).
  assert (0 <= z / 256 / 256 / 256 < 256)%Z.
  { rewrite !Z.div_div by lia. split; [apply Z.div_pos; lia|apply Z.div_lt_upper_bound; lia]. }
  rewrite (Z.mod_small (z / 256 / 256 / 256)) by lia. lia.
Qed.

Lemma to_i32_mod z : (- 2 ^ 31 <= z < 2 ^ 31)%Z -> to_i32 (z mod 2 ^ 32) = z.
Proof.
  change (2 ^ 31)%Z with 2147483648%Z. unfold to_i32. change (2 ^ 32)%Z with 4294967296%Z.
  change (2 ^ 31)%Z with 2147483648%Z. intros Hz.
  destruct (Z.ltb_spec (z mod 4294967296) 2147483648) as [H|H]; destruct (Z.lt_ge_cases z 0) as [Hn|Hn];
    rewrite ?(Z.mod_small z) in * by lia; try lia;
    rewrite <-(Z.mod_add z 1 4294967296), Z.mod_small in * by lia; lia.
Qed.

(** Whole events, whatever their names, parse to their descriptors. *)
Lemma parse_events_bytes evs fuel :
  Forall event_ok evs -> length (concat (map event_bytes evs)) <= fuel ->
  parse_events fuel (concat (map event_bytes evs)) = Some (map ev_wd evs).
Proof.
  intros Hevs. revert fuel. induction Hevs as [|e evs [Hwd Hlen] _ IH]; intros fuel Hf; [by destruct fuel|].
  cbn [map concat] in *. set (tail := concat (map event_bytes evs)) in *.
  assert (Hl : length (event_bytes e ++ tail) = 16 + length (ev_name e) + length tail).
  { unfold event_bytes. rewrite !length_app, !length_put32. lia. }
  rewrite Hl in Hf. destruct fuel as [|fuel]; [lia|].
  assert (H0 : get32 0 (event_bytes e ++ tail) = Some (ev_wd e mod 2 ^ 32)%Z).
  { unfold event_bytes. rewrite <-!app_assoc. apply (get_put32 []). apply Z.mod_pos_bound. lia. }
  assert (H12 : get32 12 (event_bytes e ++ tail) = Some (zlen (ev_name e))).
  { unfold event_bytes. rewrite <-!app_assoc.
    apply (get_put32 (put32 (ev_wd e mod 2 ^ 32) ++ put32 (ev_mask e) ++ put32 (ev_cookie e))). unfold zlen in *. lia. }
  assert (Hd : drop (16 + Z.to_nat (zlen (ev_name e))) (event_bytes e ++ tail) = tail).
  { apply drop_app_length'. unfold event_bytes, zlen. rewrite !length_app, !length_put32. lia. }
  cbn [parse_events]. destruct (event_bytes e ++ tail) as [|x l] eqn:El; [simpl in Hl; lia|].
  rewrite H0. cbn [mbind option_bind]. rewrite H12. cbn [mbind option_bind]. rewrite Hd, IH by lia.
  simpl. by rewrite to_i32_mod.
Qed.

(** ** Dispatch *)
Lemma unique_elem l x : x ∈ unique l <-> x ∈ l.
Proof.
  induction l as [|y [|z l] IH]; [done|done|]. cbn [unique]. destruct (Z.eqb_spec y z) as [->|Hn].
  - rewrite IH, !elem_of_cons. naive_solver.
  - rewrite elem_of_cons, IH, !elem_of_cons. done.
Qed.

Lemma unique_sorted l : StronglySorted Z.le l -> StronglySorted Z.lt (unique l).
Proof.
  induction l as [|y [|z l] IH]; intros Hs; [constructor|by repeat constructor|].
  cbn [unique]. apply StronglySorted_inv in Hs as [Hs Hy]. destruct (Z.eqb_spec y z) as [->|Hn]; [by apply IH|].
  constructor; [by apply IH|]. apply Forall_forall. intros x Hx. apply (proj1 (unique_elem (z :: l) x)) in Hx.
  apply Forall_cons in Hy as [Hyz _]. apply StronglySorted_inv in Hs as [_ Hz]. rewrite Forall_forall in Hz.
  apply elem_of_cons in Hx as [->|Hx]; [lia|]. specialize (Hz x Hx). lia.
Qed.

Lemma collect_events batches w :
  Forall (fun evs => evs <> [] /\ Forall event_ok evs) batches ->
  collect (map (fun evs => ReadBytes (concat (map event_bytes evs))) batches) w =
  Some (filter (fun wd => is_Some (watches_ w !! wd)) (concat (map (map ev_wd) batches))).
Proof.
  induction 1 as [|evs batches [Hne Hok] _ IH]; [done|]. cbn [map collect concat].
  destruct (concat (map event_bytes evs)) as [|x b] eqn:E.
  { destruct evs as [|e evs]; [done|]. apply (f_equal length) in E. unfold event_bytes in E. simpl in E. lia. }
  rewrite <-E, parse_events_bytes by (done || lia). simpl. rewrite IH. simpl. by rewrite filter_app.
Qed.

Definition ran (w : FileWatcher) (wd : Z) : option (nat * bytes) :=
  match watches_ w !! wd with Some (mkWatch p (Some cb)) => Some (cb, p) | _ => None end.

Lemma dispatch_quiet fired w : dispatch (fun _ _ => []) fired w = Some (omap (ran w) fired, w).
Proof.
  induction fired as [|wd fired IH]; [done|]. simpl. unfold ran at 1.
  destruct (watches_ w !! wd) as [[p [cb|]]|]; simpl; by rewrite IH.
Qed.

(** Of a batch of inotify events, however the kernel cuts it into reads,
    each watch that saw one runs its callback exactly once, with its path, in
    the order of the descriptors; events of other descriptors run nothing.
    (For callbacks that do not change the watches.) *)
Theorem watch_dispatch batches w :
  Forall (fun evs => evs <> [] /\ Forall event_ok evs) batches ->
  exists fired,
    handleRead (fun _ _ => []) (map (fun evs => ReadBytes (concat (map event_bytes evs))) batches) w =
      Some (omap (ran w) fired, w) /\
    StronglySorted Z.lt fired /\
    forall wd, wd ∈ fired <-> (exists e evs, evs ∈ batches /\ e ∈ evs /\ ev_wd e = wd) /\ is_Some (watches_ w !! wd).
Proof.
  intros Hb. set (fired := filter (fun wd => is_Some (watches_ w !! wd)) (concat (map (map ev_wd) batches))).
  exists (unique (merge_sort Z.le fired)). unfold handleRead. rewrite collect_events by done. simpl.
  split_and!; [apply dispatch_quiet|apply unique_sorted, StronglySorted_merge_sort; apply _|].
  intros wd. rewrite unique_elem, (merge_sort_Permutation Z.le fired). unfold fired. rewrite list_elem_of_filter, (and_comm (is_Some _)).
  assert (Hc : wd ∈ concat (map (map ev_wd) batches) <-> exists e evs, evs ∈ batches /\ e ∈ evs /\ ev_wd e = wd).
  { rewrite list_elem_of_In, in_concat. setoid_rewrite list_elem_of_In. split.
    - intros (l & (evs & <- & H1)%in_map_iff & (e & He & H2)%in_map_iff). eauto.
    - intros (e & evs & H1 & H2 & <-). exists (map ev_wd evs). split; apply in_map_iff; eauto. }
  by rewrite Hc.
Qed.

(** ** The two maps *)
Record watcher_wf (w : FileWatcher) : Prop := {
  path_watched : forall p wd, by_path_ w !! p = Some wd -> path <$> watches_ w !! wd = Some p;
  watch_named : forall wd x, watches_ w !! wd = Some x -> by_path_ w !! path x = Some wd;
}.

(** The kernel identifies what is watched by descriptor: one per path. *)
Definition one_inode (p : bytes) (wd : Z) (w : FileWatcher) : Prop :=
  (forall q, by_path_ w !! q = Some wd -> q = p) /\ (forall wd', by_path_ w !! p = Some wd' -> wd' = wd).

Lemma watchPath_wf p cb wd w : watcher_wf w -> one_inode p wd w -> watcher_wf (watchPath p cb wd w).1.
Proof.
  intros [H1 H2] [K1 K2]. unfold watchPath. repeat case_match; simpl; try by split. split; simpl.
  - intros q wd' [[<- <-]|[Hq Hl]]%lookup_insert_Some; [by rewrite lookup_insert_eq|].
    rewrite lookup_insert_ne; [by apply H1|]. intros <-. by apply Hq, eq_sym, K1.
  - intros wd' x [[<- <-]|[Hwd Hl]]%lookup_insert_Some; simpl; [by rewrite lookup_insert_eq|].
    rewrite lookup_insert_ne; [by apply H2|]. intros Hp. apply H2 in Hl. rewrite <-Hp in Hl. by apply K2 in Hl.
Qed.

Lemma unwatch_wf p w : watcher_wf w -> watcher_wf (unwatch p w).
Proof.
  intros [H1 H2]. unfold unwatch. destruct (by_path_ w !! p) as [wd|] eqn:E; [|by split]. split; simpl.
  - intros q wd' [Hq Hl]%lookup_delete_Some. rewrite lookup_delete_ne; [by apply H1|]. intros <-.
    apply H1 in E, Hl. congruence.
  - intros wd' x [Hwd Hl]%lookup_delete_Some. rewrite lookup_delete_ne; [by apply H2|]. intros Hp.
    apply H2 in Hl. congruence.
Qed.

(** The same directory watched under two names: the first callback is replaced,
    and [unwatch] of the first name ends the second watch as well. *)
Lemma alias_watch_lost p q c1 c2 w :
  p <> q -> inotify_ok w = true ->
  let w2 := (watchPath q (Some c2) 1 (watchPath p (Some c1) 1 w).1).1 in
  ran w2 1 = Some (c2, q) /\ ran (unwatch p w2) 1 = None /\ by_path_ (unwatch p w2) !! q = Some 1%Z.
Proof.
  intros Hne Hi. unfold watchPath. rewrite Hi. simpl. rewrite Hi. simpl. unfold ran, unwatch. simpl.
  assert (Hp : <[q := 1%Z]> (<[p := 1%Z]> (by_path_ w)) !! p = Some 1%Z).
  { rewrite lookup_insert_ne by congruence. apply lookup_insert_eq. }
  rewrite !Hp. simpl. rewrite lookup_insert_eq, lookup_delete_eq, lookup_delete_ne, lookup_insert_eq by congruence. done.
Qed.

(** A callback that unwatches its own path destroys the function it runs in. *)
Lemma self_unwatch_destroys p cb w :
  inotify_ok w = true ->
  let w1 := (watchPath p (Some cb) 1 w).1 in
  dispatch (fun _ q => [OpUnwatch q]) [1%Z] w1 = None.
Proof.
  intros Hi. unfold watchPath. rewrite Hi. simpl. rewrite lookup_insert_eq. simpl.
  rewrite lookup_insert_eq, bool_decide_eq_true_2 by done. done.
Qed.

Definition demo_watcher : FileWatcher :=
  (watchPath (bs "/b") (Some 20) 2 (watchPath (bs "/a") (Some 10) 5 (FileWatcher_new true)).1).1.
Definition demo_events : list (list event) :=
  [[mkEvent 5 256 0 (bs "x"); mkEvent 9 2 0 []]; [mkEvent 2 2 0 []; mkEvent 5 2 0 (bs "y")]].

Lemma watch_dispatch_witness :
  handleRead (fun _ _ => []) (map (fun evs => ReadBytes (concat (map event_bytes evs))) demo_events) demo_watcher =
    Some ([(20, bs "/b"); (10, bs "/a")], demo_watcher) /\
  exists fired,
    handleRead (fun _ _ => []) (map (fun evs => ReadBytes (concat (map event_bytes evs))) demo_events) demo_watcher =
      Some (omap (ran demo_watcher) fired, demo_watcher) /\ StronglySorted Z.lt fired.
Proof.
  split; [vm_compute; reflexivity|].
  destruct (watch_dispatch demo_events demo_watcher) as (fired & H1 & H2 & _); [|by exists fired].
  repeat constructor; discriminate.
Defined.
End FileWatcher.

(** ** Reloading certificates *)
Module CertReloader.
Import TlsContext.

Section reloader.
Context {cert key ca : Type} (pair_ok : cert -> key -> bool) (key_after_cert : cert -> option key -> option key).
#[local] Notation Ctx := (TlsContext (cert := cert) (key := key) (ca := ca)).
#[local] Notation Fs := (Files (cert := cert) (key := key) (ca := ca)).

Record CertReloader := mkCertReloader {
  ctx : Ctx;
  r_cert_path_ : bytes;
  r_key_path_ : bytes;
  r_ca_path_ : bytes;
  cert_mtime_ : Z;
  key_mtime_ : Z;
  ca_mtime_ : Z;
  polling_ : bool;
  watcher_ : bool;                       (* watching a directory *)
  reloads : list bool;                   (* what reload_callback_ was given *)
}.
#[export] Instance CertReloader_settable : Settable CertReloader := fun r =>
  mkCertReloader (ctx r) (r_cert_path_ r) (r_key_path_ r) (r_ca_path_ r) (cert_mtime_ r) (key_mtime_ r) (ca_mtime_ r)
    (polling_ r) (watcher_ r) (reloads r).

Definition CertReloader_new (c : Ctx) : CertReloader := mkCertReloader c [] [] [] 0 0 0 false false [].

(** The files with the modification times [stat] reports, in seconds. *)
Record World := mkWorld { files : Fs; stat_mtime : bytes -> option Z }.

Definition mtimeOf (w : World) (p : bytes) : Z :=
  if length p =? 0 then 0%Z else default 0%Z (stat_mtime w p).

Definition reloadNow (w : World) (r : CertReloader) : CertReloader :=
  let '(c, ok) := reload pair_ok key_after_cert (files w) (ctx r) in
  r <| ctx := c |> <| reloads := reloads r ++ [ok] |>.

(** [ok]: the directory could be watched. *)
Definition startWatching (ok : bool) (r : CertReloader) : CertReloader * bool := (r <| watcher_ := ok |>, ok).
(** The watcher's callback. *)
Definition onWatched (w : World) (r : CertReloader) : CertReloader := if watcher_ r then reloadNow w r else r.

Definition startPolling (w : World) (cp kp cap : bytes) (r : CertReloader) : CertReloader :=
  r <| r_cert_path_ := cp |> <| r_key_path_ := kp |> <| r_ca_path_ := cap |>
    <| cert_mtime_ := mtimeOf w cp |> <| key_mtime_ := mtimeOf w kp |> <| ca_mtime_ := mtimeOf w cap |>
    <| polling_ := true |>.

Definition filesChanged (w : World) (r : CertReloader) : bool * CertReloader :=
  let c := mtimeOf w (r_cert_path_ r) in
  let k := mtimeOf w (r_key_path_ r) in
  let a := mtimeOf w (r_ca_path_ r) in
  let changed := negb (c =? cert_mtime_ r)%Z || negb (k =? key_mtime_ r)%Z || negb (a =? ca_mtime_ r)%Z in
  if changed then (true, r <| cert_mtime_ := c |> <| key_mtime_ := k |> <| ca_mtime_ := a |>) else (false, r).

(** The timer's callback. *)
Definition poll (w : World) (r : CertReloader) : CertReloader :=
  if polling_ r then
    let '(changed, r) := filesChanged w r in if changed then reloadNow w r else r
  else r.

(** ** Polling keeps the context current *)

(** The files of the context's paths are complete, and the context has them. *)
Definition complete (w : World) (c : Ctx) : Prop :=
  cert_path_ c <> [] /\ key_path_ c <> [] /\ good_pair pair_ok (files w) (cert_path_ c) (key_path_ c) = true.
Definition current (w : World) (c : Ctx) : Prop :=
  ctx_cert (ctx_ c) = chain_file (files w) (cert_path_ c) /\ ctx_key (ctx_ c) = key_file (files w) (key_path_ c).

(** The reloader looks at the context's own files. *)
Definition same_paths (r : CertReloader) : Prop := r_cert_path_ r = cert_path_ (ctx r) /\ r_key_path_ r = key_path_ (ctx r).

(** What the last look saw. *)
Definition seen (w : World) (r : CertReloader) : Prop :=
  cert_mtime_ r = mtimeOf w (r_cert_path_ r) /\ key_mtime_ r = mtimeOf w (r_key_path_ r).

(** Every change of a file changes its modification time. *)
Definition mtimes_tell (w w' : World) : Prop :=
  forall p, p <> [] -> mtimeOf w p = mtimeOf w' p ->
    chain_file (files w) p = chain_file (files w') p /\ key_file (files w) p = key_file (files w') p.

Lemma reload_paths fs (c : Ctx) :
  cert_path_ (reload pair_ok key_after_cert fs c).1 = cert_path_ c /\
  key_path_ (reload pair_ok key_after_cert fs c).1 = key_path_ c.
Proof.
  unfold reload. case_match; [done|]. destruct (load_pair _ _ _ _ _ _) as [c1 ok]. destruct ok; simpl; [|done].
  case_match; [done|]. by destruct (load_verify_locations _ _ _).
Qed.

Lemma reload_current w (c : Ctx) : complete w c -> current w (reload pair_ok key_after_cert (files w) c).1.
Proof.
  intros (Hc & Hk & Hg). unfold current. destruct (reload_paths (files w) c) as [-> ->]. unfold reload.
  destruct (cert_path_ c) as [|a cp]; [done|]. destruct (key_path_ c) as [|b kp]; [done|]. cbn [length Nat.eqb orb].
  pose proof (load_pair_spec pair_ok key_after_cert (files w) (a :: cp) (b :: kp) (ctx_ c)) as Hl.
  destruct (load_pair _ _ _ _ _ _) as [c1 ok]. destruct Hl as (-> & _ & H1 & H2 & _). rewrite Hg in *. simpl.
  assert (Hx : ctx_cert c1 = chain_file (files w) (a :: cp)).
  { unfold good_pair in Hg. destruct (chain_file (files w) (a :: cp)); [by rewrite H1|done]. }
  specialize (H2 eq_refl). destruct (length (ca_path_ c) =? 0); [done|].
  unfold load_verify_locations. by destruct (ca_file (files w) (ca_path_ c)).
Qed.

(** After a look at [w]: if the files are complete, the context has them. *)
Record polled (w : World) (r : CertReloader) : Prop := {
  p_paths : same_paths r;
  p_seen : seen w r;
  p_polling : polling_ r = true;
  p_current : complete w (ctx r) -> current w (ctx r);
}.

Lemma poll_polled w w' r : polled w r -> mtimes_tell w w' -> polled w' (poll w' r).
Proof.
  intros [[Hp1 Hp2] [Hs1 Hs2] Hpo Hc] Ht. unfold poll. rewrite Hpo. unfold filesChanged.
  destruct (_ || _) eqn:E.
  - unfold reloadNow. simpl. pose proof (reload_paths (files w') (ctx r)) as [E1 E2].
    pose proof (reload_current w' (ctx r)) as Hcur. destruct (reload _ _ (files w') (ctx r)) as [c ok]. simpl in *.
    split; [by split; simpl; congruence|by split|done|]. unfold complete, current in *. simpl. by rewrite E1, E2 in *.
  - rewrite !orb_false_iff, !negb_false_iff, !Z.eqb_eq in E. destruct E as [[E1 E2] _].
    split; [by split|by split|done|]. intros (Hn1 & Hn2 & Hg).
    rewrite <-E1, <-E2 in *. rewrite Hp1, Hp2 in *.
    destruct (Ht _ Hn1 ltac:(congruence)) as [T1 _]. destruct (Ht _ Hn2 ltac:(congruence)) as [_ T2].
    unfold complete, current, good_pair in *. rewrite <-T1, <-T2 in *. by apply Hc.
Qed.

Lemma startPolling_polled w cap r :
  current w (ctx r) ->
  polled w (startPolling w (cert_path_ (ctx r)) (key_path_ (ctx r)) cap r).
Proof. intros Hc. by split. Qed.

(** The worlds the polls see, one after another. *)
Fixpoint tells_along (w : World) (ws : list World) : Prop :=
  match ws with [] => True | w' :: ws => mtimes_tell w w' /\ tells_along w' ws end.
Definition run_polls (ws : list World) (r : CertReloader) : CertReloader := fold_left (fun r w => poll w r) ws r.
Definition last_world (w : World) (ws : list World) : World := List.last ws w.

Lemma run_polls_polled w ws r : polled w r -> tells_along w ws -> polled (last_world w ws) (run_polls ws r).
Proof.
  revert w r. induction ws as [|w' ws IH]; intros w r Hp Ht; [done|]. destruct Ht as [H1 H2].
  assert (Hl : last_world w (w' :: ws) = last_world w' ws).
  { unfold last_world. destruct ws; [done|]. simpl. clear. revert w0 w w'. induction ws; intros; [done|]. simpl. done. }
  rewrite Hl. by apply IH; [eapply poll_polled|].
Qed.

(** A reloader that polls the context's own files, every change of which
    changes a modification time, keeps the context current: after any number
    of polls, some of which may have seen an incomplete pair, a context whose
    files are complete at the last one has the certificate and key they hold. *)
Theorem polling_keeps_current w ws cap r :
  current w (ctx r) -> tells_along w ws ->
  let r' := run_polls ws (startPolling w (cert_path_ (ctx r)) (key_path_ (ctx r)) cap r) in
  complete (last_world w ws) (ctx r') -> current (last_world w ws) (ctx r').
Proof.
  intros Hc Ht r' Hcomplete. eapply run_polls_polled; [by apply startPolling_polled|exact Ht|exact Hcomplete].
Qed.
End reloader.

(** ** Runs

    Certificates and keys are numbers that fit when they are equal; both files
    have the same modification time. *)
Definition demo_world (chain k : nat) (mtime : Z) : World (cert := nat) (key := nat) (ca := nat) :=
  mkWorld (demo_files (Some chain) (Some k)) (fun _ => Some mtime).
Definition demo_reloader : CertReloader := CertReloader_new (demo_context (fun _ k => k)).
#[local] Notation Reloader := (CertReloader (cert := nat) (key := nat) (ca := nat)).
Definition demo_poll : World -> Reloader -> Reloader := poll Nat.eqb (fun _ k => k).
Definition demo_start : CertReloader :=
  startPolling (demo_world 1 1 100) (bs "c.pem") (bs "k.pem") [] demo_reloader.

Lemma polling_keeps_current_witness :
  ctx_cert (ctx_ (ctx (run_polls Nat.eqb (fun _ k => k) [demo_world 2 1 101; demo_world 2 2 102] demo_start))) = Some 2 /\
  current (demo_world 2 2 102) (ctx (run_polls Nat.eqb (fun _ k => k) [demo_world 2 1 101; demo_world 2 2 102] demo_start)).
Proof.
  split; [vm_compute; reflexivity|].
  apply (polling_keeps_current Nat.eqb (fun _ k => k) (demo_world 1 1 100)
    [demo_world 2 1 101; demo_world 2 2 102] [] demo_reloader).
  - by split.
  - split; [|split; [|done]]; intros [|x p] Hp Hm; first [done|discriminate Hm].
  - split_and!; [discriminate|discriminate|reflexivity].
Defined.

(** The times are in whole seconds, and recorded before the reload: a rotation
    whose second file is written in the second of the poll that saw the first
    one is never loaded. *)
Lemma same_second_rotation_missed :
  let half := demo_poll (demo_world 2 1 101) demo_start in
  let done_ := demo_poll (demo_world 2 2 101) half in
  reloads done_ = [false] /\ ctx_key (ctx_ (ctx done_)) = Some 1 /\
  forall n, Nat.iter n (demo_poll (demo_world 2 2 101)) done_ = done_.
Proof. split_and!; [reflexivity..|]. induction n as [|n IH]; [done|]. simpl. by rewrite IH. Qed.
End CertReloader.
