(* ===== verification/OcspStapler.v ===== *)
(** * OCSP stapling (tls/ocsp_stapler)

    The cached response with its validity window, and the automatic refresh
    that goes round between the loop's timer, the thread pool and the loop.
    What OpenSSL parses and checks, the network and the clock are parameters
    and arguments. *)

From stdpp Require Import list.
From S2P Require Import Prelude.

Module OcspStapler.

(** ** The response *)

(** A single response: its status and its window. *)
Record SingleResp := mkSingleResp { status_good : bool; this_update : Z; next_update : option Z }.

(** What [d2i_OCSP_RESPONSE] makes of the bytes: the status of the response and
    its basic response, if it has one. *)
Record OcspResponse := mkOcspResponse { status_successful : bool; basic : option (list SingleResp) }.

Class OcspLib := {
  d2i_OCSP_RESPONSE : bytes -> option OcspResponse;
  (** with [nsec] 300 and no [maxsec]: now, thisUpdate, nextUpdate *)
  OCSP_check_validity : Z -> Z -> option Z -> bool;
  check_validity_next now this next :
    OCSP_check_validity now this (Some next) = true -> (now <= next + 300)%Z;
}.

Record OcspStapler := mkOcspStapler { response_der_ : bytes; next_update_epoch_ : Z }.
Definition OcspStapler_new : OcspStapler := mkOcspStapler [] 0.

Section response.
Context `{!OcspLib}.

(** The expiry a response may be cached with; [None]: it is refused. *)
Definition acceptable (now : Z) (der : bytes) : option Z :=
  match d2i_OCSP_RESPONSE der with
  | Some (mkOcspResponse true (Some [])) => Some 0%Z
  | Some (mkOcspResponse true (Some (single :: _))) =>
    if status_good single then
      if OCSP_check_validity now (this_update single) (next_update single)
      then Some (default 0%Z (next_update single)) else None
    else None
  | _ => None
  end.

Definition setResponseDer (now : Z) (der : bytes) (s : OcspStapler) : OcspStapler * bool :=
  if length der =? 0 then (s, false)
  else
    match acceptable now der with
    | Some next_epoch => (mkOcspStapler der next_epoch, true)
    | None => (s, false)
    end.

(** The contents of the file, if it opens. *)
Definition loadFromFile (now : Z) (file : option bytes) (s : OcspStapler) : OcspStapler * bool :=
  match file with None => (s, false) | Some der => setResponseDer now der s end.

(** The override, or the URL of the certificate, if it loads. *)
Definition responderUrl (override : bytes) (aia : option bytes) : bytes :=
  if length override =? 0 then default [] aia else override.

(** One fetch: the certificates load, the URL parses, the request is built, and
    the responder answers with a DER response. *)
Record Fetch := mkFetch {
  cert_aia : option bytes;               (* None: the certificate does not load *)
  issuer_loads : bool;
  url_parses : bytes -> bool;
  request_built : bool;
  answer : option bytes;
}.

Definition refresh (override : bytes) (now : Z) (f : Fetch) (s : OcspStapler) : OcspStapler * bool :=
  match cert_aia f with
  | None => (s, false)
  | Some _ =>
    let url := responderUrl override (cert_aia f) in
    if negb (issuer_loads f) || (length url =? 0) || negb (url_parses f url) || negb (request_built f) then (s, false)
    else match answer f with
         | Some der => setResponseDer now der s
         | None => (s, false)
         end
  end.

Definition hasResponse (s : OcspStapler) : bool := negb (length (response_der_ s) =? 0).

Definition secondsUntilExpiry (now : Z) (s : OcspStapler) : Z :=
  if length (response_der_ s) =? 0 then 0
  else if (next_update_epoch_ s =? 0)%Z then -1
  else let remaining := (next_update_epoch_ s - now)%Z in if (0 <? remaining)%Z then remaining else 0.

(** The staple of a handshake; [buffer_ok]: the copy could be made and set. *)
Definition statusCallback (buffer_ok : bool) (s : OcspStapler) : option bytes :=
  if length (response_der_ s) =? 0 then None else if buffer_ok then Some (response_der_ s) else None.

(** A cached response was accepted at some time. *)
Definition cached_ok (s : OcspStapler) : Prop :=
  response_der_ s <> [] -> exists t, acceptable t (response_der_ s) = Some (next_update_epoch_ s).

Lemma set_cached now der s : cached_ok s -> cached_ok (setResponseDer now der s).1.
Proof.
  intros Hs. unfold setResponseDer. case_match; [done|]. destruct (acceptable now der) as [e|] eqn:E; [|done].
  intros _. by exists now.
Qed.

Lemma refresh_cached override now f s : cached_ok s -> cached_ok (refresh override now f s).1.
Proof. intros Hs. unfold refresh. repeat case_match; try done; by apply set_cached. Qed.

(** A response accepted now that says when it expires has not expired by more
    than the tolerated skew, and one that was refused leaves the cache alone. *)
Lemma setResponse_window now der s s' ok :
  setResponseDer now der s = (s', ok) ->
  if ok then response_der_ s' = der /\ (next_update_epoch_ s' = 0%Z \/ (now <= next_update_epoch_ s' + 300)%Z) else s' = s.
Proof.
  unfold setResponseDer. destruct (length der =? 0); [by intros [= <- <-]|].
  destruct (acceptable now der) as [e|] eqn:E; intros [= <- <-]; [|done]. split; [done|].
  unfold acceptable in E. destruct (d2i_OCSP_RESPONSE der) as [[[] [[|single l]|]]|]; try done; simpl.
  - left. by injection E.
  - destruct (status_good single); [|done]. destruct (OCSP_check_validity _ _ _) eqn:Ev; [|done]. injection E as <-.
    destruct (next_update single) as [n|]; [|by left]. right. by apply check_validity_next in Ev.
Qed.

(** The staple is served as long as it is cached: also when it has expired. *)
Lemma expired_staple_served now s :
  response_der_ s <> [] -> (0 < next_update_epoch_ s < now)%Z ->
  secondsUntilExpiry now s = 0%Z /\ statusCallback true s = Some (response_der_ s).
Proof.
  intros Hd Hn. unfold secondsUntilExpiry, statusCallback. destruct (response_der_ s) as [|x l]; [done|]. simpl.
  destruct (Z.eqb_spec (next_update_epoch_ s) 0); [lia|].
  by destruct (Z.ltb_spec 0 (next_update_epoch_ s - now)); [lia|].
Qed.
End response.

(** ** Automatic refresh *)
Record Options := mkOptions {
  scale : Z -> Z;                        (* remaining times refresh_ratio, as a double *)
  min_seconds : Z;
  max_seconds : Z;
  fallback_seconds : Z;
  retry_seconds : Z;
  refresh_now : bool;
}.

Record AutoRefresh := mkAutoRefresh {
  opts : Options;
  timer : option nat;                    (* None: TimerId() *)
  timer_armed : bool;
  stopped : bool;
  freed : bool;
}.
#[export] Instance AutoRefresh_settable : Settable AutoRefresh := fun a =>
  mkAutoRefresh (opts a) (timer a) (timer_armed a) (stopped a) (freed a).

(** What the loop has queued: a refresh cycle, a rescheduling, arming a timer. *)
Inductive loop_task := TCycle | TSchedule | TArm (delay_ms : Z).

Record World := mkWorld {
  cache : OcspStapler;
  alive : bool;                          (* the stapler exists *)
  autos : list AutoRefresh;              (* every AutoRefresh ever made *)
  auto_ : option nat;
  timers : list (nat * Z);               (* armed in the loop: id, delay *)
  next_timer : nat;
  loop_tasks : list loop_task;
  pool : list nat;                       (* fetches queued or running, by AutoRefresh *)
}.
#[export] Instance World_settable : Settable World := fun w =>
  mkWorld (cache w) (alive w) (autos w) (auto_ w) (timers w) (next_timer w) (loop_tasks w) (pool w).

Definition World_new (s : OcspStapler) : World := mkWorld s true [] None [] 0 [] [].

Definition set_auto (i : nat) (f : AutoRefresh -> AutoRefresh) (w : World) : World :=
  w <| autos := alter f i (autos w) |>.

(** [std::clamp] *)
Definition clamp (v lo hi : Z) : Z := if (v <? lo)%Z then lo else if (hi <? v)%Z then hi else v.

Definition next_delay (o : Options) (remaining : Z) : Z :=
  if (0 <? remaining)%Z then clamp (scale o remaining) (min_seconds o) (max_seconds o)
  else if (remaining <? 0)%Z then fallback_seconds o
  else retry_seconds o.

(** [loop->runAfter]: off the loop's thread the arming is queued and the handle
    is empty. *)
Definition runAfter (in_loop : bool) (delay_ms : Z) (w : World) : option nat * World :=
  if in_loop then (Some (next_timer w), w <| timers := timers w ++ [(next_timer w, delay_ms)] |> <| next_timer := S (next_timer w) |>)
  else (None, w <| loop_tasks := loop_tasks w ++ [TArm delay_ms] |>).

(** [None] of the functions below: a destroyed object is used. *)
Definition scheduleNextRefresh (in_loop : bool) (now : Z) (w : World) : option World :=
  if negb (alive w) then None
  else match auto_ w with
  | None => Some w
  | Some i =>
    a ← autos w !! i;
    if stopped a then Some w
    else
      let delay_s := next_delay (opts a) (secondsUntilExpiry now (cache w)) in
      let '(id, w) := runAfter in_loop (wrap64 (wrap64 delay_s * 1000)) w in
      Some (set_auto i (fun a => a <| timer := id |> <| timer_armed := true |>) w)
  end.

(** [queued]: [tryRun] accepts the fetch. *)
Definition doRefreshCycle (queued : bool) (now : Z) (w : World) : option World :=
  if negb (alive w) then None
  else match auto_ w with
  | None => Some w
  | Some i =>
    a ← autos w !! i;
    if stopped a then Some w
    else
      let w := set_auto i (fun a => a <| timer_armed := false |>) w in
      if queued then Some (w <| pool := pool w ++ [i] |>) else scheduleNextRefresh true now w
  end.

(** An AutoRefresh that is replaced is destroyed. *)
Definition startAutoRefresh (in_loop queued : bool) (now : Z) (o : Options) (w : World) : option World :=
  let w := match auto_ w with Some i => set_auto i (fun a => a <| freed := true |>) w | None => w end in
  let w := w <| autos := autos w ++ [mkAutoRefresh o None false false false] |> <| auto_ := Some (length (autos w)) |> in
  if refresh_now o then
    if in_loop then doRefreshCycle queued now w else Some (w <| loop_tasks := loop_tasks w ++ [TCycle] |>)
  else scheduleNextRefresh in_loop now w.

(** From the loop's thread. *)
Definition stopAutoRefresh (w : World) : World :=
  match auto_ w with
  | None => w
  | Some i =>
    match autos w !! i with
    | None => w
    | Some a =>
      let w := if timer_armed a then w <| timers := filter (fun t => Some t.1 <> timer a) (timers w) |> else w in
      set_auto i (fun a => a <| stopped := true |> <| timer_armed := false |>) w
    end
  end.

Definition OcspStapler_destroy (w : World) : World :=
  let w := stopAutoRefresh w in
  let w := match auto_ w with Some i => set_auto i (fun a => a <| freed := true |>) w | None => w end in
  w <| alive := false |>.

(** The loop runs its oldest task, a timer fires, a fetch ends. *)
Definition run_loop_task (queued : bool) (now : Z) (w : World) : option World :=
  match loop_tasks w with
  | [] => Some w
  | t :: ts =>
    let w := w <| loop_tasks := ts |> in
    match t with
    | TCycle => doRefreshCycle queued now w
    | TSchedule => scheduleNextRefresh true now w
    | TArm d => Some (runAfter true d w).2
    end
  end.

Definition fire (id : nat) (queued : bool) (now : Z) (w : World) : option World :=
  if existsb (fun t => t.1 =? id) (timers w)
  then doRefreshCycle queued now (w <| timers := filter (fun t => t.1 <> id) (timers w) |>)
  else Some w.

(** The end of a fetch on a pool thread: [refresh], then the hop to the loop. *)
Definition fetch_done `{!OcspLib} (k : nat) (override : bytes) (now : Z) (f : Fetch) (w : World) : option World :=
  match pool w !! k with
  | None => Some w
  | Some i =>
    a ← autos w !! i;
    if negb (alive w) || freed a then None
    else
      let w := w <| pool := take k (pool w) ++ drop (S k) (pool w) |> <| cache := (refresh override now f (cache w)).1 |> in
      Some (if stopped a then w else w <| loop_tasks := loop_tasks w ++ [TSchedule] |>)
  end.

(** ** One chain

    After one [startAutoRefresh]: the stapler is alive, and what will refresh
    next is in exactly one place -- an armed timer, a task of the loop, or a
    fetch -- until it is stopped. *)
Definition tokens (w : World) : nat := length (timers w) + length (loop_tasks w) + length (pool w).

Record chain (w : World) (a : AutoRefresh) : Prop := {
  ch_alive : alive w = true;
  ch_auto : auto_ w = Some 0 /\ autos w = [a] /\ freed a = false;
  ch_pool : Forall (fun i => i = 0) (pool w);
  ch_tokens : tokens w <= 1;
  ch_running : stopped a = false -> tokens w = 1;
}.

(** Without the token of the task that runs now. *)
Record held (w : World) (a : AutoRefresh) : Prop := {
  h_alive : alive w = true;
  h_auto : auto_ w = Some 0 /\ autos w = [a] /\ freed a = false;
  h_none : timers w = [] /\ loop_tasks w = [] /\ pool w = [];
}.

Lemma chain_one w a :
  alive w = true -> auto_ w = Some 0 -> autos w = [a] -> freed a = false -> Forall (fun i => i = 0) (pool w) ->
  tokens w = 1 -> chain w a.
Proof. intros. split; try done. lia. Qed.

Lemma chain_stopped w a : held w a -> stopped a = true -> chain w a.
Proof.
  intros [H1 H2 (T1 & T2 & T3)] Hs. split; try done; unfold tokens; rewrite ?T1, ?T2, ?T3; simpl; [constructor|lia|congruence].
Qed.

Lemma held_schedule in_loop now w a :
  held w a -> exists w' a', scheduleNextRefresh in_loop now w = Some w' /\ chain w' a' /\ stopped a' = stopped a.
Proof.
  intros Hh. pose proof Hh as [H1 (H2 & H3 & H4) (T1 & T2 & T3)]. unfold scheduleNextRefresh. rewrite H1, H2, H3. simpl.
  destruct (stopped a) eqn:Es; [exists w, a; by split_and!; [|apply chain_stopped|]|].
  assert (Ht : forall w' id, alive w' = true -> auto_ w' = Some 0 -> autos w' = [a] -> pool w' = [] -> tokens w' = 1 ->
    exists w2 a', Some (set_auto 0 (fun a => a <| timer := id |> <| timer_armed := true |>) w') = Some w2 /\
      chain w2 a' /\ stopped a' = false).
  { intros w' id A1 A2 A3 A4 A5. eexists _, (a <| timer := id |> <| timer_armed := true |>). split_and!; [done| |done].
    apply chain_one; simpl; try done; [by rewrite A3|rewrite A4; constructor]. }
  destruct in_loop; simpl; apply Ht; try done; unfold tokens; simpl; by rewrite T1, T2, T3.
Qed.

Lemma held_cycle queued now w a :
  held w a -> exists w' a', doRefreshCycle queued now w = Some w' /\ chain w' a' /\ stopped a' = stopped a.
Proof.
  intros Hh. pose proof Hh as [H1 (H2 & H3 & H4) (T1 & T2 & T3)]. unfold doRefreshCycle. rewrite H1, H2, H3. simpl.
  destruct (stopped a) eqn:Es; [exists w, a; by split_and!; [|apply chain_stopped|]|].
  set (w1 := set_auto 0 (fun a => a <| timer_armed := false |>) w). set (a1 := a <| timer_armed := false |>).
  assert (Hw : held w1 a1) by (split; simpl; [done|by rewrite H3|done]).
  destruct queued.
  - exists (w1 <| pool := pool w1 ++ [0] |>), a1. split_and!; [done| |done]. apply chain_one; simpl; try done.
    + by rewrite H3.
    + rewrite T3. by repeat constructor.
    + unfold tokens. simpl. by rewrite T1, T2, T3.
  - destruct (held_schedule true now w1 a1 Hw) as (w' & a' & E & Hc & Hs). exists w', a'. split_and!; [exact E|done|by rewrite Hs].
Qed.

(** The token of a running task is taken out of its place. *)
Lemma chain_take_timer w a id d l :
  chain w a -> timers w = [(id, d)] -> l = [] -> held (w <| timers := l |>) a.
Proof.
  intros [H1 H2 H3 H4 H5] Ht ->. unfold tokens in *. rewrite Ht in *. simpl in *.
  split; simpl; [done|done|]. split_and!; [done|apply length_zero_iff_nil; lia|apply length_zero_iff_nil; lia].
Qed.

Lemma chain_take_task w a t ts : chain w a -> loop_tasks w = t :: ts -> held (w <| loop_tasks := ts |>) a.
Proof.
  intros [H1 H2 H3 H4 H5] Ht. unfold tokens in *. rewrite Ht in *. simpl in *.
  split; simpl; [done|done|]. split_and!; apply length_zero_iff_nil; lia.
Qed.

Section chain_steps.
Context `{!OcspLib}.

(** The steps of the loop, of the pool and of the application, which may also
    set a response of its own. *)
Inductive step : World -> World -> Prop :=
| step_task queued now w w' : run_loop_task queued now w = Some w' -> step w w'
| step_fire id queued now w w' : fire id queued now w = Some w' -> step w w'
| step_fetch k override now f w w' : fetch_done k override now f w = Some w' -> step w w'
| step_set now der w : step w (w <| cache := (setResponseDer now der (cache w)).1 |>)
| step_stop w : step w (stopAutoRefresh w).

Lemma chain_task queued now w a :
  chain w a -> exists w' a', run_loop_task queued now w = Some w' /\ chain w' a' /\ stopped a' = stopped a.
Proof.
  intros Hc. unfold run_loop_task. destruct (loop_tasks w) as [|t ts] eqn:Et; [by exists w, a|].
  pose proof (chain_take_task _ _ _ _ Hc Et) as Hh. destruct t as [| |d]; [by apply held_cycle|by apply held_schedule|].
  destruct Hh as [H1 (H2 & H3 & H4) (T1 & T2 & T3)]. eexists _, a. split_and!; [done| |done].
  apply chain_one; simpl in *; try done; [by rewrite T3|]. unfold tokens. simpl. by rewrite T1, T2, T3.
Qed.

Lemma chain_fire id queued now w a :
  chain w a -> exists w' a', fire id queued now w = Some w' /\ chain w' a' /\ stopped a' = stopped a.
Proof.
  intros Hc. unfold fire. destruct (existsb _ _) eqn:Ee; [|by exists w, a].
  destruct (timers w) as [|[i d] [|t ts]] eqn:Et; [done| |].
  - simpl in Ee. rewrite orb_false_r in Ee. apply Nat.eqb_eq in Ee as ->.
    apply held_cycle, (chain_take_timer _ _ id d); [done|done|]. by rewrite filter_cons_False by (simpl; tauto).
  - destruct Hc as [_ _ _ Ht _]. unfold tokens in Ht. rewrite Et in Ht. simpl in Ht. lia.
Qed.

Lemma chain_fetch k override now f w a :
  chain w a -> exists w' a', fetch_done k override now f w = Some w' /\ chain w' a' /\ stopped a' = stopped a.
Proof.
  intros Hc. pose proof Hc as [H1 (H2 & H3 & H4) H5 H6 H7]. unfold fetch_done. set (c := (refresh override now f (cache w)).1).
  destruct (pool w !! k) as [i|] eqn:Ek; [|by exists w, a].
  assert (i = 0) as -> by (by eapply Forall_lookup_1 in H5). rewrite H3. simpl. rewrite H1, H4. simpl.
  assert (Hp : pool w = [0] /\ timers w = [] /\ loop_tasks w = [] /\ k = 0).
  { pose proof (lookup_lt_Some _ _ _ Ek) as Hl. unfold tokens in H6. destruct (pool w) as [|x [|y l]]; simpl in *; try lia.
    destruct k; [|lia]. apply Forall_cons in H5 as [-> _]. split_and!; try done; apply length_zero_iff_nil; lia. }
  destruct Hp as (Hp & T1 & T2 & ->). rewrite Hp. simpl. eexists _, a. split_and!; [done| |done].
  destruct (stopped a) eqn:Es.
  - apply chain_stopped; [|done]. by split.
  - apply chain_one; simpl; try done. unfold tokens. simpl. by rewrite T1, T2.
Qed.

Lemma chain_stop w a : chain w a -> exists a', chain (stopAutoRefresh w) a' /\ stopped a' = true.
Proof.
  intros [H1 (H2 & H3 & H4) H5 H6 H7]. unfold stopAutoRefresh. rewrite H2, H3. simpl.
  exists (a <| stopped := true |> <| timer_armed := false |>). split; [|done].
  pose proof (length_filter (fun t : nat * Z => Some t.1 <> timer a) (timers w)) as Hf.
  destruct (timer_armed a); (split; simpl; [done|by rewrite H3|done|unfold tokens in *; simpl in *; lia|done]).
Qed.

Lemma chain_start in_loop queued now o s :
  exists w a, startAutoRefresh in_loop queued now o (World_new s) = Some w /\ chain w a /\ stopped a = false.
Proof.
  set (w0 := (World_new s) <| autos := [mkAutoRefresh o None false false false] |> <| auto_ := Some 0 |>).
  assert (Hh : held w0 (mkAutoRefresh o None false false false)) by (by split).
  unfold startAutoRefresh. simpl. destruct (refresh_now o); [destruct in_loop|].
  - apply (held_cycle queued now w0 _ Hh).
  - eexists _, (mkAutoRefresh o None false false false). split_and!; [done| |done]. apply chain_one; try done.
  - apply (held_schedule in_loop now w0 _ Hh).
Qed.

(** Only accepted responses are cached, whatever runs. *)
Lemma schedule_cache in_loop now w w' : scheduleNextRefresh in_loop now w = Some w' -> cache w' = cache w.
Proof.
  unfold scheduleNextRefresh, runAfter. destruct (alive w), (auto_ w); simpl; try (done || by intros [= ->]).
  destruct (autos w !! _) as [a|]; simpl; [|done]. destruct (stopped a); [by intros [= ->]|].
  destruct in_loop; by intros [= <-].
Qed.

Lemma cycle_cache queued now w w' : doRefreshCycle queued now w = Some w' -> cache w' = cache w.
Proof.
  unfold doRefreshCycle. destruct (alive w), (auto_ w); simpl; try (done || by intros [= ->]).
  destruct (autos w !! _) as [a|]; simpl; [|done]. destruct (stopped a); [by intros [= ->]|].
  destruct queued; [by intros [= <-]|]. intros Hs. by apply schedule_cache in Hs.
Qed.

Lemma step_cached w w' : step w w' -> cached_ok (cache w) -> cached_ok (cache w').
Proof.
  intros Hs Hc. destruct Hs as [q t w w' E|id q t w w' E|k o t f w w' E|t d w|w].
  - unfold run_loop_task in E. destruct (loop_tasks w) as [|[| |d] ts]; [by injection E as <-|apply cycle_cache in E|
      apply schedule_cache in E|by injection E as <-]; by rewrite E.
  - unfold fire in E. case_match; [|by injection E as <-]. apply cycle_cache in E. by rewrite E.
  - unfold fetch_done in E. destruct (pool w !! k) as [i|]; [|by injection E as <-].
    destruct (autos w !! i) as [a|]; simpl in E; [|done]. case_match; [done|]. injection E as <-.
    destruct (stopped a); simpl; by apply refresh_cached.
  - simpl. by apply set_cached.
  - unfold stopAutoRefresh. repeat case_match; done.
Qed.

Lemma step_chain w w' : step w w' -> (exists a, chain w a) -> exists a, chain w' a.
Proof.
  intros Hs [a Hy]. destruct Hs as [q t w2 w3 E|id q t w2 w3 E|k o t f w2 w3 E|t d w2|w2].
  - destruct (chain_task q t _ _ Hy) as (w' & a' & E' & ? & _). exists a'. congruence.
  - destruct (chain_fire id q t _ _ Hy) as (w' & a' & E' & ? & _). exists a'. congruence.
  - destruct (chain_fetch k o t f _ _ Hy) as (w' & a' & E' & ? & _). exists a'. congruence.
  - exists a. by destruct Hy.
  - destruct (chain_stop _ _ Hy) as (a' & ? & _). by exists a'.
Qed.

Lemma start_cache in_loop queued now o s w :
  startAutoRefresh in_loop queued now o (World_new s) = Some w -> cache w = s.
Proof.
  unfold startAutoRefresh. simpl. destruct (refresh_now o); [destruct in_loop|]; intros Hs;
    [by apply cycle_cache in Hs|by injection Hs as <-|by apply schedule_cache in Hs].
Qed.

(** C40: automatic refresh never dies and never doubles.  After one
    [startAutoRefresh], in every order of timers, loop tasks, fetches and calls,
    while it is not stopped the next refresh is in exactly one place -- an armed
    timer, a task of the loop or a fetch -- and never in two, so that at most
    one fetch runs; after a stop at most one callback is left; no step touches
    a destroyed object while the stapler lives; and what is served as staple was
    accepted by the checks of [setResponseDer]. *)
Theorem refresh_chain in_loop queued now o w0 w :
  startAutoRefresh in_loop queued now o (World_new OcspStapler_new) = Some w0 -> rtc step w0 w ->
  tokens w <= 1 /\ length (pool w) <= 1 /\
  (forall a, autos w = [a] -> stopped a = false -> tokens w = 1) /\
  (forall q t, run_loop_task q t w <> None) /\ (forall id q t, fire id q t w <> None) /\
  (forall k url t f, fetch_done k url t f w <> None) /\
  (forall der, statusCallback true (cache w) = Some der -> exists t, acceptable t der = Some (next_update_epoch_ (cache w))).
Proof.
  intros H0 Hr. assert (Hc : (exists a, chain w a) /\ cached_ok (cache w)).
  { destruct (chain_start in_loop queued now o OcspStapler_new) as (w1 & a1 & H1 & H2 & _).
    rewrite H0 in H1. injection H1 as <-. apply start_cache in H0.
    eapply (rtc_ind_r (fun w => (exists a, chain w a) /\ cached_ok (cache w))); [split; [by exists a1|rewrite H0; by intros []]| |exact Hr].
    intros y z _ Hs [? ?]. eauto using step_chain, step_cached. }
  destruct Hc as [[a Hc] Hd]. pose proof Hc as [_ (_ & Ha & _) _ Ht Hrun]. split_and!.
  - done.
  - unfold tokens in Ht. lia.
  - intros b Hb. rewrite Ha in Hb. by injection Hb as <-.
  - intros q t. by destruct (chain_task q t _ _ Hc) as (? & ? & -> & _).
  - intros id q t. by destruct (chain_fire id q t _ _ Hc) as (? & ? & -> & _).
  - intros k url t f. by destruct (chain_fetch k url t f _ _ Hc) as (? & ? & -> & _).
  - intros der. unfold statusCallback. unfold cached_ok in Hd. destruct (response_der_ (cache w)); simpl; [done|].
    intros [= <-]. by apply Hd.
Qed.
End chain_steps.

(** The delay of the next refresh, with sensible options: between the bounds. *)
Lemma next_delay_bounds o remaining :
  (min_seconds o <= max_seconds o)%Z -> (min_seconds o <= fallback_seconds o <= max_seconds o)%Z ->
  (min_seconds o <= next_delay o remaining <= max_seconds o)%Z \/ (remaining = 0%Z /\ next_delay o remaining = retry_seconds o).
Proof.
  intros Hm Hf. unfold next_delay, clamp. destruct (Z.ltb_spec 0 remaining); [left; repeat case_match; lia|].
  destruct (Z.ltb_spec remaining 0); [by left|right; split; [lia|done]].
Qed.

(** ** Concrete runs *)

(** A library that reads one byte: its value is the expiry. *)
Definition demo_d2i (der : bytes) : option OcspResponse :=
  match der with
  | [b] => Some (mkOcspResponse true (Some [mkSingleResp true 0 (Some (Z.of_nat (Ascii.nat_of_ascii b)))]))
  | _ => None
  end.
Definition demo_validity (now this : Z) (next : option Z) : bool :=
  match next with Some n => (now <=? n + 300)%Z | None => true end.
Lemma demo_validity_next now this next : demo_validity now this (Some next) = true -> (now <= next + 300)%Z.
Proof. apply Z.leb_le. Qed.
#[local] Instance demo_lib : OcspLib :=
  {| d2i_OCSP_RESPONSE := demo_d2i; OCSP_check_validity := demo_validity; check_validity_next := demo_validity_next |}.

Definition demo_opts (now : bool) : Options := mkOptions (fun r => r / 2)%Z 60 3600 1800 30 now.
Definition demo_der : bytes := [Ascii.ascii_of_nat 200].
Definition demo_fetch : Fetch := mkFetch (Some demo_der) true (fun _ => true) true (Some demo_der).
Definition demo_start : World := default (World_new OcspStapler_new) (startAutoRefresh true true 100 (demo_opts true) (World_new OcspStapler_new)).
Definition demo_fetched : World := default demo_start (fetch_done 0 [] 100 demo_fetch demo_start).
Definition demo_armed : World := default demo_start (run_loop_task true 100 demo_fetched).

Lemma refresh_chain_witness :
  statusCallback true (cache demo_armed) = Some demo_der /\ timers demo_armed = [(0, 60000%Z)] /\
  (tokens demo_armed <= 1 /\ exists t, acceptable t demo_der = Some 200%Z).
Proof.
  split; [reflexivity|]. split; [reflexivity|].
  destruct (refresh_chain true true 100 (demo_opts true) demo_start demo_armed) as (H1 & _ & _ & _ & _ & _ & H2).
  - reflexivity.
  - eapply rtc_l; [|eapply rtc_l; [|apply rtc_refl]].
    + apply (step_fetch 0 [] 100 demo_fetch). reflexivity.
    + apply (step_task true 100). reflexivity.
  - split; [exact H1|]. exact (H2 demo_der eq_refl).
Defined.

(** The destructor stops the refresh but cannot call back what is in flight: the
    fetch of the pool, the hop to the loop, and a timer that was armed from
    another thread, whose handle is empty, all run on the destroyed stapler. *)
Lemma destroyed_in_flight :
  fetch_done 0 [] 100 demo_fetch (OcspStapler_destroy demo_start) = None /\
  run_loop_task true 100 (OcspStapler_destroy demo_fetched) = None /\
  exists w w', startAutoRefresh false true 100 (demo_opts false) (World_new OcspStapler_new) = Some w /\
    run_loop_task true 100 w = Some w' /\ fire 0 true 130 (OcspStapler_destroy w') = None.
Proof. split; [reflexivity|]. split; [reflexivity|]. by eexists _, _. Qed.

(** A second start while the first is running leaves the first chain in place:
    two refreshes go round; with a fetch in flight its AutoRefresh is freed
    under it. *)
Lemma second_start :
  (exists w, startAutoRefresh true true 100 (demo_opts false) demo_armed = Some w /\ tokens w = 2) /\
  (exists w, startAutoRefresh true true 100 (demo_opts false) demo_start = Some w /\ fetch_done 0 [] 100 demo_fetch w = None).
Proof. split; by eexists. Qed.

(** With the pool full the retry waits for the normal delay, not [retry_seconds]. *)
Lemma pool_full_delay :
  exists w, fire 0 false 0 demo_armed = Some w /\ timers w = [(1, 100000%Z)] /\ retry_seconds (demo_opts true) = 30%Z.
Proof. by eexists. Qed.
End OcspStapler.
