(* ===== verification/KqueuePoller.v ===== *)
(** * The kqueue poller (reactor/poller/kqueue_poller)

    The poller of macOS and the BSDs.  The kernel keeps a note per descriptor
    and filter, with the channel it is for; channels are heap objects which a
    ready event updates in place. *)

From stdpp Require Import gmap.
From S2P Require Import Prelude EventLoop.
Import Channel.

Module KQueuePoller.

Inductive filter := EVFILT_READ | EVFILT_WRITE | EVFILT_OTHER.

(** A channel object: its address. *)
Abbreviation addr := nat.

(** The notes of the kernel and the poller's own books. *)
Record KQueuePoller := mkKQueue {
  note_read : gmap Z addr;
  note_write : gmap Z addr;
  channels_ : gmap Z addr;
  registeredEvents : gmap Z Z;
}.
#[export] Instance KQueuePoller_settable : Settable KQueuePoller := fun p =>
  mkKQueue (note_read p) (note_write p) (channels_ p) (registeredEvents p).

Definition KQueuePoller_new : KQueuePoller := mkKQueue ∅ ∅ ∅ ∅.

(** ** Changes to the notes *)
Inductive change := EV_ADD (fd : Z) (f : filter) (udata : addr) | EV_DELETE (fd : Z) (f : filter).

(** Deleting a note that is not there fails. *)
Definition apply_change (c : change) (p : KQueuePoller) : option KQueuePoller :=
  match c with
  | EV_ADD fd EVFILT_READ a => Some (p <| note_read := <[fd := a]> (note_read p) |>)
  | EV_ADD fd EVFILT_WRITE a => Some (p <| note_write := <[fd := a]> (note_write p) |>)
  | EV_DELETE fd EVFILT_READ => _ ← note_read p !! fd; Some (p <| note_read := delete fd (note_read p) |>)
  | EV_DELETE fd EVFILT_WRITE => _ ← note_write p !! fd; Some (p <| note_write := delete fd (note_write p) |>)
  | _ => None
  end.

(** [kevent] with no room for events: it returns at the first change that fails. *)
Fixpoint kevent (changes : list change) (p : KQueuePoller) : KQueuePoller * bool :=
  match changes with
  | [] => (p, true)
  | c :: cs => match apply_change c p with None => (p, false) | Some p' => kevent cs p' end
  end.

(** ** Operations *)

(** The part of [updateChannel] for one filter; a failure exits the process. *)
Definition update_filter (want had : bool) (fd : Z) (f : filter) (a : addr) (p : KQueuePoller) : option KQueuePoller :=
  if want then apply_change (EV_ADD fd f a) p
  else if had then apply_change (EV_DELETE fd f) p else Some p.

(** [None]: the process exits. *)
Definition updateChannel (a : addr) (ch : Channel) (p : KQueuePoller) : option KQueuePoller :=
  let fd := fd_ ch in
  let ev := events_ ch in
  let reg_ev := default 0%Z (registeredEvents p !! fd) in
  p ← update_filter (flag ev IO_READ) (flag reg_ev IO_READ) fd EVFILT_READ a p;
  p ← update_filter (flag ev IO_WRITE) (flag reg_ev IO_WRITE) fd EVFILT_WRITE a p;
  Some (p <| channels_ := <[fd := a]> (channels_ p) |> <| registeredEvents := <[fd := ev]> (registeredEvents p) |>).

Definition removeChannel (ch : Channel) (p : KQueuePoller) : KQueuePoller :=
  let fd := fd_ ch in
  let p := (kevent [EV_DELETE fd EVFILT_READ; EV_DELETE fd EVFILT_WRITE] p).1 in
  p <| channels_ := delete fd (channels_ p) |> <| registeredEvents := delete fd (registeredEvents p) |>.

(** The relative time of [poll]; C division truncates. *)
Definition timeout_spec (timeout_ms : Z) : Z * Z := (Z.quot timeout_ms 1000, Z.rem timeout_ms 1000 * 1000000)%Z.
Definition timeout_valid (ts : Z * Z) : bool := (0 <=? ts.1)%Z && (0 <=? ts.2)%Z && (ts.2 <? 1000000000)%Z.

Record event := mkEvent { e_filter : filter; e_udata : option addr; e_error : bool }.

Definition revents_of (e : event) : Z :=
  let rev := match e_filter e with EVFILT_READ => IO_READ | EVFILT_WRITE => IO_WRITE | EVFILT_OTHER => IO_NONE end in
  if e_error e then Z.lor rev IO_ERROR else rev.

(** The loop over the events: the channels are updated in place and listed. *)
Fixpoint activate (events : list event) (heap : gmap addr Channel) : gmap addr Channel * list addr :=
  match events with
  | [] => (heap, [])
  | e :: es =>
    match e_udata e with
    | None => activate es heap
    | Some a =>
      let '(heap', active) := activate es (alter (setRevents (revents_of e)) a heap) in (heap', a :: active)
    end
  end.

(** [poll]: a failed call (an invalid time among the reasons) gives no events. *)
Definition poll (timeout_ms : Z) (ready : list event) (heap : gmap addr Channel) : gmap addr Channel * list addr :=
  if timeout_valid (timeout_spec timeout_ms) then activate ready heap else (heap, []).

(** The way every owner takes its channel out: [disableAll], then [remove]. *)
Definition teardown (a : addr) (ch : Channel) (p : KQueuePoller) : option KQueuePoller :=
  p ← updateChannel a (disableAll ch) p; Some (removeChannel (disableAll ch) p).

(** ** The notes follow the channels *)

(** The note a descriptor should have for an event: none unless registered, and
    then the channel that registered it. *)
Definition note_of (bit : Z) (fd : Z) (p : KQueuePoller) : option addr :=
  if flag (default 0%Z (registeredEvents p !! fd)) bit then channels_ p !! fd else None.

Record books_ok (p : KQueuePoller) : Prop := {
  bk_read fd : note_read p !! fd = note_of IO_READ fd p;
  bk_write fd : note_write p !! fd = note_of IO_WRITE fd p;
  bk_dom fd : registeredEvents p !! fd <> None -> channels_ p !! fd <> None;
}.

Inductive step : KQueuePoller -> KQueuePoller -> Prop :=
| step_update a ch p p' : updateChannel a ch p = Some p' -> step p p'
| step_teardown a ch p p' : teardown a ch p = Some p' -> step p p'.

(** One filter of an update. *)
Definition filter_after (want had : bool) (fd : Z) (a : addr) (notes notes' : gmap Z addr) : Prop :=
  (forall fd', fd' <> fd -> notes' !! fd' = notes !! fd') /\
  (if want then notes' !! fd = Some a else if had then notes' !! fd = None else notes' = notes).

Lemma filter_map_after (want had : bool) fd a (notes : gmap Z addr) :
  filter_after want had fd a notes (if want then <[fd := a]> notes else if had then delete fd notes else notes).
Proof.
  split.
  - intros fd' Hne. destruct want; [by rewrite lookup_insert_ne|]. destruct had; [by rewrite lookup_delete_ne|done].
  - destruct want; [by rewrite lookup_insert_eq|]. destruct had; [by rewrite lookup_delete_eq|done].
Qed.

(** A registered event has a note to delete. *)
Lemma note_present bit fd p :
  books_ok p -> flag (default 0%Z (registeredEvents p !! fd)) bit = true -> note_of bit fd p <> None.
Proof.
  intros Hb Hf. unfold note_of. rewrite Hf. apply (bk_dom _ Hb). intros E. by rewrite E in Hf.
Qed.

Lemma updateChannel_spec a ch p :
  books_ok p ->
  exists p', updateChannel a ch p = Some p' /\
    let had bit := flag (default 0%Z (registeredEvents p !! fd_ ch)) bit in
    filter_after (flag (events_ ch) IO_READ) (had IO_READ) (fd_ ch) a (note_read p) (note_read p') /\
    filter_after (flag (events_ ch) IO_WRITE) (had IO_WRITE) (fd_ ch) a (note_write p) (note_write p') /\
    channels_ p' = <[fd_ ch := a]> (channels_ p) /\ registeredEvents p' = <[fd_ ch := events_ ch]> (registeredEvents p).
Proof.
  intros Hb. unfold updateChannel.
  set (had bit := flag (default 0%Z (registeredEvents p !! fd_ ch)) bit).
  set (after bit (notes : gmap Z addr) := if flag (events_ ch) bit then <[fd_ ch := a]> notes
    else if had bit then delete (fd_ ch) notes else notes).
  exists (mkKQueue (after IO_READ (note_read p)) (after IO_WRITE (note_write p)) (<[fd_ ch := a]> (channels_ p))
    (<[fd_ ch := events_ ch]> (registeredEvents p))).
  split; [|split_and!; [apply filter_map_after|apply filter_map_after|reflexivity|reflexivity]]. unfold after, had.
  pose proof (note_present IO_READ (fd_ ch) p Hb) as Hnr. pose proof (note_present IO_WRITE (fd_ ch) p Hb) as Hnw.
  rewrite <-(bk_read _ Hb) in Hnr. rewrite <-(bk_write _ Hb) in Hnw. unfold update_filter, apply_change.
  destruct (flag (events_ ch) IO_READ); simpl;
    [|destruct (flag _ IO_READ); simpl; [destruct (note_read p !! fd_ ch); [simpl|by destruct Hnr]|]];
    (destruct (flag (events_ ch) IO_WRITE); simpl;
      [reflexivity|destruct (flag _ IO_WRITE); simpl; [destruct (note_write p !! fd_ ch); [reflexivity|by destruct Hnw]|reflexivity]]).
Qed.

(** After an update the note of a filter is the one it should have. *)
Lemma note_update bit notes notes' a ch p p' :
  (forall fd, notes !! fd = note_of bit fd p) ->
  filter_after (flag (events_ ch) bit) (flag (default 0%Z (registeredEvents p !! fd_ ch)) bit) (fd_ ch) a notes notes' ->
  channels_ p' = <[fd_ ch := a]> (channels_ p) -> registeredEvents p' = <[fd_ ch := events_ ch]> (registeredEvents p) ->
  forall fd, notes' !! fd = note_of bit fd p'.
Proof.
  intros Hn [Ho Hf] Hc Hr fd. unfold note_of. rewrite Hr, Hc. destruct (decide (fd = fd_ ch)) as [->|Hne].
  - rewrite !lookup_insert_eq. simpl. destruct (flag (events_ ch) bit); [done|].
    destruct (flag (default _ _) bit) eqn:Eh; [done|]. rewrite Hf, Hn. unfold note_of. by rewrite Eh.
  - rewrite Ho, !lookup_insert_ne by done. apply Hn.
Qed.

Lemma update_books a ch p p' : updateChannel a ch p = Some p' -> books_ok p -> books_ok p'.
Proof.
  intros E Hb. destruct (updateChannel_spec a ch p Hb) as (q1 & E1 & Hr & Hw & Hc & Hg). rewrite E in E1. injection E1 as <-.
  split; [eapply note_update; try done; apply Hb|eapply note_update; try done; apply Hb|].
  intros fd. rewrite Hg, Hc. destruct (decide (fd = fd_ ch)) as [->|Hne]; [by rewrite !lookup_insert_eq|].
  rewrite !lookup_insert_ne by done. apply Hb.
Qed.

(** Deleting both notes at once stops at the first that is not there. *)
Lemma remove_notes ch p :
  let p' := removeChannel ch p in
  (forall fd, fd <> fd_ ch -> note_read p' !! fd = note_read p !! fd /\ note_write p' !! fd = note_write p !! fd) /\
  note_read p' !! fd_ ch = None /\
  note_write p' !! fd_ ch = (if note_read p !! fd_ ch then None else note_write p !! fd_ ch) /\
  registeredEvents p' = delete (fd_ ch) (registeredEvents p) /\ channels_ p' = delete (fd_ ch) (channels_ p).
Proof.
  unfold removeChannel. simpl. destruct (note_read p !! fd_ ch) as [x|] eqn:Er; simpl; [|done].
  destruct (note_write p !! fd_ ch) as [y|] eqn:Ew; simpl; rewrite ?lookup_delete_eq; split_and!; try done;
    intros fd Hne; by rewrite !lookup_delete_ne.
Qed.

Lemma teardown_spec a ch p :
  books_ok p -> exists p', teardown a ch p = Some p' /\ books_ok p' /\
    note_read p' !! fd_ ch = None /\ note_write p' !! fd_ ch = None /\ registeredEvents p' !! fd_ ch = None.
Proof.
  intros Hb. destruct (updateChannel_spec a (disableAll ch) p Hb) as (q & E & _ & _ & _ & Hg). unfold teardown. rewrite E.
  eexists. split; [reflexivity|]. pose proof (update_books _ _ _ _ E Hb) as Hq.
  destruct (remove_notes (disableAll ch) q) as (Ho & H1 & H2 & H3 & H4). simpl fd_ in *.
  assert (Hnone : note_write q !! fd_ ch = None).
  { rewrite (bk_write _ Hq). unfold note_of. rewrite Hg, lookup_insert_eq. by simpl. }
  assert (H2' : note_write (removeChannel (disableAll ch) q) !! fd_ ch = None)
    by (rewrite H2, Hnone; by destruct (note_read q !! fd_ ch)).
  split_and!; [|done|done|by rewrite H3, lookup_delete_eq].
  split; intros fd; unfold note_of; rewrite H3, ?H4; destruct (decide (fd = fd_ ch)) as [->|Hne];
    rewrite ?lookup_delete_eq, ?lookup_delete_ne by done; try done.
  - rewrite (proj1 (Ho fd Hne)). apply Hq.
  - rewrite (proj2 (Ho fd Hne)). apply Hq.
  - apply Hq.
Qed.

Lemma reachable_books p : rtc step KQueuePoller_new p -> books_ok p.
Proof.
  apply (rtc_ind_r books_ok); [by split|]. intros y z _ [a ch q q' E|a ch q q' E] Hb; [by eapply update_books|].
  destruct (teardown_spec a ch q Hb) as (q1 & E1 & ? & _). congruence.
Qed.

(** On kqueue, the kernel's notes are exactly what the channels asked for:
    in every state reached by updates and by the owners' way of taking a channel
    out, no change the poller makes is refused (a refusal would exit the
    process); each descriptor has a note for reading and for writing just when
    its channel last asked for it, delivered to that channel; and a channel
    taken out leaves no note behind. *)
Theorem kqueue_in_sync p a ch :
  rtc step KQueuePoller_new p ->
  (forall fd, note_read p !! fd = note_of IO_READ fd p /\ note_write p !! fd = note_of IO_WRITE fd p) /\
  (exists p', updateChannel a ch p = Some p' /\
    note_read p' !! fd_ ch = (if isReading ch then Some a else None) /\
    note_write p' !! fd_ ch = (if isWriting ch then Some a else None)) /\
  (exists p', teardown a ch p = Some p' /\ note_read p' !! fd_ ch = None /\ note_write p' !! fd_ ch = None).
Proof.
  intros Hb%reachable_books. split_and!.
  - intros fd. split; apply Hb.
  - destruct (updateChannel_spec a ch p Hb) as (p' & E & _ & _ & Hc & Hg). exists p'. split; [done|].
    pose proof (update_books _ _ _ _ E Hb) as Hq. rewrite (bk_read _ Hq), (bk_write _ Hq). unfold note_of.
    by rewrite Hg, Hc, !lookup_insert_eq.
  - destruct (teardown_spec a ch p Hb) as (p' & E & _ & ? & ? & _). by exists p'.
Qed.

Lemma kqueue_in_sync_witness :
  let ch := enableRead (Channel_new 5) in
  exists p', updateChannel 7 ch KQueuePoller_new = Some p' /\ note_read p' !! 5%Z = Some 7.
Proof.
  intros ch. destruct (kqueue_in_sync KQueuePoller_new 7 ch) as (_ & (p' & H1 & H2 & _) & _); [apply rtc_refl|].
  exists p'. split; [exact H1|exact H2].
Defined.

(** ** Ready events *)

(** With at most one event per channel, each listed channel has its events. *)
Lemma activate_one events : forall heap,
  NoDup (omap e_udata events) ->
  let '(heap', active) := activate events heap in
  active = omap e_udata events /\
  (forall a, a ∉ active -> heap' !! a = heap !! a) /\
  forall e a, e ∈ events -> e_udata e = Some a -> heap' !! a = setRevents (revents_of e) <$> heap !! a.
Proof.
  induction events as [|e es IH]; intros heap Hnd; [split_and!; try done; intros e a H; by apply elem_of_nil in H|].
  simpl in Hnd |- *. destruct (e_udata e) as [b|] eqn:Eb.
  - apply NoDup_cons in Hnd as [Hb Hnd]. specialize (IH (alter (setRevents (revents_of e)) b heap) Hnd).
    destruct (activate es _) as [heap' active]. destruct IH as (-> & Ho & He). split_and!; [done| |].
    + intros a [Hne Ha]%not_elem_of_cons. rewrite Ho by done. by rewrite lookup_alter_ne.
    + intros e' a [->|Hin]%elem_of_cons Ha.
      * rewrite Eb in Ha. injection Ha as ->. rewrite Ho by done. by rewrite lookup_alter_eq.
      * rewrite (He _ _ Hin Ha). rewrite lookup_alter_ne; [done|]. intros ->. apply Hb, list_elem_of_omap. by exists e'.
  - specialize (IH heap Hnd). destruct (activate es heap) as [heap' active]. destruct IH as (-> & Ho & He).
    split_and!; [done|done|]. intros e' a [->|Hin]%elem_of_cons Ha; [congruence|by apply He].
Qed.

(** A descriptor ready for reading and for writing gives two events: the second
    overwrites the first, the channel is listed twice and its read callback never
    runs. *)
Lemma two_filters_lose_read :
  let ch := enableWrite (enableRead (Channel_new 5)) <| has_read := true |> <| has_write := true |> in
  let '(heap, active) := poll 1000 [mkEvent EVFILT_READ (Some 7) false; mkEvent EVFILT_WRITE (Some 7) false] {[7 := ch]} in
  active = [7; 7] /\ (handleEventsGuarded <$> heap !! 7) = Some [WriteCallback].
Proof. by vm_compute. Qed.

(** The time of the debug build's [poll(-1)] is refused: the loop spins and no
    event is ever seen; every time from zero on is a valid one. *)
Lemma poll_timeout t ready heap :
  (timeout_valid (timeout_spec t) = (-1000 <? t * 1000)%Z) /\ poll (-1) ready heap = (heap, []).
Proof.
  split; [|done]. unfold timeout_valid, timeout_spec. simpl.
  destruct (Z.ltb_spec (-1000) (t * 1000)).
  - rewrite Z.quot_div_nonneg, Z.rem_mod_nonneg by lia.
    pose proof (Z.mod_pos_bound t 1000). pose proof (Z.div_pos t 1000).
    by rewrite !(proj2 (Z.leb_le _ _)), (proj2 (Z.ltb_lt _ _)) by lia.
  - pose proof (Z.quot_rem t 1000 ltac:(lia)). pose proof (Z.rem_bound_neg_pos t 1000).
    destruct (Z.leb_spec 0 (Z.quot t 1000)), (Z.leb_spec 0 (Z.rem t 1000 * 1000000)); simpl; try done. nia.
Qed.

(** Removing without [disableAll] is not enough: the note of a descriptor that is
    written only stays, for a channel that may be gone. *)
Lemma bare_remove_leaves_note :
  let ch := enableWrite (Channel_new 5) in
  exists p, updateChannel 7 ch KQueuePoller_new = Some p /\ note_write (removeChannel ch p) !! 5%Z = Some 7.
Proof. by eexists. Qed.
End KQueuePoller.
