(* ===== verification/Socket.v ===== *)
(** * Sockets (net/socket)

    The helpers over the socket calls, against the part of the kernel they
    change -- open descriptors, bound paths, socket options -- and [Socket], the
    move-only owner of a descriptor. *)

From stdpp Require Import gmap strings.
From S2P Require Import Prelude CStr Resolver.
Import InetAddress.

(** ** The helpers *)
Module Sockets.

Inductive sockopt := SO_REUSEADDR | SO_REUSEPORT | TCP_NODELAY | SO_KEEPALIVE.
#[export] Instance sockopt_eq_dec : EqDecision sockopt.
Proof. solve_decision. Defined.

(** What a path of the file system holds. *)
Inductive file := SocketFile (fd : Z) | OtherFile.

Section sockets.
Context {ip4 ip6 : Type} `{!InetText ip4 ip6}.
Abbreviation addr := (InetAddress ip4 ip6).

Record Kernel := mkKernel {
  open_fds : gset Z;
  paths : list (bytes * file);
  bound : gmap Z addr;
  listening : gset Z;
  write_shut : gset Z;
  options : list (Z * sockopt);          (* those that are on *)
  errors_logged : nat;
}.
#[export] Instance Kernel_settable : Settable Kernel := fun k =>
  mkKernel (open_fds k) (paths k) (bound k) (listening k) (write_shut k) (options k) (errors_logged k).

Definition log_error (k : Kernel) : Kernel := k <| errors_logged := S (errors_logged k) |>.

Fixpoint path_at (p : bytes) (l : list (bytes * file)) : option file :=
  match l with
  | [] => None
  | (q, f) :: l => if decide (p = q) then Some f else path_at p l
  end.

Definition unlink (p : bytes) (k : Kernel) : Kernel := k <| paths := filter (fun e => e.1 <> p) (paths k) |>.

(** The protocol of a stream socket of this family. *)
Definition IPPROTO_TCP : Z := 6.
Definition protocol_of (unix : bool) : Z := if unix then 0 else IPPROTO_TCP.

(** [None]: the process aborts.  [fd]: what [socket] returns. *)
Definition createNonBlockingOrDie (fd : Z) (k : Kernel) : option (Z * Kernel) :=
  if (fd <? 0)%Z then None else Some (fd, k <| open_fds := {[fd]} ∪ open_fds k |>).

(** [bind]: an unused path gets the socket's file; for an internet address
    [free] tells whether it can be taken. *)
Definition bind (free : bool) (fd : Z) (a : addr) (k : Kernel) : option Kernel :=
  let k' := k <| bound := <[fd := a]> (bound k) |> in
  if bool_decide (fd ∈ open_fds k) then
    if isUnix a then
      match path_at (unixPath a) (paths k) with
      | Some _ => None
      | None => Some (k' <| paths := (unixPath a, SocketFile fd) :: paths k |>)
      end
    else if free then Some k' else None
  else None.

Definition bindOrDie (free : bool) (fd : Z) (a : addr) (k : Kernel) : option Kernel :=
  let k := if isUnix a && negb (length (unixPath a) =? 0) then unlink (unixPath a) k else k in
  bind free fd a k.

Definition listenOrDie (fd : Z) (k : Kernel) : option Kernel :=
  if bool_decide (fd ∈ open_fds k) && bool_decide (is_Some (bound k !! fd))
  then Some (k <| listening := {[fd]} ∪ listening k |>) else None.

(** [accept4] returns a descriptor and the peer's address, or an error; the
    caller's address is written on success only. *)
Definition accept (r : option (Z * addr)) (peer_addr : addr) (k : Kernel) : Z * addr * Kernel :=
  match r with
  | Some (connfd, peer) => (connfd, peer, k <| open_fds := {[connfd]} ∪ open_fds k |>)
  | None => ((-1)%Z, peer_addr, k)
  end.

Definition close (fd : Z) (k : Kernel) : Kernel :=
  if bool_decide (fd ∈ open_fds k)
  then k <| open_fds := open_fds k ∖ {[fd]} |> <| bound := delete fd (bound k) |> <| listening := listening k ∖ {[fd]} |>
         <| write_shut := write_shut k ∖ {[fd]} |> <| options := filter (fun o => o.1 <> fd) (options k) |>
  else log_error k.

Definition shutdownWrite (fd : Z) (connected : bool) (k : Kernel) : Kernel :=
  if bool_decide (fd ∈ open_fds k) && connected then k <| write_shut := {[fd]} ∪ write_shut k |> else log_error k.

Definition setOption (fd : Z) (optname : sockopt) (on : bool) (k : Kernel) : Kernel :=
  if bool_decide (fd ∈ open_fds k) then
    let rest := filter (fun o => o <> (fd, optname)) (options k) in
    k <| options := if on then (fd, optname) :: rest else rest |>
  else log_error k.

Definition setReuseAddr (fd : Z) (on : bool) (k : Kernel) : Kernel := setOption fd SO_REUSEADDR on k.
Definition setReusePort (fd : Z) (on : bool) (k : Kernel) : Kernel := setOption fd SO_REUSEPORT on k.
Definition setTcpNoDelay (fd : Z) (on : bool) (k : Kernel) : Kernel := setOption fd TCP_NODELAY on k.
Definition setKeepAlive (fd : Z) (on : bool) (k : Kernel) : Kernel := setOption fd SO_KEEPALIVE on k.

(** [getsockopt] fails with [errno], or returns the pending error. *)
Definition getSocketError (r : Z + Z) : Z := match r with inl errno => errno | inr optval => optval end.

Definition same_family (a b : addr) : bool :=
  match a, b with Inet _ _, Inet _ _ | Inet6 _ _ _, Inet6 _ _ _ | Unix _, Unix _ => true | _, _ => false end.

(** [local] and [peer]: what [getLocalAddr] and [getPeerAddr] return. *)
Definition isSelfConnect (local peer : addr) : bool :=
  if negb (same_family local peer) then false
  else if isUnix local then false
  else bool_decide (port local = port peer) && bool_decide (toIp local = toIp peer).

(** A socket is connected to itself when both ends have the same family, address
    and port; the scope of a link-local address is not looked at. *)
Lemma isSelfConnect_spec local peer :
  isSelfConnect local peer = true <->
  match local, peer with
  | Inet x p, Inet y q => x = y /\ p = q
  | Inet6 x p _, Inet6 y q _ => x = y /\ p = q
  | _, _ => False
  end.
Proof.
  assert (H4 : forall x y, ntop4 x = ntop4 y -> x = y).
  { intros x y H. apply (f_equal pton4) in H. rewrite !pton4_ntop4 in H. by injection H. }
  assert (H6 : forall x y, ntop6 x = ntop6 y -> x = y).
  { intros x y H. apply (f_equal pton6) in H. rewrite !pton6_ntop6 in H. by injection H. }
  unfold isSelfConnect. destruct local as [x p|x p i|x], peer as [y q|y q j|y]; simpl; try done;
    rewrite andb_true_iff, !bool_decide_eq_true; naive_solver.
Qed.

Lemma path_at_unlink p q l : path_at q (filter (fun e : bytes * file => e.1 <> p) l) = if decide (q = p) then None else path_at q l.
Proof.
  induction l as [|[r f] l IH]; simpl; [by case_decide|]. rewrite filter_cons. simpl.
  destruct (decide (r <> p)) as [Hr|Hr].
  - simpl. rewrite IH. repeat case_decide; congruence.
  - rewrite IH. apply dec_stable in Hr as ->. repeat case_decide; congruence.
Qed.

(** Binding to a path always succeeds: whatever was there -- a stale socket, the
    socket of a running server or another file -- is removed, and nothing else is
    touched. *)
Lemma bind_path free fd path k :
  fd ∈ open_fds k -> unixPath (Unix path : addr) <> [] ->
  let p := unixPath (Unix path : addr) in
  exists k', bindOrDie free fd (Unix path) k = Some k' /\ bound k' !! fd = Some (Unix path) /\
    path_at p (paths k') = Some (SocketFile fd) /\ forall q, q <> p -> path_at q (paths k') = path_at q (paths k).
Proof.
  intros Hfd Hp p. unfold bindOrDie. simpl isUnix. fold p. assert (Hl : (length p =? 0) = false) by (unfold p in *; by destruct (unixPath _)).
  rewrite Hl. simpl andb. cbn iota. unfold bind. rewrite bool_decide_true by done. simpl isUnix. cbn iota. fold p. simpl.
  rewrite path_at_unlink, decide_True by done. eexists. split; [reflexivity|]. simpl. split_and!.
  - by rewrite lookup_insert_eq.
  - by rewrite decide_True.
  - intros q Hq. rewrite decide_False by done. by rewrite path_at_unlink, decide_False.
Qed.
End sockets.
Arguments Kernel : clear implicits.
End Sockets.

(** ** The owner of a descriptor *)
Module Socket.

(** The [Socket] objects, the open descriptors, those released to the caller,
    and the failed [close] calls. *)
Record Owners := mkOwners {
  sockfd_ : gmap nat Z;
  open_fds : gset Z;
  released : gset Z;
  bad_close : nat;
}.
#[export] Instance Owners_settable : Settable Owners := fun w =>
  mkOwners (sockfd_ w) (open_fds w) (released w) (bad_close w).

Definition Owners_new : Owners := mkOwners ∅ ∅ ∅ 0.

Definition close (fd : Z) (w : Owners) : Owners :=
  if bool_decide (fd ∈ open_fds w) then w <| open_fds := open_fds w ∖ {[fd]} |> else w <| bad_close := S (bad_close w) |>.

Definition fd (o : nat) (w : Owners) : Z := default (-1)%Z (sockfd_ w !! o).
Definition set_fd (o : nat) (v : Z) (w : Owners) : Owners := w <| sockfd_ := <[o := v]> (sockfd_ w) |>.

Definition reset (o : nat) (w : Owners) : Owners :=
  if (0 <=? fd o w)%Z then set_fd o (-1) (close (fd o w) w) else w.

(** [Socket(sockfd)] over a descriptor the system just returned. *)
Definition Socket_new (o : nat) (v : Z) (w : Owners) : Owners := set_fd o v (w <| open_fds := {[v]} ∪ open_fds w |>).

(** [~Socket] *)
Definition Socket_destroy (o : nat) (w : Owners) : Owners :=
  let w := reset o w in w <| sockfd_ := delete o (sockfd_ w) |>.

(** [Socket(Socket&&)] *)
Definition Socket_move (o other : nat) (w : Owners) : Owners := set_fd other (-1) (set_fd o (fd other w) w).

(** [operator=(Socket&&)] *)
Definition Socket_assign (o other : nat) (w : Owners) : Owners :=
  if decide (o = other) then w
  else let w := reset o w in set_fd other (-1) (set_fd o (fd other w) w).

Definition release (o : nat) (w : Owners) : Z * Owners :=
  let v := fd o w in
  (v, set_fd o (-1) (if (0 <=? v)%Z then w <| released := {[v]} ∪ released w |> else w)).

(** The uses of live objects and fresh names; the owner of a released descriptor
    may close it. *)
Inductive step : Owners -> Owners -> Prop :=
| step_new o v w : sockfd_ w !! o = None -> (0 <= v)%Z -> v ∉ open_fds w -> step w (Socket_new o v w)
| step_move o other w : sockfd_ w !! o = None -> is_Some (sockfd_ w !! other) -> step w (Socket_move o other w)
| step_assign o other w : is_Some (sockfd_ w !! o) -> is_Some (sockfd_ w !! other) -> step w (Socket_assign o other w)
| step_release o w : is_Some (sockfd_ w !! o) -> step w (release o w).2
| step_destroy o w : is_Some (sockfd_ w !! o) -> step w (Socket_destroy o w)
| step_close v w : v ∈ released w -> step w ((close v w) <| released := released w ∖ {[v]} |>).

(** [o] owns [v]. *)
Definition owns (w : Owners) (o : nat) (v : Z) : Prop := sockfd_ w !! o = Some v /\ (0 <= v)%Z.

Record owners_ok (w : Owners) : Prop := {
  oo_unique o1 o2 v : owns w o1 v -> owns w o2 v -> o1 = o2;
  oo_open v : v ∈ open_fds w <-> (exists o, owns w o v) \/ v ∈ released w;
  oo_disjoint o v : owns w o v -> v ∉ released w;
  oo_errors : bad_close w = 0;
}.

Lemma owns_set w o v o' v' : owns (set_fd o v w) o' v' <-> (o' = o /\ v' = v /\ (0 <= v)%Z) \/ (o' <> o /\ owns w o' v').
Proof.
  unfold owns, set_fd. simpl. destruct (decide (o' = o)) as [->|Hne].
  - rewrite lookup_insert_eq. naive_solver.
  - rewrite lookup_insert_ne by done. naive_solver.
Qed.

(** A well-formed state whose ownership and sets are those of another. *)
Lemma ok_ext w w' :
  owners_ok w -> (forall o v, owns w' o v <-> owns w o v) -> open_fds w' = open_fds w -> released w' = released w ->
  bad_close w' = bad_close w -> owners_ok w'.
Proof.
  intros [H1 H2 H3 H4] Ho E1 E2 E3. split.
  - intros o1 o2 v. rewrite !Ho. apply H1.
  - intros v. rewrite E1, E2, H2. f_equiv. by setoid_rewrite Ho.
  - intros o v. rewrite Ho, E2. apply H3.
  - by rewrite E3.
Qed.

Lemma fd_owns o w : (0 <= fd o w)%Z -> owns w o (fd o w).
Proof. unfold fd, owns. destruct (sockfd_ w !! o); simpl; [done|lia]. Qed.

Lemma reset_ok o w : owners_ok w -> owners_ok (reset o w) /\ (forall o' v, owns (reset o w) o' v <-> o' <> o /\ owns w o' v).
Proof.
  intros Hok. pose proof Hok as [H1 H2 H3 H4]. unfold reset. destruct (Z.leb_spec 0 (fd o w)) as [Hle|Hlt].
  2:{ split; [done|]. intros o' v. split; [|tauto]. intros Hv. split; [|done]. intros ->.
      destruct Hv as [Hv ?]. unfold fd in Hlt. rewrite Hv in Hlt. simpl in Hlt. lia. }
  pose proof (fd_owns o w Hle) as Ho. set (v0 := fd o w) in *.
  assert (Hin : v0 ∈ open_fds w) by (apply H2; left; by exists o).
  assert (Hown : forall o' v, owns (set_fd o (-1) (close v0 w)) o' v <-> o' <> o /\ owns w o' v).
  { intros o' v. rewrite owns_set. unfold close, owns. rewrite bool_decide_true by done. simpl. split; [intros [(_ & _ & ?)|?]; [lia|done]|by right]. }
  assert (Hcl : open_fds (set_fd o (-1) (close v0 w)) = open_fds w ∖ {[v0]} /\
    released (set_fd o (-1) (close v0 w)) = released w /\ bad_close (set_fd o (-1) (close v0 w)) = 0)
    by (unfold close; by rewrite bool_decide_true).
  destruct Hcl as (Eo & Er & Eb). split; [|exact Hown]. split; rewrite ?Er; [| | |done].
  - intros o1 o2 v [_ Ha]%Hown [_ Hb]%Hown. by eapply H1.
  - intros v. rewrite Eo, elem_of_difference, elem_of_singleton, H2. split.
    + intros [[[o' Ho']|Hr] Hne]; [|by right]. left. exists o'. apply Hown. split; [|done]. intros ->.
      apply Hne. destruct Ho as [E _], Ho' as [E' _]. congruence.
    + intros [[o' [Hne Ho']%Hown]|Hr].
      * split; [left; by exists o'|]. intros ->. apply Hne. by eapply H1.
      * split; [by right|]. intros ->. by eapply H3.
  - intros o' v [_ Ho']%Hown. by apply (H3 o').
Qed.

(** The descriptor of [other] goes to [o], which owns none. *)
Lemma transfer_ok o other w :
  owners_ok w -> o <> other -> (forall v, ~ owns w o v) -> owners_ok (set_fd other (-1) (set_fd o (fd other w) w)).
Proof.
  intros [H1 H2 H3 H4] Hne Hno. set (w' := set_fd other (-1) (set_fd o (fd other w) w)).
  assert (Hown : forall o' v, owns w' o' v <-> (o' = o /\ owns w other v) \/ (o' <> o /\ o' <> other /\ owns w o' v)).
  { intros o' v. unfold w'. rewrite !owns_set. unfold owns at 2 3. unfold fd. split.
    - intros [(_ & _ & ?)|[Hn [(-> & -> & Hv)|[? Ho]]]]; [lia| |by right].
      left. split; [done|]. destruct (sockfd_ w !! other); simpl in *; [done|lia].
    - intros [[-> [E Hv]]|(? & ? & Ho)]; right; [split; [done|left; by rewrite E]|split; [done|by right]]. }
  split.
  - intros o1 o2 v [[-> Ha]|(? & ? & Ha)]%Hown [[-> Hb]|(? & ? & Hb)]%Hown; try done; [| |by eapply H1];
      exfalso; [by assert (other = o2) by (by eapply H1)|by assert (other = o1) by (by eapply H1)].
  - intros v. change (open_fds w') with (open_fds w). change (released w') with (released w). rewrite H2. f_equiv. split.
    + intros [o' Ho']. destruct (decide (o' = other)) as [->|Hn]; [exists o; apply Hown; by left|].
      exists o'. apply Hown. right. split; [|done]. intros ->. by apply (Hno v).
    + intros [o' [[-> Ho']|(? & ? & Ho')]%Hown]; by eexists.
  - intros o' v [[-> Ho']|(? & ? & Ho')]%Hown; by eapply H3.
  - done.
Qed.

Lemma release_ok o w : owners_ok w -> owners_ok (release o w).2.
Proof.
  intros Hok. pose proof Hok as [H1 H2 H3 H4]. unfold release. simpl. destruct (Z.leb_spec 0 (fd o w)) as [Hle|Hlt].
  2:{ apply (ok_ext w); try done. intros o' v. rewrite owns_set. split; [intros [(_ & _ & ?)|[_ ?]]; [lia|done]|].
      intros Ho. right. split; [|done]. intros ->. destruct Ho as [E ?]. unfold fd in Hlt. rewrite E in Hlt. simpl in Hlt. lia. }
  pose proof (fd_owns o w Hle) as Ho. set (v0 := fd o w) in *. set (w' := set_fd o (-1) _).
  assert (Hown : forall o' v, owns w' o' v <-> o' <> o /\ owns w o' v).
  { intros o' v. unfold w'. rewrite owns_set. split; [intros [(_ & _ & ?)|?]; [lia|done]|by right]. }
  split; [intros o1 o2 v [_ Ha]%Hown [_ Hb]%Hown; by eapply H1| | |done].
  - intros v. unfold w'. simpl. rewrite H2, elem_of_union, elem_of_singleton. split.
    + intros [[o' Ho']|Hr]; [|by right; right]. destruct (decide (o' = o)) as [->|Hn]; [|left; exists o'; by apply Hown].
      right. left. destruct Ho as [E _], Ho' as [E' _]. congruence.
    + intros [[o' [_ Ho']%Hown]|[->|Hr]]; [left; by exists o'|left; by exists o|by right].
  - intros o' v [Hn Ho']%Hown. unfold w'. simpl. rewrite elem_of_union, elem_of_singleton. intros [->|Hr]; [|by apply (H3 o' v)].
    apply Hn. by eapply H1.
Qed.

Lemma step_owners w w' : step w w' -> owners_ok w -> owners_ok w'.
Proof.
  intros Hs Hok. destruct Hs as [o v w Ho Hv Hn|o other w Ho [x Hx]|o other w _ _|o w _|o w _|v w Hv].
  - destruct Hok as [H1 H2 H3 H4]. unfold Socket_new.
    assert (Hnew : forall o', ~ owns w o' v) by (intros o' Ho'; apply Hn, H2; left; by exists o').
    assert (Hnr : v ∉ released w) by (intros Hr; apply Hn, H2; by right). split.
    + intros o1 o2 v'. rewrite !owns_set. intros [(-> & -> & _)|[_ Ha]] [(-> & Hb & _)|[_ Hb]]; subst; try done;
        [by destruct (Hnew o2)|by destruct (Hnew o1)|by eapply H1].
    + intros v'. simpl. rewrite elem_of_union, elem_of_singleton, H2. split.
      * intros [->|[[o' Ho']|Hr]]; [left; exists o; apply owns_set; by left| |by right]. left. exists o'. apply owns_set. right.
        split; [|done]. intros ->. destruct Ho' as [E _]. congruence.
      * intros [[o' [(-> & -> & _)|[_ Ho']]%owns_set]|Hr]; [by left|right; left; by exists o'|by right; right].
    + intros o' v' [(-> & -> & _)|[_ Ho']]%owns_set; [done|by apply (H3 o')].
    + done.
  - apply transfer_ok; [done|congruence|]. intros v [E _]. congruence.
  - unfold Socket_assign. case_decide; [done|]. destruct (reset_ok o w Hok) as [Hok' Ho']. apply transfer_ok; try done.
    intros v Hv%Ho'. naive_solver.
  - by apply release_ok.
  - unfold Socket_destroy. destruct (reset_ok o w Hok) as [Hok' Ho']. apply (ok_ext (reset o w)); try done.
    intros o' v. unfold owns at 1. simpl. destruct (decide (o' = o)) as [->|Hne].
    + rewrite lookup_delete_eq. split; [naive_solver|]. intros Hv%Ho'. naive_solver.
    + by rewrite lookup_delete_ne by done.
  - destruct Hok as [H1 H2 H3 H4]. assert (Hin : v ∈ open_fds w) by (apply H2; by right).
    unfold close. rewrite bool_decide_true by done. split; simpl.
    + intros o1 o2 v' Ha Hb. by eapply H1.
    + intros v'. rewrite elem_of_difference, elem_of_singleton, H2. unfold owns at 2. simpl.
      rewrite elem_of_difference, elem_of_singleton. split; [naive_solver|].
      intros [[o' Ho']|[Hr Hne]]; [|by split; [right|]]. split; [left; by exists o'|]. intros ->. by apply (H3 o' v).
    + intros o' v' Ho'. rewrite elem_of_difference. intros [Hr _]. by apply (H3 o' v').
    + done.
Qed.

(** A descriptor has one owner.  In every sequence of constructions, moves,
    assignments, releases and destructions of [Socket] objects, no descriptor is
    owned twice, no [close] hits a descriptor that is not open (so none is closed
    twice), and the open descriptors are exactly those some object owns and those
    released to the caller: nothing leaks. *)
Theorem socket_ownership w :
  rtc step Owners_new w ->
  bad_close w = 0 /\ (forall o1 o2 v, owns w o1 v -> owns w o2 v -> o1 = o2) /\
  (forall v, v ∈ open_fds w <-> (exists o, owns w o v) \/ v ∈ released w) /\
  (sockfd_ w = ∅ -> open_fds w = released w).
Proof.
  intros Hr. assert (Hok : owners_ok w).
  { revert Hr. apply (rtc_ind_r owners_ok); [|intros y z _ Hs; by apply step_owners].
    split; [intros o1 o2 v [E _]|intros v; split; [|intros [[o [E _]]|]]|intros o v [E _]|]; done. }
  destruct Hok as [H1 H2 H3 H4]. split_and!; [done|done|done|].
  intros He. apply leibniz_equiv. intros v. rewrite H2. split; [|by right]. intros [[o [E _]]|]; [|done]. by rewrite He in E.
Qed.

Definition demo_sockets : Owners := Socket_destroy 1 (Socket_move 2 1 (Socket_new 1 5 Owners_new)).

Lemma socket_ownership_witness : bad_close demo_sockets = 0 /\ (5%Z ∈ open_fds demo_sockets <-> (exists o, owns demo_sockets o 5) \/ 5%Z ∈ released demo_sockets).
Proof.
  destruct (socket_ownership demo_sockets) as (H1 & _ & H2 & _).
  - eapply rtc_l; [by apply (step_new 1 5)|]. eapply rtc_l; [by apply (step_move 2 1)|]. eapply rtc_l; [by apply (step_destroy 1)|]. apply rtc_refl.
  - split; [exact H1|exact (H2 5%Z)].
Defined.
End Socket.
