(* ===== verification/Reactor.v ===== *)
(** * The event loop as a whole (reactor/event_loop, reactor/timer_queue)

    The task queue, the timer queue, the poller and the loop's own two channels
    put together: timer calls from any thread, channel registration, the
    construction and destruction of a loop; and the dispatch of active channels,
    raw pointers whose objects the handlers may destroy. *)

From stdpp Require Import gmap.
From S2P Require Import Prelude StdMap Timestamp TimerQueue EventLoop.

(** ** The loop with its queue, its poller and its channels *)
Module Reactor.
Import Channel TimerQueue EventLoop.

Record Reactor := mkReactor {
  loop_ : EventLoop;
  timer_queue_ : TimerQueue;
  lambdas : gmap nat cb_op;              (* the posted timer operations, by task *)
  next_task : nat;
  poller_ : EPollPoller.EPollPoller;
  wakeup_channel_ : Channel;
  timerfd_channel_ : Channel;
}.
#[export] Instance Reactor_settable : Settable Reactor := fun r =>
  mkReactor (loop_ r) (timer_queue_ r) (lambdas r) (next_task r) (poller_ r) (wakeup_channel_ r) (timerfd_channel_ r).

Section reactor.
Variable alloc : gmap addr Timer -> addr.

(** [queueInLoop] of a lambda that works on the timer queue. *)
Definition post (op : cb_op) (r : Reactor) : Reactor :=
  r <| loop_ := EventLoop.queueInLoop false (Task (next_task r) []) (loop_ r) |>
    <| lambdas := <[next_task r := op]> (lambdas r) |>
    <| next_task := S (next_task r) |>.

Definition TimerId_empty : TimerId := mkTimerId None 0.

(** [runAt] and [runEvery] after the expiration is known. *)
Definition addInLoop (in_loop : bool) (cb : option nat) (when_ : Timestamp.Timestamp) (interval_ms : Z) (r : Reactor)
    : TimerId * Reactor :=
  if in_loop then let '(id, q) := addTimer alloc cb when_ interval_ms (timer_queue_ r) in (id, r <| timer_queue_ := q |>)
  else (TimerId_empty, post (CAdd cb when_ interval_ms) r).

Definition runAt (in_loop : bool) (when_ : Timestamp.Timestamp) (cb : option nat) (r : Reactor) : TimerId * Reactor :=
  addInLoop in_loop cb when_ 0 r.

Definition runAfter (in_loop : bool) (now : Timestamp.Timestamp) (delay_ms : Z) (cb : option nat) (r : Reactor)
    : TimerId * Reactor :=
  runAt in_loop (Timestamp.addMilliseconds now delay_ms) cb r.

Definition runEvery (in_loop : bool) (now : Timestamp.Timestamp) (interval_ms : Z) (cb : option nat) (r : Reactor)
    : TimerId * Reactor :=
  addInLoop in_loop cb (Timestamp.addMilliseconds now interval_ms) interval_ms r.

(** [None]: a dangling timer is read. *)
Definition cancel (in_loop : bool) (id : TimerId) (r : Reactor) : option Reactor :=
  if in_loop then q ← TimerQueue.cancel id (timer_queue_ r); Some (r <| timer_queue_ := q |>)
  else Some (post (CCancel id) r).

(** [doPendingTasks]: the lambdas among the tasks work on the timer queue. *)
Definition doPendingTasks (r : Reactor) : option Reactor :=
  let '(ids, l) := EventLoop.doPendingTasks (loop_ r) in
  q ← run_ops alloc (omap (fun id => lambdas r !! id) ids) (timer_queue_ r);
  Some (r <| loop_ := l |> <| timer_queue_ := q |>).

(** [None]: [assertInLoopThread] throws. *)
Definition updateChannel (in_loop : bool) (ch : Channel) (r : Reactor) : option Reactor :=
  if in_loop then Some (r <| poller_ := EPollPoller.updateChannel ch (poller_ r) |>) else None.

(** A null channel is logged and ignored; [a] is the channel's identity. *)
Definition removeChannel (in_loop : bool) (channel : option (nat * Channel)) (r : Reactor) : option Reactor :=
  if negb in_loop then None
  else match channel with
  | None => Some r
  | Some (a, ch) =>
    let r := if bool_decide (processing_channel_ (loop_ r) = Some a)
             then r <| loop_ := (loop_ r) <| processing_channel_ := None |> |> else r in
    Some (r <| poller_ := EPollPoller.removeChannel ch (poller_ r) |>)
  end.

(** ** Construction and destruction *)

(** The descriptors are those [eventfd] and [timerfd_create] return. *)
Definition EventLoop_new (wakeup_fd timerfd num_created : Z) : Reactor :=
  let wake := enableRead (Channel_new wakeup_fd) <| has_read := true |> in
  let tfd := enableRead (Channel_new timerfd) <| has_read := true |> in
  mkReactor (mkLoop [] 0 true false None 0) (TimerQueue_new num_created) ∅ 0
    (EPollPoller.updateChannel tfd (EPollPoller.updateChannel wake EPollPoller.poller_new)) wake tfd.

(** [~TimerQueue]: the channel goes, and every timer of the set is deleted. *)
Definition TimerQueue_destroy (r : Reactor) : Reactor :=
  let ch := disableAll (timerfd_channel_ r) in
  let q := timer_queue_ r in
  r <| poller_ := EPollPoller.removeChannel ch (EPollPoller.updateChannel ch (poller_ r)) |>
    <| timerfd_channel_ := ch |>
    <| timer_queue_ := q <| heap := foldr (fun e h => delete e.2 h) (heap q) (map fst (timers_ q)) |> <| timers_ := [] |> |>.

(** [~EventLoop]; [None]: the assertion [quit_] fails. *)
Definition EventLoop_destroy (r : Reactor) : option Reactor :=
  if quit_ (loop_ r) then
    let r := TimerQueue_destroy r in
    let ch := disableAll (wakeup_channel_ r) in
    Some (r <| poller_ := EPollPoller.removeChannel ch (EPollPoller.updateChannel ch (poller_ r)) |>
            <| wakeup_channel_ := ch |>
            <| loop_ := (loop_ r) <| wakeup_fd_open := false |> |>)
  else None.

(** ** Timer calls of other threads *)
Inductive call :=
| RunAt (when_ : Timestamp.Timestamp) (cb : option nat)
| RunAfter (now : Timestamp.Timestamp) (delay_ms : Z) (cb : option nat)
| RunEvery (now : Timestamp.Timestamp) (interval_ms : Z) (cb : option nat)
| Cancel (id : TimerId).

Definition do_call (in_loop : bool) (c : call) (r : Reactor) : option (TimerId * Reactor) :=
  match c with
  | RunAt w cb => Some (runAt in_loop w cb r)
  | RunAfter now d cb => Some (runAfter in_loop now d cb r)
  | RunEvery now i cb => Some (runEvery in_loop now i cb r)
  | Cancel id => r ← cancel in_loop id r; Some (TimerId_empty, r)
  end.

(** Several calls: the handles they return. *)
Fixpoint do_calls (in_loop : bool) (cs : list call) (r : Reactor) : option (list TimerId * Reactor) :=
  match cs with
  | [] => Some ([], r)
  | c :: cs' =>
    '(id, r) ← do_call in_loop c r; '(ids, r) ← do_calls in_loop cs' r; Some (id :: ids, r)
  end.

(** What a call means for the timer queue. *)
Definition meaning (c : call) : cb_op :=
  match c with
  | RunAt w cb => CAdd cb w 0
  | RunAfter now d cb => CAdd cb (Timestamp.addMilliseconds now d) 0
  | RunEvery now i cb => CAdd cb (Timestamp.addMilliseconds now i) i
  | Cancel id => CCancel id
  end.

(** The operations posted and not yet run, in order. *)
Definition outstanding (r : Reactor) : list cb_op :=
  omap (fun id => lambdas r !! id) (concat (map started (pending_tasks_ (loop_ r)))).

(** Task names are not reused. *)
Definition names_ok (r : Reactor) : Prop :=
  Forall (fun id => id < next_task r) (concat (map started (pending_tasks_ (loop_ r)))).

(** On the loop's thread a call is the operation itself. *)
Lemma do_call_inline c r :
  option_map (fun x => timer_queue_ x.2) (do_call true c r) = run_op alloc (meaning c) (timer_queue_ r).
Proof.
  assert (Ha : forall cb w i, timer_queue_ (addInLoop true cb w i r).2 = (addTimer alloc cb w i (timer_queue_ r)).2).
  { intros cb w i. unfold addInLoop. by destruct (addTimer alloc cb w i (timer_queue_ r)). }
  destruct c as [w cb|now d cb|now i cb|id]; cbn [do_call meaning run_op option_map snd]; [by rewrite <-Ha..|].
  unfold cancel. by destruct (TimerQueue.cancel id (timer_queue_ r)).
Qed.

(** Elsewhere it is posted. *)
Lemma do_call_posted c r : do_call false c r = Some (TimerId_empty, post (meaning c) r).
Proof. by destruct c. Qed.

Lemma post_spec op r :
  names_ok r -> wakeup_fd_open (loop_ r) = true ->
  names_ok (post op r) /\ wakeup_fd_open (loop_ (post op r)) = true /\ poll_blocks (loop_ (post op r)) = false /\
  timer_queue_ (post op r) = timer_queue_ r /\ outstanding (post op r) = outstanding r ++ [op].
Proof.
  intros Hn Ho. unfold post, names_ok, outstanding in *. simpl.
  assert (Hp : pending_tasks_ (queueInLoop false (Task (next_task r) []) (loop_ r)) = pending_tasks_ (loop_ r) ++ [Task (next_task r) []])
    by apply queueInLoop_pending.
  rewrite Hp, map_app, concat_app. cbn [map concat]. unfold started at 2 4. simpl. split_and!.
  - apply Forall_app. split; [eapply Forall_impl; [exact Hn|simpl; intros; lia]|by repeat constructor; lia].
  - unfold queueInLoop, wakeup. simpl. by rewrite Ho.
  - by apply cross_thread_wakes.
  - done.
  - rewrite omap_app. cbn. rewrite lookup_insert_eq. f_equal.
    apply list_omap_ext, Forall_Forall2_diag. eapply Forall_impl; [exact Hn|]. simpl. intros id Hid.
    rewrite lookup_insert_ne by lia. done.
Qed.

Lemma do_calls_posted cs : forall r,
  names_ok r -> wakeup_fd_open (loop_ r) = true ->
  exists r', do_calls false cs r = Some (map (fun _ => TimerId_empty) cs, r') /\
    names_ok r' /\ wakeup_fd_open (loop_ r') = true /\ (cs <> [] -> poll_blocks (loop_ r') = false) /\
    timer_queue_ r' = timer_queue_ r /\ outstanding r' = outstanding r ++ map meaning cs.
Proof.
  induction cs as [|c cs IH]; intros r Hn Ho; [exists r; rewrite app_nil_r; by split_and!|].
  destruct (post_spec (meaning c) r Hn Ho) as (Hn1 & Ho1 & Hw1 & Hq1 & Hp1).
  destruct (IH _ Hn1 Ho1) as (r' & E & Hn2 & Ho2 & Hw2 & Hq2 & Hp2). exists r'. cbn [do_calls]. rewrite do_call_posted. simpl.
  rewrite E. simpl. split_and!; try done.
  - intros _. destruct cs as [|c2 cs]; [|by apply Hw2]. simpl in E. by injection E as <-.
  - by rewrite Hp2, Hp1, <-app_assoc.
Qed.

(** Timer calls are the same from every thread.  Any sequence of [runAt],
    [runAfter], [runEvery] and [cancel] made off the loop's thread returns empty
    handles, leaves the timer queue alone and wakes the loop up; when the loop
    then runs its pending tasks, the timer queue is the one the same operations
    give in the same order on the loop's thread, each with the expiration taken
    when the call was made. *)
Theorem timer_calls_marshalled cs r :
  names_ok r -> wakeup_fd_open (loop_ r) = true -> outstanding r = [] ->
  exists r', do_calls false cs r = Some (map (fun _ => TimerId_empty) cs, r') /\
    timer_queue_ r' = timer_queue_ r /\ (cs <> [] -> poll_blocks (loop_ r') = false) /\
    option_map timer_queue_ (doPendingTasks r') =
    option_map (fun x => timer_queue_ x.2) (do_calls true cs r).
Proof.
  intros Hn Ho He. destruct (do_calls_posted cs r Hn Ho) as (r' & E & _ & _ & Hw & Hq & Hp).
  exists r'. split_and!; try done. rewrite He in Hp. simpl in Hp. unfold doPendingTasks.
  destruct (doPendingTasks_fifo (loop_ r')) as [Hids _]. destruct (EventLoop.doPendingTasks (loop_ r')) as [ids l].
  simpl in Hids. rewrite Hids. fold (outstanding r'). rewrite Hp, Hq.
  transitivity (run_ops alloc (map meaning cs) (timer_queue_ r)); [by destruct (run_ops _ _ _)|].
  clear. revert r. induction cs as [|c cs IH]; intros r; [done|]. cbn [map run_ops do_calls].
  rewrite <-do_call_inline. destruct (do_call true c r) as [[id r1]|]; [|done]. simpl. rewrite IH.
  by destruct (do_calls true cs r1) as [[ids r2]|].
Qed.

(** ** The life of a loop *)
Variable acts : nat -> TimerQueue -> list cb_op.
Hypothesis alloc_fresh : forall h, room h -> h !! alloc h = None /\ addr_ok (alloc h).
Hypothesis acts_ok : forall cb q, ops_ok alloc (acts cb q) q.

(** The channel is not one of the loop's own. *)
Definition foreign (ch : Channel) (r : Reactor) : Prop :=
  fd_ ch <> fd_ (wakeup_channel_ r) /\ fd_ ch <> fd_ (timerfd_channel_ r).

(** Timer calls of the loop's and of other threads, the loop's turns, expirations,
    registrations, posted tasks, [quit]. *)
Inductive step : Reactor -> Reactor -> Prop :=
| step_call in_loop c r id r' :
    (in_loop = true -> op_ok (meaning c) (timer_queue_ r)) -> do_call in_loop c r = Some (id, r') -> step r r'
| step_pending r r' : ops_ok alloc (outstanding r) (timer_queue_ r) -> doPendingTasks r = Some r' -> step r r'
| step_fire now r ran q : handleRead alloc acts now (timer_queue_ r) = Some (ran, q) -> step r (r <| timer_queue_ := q |>)
| step_update ch r r' : foreign ch r -> updateChannel true ch r = Some r' -> step r r'
| step_remove a ch r r' : foreign ch r -> removeChannel true (Some (a, ch)) r = Some r' -> step r r'
| step_queue b t r : step r (r <| loop_ := queueInLoop b t (loop_ r) |>)
| step_wakeup r : step r (r <| loop_ := handleWakeup (loop_ r) |>)
| step_quit b r : step r (r <| loop_ := quit b (loop_ r) |>).

Record reactor_ok (wfd tfd n : Z) (r : Reactor) : Prop := {
  ro_sync : EPollPoller.in_sync (poller_ r);
  ro_own : fd_ (wakeup_channel_ r) = wfd /\ fd_ (timerfd_channel_ r) = tfd;
  ro_reg : wfd ∈ EPollPoller.channels_ (poller_ r) /\ tfd ∈ EPollPoller.channels_ (poller_ r);
  ro_queue : rtc (TimerQueue.step alloc acts) (TimerQueue_new n) (timer_queue_ r);
}.

Lemma ops_reach ops : forall q q',
  ops_ok alloc ops q -> run_ops alloc ops q = Some q' -> rtc (TimerQueue.step alloc acts) q q'.
Proof.
  induction ops as [|op ops IH]; intros q q' Hok; simpl; [by intros [= ->]|]. destruct Hok as [Ho Hr].
  destruct (run_op alloc op q) as [q1|] eqn:E; [|done]. intros H. eapply rtc_l; [by eapply step_op|]. by apply IH, H; apply Hr.
Qed.

(** Steps that leave the poller and the own channels alone. *)
Lemma ok_frame wfd tfd n r r' :
  reactor_ok wfd tfd n r -> poller_ r' = poller_ r -> wakeup_channel_ r' = wakeup_channel_ r ->
  timerfd_channel_ r' = timerfd_channel_ r ->
  rtc (TimerQueue.step alloc acts) (timer_queue_ r) (timer_queue_ r') -> reactor_ok wfd tfd n r'.
Proof. intros [H1 H2 H3 H4] Ep Ew Et Hq. split; rewrite ?Ep, ?Ew, ?Et; try done. etrans; [exact H4|exact Hq]. Qed.

Lemma call_ok wfd tfd n in_loop c r id r' :
  reactor_ok wfd tfd n r -> (in_loop = true -> op_ok (meaning c) (timer_queue_ r)) ->
  do_call in_loop c r = Some (id, r') -> reactor_ok wfd tfd n r'.
Proof.
  intros Hok Hop E. destruct in_loop.
  - pose proof (do_call_inline c r) as Hi. rewrite E in Hi. simpl in Hi.
    assert (Hf : poller_ r' = poller_ r /\ wakeup_channel_ r' = wakeup_channel_ r /\ timerfd_channel_ r' = timerfd_channel_ r).
    { destruct c as [w cb|now d cb|now i cb|id']; cbn [do_call] in E; unfold runAfter, runEvery, runAt, addInLoop, cancel in E;
        [destruct (addTimer alloc _ _ _ _); by injection E as <- <-..|].
      destruct (TimerQueue.cancel id' (timer_queue_ r)); [|done]. by injection E as <- <-. }
    destruct Hf as (H1 & H2 & H3). eapply ok_frame; try done. eapply rtc_l; [|apply rtc_refl]. eapply step_op; [by apply Hop|done].
  - rewrite do_call_posted in E. injection E as <- <-. by eapply ok_frame.
Qed.

Lemma update_channels c p : EPollPoller.channels_ (EPollPoller.updateChannel c p) = {[fd_ c]} ∪ EPollPoller.channels_ p.
Proof.
  unfold EPollPoller.updateChannel. case_decide as Hc; unfold EPollPoller.update; simpl; case_match; simpl; set_solver.
Qed.

Lemma step_ok_reactor wfd tfd n r r' : step r r' -> reactor_ok wfd tfd n r -> reactor_ok wfd tfd n r'.
Proof.
  intros Hs Hok. destruct Hs as [b c r id r' Hop E|r r' Hop E|now r ran q E|ch r r' Hf E|a ch r r' Hf E|b t r|r|b r].
  - by eapply call_ok.
  - unfold doPendingTasks in E. destruct (doPendingTasks_fifo (loop_ r)) as [Hids _].
    destruct (EventLoop.doPendingTasks (loop_ r)) as [ids l]. simpl in Hids. rewrite Hids in E. fold (outstanding r) in E.
    destruct (run_ops alloc (outstanding r) (timer_queue_ r)) as [q|] eqn:Eq; [|done]. injection E as <-.
    eapply ok_frame; try done. by eapply ops_reach.
  - eapply ok_frame; try done. eapply rtc_l; [by eapply TimerQueue.step_fire|apply rtc_refl].
  - injection E as <-. destruct Hok as [H1 H2 H3 H4]. split; simpl; try done; [by apply EPollPoller.update_sync|].
    rewrite update_channels. set_solver.
  - unfold removeChannel in E. simpl in E. injection E as <-. destruct Hok as [H1 [H2 H2'] H3 H4].
    destruct Hf as [Hf1 Hf2]. assert (Hin : wfd ∈ EPollPoller.channels_ (EPollPoller.removeChannel ch (poller_ r)) /\
      tfd ∈ EPollPoller.channels_ (EPollPoller.removeChannel ch (poller_ r))).
    { unfold EPollPoller.removeChannel. case_decide; [|done]. unfold EPollPoller.update; simpl. case_match; simpl; set_solver. }
    case_bool_decide; split; simpl; try done; by apply EPollPoller.remove_sync.
  - by eapply ok_frame.
  - by eapply ok_frame.
  - by eapply ok_frame.
Qed.

Lemma new_reactor_ok wfd tfd n : wfd <> tfd -> reactor_ok wfd tfd n (EventLoop_new wfd tfd n).
Proof.
  intros Hne. unfold EventLoop_new. set (w := enableRead (Channel_new wfd) <| has_read := true |>).
  set (t := enableRead (Channel_new tfd) <| has_read := true |>).
  assert (H0 : EPollPoller.in_sync EPollPoller.poller_new) by (apply EPollPoller.reachable_sync, rtc_refl).
  destruct (EPollPoller.update_sync w _ H0) as [H1 _]. destruct (EPollPoller.update_sync t _ H1) as [H2 _].
  split; simpl; try done. rewrite !update_channels. set_solver.
Qed.

(** Deleting the timers of the set deletes every timer there is. *)
Lemma destroy_heap q : tq_wf [] q -> foldr (fun e h => delete e.2 h) (heap q) (map fst (timers_ q)) = ∅.
Proof.
  intros Hwf. apply map_eq. intros a. rewrite lookup_empty.
  assert (Hd : forall l (h : gmap addr Timer), (a ∈ map snd l \/ h !! a = None) ->
    foldr (fun (e : Timestamp.Timestamp * addr) h => delete e.2 h) h l !! a = None).
  { induction l as [|e l IH]; intros h Hor; simpl; [destruct Hor as [[]%elem_of_nil|]; done|].
    destruct (decide (e.2 = a)) as [<-|Hne]; [by rewrite lookup_delete_eq|]. rewrite lookup_delete_ne by done. apply IH.
    destruct Hor as [[->|Hin]%elem_of_cons|]; [done|by left|by right]. }
  apply Hd. destruct (heap q !! a) as [t|] eqn:E; [|by right]. left.
  destruct (wf_heap _ _ Hwf _ _ E) as [Hin|[]%elem_of_nil]. apply (mlookup_elem_iff (expiration_ t, a)) in Hin; [|apply Hwf].
  apply list_elem_of_fmap. by exists (expiration_ t, a).
Qed.

(** Taking a registered channel out. *)
Lemma take_out ch p :
  EPollPoller.in_sync p -> fd_ ch ∈ EPollPoller.channels_ p ->
  let p' := EPollPoller.removeChannel (disableAll ch) (EPollPoller.updateChannel (disableAll ch) p) in
  EPollPoller.in_sync p' /\ EPollPoller.channels_ p' = EPollPoller.channels_ p ∖ {[fd_ ch]}.
Proof.
  intros Hs Hin p'. destruct (EPollPoller.update_sync (disableAll ch) p Hs) as [Hs1 _].
  split; [by apply EPollPoller.remove_sync|]. subst p'. set (p1 := EPollPoller.updateChannel (disableAll ch) p) in *.
  assert (Hc : EPollPoller.channels_ p1 = EPollPoller.channels_ p).
  { unfold p1. rewrite update_channels. simpl. set_solver. }
  unfold EPollPoller.removeChannel. rewrite decide_True by (by rewrite Hc). unfold EPollPoller.update. simpl. rewrite Hc.
  by case_match.
Qed.

(** C37: a loop can always be torn down.  Whatever ran on it -- timer calls of
    any thread, expirations, registrations and removals, tasks -- once it has
    quit its destructor unregisters its own two descriptors and nothing else
    without a failing system call, frees every timer (armed or repeating), and
    closes the eventfd in a way that no later wakeup, by a posted task or by
    [quit], writes to it. *)
Theorem loop_teardown wfd tfd n r :
  wfd <> tfd -> rtc step (EventLoop_new wfd tfd n) r -> quit_ (loop_ r) = true ->
  exists r', EventLoop_destroy r = Some r' /\
    EPollPoller.perror_ (poller_ r') = 0 /\
    EPollPoller.channels_ (poller_ r') = EPollPoller.channels_ (poller_ r) ∖ {[wfd; tfd]} /\
    dom (EPollPoller.interest (poller_ r')) = EPollPoller.channels_ (poller_ r') /\
    heap (timer_queue_ r') = ∅ /\
    (forall b t, wakeups (queueInLoop b t (loop_ r')) = wakeups (loop_ r')) /\
    (forall b, wakeups (quit b (loop_ r')) = wakeups (loop_ r')).
Proof.
  intros Hne Hr Hq. assert (Hok : reactor_ok wfd tfd n r).
  { revert Hr. apply (rtc_ind_r (reactor_ok wfd tfd n)); [by apply new_reactor_ok|]. intros y z _ Hs. by apply step_ok_reactor. }
  destruct Hok as [H1 [Hw Ht] [Hrw Hrt] H4]. unfold EventLoop_destroy. rewrite Hq. eexists. split; [reflexivity|].
  destruct (reachable_wf alloc acts alloc_fresh acts_ok n _ H4) as [Hwf _].
  rewrite <-Ht in Hrt. destruct (take_out (timerfd_channel_ r) (poller_ r) H1 Hrt) as [Hs1 Hc1].
  set (p1 := EPollPoller.removeChannel _ _) in Hs1, Hc1.
  assert (Hrw1 : fd_ (wakeup_channel_ r) ∈ EPollPoller.channels_ p1) by (rewrite Hc1; set_solver).
  destruct (take_out (wakeup_channel_ r) p1 Hs1 Hrw1) as [[Hd [Hp _]] Hc2].
  split_and!.
  - exact Hp.
  - etrans; [exact Hc2|]. rewrite Hc1, Hw, Ht. by rewrite difference_difference_l_L, (union_comm_L {[tfd]}).
  - exact Hd.
  - cbn. by apply destroy_heap.
  - intros b t. unfold queueInLoop, wakeup. simpl. by case_match.
  - intros b. unfold quit, wakeup. simpl. by destruct b.
Qed.
End reactor.

(** A repeating timer of the loop's thread, a timer of another thread, a cancelled
    one. *)
Definition demo_calls : list call := [RunAfter 1000 5 (Some 1); RunEvery 2000 7 (Some 2); Cancel TimerId_empty].
Definition demo_reactor : Reactor := EventLoop_new 3 4 0.

Lemma timer_calls_marshalled_witness :
  exists r', do_calls first_free false demo_calls demo_reactor = Some ([TimerId_empty; TimerId_empty; TimerId_empty], r') /\
    option_map (fun r => map (fun e => e.1.1) (timers_ (timer_queue_ r))) (doPendingTasks first_free r') = Some [6000%Z; 9000%Z].
Proof.
  destruct (timer_calls_marshalled first_free demo_calls demo_reactor) as (r' & H1 & _ & _ & H2);
    [constructor|reflexivity|reflexivity|]. exists r'. split; [exact H1|].
  apply (f_equal (option_map (fun q => map (fun e => e.1.1) (timers_ q)))) in H2. cbv delta [option_map] in H2 |- *. cbv beta in *.
  destruct (doPendingTasks first_free r') as [r''|]; cbv iota beta in H2 |- *; rewrite H2; vm_compute; reflexivity.
Defined.

Lemma loop_teardown_witness :
  exists r', EventLoop_destroy (demo_reactor <| loop_ := quit true (loop_ demo_reactor) |>) = Some r' /\
    EPollPoller.perror_ (poller_ r') = 0 /\ heap (timer_queue_ r') = ∅.
Proof.
  destruct (loop_teardown first_free no_acts first_free_ok ltac:(done) 3 4 0
    (demo_reactor <| loop_ := quit true (loop_ demo_reactor) |>)) as (r' & H1 & H2 & _ & _ & H3 & _).
  - done.
  - eapply rtc_l; [apply step_quit|apply rtc_refl].
  - reflexivity.
  - exists r'. split; [exact H1|split; [exact H2|exact H3]].
Defined.
End Reactor.

(** ** Dispatching the active channels

    [active_channels_] holds raw pointers taken by [poll]; the handlers run in
    turn and may destroy channels: their own, or those of other connections. *)
Module Dispatch.
Import Channel.

(** What a callback does to channels: destroy one now, or queue its destruction. *)
Inductive effect := Destroy (a : nat) | DestroyLater (a : nat).

Record Loop := mkDispatch {
  heap : gmap nat Channel;               (* the channels that exist *)
  later : list nat;
  log : list (nat * callback);           (* the callbacks run *)
}.
#[export] Instance Loop_settable : Settable Loop := fun s => mkDispatch (heap s) (later s) (log s).

Section dispatch.
Variable handlers : nat -> callback -> list effect.

(** The effects of a callback of channel [cur].  A tied channel's owner is kept
    by the guard of [handleEvents] until the callbacks are through; an untied one
    that destroys itself ([None]) frees the function that is running. *)
Fixpoint run_effects (cur : nat) (tied : bool) (es : list effect) (s : Loop) (dying : bool) : option (Loop * bool) :=
  match es with
  | [] => Some (s, dying)
  | DestroyLater a :: es => run_effects cur tied es (s <| later := later s ++ [a] |>) dying
  | Destroy a :: es =>
    if decide (a = cur) then if tied then run_effects cur tied es s true else None
    else run_effects cur tied es (s <| heap := delete a (heap s) |>) dying
  end.

Fixpoint run_callbacks (cur : nat) (tied : bool) (cbs : list callback) (s : Loop) (dying : bool) : option (Loop * bool) :=
  match cbs with
  | [] => Some (s, dying)
  | cb :: cbs =>
    '(s, dying) ← run_effects cur tied (handlers cur cb) (s <| log := log s ++ [(cur, cb)] |>) dying;
    run_callbacks cur tied cbs s dying
  end.

(** [handleEvents] of the channel at [cur]; [None]: it does not exist any more. *)
Definition handleEvents (cur : nat) (s : Loop) : option Loop :=
  c ← heap s !! cur;
  '(s, dying) ← run_callbacks cur (tied_ c) (Channel.handleEvents true c) s false;
  Some (if dying : bool then s <| heap := delete cur (heap s) |> else s).

(** The loop over the active channels, then the queued destructions. *)
Fixpoint dispatch (active : list nat) (s : Loop) : option Loop :=
  match active with
  | [] => Some s
  | a :: active' => s ← handleEvents a s; dispatch active' s
  end.

Definition destroy_later (s : Loop) : Loop :=
  s <| heap := foldr delete (heap s) (later s) |> <| later := [] |>.

Definition iterate (active : list nat) (s : Loop) : option Loop :=
  s ← dispatch active s; Some (destroy_later s).

(** The handlers of [cur] leave the channels of [keep] in place; [cur] may go if
    it is tied. *)
Definition spares (cur : nat) (tied : bool) (keep : list nat) : Prop :=
  forall cb a, Destroy a ∈ handlers cur cb -> (a = cur /\ tied = true) \/ (a <> cur /\ a ∉ keep).

Definition kept (keep : list nat) (s s' : Loop) : Prop := forall a, a ∈ keep -> heap s' !! a = heap s !! a.

Lemma run_effects_safe cur tied keep es : forall s dying,
  (forall a, Destroy a ∈ es -> (a = cur /\ tied = true) \/ (a <> cur /\ a ∉ keep)) ->
  exists s' dying', run_effects cur tied es s dying = Some (s', dying') /\ kept keep s s' /\ log s' = log s.
Proof.
  induction es as [|[a|a] es IH]; intros s dying Hes; simpl; [by eexists _, _| |].
  - destruct (Hes a ltac:(by left)) as [[-> ->]|[Hne Hk]].
    + rewrite decide_True by done. apply IH. intros. apply Hes. by right.
    + rewrite decide_False by done. destruct (IH (s <| heap := delete a (heap s) |>) dying) as (s' & d' & E & Hkp & Hl);
        [intros; apply Hes; by right|]. exists s', d'. split_and!; [done| |done].
      intros b Hb. rewrite (Hkp b Hb). simpl. rewrite lookup_delete_ne; [done|congruence].
  - destruct (IH (s <| later := later s ++ [a] |>) dying) as (s' & d' & E & Hkp & Hl); [intros; apply Hes; by right|].
    by exists s', d'.
Qed.

Lemma run_callbacks_safe cur tied keep cbs : forall s dying,
  spares cur tied keep ->
  exists s' dying', run_callbacks cur tied cbs s dying = Some (s', dying') /\ kept keep s s' /\
    log s' = log s ++ map (pair cur) cbs.
Proof.
  induction cbs as [|cb cbs IH]; intros s dying Hsp; cbn [run_callbacks map]; [eexists _, _; by rewrite app_nil_r|].
  destruct (run_effects_safe cur tied keep (handlers cur cb) (s <| log := log s ++ [(cur, cb)] |>) dying) as (s1 & d1 & -> & Hk1 & Hl1);
    [intros; by eapply Hsp|]. cbn [mbind option_bind]. destruct (IH s1 d1 Hsp) as (s2 & d2 & -> & Hk2 & Hl2). exists s2, d2. split_and!; [done| |].
  - intros a Ha. by rewrite (Hk2 a Ha), (Hk1 a Ha).
  - rewrite Hl2, Hl1. simpl. by rewrite <-app_assoc.
Qed.

(** When the handlers destroy other active channels only through the
    loop's queue, and themselves at once only under a tie, a turn of the loop
    never touches a destroyed channel, and every active channel gets exactly
    the callbacks of the events it was listed with, in order. *)
Theorem dispatch_safe active s :
  NoDup active -> (forall a, a ∈ active -> exists c, heap s !! a = Some c /\ spares a (tied_ c) (filter (fun b => b <> a) active)) ->
  exists s', iterate active s = Some s' /\
    log s' = log s ++ concat (map (fun a => match heap s !! a with
      | Some c => map (pair a) (Channel.handleEvents true c) | None => [] end) active).
Proof.
  intros Hnd Hall. cut (exists s', dispatch active s = Some s' /\
    log s' = log s ++ concat (map (fun a => match heap s !! a with
      | Some c => map (pair a) (Channel.handleEvents true c) | None => [] end) active)).
  { intros (s' & E & Hl). unfold iterate. rewrite E. eexists. split; [reflexivity|exact Hl]. }
  revert s Hall. induction active as [|a active IH]; intros s Hall; [exists s; by rewrite app_nil_r|].
  apply NoDup_cons in Hnd as [Hna Hnd]. destruct (Hall a ltac:(by left)) as (c & Hc & Hsp).
  destruct (run_callbacks_safe a (tied_ c) (filter (fun b => b <> a) (a :: active)) (Channel.handleEvents true c) s false Hsp)
    as (s1 & d & E & Hk & Hl). cbn [dispatch map concat]. unfold handleEvents. rewrite Hc. simpl. rewrite E. simpl.
  set (s2 := if d : bool then s1 <| heap := delete a (heap s1) |> else s1).
  assert (H2 : forall b, b ∈ active -> heap s2 !! b = heap s !! b).
  { intros b Hb. assert (Hne : b <> a) by congruence. rewrite <-(Hk b) by (apply list_elem_of_filter; split; [done|by right]).
    unfold s2. destruct d; [simpl; by rewrite lookup_delete_ne by congruence|done]. }
  destruct (IH Hnd s2) as (s' & E' & Hl').
  { intros b Hb. rewrite (H2 b Hb). destruct (Hall b ltac:(by right)) as (c' & Hc' & Hs'). exists c'. split; [done|].
    intros cb x Hx. destruct (Hs' cb x Hx) as [?|[? Hn]]; [by left|right]. split; [done|].
    rewrite list_elem_of_filter in Hn |- *. intros [Hxb Hx']. apply Hn. split; [done|by right]. }
  exists s'. split; [done|]. rewrite Hl'. assert (log s2 = log s1) as -> by (unfold s2; by destruct d).
  rewrite Hl, <-app_assoc. do 2 f_equal. f_equal. apply map_ext_in. intros b Hb%list_elem_of_In. by rewrite (H2 b Hb).
Qed.
End dispatch.

(** Channel 1 is tied and closes itself, channel 2 is an untied one that defers. *)
Definition demo_chan (fd : Z) (tied : bool) : Channel :=
  (Channel_new fd) <| tied_ := tied |> <| has_read := true |> <| revents_ := IO_READ |>.
Definition demo_handlers (a : nat) (cb : callback) : list effect :=
  if a =? 1 then [Destroy 1] else [DestroyLater a].
Definition demo_heap : gmap nat Channel := {[1 := demo_chan 5 true; 2 := demo_chan 6 false]}.

Lemma dispatch_safe_witness :
  exists s', iterate demo_handlers [1; 2] (mkDispatch demo_heap [] []) = Some s' /\
    log s' = [(1, ReadCallback); (2, ReadCallback)].
Proof.
  destruct (dispatch_safe demo_handlers [1; 2] (mkDispatch demo_heap [] [])) as (s' & H1 & H2).
  - apply NoDup_cons. split; [|apply NoDup_singleton]. intros H%list_elem_of_singleton. discriminate.
  - intros a [->|[->|[]%elem_of_nil]%elem_of_cons]%elem_of_cons; (eexists; split; [reflexivity|]);
      intros cb x; unfold demo_handlers; simpl; rewrite list_elem_of_singleton; [intros [= ->]; by left|discriminate].
  - exists s'. split; [exact H1|exact H2].
Defined.

(** A timer closing an idle connection of the same batch destroys a channel that
    is still to be dispatched: the loop then calls a destroyed object, tied or
    not (the tie is a field of the destroyed channel). *)
Lemma closing_an_active_connection :
  let handlers a (cb : callback) := if a =? 0 then [Destroy 1] else [] in
  iterate handlers [0; 1] (mkDispatch {[0 := demo_chan 4 false; 1 := demo_chan 5 true]} [] []) = None.
Proof. reflexivity. Qed.
End Dispatch.
