(* ===== verification/CaresResolver.v ===== *)
(** * The c-ares resolver (net/cares_resolver)

    [CaresResolver::Impl] drives a c-ares channel from the event loop: it keeps a
    [Channel] for each socket c-ares wants watched and a timer for its timeouts.
    c-ares is the class [AresLib]; its answers arrive in [onResult]. *)

From stdpp Require Import gmap.
From S2P Require Import Prelude CStr Resolver EventLoop.
Import InetAddress Channel.

Module CaresResolver.

(** ** Answers *)
Section answers.
Context {ip4 ip6 : Type} `{!InetText ip4 ip6}.
Abbreviation addr := (InetAddress ip4 ip6).
Abbreviation node := (ThreadPoolResolver.addrinfo (ip4 := ip4) (ip6 := ip6)).

(** What [onResult] is called with: a failure and its text, or the list (null in
    the first case of success). *)
Inductive ares_result := AresError (strerror : bytes) | AresNull (strerror : bytes) | AresOk (nodes : list node).

(** The loop over the nodes: the port is put into the address. *)
Fixpoint collect_addrs (port : Z) (nodes : list node) : list addr :=
  match nodes with
  | [] => []
  | ThreadPoolResolver.AI4 ip :: l => Inet ip port :: collect_addrs port l
  | ThreadPoolResolver.AI6 ip s :: l => Inet6 ip port s :: collect_addrs port l
  | ThreadPoolResolver.AIOther :: l => collect_addrs port l
  end.

(** The arguments of the callback. *)
Definition onResult (port : Z) (r : ares_result) : list addr * bytes :=
  match r with
  | AresError err | AresNull err => ([], err)
  | AresOk nodes =>
    let addrs := collect_addrs port nodes in
    if negb (length addrs =? 0) then (addrs, []) else ([], bs "no usable address")
  end.

(** [resolve(host, port, cb)]: the first address or the error; [None] is
    [front()] of an empty vector. *)
Definition first_result (a : list addr * bytes) : option (addr * bytes) :=
  if length a.2 =? 0 then (fun x => (x, [])) <$> head a.1 else Some (InetAddress_any 0 false false, a.2).

(** Both backends answer alike, and an empty error means there is an address. *)
Lemma onResult_backends port r :
  (forall e, r = AresError e \/ r = AresNull e -> e <> []) ->
  onResult port r =
    match ThreadPoolResolver.resolveBlocking
      (match r with AresError e | AresNull e => ThreadPoolResolver.GaiError e | AresOk l => ThreadPoolResolver.GaiOk l end) port with
    | inl addrs => (addrs, []) | inr e => ([], e) end /\
  ((onResult port r).2 = [] <-> (onResult port r).1 <> []) /\ is_Some (first_result (onResult port r)).
Proof.
  intros He. assert (Hc : forall l, collect_addrs port l = omap (ThreadPoolResolver.usable port) l).
  { induction l as [|[] l IH]; simpl; by rewrite ?IH. }
  assert (Hok : forall e, r = AresError e \/ r = AresNull e -> ([] : list addr, e).2 <> [] /\ is_Some (first_result ([] : list addr, e))).
  { intros e Hr. specialize (He e Hr). split; [done|]. unfold first_result. by destruct e. }
  destruct r as [e|e|l]; simpl onResult.
  - destruct (Hok e ltac:(by left)). split_and!; [done|naive_solver|done].
  - destruct (Hok e ltac:(by right)). split_and!; [done|naive_solver|done].
  - rewrite Hc. unfold ThreadPoolResolver.resolveBlocking. by destruct (omap _ l) as [|a l'].
Qed.
End answers.
Arguments ares_result : clear implicits.

(** ** The sockets *)

(** A socket c-ares asks for: descriptor, readable, writable. *)
Abbreviation sock := (Z * bool * bool)%type.

Definition fd_of (s : sock) : Z := s.1.1.
Definition readable (s : sock) : bool := s.1.2.
Definition writable (s : sock) : bool := s.2.
Definition wanted (s : sock) : bool := readable s || writable s.

(** A channel object with its identity. *)
Abbreviation obj := (nat * Channel)%type.

Record Watch := mkWatch {
  channels_ : gmap Z obj;
  poller : EPollPoller.EPollPoller;
  next_obj : nat;
}.
#[export] Instance Watch_settable : Settable Watch := fun w => mkWatch (channels_ w) (poller w) (next_obj w).

Definition setInterest (s : sock) (ch : Channel) (p : EPollPoller.EPollPoller) : Channel * EPollPoller.EPollPoller :=
  let ch := if readable s then enableRead ch else disableRead ch in
  let p := EPollPoller.updateChannel ch p in
  let ch := if writable s then enableWrite ch else disableWrite ch in
  (ch, EPollPoller.updateChannel ch p).

(** The first loop of [updateSockets]: [w] holds the old channels, [next] the new. *)
Fixpoint adopt (socks : list sock) (w : Watch) (next : gmap Z obj) : Watch * gmap Z obj :=
  match socks with
  | [] => (w, next)
  | s :: socks =>
    if negb (wanted s) then adopt socks w next
    else
      let fd := fd_of s in
      let '(id, ch, w) :=
        match channels_ w !! fd with
        | Some (id, ch) => (id, ch, w <| channels_ := delete fd (channels_ w) |>)
        | None => (next_obj w, (Channel_new fd) <| has_read := true |> <| has_write := true |>,
                   w <| next_obj := S (next_obj w) |>)
        end in
      let '(ch, p) := setInterest s ch (poller w) in
      adopt socks (w <| poller := p |>) (<[fd := (id, ch)]> next)
  end.

Definition drop_channel (o : obj) (p : EPollPoller.EPollPoller) : EPollPoller.EPollPoller :=
  let ch := disableAll o.2 in EPollPoller.removeChannel ch (EPollPoller.updateChannel ch p).

(** [updateSockets], and the channels it destroys. *)
Definition updateSockets (socks : list sock) (w : Watch) : Watch * list nat :=
  let '(w, next) := adopt socks w ∅ in
  let left := map snd (map_to_list (channels_ w)) in
  (w <| poller := foldr drop_channel (poller w) left |> <| channels_ := next |>, map fst left).

(** The read or write callback of the channel of [fd]: c-ares works, then the
    channels are brought up to date.  [None]: the channel that runs it was
    destroyed, and its other callback is looked at after that. *)
Definition on_ready (fd : Z) (socks : list sock) (w : Watch) : option Watch :=
  '(id, _) ← channels_ w !! fd;
  let '(w, destroyed) := updateSockets socks w in
  if bool_decide (id ∈ destroyed) then None else Some w.

(** ** The channels follow c-ares *)
Definition wanted_fds (socks : list sock) : list Z := map fd_of (List.filter wanted socks).

(** Each channel is filed under its descriptor, and the poller is in order. *)
Definition watch_ok (w : Watch) : Prop :=
  EPollPoller.in_sync (poller w) /\ forall fd o, channels_ w !! fd = Some o -> fd_ o.2 = fd.

Lemma update_other c p fd :
  fd <> fd_ c -> EPollPoller.interest (EPollPoller.updateChannel c p) !! fd = EPollPoller.interest p !! fd.
Proof.
  intros Hne. unfold EPollPoller.updateChannel. case_decide; unfold EPollPoller.update; simpl; case_match; simpl;
    by rewrite ?lookup_insert_ne by congruence.
Qed.

Lemma remove_other c p fd :
  fd <> fd_ c -> EPollPoller.interest (EPollPoller.removeChannel c p) !! fd = EPollPoller.interest p !! fd.
Proof.
  intros Hne. unfold EPollPoller.removeChannel. case_decide; [|done]. unfold EPollPoller.update; simpl. case_match; simpl; [|done].
  by rewrite lookup_delete_ne by congruence.
Qed.

#[local] Ltac flags :=
  unfold isReading, isWriting, enableRead, disableRead, enableWrite, disableWrite, IO_READ, IO_WRITE;
  rewrite ?flag_enable, ?flag_disable by lia; done.

Lemma setInterest_spec s ch p :
  EPollPoller.in_sync p ->
  let '(ch', p') := setInterest s ch p in
  EPollPoller.in_sync p' /\ fd_ ch' = fd_ ch /\ isReading ch' = readable s /\ isWriting ch' = writable s /\
  EPollPoller.interest p' !! fd_ ch = Some (EPollPoller.toEpollEvents (events_ ch')) /\
  forall fd, fd <> fd_ ch -> EPollPoller.interest p' !! fd = EPollPoller.interest p !! fd.
Proof.
  intros Hs. unfold setInterest. set (ch1 := if readable s then enableRead ch else disableRead ch).
  set (p1 := EPollPoller.updateChannel ch1 p). set (ch2 := if writable s then enableWrite ch1 else disableWrite ch1).
  destruct (EPollPoller.update_sync ch1 p Hs) as [Hs1 _]. destruct (EPollPoller.update_sync ch2 p1 Hs1) as [Hs2 Hi].
  assert (F1 : fd_ ch1 = fd_ ch) by (unfold ch1; by destruct (readable s)).
  assert (F2 : fd_ ch2 = fd_ ch) by (unfold ch2; by destruct (writable s)).
  assert (R1 : isReading ch1 = readable s) by (unfold ch1; destruct (readable s); flags).
  split_and!; try done.
  - rewrite <-R1. unfold ch2. destruct (writable s); flags.
  - unfold ch2. destruct (writable s); flags.
  - by rewrite <-F2.
  - intros fd Hne. rewrite update_other by congruence. unfold p1. by rewrite update_other by congruence.
Qed.

(** The channel of [s] in the new set: the old one if there was one. *)
Definition watched (old next : gmap Z obj) (p : EPollPoller.EPollPoller) (s : sock) : Prop :=
  exists id ch, next !! fd_of s = Some (id, ch) /\ fd_ ch = fd_of s /\
    isReading ch = readable s /\ isWriting ch = writable s /\
    EPollPoller.interest p !! fd_of s = Some (EPollPoller.toEpollEvents (events_ ch)) /\
    (forall id0 ch0, old !! fd_of s = Some (id0, ch0) -> id = id0).

Lemma adopt_spec socks : forall w next,
  watch_ok w -> NoDup (wanted_fds socks) ->
  let '(w', next') := adopt socks w next in
  watch_ok w' /\
  (forall fd, channels_ w' !! fd = if bool_decide (fd ∈ wanted_fds socks) then None else channels_ w !! fd) /\
  (forall fd, fd ∉ wanted_fds socks ->
    next' !! fd = next !! fd /\ EPollPoller.interest (poller w') !! fd = EPollPoller.interest (poller w) !! fd) /\
  (forall s, s ∈ socks -> wanted s = true -> watched (channels_ w) next' (poller w') s).
Proof.
  induction socks as [|s socks IH]; intros w next Hw Hnd; [split_and!; try done; intros s Hs; by apply elem_of_nil in Hs|].
  assert (Hcons : wanted_fds (s :: socks) = if wanted s then fd_of s :: wanted_fds socks else wanted_fds socks)
    by (unfold wanted_fds; simpl; by destruct (wanted s)).
  cbn [adopt]. rewrite Hcons in Hnd |- *. clear Hcons. destruct (wanted s) eqn:Ew; cbn [negb].
  2:{ specialize (IH w next Hw Hnd). destruct (adopt socks w next) as [w' next']. destruct IH as (? & ? & ? & H4).
      split_and!; try done. intros s' [->|Hs]%elem_of_cons Hw'; [congruence|by apply H4]. }
  apply NoDup_cons in Hnd as [Hns Hnd].
  assert (Hget : exists id ch w1, (match channels_ w !! fd_of s with
      | Some (id, ch) => (id, ch, w <| channels_ := delete (fd_of s) (channels_ w) |>)
      | None => (next_obj w, (Channel_new (fd_of s)) <| has_read := true |> <| has_write := true |>, w <| next_obj := S (next_obj w) |>)
      end) = (id, ch, w1) /\ fd_ ch = fd_of s /\ poller w1 = poller w /\ channels_ w1 = delete (fd_of s) (channels_ w) /\
      (forall id0 ch0, channels_ w !! fd_of s = Some (id0, ch0) -> id = id0)).
  { destruct Hw as [_ Hf]. destruct (channels_ w !! fd_of s) as [[id ch]|] eqn:E; eexists _, _, _; (split; [reflexivity|]).
    - split_and!; try done; [by apply (Hf _ (id, ch))|naive_solver].
    - split_and!; try done. simpl. by rewrite delete_id. }
  destruct Hget as (id & ch & w1 & -> & Hfd & Hp1 & Hc1 & Hid). rewrite Hp1.
  pose proof (setInterest_spec s ch (poller w) (proj1 Hw)) as Hset. destruct (setInterest s ch (poller w)) as [ch2 p2].
  destruct Hset as (Hs2 & Hfd2 & Hr & Hwr & Hi & Ho). rewrite Hfd in *.
  assert (Hw2 : watch_ok (w1 <| poller := p2 |>)).
  { split; [done|]. simpl. rewrite Hc1. intros fd o Hl. apply lookup_delete_Some in Hl as [_ Hl]. by apply Hw. }
  specialize (IH _ (<[fd_of s := (id, ch2)]> next) Hw2 Hnd).
  destruct (adopt socks (w1 <| poller := p2 |>) _) as [w' next']. destruct IH as (H1 & H2 & H3 & H4).
  simpl in H2, H3, H4. rewrite Hc1 in H2, H4. split_and!; [done| | |].
  - intros fd. rewrite H2. destruct (decide (fd = fd_of s)) as [->|Hne].
    + rewrite lookup_delete_eq. rewrite (bool_decide_true (fd_of s ∈ fd_of s :: _)) by (by left). by case_match.
    + rewrite lookup_delete_ne by done. rewrite (bool_decide_ext _ _ (elem_of_cons _ _ _)). repeat case_bool_decide; naive_solver.
  - intros fd [Hne Hn]%not_elem_of_cons. destruct (H3 fd Hn) as [Ha Hb]. rewrite Ha, Hb, lookup_insert_ne by done. by rewrite Ho.
  - intros s' [->|Hs']%elem_of_cons Hw'.
    + destruct (H3 _ Hns) as [Ha Hb]. exists id, ch2. rewrite Ha, Hb, lookup_insert_eq. by split_and!.
    + destruct (H4 s' Hs' Hw') as (id' & ch' & ? & ? & ? & ? & ? & Hold). exists id', ch'. split_and!; try done.
      intros id0 ch0 Hl. apply (Hold id0 ch0). rewrite lookup_delete_ne; [done|]. intros E. apply Hns. rewrite E.
      apply list_elem_of_In, in_map, filter_In. split; [by apply list_elem_of_In|done].
Qed.

Lemma drop_spec l : forall p,
  EPollPoller.in_sync p ->
  let p' := foldr drop_channel p l in
  EPollPoller.in_sync p' /\
  forall fd, EPollPoller.interest p' !! fd = if bool_decide (fd ∈ map (fun o : obj => fd_ o.2) l) then None else EPollPoller.interest p !! fd.
Proof.
  induction l as [|o l IH]; intros p Hs; cbn [foldr map]; [done|]. destruct (IH p Hs) as [Hs1 H1].
  set (p1 := foldr drop_channel p l) in *. unfold drop_channel.
  destruct (EPollPoller.update_sync (disableAll o.2) p1 Hs1) as [Hs2 _].
  destruct (EPollPoller.remove_sync (disableAll o.2) _ Hs2) as [Hs3 Hn]. split; [done|]. intros fd.
  destruct (decide (fd = fd_ o.2)) as [->|Hne].
  - rewrite (bool_decide_true (fd_ o.2 ∈ _ :: _)) by (by left). exact Hn.
  - rewrite remove_other, update_other by (simpl; congruence). rewrite H1. rewrite (bool_decide_ext _ _ (elem_of_cons _ _ _)). repeat case_bool_decide; naive_solver.
Qed.

(** [updateSockets] makes the loop watch exactly the sockets c-ares asks
    for.  As long as no watched descriptor was closed behind its channel: every
    socket wanted has a channel with just the wanted events, known to the
    kernel -- the same object as before if it had one; the channels of the
    others are unregistered and destroyed; no other descriptor of the loop is
    touched and no system call fails. *)
Theorem updateSockets_spec socks w :
  watch_ok w -> NoDup (wanted_fds socks) ->
  let '(w', destroyed) := updateSockets socks w in
  watch_ok w' /\
  (forall s, s ∈ socks -> wanted s = true -> watched (channels_ w) (channels_ w') (poller w') s) /\
  (forall fd, fd ∉ wanted_fds socks -> channels_ w' !! fd = None /\
    EPollPoller.interest (poller w') !! fd =
      match channels_ w !! fd with Some _ => None | None => EPollPoller.interest (poller w) !! fd end) /\
  (forall id, id ∈ destroyed <-> exists fd ch, channels_ w !! fd = Some (id, ch) /\ fd ∉ wanted_fds socks).
Proof.
  intros Hw Hnd. unfold updateSockets. pose proof (adopt_spec socks w ∅ Hw Hnd) as Ha.
  destruct (adopt socks w ∅) as [w1 next]. destruct Ha as (Hw1 & H2 & H3 & H4). cbn [channels_ poller].
  destruct (drop_spec (map snd (map_to_list (channels_ w1))) (poller w1) (proj1 Hw1)) as [Hs Hi].
  set (left := map snd (map_to_list (channels_ w1))) in *.
  assert (Hleft : forall o, o ∈ left <-> exists fd, channels_ w1 !! fd = Some o).
  { intros o. unfold left. rewrite list_elem_of_fmap. split.
    - intros ([fd o'] & -> & Hin%elem_of_map_to_list). by exists fd.
    - intros [fd Hl]. exists (fd, o). split; [done|]. by apply elem_of_map_to_list. }
  assert (Hfds : forall fd, fd ∈ map (fun o : obj => fd_ o.2) left <-> is_Some (channels_ w1 !! fd)).
  { intros fd. rewrite list_elem_of_fmap. split.
    - intros (o & -> & [fd' Hl]%Hleft). rewrite (proj2 Hw1 _ _ Hl). by eexists.
    - intros [o Hl]. exists o. split; [symmetry; by apply Hw1|]. apply Hleft. by exists fd. }
  assert (Hnext : forall fd o, next !! fd = Some o -> fd_ o.2 = fd).
  { intros fd o Hl. destruct (decide (fd ∈ wanted_fds socks)) as [Hin|Hn].
    - apply list_elem_of_In, in_map_iff in Hin as (s & <- & [Hs' Hws]%filter_In).
      destruct (H4 s ltac:(by apply list_elem_of_In) Hws) as (id & ch & E & Hf & _). rewrite E in Hl. by injection Hl as <-.
    - destruct (H3 fd Hn) as [E _]. rewrite E in Hl. done. }
  split_and!; [by split| | |].
  - intros s Hin Hws. destruct (H4 s Hin Hws) as (id & ch & ? & ? & ? & ? & ? & ?). exists id, ch. split_and!; try done. simpl.
    rewrite Hi, bool_decide_false; [done|]. rewrite Hfds, H2, bool_decide_true; [by intros []|].
    by apply list_elem_of_In, in_map, filter_In; split; [apply list_elem_of_In|].
  - intros fd Hn. destruct (H3 fd Hn) as [E1 E2]. split; [exact E1|]. simpl. rewrite Hi, E2.
    specialize (H2 fd). rewrite (bool_decide_false (fd ∈ wanted_fds socks)) in H2 by done. rewrite <-H2.
    destruct (channels_ w1 !! fd) as [o|] eqn:E; [by rewrite bool_decide_true by (apply Hfds; by eexists)|].
    rewrite bool_decide_false; [done|]. rewrite Hfds, E. by intros [].
  - intros id. rewrite list_elem_of_fmap. split.
    + intros ([id' ch] & -> & [fd Hl]%Hleft). exists fd, ch. rewrite H2 in Hl. case_bool_decide; done.
    + intros (fd & ch & Hl & Hn). exists (id, ch). split; [done|]. apply Hleft. exists fd. by rewrite H2, bool_decide_false.
Qed.

Definition demo_watch : Watch := (updateSockets [(7%Z, true, false); (8%Z, true, true)] (mkWatch ∅ EPollPoller.poller_new 0)).1.

Lemma updateSockets_spec_witness :
  let '(w', destroyed) := updateSockets [(7%Z, true, true); (9%Z, true, false)] (mkWatch ∅ EPollPoller.poller_new 0) in
  watch_ok w' /\ watched ∅ (channels_ w') (poller w') (9%Z, true, false).
Proof.
  destruct (updateSockets_spec [(7%Z, true, true); (9%Z, true, false)] (mkWatch ∅ EPollPoller.poller_new 0)) as (H1 & H2 & _).
  - split; [apply EPollPoller.reachable_sync, rtc_refl|]. intros fd o Hl. done.
  - apply NoDup_cons. split; [|apply NoDup_singleton]. intros H%list_elem_of_singleton. discriminate.
  - split; [exact H1|]. apply (H2 (9%Z, true, false)); [by right; left|reflexivity].
Defined.

(** When the socket a callback came from is no longer wanted -- c-ares closes it
    with its last answer -- the channel that runs the callback is destroyed. *)
Lemma last_answer_destroys_running fd socks w :
  watch_ok w -> NoDup (wanted_fds socks) -> is_Some (channels_ w !! fd) -> fd ∉ wanted_fds socks -> on_ready fd socks w = None.
Proof.
  intros Hw Hnd [[id ch] Hl] Hn. unfold on_ready. rewrite Hl. simpl. assert (Hd : id ∈ (updateSockets socks w).2).
  { unfold updateSockets. pose proof (adopt_spec socks w ∅ Hw Hnd) as Ha. destruct (adopt socks w ∅) as [w1 next].
    destruct Ha as (_ & H2 & _). simpl. apply list_elem_of_fmap. exists (id, ch). split; [done|].
    apply list_elem_of_fmap. exists (fd, (id, ch)). split; [done|]. apply elem_of_map_to_list. by rewrite H2, bool_decide_false. }
  destruct (updateSockets socks w) as [w' d]. simpl in Hd. by rewrite bool_decide_true.
Qed.

(** c-ares closed socket 7, which takes it out of the kernel's list, and opened a
    new one that got the same number: the old channel is adopted, changing the
    registration fails, and the new socket is never watched. *)
Lemma reused_socket_not_watched :
  let p := poller demo_watch in
  let closed := demo_watch <| poller := EPollPoller.mkPoller (EPollPoller.channels_ p) (delete 7%Z (EPollPoller.interest p))
    (EPollPoller.events_size p) (EPollPoller.perror_ p) |> in
  let w := (updateSockets [(7%Z, true, false); (8%Z, true, true)] closed).1 in
  EPollPoller.interest (poller w) !! 7%Z = None /\ EPollPoller.perror_ (poller w) = 2.
Proof. by vm_compute. Qed.

(** ** The timer and the queries *)

(** What c-ares does, as far as the resolver relies on it: a query's callback is
    called once, from within the call that starts it or a later one. *)
Class AresLib (ip4 ip6 A : Type) := {
  ares_getaddrinfo : A -> nat -> A * list (nat * ares_result ip4 ip6);
  ares_process_fd : A -> option Z -> option Z -> A * list (nat * ares_result ip4 ip6);
  ares_getsock : A -> list sock;
  ares_timeout : A -> option (Z * Z);
  pending : A -> list nat;
  getaddrinfo_once a q : q :: pending a ≡ₚ map fst (ares_getaddrinfo a q).2 ++ pending (ares_getaddrinfo a q).1;
  process_once a r w : pending a ≡ₚ map fst (ares_process_fd a r w).2 ++ pending (ares_process_fd a r w).1;
}.

Definition armTimer (timeout : option (Z * Z)) (timers : list Z) : list Z :=
  match timeout with
  | None => timers
  | Some (sec, usec) =>
    let ms := (wrap64 (wrap64 sec * 1000 + usec / 1000))%Z in timers ++ [if (ms =? 0)%Z then 1%Z else ms]
  end.

Section impl.
Context {ip4 ip6 : Type} `{!InetText ip4 ip6} {A : Type} `{!AresLib ip4 ip6 A}.

Record Impl := mkImpl {
  channel_ : option A;                   (* None: initialization failed *)
  watch : Watch;
  queries : gmap nat (nat * Z);          (* the Query objects: callback, port *)
  next_query : nat;
  timers : list Z;                       (* armed in the loop *)
  called : list (nat * (list (InetAddress ip4 ip6) * bytes));  (* the callbacks run *)
}.
#[export] Instance Impl_settable : Settable Impl := fun r =>
  mkImpl (channel_ r) (watch r) (queries r) (next_query r) (timers r) (called r).

(** [onResult] for a query: its object is deleted and its callback runs; [None]:
    the object does not exist any more. *)
Definition deliver (x : nat * ares_result ip4 ip6) (r : Impl) : option Impl :=
  '(cb, port) ← queries r !! x.1;
  Some (r <| queries := delete x.1 (queries r) |> <| called := called r ++ [(cb, onResult port x.2)] |>).

Fixpoint deliver_all (xs : list (nat * ares_result ip4 ip6)) (r : Impl) : option Impl :=
  match xs with [] => Some r | x :: xs => r ← deliver x r; deliver_all xs r end.

Definition refresh_sockets (a : A) (r : Impl) : Impl := r <| watch := (updateSockets (ares_getsock a) (watch r)).1 |>.

(** On the loop's thread. *)
Definition resolve (cb : nat) (port : Z) (r : Impl) : option Impl :=
  match channel_ r with
  | None => Some (r <| called := called r ++ [(cb, ([], bs "resolver not initialized"))] |>)
  | Some a =>
    let q := next_query r in
    let r := r <| queries := <[q := (cb, port)]> (queries r) |> <| next_query := S q |> in
    let '(a, results) := ares_getaddrinfo a q in
    r ← deliver_all results (r <| channel_ := Some a |>);
    let r := refresh_sockets a r in
    Some (r <| timers := armTimer (ares_timeout a) (timers r) |>)
  end.

(** A socket's callback. *)
Definition ready (rfd wfd : option Z) (r : Impl) : option Impl :=
  a ← channel_ r;
  let '(a, results) := ares_process_fd a rfd wfd in
  r ← deliver_all results (r <| channel_ := Some a |>);
  Some (refresh_sockets a r).

(** Timer [k] fires. *)
Definition timer_fired (k : nat) (r : Impl) : option Impl :=
  let r := r <| timers := take k (timers r) ++ drop (S k) (timers r) |> in
  r ← ready None None r;
  a ← channel_ r;
  Some (r <| timers := armTimer (ares_timeout a) (timers r) |>).

(** ** One answer per query *)

(** The Query objects are those of the queries c-ares still works on; [asked]
    are the callbacks of all queries so far. *)
Record impl_ok (asked : list nat) (r : Impl) : Prop := {
  io_dom a : channel_ r = Some a -> pending a ≡ₚ map fst (map_to_list (queries r));
  io_none : channel_ r = None -> queries r = ∅;
  io_fresh q : is_Some (queries r !! q) -> q < next_query r;
  io_once : asked ≡ₚ map fst (called r) ++ map (fun x => fst (snd x)) (map_to_list (queries r));
}.

Lemma deliver_all_spec xs : forall r l,
  map fst (map_to_list (queries r)) ≡ₚ map fst xs ++ l ->
  exists r', deliver_all xs r = Some r' /\ map fst (map_to_list (queries r')) ≡ₚ l /\
    map fst (called r') ++ map (fun x => fst (snd x)) (map_to_list (queries r')) ≡ₚ
    map fst (called r) ++ map (fun x => fst (snd x)) (map_to_list (queries r)) /\
    queries r' ⊆ queries r /\ next_query r' = next_query r /\ channel_ r' = channel_ r.
Proof.
  induction xs as [|[q res] xs IH]; intros r l Hp; [exists r; split_and!; done|]. cbn [deliver_all map app] in *.
  assert (Hq : is_Some (queries r !! q)).
  { assert (Hin : q ∈ map fst (map_to_list (queries r))) by (rewrite Hp; by left).
    apply list_elem_of_fmap in Hin as ([q' v] & -> & Hin%elem_of_map_to_list). by eexists. }
  destruct Hq as [[cb port] Hq]. unfold deliver. simpl. rewrite Hq. simpl.
  pose proof (map_to_list_delete _ _ _ Hq) as Hd.
  match goal with |- context [deliver_all xs ?r1] => destruct (IH r1 l) as (r' & E & H1 & H2 & H3 & H4 & H5) end.
  { simpl. apply (Permutation_cons_inv (a := q)). rewrite <-Hp, <-Hd. done. }
  exists r'. split_and!; try done.
  - rewrite H2. simpl. rewrite <-Hd, map_app. simpl. by rewrite <-app_assoc.
  - etrans; [exact H3|]. simpl. apply delete_subseteq.
Qed.

Lemma deliver_impl asked xs a r :
  (forall q, is_Some (queries r !! q) -> q < next_query r) ->
  asked ≡ₚ map fst (called r) ++ map (fun x => fst (snd x)) (map_to_list (queries r)) ->
  map fst (map_to_list (queries r)) ≡ₚ map fst xs ++ pending a ->
  exists r', deliver_all xs (r <| channel_ := Some a |>) = Some r' /\ channel_ r' = Some a /\ impl_ok asked r'.
Proof.
  intros Hf Ho Hp. destruct (deliver_all_spec xs (r <| channel_ := Some a |>) (pending a)) as (r' & E & H1 & H2 & H3 & H4 & H5); [done|].
  exists r'. split_and!; [done|done|]. simpl in H4, H5. split.
  - intros a' Ha. rewrite H5 in Ha. injection Ha as <-. by rewrite H1.
  - rewrite H5. done.
  - intros q [v Hv]. rewrite H4. apply Hf. exists v. by eapply lookup_weaken.
  - by rewrite H2.
Qed.

Lemma resolve_impl asked cb port r :
  impl_ok asked r -> exists r', resolve cb port r = Some r' /\ impl_ok (cb :: asked) r'.
Proof.
  intros [H1 H2 H3 H4]. unfold resolve. destruct (channel_ r) as [a|] eqn:Ec.
  2:{ eexists. split; [done|]. split; simpl; [by rewrite Ec|by auto|done|]. rewrite map_app. simpl. rewrite H4, <-app_assoc. simpl.
      apply Permutation_middle. }
  assert (Hn : queries r !! next_query r = None).
  { destruct (queries r !! next_query r) eqn:E; [|done]. assert (next_query r < next_query r) by (apply H3; by eexists). lia. }
  pose proof (getaddrinfo_once a (next_query r)) as Hg. destruct (ares_getaddrinfo a (next_query r)) as [a' res]. simpl in Hg.
  pose proof (map_to_list_insert _ _ (cb, port) Hn) as Hi.
  destruct (deliver_impl (cb :: asked) res a' (r <| queries := <[next_query r := (cb, port)]> (queries r) |> <| next_query := S (next_query r) |>))
    as (r' & E & Hc & Hok).
  - intros q. simpl. destruct (decide (q = next_query r)) as [->|Hne]; [lia|]. rewrite lookup_insert_ne by done. intros Hq%H3. lia.
  - simpl. rewrite Hi. simpl. rewrite H4. apply Permutation_middle.
  - simpl. rewrite Hi. simpl. by rewrite <-(H1 a eq_refl).
  - rewrite E. simpl. eexists. split; [reflexivity|]. by destruct Hok as [? ? ? ?].
Qed.

Lemma ready_impl asked rfd wfd r :
  impl_ok asked r -> is_Some (channel_ r) -> exists r', ready rfd wfd r = Some r' /\ impl_ok asked r' /\ is_Some (channel_ r').
Proof.
  intros [H1 H2 H3 H4] [a Ec]. unfold ready. rewrite Ec. cbn [mbind option_bind]. pose proof (process_once a rfd wfd) as Hg.
  destruct (ares_process_fd a rfd wfd) as [a' res]. simpl in Hg. destruct (deliver_impl asked res a' r H3 H4) as (r' & E & Hc & Hok).
  { by rewrite <-(H1 a Ec). }
  rewrite E. simpl. eexists. split; [reflexivity|]. split; [by destruct Hok|]. by eexists.
Qed.

(** Resolving, ready sockets and timers; each step with the callbacks asked. *)
Inductive step : list nat * Impl -> list nat * Impl -> Prop :=
| step_resolve cb port asked r r' : resolve cb port r = Some r' -> step (asked, r) (cb :: asked, r')
| step_ready rfd wfd asked r r' : ready rfd wfd r = Some r' -> step (asked, r) (asked, r')
| step_timer k asked r r' : timer_fired k r = Some r' -> step (asked, r) (asked, r').

Definition Impl_new (channel : option A) : Impl := mkImpl channel (mkWatch ∅ EPollPoller.poller_new 0) ∅ 0 [] [].

Lemma step_impl x y : step x y -> impl_ok x.1 x.2 -> impl_ok y.1 y.2.
Proof.
  intros [cb port asked r r' E|rfd wfd asked r r' E|k asked r r' E] Hok; simpl in *.
  - destruct (resolve_impl _ cb port _ Hok) as (r1 & E1 & ?). congruence.
  - assert (Hc : is_Some (channel_ r)) by (unfold ready in E; destruct (channel_ r); [by eexists|done]).
    destruct (ready_impl _ rfd wfd _ Hok Hc) as (r1 & E1 & ? & _). congruence.
  - unfold timer_fired in E. set (r0 := r <| timers := _ |>) in E. assert (Hok0 : impl_ok asked r0) by (by destruct Hok).
    assert (Hc : is_Some (channel_ r0)) by (unfold ready in E; destruct (channel_ r0); [by eexists|done]).
    destruct (ready_impl _ None None _ Hok0 Hc) as (r1 & E1 & Hok1 & [a Ha]). rewrite E1 in E. simpl in E. rewrite Ha in E. simpl in E.
    injection E as <-. destruct Hok1 as [X1 X2 X3 X4]. rewrite Ha in X1, X2. by split.
Qed.

End impl.
Arguments Impl : clear implicits.

(** ** Concrete runs *)

(** A c-ares that keeps its queries until any call processes them. *)
#[local] Instance demo_text : InetText unit unit := {|
  ntop4 _ := []; pton4 _ := Some tt; ntop6 _ := []; pton6 _ := Some tt;
  any4 := tt; loopback4 := tt; any6 := tt; loopback6 := tt;
  pton4_ntop4 x := match x with tt => eq_refl end; pton6_ntop6 x := match x with tt => eq_refl end |}.

Definition demo_answer (q : nat) : nat * ares_result unit unit := (q, AresOk [ThreadPoolResolver.AI4 tt]).
Definition demo_process (a : list nat) (r w : option Z) : list nat * list (nat * ares_result unit unit) :=
  match r with Some _ => ([], map demo_answer a) | None => (a, []) end.
Lemma demo_process_once a r w : a ≡ₚ map fst (demo_process a r w).2 ++ (demo_process a r w).1.
Proof. destruct r; simpl; [|done]. rewrite app_nil_r, map_map. by rewrite map_id. Qed.
#[local] Instance demo_ares : AresLib unit unit (list nat) := {|
  ares_getaddrinfo a q := (q :: a, []);
  ares_process_fd := demo_process;
  ares_getsock a := match a with [] => [] | _ => [(7%Z, true, false)] end;
  ares_timeout a := match a with [] => None | _ => Some (5%Z, 0%Z) end;
  pending a := a;
  getaddrinfo_once a q := reflexivity _;
  process_once := demo_process_once |}.

Definition demo_impl (n : nat) : Impl unit unit (list nat) :=
  fold_right (fun cb r => default r (resolve cb 80 r)) (Impl_new (Some [])) (seq 0 n).


(** Every query arms a timer of its own, and each one that fires while any query
    is pending arms its successor: three queries, three timers for good. *)
Lemma timers_multiply :
  timers (demo_impl 3) = [5000%Z; 5000%Z; 5000%Z] /\
  (timers <$> (r ← timer_fired 0 (demo_impl 3); r ← timer_fired 0 r; timer_fired 0 r)) = Some [5000%Z; 5000%Z; 5000%Z].
Proof. by vm_compute. Qed.
End CaresResolver.
