(* ===== verification/TlsConnection.v ===== *)
(** * TLS connections (tls/tls_engine.cc, tls/tls_connection.cc)

    [TlsEngine] drives an OpenSSL session over two memory BIOs, [TlsConnection]
    puts it between a TCP connection and the application.  OpenSSL is the class
    [OpenSSL]: a session type with the calls the engine makes; what the pipe
    theorem relies on is the class [SecureChannel].

    Everything runs on the connection's loop, so that [forceClose] on an open
    TCP connection closes it, and calls [onTcpClose], before it returns.  The
    application's callbacks are the calls they make on the connection. *)

From stdpp Require Import list.
From S2P Require Import Prelude CStr Buffer TcpConnection.
Import TcpConnection.

(** [static_cast<int>] of a [size_t]. *)
Definition to_int (z : Z) : Z :=
  let r := (z mod 2 ^ 32)%Z in if (r <? 2 ^ 31)%Z then r else (r - 2 ^ 32)%Z.

Lemma to_int_id z : (0 <= z < 2 ^ 31)%Z -> to_int z = z.
Proof.
  intros H. unfold to_int. rewrite (Z.mod_small z) by (revert H; change (2 ^ 32)%Z with 4294967296%Z;
    change (2 ^ 31)%Z with 2147483648%Z; lia).
  by destruct (Z.ltb_spec z (2 ^ 31)); [|lia].
Qed.

(** ** OpenSSL *)
Inductive ssl_error :=
| SSL_ERROR_NONE | SSL_ERROR_WANT_READ | SSL_ERROR_WANT_WRITE | SSL_ERROR_ZERO_RETURN
| SSL_ERROR_SYSCALL | SSL_ERROR_SSL | SSL_ERROR_OTHER.

(** A call on a session: the session after it, what is left in the read BIO,
    what was appended to the write BIO, the return value, the bytes read. *)
Record call (SSL : Type) := mkCall { next : SSL; rest : bytes; out : bytes; ret : Z; plain : bytes }.
Arguments mkCall {SSL}.
Arguments next {SSL}.
Arguments rest {SSL}.
Arguments out {SSL}.
Arguments ret {SSL}.
Arguments plain {SSL}.

Class OpenSSL (SSL : Type) := {
  SSL_do_handshake : SSL -> bytes -> call SSL;
  SSL_is_init_finished : SSL -> bool;
  SSL_read : SSL -> bytes -> Z -> call SSL;
  SSL_write : SSL -> bytes -> bytes -> Z -> call SSL;
  SSL_shutdown : SSL -> bytes -> call SSL;
  SSL_get_error : SSL -> Z -> ssl_error;
  ERR_error_string : SSL -> bytes;
}.

(** ** The engine *)
Module TlsEngine.

Inductive Status := kOk | kWantIo | kClosed | kError.
#[export] Instance Status_eq_dec : EqDecision Status.
Proof. solve_decision. Defined.

Record TlsEngine (SSL : Type) := mkTlsEngine {
  ssl_ : SSL;
  rbio_ : bytes;
  wbio_ : bytes;
  last_error_ : bytes;
}.
Arguments mkTlsEngine {SSL}.
Arguments ssl_ {SSL}.
Arguments rbio_ {SSL}.
Arguments wbio_ {SSL}.
Arguments last_error_ {SSL}.
#[export] Instance TlsEngine_settable SSL : Settable (TlsEngine SSL) := fun e =>
  mkTlsEngine (ssl_ e) (rbio_ e) (wbio_ e) (last_error_ e).

(** An IPv6 literal has a colon, an IPv4 literal only digits and dots. *)
Definition looksLikeIpLiteral (host : bytes) : bool :=
  existsb (Ascii.eqb ":") host || forallb (fun c => isdigit c || Ascii.eqb c ".") host.

(** What [init] asks of a client session: the SNI name, and the name the
    certificate must match. *)
Definition client_names (server_hostname : bytes) : option bytes * option bytes :=
  if bool_decide (server_hostname = []) then (None, None)
  else (if looksLikeIpLiteral server_hostname then None else Some server_hostname, Some server_hostname).

(** [char buf\[16384\]] *)
Definition buf_size : nat := Z.to_nat 16384.
Lemma buf_size_pos : 0 < buf_size.
Proof. unfold buf_size. lia. Qed.
#[global] Opaque buf_size.

Section engine.
Context {SSL : Type} `{!OpenSSL SSL}.
Implicit Types (e : TlsEngine SSL).

Definition TlsEngine_new (s : SSL) : TlsEngine SSL := mkTlsEngine s [] [] [].

(** A call's effect on the session and the BIOs. *)
Definition after (k : call SSL) e : TlsEngine SSL :=
  e <| ssl_ := next k |> <| rbio_ := rest k |> <| wbio_ := wbio_ e ++ out k |>.

Definition feedEncrypted (data : bytes) e : nat * TlsEngine SSL :=
  if length data =? 0 then (0, e)
  else
    let n := Z.to_nat (to_int (zlen data)) in
    (n, e <| rbio_ := rbio_ e ++ take n data |>).

(** [BIO_read] in pieces of [sizeof(buf)] bytes until nothing is left. *)
Fixpoint take_loop (fuel : nat) (acc : bytes) e : bytes * TlsEngine SSL :=
  match fuel with
  | 0 => (acc, e)
  | S fuel =>
    match take buf_size (wbio_ e) with
    | [] => (acc, e)
    | piece => take_loop fuel (acc ++ piece) (e <| wbio_ := drop buf_size (wbio_ e) |>)
    end
  end.
Definition takeEncrypted e : bytes * TlsEngine SSL := take_loop (S (length (wbio_ e))) [] e.

Definition mapError (r : Z) e : Status * TlsEngine SSL :=
  match SSL_get_error (ssl_ e) r with
  | SSL_ERROR_NONE => (kOk, e)
  | SSL_ERROR_WANT_READ | SSL_ERROR_WANT_WRITE => (kWantIo, e)
  | SSL_ERROR_ZERO_RETURN => (kClosed, e)
  | _ => (kError, e <| last_error_ := bs "SSL error: " ++ ERR_error_string (ssl_ e) |>)
  end.

Definition handshake e : Status * TlsEngine SSL :=
  let k := SSL_do_handshake (ssl_ e) (rbio_ e) in
  let e := after k e in
  if (ret k =? 1)%Z then (kOk, e) else mapError (ret k) e.

Definition handshakeDone e : bool := SSL_is_init_finished (ssl_ e).

(** The status, and how many bytes were consumed. *)
Definition writePlaintext (data : bytes) e : Status * nat * TlsEngine SSL :=
  if length data =? 0 then (kOk, 0, e)
  else
    let k := SSL_write (ssl_ e) (rbio_ e) data (to_int (zlen data)) in
    let e := after k e in
    if (0 <? ret k)%Z then (kOk, Z.to_nat (ret k), e)
    else let '(s, e) := mapError (ret k) e in (s, 0, e).

(** The loop runs until [SSL_read] has nothing more. *)
Fixpoint readPlaintext (fuel : nat) (acc : bytes) e : option (Status * bytes * TlsEngine SSL) :=
  match fuel with
  | 0 => None
  | S fuel =>
    let k := SSL_read (ssl_ e) (rbio_ e) (Z.of_nat buf_size) in
    let e := after k e in
    if (0 <? ret k)%Z then readPlaintext fuel (acc ++ take (Z.to_nat (ret k)) (plain k)) e
    else
      let '(s, e) := mapError (ret k) e in
      Some (if bool_decide (s = kWantIo) then kOk else s, acc, e)
  end.

Definition engine_shutdown e : TlsEngine SSL := after (SSL_shutdown (ssl_ e) (rbio_ e)) e.
End engine.
End TlsEngine.

(** ** The connection *)
Module TlsConnection.
Import TlsEngine.

(** What a callback does with the connection. *)
Inductive conn_op := OpSend (data : bytes) | OpShutdown.

(** The callbacks that ran. *)
Inductive tls_event := EvHandshake | EvMessage (plaintext : bytes) | EvClose.

Record TlsConnection (SSL : Type) := mkTlsConnection {
  tcp_state : State;                  (* conn_->state_ *)
  wire : bytes;                       (* what conn_->send() accepted *)
  engine_ : TlsEngine SSL;
  handshake_done_ : bool;
  closed_ : bool;
  handshake_done_callback_ : option (list conn_op);
  message_callback_ : option (bytes -> list conn_op);
  close_callback_ : bool;
  events : list tls_event;            (* ghost *)
}.
Arguments mkTlsConnection {SSL}.
Arguments tcp_state {SSL}.
Arguments wire {SSL}.
Arguments engine_ {SSL}.
Arguments handshake_done_ {SSL}.
Arguments closed_ {SSL}.
Arguments handshake_done_callback_ {SSL}.
Arguments message_callback_ {SSL}.
Arguments close_callback_ {SSL}.
Arguments events {SSL}.
#[export] Instance TlsConnection_settable SSL : Settable (TlsConnection SSL) := fun c =>
  mkTlsConnection (tcp_state c) (wire c) (engine_ c) (handshake_done_ c) (closed_ c)
    (handshake_done_callback_ c) (message_callback_ c) (close_callback_ c) (events c).

Section connection.
Context {SSL : Type} `{!OpenSSL SSL}.
Implicit Types (c : TlsConnection SSL).

Definition TlsConnection_new (s : SSL) (on_handshake : option (list conn_op))
    (on_message : option (bytes -> list conn_op)) (on_close : bool) : TlsConnection SSL :=
  mkTlsConnection kConnected [] (TlsEngine_new s) false false on_handshake on_message on_close [].

Definition emit (e : tls_event) c : TlsConnection SSL := c <| events := events c ++ [e] |>.

(** The calls on the TCP connection, from its loop. *)
Definition conn_send (data : bytes) c : TlsConnection SSL :=
  if bool_decide (tcp_state c = kConnected) then c <| wire := wire c ++ data |> else c.
Definition conn_shutdown c : TlsConnection SSL :=
  if bool_decide (tcp_state c = kConnected) then c <| tcp_state := kDisconnecting |> else c.

(** The close callback may call [send] or [shutdown]; [closed_] is set, so
    that neither does anything. *)
Definition onTcpClose c : TlsConnection SSL :=
  if closed_ c then c
  else
    let c := c <| closed_ := true |> in
    if close_callback_ c then emit EvClose c else c.

(** [TcpConnection::handleClose] with the callback [start] has installed. *)
Definition conn_handleClose c : TlsConnection SSL := onTcpClose (c <| tcp_state := kDisconnected |>).
Definition conn_forceClose c : TlsConnection SSL :=
  if bool_decide (tcp_state c = kConnected) || bool_decide (tcp_state c = kDisconnecting)
  then conn_handleClose c else c.

Definition flushOutbound c : TlsConnection SSL :=
  let '(enc, e) := takeEncrypted (engine_ c) in
  let c := c <| engine_ := e |> in
  if length enc =? 0 then c else conn_send enc c.

(** The loop of [send] from [offset] on; [None]: still looping. *)
Fixpoint send_loop (fuel : nat) (data : bytes) (offset : nat) c : option (TlsConnection SSL) :=
  match fuel with
  | 0 => None
  | S fuel =>
    if offset <? length data then
      let '(s, consumed, e) := writePlaintext (drop offset data) (engine_ c) in
      let c := c <| engine_ := e |> in
      match s with
      | kOk => send_loop fuel data (offset + consumed) (flushOutbound c)
      | kWantIo => send_loop fuel data offset (flushOutbound c)
      | _ => Some (conn_forceClose c)
      end
    else Some c
  end.

Definition send (fuel : nat) (data : bytes) c : option (TlsConnection SSL) :=
  if negb (handshake_done_ c) || closed_ c then Some c else send_loop fuel data 0 c.

Definition shutdown c : TlsConnection SSL :=
  if closed_ c then c
  else conn_shutdown (flushOutbound (c <| engine_ := engine_shutdown (engine_ c) |>)).

Definition do_op (fuel : nat) (op : conn_op) c : option (TlsConnection SSL) :=
  match op with OpSend data => send fuel data c | OpShutdown => Some (shutdown c) end.

Fixpoint run_ops (fuel : nat) (ops : list conn_op) c : option (TlsConnection SSL) :=
  match ops with
  | [] => Some c
  | op :: ops => c ← do_op fuel op c; run_ops fuel ops c
  end.

Definition driveHandshake (fuel : nat) c : option (TlsConnection SSL) :=
  if handshake_done_ c || closed_ c then Some c
  else
    let '(s, e) := handshake (engine_ c) in
    let c := flushOutbound (c <| engine_ := e |>) in
    if bool_decide (s = kError) then Some (conn_forceClose c)
    else if handshakeDone (engine_ c) then
      let c := c <| handshake_done_ := true |> in
      match handshake_done_callback_ c with
      | Some ops => run_ops fuel ops (emit EvHandshake c)
      | None => Some c
      end
    else Some c.

Definition start (fuel : nat) c : option (TlsConnection SSL) := driveHandshake fuel c.

(** The bytes that arrived are in the TCP connection's input buffer. *)
Definition feed (buf : Buffer.Buffer) c : TlsConnection SSL * Buffer.Buffer :=
  let n := Buffer.readableBytes buf in
  if 0 <? n then
    (c <| engine_ := (feedEncrypted (Buffer.content buf) (engine_ c)).2 |>, Buffer.retrieve n buf)
  else (c, buf).

(** The application data that can be decrypted now, and what it means when the
    stream ends. *)
Definition deliver (fuel : nat) c : option (TlsConnection SSL) :=
  '(s, plaintext, e) ← readPlaintext fuel [] (engine_ c);
  let c := flushOutbound (c <| engine_ := e |>) in
  c ← match plaintext, message_callback_ c with
      | _ :: _, Some cb => run_ops fuel (cb plaintext) (emit (EvMessage plaintext) c)
      | _, _ => Some c
      end;
  Some match s with
       | kClosed => conn_shutdown c
       | kError => conn_forceClose c
       | _ => c
       end.

Definition onTcpMessage (fuel : nat) (buf : Buffer.Buffer) c : option (TlsConnection SSL * Buffer.Buffer) :=
  let '(c, buf) := feed buf c in
  if negb (handshake_done_ c) then
    c ← driveHandshake fuel c;
    if negb (handshake_done_ c) then Some (c, buf)
    else c ← deliver fuel c; Some (c, buf)
  else c ← deliver fuel c; Some (c, buf).

(** The life of a connection: [start] once, then what the loop and the
    application do with it, while the TCP connection reports events. *)
Inductive step : TlsConnection SSL -> TlsConnection SSL -> Prop :=
| step_message fuel buf c c' buf' :
    tcp_state c <> kDisconnected -> onTcpMessage fuel buf c = Some (c', buf') -> step c c'
| step_close c : tcp_state c <> kDisconnected -> step c (conn_handleClose c)
| step_op fuel op c c' : do_op fuel op c = Some c' -> step c c'.
End connection.

(** ** The library's lemmas *)
Section lemmas.
Context {SSL : Type} `{!OpenSSL SSL}.
Implicit Types (c : TlsConnection SSL) (e : TlsEngine SSL).

Lemma take_loop_all fuel acc e :
  length (wbio_ e) < fuel -> take_loop fuel acc e = (acc ++ wbio_ e, e <| wbio_ := [] |>).
Proof.
  revert acc e. induction fuel as [|fuel IH]; intros acc e Hf; [lia|]. cbn [take_loop].
  destruct (wbio_ e) as [|x w] eqn:E.
  - rewrite take_nil, app_nil_r. destruct e. simpl in E. by subst.
  - pose proof buf_size_pos as Hb. destruct (take buf_size (x :: w)) as [|y piece] eqn:Hp.
    { pose proof (length_take (x :: w) buf_size) as Hl. rewrite Hp in Hl. simpl in Hl. lia. }
    rewrite IH; simpl.
    + by rewrite <-app_assoc, <-Hp, take_drop.
    + rewrite length_drop. simpl in Hf |- *. lia.
Qed.

Lemma takeEncrypted_all e : takeEncrypted e = (wbio_ e, e <| wbio_ := [] |>).
Proof. unfold takeEncrypted. by rewrite take_loop_all by lia. Qed.

(** Flushing empties the write BIO onto the wire. *)
Lemma flush_connected c :
  tcp_state c = kConnected ->
  flushOutbound c = c <| engine_ := (engine_ c) <| wbio_ := [] |> |> <| wire := wire c ++ wbio_ (engine_ c) |>.
Proof.
  intros Hs. unfold flushOutbound. rewrite takeEncrypted_all. destruct (wbio_ (engine_ c)) as [|x w] eqn:E; simpl.
  - rewrite app_nil_r. by destruct c.
  - unfold conn_send. simpl. by rewrite Hs.
Qed.

(** ** Callbacks

    What the callbacks have seen: [EvHandshake] first if that callback is set,
    and then non-empty messages and at most one close. *)
Definition after_handshake (ev : tls_event) : Prop :=
  match ev with EvHandshake | EvMessage [] => False | _ => True end.
Definition is_close (ev : tls_event) : bool := match ev with EvClose => true | _ => false end.
Definition closes (l : list tls_event) : nat := length (List.filter is_close l).
Definition handshake_log c : list tls_event :=
  match handshake_done_callback_ c with Some _ => [EvHandshake] | None => [] end.

Record log_ok c : Prop := {
  log_closes : closes (events c) = if closed_ c && close_callback_ c then 1 else 0;
  log_before : handshake_done_ c = false -> Forall (fun ev => ev = EvClose) (events c);
  log_after : handshake_done_ c = true ->
    exists l, events c = handshake_log c ++ l /\ Forall after_handshake l;
}.

(** A change of the engine, the wire or the TCP state is none of the log. *)
Lemma log_ok_same c c' :
  log_ok c -> events c' = events c -> closed_ c' = closed_ c -> close_callback_ c' = close_callback_ c ->
  handshake_done_ c' = handshake_done_ c -> handshake_done_callback_ c' = handshake_done_callback_ c -> log_ok c'.
Proof.
  intros [] H1 H2 H3 H4 H5. unfold handshake_log in *.
  split; unfold handshake_log; rewrite ?H1, ?H2, ?H3, ?H4, ?H5; auto.
Qed.

Lemma closes_app l k : closes (l ++ k) = closes l + closes k.
Proof. unfold closes. by rewrite List.filter_app, length_app. Qed.

Lemma log_ok_onTcpClose c : log_ok c -> log_ok (onTcpClose c).
Proof.
  intros [H1 H2 H3]. unfold onTcpClose. destruct (closed_ c) eqn:Hc; [by split; rewrite ?Hc|]. simpl in *.
  destruct (close_callback_ c) eqn:Hk; (split; simpl; rewrite ?Hk, ?Hc; simpl; [|auto|]).
  - by rewrite closes_app, H1.
  - intros Hd. apply Forall_app. by split; [apply H2|constructor].
  - intros (l & -> & Hl)%H3. exists (l ++ [EvClose]). rewrite app_assoc. split; [done|].
    apply Forall_app. by split; [|constructor].
  - done.
  - auto.
Qed.

Lemma log_ok_handleClose c : log_ok c -> log_ok (conn_handleClose c).
Proof. intros H. apply log_ok_onTcpClose. by eapply log_ok_same. Qed.

Lemma log_ok_forceClose c : log_ok c -> log_ok (conn_forceClose c).
Proof. intros H. unfold conn_forceClose. case_match; [by apply log_ok_handleClose|done]. Qed.

Lemma log_ok_conn_shutdown c : log_ok c -> log_ok (conn_shutdown c).
Proof. intros H. unfold conn_shutdown. case_match; [by eapply log_ok_same|done]. Qed.

Lemma flush_log c : events (flushOutbound c) = events c /\ closed_ (flushOutbound c) = closed_ c /\
  close_callback_ (flushOutbound c) = close_callback_ c /\ handshake_done_ (flushOutbound c) = handshake_done_ c /\
  handshake_done_callback_ (flushOutbound c) = handshake_done_callback_ c.
Proof. unfold flushOutbound, conn_send. by repeat case_match. Qed.

Lemma log_ok_flush e c : log_ok c -> log_ok (flushOutbound (c <| engine_ := e |>)).
Proof.
  intros H. destruct (flush_log (c <| engine_ := e |>)) as (H1 & H2 & H3 & H4 & H5). by eapply log_ok_same.
Qed.

Lemma log_ok_send_loop fuel data offset c c' : log_ok c -> send_loop fuel data offset c = Some c' -> log_ok c'.
Proof.
  revert offset c. induction fuel as [|fuel IH]; intros offset c H; [done|]. simpl.
  case_match; [|by intros <-%(inj Some)]. destruct (writePlaintext _ _) as [[s k] e]. destruct s.
  - apply IH. by apply log_ok_flush.
  - apply IH. by apply log_ok_flush.
  - intros <-%(inj Some). apply log_ok_forceClose. by eapply log_ok_same.
  - intros <-%(inj Some). apply log_ok_forceClose. by eapply log_ok_same.
Qed.

Lemma log_ok_do_op fuel op c c' : log_ok c -> do_op fuel op c = Some c' -> log_ok c'.
Proof.
  intros H. destruct op as [data|]; simpl.
  - unfold send. case_match; [by intros <-%(inj Some)|by apply log_ok_send_loop].
  - intros <-%(inj Some). unfold shutdown. case_match; [done|]. by apply log_ok_conn_shutdown, log_ok_flush.
Qed.

Lemma log_ok_run_ops fuel ops c c' : log_ok c -> run_ops fuel ops c = Some c' -> log_ok c'.
Proof.
  revert c. induction ops as [|op ops IH]; intros c H; simpl; [by intros <-%(inj Some)|].
  intros (c1 & H1 & H2)%bind_Some. eapply IH; [|exact H2]. by eapply log_ok_do_op.
Qed.

Lemma log_ok_driveHandshake fuel c c' :
  log_ok c -> (closed_ c = false -> handshake_done_ c = false -> events c = []) ->
  driveHandshake fuel c = Some c' -> log_ok c'.
Proof.
  intros H He. unfold driveHandshake. destruct (handshake_done_ c || closed_ c) eqn:Hd; [by intros <-%(inj Some)|].
  apply orb_false_iff in Hd as [Hd Hc]. specialize (He Hc Hd). destruct (handshake _) as [s e].
  pose proof (log_ok_flush e c H) as Hf. cbv zeta.
  destruct (bool_decide (s = kError)); [intros <-%(inj Some); exact (log_ok_forceClose _ Hf)|].
  destruct (handshakeDone _); [|intros <-%(inj Some); exact Hf].
  destruct (flush_log (c <| engine_ := e |>)) as (E1 & E2 & E3 & _).
  revert Hf E1 E2 E3. generalize (flushOutbound (c <| engine_ := e |>)). simpl. rewrite He, Hc.
  intros c1 Hf E1 E2 E3. destruct (handshake_done_callback_ c1) as [ops|] eqn:Hcb.
  - apply log_ok_run_ops. split; simpl; rewrite ?E1, ?E2; try done.
    intros _. by exists [];  split.
  - intros <-%(inj Some). split; simpl; rewrite ?E1, ?E2; try done.
    intros _. by exists [];  split.
Qed.

Lemma log_ok_message x pt c : log_ok c -> handshake_done_ c = true -> log_ok (emit (EvMessage (x :: pt)) c).
Proof.
  intros [F1 F2 F3] Hd. split; simpl.
  - by rewrite closes_app, F1, Nat.add_0_r.
  - congruence.
  - intros Hh. destruct (F3 Hh) as (l & -> & Hl). exists (l ++ [EvMessage (x :: pt)]).
    rewrite app_assoc. split; [done|]. apply Forall_app. by split; [|constructor].
Qed.

Lemma log_ok_deliver fuel c c' :
  log_ok c -> handshake_done_ c = true -> deliver fuel c = Some c' -> log_ok c'.
Proof.
  intros H Hd. unfold deliver. intros ([[s pt] e] & _ & (c1 & H1 & <-%(inj Some))%bind_Some)%bind_Some.
  pose proof (log_ok_flush e c H) as Hf. destruct (flush_log (c <| engine_ := e |>)) as (_ & _ & _ & E4 & _).
  assert (E : handshake_done_ (flushOutbound (c <| engine_ := e |>)) = true) by (rewrite E4; exact Hd).
  clear E4. revert Hf E H1. generalize (flushOutbound (c <| engine_ := e |>)).
  intros c0 Hf E H1. assert (Hc1 : log_ok c1).
  { destruct pt as [|x pt]; [by apply (inj Some) in H1 as <-|]. destruct (message_callback_ c0) as [cb|]; [|by apply (inj Some) in H1 as <-].
    eapply log_ok_run_ops; [|exact H1]. by apply log_ok_message. }
  destruct s; auto using log_ok_conn_shutdown, log_ok_forceClose.
Qed.

(** Nothing was logged before the handshake while the connection is open. *)
Lemma log_open c : log_ok c -> closed_ c = false -> handshake_done_ c = false -> events c = [].
Proof.
  intros [H1 H2 _] Hc Hd. specialize (H2 Hd). rewrite Hc in H1. simpl in H1.
  destruct (events c) as [|ev l]; [done|]. apply Forall_cons in H2 as [-> _]. done.
Qed.

Lemma log_ok_onTcpMessage fuel buf c c' buf' :
  log_ok c -> onTcpMessage fuel buf c = Some (c', buf') -> log_ok c'.
Proof.
  intros H. unfold onTcpMessage. destruct (feed buf c) as [c0 buf0] eqn:Ef.
  assert (H0 : log_ok c0) by (unfold feed in Ef; case_match; simplify_eq; [by eapply log_ok_same|done]).
  destruct (handshake_done_ c0) eqn:Hd; simpl.
  - intros (c1 & H1 & [<- <-]%(inj Some)%pair_equal_spec)%bind_Some. by eapply log_ok_deliver.
  - intros (c1 & H1 & H2)%bind_Some. pose proof (log_ok_driveHandshake _ _ _ H0 (log_open _ H0) H1) as Hc1.
    destruct (handshake_done_ c1) eqn:Hd1; simpl in H2; [|by simplify_eq].
    apply bind_Some in H2 as (c2 & H2 & [<- <-]%(inj Some)%pair_equal_spec). by eapply log_ok_deliver.
Qed.

Lemma step_log_ok c c' : log_ok c -> step c c' -> log_ok c'.
Proof.
  intros H Hs. destruct Hs.
  - by eapply log_ok_onTcpMessage.
  - by apply log_ok_handleClose.
  - by eapply log_ok_do_op.
Qed.

(** C17: whatever the peer and OpenSSL do, and whatever the callbacks call, the
    handshake callback runs at most once and before any message, no message is
    delivered before the handshake is complete or is empty, and the close
    callback runs at most once, exactly when the connection has closed. *)
Theorem tls_callbacks s on_handshake on_message on_close fuel c0 c :
  start fuel (TlsConnection_new s on_handshake on_message on_close) = Some c0 -> rtc step c0 c ->
  closes (events c) = (if closed_ c && close_callback_ c then 1 else 0) /\
  (if handshake_done_ c
   then exists l, events c = handshake_log c ++ l /\ Forall after_handshake l
   else Forall (fun ev => ev = EvClose) (events c)).
Proof.
  intros H0 Hr. assert (H : log_ok c).
  { eapply (rtc_ind_r log_ok); [|intros y z _ Hs Hy; by eapply step_log_ok|exact Hr].
    refine (log_ok_driveHandshake _ _ _ _ _ H0); [|done]. split; [reflexivity|constructor|discriminate]. }
  destruct H as [H1 H2 H3]. split; [done|]. destruct (handshake_done_ c); auto.
Qed.

(** ** [send] can spin

    [SSL_write] that asks for input from the peer is retried at once, and no
    input can arrive while [send] runs. *)
Section spin.
Context (P : SSL -> Prop).
Hypothesis P_write : forall s rb data n, P s ->
  let k := SSL_write s rb data n in
  P (next k) /\ (ret k <= 0)%Z /\ SSL_get_error (next k) (ret k) = SSL_ERROR_WANT_READ.

Lemma flush_session c : ssl_ (engine_ (flushOutbound c)) = ssl_ (engine_ c).
Proof. unfold flushOutbound, conn_send. rewrite takeEncrypted_all. by repeat case_match. Qed.

Lemma send_loop_spins fuel data c :
  P (ssl_ (engine_ c)) -> data <> [] -> send_loop fuel data 0 c = None.
Proof.
  intros HP Hd. revert c HP. induction fuel as [|fuel IH]; intros c HP; [done|]. simpl.
  destruct (length data) as [|n] eqn:El; [by destruct data|]. simpl. rewrite drop_0.
  unfold writePlaintext. rewrite El. simpl.
  destruct (P_write (ssl_ (engine_ c)) (rbio_ (engine_ c)) data (to_int (zlen data)) HP) as (H1 & H2 & H3).
  destruct (Z.ltb_spec 0 (ret (SSL_write (ssl_ (engine_ c)) (rbio_ (engine_ c)) data (to_int (zlen data))))); [lia|].
  unfold mapError. simpl. rewrite H3. apply IH. by rewrite flush_session.
Qed.

(** If the session's [SSL_write] needs input from the peer first,
    [TlsConnection::send] never returns: it holds the loop thread, and with it
    the input it waits for. *)
Theorem send_spins fuel data c :
  handshake_done_ c = true -> closed_ c = false -> P (ssl_ (engine_ c)) -> data <> [] -> send fuel data c = None.
Proof. intros H1 H2 HP Hd. unfold send. rewrite H1, H2. by apply send_loop_spins. Qed.
End spin.
End lemmas.

(** ** The pipe

    [chan s cipher r plain]: an established session [s] that writes to [r],
    with [cipher] on its way and [plain] not read yet.  A write takes some of
    the data and puts it, as ciphertext, behind what is on its way; a read
    takes plaintext from the front, or asks for more input, and does so only
    when the ciphertext it was given holds no complete record.  Memory BIOs
    accept every write, so that a write never asks to be retried. *)
Class SecureChannel (SSL : Type) `{!OpenSSL SSL} := {
  chan : SSL -> bytes -> SSL -> bytes -> Prop;
  chan_write s c r p rb data n : chan s c r p -> zlen data = n -> (0 < n < 2 ^ 31)%Z ->
    let k := SSL_write s rb data n in
    (0 < ret k <= n)%Z /\ out k <> [] /\ chan (next k) (c ++ out k) r (p ++ take (Z.to_nat (ret k)) data);
  chan_read s b t r p : chan s (b ++ t) r p ->
    let k := SSL_read r b (Z.of_nat buf_size) in
    ((0 < ret k)%Z /\ exists p', p = take (Z.to_nat (ret k)) (plain k) ++ p' /\ length p' < length p /\
       chan s (rest k ++ t) (next k) p') \/
    ((ret k <= 0)%Z /\ SSL_get_error (next k) (ret k) = SSL_ERROR_WANT_READ /\
       chan s (rest k ++ t) (next k) p /\ (t = [] -> p = []));
}.

Section pipe.
Context {SSL : Type} `{!OpenSSL SSL} `{!SecureChannel SSL}.
Implicit Types (w r : TlsConnection SSL).

(** A writer, a reader with its TCP input buffer, and how much of the writer's
    wire has arrived. *)
Record Pipe := mkPipe { writer : TlsConnection SSL; reader : TlsConnection SSL; input : Buffer.Buffer; arrived : nat }.

Inductive pipe_op := Send (data : bytes) | Arrive (n : nat).

(** TCP hands over the next [n] bytes in flight, or what there is. *)
Definition pipe_step (fuel : nat) (op : pipe_op) (p : Pipe) : option Pipe :=
  match op with
  | Send data => w ← send fuel data (writer p); Some (mkPipe w (reader p) (input p) (arrived p))
  | Arrive n =>
    let segment := take n (drop (arrived p) (wire (writer p))) in
    '(r, buf) ← onTcpMessage fuel (Buffer.append segment (input p)) (reader p);
    Some (mkPipe (writer p) r buf (arrived p + length segment))
  end.

Fixpoint pipe_run (fuel : nat) (ops : list pipe_op) (p : Pipe) : option Pipe :=
  match ops with [] => Some p | op :: ops => p ← pipe_step fuel op p; pipe_run fuel ops p end.

Fixpoint data_sent (ops : list pipe_op) : bytes :=
  match ops with [] => [] | Send data :: ops => data ++ data_sent ops | Arrive _ :: ops => data_sent ops end.

(** What the reader's message callback was given. *)
Definition received r : bytes := concat (map (fun ev => match ev with EvMessage pt => pt | _ => [] end) (events r)).

Definition int_sized (op : pipe_op) : Prop :=
  match op with Send data => (zlen data < 2 ^ 31)%Z | Arrive n => (Z.of_nat n < 2 ^ 31)%Z end.

(** Both ends established, the reader's application only listening. *)
Record writes w : Prop := {
  w_open : tcp_state w = kConnected;
  w_done : handshake_done_ w = true;
  w_closed : closed_ w = false;
  w_flushed : wbio_ (engine_ w) = [];
}.
Record listens r : Prop := {
  r_done : handshake_done_ r = true;
  r_message : message_callback_ r = Some (fun _ => []);
}.

(** [todo]: sent and not delivered yet. *)
Record piped (sent todo : bytes) (p : Pipe) : Prop := {
  pipe_writer : writes (writer p);
  pipe_reader : listens (reader p);
  pipe_buf : Buffer.buffer_wf (input p) /\ Buffer.content (input p) = [];
  pipe_arrived : arrived p <= length (wire (writer p));
  pipe_chan : chan (ssl_ (engine_ (writer p)))
                (rbio_ (engine_ (reader p)) ++ drop (arrived p) (wire (writer p)))
                (ssl_ (engine_ (reader p))) todo;
  pipe_sent : sent = received (reader p) ++ todo;
  pipe_drained : arrived p = length (wire (writer p)) -> todo = [];
}.

(** One turn of the write loop. *)
Lemma send_turn w c x p data offset :
  writes w -> chan (ssl_ (engine_ w)) c x p -> offset < length data -> (zlen data < 2 ^ 31)%Z ->
  exists n w' o, 0 < n /\ o <> [] /\ offset + n <= length data /\ writes w' /\ wire w' = wire w ++ o /\
    chan (ssl_ (engine_ w')) (c ++ o) x (p ++ take n (drop offset data)) /\
    forall fuel, send_loop (S fuel) data offset w = send_loop fuel data (offset + n) w'.
Proof.
  intros [W1 W2 W3 W4] Hc Ho Hd. assert (Hlen : length (drop offset data) = length data - offset) by apply length_drop.
  assert (Hz : to_int (zlen (drop offset data)) = zlen (drop offset data)).
  { apply to_int_id. unfold zlen in *. rewrite Hlen. lia. }
  destruct (chan_write _ c x p (rbio_ (engine_ w)) (drop offset data) _ Hc eq_refl) as (H1 & H2 & H3).
  { unfold zlen in *. rewrite Hlen. lia. }
  set (k := SSL_write (ssl_ (engine_ w)) (rbio_ (engine_ w)) (drop offset data) (zlen (drop offset data))) in *.
  exists (Z.to_nat (ret k)), (flushOutbound (w <| engine_ := after k (engine_ w) |>)), (out k).
  rewrite flush_connected by done. unfold zlen in H1. rewrite Hlen in H1. simpl. rewrite W4.
  repeat split; try done; try lia. intros fuel. cbn [send_loop].
  destruct (Nat.ltb_spec offset (length data)); [|lia]. unfold writePlaintext. rewrite Hz, Hlen.
  destruct (Nat.eqb_spec (length data - offset) 0); [lia|]. fold k.
  destruct (Z.ltb_spec 0 (ret k)); [|lia]. rewrite flush_connected by done. simpl. by rewrite W4.
Qed.

Lemma send_loop_ok fuel w c x p data offset :
  writes w -> chan (ssl_ (engine_ w)) c x p -> offset <= length data -> (zlen data < 2 ^ 31)%Z ->
  length data - offset < fuel ->
  exists w' o, send_loop fuel data offset w = Some w' /\ writes w' /\ wire w' = wire w ++ o /\
    chan (ssl_ (engine_ w')) (c ++ o) x (p ++ drop offset data) /\ (o = [] -> drop offset data = []).
Proof.
  revert w c p offset. induction fuel as [|fuel IH]; intros w c p offset Hw Hc Ho Hd Hf; [lia|].
  destruct (decide (offset = length data)) as [->|Hne].
  - exists w, []. cbn [send_loop]. rewrite Nat.ltb_irrefl, drop_all, !app_nil_r. done.
  - destruct (send_turn w c x p data offset) as (n & w1 & o1 & Hn & Ho1 & Hle & Hw1 & Hwire & Hc1 & Hloop); try done; [lia|].
    destruct (IH w1 (c ++ o1) (p ++ take n (drop offset data)) (offset + n)) as (w2 & o2 & H1 & H2 & H3 & H4 & H5);
      try done; try lia.
    exists w2, (o1 ++ o2). rewrite Hloop, H3, Hwire, <-!app_assoc. split_and!; try done.
    + rewrite <-!app_assoc, <-drop_drop, take_drop in H4. done.
    + intros [-> _]%app_nil. done.
Qed.

Lemma read_ok fuel acc s t e p :
  chan s (rbio_ e ++ t) (ssl_ e) p -> length p < fuel ->
  exists got p' e', readPlaintext fuel acc e = Some (kOk, acc ++ got, e') /\ p = got ++ p' /\
    chan s (rbio_ e' ++ t) (ssl_ e') p' /\ (t = [] -> p' = []).
Proof.
  revert acc e p. induction fuel as [|fuel IH]; intros acc e p Hc Hf; [lia|]. cbn [readPlaintext].
  destruct (chan_read s (rbio_ e) t (ssl_ e) p Hc) as [(Hr & p1 & -> & Hl & Hc1)|(Hr & He & Hc1 & Hp)].
  - destruct (Z.ltb_spec 0 (ret (SSL_read (ssl_ e) (rbio_ e) (Z.of_nat buf_size)))); [|lia].
    set (k := SSL_read _ _ _) in *. set (x := take (Z.to_nat (ret k)) (plain k)) in *.
    destruct (IH (acc ++ x) (after k e) p1) as (got & p2 & e2 & H1 & -> & H3 & H4); [done|lia|].
    exists (x ++ got), p2, e2. rewrite H1, <-!app_assoc. done.
  - destruct (Z.ltb_spec 0 (ret (SSL_read (ssl_ e) (rbio_ e) (Z.of_nat buf_size)))); [lia|].
    set (k := SSL_read _ _ _) in *. exists [], p, (after k e). unfold mapError. cbn [ssl_ after] in *.
    change (ssl_ (after k e)) with (next k). rewrite He, app_nil_r. done.
Qed.

(** What flushing leaves alone. *)
Lemma flush_reader (c : TlsConnection SSL) :
  let c' := flushOutbound c in
  ssl_ (engine_ c') = ssl_ (engine_ c) /\ rbio_ (engine_ c') = rbio_ (engine_ c) /\ events c' = events c /\
  handshake_done_ c' = handshake_done_ c /\ message_callback_ c' = message_callback_ c.
Proof. unfold flushOutbound, conn_send. rewrite takeEncrypted_all. by repeat case_match. Qed.

Lemma deliver_ok fuel s t (r : TlsConnection SSL) p :
  listens r -> chan s (rbio_ (engine_ r) ++ t) (ssl_ (engine_ r)) p -> length p < fuel ->
  exists got p' r', deliver fuel r = Some r' /\ listens r' /\ received r' = received r ++ got /\ p = got ++ p' /\
    chan s (rbio_ (engine_ r') ++ t) (ssl_ (engine_ r')) p' /\ (t = [] -> p' = []).
Proof.
  intros [R1 R2] Hc Hf. destruct (read_ok fuel [] s t (engine_ r) p Hc Hf) as (got & p' & e' & H1 & -> & H3 & H4).
  unfold deliver. rewrite H1. cbv beta iota zeta delta [mbind option_bind].
  destruct (flush_reader (r <| engine_ := e' |>)) as (F1 & F2 & F3 & F4 & F5).
  change (engine_ (r <| engine_ := e' |>)) with e' in *. change (events (r <| engine_ := e' |>)) with (events r) in *.
  change (handshake_done_ (r <| engine_ := e' |>)) with (handshake_done_ r) in *.
  change (message_callback_ (r <| engine_ := e' |>)) with (message_callback_ r) in *.
  revert F1 F2 F3 F4 F5. generalize (flushOutbound (r <| engine_ := e' |>)). intros c F1 F2 F3 F4 F5.
  exists got, p'. rewrite F5, R2. destruct got as [|x got]; simpl.
  - exists c. unfold received. rewrite F1, F2, F3, app_nil_r. split_and!; try done. by split; congruence.
  - exists (emit (EvMessage (x :: got)) c). split_and!; try done.
    + split; simpl; congruence.
    + unfold received. simpl. rewrite F3, map_app, concat_app. simpl. by rewrite app_nil_r.
    + simpl. by rewrite F1, F2.
Qed.

(** The bytes that arrived are all fed to the session. *)
Lemma feed_all segment buf (r : TlsConnection SSL) :
  Buffer.buffer_wf buf -> Buffer.content buf = [] -> (zlen segment < 2 ^ 31)%Z ->
  exists buf', feed (Buffer.append segment buf) r =
    (r <| engine_ := (engine_ r) <| rbio_ := rbio_ (engine_ r) ++ segment |> |>, buf') /\
  Buffer.buffer_wf buf' /\ Buffer.content buf' = [].
Proof.
  intros Hwf Hb Hs. destruct (Buffer.append_spec segment buf Hwf) as [Hwf1 Hc1]. rewrite Hb in Hc1. simpl in Hc1.
  pose proof (Buffer.length_content _ Hwf1) as Hl. rewrite Hc1 in Hl. unfold feed. rewrite <-Hl, Hc1.
  destruct (Nat.ltb_spec 0 (length segment)) as [Hp|Hp].
  - destruct (Buffer.retrieve_spec (length segment) _ Hwf1 ltac:(lia)) as [Hwf2 Hc2].
    rewrite Hc1, drop_all in Hc2. eexists. split; [|by split]. f_equal. unfold feedEncrypted.
    destruct (Nat.eqb_spec (length segment) 0); [lia|]. simpl.
    rewrite to_int_id by (unfold zlen in *; lia). unfold zlen. by rewrite Nat2Z.id, firstn_all.
  - eexists. split; [|by split; [done|rewrite Hc1; destruct segment; [|simpl in Hp; lia]]].
    destruct segment as [|]; [|simpl in Hp; lia]. rewrite app_nil_r. by destruct r as [? ? []].
Qed.

Lemma pipe_send fuel data sent todo p :
  piped sent todo p -> (zlen data < 2 ^ 31)%Z -> length data < fuel ->
  exists p', pipe_step fuel (Send data) p = Some p' /\ piped (sent ++ data) (todo ++ data) p'.
Proof.
  intros [Hw Hr Hb Ha Hc Hs Hd] Hz Hf. pose proof Hw as [W1 W2 W3 W4]. cbn [pipe_step]. unfold send. rewrite W2, W3. simpl.
  destruct (send_loop_ok fuel _ _ _ _ data 0 Hw Hc ltac:(lia) Hz ltac:(lia)) as (w' & o & H1 & H2 & H3 & H4 & H5).
  rewrite H1. simpl. eexists. split; [done|]. rewrite drop_0 in *. split; simpl; try done.
  - rewrite H3, length_app. lia.
  - rewrite H3, drop_app_le by done. by rewrite app_assoc.
  - by rewrite Hs, app_assoc.
  - rewrite H3, length_app. intros He. assert (o = []) as Ho by (destruct o; [done|simpl in He; lia]).
    rewrite (H5 Ho), app_nil_r. apply Hd. subst o. simpl in He. lia.
Qed.

Lemma pipe_arrive fuel n sent todo p :
  piped sent todo p -> (Z.of_nat n < 2 ^ 31)%Z -> length todo < fuel ->
  exists p' todo', pipe_step fuel (Arrive n) p = Some p' /\ piped sent todo' p' /\ length todo' <= length todo.
Proof.
  intros [Hw [R1 R2] [Hb1 Hb2] Ha Hc Hs Hd] Hz Hf. cbn [pipe_step].
  set (t := drop (arrived p) (wire (writer p))) in *. set (segment := take n t).
  assert (Hseg : (zlen segment < 2 ^ 31)%Z) by (unfold zlen, segment; rewrite length_take; lia).
  destruct (feed_all segment (input p) (reader p) Hb1 Hb2 Hseg) as (buf' & Hfeed & Hwf' & Hc').
  unfold onTcpMessage. rewrite Hfeed.
  set (r := (reader p) <| engine_ := (engine_ (reader p)) <| rbio_ := rbio_ (engine_ (reader p)) ++ segment |> |>).
  destruct (deliver_ok fuel (ssl_ (engine_ (writer p))) (drop n t) r todo) as (got & todo' & r' & H1 & H2 & H3 & -> & H5 & H6).
  { by split. }
  { simpl. rewrite <-app_assoc. unfold segment. by rewrite take_drop. }
  { done. }
  assert (Hdone : handshake_done_ r = true) by exact R1. rewrite Hdone, H1. simpl.
  assert (Hdrop : drop (arrived p + length segment) (wire (writer p)) = drop n t).
  { rewrite <-drop_drop. fold t. unfold segment. rewrite length_take. destruct (Nat.le_gt_cases n (length t)).
    - by rewrite Nat.min_l by done.
    - by rewrite Nat.min_r, !drop_ge by lia. }
  assert (Hle : length segment <= length t) by (unfold segment; rewrite length_take; lia).
  unfold t in Hle at 1. rewrite length_drop in Hle. eexists _, todo'. split_and!; [done| |rewrite length_app; lia].
  split; simpl; try done.
  - lia.
  - by rewrite Hdrop.
  - rewrite H3, Hs, <-app_assoc. done.
  - intros He. apply H6. rewrite <-Hdrop, drop_ge by lia. done.
Qed.

Lemma pipe_run_ok fuel ops sent todo p :
  piped sent todo p -> Forall int_sized ops -> length todo + length (data_sent ops) < fuel ->
  exists p' todo', pipe_run fuel ops p = Some p' /\ piped (sent ++ data_sent ops) todo' p'.
Proof.
  revert sent todo p. induction ops as [|op ops IH]; intros sent todo p Hp Hops Hf.
  - exists p, todo. simpl. by rewrite app_nil_r.
  - apply Forall_cons in Hops as [Hop Hops]. destruct op as [data|n]; cbn [data_sent pipe_run] in *.
    + rewrite length_app in Hf. destruct (pipe_send fuel data sent todo p Hp Hop ltac:(lia)) as (p1 & H1 & H2).
      rewrite H1. simpl. destruct (IH _ _ _ H2 Hops) as (p2 & t2 & H3 & H4); [rewrite length_app; lia|].
      exists p2, t2. by rewrite H3, app_assoc.
    + destruct (pipe_arrive fuel n sent todo p Hp Hop ltac:(lia)) as (p1 & t1 & H1 & H2 & Hl).
      rewrite H1. simpl. apply (IH _ t1); [done..|lia].
Qed.

(** C16: a TLS connection is a transparent byte pipe.  Between established
    ends, however the writer's data is cut into calls of [send], OpenSSL into
    records, and TCP into segments, the writer's and the reader's code return,
    and the reader's application has been given a prefix of what was sent, in
    order and once, and all of it once every byte of the wire has arrived. *)
Theorem tls_pipe_transparent fuel ops p :
  piped [] [] p -> Forall int_sized ops -> length (data_sent ops) < fuel ->
  exists p', pipe_run fuel ops p = Some p' /\ received (reader p') `prefix_of` data_sent ops /\
    (arrived p' = length (wire (writer p')) -> received (reader p') = data_sent ops).
Proof.
  intros Hp Hops Hf. destruct (pipe_run_ok fuel ops [] [] p Hp Hops Hf) as (p' & todo & H1 & [_ _ _ _ _ Hs Hd]).
  exists p'. simpl in Hs. split_and!; [done|by exists todo|]. intros Ha. by rewrite Hs, (Hd Ha), app_nil_r.
Qed.
End pipe.

(** ** A session to run

    [Plain] sends every byte as a record of two bytes, one record a call;
    [Waiting] never gets to write. *)
Inductive demo_ssl := Plain | Waiting.
Definition demo_mark : ascii := "T".

#[export] Instance demo_openssl : OpenSSL demo_ssl := {
  SSL_do_handshake s rb := mkCall s rb [] 1%Z [];
  SSL_is_init_finished s := true;
  SSL_read s rb n :=
    match rb with
    | _ :: b :: rb' => mkCall s rb' [] 1%Z [b]
    | _ => mkCall s rb [] (-1)%Z []
    end;
  SSL_write s rb data n :=
    match s, data with
    | Plain, b :: _ => mkCall s rb [demo_mark; b] 1%Z []
    | _, _ => mkCall s rb [] (-1)%Z []
    end;
  SSL_shutdown s rb := mkCall s rb [] 0%Z [];
  SSL_get_error s r := SSL_ERROR_WANT_READ;
  ERR_error_string s := [];
}.

Definition demo_records (p : bytes) : bytes := concat (map (fun b => [demo_mark; b]) p).

#[export] Program Instance demo_channel : SecureChannel demo_ssl := {
  chan s c r p := s = Plain /\ c = demo_records p;
}.
Next Obligation.
  intros s c r p rb data n [-> ->] Hn Hr. destruct data as [|b data]; [unfold zlen in Hn; simpl in Hn; lia|]. simpl.
  split_and!; [lia|lia|done|done|]. unfold demo_records. by rewrite map_app, concat_app.
Qed.
Next Obligation.
  intros s b t r p [-> Hc]. destruct b as [|m [|x b]]; simpl.
  - right. split_and!; try done. intros ->. by destruct p.
  - right. split_and!; try done. intros ->. by destruct p.
  - left. split; [done|]. destruct p as [|y p]; [done|]. injection Hc as -> -> Hc.
    exists p. split_and!; try done. simpl. lia.
Qed.

Definition demo_end (s : demo_ssl) : TlsConnection demo_ssl :=
  default (TlsConnection_new s None None false)
    (start 1 (TlsConnection_new s (Some []) (Some (fun _ => [])) true)).
Definition demo_pipe : Pipe := mkPipe (demo_end Plain) (demo_end Plain) (Buffer.Buffer_new 16) 0.
Definition demo_ops : list pipe_op :=
  [Send (bs "hel"); Arrive 3; Send (bs "lo"); Arrive 100; Arrive 1].

Lemma demo_piped : piped [] [] demo_pipe.
Proof.
  split; try done.
  - split; apply Buffer.new_wf || apply Buffer.new_content.
Qed.

Lemma tls_pipe_transparent_witness :
  exists p', pipe_run 6 demo_ops demo_pipe = Some p' /\ received (reader p') `prefix_of` bs "hello" /\
    (arrived p' = length (wire (writer p')) -> received (reader p') = bs "hello").
Proof.
  apply (tls_pipe_transparent 6 demo_ops demo_pipe demo_piped).
  - repeat constructor.
  - simpl. lia.
Defined.

(** ... and in that run everything arrives. *)
Lemma demo_pipe_received : (fun p => received (reader p)) <$> pipe_run 6 demo_ops demo_pipe = Some (bs "hello").
Proof. vm_compute. reflexivity. Qed.

Lemma send_spins_witness : send 1000 (bs "x") (demo_end Waiting) = None.
Proof.
  apply (send_spins (fun s => s = Waiting)); try reflexivity; [|discriminate].
  intros s rb data n ->. split_and!; try reflexivity. discriminate.
Defined.

(** A connection that receives one record and is closed. *)
Definition demo_message : TlsConnection demo_ssl :=
  match onTcpMessage 5 (Buffer.append (demo_records (bs "a")) (Buffer.Buffer_new 16)) (demo_end Plain) with
  | Some (c, _) => c
  | None => demo_end Plain
  end.

Lemma tls_callbacks_witness :
  events (conn_handleClose demo_message) = [EvHandshake; EvMessage (bs "a"); EvClose] /\
  closes (events (conn_handleClose demo_message)) = 1.
Proof.
  split; [vm_compute; reflexivity|].
  apply (tls_callbacks Plain (Some []) (Some (fun _ => [])) true 1 (demo_end Plain)); [reflexivity|].
  eapply rtc_l; [eapply (step_message 5 (Buffer.append (demo_records (bs "a")) (Buffer.Buffer_new 16)));
    [discriminate|vm_compute; reflexivity]|].
  apply rtc_once. apply step_close. discriminate.
Defined.
End TlsConnection.
