(* ===== verification/ConnectionPool.v ===== *)
(** * The client's connection pool (http/connection_pool.h, http/connection_pool.cc)

    [PooledConn] is one connection with its parser and the callback of the
    request in flight; [ConnectionPool] models the pool's [Impl].  Requests are
    known by numbers; a response callback is the number of its request.
    Connections are known by their index in [conns]: the pool's vectors hold
    indices where the code holds shared pointers.

    Everything runs on one loop.  The peer's bytes, connection events, resolver
    answers, timer ticks and clock readings are the arguments of the steps.  A
    response callback may issue further requests: [app] says which. *)

From stdpp Require Import gmap.
From S2P Require Import Prelude StdMap CStr Buffer Incremental Url HttpMessage ResponseParser.
Import HttpResponse.

(** ** One pooled connection *)
Module PooledConn.

Record PooledConn := mkPooledConn {
  conn_ : bool;                         (* connected *)
  tls_conn_ : bool;
  in_buf_ : Buffer.Buffer;              (* unparsed input *)
  parser_ : ResponseParser.ResponseParser;
  callback_ : option nat;
  last_used_ : Z;
  ready_ : bool;
  busy_ : bool;
  done_ : bool;
  wire : bytes;                         (* what start() sent *)
  shut : bool;                          (* close() was called *)
}.
#[export] Instance PooledConn_settable : Settable PooledConn := fun c =>
  mkPooledConn (conn_ c) (tls_conn_ c) (in_buf_ c) (parser_ c) (callback_ c) (last_used_ c) (ready_ c)
    (busy_ c) (done_ c) (wire c) (shut c).

Definition PooledConn_new : PooledConn :=
  mkPooledConn false false (Buffer.Buffer_new Buffer.kInitialSize) ResponseParser.reset None 0 false false false
    [] false.

(** [start]: the request goes out with [Connection: keep-alive]. *)
Definition start (host : bytes) (req : HttpRequest.HttpRequest) (cb : nat) (c : PooledConn) : PooledConn :=
  let c := c <| busy_ := true |> <| done_ := false |> <| parser_ := ResponseParser.reset |>
             <| callback_ := Some cb |> in
  let r := HttpRequest.addHeader (bs "Connection") (bs "keep-alive") req in
  let out := HttpRequest.appendTo r host (Buffer.Buffer_new Buffer.kInitialSize) in
  let bytes_out := (Buffer.retrieveAllAsString out).1 in
  if conn_ c then c <| wire := wire c ++ bytes_out |> else c.

Definition close (c : PooledConn) : PooledConn := if conn_ c then c <| shut := true |> else c.

Definition takeCallback (c : PooledConn) : option nat * PooledConn := (callback_ c, c <| callback_ := None |>).

(** Does the response ask to close?  The lookup is by the exact name. *)
Definition server_keep_alive (resp : HttpResponse) : bool :=
  negb (bool_decide (toLower (header (bs "Connection") resp) = bs "close")).

(** What [consume] finds in the buffer. *)
Inductive consumed :=
| Malformed                         (* the parser failed *)
| Incomplete
| Complete (resp : HttpResponse).

Definition parse_input (data : bytes) (c : PooledConn) : consumed * PooledConn :=
  let '(ok, p, buf) := ResponseParser.parse (parser_ c) (Buffer.append data (in_buf_ c)) in
  let c := c <| parser_ := p |> <| in_buf_ := buf |> in
  if ok then
    if ResponseParser.gotAll p then (Complete (ResponseParser.response_ p), c) else (Incomplete, c)
  else (Malformed, c).

(** A completed response frees the connection. *)
Definition finish (now : Z) (c : PooledConn) : PooledConn :=
  c <| parser_ := ResponseParser.reset |> <| busy_ := false |> <| done_ := true |> <| last_used_ := now |>.
End PooledConn.

(** ** The pool *)
Module ConnectionPool.
Import PooledConn.

Definition Pending : Type := HttpRequest.HttpRequest * nat.

(** What a response callback is given. *)
Inductive outcome := Response (r : HttpResponse) | Failed (error : bytes).

Record Impl := mkImpl {
  host_ : bytes;
  uses_tls : bool;
  max_connections_ : nat;
  idle_timeout_s_ : Z;
  conns : list PooledConn;
  idle_ : list nat;
  busy : list nat;                        (* busy_ of the pool *)
  connecting_ : list nat;
  pending_ : gmap nat Pending;
  queue_ : list Pending;
  resolved_ : bool;
  resolving_ : bool;
  waiting_on_dns_ : list Pending;
  eviction_timer_armed_ : bool;
  (* ghost: the life of requests *)
  issued : list nat;
  completed : list (nat * outcome);
  dropped : list nat;                     (* erased with their connection *)
  overwritten : list nat;                 (* replaced while in flight *)
}.
#[export] Instance Impl_settable : Settable Impl := fun p =>
  mkImpl (host_ p) (uses_tls p) (max_connections_ p) (idle_timeout_s_ p) (conns p) (idle_ p) (busy p)
    (connecting_ p) (pending_ p) (queue_ p) (resolved_ p) (resolving_ p) (waiting_on_dns_ p)
    (eviction_timer_armed_ p) (issued p) (completed p) (dropped p) (overwritten p).

(** A numeric origin is resolved from the start, a host name is not. *)
Definition Impl_new (host : bytes) (tls : bool) (max : nat) (idle_s : Z) (resolved : bool) : Impl :=
  mkImpl host tls max idle_s [] [] [] [] ∅ [] resolved false [] false [] [] [] [].

(** The repeating eviction timer is armed by the constructor and cancelled by
    the destructor. *)
Definition startEviction (p : Impl) : Impl := p <| eviction_timer_armed_ := true |>.
Definition stopEviction (p : Impl) : Impl :=
  if eviction_timer_armed_ p then p <| eviction_timer_armed_ := false |> else p.

(** The facade's constructors: for an address, and for a host name, which is
    also the [Host] value unless one is given. *)
Definition ConnectionPool_new (host_header : bytes) (tls : bool) (max : nat) (idle_s : Z) : Impl :=
  startEviction (Impl_new host_header tls max idle_s true).
Definition ConnectionPool_new_dns (host host_header : bytes) (tls : bool) (max : nat) (idle_s : Z) : Impl :=
  startEviction (Impl_new (if bool_decide (host_header = []) then host else host_header) tls max idle_s false).

Definition idleCount (p : Impl) : nat := length (idle_ p).
Definition busyCount (p : Impl) : nat := length (busy p).
Definition total (p : Impl) : nat := length (idle_ p) + length (busy p) + length (connecting_ p).
Definition queued (p : Impl) : nat := length (queue_ p) + length (waiting_on_dns_ p).

(** The first occurrence goes. *)
Fixpoint removeFrom (v : list nat) (c : nat) : list nat :=
  match v with
  | [] => []
  | x :: v' => if x =? c then v' else x :: removeFrom v' c
  end.

Definition set_conn (i : nat) (f : PooledConn -> PooledConn) (p : Impl) : Impl :=
  match conns p !! i with Some c => p <| conns := <[i := f c]> (conns p) |> | None => p end.

(** [c->start(req, cb)]; a callback still in flight is lost. *)
Definition start_on (i : nat) (r : Pending) (p : Impl) : Impl :=
  match conns p !! i with
  | Some c =>
    p <| conns := <[i := start (host_ p) r.1 r.2 c]> (conns p) |>
      <| overwritten := overwritten p ++ option_list (callback_ c) |>
  | None => p
  end.

(** Open a connection for a request. *)
Definition open_conn (r : Pending) (p : Impl) : Impl :=
  let i := length (conns p) in
  p <| conns := conns p ++ [PooledConn_new] |> <| connecting_ := connecting_ p ++ [i] |>
    <| pending_ := <[i := r]> (pending_ p) |>.

(** Reuse, open, or queue. *)
Definition dispatch (r : Pending) (p : Impl) : Impl :=
  match last (idle_ p) with
  | Some i => start_on i r (p <| idle_ := removelast (idle_ p) |> <| busy := busy p ++ [i] |>)
  | None =>
    if total p <? max_connections_ p then open_conn r p
    else p <| queue_ := queue_ p ++ [r] |>
  end.

Definition startResolveOnce (p : Impl) : Impl := if resolving_ p then p else p <| resolving_ := true |>.

Definition request (r : Pending) (p : Impl) : Impl :=
  let p := p <| issued := issued p ++ [r.2] |> in
  if resolved_ p then dispatch r p
  else startResolveOnce (p <| waiting_on_dns_ := waiting_on_dns_ p ++ [r] |>).

Definition onReady (i : nat) (p : Impl) : Impl :=
  let p := p <| connecting_ := removeFrom (connecting_ p) i |> in
  match pending_ p !! i with
  | Some r => start_on i r (p <| busy := busy p ++ [i] |> <| pending_ := delete i (pending_ p) |>)
  | None => p <| idle_ := idle_ p ++ [i] |>
  end.

Definition onFree (i : nat) (p : Impl) : Impl :=
  let p := p <| busy := removeFrom (busy p) i |> in
  match queue_ p with
  | r :: q => start_on i r (p <| queue_ := q |> <| busy := busy p ++ [i] |>)
  | [] => p <| idle_ := idle_ p ++ [i] |>
  end.

(** The request waiting for connection [i], if any. *)
Definition pend_id (m : gmap nat Pending) (i : nat) : list nat :=
  match m !! i with Some r => [r.2] | None => [] end.

Definition onClosed (i : nat) (p : Impl) : Impl :=
  let p := p <| idle_ := removeFrom (idle_ p) i |> <| busy := removeFrom (busy p) i |>
             <| connecting_ := removeFrom (connecting_ p) i |>
             <| dropped := dropped p ++ pend_id (pending_ p) i |>
             <| pending_ := delete i (pending_ p) |> in
  match queue_ p with
  | r :: q => if total p <? max_connections_ p then open_conn r (p <| queue_ := q |>) else p
  | [] => p
  end.

(** Idle for longer than the timeout; the difference is unsigned. *)
Definition expired (now : Z) (timeout_s : Z) (c : PooledConn) : bool :=
  (timeout_s * 1000 <? wrap64 (now - last_used_ c) / 1000)%Z.

Definition expired_at (now : Z) (p : Impl) (i : nat) : bool :=
  match conns p !! i with Some c => expired now (idle_timeout_s_ p) c | None => false end.

Definition evictIdle (now : Z) (p : Impl) : Impl :=
  let to_close := filter (fun i => expired_at now p i = true) (idle_ p) in
  fold_left (fun p i => set_conn i close (p <| idle_ := removeFrom (idle_ p) i |>)) to_close p.

Section events.
Context (app : nat -> outcome -> list Pending).

(** [cb(resp, error)]: the callback runs, and may issue requests. *)
Definition complete (cb : option nat) (o : outcome) (p : Impl) : Impl :=
  match cb with
  | None => p
  | Some id => fold_left (fun p r => request r p) (app id o) (p <| completed := completed p ++ [(id, o)] |>)
  end.

(** The resolver answers: addresses, or an error message. *)
Definition onResolved (ok : bool) (err : bytes) (p : Impl) : Impl :=
  let waiting := waiting_on_dns_ p in
  let p := p <| resolving_ := false |> <| waiting_on_dns_ := [] |> in
  if ok then fold_left (fun p r => dispatch r p) waiting (p <| resolved_ := true |>)
  else fold_left (fun p r => complete (Some r.2) (Failed (bs "DNS resolution failed: " ++ err)) p) waiting p.

(** The TCP connection is up; with TLS the handshake starts. *)
Definition conn_up (i : nat) (now : Z) (p : Impl) : Impl :=
  let p := set_conn i (fun c => c <| conn_ := true |> <| last_used_ := now |>) p in
  if uses_tls p then set_conn i (fun c => c <| tls_conn_ := true |>) p
  else onReady i (set_conn i (fun c => c <| ready_ := true |>) p).

Definition handshake_done (i : nat) (now : Z) (p : Impl) : Impl :=
  onReady i (set_conn i (fun c => c <| ready_ := true |> <| last_used_ := now |>) p).

(** What a broken connection means for the request on it. *)
Definition broken_outcome (c : PooledConn) : outcome :=
  let parser := ResponseParser.onEof (parser_ c) in
  if ResponseParser.gotAll parser then Response (ResponseParser.response_ parser)
  else Failed (bs "connection closed before response").

(** [PooledConn::onConnection] on a connection that is gone: the request in
    flight, if any, is answered. *)
Definition conn_down (i : nat) (p : Impl) : Impl :=
  match conns p !! i with
  | None => p
  | Some c =>
    let c1 := c <| ready_ := false |> <| conn_ := false |> <| tls_conn_ := false |> in
    let p := if busy_ c1 && negb (done_ c1) then
               let '(cb, c2) := takeCallback (c1 <| busy_ := false |> <| done_ := true |>) in
               let c3 := c2 <| parser_ := ResponseParser.onEof (parser_ c2) |> in
               complete cb (broken_outcome c) (p <| conns := <[i := c3]> (conns p) |>)
             else p <| conns := <[i := c1]> (conns p) |> in
    onClosed i p
  end.

(** The TCP connection closes.  Its connection callback is [conn_down] only
    without TLS: [TlsConnection::start] has replaced it by [onTcpClose], whose
    [close_callback_] the pool never sets. *)
Definition tcp_closed (i : nat) (p : Impl) : Impl :=
  match conns p !! i with
  | None => p
  | Some c => if tls_conn_ c then p else conn_down i p
  end.

(** [consume]: bytes arrived on the connection. *)
Definition consume (i : nat) (data : bytes) (now : Z) (p : Impl) : Impl :=
  match conns p !! i with
  | None => p
  | Some c =>
    match parse_input data c with
    | (Malformed, c1) =>
      let '(cb, c2) := takeCallback c1 in
      set_conn i close (complete cb (Failed (bs "malformed response")) (p <| conns := <[i := c2]> (conns p) |>))
    | (Incomplete, c1) => p <| conns := <[i := c1]> (conns p) |>
    | (Complete resp, c1) =>
      let '(cb, c2) := takeCallback (finish now c1) in
      let p := p <| conns := <[i := c2]> (conns p) |> in
      let p := if server_keep_alive resp then onFree i p else set_conn i close p in
      complete cb (Response resp) p
    end
  end.

(** The steps of the loop.  [well] holds of the peers that send no response
    nobody asked for. *)
Inductive step (well : bool) : Impl -> Impl -> Prop :=
| step_request r p : step well p (request r p)
| step_resolved ok err p : resolving_ p = true -> step well p (onResolved ok err p)
| step_up i now p : i ∈ connecting_ p -> step well p (conn_up i now p)
| step_handshake i now p : i ∈ connecting_ p -> step well p (handshake_done i now p)
| step_down i p : step well p (tcp_closed i p)
| step_data i data now p :
    (well = true -> forall c resp c1, conns p !! i = Some c -> parse_input data c = (Complete resp, c1) ->
       server_keep_alive resp = true -> callback_ c <> None) ->
    step well p (consume i data now p)
| step_evict now p : eviction_timer_armed_ p = true -> step well p (evictIdle now p)
| step_stop p : step well p (stopEviction p).
End events.

(** ** Every request is somewhere

    [owes p l]: all requests issued so far are accounted for, except those of
    [l], which the running code holds in its hands. *)
Definition ids (l : list Pending) : list nat := map snd l.
#[global] Arguments ids l : simpl never.
Lemma ids_app l k : ids (l ++ k) = ids l ++ ids k.
Proof. apply map_app. Qed.
Lemma ids_cons r l : ids (r :: l) = r.2 :: ids l.
Proof. done. Qed.
Lemma ids_nil : ids [] = [].
Proof. done. Qed.
Definition inflight (cs : list PooledConn) : list nat := concat (map (fun c => option_list (callback_ c)) cs).
Definition pend_ids (m : gmap nat Pending) : list nat := map (fun kr => kr.2.2) (map_to_list m).
#[global] Arguments inflight cs : simpl never.
#[global] Arguments pend_ids m : simpl never.

Definition held (p : Impl) : list nat :=
  map fst (completed p) ++ dropped p ++ overwritten p ++ ids (waiting_on_dns_ p) ++ ids (queue_ p) ++
  pend_ids (pending_ p) ++ inflight (conns p).

Definition members (p : Impl) : list nat := idle_ p ++ busy p ++ connecting_ p.

Definition valid (p : Impl) : Prop :=
  (forall i, i ∈ members p -> i < length (conns p)) /\
  (forall i, is_Some (pending_ p !! i) -> i < length (conns p)).

Definition owes (p : Impl) (l : list nat) : Prop :=
  valid p /\ forall x, occ x (issued p) = occ x (held p) + occ x l.

Create Rewrite HintDb occ.
Create Rewrite HintDb pool_max.
#[local] Hint Rewrite occ_app @map_app ids_app ids_cons ids_nil occ_nil : occ.
Ltac occ_split := repeat match goal with
  | |- context [occ ?x (?y :: ?l)] => lazymatch l with [] => fail | _ => rewrite (occ_cons x y l) end
  end.
Ltac occ_solve := intros; unfold held in *; simpl; autorewrite with occ; occ_split; autorewrite with occ; simpl; lia.

Lemma occ_inflight x cs i c c' :
  cs !! i = Some c ->
  occ x (inflight (<[i := c']> cs)) + occ x (option_list (callback_ c)) =
  occ x (inflight cs) + occ x (option_list (callback_ c')).
Proof.
  intros Hi. destruct (concat_map_insert (fun c => option_list (callback_ c)) i c cs Hi) as (rest & H1 & H2).
  unfold inflight. rewrite (occ_perm _ _ _ H1), (occ_perm _ _ _ (H2 c')), !occ_app. lia.
Qed.

Lemma occ_pend_insert x (m : gmap nat Pending) i (r : Pending) :
  m !! i = None -> occ x (pend_ids (<[i := r]> m)) = occ x [r.2] + occ x (pend_ids m).
Proof.
  intros Hi. rewrite <-occ_cons. apply occ_perm. unfold pend_ids.
  by rewrite (map_to_list_insert m i r Hi).
Qed.

Lemma pend_id_Some (m : gmap nat Pending) i r : m !! i = Some r -> pend_id m i = [r.2].
Proof. intros E. unfold pend_id. by rewrite E. Qed.

Lemma occ_pend_delete x (m : gmap nat Pending) i :
  occ x (pend_ids m) = occ x (pend_id m i) + occ x (pend_ids (delete i m)).
Proof.
  unfold pend_id.  destruct (m !! i) as [r|] eqn:E; simpl.
  - rewrite <-occ_cons. apply occ_perm. unfold pend_ids.
    by rewrite <-(map_to_list_delete m i r E).
  - by rewrite delete_id.
Qed.

Lemma owes_mono p l p' l' :
  owes p l -> valid p' -> (forall x, occ x (issued p') + occ x (held p) + occ x l = occ x (issued p) + occ x (held p') + occ x l') ->
  owes p' l'.
Proof. intros [_ Ho] Hv Hx. split; [done|]. intros x. specialize (Ho x). specialize (Hx x). lia. Qed.

(** Changing a connection's record. *)
Lemma owes_conn i c c' p l :
  owes p (option_list (callback_ c') ++ l) -> conns p !! i = Some c ->
  owes (p <| conns := <[i := c']> (conns p) |>) (option_list (callback_ c) ++ l).
Proof.
  intros Ho Hi. eapply owes_mono; [exact Ho| |].
  - destruct Ho as [[H1 H2] _]. split; simpl; intros j; rewrite length_insert; auto.
  - intros x. pose proof (occ_inflight x (conns p) i c c' Hi). occ_solve.
Qed.

Lemma owes_start_on i (r : Pending) p l : owes p (r.2 :: l) -> i < length (conns p) -> owes (start_on i r p) l.
Proof.
  intros Ho Hi. unfold start_on. destruct (conns p !! i) as [c|] eqn:E; [|apply lookup_ge_None in E; lia].
  assert (Hcb : callback_ (start (host_ p) r.1 r.2 c) = Some r.2) by (unfold start; by destruct (conn_ _)).
  pose proof (owes_conn i c (start (host_ p) r.1 r.2 c) p l) as H1. rewrite Hcb in H1.
  eapply owes_mono; [by apply H1|destruct (H1 Ho E) as [[? ?] _]; by split|]. occ_solve.
Qed.

Lemma owes_open_conn (r : Pending) p l : owes p (r.2 :: l) -> owes (open_conn r p) l.
Proof.
  intros Ho. pose proof Ho as [[H1 H2] _]. unfold open_conn.
  assert (Hf : pending_ p !! length (conns p) = None).
  { destruct (pending_ p !! length (conns p)) eqn:E; [|done]. specialize (H2 (length (conns p))). rewrite E in H2.
    specialize (H2 ltac:(eauto)). lia. }
  eapply owes_mono; [exact Ho| |].
  - split; simpl; rewrite length_app; simpl.
    + intros i Hi. unfold members in *. simpl in Hi. rewrite !elem_of_app, list_elem_of_singleton in Hi.
      destruct Hi as [Hi|[Hi|[Hi| ->]]]; [..|lia]; specialize (H1 i ltac:(rewrite !elem_of_app; tauto)); lia.
    + intros i [r' [[<- _]|[_ Hr]]%lookup_insert_Some]; [lia|]. specialize (H2 i ltac:(eauto)). lia.
  - intros x. unfold held. simpl. rewrite !occ_app, (occ_pend_insert x _ _ r Hf), (occ_cons x r.2 l).
    assert (Hn : occ x (inflight (conns p ++ [PooledConn_new])) = occ x (inflight (conns p))).
    { unfold inflight. by rewrite map_app, concat_app, app_nil_r. }
    rewrite Hn. lia.
Qed.

(** The pool's lists may lose members or gain known connections. *)
Lemma owes_weaken p l p' l' :
  owes p l ->
  (forall i, i ∈ members p' -> i ∈ members p \/ i < length (conns p)) ->
  (forall i, is_Some (pending_ p' !! i) -> is_Some (pending_ p !! i)) ->
  length (conns p') = length (conns p) ->
  (forall x, occ x (issued p') + occ x (held p) + occ x l = occ x (issued p) + occ x (held p') + occ x l') ->
  owes p' l'.
Proof.
  intros Ho Hm Hpe Hl Hx. eapply owes_mono; [exact Ho| |exact Hx]. destruct Ho as [[H1 H2] _].
  split; rewrite Hl; [|by auto]. intros i [Hi|]%Hm; auto.
Qed.

Lemma removeFrom_sub v c i : i ∈ removeFrom v c -> i ∈ v.
Proof.
  induction v as [|x v IH]; simpl; [done|]. destruct (x =? c); [by right|].
  rewrite !elem_of_cons. naive_solver.
Qed.

Lemma last_split {A} (l : list A) x : last l = Some x -> l = removelast l ++ [x].
Proof. intros [k ->]%last_Some. by rewrite removelast_last. Qed.

Lemma elem_of_members i p : i ∈ members p <-> i ∈ idle_ p \/ i ∈ busy p \/ i ∈ connecting_ p.
Proof. unfold members. by rewrite !elem_of_app. Qed.

Ltac members_solve := intros; rewrite ?elem_of_members in *; simpl in *;
  rewrite ?elem_of_app, ?list_elem_of_singleton in *; naive_solver eauto using removeFrom_sub.

Lemma owes_lt p l i : owes p l -> i ∈ idle_ p \/ i ∈ busy p \/ i ∈ connecting_ p -> i < length (conns p).
Proof. intros [[H1 _] _] Hi. apply H1. by rewrite elem_of_members. Qed.

Lemma owes_dispatch (r : Pending) p l : owes p (r.2 :: l) -> owes (dispatch r p) l.
Proof.
  intros Ho. unfold dispatch. destruct (last (idle_ p)) as [i|] eqn:E.
  - assert (Hi : i < length (conns p)) by (eapply owes_lt; [exact Ho|left; by eapply last_Some_elem_of]).
    apply owes_start_on; [|done]. apply last_split in E.
    eapply owes_weaken; [exact Ho|..]; [|done..]. intros j. rewrite !elem_of_members. simpl.
    rewrite E at 2. members_solve.
  - case_match; [by apply owes_open_conn|]. eapply owes_weaken; [exact Ho|members_solve|done|done|]. occ_solve.
Qed.

Lemma owes_request (r : Pending) p l : owes p l -> owes (request r p) l.
Proof.
  intros Ho. unfold request, startResolveOnce. destruct (resolved_ p) eqn:E; simpl; rewrite E.
  - apply owes_dispatch. eapply owes_weaken; [exact Ho|members_solve|done|done|]. occ_solve.
  - case_match; (eapply owes_weaken; [exact Ho|members_solve|done|done|]; occ_solve).
Qed.

(** Running over a list of requests in hand. *)
Lemma owes_fold (f : Impl -> Pending -> Impl) (give : Pending -> list nat) rs p l :
  (forall p r l, owes p (give r ++ l) -> owes (f p r) l) ->
  owes p (concat (map give rs) ++ l) -> owes (fold_left f rs p) l.
Proof.
  intros Hf. revert p. induction rs as [|r rs IH]; intros p Ho; simpl; [done|].
  apply IH, Hf. by rewrite app_assoc.
Qed.

Lemma owes_set_conn i f p l : (forall c, callback_ (f c) = callback_ c) -> owes p l -> owes (set_conn i f p) l.
Proof.
  intros Hf Ho. unfold set_conn. destruct (conns p !! i) as [c|] eqn:E; [|done].
  pose proof (occ_inflight) as Hx. eapply owes_weaken; [exact Ho|members_solve|done|apply length_insert|].
  intros x. specialize (Hx x (conns p) i c (f c) E). rewrite (Hf c) in Hx. occ_solve.
Qed.

Lemma owes_onReady i p l : i ∈ connecting_ p -> owes p l -> owes (onReady i p) l.
Proof.
  intros Hi Ho. pose proof (owes_lt _ _ i Ho ltac:(auto)) as Hlt. unfold onReady. simpl.
  destruct (pending_ p !! i) as [r|] eqn:E.
  - apply owes_start_on; [|done].
    eapply owes_weaken; [exact Ho|members_solve| |done|]; simpl.
    + intros j [? [_ Hj]%lookup_delete_Some]. eauto.
    + intros x. pose proof (occ_pend_delete x (pending_ p) i) as Hx. rewrite (pend_id_Some _ _ r E) in Hx.
      occ_solve.
  - eapply owes_weaken; [exact Ho|members_solve|done|done|occ_solve].
Qed.

Lemma owes_onFree i p l : i < length (conns p) -> owes p l -> owes (onFree i p) l.
Proof.
  intros Hlt Ho. unfold onFree. simpl. destruct (queue_ p) as [|r q] eqn:E.
  - eapply owes_weaken; [exact Ho|members_solve|done|done|]. unfold held. rewrite E. occ_solve.
  - apply owes_start_on; [|done].
    eapply owes_weaken; [exact Ho|members_solve|done|done|]. unfold held. rewrite E. occ_solve.
Qed.

Lemma owes_onClosed i p l : owes p l -> owes (onClosed i p) l.
Proof.
  intros Ho. unfold onClosed.
  set (p1 := p <| idle_ := _ |> <| busy := _ |> <| connecting_ := _ |> <| dropped := _ |> <| pending_ := _ |>).
  assert (H1 : owes p1 l).
  { eapply owes_weaken; [exact Ho|members_solve| |done|]; simpl.
    - intros j [? [_ Hj]%lookup_delete_Some]. eauto.
    - intros x. pose proof (occ_pend_delete x (pending_ p) i) as Hx. occ_solve. }
  destruct (queue_ p1) as [|r q] eqn:E; [done|]. case_match; [|done].
  apply owes_open_conn. eapply owes_weaken; [exact H1|members_solve|done|done|]. unfold held. rewrite E. occ_solve.
Qed.

Lemma owes_evictIdle now p l : owes p l -> owes (evictIdle now p) l.
Proof.
  intros Ho. unfold evictIdle. generalize (filter (fun i => expired_at now p i = true) (idle_ p)). intros v.
  revert p Ho. induction v as [|i v IH]; intros p Ho; simpl; [done|].
  apply IH, owes_set_conn; [intros c; unfold close; by destruct (conn_ c)|].
  eapply owes_weaken; [exact Ho|members_solve|done|done|occ_solve].
Qed.

Section accounting.
Context (app : nat -> outcome -> list Pending).

Lemma owes_complete cb o p l : owes p (option_list cb ++ l) -> owes (complete app cb o p) l.
Proof.
  destruct cb as [id|]; [|done]. simpl. intros Ho.
  apply (owes_fold _ (fun _ => [])); [intros; by apply owes_request|].
  replace (concat _) with (@nil nat) by (induction (app id o); done). 
  eapply owes_weaken; [exact Ho|members_solve|done|done|occ_solve].
Qed.

Lemma owes_onResolved ok err p l : owes p l -> owes (onResolved app ok err p) l.
Proof.
  intros Ho. unfold onResolved.
  assert (Hc : concat (map (fun r : Pending => [r.2]) (waiting_on_dns_ p)) = ids (waiting_on_dns_ p)).
  { induction (waiting_on_dns_ p) as [|r w IH]; [done|]. simpl. by rewrite ids_cons, IH. }
  destruct ok; apply (owes_fold _ (fun r => [r.2])); try (intros; by apply owes_dispatch);
    try (intros; by apply owes_complete); rewrite Hc;
    (eapply owes_weaken; [exact Ho|members_solve|done|done|occ_solve]).
Qed.

Lemma owes_conn_up i now p l : i ∈ connecting_ p -> owes p l -> owes (conn_up i now p) l.
Proof.
  intros Hi Ho. assert (Hc : forall f q, connecting_ (set_conn i f q) = connecting_ q).
  { intros f q. unfold set_conn. by destruct (conns q !! i). }
  unfold conn_up. case_match; [by repeat apply owes_set_conn|].
  apply owes_onReady; [by rewrite !Hc|by repeat apply owes_set_conn].
Qed.

Lemma owes_conn_down i p l : owes p l -> owes (conn_down app i p) l.
Proof.
  intros Ho. unfold conn_down. destruct (conns p !! i) as [c|] eqn:E; [|done].
  apply owes_onClosed. case_match; simpl.
  - apply owes_complete, (owes_conn i c); [|done]. done.
  - apply (owes_set_conn i (fun c => c <| ready_ := false |> <| conn_ := false |> <| tls_conn_ := false |>)) in Ho; [|done].
    unfold set_conn in Ho. by rewrite E in Ho.
Qed.

Lemma owes_tcp_closed i p l : owes p l -> owes (tcp_closed app i p) l.
Proof. intros Ho. unfold tcp_closed. repeat case_match; [done|by apply owes_conn_down|done]. Qed.

Lemma parse_input_callback data c o c' : parse_input data c = (o, c') -> callback_ c' = callback_ c.
Proof. unfold parse_input. repeat case_match; intros [= <- <-]; done. Qed.

Lemma owes_consume i data now p l : owes p l -> owes (consume app i data now p) l.
Proof.
  intros Ho. unfold consume. destruct (conns p !! i) as [c|] eqn:E; [|done].
  pose proof (lookup_lt_Some _ _ _ E) as Hlt.
  assert (Hclose : forall p l, owes p l -> owes (set_conn i close p) l).
  { intros. apply owes_set_conn; [|done]. intros c'. unfold close. by destruct (conn_ c'). }
  destruct (parse_input data c) as [o c1] eqn:Ep. pose proof (parse_input_callback _ _ _ _ Ep) as Hcb.
  assert (Htake : forall c2, callback_ c2 = None ->
    owes (p <| conns := <[i := c2]> (conns p) |>) (option_list (callback_ c1) ++ l)).
  { intros c2 H2. rewrite Hcb. apply owes_conn; [by rewrite H2|done]. }
  destruct o as [| |resp]; simpl.
  - apply Hclose, owes_complete. by apply Htake.
  - eapply owes_weaken; [exact Ho|members_solve|done|apply length_insert|].
    intros x. pose proof (occ_inflight x (conns p) i c c1 E) as Hx. rewrite Hcb in Hx. occ_solve.
  - apply owes_complete. case_match; [apply owes_onFree; [by simpl; rewrite length_insert|]|apply Hclose]; by apply Htake.
Qed.
End accounting.

(** ** The pool's invariant

    [pool_wf k]: no connection is in two lists, every callback in flight
    belongs to a busy connection, each connecting connection has its request,
    and requests queue only when the cap is reached, up to [k] free places. *)
Record pool_wf (k : nat) (p : Impl) : Prop := {
  wf_nodup : NoDup (members p);
  wf_lt : forall i, i ∈ members p -> i < length (conns p);
  wf_cb : forall i c id, conns p !! i = Some c -> callback_ c = Some id ->
            i ∈ busy p /\ busy_ c = true /\ done_ c = false;
  wf_pending : forall i, is_Some (pending_ p !! i) <-> i ∈ connecting_ p;
  wf_cap : length (members p) + k <= max_connections_ p;
  wf_queue : queue_ p <> [] -> idle_ p = [] /\ length (members p) + k = max_connections_ p;
  wf_over : overwritten p = [];
}.

Lemma total_members p : total p = length (members p).
Proof. unfold total, members. rewrite !length_app. lia. Qed.

Lemma removeFrom_perm v i : i ∈ v -> v ≡ₚ i :: removeFrom v i.
Proof.
  induction v as [|x v IH]; simpl; [by intros ?%elem_of_nil|].
  destruct (Nat.eqb_spec x i) as [->|Hx]; [done|]. intros [->|Hi]%elem_of_cons; [done|].
  rewrite (IH Hi) at 1. apply Permutation_swap.
Qed.

Lemma filter_absent i (v : list nat) : i ∉ v -> filter (fun x => x <> i) v = v.
Proof.
  induction v as [|x v IH]; [done|]. rewrite not_elem_of_cons. intros [H1 H2].
  rewrite filter_cons_True by done. by rewrite IH.
Qed.

Lemma removeFrom_filter v i : NoDup v -> removeFrom v i = filter (fun x => x <> i) v.
Proof.
  induction 1 as [|x v Hx Hv IH]; [done|]. cbn [removeFrom]. destruct (Nat.eqb_spec x i) as [->|Hn].
  - rewrite filter_cons_False by naive_solver. by rewrite filter_absent.
  - rewrite filter_cons_True by done. by rewrite IH.
Qed.

Lemma removeFrom_absent v i : i ∉ v -> removeFrom v i = v.
Proof.
  induction v as [|x v IH]; [done|]. rewrite not_elem_of_cons. intros [H1 H2]. simpl.
  destruct (Nat.eqb_spec x i) as [->|_]; [done|]. by rewrite IH.
Qed.

Lemma members_parts p : NoDup (members p) ->
  NoDup (idle_ p) /\ NoDup (busy p) /\ NoDup (connecting_ p) /\
  (forall i, i ∈ idle_ p -> i ∉ busy p /\ i ∉ connecting_ p) /\ (forall i, i ∈ busy p -> i ∉ connecting_ p).
Proof.
  intros (H1 & H2 & (H3 & H4 & H5)%NoDup_app)%NoDup_app. repeat split; try done.
  - intros Hb. eapply H2; [done|]. rewrite elem_of_app. auto.
  - intros Hb. eapply H2; [done|]. rewrite elem_of_app. auto.
Qed.

(** Moving connections between lists. *)
Lemma wf_move k p p' :
  pool_wf k p -> members p' ≡ₚ members p -> conns p' = conns p -> max_connections_ p' = max_connections_ p ->
  overwritten p' = [] -> (forall i, i ∈ busy p -> (exists c, conns p !! i = Some c /\ callback_ c <> None) -> i ∈ busy p') ->
  (forall i, is_Some (pending_ p' !! i) <-> i ∈ connecting_ p') ->
  (queue_ p' <> [] -> queue_ p <> [] /\ idle_ p' = []) -> pool_wf k p'.
Proof.
  intros [] Hm Hc Hmax Ho Hb Hp Hq. split; rewrite ?Hm, ?Hc, ?Hmax; auto.
  - intros i. rewrite Hm. auto.
  - intros i c id Hi Hcb. destruct (wf_cb0 i c id Hi Hcb) as (H1 & H2 & H3). repeat split; auto.
    apply Hb; [done|]. exists c. split; [done|]. by rewrite Hcb.
  - intros [H1 H2]%Hq. split; [done|]. by apply wf_queue0.
Qed.

Lemma start_callback host req cb c :
  callback_ (start host req cb c) = Some cb /\ busy_ (start host req cb c) = true /\ done_ (start host req cb c) = false.
Proof. unfold start. by destruct (conn_ _). Qed.

(** Replacing a connection's record. *)
Lemma wf_conn k i c c' p :
  pool_wf k p -> conns p !! i = Some c ->
  (forall id, callback_ c' = Some id -> i ∈ busy p /\ busy_ c' = true /\ done_ c' = false) ->
  pool_wf k (p <| conns := <[i := c']> (conns p) |>).
Proof.
  intros [] Hi Hc'. split; simpl; auto.
  - intros j Hj. rewrite length_insert. by apply wf_lt0.
  - intros j d id [(<- & <- & _)|[_ Hj]]%list_lookup_insert_Some Hcb; eauto.
Qed.

Lemma wf_set_conn k i f p :
  (forall c, callback_ (f c) = callback_ c /\ busy_ (f c) = busy_ c /\ done_ (f c) = done_ c) ->
  pool_wf k p -> pool_wf k (set_conn i f p).
Proof.
  intros Hf Hp. unfold set_conn. destruct (conns p !! i) as [c|] eqn:E; [|done].
  apply (wf_conn _ _ c); [done..|]. destruct (Hf c) as (-> & -> & ->). intros id. by apply Hp.
Qed.

Definition no_callback (i : nat) (p : Impl) : Prop := forall c, conns p !! i = Some c -> callback_ c = None.

Lemma wf_start_on k i r p : pool_wf k p -> i ∈ busy p -> no_callback i p -> pool_wf k (start_on i r p).
Proof.
  intros Hp Hi Hn. unfold start_on. destruct (conns p !! i) as [c|] eqn:E; [|done]. rewrite (Hn c E), app_nil_r.
  destruct (start_callback (host_ p) r.1 r.2 c) as (H1 & H2 & H3).
  assert (H : pool_wf k (p <| conns := <[i := start (host_ p) r.1 r.2 c]> (conns p) |>)).
  { apply (wf_conn _ _ c); [done..|]. by rewrite H2, H3. }
  by destruct H.
Qed.

Lemma no_callback_of k p i : pool_wf k p -> i ∉ busy p -> no_callback i p.
Proof.
  intros Hp Hi c Hc. destruct (callback_ c) as [id|] eqn:E; [|done]. destruct Hi. by eapply Hp.
Qed.

Lemma wf_open_conn k (r : Pending) p : pool_wf (S k) p -> pool_wf k (open_conn r p).
Proof.
  intros []. unfold open_conn. set (n := length (conns p)).
  assert (Hm : members (p <| conns := conns p ++ [PooledConn_new] |> <| connecting_ := connecting_ p ++ [n] |>
    <| pending_ := <[n := r]> (pending_ p) |>) = members p ++ [n]) by (unfold members; simpl; by rewrite <-!app_assoc).
  assert (Hn : n ∉ members p) by (intros Hn%wf_lt0; unfold n in Hn; lia).
  split; rewrite ?Hm; simpl; rewrite ?length_app; simpl; auto.
  - apply NoDup_app. repeat split; [done| |apply NoDup_singleton]. intros j Hj ->%list_elem_of_singleton. done.
  - intros j [Hj%wf_lt0| ->%list_elem_of_singleton]%elem_of_app; unfold n in *; lia.
  - intros j c id [Hj|[_ [_ <-]%list_lookup_singleton_Some]]%lookup_app_Some Hcb; [by eapply wf_cb0|]. done.
  - intros j. rewrite elem_of_app, list_elem_of_singleton, <-wf_pending0, lookup_insert_is_Some'. by split; intros [?|?]; auto.
  - lia.
  - intros [H1 H2]%wf_queue0. split; [done|lia].
Qed.

Lemma wf_dispatch (r : Pending) p : pool_wf 0 p -> pool_wf 0 (dispatch r p).
Proof.
  intros Hp. unfold dispatch. destruct (last (idle_ p)) as [i|] eqn:E.
  - assert (Hi : i ∈ idle_ p) by (by eapply last_Some_elem_of).
    destruct (members_parts p (wf_nodup _ _ Hp)) as (_ & _ & _ & Hd & _).
    apply wf_start_on.
    + apply (wf_move _ p); try done; try apply Hp.
      * unfold members. simpl. rewrite (last_split _ _ E) at 2. rewrite <-!app_assoc. simpl.
        by rewrite (Permutation_middle (busy p)), <-Permutation_middle.
      * intros j Hj _. simpl. rewrite elem_of_app. auto.
      * intros Hq. simpl in Hq. split; [done|]. apply Hp in Hq as [Hq _]. by rewrite Hq in Hi; apply elem_of_nil in Hi.
    + simpl. rewrite elem_of_app, list_elem_of_singleton. auto.
    + eapply (no_callback_of _ p); [done|]. by apply Hd.
  - apply last_None in E. case_match eqn:Ht.
    + apply Nat.ltb_lt in Ht. rewrite total_members in Ht. apply wf_open_conn. destruct Hp. split; auto; [lia|].
      intros [_ ?]%wf_queue0. lia.
    + apply Nat.ltb_ge in Ht. rewrite total_members in Ht. destruct Hp. split; auto. intros _. split; [done|]. simpl.
      unfold members in *. simpl in *. lia.
Qed.

Lemma wf_request (r : Pending) p : pool_wf 0 p -> pool_wf 0 (request r p).
Proof.
  intros Hp. assert (H1 : pool_wf 0 (p <| issued := issued p ++ [r.2] |>)) by (by destruct Hp).
  unfold request, startResolveOnce. case_match; [by apply wf_dispatch|]. case_match; by destruct Hp.
Qed.

(** A busy connection whose callback was taken stays so while requests are dispatched. *)
Definition taken (i : nat) (p : Impl) : Prop := i ∈ busy p /\ no_callback i p.

Lemma taken_dispatch (r : Pending) i p : pool_wf 0 p -> taken i p -> taken i (dispatch r p).
Proof.
  intros Hp [Hb Hn]. unfold dispatch. destruct (last (idle_ p)) as [j|] eqn:E.
  - assert (Hj : j <> i).
    { intros ->. destruct (members_parts p (wf_nodup _ _ Hp)) as (_ & _ & _ & Hd & _).
      by destruct (Hd i (last_Some_elem_of _ _ E)). }
    unfold start_on. simpl. destruct (conns p !! j); (split; simpl; [rewrite elem_of_app; auto|]); [|done].
    intros c. simpl. rewrite list_lookup_insert_ne by done. apply Hn.
  - case_match; [|done]. split; [done|]. intros c. simpl.
    intros [Hc|[_ [_ <-]%list_lookup_singleton_Some]]%lookup_app_Some; [by apply Hn|done].
Qed.

Lemma taken_request (r : Pending) i p : pool_wf 0 p -> taken i p -> taken i (request r p).
Proof.
  intros Hp Ht. unfold request, startResolveOnce. case_match; [|by case_match].
  apply taken_dispatch; [by destruct Hp|done].
Qed.

Lemma wf_onReady i p : pool_wf 0 p -> i ∈ connecting_ p -> pool_wf 0 (onReady i p).
Proof.
  intros Hp Hi. destruct (members_parts p (wf_nodup _ _ Hp)) as (_ & _ & Hnd & _ & Hd).
  pose proof (removeFrom_perm _ _ Hi) as Hperm. unfold onReady. simpl.
  destruct (pending_ p !! i) as [r|] eqn:E.
  - apply wf_start_on.
    + apply (wf_move _ p); try done; simpl.
      * unfold members. simpl. rewrite Hperm at 2. by rewrite <-app_assoc.
      * apply Hp.
      * intros j Hj _. rewrite elem_of_app. auto.
      * intros j. rewrite removeFrom_filter by done. rewrite list_elem_of_filter, <-(wf_pending _ _ Hp), lookup_delete_is_Some.
        naive_solver.
      * intros Hq. split; [done|]. by apply Hp.
    + simpl. rewrite elem_of_app, list_elem_of_singleton. auto.
    + eapply (no_callback_of _ p); [done|]. intros Hb. by eapply Hd.
  - apply (wf_pending _ _ Hp) in Hi as [r Hr]. unfold Pending in *. congruence.
Qed.

Lemma wf_onFree i p : pool_wf 0 p -> taken i p -> pool_wf 0 (onFree i p).
Proof.
  intros Hp [Hb Hn]. pose proof (removeFrom_perm _ _ Hb) as Hperm. unfold onFree. simpl.
  destruct (queue_ p) as [|r q] eqn:E.
  - apply (wf_move _ p); try done; simpl; try apply Hp; try done.
    + unfold members. simpl. rewrite Hperm at 2. by rewrite <-app_assoc.
    + intros j Hj (c & Hc & Hcb). destruct (decide (j = i)) as [->|Hne]; [by destruct Hcb; apply Hn|].
      rewrite Hperm in Hj. by apply elem_of_cons in Hj as [?|?].
  - apply wf_start_on; [|simpl; rewrite elem_of_app, list_elem_of_singleton; auto|done].
    apply (wf_move _ p); try done; simpl; try apply Hp.
    + unfold members. simpl. rewrite Hperm at 2. by rewrite (Permutation_cons_append (removeFrom (busy p) i) i).
    + intros j Hj _. rewrite Hperm in Hj. rewrite elem_of_app, list_elem_of_singleton. by apply elem_of_cons in Hj as [?|?]; auto.
    + intros Hq. rewrite E. split; [done|]. apply Hp. by rewrite E.
Qed.

Lemma wf_weaken k p : queue_ p = [] -> pool_wf k p -> pool_wf 0 p.
Proof. intros Hq []. split; auto; [lia|]. by rewrite Hq. Qed.

(** Taking a connection out of every list frees its place. *)
Lemma wf_remove i p p' :
  pool_wf 0 p -> no_callback i p ->
  idle_ p' = removeFrom (idle_ p) i -> busy p' = removeFrom (busy p) i ->
  connecting_ p' = removeFrom (connecting_ p) i -> pending_ p' = delete i (pending_ p) ->
  conns p' = conns p -> queue_ p' = queue_ p -> max_connections_ p' = max_connections_ p ->
  overwritten p' = overwritten p ->
  pool_wf (if decide (i ∈ members p) then 1 else 0) p'.
Proof.
  intros Hp Hn H1 H2 H3 H4 H5 H6 H7 H8. destruct (members_parts p (wf_nodup _ _ Hp)) as (N1 & N2 & N3 & _ & _).
  rewrite removeFrom_filter in H1, H2, H3 by done.
  assert (Hm : members p' = filter (fun x => x <> i) (members p)).
  { unfold members. by rewrite H1, H2, H3, !filter_app. }
  assert (Hlen : length (members p') + (if decide (i ∈ members p) then 1 else 0) = length (members p)).
  { destruct (decide _) as [Hi|Hi].
    - rewrite (removeFrom_perm _ _ Hi), (removeFrom_filter _ _ (wf_nodup _ _ Hp)), Hm. simpl. lia.
    - rewrite Hm, filter_absent by done. lia. }
  destruct Hp. split.
  - rewrite Hm. by apply NoDup_filter.
  - intros j. rewrite Hm, H5, list_elem_of_filter. naive_solver.
  - intros j c id. rewrite H5, H2, list_elem_of_filter. intros Hj Hcb. destruct (wf_cb0 j c id Hj Hcb) as (? & ? & ?).
    repeat split; try done. intros ->. by rewrite (Hn c Hj) in Hcb.
  - intros j. rewrite H4, H3, list_elem_of_filter, <-wf_pending0, lookup_delete_is_Some. naive_solver.
  - rewrite H7. lia.
  - rewrite H6, H7, H1. intros [-> Hq]%wf_queue0. split; [done|lia].
  - by rewrite H8.
Qed.

Lemma wf_onClosed i p : pool_wf 0 p -> no_callback i p -> pool_wf 0 (onClosed i p).
Proof.
  intros Hp Hn. unfold onClosed.
  set (p1 := p <| idle_ := _ |> <| busy := _ |> <| connecting_ := _ |> <| dropped := _ |> <| pending_ := _ |>).
  pose proof (wf_remove i p p1 Hp Hn eq_refl eq_refl eq_refl eq_refl eq_refl eq_refl eq_refl eq_refl) as H1.
  destruct (queue_ p1) as [|r q] eqn:E; [by eapply wf_weaken|].
  assert (Hne : queue_ p1 <> []) by (by rewrite E). rewrite total_members.
  pose proof (wf_queue _ _ H1 Hne) as [Hi Hl]. destruct (decide (i ∈ members p)).
  - replace (_ <? _) with true by (symmetry; apply Nat.ltb_lt; lia).
    apply wf_open_conn. destruct H1. split; auto.
  - by replace (_ <? _) with false by (symmetry; apply Nat.ltb_ge; lia).
Qed.

Lemma wf_evictIdle now p : pool_wf 0 p -> pool_wf 0 (evictIdle now p).
Proof.
  intros Hp. unfold evictIdle.
  assert (Hv : NoDup (filter (fun i => expired_at now p i = true) (idle_ p))) by (apply NoDup_filter, members_parts, Hp).
  assert (Hs : forall i, i ∈ filter (fun i => expired_at now p i = true) (idle_ p) -> i ∈ idle_ p) by (intros i; rewrite list_elem_of_filter; tauto).
  revert Hv Hs. generalize (filter (fun i => expired_at now p i = true) (idle_ p)). intros v.
  revert p Hp. induction v as [|i v IH]; intros p Hp Hv Hs; [done|]. apply NoDup_cons in Hv as [Hi Hv].
  cbn [fold_left].
  assert (Hid : i ∈ idle_ p) by (apply Hs; by left).
  destruct (members_parts p (wf_nodup _ _ Hp)) as (N1 & _ & _ & Hd & _). destruct (Hd i Hid) as [Hb Hc].
  assert (Hq : queue_ p = []).
  { destruct (queue_ p) eqn:Hq; [done|]. assert (Hne : queue_ p <> []) by (by rewrite Hq).
    apply Hp in Hne as [Hne _]. rewrite Hne in Hid. by apply elem_of_nil in Hid. }
  apply IH; [|done|].
  - apply wf_set_conn; [intros c; unfold close; by destruct (conn_ c)|].
    assert (Hk : pool_wf (if decide (i ∈ members p) then 1 else 0) (p <| idle_ := removeFrom (idle_ p) i |>)); [|by eapply wf_weaken].
    apply wf_remove; try done; [by eapply no_callback_of|..]; simpl.
    + by rewrite removeFrom_absent.
    + by rewrite removeFrom_absent.
    + symmetry. apply delete_id. destruct (pending_ p !! i) eqn:E; [|done]. destruct Hc. apply (wf_pending _ _ Hp). eauto.
  - intros j Hj. assert (Hji : j <> i) by (by intros ->). unfold set_conn. simpl.
    assert (j ∈ removeFrom (idle_ p) i) by (rewrite removeFrom_filter, list_elem_of_filter by done; split; [done|apply Hs; by right]).
    by destruct (conns p !! i).
Qed.

Section reach.
Context (app : nat -> outcome -> list Pending).

Definition reachable_from (well : bool) (host : bytes) (tls : bool) (max : nat) (idle_s : Z) (resolved : bool) (p : Impl) : Prop :=
  rtc (step app well) (startEviction (Impl_new host tls max idle_s resolved)) p.

Lemma wf_complete cb o p : pool_wf 0 p -> pool_wf 0 (complete app cb o p).
Proof.
  intros Hp. destruct cb as [id|]; [|done]. unfold complete.
  assert (H1 : pool_wf 0 (p <| completed := completed p ++ [(id, o)] |>)) by (by destruct Hp).
  revert H1. generalize (p <| completed := completed p ++ [(id, o)] |>).
  induction (app id o) as [|r rs IH]; intros q Hq; simpl; [done|]. by apply IH, wf_request.
Qed.

Lemma taken_complete i cb o p : pool_wf 0 p -> taken i p -> taken i (complete app cb o p).
Proof.
  intros Hp Ht. destruct cb as [id|]; [|done]. unfold complete.
  assert (H1 : pool_wf 0 (p <| completed := completed p ++ [(id, o)] |>)) by (by destruct Hp).
  assert (H2 : taken i (p <| completed := completed p ++ [(id, o)] |>)) by done.
  revert H1 H2. generalize (p <| completed := completed p ++ [(id, o)] |>).
  induction (app id o) as [|r rs IH]; intros q Hq Ht'; simpl; [done|].
  apply IH; [by apply wf_request|by apply taken_request].
Qed.

Lemma wf_fold (f : Impl -> Pending -> Impl) rs p :
  (forall p r, pool_wf 0 p -> pool_wf 0 (f p r)) -> pool_wf 0 p -> pool_wf 0 (fold_left f rs p).
Proof. intros Hf. revert p. induction rs as [|r rs IH]; intros p Hp; simpl; [done|]. by apply IH, Hf. Qed.

Lemma wf_onResolved ok err p : pool_wf 0 p -> pool_wf 0 (onResolved app ok err p).
Proof.
  intros Hp. unfold onResolved. destruct ok; apply wf_fold; try (intros; by apply wf_dispatch);
    try (intros; by apply wf_complete); by destruct Hp.
Qed.

Lemma connecting_set_conn i f p : connecting_ (set_conn i f p) = connecting_ p.
Proof. unfold set_conn. by destruct (conns p !! i). Qed.

Lemma wf_conn_down i p : pool_wf 0 p -> pool_wf 0 (conn_down app i p).
Proof.
  intros Hp. unfold conn_down. destruct (conns p !! i) as [c|] eqn:E; [|done]. simpl.
  pose proof (lookup_lt_Some _ _ _ E) as Hlt.
  destruct (busy_ c && negb (done_ c)) eqn:Hb; simpl.
  - match goal with |- context [<[i := ?d]> (conns p)] => set (c3 := d) end.
    assert (H1 : pool_wf 0 (p <| conns := <[i := c3]> (conns p) |>)) by (by eapply wf_conn).
    assert (H2 : no_callback i (p <| conns := <[i := c3]> (conns p) |>)).
    { intros d. simpl. rewrite list_lookup_insert_eq by done. by intros [= <-]. }
    apply wf_onClosed; [by apply wf_complete|]. destruct (callback_ c) as [id|] eqn:Hc; [|exact H2].
    apply taken_complete; [done|]. split; [|done]. by eapply Hp.
  - assert (Hn : callback_ c = None).
    { destruct (callback_ c) as [id|] eqn:Hc; [|done]. destruct (wf_cb _ _ Hp i c id E Hc) as (_ & Hx & Hy).
      by rewrite Hx, Hy in Hb. }
    apply wf_onClosed; [eapply wf_conn; [done..|]; by simpl; rewrite Hn|].
    intros d. simpl. rewrite list_lookup_insert_eq by done. by intros [= <-].
Qed.

Lemma wf_tcp_closed i p : pool_wf 0 p -> pool_wf 0 (tcp_closed app i p).
Proof. intros Hp. unfold tcp_closed. repeat case_match; [done|by apply wf_conn_down|done]. Qed.

Lemma wf_close i p : pool_wf 0 p -> pool_wf 0 (set_conn i close p).
Proof. apply wf_set_conn. intros c. unfold close. by destruct (conn_ c). Qed.

Lemma parse_input_flags data c o c' : parse_input data c = (o, c') -> busy_ c' = busy_ c /\ done_ c' = done_ c.
Proof. unfold parse_input. repeat case_match; intros [= <- <-]; done. Qed.

Lemma wf_consume i data now p :
  pool_wf 0 p ->
  (forall c resp c1, conns p !! i = Some c -> parse_input data c = (Complete resp, c1) ->
     server_keep_alive resp = true -> callback_ c <> None) ->
  pool_wf 0 (consume app i data now p).
Proof.
  intros Hp Hwell. unfold consume. destruct (conns p !! i) as [c|] eqn:E; [|done].
  pose proof (lookup_lt_Some _ _ _ E) as Hlt.
  destruct (parse_input data c) as [o c1] eqn:Ep. pose proof (parse_input_callback _ _ _ _ Ep) as Hcb.
  destruct (parse_input_flags _ _ _ _ Ep) as [Hf1 Hf2].
  assert (Htake : forall c2, callback_ c2 = None -> pool_wf 0 (p <| conns := <[i := c2]> (conns p) |>)).
  { intros c2 H2. eapply wf_conn; [done..|]. by rewrite H2. }
  destruct o as [| |resp]; simpl.
  - by apply wf_close, wf_complete, Htake.
  - eapply wf_conn; [done..|]. rewrite Hcb, Hf1, Hf2. intros id Hid. by eapply Hp.
  - apply wf_complete. destruct (server_keep_alive resp) eqn:Hk; [|by apply wf_close, Htake].
    apply wf_onFree; [by apply Htake|]. specialize (Hwell c resp c1 eq_refl Ep Hk).
    destruct (callback_ c) as [id|] eqn:Hid; [|done]. split; [simpl; by eapply Hp|].
    intros d. simpl. rewrite list_lookup_insert_eq by done. by intros [= <-].
Qed.

Lemma pool_step_wf p p' : pool_wf 0 p -> step app true p p' -> pool_wf 0 p'.
Proof.
  intros Hp Hs. destruct Hs.
  - by apply wf_request.
  - by apply wf_onResolved.
  - unfold conn_up. case_match; [by repeat apply wf_set_conn|].
    apply wf_onReady; [by repeat apply wf_set_conn|by rewrite !connecting_set_conn].
  - apply wf_onReady; [by apply wf_set_conn|by rewrite connecting_set_conn].
  - by apply wf_tcp_closed.
  - apply wf_consume; [done|]. intros. eauto.
  - by apply wf_evictIdle.
  - unfold stopEviction. case_match; [|done]. by destruct Hp.
Qed.

Lemma pool_step_owes well p p' : owes p [] -> step app well p p' -> owes p' [].
Proof.
  intros Hp Hs. destruct Hs.
  - by apply owes_request.
  - by apply owes_onResolved.
  - by apply owes_conn_up.
  - apply owes_onReady; [by rewrite connecting_set_conn|by apply owes_set_conn].
  - by apply owes_tcp_closed.
  - by apply owes_consume.
  - by apply owes_evictIdle.
  - unfold stopEviction. case_match; [|done]. by destruct Hp.
Qed.
End reach.

(** The cap is only changed by the owner. *)
Lemma max_set_conn i f p : max_connections_ (set_conn i f p) = max_connections_ p.
Proof. unfold set_conn. by case_match. Qed.
Lemma max_start_on i r p : max_connections_ (start_on i r p) = max_connections_ p.
Proof. unfold start_on. by case_match. Qed.
Lemma max_dispatch r p : max_connections_ (dispatch r p) = max_connections_ p.
Proof. unfold dispatch. repeat case_match; rewrite ?max_start_on; done. Qed.
Lemma max_request r p : max_connections_ (request r p) = max_connections_ p.
Proof. unfold request, startResolveOnce. repeat case_match; rewrite ?max_dispatch; done. Qed.
Lemma max_fold {A} (f : Impl -> A -> Impl) l p :
  (forall p x, max_connections_ (f p x) = max_connections_ p) -> max_connections_ (fold_left f l p) = max_connections_ p.
Proof. intros Hf. revert p. induction l as [|x l IH]; intros p; simpl; [done|]. by rewrite IH, Hf. Qed.
Lemma max_complete app cb o p : max_connections_ (complete app cb o p) = max_connections_ p.
Proof. unfold complete. case_match; [|done]. by rewrite max_fold by (intros; apply max_request). Qed.
Lemma max_onClosed i p : max_connections_ (onClosed i p) = max_connections_ p.
Proof. unfold onClosed. repeat case_match; done. Qed.
Lemma max_onReady i p : max_connections_ (onReady i p) = max_connections_ p.
Proof. unfold onReady. case_match; by rewrite ?max_start_on. Qed.
Lemma max_onFree i p : max_connections_ (onFree i p) = max_connections_ p.
Proof. unfold onFree. case_match; by rewrite ?max_start_on. Qed.
#[local] Hint Rewrite max_set_conn max_request max_complete max_onClosed max_onReady max_onFree : pool_max.

Lemma step_max app well p p' : step app well p p' -> max_connections_ p' = max_connections_ p.
Proof.
  destruct 1.
  - apply max_request.
  - unfold onResolved. destruct ok; rewrite max_fold; try done; intros; [apply max_dispatch|apply max_complete].
  - unfold conn_up. case_match; by autorewrite with pool_max.
  - unfold handshake_done. by autorewrite with pool_max.
  - unfold tcp_closed, conn_down. repeat case_match; autorewrite with pool_max; done.
  - unfold consume, takeCallback. repeat case_match; autorewrite with pool_max; done.
  - unfold evictIdle. by rewrite max_fold by (intros; by autorewrite with pool_max).
  - unfold stopEviction. by case_match.
Qed.

Lemma Impl_new_owes host tls max idle_s resolved : owes (startEviction (Impl_new host tls max idle_s resolved)) [].
Proof.
  split; [split; simpl|done].
  - intros i Hi. by apply elem_of_nil in Hi.
  - intros i [? Hi]. done.
Qed.

Lemma Impl_new_wf host tls max idle_s resolved : pool_wf 0 (startEviction (Impl_new host tls max idle_s resolved)).
Proof.
  split; simpl; try done; try lia.
  - constructor.
  - intros i Hi. by apply elem_of_nil in Hi.
  - intros i. rewrite elem_of_nil, lookup_empty. split; [by intros []|done].
Qed.

(** C22: whatever the peers send, no request is duplicated: every request the
    pool was given is in exactly one place -- answered (once), parked behind
    the resolver, queued, waiting for its connection, in flight on a
    connection -- or was lost in one of the two ways the code has: erased in
    [onClosed] with the connection it was waiting for, or overwritten on a
    connection that was reused while it was in flight. *)
Theorem requests_accounted app well host tls max idle_s resolved p :
  reachable_from app well host tls max idle_s resolved p ->
  issued p ≡ₚ map fst (completed p) ++ dropped p ++ overwritten p ++ ids (waiting_on_dns_ p) ++ ids (queue_ p) ++
              pend_ids (pending_ p) ++ inflight (conns p).
Proof.
  intros Hr. assert (Ho : owes p []).
  { eapply (rtc_ind_r (fun q => owes q [])); [|intros y z _ Hs Hy; by eapply pool_step_owes|exact Hr].
    apply Impl_new_owes. }
  destruct Ho as [_ Ho]. apply perm_occ. intros x. rewrite Ho. unfold held. simpl. rewrite occ_nil. lia.
Qed.

(** C23: with peers that send no response nobody asked for, the pool never
    exceeds its cap, keeps each connection in one list only, runs at most one
    request per connection -- on a busy connection, and never overwriting one
    in flight -- and makes a request wait only when every place is taken and
    no connection is idle. *)
Theorem pool_capacity app host tls max idle_s resolved p :
  reachable_from app true host tls max idle_s resolved p ->
  total p <= max_connections_ p /\ NoDup (idle_ p ++ busy p ++ connecting_ p) /\ overwritten p = [] /\
  (forall i c id, conns p !! i = Some c -> callback_ c = Some id -> i ∈ busy p) /\
  (queue_ p <> [] -> idle_ p = [] /\ total p = max_connections_ p).
Proof.
  intros Hr. assert (Hw : pool_wf 0 p).
  { eapply (rtc_ind_r (pool_wf 0)); [apply Impl_new_wf|intros y z _ Hs Hy; by eapply pool_step_wf|exact Hr]. }
  rewrite total_members. destruct Hw. repeat split; auto; [lia|intros i c id Hi Hc; by eapply wf_cb0|..].
  - by apply wf_queue0.
  - apply wf_queue0 in H as [_ ?]. lia.
Qed.

(** A run with a cap of one: request 1 opens a connection, request 2 queues,
    the response to 1 starts 2 on the same connection. *)
Definition no_follow_up : nat -> outcome -> list Pending := fun _ _ => [].
Definition ok_response : bytes := bs "HTTP/1.1 200 OK" ++ CRLF ++ bs "Content-Length: 2" ++ CRLF ++ CRLF ++ bs "hi".
Definition closing_response : bytes :=
  bs "HTTP/1.1 200 OK" ++ CRLF ++ bs "Connection: close" ++ CRLF ++ bs "Content-Length: 2" ++ CRLF ++ CRLF ++ bs "hi".
Definition demo_new (tls : bool) : Impl := ConnectionPool_new (bs "h") tls 1 60.
Definition demo_1 : Impl := request (HttpRequest.HttpRequest_new, 1) (demo_new false).
Definition demo_2 : Impl := request (HttpRequest.HttpRequest_new, 2) demo_1.
Definition demo_up : Impl := conn_up 0 5 demo_2.
Definition demo_end : Impl := consume no_follow_up 0 ok_response 9 demo_up.

Lemma demo_up_callback : (callback_ <$> conns demo_up !! 0) = Some (Some 1).
Proof. vm_compute. reflexivity. Qed.
Lemma demo_2_connecting : connecting_ demo_2 = [0].
Proof. vm_compute. reflexivity. Qed.

Lemma demo_end_reachable well : reachable_from no_follow_up well (bs "h") false 1 60 true demo_end.
Proof.
  apply (rtc_l _ _ demo_1); [exact (step_request _ _ _ (demo_new false))|].
  apply (rtc_l _ _ demo_2); [exact (step_request _ _ _ demo_1)|].
  apply (rtc_l _ _ demo_up); [apply (step_up _ _ 0 5 demo_2); rewrite demo_2_connecting; left|].
  apply rtc_once, (step_data _ _ 0 ok_response 9 demo_up). intros _ c resp c1 Hc _ _ Hn.
  pose proof demo_up_callback as H. rewrite Hc in H. simpl in H. congruence.
Qed.

Lemma requests_accounted_witness :
  issued demo_end = [1; 2] /\ map fst (completed demo_end) = [1] /\ inflight (conns demo_end) = [2] /\
  [1; 2] ≡ₚ [1] ++ [] ++ [] ++ [] ++ [] ++ [] ++ [2].
Proof.
  split; [vm_compute; reflexivity|]. split; [vm_compute; reflexivity|]. split; [vm_compute; reflexivity|].
  exact (requests_accounted no_follow_up false (bs "h") false 1 60 true demo_end (demo_end_reachable false)).
Defined.

Lemma pool_capacity_witness : busy demo_end = [0] /\ total demo_end <= max_connections_ demo_end.
Proof.
  split; [vm_compute; reflexivity|].
  exact (proj1 (pool_capacity no_follow_up (bs "h") false 1 60 true demo_end (demo_end_reachable true))).
Defined.


(** The [Connection] header is looked up by its exact spelling: an origin that
    writes it in lower case and closes is taken to keep the connection alive. *)
Lemma lowercase_close_ignored :
  server_keep_alive (addHeader (bs "connection") (bs "close") (HttpResponse_new true)) = true /\
  server_keep_alive (addHeader (bs "Connection") (bs "Close") (HttpResponse_new true)) = false.
Proof. split; vm_compute; reflexivity. Qed.
End ConnectionPool.
