(* ===== verification/HttpClient.v ===== *)
(** * Clients over the connection pool (http/multi_origin_pool, http/http_client)

    [MultiOriginPool] keeps one [ConnectionPool] per origin -- host, port and
    whether TLS is configured for them -- made on the first request.
    [HttpClient] is a pool of one connection.

    Whether a host is a numeric address is decided by [inet_pton], a parameter;
    without a resolver any other host makes the [InetAddress] constructor throw. *)

From stdpp Require Import gmap.
From S2P Require Import Prelude CStr HttpMessage ConnectionPool.
Import ConnectionPool.

Module MultiOriginPool.

(** Port, host and TLS identify an origin; [operator<] compares all three. *)
Record Origin := mkOrigin { host : bytes; port : Z; tls : bool }.
#[export] Instance Origin_eq_dec : EqDecision Origin.
Proof. solve_decision. Defined.
#[export] Instance Origin_countable : Countable Origin :=
  inj_countable' (fun o => (host o, port o, tls o)) (fun x => mkOrigin x.1.1 x.1.2 x.2)
    (fun o => match o with mkOrigin _ _ _ => eq_refl end).

Record MultiOriginPool := mkMultiOriginPool {
  resolver_ : bool;                          (* set or null *)
  max_per_origin_ : nat;
  origin_idle_s_ : Z;                        (* idle_timeout_s_ *)
  tls_ctx_ : gmap (bytes * Z) nat;           (* contexts by number *)
  pools_ : gmap Origin Impl;
}.
#[export] Instance MultiOriginPool_settable : Settable MultiOriginPool := fun m =>
  mkMultiOriginPool (resolver_ m) (max_per_origin_ m) (origin_idle_s_ m) (tls_ctx_ m) (pools_ m).

Definition MultiOriginPool_new : MultiOriginPool := mkMultiOriginPool false 8 60 ∅ ∅.

Definition setResolver (set : bool) (m : MultiOriginPool) : MultiOriginPool := m <| resolver_ := set |>.
Definition setMaxConnectionsPerOrigin (n : nat) (m : MultiOriginPool) : MultiOriginPool := m <| max_per_origin_ := n |>.
Definition setIdleTimeout (seconds : Z) (m : MultiOriginPool) : MultiOriginPool := m <| origin_idle_s_ := seconds |>.
Definition setTlsContext (h : bytes) (p : Z) (ctx : nat) (m : MultiOriginPool) : MultiOriginPool :=
  m <| tls_ctx_ := <[(h, p) := ctx]> (tls_ctx_ m) |>.
Definition originCount (m : MultiOriginPool) : nat := size (pools_ m).

Section pool.
Context (numeric : bytes -> bool).

Definition has_tls (h : bytes) (p : Z) (m : MultiOriginPool) : bool := bool_decide (is_Some (tls_ctx_ m !! (h, p))).
Definition key_of (h : bytes) (p : Z) (m : MultiOriginPool) : Origin := mkOrigin h p (has_tls h p m).

(** The sub-pool of a new origin; [None]: the constructor of [InetAddress] throws. *)
Definition make_pool (o : Origin) (host_header : bytes) (m : MultiOriginPool) : option Impl :=
  let hdr := if bool_decide (host_header = []) then host o else host_header in
  let pool := if resolver_ m then Some (ConnectionPool_new_dns (host o) hdr (tls o) 8 60)
              else if numeric (host o) then Some (ConnectionPool_new hdr (tls o) 8 60) else None in
  (fun p => p <| max_connections_ := max_per_origin_ m |> <| idle_timeout_s_ := origin_idle_s_ m |>) <$> pool.

(** The pool, and whether the request was accepted (or the call threw). *)
Definition multi_request (h : bytes) (p : Z) (r : Pending) (host_header : bytes) (m : MultiOriginPool)
    : MultiOriginPool * bool :=
  let key := key_of h p m in
  let found := match pools_ m !! key with Some pool => Some pool | None => make_pool key host_header m end in
  match found with
  | Some pool => (m <| pools_ := <[key := request r pool]> (pools_ m) |>, true)
  | None => (m, false)
  end.

(** Calls of the application, and what happens in the pool of one origin. *)
Inductive multi_op :=
| MRequest (h : bytes) (p : Z) (r : Pending) (host_header : bytes)
| MSetTls (h : bytes) (p : Z) (ctx : nat)
| MSetMax (n : nat)
| MSetIdle (seconds : Z)
| MSetResolver (set : bool)
| MPool (o : Origin) (step : Impl -> Impl).

Definition multi_step (op : multi_op) (m : MultiOriginPool) : MultiOriginPool :=
  match op with
  | MRequest h p r hdr => (multi_request h p r hdr m).1
  | MSetTls h p ctx => setTlsContext h p ctx m
  | MSetMax n => setMaxConnectionsPerOrigin n m
  | MSetIdle s => setIdleTimeout s m
  | MSetResolver b => setResolver b m
  | MPool o f => m <| pools_ := alter f o (pools_ m) |>
  end.
Definition multi_run (ops : list multi_op) (m : MultiOriginPool) : MultiOriginPool :=
  fold_left (fun m op => multi_step op m) ops m.

(** ** One origin on its own

    The specification: an origin's pool sees the calls that name its host and
    port and what happens in it, and nothing of the other origins.  [None]: no
    request was made to it yet. *)
Record Single := mkSingle { settings : bool * nat * Z; configured : bool; own : option Impl }.

Definition project (o : Origin) (m : MultiOriginPool) : Single :=
  mkSingle (resolver_ m, max_per_origin_ m, origin_idle_s_ m) (has_tls (host o) (port o) m) (pools_ m !! o).

Definition single_pool (o : Origin) (hdr : bytes) (s : Single) : option Impl :=
  let '(res, max, idle_s) := settings s in
  let hdr := if bool_decide (hdr = []) then host o else hdr in
  if res then Some (startEviction (Impl_new (if bool_decide (hdr = []) then host o else hdr) (tls o) max idle_s false))
  else if numeric (host o) then Some (startEviction (Impl_new hdr (tls o) max idle_s true)) else None.

Definition single_step (o : Origin) (op : multi_op) (s : Single) : Single :=
  let '(res, max, idle_s) := settings s in
  match op with
  | MRequest h p r hdr =>
    if bool_decide (h = host o) && bool_decide (p = port o) && Bool.eqb (configured s) (tls o) then
      mkSingle (settings s) (configured s)
        (request r <$> match own s with Some pool => Some pool | None => single_pool o hdr s end)
    else s
  | MSetTls h p _ =>
    mkSingle (settings s) (configured s || (bool_decide (h = host o) && bool_decide (p = port o))) (own s)
  | MSetMax n => mkSingle (res, n, idle_s) (configured s) (own s)
  | MSetIdle i => mkSingle (res, max, i) (configured s) (own s)
  | MSetResolver b => mkSingle (b, max, idle_s) (configured s) (own s)
  | MPool k f => if bool_decide (k = o) then mkSingle (settings s) (configured s) (f <$> own s) else s
  end.
Definition single_run (o : Origin) (ops : list multi_op) (s : Single) : Single :=
  fold_left (fun s op => single_step o op s) ops s.

Lemma make_pool_single o hdr m : make_pool o hdr m = single_pool o hdr (project o m).
Proof.
  unfold make_pool, single_pool, project. simpl. destruct (resolver_ m); [done|]. by destruct (numeric (host o)).
Qed.

Lemma key_of_iff h p o m :
  key_of h p m = o <->
  bool_decide (h = host o) && bool_decide (p = port o) && Bool.eqb (has_tls (host o) (port o) m) (tls o) = true.
Proof.
  rewrite !andb_true_iff, !bool_decide_eq_true, eqb_true_iff. unfold key_of. destruct o as [h' p' t]. simpl. split.
  - by intros [= <- <- <-].
  - by intros [[-> ->] <-].
Qed.

Lemma project_same_pools o m m' :
  resolver_ m' = resolver_ m -> max_per_origin_ m' = max_per_origin_ m -> origin_idle_s_ m' = origin_idle_s_ m ->
  tls_ctx_ m' = tls_ctx_ m -> project o m' = mkSingle (settings (project o m)) (configured (project o m)) (pools_ m' !! o).
Proof. intros H1 H2 H3 H4. unfold project, has_tls. simpl. by rewrite H1, H2, H3, H4. Qed.

Lemma project_request h p r hdr o m :
  project o (multi_step (MRequest h p r hdr) m) = single_step o (MRequest h p r hdr) (project o m).
Proof.
  unfold single_step, multi_step, multi_request. change (configured (project o m)) with (has_tls (host o) (port o) m).
  change (settings (project o m)) with (resolver_ m, max_per_origin_ m, origin_idle_s_ m). cbv iota beta.
  destruct (_ && _) eqn:E.
  - apply key_of_iff in E as ->. rewrite <-make_pool_single. change (own (project o m)) with (pools_ m !! o).
    destruct (match pools_ m !! o with Some pool => Some pool | None => make_pool o hdr m end) as [pool|] eqn:Ep; simpl.
    + rewrite (project_same_pools o m) by done. simpl. by rewrite lookup_insert_eq.
    + unfold project. destruct (pools_ m !! o); [discriminate|reflexivity].
  - assert (Hne : key_of h p m <> o) by (intros Hk%key_of_iff; congruence).
    destruct (match pools_ m !! key_of h p m with Some pool => Some pool | None => make_pool (key_of h p m) hdr m end); [|done]. simpl.
    rewrite (project_same_pools o m) by done. simpl. by rewrite lookup_insert_ne.
Qed.

Lemma project_step o op m : project o (multi_step op m) = single_step o op (project o m).
Proof.
  destruct op as [h p r hdr|h p ctx|n|s|b|k f]; [apply project_request|..]; try done.
  - unfold project, single_step, has_tls. simpl. f_equal. rewrite <-!bool_decide_and, <-bool_decide_or.
    apply bool_decide_ext. rewrite lookup_insert_is_Some'. destruct o. simpl. naive_solver.
  - unfold single_step. simpl. rewrite (project_same_pools o m) by done. simpl. case_bool_decide as Hk.
    + subst k. by rewrite lookup_alter_eq.
    + by rewrite lookup_alter_ne.
Qed.

Lemma project_run o ops m : project o (multi_run ops m) = single_run o ops (project o m).
Proof.
  unfold multi_run, single_run. revert m. induction ops as [|op ops IH]; intros m; simpl; [done|].
  by rewrite IH, project_step.
Qed.

(** C24: the origins do not interfere: whatever calls are made and whatever
    happens in the pools, the pool of an origin is the one that the origin's
    own requests and events make on a pool of its own, created by its first
    request with the settings of that moment. *)
Theorem origins_independent o ops :
  project o (multi_run ops MultiOriginPool_new) = single_run o ops (project o MultiOriginPool_new).
Proof.
  apply project_run.
Qed.

(** A TLS context that is configured after the first request makes the same
    host and port another origin: the pool made before keeps its connections
    and is not used again. *)
Lemma late_tls_second_pool h p ctx r1 r2 hdr :
  numeric h = true ->
  let m := multi_run [MRequest h p r1 hdr; MSetTls h p ctx; MRequest h p r2 hdr] MultiOriginPool_new in
  is_Some (pools_ m !! mkOrigin h p false) /\ is_Some (pools_ m !! mkOrigin h p true).
Proof.
  intros Hn m. split; [change (is_Some (own (project (mkOrigin h p false) m)))|change (is_Some (own (project (mkOrigin h p true) m)))];
    unfold m; rewrite project_run; unfold single_run, single_step, single_pool; simpl;
    rewrite !bool_decide_eq_true_2 by done; simpl; rewrite Hn; simpl; eauto.
Qed.
End pool.
End MultiOriginPool.

(** ** The client of one server *)
Module HttpClient.

Definition HttpClient_new (host_header : bytes) (tls : bool) : Impl :=
  (ConnectionPool_new host_header tls 8 60) <| max_connections_ := 1 |>.
Definition HttpClient_new_dns (host host_header : bytes) (tls : bool) : Impl :=
  (ConnectionPool_new_dns host host_header tls 8 60) <| max_connections_ := 1 |>.

Definition send (req : HttpRequest.HttpRequest) (cb : nat) (p : Impl) : Impl := request (req, cb) p.

Definition get (path : bytes) (cb : nat) (p : Impl) : Impl :=
  send (HttpRequest.setPath path (HttpRequest.setMethod kGet HttpRequest.HttpRequest_new)) cb p.

(** Never more than one connection, nor more than one request on it. *)
Lemma client_single_connection app hdr tls p :
  rtc (step app true) (HttpClient_new hdr tls) p ->
  total p <= 1 /\ length (busy p) <= 1 /\ overwritten p = [].
Proof.
  intros Hr. change (HttpClient_new hdr tls) with (startEviction (Impl_new hdr tls 1 60 true)) in Hr.
  assert (Hw : pool_wf 0 p /\ max_connections_ p = 1).
  { eapply (rtc_ind_r (fun q => pool_wf 0 q /\ max_connections_ q = 1)); [by split; [apply Impl_new_wf|]| |exact Hr].
    intros y z _ Hs [Hy Hm]. split; [by eapply pool_step_wf|]. by rewrite (step_max _ _ _ _ Hs). }
  destruct Hw as [[] Hm]. rewrite total_members. unfold members in *. rewrite !length_app in *. split_and!; [lia|lia|done].
Qed.
End HttpClient.
