(* ===== verification/LogFormat.v ===== *)
(** * Log records as text (logging/timestamp.cc, log_record.h, formatter.cc,
    json_formatter.cc, default_formatter.cc)

    [Gmtime] is the calendar [gmtime_r] computes, checked against a count of the
    days; [Timestamp::toString] and the two formatters follow, each with a reader
    that gets back what was written. *)

From S2P Require Import Prelude CStr Timestamp.

(** ** A predicate on an interval, decided by evaluation *)
Section interval.
Context (P : Z -> bool).
Fixpoint all_from (n : positive) (base : Z) : bool :=
  match n with
  | xH => P base
  | xO p => all_from p base && all_from p (base + Zpos p)
  | xI p => all_from p base && all_from p (base + Zpos p) && P (base + Zpos p + Zpos p)
  end%Z.

Lemma all_from_spec n base i : all_from n base = true -> (0 <= i < Zpos n)%Z -> P (base + i) = true.
Proof.
  revert base i. induction n as [n IH|n IH|]; intros base i H Hi; simpl in H.
  - apply andb_true_iff in H as [[H1 H2]%andb_true_iff H3].
    destruct (Z.lt_ge_cases i (Zpos n)); [apply IH; [done|lia]|].
    destruct (Z.lt_ge_cases i (2 * Zpos n)).
    + replace (base + i)%Z with (base + Zpos n + (i - Zpos n))%Z by lia. apply IH; [done|lia].
    + by replace (base + i)%Z with (base + Zpos n + Zpos n)%Z by lia.
  - apply andb_true_iff in H as [H1 H2]. destruct (Z.lt_ge_cases i (Zpos n)); [apply IH; [done|lia]|].
    replace (base + i)%Z with (base + Zpos n + (i - Zpos n))%Z by lia. apply IH; [done|lia].
  - by replace (base + i)%Z with base by lia.
Qed.
End interval.

Module Gmtime.
#[local] Open Scope Z_scope.

Record tm := mkTm { tm_year : Z; tm_mon : Z; tm_mday : Z; tm_hour : Z; tm_min : Z; tm_sec : Z }.

(** The date of day [z] (day 0 is 1970-01-01): 400-, 100-, 4- and 1-year cycles
    of years that begin in March, so that the leap day comes last; day 11017 is
    2000-03-01. *)
Definition march_year (z : Z) : Z * Z :=
  let qc := (z - 11017) / 146097 in
  let r := (z - 11017) mod 146097 in
  let c := Z.min 3 (r / 36524) in
  let r := r - c * 36524 in
  let q := r / 1461 in
  let r := r - q * 1461 in
  let y := Z.min 3 (r / 365) in
  (2000 + 400 * qc + 100 * c + 4 * q + y, r - y * 365).

(** Month (counted from March) and day of day [j] of such a year. *)
Fixpoint march_month (lengths : list Z) (mp j : Z) : Z * Z :=
  match lengths with
  | [] => (mp, j + 1)
  | n :: ls => if n <=? j then march_month ls (mp + 1) (j - n) else (mp, j + 1)
  end.
Definition march_lengths : list Z := [31; 30; 31; 30; 31; 31; 30; 31; 30; 31; 31; 29].

Definition civil (z : Z) : Z * Z * Z :=
  let '(y, j) := march_year z in
  let '(mp, d) := march_month march_lengths 0 j in
  if mp <? 10 then (y, mp + 3, d) else (y + 1, mp - 9, d).

(** [gmtime_r(&seconds, &tm)] for a non-negative time. *)
Definition gmtime_r (seconds : Z) : tm :=
  let '(y, m, d) := civil (seconds / 86400) in
  let r := seconds mod 86400 in
  mkTm (y - 1900) (m - 1) d (r / 3600) (r / 60 mod 60) (r mod 60).

(** The calendar itself: leap years, months, and the days before a date. *)
Definition leap (y : Z) : bool := (y mod 4 =? 0) && (negb (y mod 100 =? 0) || (y mod 400 =? 0)).
Definition month_days (leap_year : bool) (m : Z) : Z :=
  if m =? 2 then if leap_year then 29 else 28
  else if (m =? 4) || (m =? 6) || (m =? 9) || (m =? 11) then 30 else 31.
Definition leaps_through (y : Z) : Z := y / 4 - y / 100 + y / 400.
Definition days_before_month (y m : Z) : Z :=
  let l := leap y in
  fold_left (fun n k => if k <? m then n + month_days l k else n) [1; 2; 3; 4; 5; 6; 7; 8; 9; 10; 11; 12] 0.
Definition day_number (ymd : Z * Z * Z) : Z :=
  let '(y, m, d) := ymd in
  365 * (y - 1970) + leaps_through (y - 1) - leaps_through 1969 + days_before_month y m + (d - 1).
Definition valid_date (ymd : Z * Z * Z) : bool :=
  let '(y, m, d) := ymd in (1 <=? m) && (m <=? 12) && (1 <=? d) && (d <=? month_days (leap y) m).


Ltac euclid := Z.to_euclidean_division_equations; lia.

Lemma leaps_step y : leaps_through y = leaps_through (y - 1) + (if leap y then 1 else 0).
Proof.
  unfold leaps_through, leap.
  destruct (Z.eqb_spec (y mod 4) 0), (Z.eqb_spec (y mod 100) 0), (Z.eqb_spec (y mod 400) 0); simpl; euclid.
Qed.

(** A year by its place in the cycles. *)
Lemma leaps_cycles qc c q y :
  0 <= c <= 3 -> 0 <= q <= 24 -> 0 <= y <= 3 ->
  leaps_through (2000 + 400 * qc + 100 * c + 4 * q + y) = 485 + 97 * qc + 24 * c + q.
Proof. intros. unfold leaps_through. euclid. Qed.

Lemma leap_cycles qc c q :
  0 <= c <= 3 -> 0 <= q <= 24 -> (q = 24 -> c = 3) ->
  leap (2000 + 400 * qc + 100 * c + 4 * q + 3 + 1) = true.
Proof.
  intros Hc Hq H. unfold leap. set (y := 2000 + 400 * qc + 100 * c + 4 * q + 3 + 1).
  assert (E4 : y mod 4 = 0) by (subst y; euclid). rewrite E4. simpl.
  destruct (Z.eqb_spec (y mod 100) 0) as [E|E]; [|done]. simpl. apply Z.eqb_eq. subst y. euclid.
Qed.

Lemma march_year_spec z y j :
  march_year z = (y, j) ->
  z = 365 * (y - 1970) + leaps_through y - leaps_through 1969 + 59 + j /\ 0 <= j <= 365 /\
  (j = 365 -> leap (y + 1) = true).
Proof.
  unfold march_year. set (qc := (z - 11017) / 146097). set (r0 := (z - 11017) mod 146097).
  assert (H0 : z = 11017 + 146097 * qc + r0 /\ 0 <= r0 < 146097) by (subst qc r0; euclid). clearbody qc r0.
  set (c := Z.min 3 (r0 / 36524)). set (r1 := r0 - c * 36524).
  assert (H1 : 0 <= c <= 3 /\ 0 <= r1 <= 36524 /\ (r1 = 36524 -> c = 3)) by (subst r1 c; euclid). 
  assert (Hr1 : r0 = c * 36524 + r1) by lia. clearbody c r1.
  set (q := r1 / 1461). set (r2 := r1 - q * 1461).
  assert (H2 : 0 <= q <= 24 /\ 0 <= r2 <= 1460 /\ (r2 = 1460 -> q = 24 -> c = 3)) by (subst r2 q; euclid).
  assert (Hr2 : r1 = q * 1461 + r2) by lia. clearbody q r2.
  set (yy := Z.min 3 (r2 / 365)). set (r3 := r2 - yy * 365).
  assert (H3 : 0 <= yy <= 3 /\ 0 <= r3 <= 365 /\ (r3 = 365 -> r2 = 1460 /\ yy = 3)) by (subst r3 yy; euclid).
  assert (Hr3 : r2 = yy * 365 + r3) by lia. clearbody yy r3.
  intros [= <- <-]. rewrite leaps_cycles by lia. change (leaps_through 1969) with 477.
  split; [lia|]. split; [lia|]. intros Hj. destruct H3 as (_ & _ & H3). destruct (H3 Hj) as [Hx ->].
  apply leap_cycles; lia.
Qed.

(** The days of a year that begins in March, by evaluation: the month and day
    found are the [j]-th day, counted in the calendar. *)
Definition days_before (l : bool) (m : Z) : Z :=
  fold_left (fun n k => if k <? m then n + month_days l k else n) [1; 2; 3; 4; 5; 6; 7; 8; 9; 10; 11; 12] 0.

Definition march_day_ok (l next : bool) (j : Z) : bool :=
  let '(mp, d) := march_month march_lengths 0 j in
  if mp <? 10 then (0 <=? mp) && (days_before l (mp + 3) + (d - 1) =? 59 + (if l then 1 else 0) + j) &&
                   (1 <=? d) && (d <=? month_days l (mp + 3))
  else (mp <=? 11) && (days_before next (mp - 9) + (d - 1) =? j - 306) && (1 <=? d) &&
       (d <=? month_days next (mp - 9)).

Lemma march_days_ok l next j :
  0 <= j <= 365 -> (j = 365 -> next = true) -> march_day_ok l next j = true.
Proof.
  intros Hj Hn. destruct (Z.eq_dec j 365) as [->|Hj'].
  - rewrite Hn by done. destruct l; vm_compute; reflexivity.
  - assert (H : all_from (march_day_ok l next) 365 0 = true) by (destruct l, next; vm_compute; reflexivity).
    apply (all_from_spec _ _ _ j H). lia.
Qed.

Lemma civil_year z : 0 <= z -> 0 <= (civil z).1.1.
Proof.
  intros Hz. assert (H : 1600 <= (march_year z).1) by (unfold march_year; simpl; euclid).
  unfold civil. destruct (march_year z) as [y j]. destruct (march_month _ _ _) as [mp d]. simpl in *.
  destruct (mp <? 10); simpl; lia.
Qed.

Lemma civil_correct z : day_number (civil z) = z /\ valid_date (civil z) = true.
Proof.
  unfold civil. destruct (march_year z) as [y j] eqn:Ey. apply march_year_spec in Ey as (Hz & Hj & Hl).
  pose proof (march_days_ok (leap y) (leap (y + 1)) j Hj Hl) as H. unfold march_day_ok in H.
  destruct (march_month march_lengths 0 j) as [mp d].
  unfold day_number, valid_date. change days_before_month with (fun y m => days_before (leap y) m). cbv beta.
  rewrite (leaps_step y) in Hz. destruct (Z.ltb_spec mp 10); bool_prop.
  - split; [lia|]. rewrite !andb_true_iff, !Z.leb_le. lia.
  - replace (y + 1 - 1) with y by lia. rewrite (leaps_step y). split; [lia|]. rewrite !andb_true_iff, !Z.leb_le. lia.
Qed.
End Gmtime.

Module LogFormat.
Import Timestamp Gmtime.

(** ** [Timestamp::toString] *)

(** [printf]'s [%0<w>d] of a non-negative number. *)
Definition pad (w : nat) (n : Z) : bytes := replicate (w - length (dec n)) "0"%char ++ dec n.

Definition toString (t : Timestamp) : bytes :=
  let tm := gmtime_r (t / kMicroSecondsPerSecond) in
  let micros := (t mod kMicroSecondsPerSecond)%Z in
  pad 4 (tm_year tm + 1900) ++ bs "-" ++ pad 2 (tm_mon tm + 1) ++ bs "-" ++ pad 2 (tm_mday tm) ++ bs " " ++
  pad 2 (tm_hour tm) ++ bs ":" ++ pad 2 (tm_min tm) ++ bs ":" ++ pad 2 (tm_sec tm) ++ bs "." ++ pad 6 micros.

(** A reader of that format. *)
Fixpoint read_num (s : bytes) (acc : Z) : Z * bytes :=
  match s with
  | c :: s' => if isdigit c then read_num s' (acc * 10 + (code c - 48))%Z else (acc, s)
  | [] => (acc, [])
  end.
Definition expect (c : ascii) (s : bytes) : option bytes :=
  match s with x :: s' => if bool_decide (x = c) then Some s' else None | [] => None end.
Definition read_field (c : ascii) (s : bytes) : option (Z * bytes) :=
  let '(n, s) := read_num s 0 in s ← expect c s; Some (n, s).

Definition parse_timestamp (s : bytes) : option Timestamp :=
  '(y, s) ← read_field "-" s; '(mo, s) ← read_field "-" s; '(d, s) ← read_field " " s;
  '(h, s) ← read_field ":" s; '(mi, s) ← read_field ":" s; '(se, s) ← read_field "." s;
  let '(us, s) := read_num s 0 in
  match s with
  | [] => Some ((day_number (y, mo, d) * 86400 + h * 3600 + mi * 60 + se) * kMicroSecondsPerSecond + us)%Z
  | _ => None
  end.

Lemma read_num_digits ds rest acc :
  Forall (fun c => isdigit c = true) ds -> (forall c, head rest = Some c -> isdigit c = false) ->
  read_num (ds ++ rest) acc = (parse_digits 10 ds acc, rest).
Proof.
  intros Hd Hr. revert acc. induction Hd as [|c ds Hc Hd IH]; intros acc; simpl.
  - destruct rest as [|c rest]; [done|]. simpl. by rewrite Hr.
  - rewrite Hc, IH. unfold digit_val. rewrite Hc. unfold isdigit in Hc. bool_prop.
    by rewrite (proj2 (Z.ltb_lt _ _)) by lia.
Qed.

Lemma parse_zeros k s : parse_digits 10 (replicate k "0"%char ++ s) 0 = parse_digits 10 s 0.
Proof. induction k as [|k IH]; [done|]. exact IH. Qed.

Lemma read_pad w n rest :
  (0 <= n)%Z -> (forall c, head rest = Some c -> isdigit c = false) -> read_num (pad w n ++ rest) 0 = (n, rest).
Proof.
  intros Hn Hr. rewrite read_num_digits; [|unfold pad|done].
  - unfold pad. by rewrite parse_zeros, parse_dec.
  - apply Forall_app. split; [by apply Forall_replicate|by apply dec_digits].
Qed.

Lemma read_field_pad w n c rest :
  (0 <= n)%Z -> isdigit c = false -> read_field c (pad w n ++ [c] ++ rest) = Some (n, rest).
Proof.
  intros Hn Hc. unfold read_field. rewrite read_pad; [|done|by intros ? [= <-]]. simpl.
  by rewrite bool_decide_eq_true_2.
Qed.

(** A timestamp's text says which microsecond it is: reading the date and
    time that [toString] prints, in the Gregorian calendar, gives the timestamp
    back, for every value of the counter. *)
Theorem timestamp_roundtrip t : (0 <= t)%Z -> parse_timestamp (toString t) = Some t.
Proof.
  intros Ht. unfold toString, gmtime_r, parse_timestamp. set (sec := (t / kMicroSecondsPerSecond)%Z).
  assert (Hs : (0 <= sec)%Z) by (apply Z.div_pos; done).
  assert (Ht' : (t = sec * kMicroSecondsPerSecond + t mod kMicroSecondsPerSecond /\
                 0 <= t mod kMicroSecondsPerSecond)%Z) by (subst sec; unfold kMicroSecondsPerSecond; Gmtime.euclid).
  destruct (civil_correct (sec / 86400)) as [Hd Hv].
  pose proof (civil_year (sec / 86400) ltac:(by apply Z.div_pos)) as Hy.
  destruct (civil (sec / 86400)) as [[y m] d]. simpl in Hv, Hy. bool_prop.
  cbn [tm_year tm_mon tm_mday tm_hour tm_min tm_sec]. simpl bs.
  assert (Hr : (0 <= sec mod 86400)%Z) by (apply Z.mod_pos_bound; lia).
  rewrite read_field_pad by (done || lia). cbn [mbind option_bind].
  rewrite read_field_pad by (done || lia). cbn [mbind option_bind].
  rewrite read_field_pad by (done || lia). cbn [mbind option_bind].
  rewrite read_field_pad by (done || (apply Z.div_pos; lia)). cbn [mbind option_bind].
  rewrite read_field_pad by (done || (apply Z.mod_pos_bound; lia)). cbn [mbind option_bind].
  rewrite read_field_pad by (done || (apply Z.mod_pos_bound; lia)). cbn [mbind option_bind].
  rewrite <-(app_nil_r (pad 6 _)), read_pad; [|lia|done]. f_equal.
  replace (y - 1900 + 1900)%Z with y by lia. replace (m - 1 + 1)%Z with m by lia. rewrite Hd.
  assert (Hsec : (sec / 86400 * 86400 + sec mod 86400 / 3600 * 3600 + sec mod 86400 / 60 mod 60 * 60 +
                  sec mod 86400 mod 60 = sec)%Z) by Gmtime.euclid.
  rewrite Hsec. symmetry. apply Ht'.
Qed.

Lemma timestamp_roundtrip_witness :
  toString 1709210096000789 = bs "2024-02-29 12:34:56.000789" /\
  parse_timestamp (toString 1709210096000789) = Some 1709210096000789%Z.
Proof.
  split; [vm_compute; reflexivity|]. apply (timestamp_roundtrip 1709210096000789). lia.
Defined.

(** ** Records *)
Inductive LogLevel := Debug | Info | Warning | Error | Fatal.

Definition level_toString (l : LogLevel) : bytes :=
  match l with
  | Debug => bs "DEBUG" | Info => bs "INFO" | Warning => bs "WARNING" | Error => bs "ERROR" | Fatal => bs "FATAL"
  end.
(** [static_cast<int>(level)] *)
Definition level_int (l : LogLevel) : Z :=
  match l with Debug => 0 | Info => 1 | Warning => 2 | Error => 3 | Fatal => 4 end%Z.

Record LogRecord := mkLogRecord {
  level : LogLevel;
  timestamp : Timestamp;
  tid : bytes;
  message : bytes;
  fields : list (bytes * bytes);
}.

(** ** The JSON formatter *)
Definition QUOTE : ascii := "034"%char.
Definition BACKSLASH : ascii := "092"%char.
Definition kHexLower : bytes := bs "0123456789abcdef".
Definition hex4 (n : Z) : bytes :=
  map (fun k => nth (Z.to_nat (n / 16 ^ k mod 16)) kHexLower "0"%char) [3; 2; 1; 0]%Z.

Definition escape_char (c : ascii) : bytes :=
  if bool_decide (c = QUOTE) then [BACKSLASH; QUOTE]
  else if bool_decide (c = BACKSLASH) then [BACKSLASH; BACKSLASH]
  else if bool_decide (c = LF) then [BACKSLASH; "n"%char]
  else if bool_decide (c = CR) then [BACKSLASH; "r"%char]
  else if bool_decide (c = "009"%char) then [BACKSLASH; "t"%char]
  else if bool_decide (c = "008"%char) then [BACKSLASH; "b"%char]
  else if bool_decide (c = "012"%char) then [BACKSLASH; "f"%char]
  else if (code c <? 32)%Z then BACKSLASH :: "u"%char :: hex4 (code c)
  else [c].
Definition escaped (s : bytes) : bytes := concat (map escape_char s).
Definition appendEscaped (out s : bytes) : bytes := out ++ escaped s.

Definition Q (s : bytes) : bytes := [QUOTE] ++ s ++ [QUOTE].

Definition json_field (out : bytes) (kv : bytes * bytes) : bytes :=
  let out := out ++ [","%char; QUOTE] in
  let out := appendEscaped out kv.1 in
  let out := out ++ [QUOTE; ":"%char; QUOTE] in
  let out := appendEscaped out kv.2 in
  out ++ [QUOTE].

Definition json_format (r : LogRecord) : bytes :=
  let out := ["{"%char] ++ Q (bs "ts") ++ [":"%char; QUOTE] in
  let out := appendEscaped out (toString (timestamp r)) in
  let out := out ++ [QUOTE; ","%char] ++ Q (bs "level") ++ [":"%char; QUOTE] in
  let out := out ++ level_toString (level r) in
  let out := out ++ [QUOTE; ","%char] ++ Q (bs "tid") ++ [":"%char; QUOTE] in
  let out := appendEscaped out (tid r) in
  let out := out ++ [QUOTE; ","%char] ++ Q (bs "msg") ++ [":"%char; QUOTE] in
  let out := appendEscaped out (message r) in
  let out := out ++ [QUOTE] in
  let out := fold_left json_field (fields r) out in
  out ++ ["}"%char].

(** ** The default formatter *)
Definition default_format (r : LogRecord) : bytes :=
  let out := bs "[" ++ tid r ++ bs "] " ++ toString (timestamp r) ++ bs " " ++ level_toString (level r) ++
             bs " " ++ message r in
  fold_left (fun out kv => out ++ bs " " ++ kv.1 ++ bs "=" ++ kv.2) (fields r) out.

(** ** A JSON reader (RFC 8259) for objects whose members are strings *)
Definition hex_val (c : ascii) : option Z := digit_val 16 c.

(** A string body up to its closing quote, and the text behind it. *)
Fixpoint read_string (s : bytes) : option (bytes * bytes) :=
  match s with
  | [] => None
  | c :: s' =>
    if bool_decide (c = QUOTE) then Some ([], s')
    else if bool_decide (c = BACKSLASH) then
      match s' with
      | e :: s1 =>
        if bool_decide (e = "u"%char) then
          match s1 with
          | h3 :: h2 :: h1 :: h0 :: s2 =>
            match hex_val h3, hex_val h2, hex_val h1, hex_val h0 with
            | Some a, Some b, Some c, Some d =>
              let v := (((a * 16 + b) * 16 + c) * 16 + d)%Z in
              if (v <? 128)%Z then '(t, r) ← read_string s2; Some (char_of v :: t, r) else None
            | _, _, _, _ => None
            end
          | _ => None
          end
        else
          let plain c := '(t, r) ← read_string s1; Some (c :: t, r) in
          if bool_decide (e = QUOTE) then plain QUOTE
          else if bool_decide (e = BACKSLASH) then plain BACKSLASH
          else if bool_decide (e = "/"%char) then plain "/"%char
          else if bool_decide (e = "b"%char) then plain "008"%char
          else if bool_decide (e = "f"%char) then plain "012"%char
          else if bool_decide (e = "n"%char) then plain LF
          else if bool_decide (e = "r"%char) then plain CR
          else if bool_decide (e = "t"%char) then plain "009"%char
          else None
      | [] => None
      end
    else if (code c <? 32)%Z then None       (* control characters must be escaped *)
    else '(t, r) ← read_string s'; Some (c :: t, r)
  end.

(** The members from one's opening quote on; [fuel] bounds their number. *)
Fixpoint read_members (fuel : nat) (s : bytes) : option (list (bytes * bytes)) :=
  match fuel with
  | O => None
  | S fuel =>
    s ← expect QUOTE s; '(k, s) ← read_string s; s ← expect ":"%char s;
    s ← expect QUOTE s; '(v, s) ← read_string s;
    match s with
    | ["}"%char] => Some [(k, v)]
    | ","%char :: s => ms ← read_members fuel s; Some ((k, v) :: ms)
    | _ => None
    end
  end.
Definition read_object (s : bytes) : option (list (bytes * bytes)) :=
  s ← expect "{"%char s; read_members (length s) s.

Lemma read_escape_char c tail :
  read_string (escape_char c ++ tail) = '(t, r) ← read_string tail; Some (c :: t, r).
Proof. destruct c as [[] [] [] [] [] [] [] []]; reflexivity. Qed.

Lemma read_escaped s rest : read_string (escaped s ++ QUOTE :: rest) = Some (s, rest).
Proof.
  induction s as [|c s IH]; [done|]. unfold escaped in *. cbn [map concat].
  by rewrite <-app_assoc, read_escape_char, IH.
Qed.

(** The members as the formatter lays them out. *)
Definition member (kv : bytes * bytes) : bytes :=
  QUOTE :: escaped kv.1 ++ QUOTE :: ":"%char :: QUOTE :: escaped kv.2 ++ [QUOTE].
Definition more_members (ms : list (bytes * bytes)) : bytes := concat (map (fun m => ","%char :: member m) ms).

Lemma read_members_spec fuel kv ms :
  length ms < fuel -> read_members fuel (member kv ++ more_members ms ++ ["}"%char]) = Some (kv :: ms).
Proof.
  revert fuel kv. induction ms as [|m ms IH]; intros [|fuel] [k v] Hf; try (simpl in Hf; lia).
  - unfold member. simpl. rewrite <-app_assoc. simpl. rewrite read_escaped. simpl.
    rewrite <-app_assoc. simpl. by rewrite read_escaped.
  - unfold member. cbn [more_members map concat fst snd]. simpl. rewrite <-!app_assoc. simpl.
    rewrite read_escaped. simpl. rewrite <-!app_assoc. simpl. rewrite read_escaped. simpl.
    specialize (IH fuel m ltac:(simpl in Hf; lia)). unfold more_members, member in IH.
    simpl in IH. rewrite <-!app_assoc in IH. simpl in IH. rewrite <-app_assoc in IH.
    exact (f_equal (fun o => o ≫= (fun ms0 => Some ((k, v) :: ms0))) IH).
Qed.

Lemma fold_fields ms out : fold_left json_field ms out = out ++ more_members ms.
Proof.
  revert out. induction ms as [|m ms IH]; intros out; simpl; [by rewrite app_nil_r|].
  rewrite IH. unfold json_field, appendEscaped, more_members, member. simpl. rewrite <-!app_assoc. simpl.
  by rewrite <-!app_assoc.
Qed.

Definition record_members (r : LogRecord) : list (bytes * bytes) :=
  (bs "level", level_toString (level r)) :: (bs "tid", tid r) :: (bs "msg", message r) :: fields r.

Lemma json_format_members r :
  json_format r = "{"%char :: member (bs "ts", toString (timestamp r)) ++ more_members (record_members r) ++ ["}"%char].
Proof.
  unfold json_format, appendEscaped. cbv zeta. rewrite fold_fields.
  assert (He : escaped (level_toString (level r)) = level_toString (level r)) by (by destruct (level r)).
  unfold record_members, more_members, member. cbn [map concat fst snd]. rewrite He.
  generalize (escaped (toString (timestamp r))) (level_toString (level r)) (escaped (tid r)) (escaped (message r)).
  intros ts lv td msg. generalize (concat (map (fun m => ","%char :: member m) (fields r))). intros fs.
  do 5 (rewrite <-?app_assoc; simpl). reflexivity.
Qed.

Lemma escape_char_no_lf c : LF ∉ escape_char c.
Proof.
  assert (H : bool_decide (LF ∈ escape_char c) = false) by (destruct c as [[] [] [] [] [] [] [] []]; reflexivity).
  by apply bool_decide_eq_false in H.
Qed.

Lemma escaped_no_lf s : LF ∉ escaped s.
Proof.
  intros (l & Hl & Hin)%list_elem_of_In%in_concat. apply list_elem_of_In, list_elem_of_fmap in Hl as (c & -> & _).
  apply list_elem_of_In in Hin. by eapply escape_char_no_lf.
Qed.

Lemma more_members_length ms : length ms <= length (more_members ms).
Proof.
  induction ms as [|m ms IH]; [done|]. unfold more_members in *. cbn [map concat]. rewrite length_app. simpl. lia.
Qed.

Lemma member_no_lf kv : LF ∉ member kv.
Proof.
  unfold member. rewrite !not_elem_of_cons, not_elem_of_app, !not_elem_of_cons, not_elem_of_app, !not_elem_of_cons.
  repeat split; try done; try apply escaped_no_lf. apply not_elem_of_nil.
Qed.

(** C30: every record the JSON formatter writes is one line and one JSON object
    whose members are, in order, [ts], [level], [tid], [msg] and the structured
    fields, with exactly the texts of the record: no message, thread id or field
    -- quotes, backslashes, control characters and line breaks included -- can
    change the structure or forge another record. *)
Theorem json_format_roundtrip r :
  read_object (json_format r) =
    Some ([(bs "ts", toString (timestamp r)); (bs "level", level_toString (level r)); (bs "tid", tid r);
           (bs "msg", message r)] ++ fields r) /\
  LF ∉ json_format r.
Proof.
  rewrite json_format_members. split.
  - unfold read_object. cbn [expect]. rewrite bool_decide_eq_true_2 by done. cbn [mbind option_bind].
    apply read_members_spec. rewrite !length_app. pose proof (more_members_length (record_members r)). change (length ["}"%char]) with 1. lia.
  - rewrite not_elem_of_cons, !not_elem_of_app, not_elem_of_cons. repeat split; try done; [apply member_no_lf| |apply not_elem_of_nil].
    intros (l & Hl & Hin)%list_elem_of_In%in_concat. apply list_elem_of_In, list_elem_of_fmap in Hl as (kv & -> & _).
    apply list_elem_of_In, elem_of_cons in Hin as [?|Hin]; [done|]. by eapply member_no_lf.
Qed.

(** Finding: the default formatter copies messages as they are, although a
    record is to be formatted into a single line: a message with a line break
    writes a second line that no reader can tell from a record of its own. *)
Lemma default_format_forgeable r1 r2 :
  fields r1 = [] ->
  default_format (mkLogRecord (level r1) (timestamp r1) (tid r1) (message r1 ++ [LF] ++ default_format r2) []) =
  default_format r1 ++ [LF] ++ default_format r2.
Proof. intros Hf. unfold default_format at 1 3. rewrite Hf. cbn [fold_left level timestamp tid message fields]. by rewrite <-!app_assoc. Qed.

(** ** The logger (logger.h, logger.cc) *)

(** What a logger asks of its sink. *)
Inductive sink_call := SinkAppend (line : bytes) | SinkFlush.

Record Logger := mkLogger {
  level_ : LogLevel;
  flush_level_ : LogLevel;
  formatter_ : LogRecord -> bytes;
  pid_ : bytes;                   (* the thread that built the logger *)
  sink_ : list sink_call;         (* what the sink was asked to do *)
}.
#[export] Instance Logger_settable : Settable Logger := fun l =>
  mkLogger (level_ l) (flush_level_ l) (formatter_ l) (pid_ l) (sink_ l).

Definition Logger_new (lv : LogLevel) (formatter : LogRecord -> bytes) (tid_str : bytes) : Logger :=
  mkLogger lv Fatal formatter tid_str [].
Definition Logger_default (tid_str : bytes) : Logger := Logger_new Info default_format tid_str.
Definition setLevel (lv : LogLevel) (l : Logger) : Logger := l <| level_ := lv |>.
Definition setFlushLevel (lv : LogLevel) (l : Logger) : Logger := l <| flush_level_ := lv |>.

Definition log (lv : LogLevel) (msg : bytes) (fs : list (bytes * bytes)) (now : Timestamp) (l : Logger) : Logger :=
  if (level_int lv <? level_int (level_ l))%Z then l
  else
    let l := l <| sink_ := sink_ l ++ [SinkAppend (formatter_ l (mkLogRecord lv now (pid_ l) msg fs))] |> in
    if (level_int (flush_level_ l) <=? level_int lv)%Z then l <| sink_ := sink_ l ++ [SinkFlush] |> else l.

(** A record at or above the level is appended once, formatted, and flushed
    at once from the flush level on; anything below leaves the sink alone. *)
Lemma log_spec lv msg fs now l :
  sink_ (log lv msg fs now l) = sink_ l ++
    (if (level_int (level_ l) <=? level_int lv)%Z
     then SinkAppend (formatter_ l (mkLogRecord lv now (pid_ l) msg fs)) ::
          (if (level_int (flush_level_ l) <=? level_int lv)%Z then [SinkFlush] else [])
     else []).
Proof.
  unfold log. rewrite (Z.leb_antisym (level_int lv) (level_int (level_ l))). destruct (level_int lv <? level_int (level_ l))%Z; simpl; [by rewrite app_nil_r|].
  case_match; simpl; by rewrite <-?app_assoc.
Qed.
End LogFormat.
