(* ===== verification/Sink.v ===== *)
(** * Log sinks (logging/sink.h, logging/sink.cc)

    Files are the entries of a map from paths to contents; [rename] and [remove]
    act on it as in POSIX.  What [fopen] reports is an argument.  A sink's lines
    go to its open file; that they sit in a [FILE] buffer until [fflush] is not
    distinguished, since [rotate] and the destructor flush before closing.  Every
    operation holds the sink's mutex. *)

From stdpp Require Import gmap.
From S2P Require Import Prelude CStr.

Abbreviation files := (gmap bytes bytes).

Module Sink.

Definition rename (from to : bytes) (fs : files) : files :=
  match fs !! from with
  | Some c => <[to := c]> (delete from fs)
  | None => fs
  end.
Definition remove (path : bytes) (fs : files) : files := delete path fs.
(** [fopen(path, "a")]: an absent file is created; ["w"] truncates. *)
Definition open_append (path : bytes) (fs : files) : files :=
  match fs !! path with Some _ => fs | None => <[path := []]> fs end.
Definition open_truncate (path : bytes) (fs : files) : files := <[path := []]> fs.
Definition write_line (path line : bytes) (fs : files) : files :=
  <[path := default [] (fs !! path) ++ line ++ [LF]]> fs.

(** ** [FileSink] *)
Record FileSink := mkFileSink { file_path : bytes; file_open : bool }.
Definition FileSink_new (path : bytes) (append_mode : bool) (ok : bool) (fs : files) : FileSink * files :=
  (mkFileSink path ok, if ok then if append_mode then open_append path fs else open_truncate path fs else fs).
Definition file_append (line : bytes) (s : FileSink) (fs : files) : files :=
  if file_open s then write_line (file_path s) line fs else fs.

(** ** [RotatingFileSink] *)
Record RotatingFileSink := mkRotating {
  path_ : bytes;
  max_bytes_ : nat;
  max_files_ : nat;
  fp_ : bool;
  written_ : nat;
}.
#[export] Instance RotatingFileSink_settable : Settable RotatingFileSink := fun s =>
  mkRotating (path_ s) (max_bytes_ s) (max_files_ s) (fp_ s) (written_ s).

Definition rolled (base : bytes) (n : nat) : bytes := base ++ bs "." ++ to_string (Z.of_nat n).

(** [open()]: [ok] says whether [fopen] succeeds. *)
Definition open (ok : bool) (s : RotatingFileSink) (fs : files) : RotatingFileSink * files :=
  if ok then
    let fs := open_append (path_ s) fs in
    (s <| fp_ := true |> <| written_ := length (default [] (fs !! path_ s)) |>, fs)
  else (s <| fp_ := false |> <| written_ := 0 |>, fs).

Definition RotatingFileSink_new (path : bytes) (max_bytes max_files : nat) (ok : bool) (fs : files)
    : RotatingFileSink * files :=
  open ok (mkRotating path (if max_bytes =? 0 then 1 else max_bytes) max_files false 0) fs.

Definition close (s : RotatingFileSink) : RotatingFileSink := s <| fp_ := false |>.

(** The loop of [rotate]: each rolled file moves up by one. *)
Fixpoint shift (base : bytes) (i : nat) (fs : files) : files :=
  match i with
  | S ((S _) as i') => shift base i' (rename (rolled base i') (rolled base i) fs)
  | _ => fs
  end.

Definition rotate (ok : bool) (s : RotatingFileSink) (fs : files) : RotatingFileSink * files :=
  let s := close s in
  if max_files_ s =? 0 then open ok s (if ok then open_truncate (path_ s) fs else fs)
  else
    let fs := remove (rolled (path_ s) (max_files_ s)) fs in
    let fs := shift (path_ s) (max_files_ s) fs in
    let fs := rename (path_ s) (rolled (path_ s) 1) fs in
    open ok s fs.

(** [append]; [None] is [fwrite] to a null [FILE*], which happens when [rotate]
    could not reopen the file. *)
Definition append (ok : bool) (line : bytes) (s : RotatingFileSink) (fs : files) : option (RotatingFileSink * files) :=
  if negb (fp_ s) then Some (s, fs)
  else
    let '(s, fs) :=
      if (max_bytes_ s <? written_ s + length line + 1) && (0 <? written_ s) then rotate ok s fs else (s, fs) in
    if fp_ s then Some (s <| written_ := written_ s + length line + 1 |>, write_line (path_ s) line fs) else None.

(** ** [MultiSink] and [MemorySink] *)

(** A line goes to every downstream sink, in order. *)
Definition multi_append {S : Type} (app : bytes -> S -> S) (line : bytes) (sinks : list S) : list S :=
  map (app line) sinks.

Record MemorySink := mkMemorySink { lines_ : list bytes; flush_count_ : nat }.
Definition MemorySink_new : MemorySink := mkMemorySink [] 0.
Definition mem_append (line : bytes) (s : MemorySink) : MemorySink := mkMemorySink (lines_ s ++ [line]) (flush_count_ s).
Definition mem_flush (s : MemorySink) : MemorySink := mkMemorySink (lines_ s) (S (flush_count_ s)).
Definition mem_clear (s : MemorySink) : MemorySink := mkMemorySink [] 0.
Definition text (s : MemorySink) : bytes :=
  fold_left (fun out l => (match out with [] => [] | _ => out ++ [LF] end) ++ l) (lines_ s) [].

(** ** What rotation does, abstractly

    The files are a list of contents, newest first: a line goes to the newest,
    or starts a new one, and only the newest [max_files + 1] are kept. *)
Definition abs_append (max_bytes max_files : nat) (line : bytes) (segs : list bytes) : list bytes :=
  match segs with
  | [] => []
  | cur :: old =>
    if (max_bytes <? length cur + length line + 1) && (0 <? length cur)
    then take (S max_files) ((line ++ [LF]) :: cur :: old)
    else (cur ++ line ++ [LF]) :: old
  end.

(** The sink [s] on the files [fs] holds the list [segs]. *)
Record holds (s : RotatingFileSink) (fs : files) (segs : list bytes) : Prop := {
  h_open : fp_ s = true;
  h_cur : exists cur old, segs = cur :: old /\ fs !! path_ s = Some cur /\ written_ s = length cur;
  h_old : forall i, 1 <= i <= max_files_ s -> fs !! rolled (path_ s) i = segs !! i;
  h_len : length segs <= S (max_files_ s);
}.

Lemma to_string_inj a b : to_string (Z.of_nat a) = to_string (Z.of_nat b) -> a = b.
Proof.
  unfold to_string. rewrite !(proj2 (Z.ltb_ge _ _)) by lia. intros E.
  pose proof (parse_dec (Z.of_nat a) ltac:(lia)) as Ha. rewrite E, parse_dec in Ha by lia. lia.
Qed.

Lemma rolled_inj base a b : rolled base a = rolled base b -> a = b.
Proof. unfold rolled. intros E%app_inv_head%app_inv_head. by apply to_string_inj. Qed.

Lemma rolled_base base n : rolled base n <> base.
Proof. unfold rolled. intros E. apply (f_equal length) in E. rewrite !length_app in E. simpl in E. lia. Qed.

Lemma rename_from from to fs : from <> to -> rename from to fs !! from = None.
Proof.
  intros Hne. unfold rename. destruct (fs !! from) eqn:E; [|done]. rewrite lookup_insert_ne by done. apply lookup_delete_eq.
Qed.
Lemma rename_to from to fs : fs !! to = None -> rename from to fs !! to = fs !! from.
Proof. intros H. unfold rename. destruct (fs !! from) eqn:E; [apply lookup_insert_eq|done]. Qed.
Lemma rename_other from to fs p : p <> from -> p <> to -> rename from to fs !! p = fs !! p.
Proof. intros. unfold rename. destruct (fs !! from); [|done]. by rewrite lookup_insert_ne, lookup_delete_ne. Qed.

(** The loop moves file [i - 1] to [i] and leaves place 1 free. *)
Lemma shift_spec base m fs :
  fs !! rolled base m = None ->
  (forall i, 2 <= i <= m -> shift base m fs !! rolled base i = fs !! rolled base (i - 1)) /\
  (1 <= m -> shift base m fs !! rolled base 1 = None) /\
  (forall p, (forall i, 1 <= i <= m -> p <> rolled base i) -> shift base m fs !! p = fs !! p).
Proof.
  revert fs. induction m as [|m IH]; intros fs Hm; [split_and!; [intros; lia|lia|done]|].
  destruct m as [|m]; [split_and!; [intros; lia|done|done]|].
  set (fs1 := rename (rolled base (S m)) (rolled base (S (S m))) fs).
  change (shift base (S (S m)) fs) with (shift base (S m) fs1).
  assert (Hne : rolled base (S m) <> rolled base (S (S m))) by (intros ?%rolled_inj; lia).
  destruct (IH fs1 (rename_from _ _ _ Hne)) as (H1 & H2 & H3). split_and!.
  - intros i Hi. destruct (decide (i = S (S m))) as [->|Hi'].
    + rewrite H3 by (intros j Hj ?%rolled_inj; lia). unfold fs1. rewrite rename_to by done. by replace (S (S m) - 1) with (S m) by lia.
    + rewrite H1 by lia. apply rename_other; intros ?%rolled_inj; lia.
  - intros _. apply H2. lia.
  - intros p Hp. rewrite H3 by (intros i Hi; apply Hp; lia). apply rename_other; apply Hp; lia.
Qed.

(** The paths a sink may touch. *)
Definition own_path (s : RotatingFileSink) (p : bytes) : Prop :=
  p = path_ s \/ exists i, 1 <= i <= max_files_ s /\ p = rolled (path_ s) i.

Definition same_config (s s' : RotatingFileSink) : Prop :=
  path_ s' = path_ s /\ max_bytes_ s' = max_bytes_ s /\ max_files_ s' = max_files_ s.

(** Rotation starts a new, empty newest file. *)
Lemma rotate_refines s fs segs :
  holds s fs segs ->
  let r := rotate true s fs in
  holds r.1 r.2 (take (S (max_files_ s)) ([] :: segs)) /\ same_config s r.1 /\
  (forall p, ~ own_path s p -> r.2 !! p = fs !! p).
Proof.
  intros [Hopen (cur & old & Hsegs & Hcur & Hw) Hold Hlen]. unfold rotate, open. simpl.
  destruct (max_files_ s =? 0) eqn:E0; bool_prop; simpl.
  - rewrite E0. unfold open_append, open_truncate. rewrite lookup_insert_eq. simpl. split_and!; try done.
    + split; simpl; try done; try lia. exists [], []. by rewrite lookup_insert_eq.
    + intros p Hp. rewrite lookup_insert_ne; [done|]. intros <-. apply Hp. by left.
  - set (m := max_files_ s) in *. set (fs1 := remove (rolled (path_ s) m) fs).
    destruct (shift_spec (path_ s) m fs1 (lookup_delete_eq _ _)) as (H1 & H2 & H3).
    set (fs2 := shift (path_ s) m fs1) in *. set (fs3 := rename (path_ s) (rolled (path_ s) 1) fs2).
    assert (Hb : forall i, rolled (path_ s) i <> path_ s) by (intros; apply rolled_base).
    assert (Hcur2 : fs2 !! path_ s = Some cur).
    { unfold fs2. rewrite H3 by (intros i _ E; symmetry in E; by apply Hb in E). unfold fs1, remove. by rewrite lookup_delete_ne. }
    assert (Hcur3 : fs3 !! path_ s = None) by (apply rename_from; intros E; symmetry in E; by apply Hb in E).
    unfold open_append. rewrite Hcur3, lookup_insert_eq. simpl. split_and!; try done.
    + split; simpl; try done.
      * exists [], (take m segs). by rewrite lookup_insert_eq.
      * intros i Hi. rewrite lookup_insert_ne by (intros E; symmetry in E; by apply Hb in E).
        destruct i as [|i]; [lia|]. simpl. rewrite lookup_take_lt by lia.
        destruct (decide (i = 0)) as [->|Hi0].
        -- unfold fs3. rewrite rename_to by (apply H2; lia). by rewrite Hcur2, Hsegs.
        -- unfold fs3. rewrite rename_other; [|apply Hb|intros ?%rolled_inj; lia].
           unfold fs2. rewrite H1 by lia. replace (S i - 1) with i by lia. unfold fs1, remove.
           rewrite lookup_delete_ne by (intros ?%rolled_inj; lia). apply Hold. lia.
      * rewrite length_take. simpl. lia.
    + intros p Hp. assert (Hp1 : p <> path_ s) by (intros ->; apply Hp; by left).
      assert (Hp2 : forall i, 1 <= i <= m -> p <> rolled (path_ s) i) by (intros i Hi ->; apply Hp; right; by exists i).
      rewrite lookup_insert_ne by done. unfold fs3. rewrite rename_other by (done || (apply Hp2; lia)).
      unfold fs2. rewrite H3 by done. unfold fs1, remove. rewrite lookup_delete_ne; [done|]. intros E. apply (Hp2 m); [lia|done].
Qed.

(** Writing to the newest file. *)
Lemma write_refines s fs line cur old :
  holds s fs (cur :: old) ->
  holds (s <| written_ := written_ s + length line + 1 |>) (write_line (path_ s) line fs) ((cur ++ line ++ [LF]) :: old).
Proof.
  intros [Hopen (c & o & [= <- <-] & Hcur & Hw) Hold Hlen]. unfold write_line. rewrite Hcur. split; simpl; try done.
  - exists (cur ++ line ++ [LF]), old. rewrite lookup_insert_eq. split_and!; try done. rewrite !length_app. simpl. lia.
  - intros i Hi. rewrite lookup_insert_ne by (intros E; symmetry in E; by apply rolled_base in E). rewrite Hold by done.
    by destruct i; [lia|].
Qed.

Lemma append_refines line s fs segs :
  holds s fs segs ->
  exists s' fs', append true line s fs = Some (s', fs') /\
    holds s' fs' (abs_append (max_bytes_ s) (max_files_ s) line segs) /\ same_config s s' /\
    (forall p, ~ own_path s p -> fs' !! p = fs !! p).
Proof.
  intros H. pose proof H as [Hopen (cur & old & -> & Hcur & Hw) _ _]. unfold append, abs_append. rewrite Hopen, Hw. simpl.
  assert (Hframe : forall q fs p, path_ q = path_ s -> ~ own_path s p -> write_line (path_ q) line fs !! p = fs !! p).
  { intros q fs0 p Hq Hp. unfold write_line. rewrite lookup_insert_ne; [done|]. intros E. apply Hp. left. congruence. }
  destruct ((max_bytes_ s <? length cur + length line + 1) && (0 <? length cur)) eqn:E.
  - pose proof (rotate_refines s fs _ H) as (H1 & H2 & H3). destruct (rotate true s fs) as [s1 fs1]. simpl in *.
    rewrite (h_open _ _ _ H1). eexists _, _. split; [done|]. split_and!; [|done|].
    + pose proof (write_refines s1 fs1 line [] _ H1) as Hwr. simpl in Hwr. by rewrite (h_open _ _ _ H1) in Hwr.
    + intros p Hp. rewrite Hframe by (done || apply H2). by apply H3.
  - rewrite Hopen. eexists _, _. split; [done|]. split_and!; [|done|by intros; apply Hframe].
    pose proof (write_refines s fs line cur old H) as Hwr. simpl in Hwr. by rewrite Hopen in Hwr.
Qed.

(** A run of appends whose reopenings succeed. *)
Fixpoint append_all (lines : list bytes) (s : RotatingFileSink) (fs : files) : option (RotatingFileSink * files) :=
  match lines with
  | [] => Some (s, fs)
  | l :: ls => match append true l s fs with Some (s', fs') => append_all ls s' fs' | None => None end
  end.

Definition stream (lines : list bytes) : bytes := concat (map (fun l => l ++ [LF]) lines).

Definition abs_append_all (max_bytes max_files : nat) (lines : list bytes) (segs : list bytes) : list bytes :=
  fold_left (fun segs l => abs_append max_bytes max_files l segs) lines segs.

Lemma append_all_refines lines s fs segs :
  holds s fs segs ->
  exists s' fs', append_all lines s fs = Some (s', fs') /\
    holds s' fs' (abs_append_all (max_bytes_ s) (max_files_ s) lines segs) /\ same_config s s' /\
    (forall p, ~ own_path s p -> fs' !! p = fs !! p).
Proof.
  revert s fs segs. induction lines as [|l ls IH]; intros s fs segs H.
  - eexists _, _. by split_and!.
  - destruct (append_refines l s fs segs H) as (s1 & fs1 & E1 & H1 & (C1 & C2 & C3) & F1).
    destruct (IH s1 fs1 _ H1) as (s2 & fs2 & E2 & H2 & (D1 & D2 & D3) & F2).
    exists s2, fs2. cbn [append_all]. rewrite E1. split_and!; [done|by rewrite C2, C3 in H2| |].
    + unfold same_config. by rewrite D1, D2, D3.
    + intros p Hp. rewrite F2, F1; [done|done|]. unfold own_path in *. by rewrite C1, C3.
Qed.

(** The files, oldest first, are the end of the stream of lines, and a file is
    over the limit only if it holds a single line. *)
Definition segs_ok (max_bytes max_files : nat) (all : bytes) (segs : list bytes) : Prop :=
  (exists lost, all = lost ++ concat (rev segs)) /\ length segs <= S max_files /\
  Forall (fun f => length f <= max_bytes \/ exists l, f = l ++ [LF]) segs.

Lemma take_rev_concat (k : nat) (segs : list bytes) : exists lost, concat (rev segs) = lost ++ concat (rev (take k segs)).
Proof.
  exists (concat (rev (drop k segs))). rewrite <-concat_app, <-rev_app_distr. by rewrite take_drop.
Qed.

Lemma abs_append_ok max_bytes max_files all line segs :
  segs <> [] -> segs_ok max_bytes max_files all segs ->
  abs_append max_bytes max_files line segs <> [] /\
  segs_ok max_bytes max_files (all ++ line ++ [LF]) (abs_append max_bytes max_files line segs).
Proof.
  intros Hne ((lost & ->) & Hlen & Hf). destruct segs as [|cur old]; [done|]. apply Forall_cons in Hf as [Hc Ho]. simpl in Hlen.
  unfold abs_append. destruct ((max_bytes <? length cur + length line + 1) && (0 <? length cur)) eqn:E.
  - split; [done|]. split_and!.
    + destruct (take_rev_concat (S max_files) ((line ++ [LF]) :: cur :: old)) as [lost' Hl].
      exists (lost ++ lost'). rewrite <-(app_assoc lost lost'), <-Hl. simpl. rewrite !concat_app. simpl. by rewrite !app_nil_r, <-!app_assoc.
    + rewrite length_take. lia.
    + apply Forall_take. constructor; [right; by exists line|by constructor].
  - split; [done|]. split_and!.
    + exists lost. simpl. rewrite !concat_app. simpl. by rewrite !app_nil_r, <-!app_assoc.
    + simpl. lia.
    + constructor; [|done]. apply andb_false_iff in E as [E|E]; bool_prop.
      * left. rewrite !length_app. simpl. lia.
      * right. exists line. by destruct cur; [|simpl in E; lia].
Qed.

Lemma abs_append_all_ok max_bytes max_files lines all segs :
  segs <> [] -> segs_ok max_bytes max_files all segs ->
  segs_ok max_bytes max_files (all ++ stream lines) (abs_append_all max_bytes max_files lines segs).
Proof.
  revert all segs. induction lines as [|l ls IH]; intros all segs Hne Hok; cbn [stream map concat].
  - by rewrite app_nil_r.
  - destruct (abs_append_ok max_bytes max_files all l segs Hne Hok) as [H1 H2]. rewrite app_assoc. by apply IH.
Qed.



(** The same run, evaluated: the first two lines are gone, two files remain. *)
Example rotation_run :
  let r := RotatingFileSink_new (bs "log") 4 1 true ∅ in
  match append_all [bs "a"; bs "b"; bs "c"; bs "d"; bs "e"] r.1 r.2 with
  | Some (_, fs) => (fs !! bs "log.1", fs !! bs "log")
  | None => (None, None)
  end = (Some (bs "c" ++ [LF] ++ bs "d" ++ [LF]), Some (bs "e" ++ [LF])).
Proof. vm_compute. reflexivity. Qed.

(** When the file cannot be reopened after a rotation, the sink writes
    through a null [FILE*], although a sink whose file failed to open is meant to
    drop its lines: whenever a line is due to rotate and [fopen] fails, [append]
    has no defined result. *)
Theorem rotate_reopen_crashes line s fs :
  fp_ s = true -> 0 < written_ s -> max_bytes_ s < written_ s + length line + 1 -> append false line s fs = None.
Proof.
  intros H1 H2 H3. unfold append. rewrite H1. simpl. apply Nat.ltb_lt in H2, H3. rewrite H2, H3. simpl.
  unfold rotate, open. simpl. by destruct (max_files_ s =? 0).
Qed.

Lemma rotate_reopen_crashes_witness :
  append false (bs "bb") (mkRotating (bs "log") 3 2 true 3) {[ bs "log" := bs "aa" ++ [LF] ]} = None.
Proof. apply (rotate_reopen_crashes (bs "bb") (mkRotating (bs "log") 3 2 true 3)); [reflexivity|simpl; lia|simpl; lia]. Defined.

(** Finding: [MemorySink::text] is documented as the lines joined by line
    breaks; the separator is left out as long as the text is still empty. *)
Lemma memory_text_leading_empty :
  text (mem_append (bs "a") (mem_append [] MemorySink_new)) = bs "a".
Proof. reflexivity. Qed.
End Sink.
