(* ===== verification/Logging.v ===== *)
(** * Loggers, shared sinks and a crash (logging/logger, logging/log_macros.h,
    logging/sink.cc)

    Loggers hold shared sinks; the synchronous sinks write through [stdio], which
    keeps bytes in the process until it flushes or its buffer is full.  A crash
    loses what is still in the process: [disk] is what remains. *)

From stdpp Require Import gmap.
From S2P Require Import Prelude CStr LogFormat Sink.
Import LogFormat.

Module Logging.

(** ** [stdio] *)

(** A [FILE]: the path it writes to and the bytes it holds back. *)
Record FILE := mkFILE { target : bytes; buffered : bytes }.
#[export] Instance FILE_settable : Settable FILE := fun f => mkFILE (target f) (buffered f).

Record Stdio := mkStdio { streams : gmap nat FILE; disk : gmap bytes bytes }.
#[export] Instance Stdio_settable : Settable Stdio := fun st => mkStdio (streams st) (disk st).

Definition write_disk (path data : bytes) (d : gmap bytes bytes) : gmap bytes bytes :=
  <[path := default [] (d !! path) ++ data]> d.

Definition fwrite (data : bytes) (s : nat) (st : Stdio) : Stdio :=
  st <| streams := alter (fun f => f <| buffered := buffered f ++ data |>) s (streams st) |>.

(** The library passes on the first [n] bytes it holds: at any time. *)
Definition spill (n : nat) (s : nat) (st : Stdio) : Stdio :=
  match streams st !! s with
  | None => st
  | Some f => st <| streams := <[s := f <| buffered := drop n (buffered f) |>]> (streams st) |>
                 <| disk := write_disk (target f) (take n (buffered f)) (disk st) |>
  end.

Definition fflush (s : nat) (st : Stdio) : Stdio :=
  match streams st !! s with None => st | Some f => spill (length (buffered f)) s st end.

Definition fclose (s : nat) (st : Stdio) : Stdio :=
  let st := fflush s st in st <| streams := delete s (streams st) |>.

(** ** The sinks *)

(** The standard output is stream 0; [fp] of a file sink is null when [fopen]
    failed. *)
Inductive sink := StdoutSink | FileSink (fp : option nat) | MultiSink (sinks : list sink).

Definition stdout : nat := 0.

Definition write_line (s : nat) (line : bytes) (st : Stdio) : Stdio := fwrite [LF] s (fwrite line s st).

Fixpoint append (line : bytes) (sk : sink) (st : Stdio) {struct sk} : Stdio :=
  match sk with
  | StdoutSink => write_line stdout line st
  | FileSink None => st
  | FileSink (Some fp) => write_line fp line st
  | MultiSink sinks => fold_left (fun st s => append line s st) sinks st
  end.

Fixpoint flush (sk : sink) (st : Stdio) {struct sk} : Stdio :=
  match sk with
  | StdoutSink => fflush stdout st
  | FileSink None => st
  | FileSink (Some fp) => fflush fp st
  | MultiSink sinks => fold_left (fun st s => flush s st) sinks st
  end.

(** [~FileSink] *)
Definition FileSink_destroy (sk : sink) (st : Stdio) : Stdio :=
  match sk with FileSink (Some fp) => fclose fp (fflush fp st) | _ => st end.

(** [newFileSink]: [fp] is the stream [fopen] returns. *)
Definition newFileSink (path : bytes) (append_mode : bool) (fp : option nat) (st : Stdio) : sink * Stdio :=
  (FileSink fp,
   match fp with
   | None => st
   | Some s => st <| streams := <[s := mkFILE path []]> (streams st) |>
                  <| disk := if append_mode then write_disk path [] (disk st) else <[path := []]> (disk st) |>
   end).

(** ** The loggers of a process *)

(** A logger with the sink it shares. *)
Record Process := mkProcess {
  stdio : Stdio;
  sinks : gmap nat sink;
  loggers : gmap nat (Logger * nat);
}.
#[export] Instance Process_settable : Settable Process := fun p => mkProcess (stdio p) (sinks p) (loggers p).

(** [defaultSink()], made by the first logger that needs it. *)
Definition default_sink : nat := 0.
Definition defaultSink (p : Process) : Process :=
  match sinks p !! default_sink with Some _ => p | None => p <| sinks := <[default_sink := StdoutSink]> (sinks p) |> end.

(** The constructors: without a sink the default one is shared. *)
Definition newLogger (id : nat) (lv : LogLevel) (formatter : LogRecord -> bytes) (sk : option nat) (tid : bytes) (p : Process) : Process :=
  let p := match sk with None => defaultSink p | Some _ => p end in
  p <| loggers := <[id := (Logger_new lv formatter tid, default default_sink sk)]> (loggers p) |>.

Definition setSink (id : nat) (sk : nat) (p : Process) : Process :=
  p <| loggers := alter (fun l => (l.1, sk)) id (loggers p) |>.

Definition do_call (sk : sink) (c : sink_call) (st : Stdio) : Stdio :=
  match c with SinkAppend line => append line sk st | SinkFlush => flush sk st end.

(** [Logger::log]: what the logger asks of its sink happens to the streams. *)
Definition log (id : nat) (lv : LogLevel) (msg : bytes) (fs : list (bytes * bytes)) (now : Timestamp.Timestamp.Timestamp) (p : Process) : Process :=
  match loggers p !! id with
  | None => p
  | Some (l, k) =>
    match sinks p !! k with
    | None => p
    | Some sk =>
      let calls := sink_ (LogFormat.log lv msg fs now (l <| sink_ := [] |>)) in
      p <| stdio := fold_left (fun st c => do_call sk c st) calls (stdio p) |>
    end
  end.

(** [COX_LOG_EMIT] and [COX_LOG_EMIT_F]: the level is looked at before the message
    is built. *)
Definition emit (id : nat) (lv : LogLevel) (func msg : bytes) (fs : list (bytes * bytes)) (now : Timestamp.Timestamp.Timestamp) (p : Process) : Process :=
  match loggers p !! id with
  | None => p
  | Some (l, _) =>
    if (level_int (level_ l) <=? level_int lv)%Z then log id lv (func ++ bs ": " ++ msg) fs now p else p
  end.

(** The streams a sink writes to. *)
Fixpoint leaves (sk : sink) : list nat :=
  match sk with
  | StdoutSink => [stdout]
  | FileSink None => []
  | FileSink (Some fp) => [fp]
  | MultiSink sinks => concat (map leaves sinks)
  end.

Lemma sink_deep_ind (P : sink -> Prop) :
  P StdoutSink -> (forall fp, P (FileSink fp)) -> (forall l, Forall P l -> P (MultiSink l)) -> forall sk, P sk.
Proof.
  intros H1 H2 H3. fix IH 1. intros [|fp|l]; [exact H1|apply H2|]. apply H3. induction l; constructor; [apply IH|done].
Qed.

Lemma append_leaves line sk : forall st, append line sk st = fold_left (fun st s => write_line s line st) (leaves sk) st.
Proof.
  induction sk as [|[fp|]|l IH] using sink_deep_ind; intros st; try done. simpl. revert st.
  induction IH as [|sk l Hsk _ IHl]; intros st; [done|]. simpl. rewrite fold_left_app, Hsk. apply IHl.
Qed.

Lemma flush_leaves sk : forall st, flush sk st = fold_left (fun st s => fflush s st) (leaves sk) st.
Proof.
  induction sk as [|[fp|]|l IH] using sink_deep_ind; intros st; try done. simpl. revert st.
  induction IH as [|sk l Hsk _ IHl]; intros st; [done|]. simpl. rewrite fold_left_app, Hsk. apply IHl.
Qed.

(** ** What survives

    [later st st']: the bytes on disk only grow, and no stream loses bytes
    without passing them on. *)
Definition on_disk (path : bytes) (st : Stdio) : bytes := default [] (disk st !! path).
Definition later (st st' : Stdio) : Prop := forall path, on_disk path st `prefix_of` on_disk path st'.

#[export] Instance later_preorder : PreOrder later.
Proof. split; [by intros st path|]. intros a b c H1 H2 path. etrans; [apply H1|apply H2]. Qed.

Lemma write_disk_later path data st p' :
  p' = st <| disk := write_disk path data (disk st) |> \/ disk p' = write_disk path data (disk st) -> later st p'.
Proof.
  intros Hd q. unfold on_disk. assert (disk p' = write_disk path data (disk st)) as -> by (by destruct Hd as [->|]).
  unfold write_disk. destruct (decide (q = path)) as [->|Hne].
  - rewrite lookup_insert_eq. simpl. by apply prefix_app_r.
  - by rewrite lookup_insert_ne.
Qed.

Lemma spill_later n s st : later st (spill n s st).
Proof. unfold spill. destruct (streams st !! s) as [f|]; [|done]. eapply write_disk_later. by right. Qed.

Lemma fflush_later s st : later st (fflush s st).
Proof. unfold fflush. destruct (streams st !! s); [apply spill_later|done]. Qed.

Lemma fold_later {X} (f : Stdio -> X -> Stdio) l :
  (forall st x, later st (f st x)) -> forall st, later st (fold_left f l st).
Proof. intros Hf. induction l as [|x l IH]; intros st; [done|]. simpl. etrans; [apply Hf|apply IH]. Qed.

Lemma do_call_later sk c st : later st (do_call sk c st).
Proof.
  destruct c as [line|]; simpl; [rewrite append_leaves|rewrite flush_leaves]; apply fold_later; intros; [by intros path|apply fflush_later].
Qed.

Lemma log_later id lv msg fs now p : later (stdio p) (stdio (log id lv msg fs now p)).
Proof.
  unfold log. destruct (loggers p !! id) as [[l k]|]; [|done]. destruct (sinks p !! k); [|done]. simpl. apply fold_later. intros; apply do_call_later.
Qed.

(** The steps of a process: logging by any logger through the macros or not,
    changes of sinks and loggers, the library's own writes; a file is truncated
    only while no stream has it open. *)
Inductive step : Process -> Process -> Prop :=
| step_log id lv msg fs now p : step p (log id lv msg fs now p)
| step_emit id lv func msg fs now p : step p (emit id lv func msg fs now p)
| step_spill n s p : step p (p <| stdio := spill n s (stdio p) |>)
| step_logger id lv fmt sk tid p : step p (newLogger id lv fmt sk tid p)
| step_setSink id sk p : step p (setSink id sk p)
| step_sink k sk p : sinks p !! k = None -> step p (p <| sinks := <[k := sk]> (sinks p) |>)
| step_open path mode fp p :
    (forall s, fp = Some s -> streams (stdio p) !! s = None) -> (mode = false -> on_disk path (stdio p) = []) ->
    step p (p <| stdio := (newFileSink path mode fp (stdio p)).2 |>)
| step_destroy sk p : step p (p <| stdio := FileSink_destroy sk (stdio p) |>).

Lemma step_later p p' : step p p' -> later (stdio p) (stdio p').
Proof.
  intros Hs. destruct Hs as [id lv msg fs now p|id lv func msg fs now p|n s p|id lv fmt sk tid p|id sk p|k sk p _|path mode fp p Hf Hm|sk p]; simpl.
  - apply log_later.
  - unfold emit. destruct (loggers p !! id) as [[l k]|]; [|done]. case_match; [apply log_later|done].
  - apply spill_later.
  - unfold newLogger, defaultSink. destruct sk; [done|]. by destruct (sinks p !! default_sink).
  - done.
  - done.
  - destruct fp as [s|]; [|done]. destruct mode; [eapply write_disk_later; by right|]. intros q. unfold on_disk in *. simpl.
    destruct (decide (q = path)) as [->|Hne]; [rewrite Hm by done; apply prefix_nil|by rewrite lookup_insert_ne].
  - unfold FileSink_destroy. destruct sk as [|[fp|]|]; try done. unfold fclose. simpl.
    etrans; [apply fflush_later|]. intros q. apply (fflush_later fp (fflush fp (stdio p))).
Qed.

(** Writing a line leaves it at the end of the bytes each stream holds. *)
Definition held (s : nat) (entry : bytes) (st : Stdio) : Prop :=
  exists f, streams st !! s = Some f /\ exists a, buffered f = a ++ entry.

Lemma write_line_streams s line st t :
  streams (write_line s line st) !! t =
  if decide (t = s) then (fun f => f <| buffered := buffered f ++ line ++ [LF] |>) <$> streams st !! t else streams st !! t.
Proof.
  unfold write_line, fwrite. simpl. case_decide as Ht; [subst t; rewrite !lookup_alter_eq|by rewrite !lookup_alter_ne by done].
  destruct (streams st !! s) as [f|]; [|done]. simpl. by rewrite <-app_assoc.
Qed.

Lemma append_held line l : forall st s,
  (s ∈ l \/ held s (line ++ [LF]) st) -> is_Some (streams st !! s) ->
  held s (line ++ [LF]) (fold_left (fun st s => write_line s line st) l st).
Proof.
  induction l as [|x l IH]; intros st s Hor Hs; simpl; [destruct Hor as [[]%elem_of_nil|]; done|].
  assert (Hs' : is_Some (streams (write_line x line st) !! s)).
  { rewrite write_line_streams. case_decide; [by apply fmap_is_Some|done]. }
  apply IH; [|done]. destruct (decide (s = x)) as [->|Hne].
  - right. destruct Hs as [f Hf]. unfold held. rewrite write_line_streams, decide_True, Hf by done. eexists. split; [reflexivity|]. by eexists.
  - destruct Hor as [[->|Hin]%elem_of_cons|(f & Hf & Ha)]; [done|by left|]. right. exists f.
    by rewrite write_line_streams, decide_False.
Qed.

(** Flushing passes everything on, in the order of the streams. *)
Lemma fflush_streams s st t :
  streams (fflush s st) !! t = if decide (t = s) then (fun f => f <| buffered := [] |>) <$> streams st !! t else streams st !! t.
Proof.
  unfold fflush, spill. destruct (streams st !! s) as [f|] eqn:E; simpl.
  - case_decide as Ht; [subst t; rewrite lookup_insert_eq, E; simpl; by rewrite drop_all|by rewrite lookup_insert_ne].
  - case_decide as Ht; [by subst; rewrite E|done].
Qed.

Lemma fflush_entry s entry f a st :
  streams st !! s = Some f -> buffered f = a ++ entry ->
  on_disk (target f) (fflush s st) = on_disk (target f) st ++ a ++ entry.
Proof.
  intros Hf Hb. unfold fflush, spill, on_disk, write_disk. rewrite Hf. simpl. rewrite lookup_insert_eq. simpl.
  by rewrite firstn_all, Hb.
Qed.

Lemma flush_entry entry l : forall st s f a,
  s ∈ l -> streams st !! s = Some f -> buffered f = a ++ entry ->
  exists x, (on_disk (target f) st ++ x ++ entry) `prefix_of` on_disk (target f) (fold_left (fun st s => fflush s st) l st).
Proof.
  induction l as [|y l IH]; intros st s f a Hin Hf Hb; [by apply elem_of_nil in Hin|]. simpl.
  destruct (decide (s = y)) as [->|Hne].
  - exists a. rewrite <-(fflush_entry _ _ _ _ _ Hf Hb). apply fold_later. intros; apply fflush_later.
  - apply elem_of_cons in Hin as [->|Hin]; [done|].
    destruct (IH (fflush y st) s f a Hin) as [x Hx]; [by rewrite fflush_streams, decide_False|done|].
    destruct (fflush_later y st (target f)) as [z Hz]. rewrite Hz in Hx. exists (z ++ x). by rewrite <-!app_assoc in *.
Qed.

Lemma flush_empty l : forall st s f, s ∈ l -> streams (fold_left (fun st s => fflush s st) l st) !! s = Some f -> buffered f = [].
Proof.
  assert (Hkeep : forall l st s f, (forall g, streams st !! s = Some g -> buffered g = []) ->
    streams (fold_left (fun st s => fflush s st) l st) !! s = Some f -> buffered f = []).
  { induction l0 as [|y l0 IH]; intros st s f Hb; simpl; [apply Hb|]. apply IH. intros g. rewrite fflush_streams.
    case_decide; [|apply Hb]. destruct (streams st !! s); simpl; [by intros [= <-]|done]. }
  induction l as [|y l IH]; intros st s f Hin; [by apply elem_of_nil in Hin|]. simpl.
  apply elem_of_cons in Hin as [->|Hin]; [|by apply IH]. apply Hkeep. intros g. rewrite fflush_streams, decide_True by done.
  destruct (streams st !! y); simpl; [by intros [= <-]|done].
Qed.


(** The macros write what [log] writes, with the name of the function in front. *)
Lemma emit_spec id lv func msg fs now p : emit id lv func msg fs now p = log id lv (func ++ bs ": " ++ msg) fs now p.
Proof.
  unfold emit. destruct (loggers p !! id) as [[l k]|] eqn:E; [|by unfold log; rewrite E].
  destruct (level_int (level_ l) <=? level_int lv)%Z eqn:El; [done|]. unfold log. rewrite E. destruct (sinks p !! k); [|done].
  rewrite log_spec. simpl. rewrite El. simpl. by destruct p.
Qed.

(** Loggers made without a sink share one. *)
Lemma default_sink_shared lv1 fmt1 t1 lv2 fmt2 t2 p :
  let p' := newLogger 2 lv2 fmt2 None t2 (newLogger 1 lv1 fmt1 None t1 p) in
  (snd <$> loggers p' !! 1) = Some default_sink /\ (snd <$> loggers p' !! 2) = Some default_sink /\ is_Some (sinks p' !! default_sink).
Proof.
  unfold newLogger. simpl. rewrite lookup_insert_ne, !lookup_insert_eq by done.
  assert (Hl : forall q, loggers (defaultSink q) = loggers q) by (intros q; unfold defaultSink; by destruct (sinks q !! default_sink)).
  assert (Hs : forall q, is_Some (sinks (defaultSink q) !! default_sink)).
  { intros q. unfold defaultSink. destruct (sinks q !! default_sink) eqn:E; simpl; [by rewrite E|by rewrite lookup_insert_eq]. }
  rewrite Hl. simpl. rewrite lookup_insert_eq. split_and!; [done|done|apply Hs].
Qed.

Definition demo_process : Process :=
  newLogger 1 Info message None (bs "7")
    (mkProcess (mkStdio {[stdout := mkFILE (bs "out") (bs "earlier")]} {[bs "out" := []]}) ∅ ∅).

End Logging.
