(* ===== verification/AsyncSink.v ===== *)
(** * The asynchronous log sink (logging/async_sink.h, logging/async_sink.cc)

    Producers append under the mutex; one writer thread takes the whole buffer
    and does its I/O with the mutex released.  A critical section is one step,
    each call of the downstream sink is one step, and the steps of producers,
    flushing threads, the writer and [stop()] interleave in any order.  A thread
    in a condition-variable wait may be woken spuriously; the writer's wait also
    ends by its time-out. *)

From S2P Require Import Prelude CStr.

Module AsyncSink.

(** What the downstream sink is asked to do. *)
Inductive call := AppendLine (line : bytes) | AppendReport (n : nat) | FlushCall.

(** The text a call appends. *)
Definition call_text (c : call) : option bytes :=
  match c with
  | AppendLine l => Some l
  | AppendReport n =>
    Some (bs "AsyncSink: dropped " ++ dec (Z.of_nat n) ++ bs " log line(s) -- buffer full")
  | FlushCall => None
  end.

(** The writer thread: before its critical section, inside the wait, writing
    its batch (what is left of it, the drops to report, whether it was empty),
    flushing it, before the last critical section, or returned. *)
Inductive writer :=
| WLoop
| WWaiting
| WWriting (rest : list bytes) (drops : nat) (any : bool)
| WFlushing
| WCheck
| WExited.

(** A thread in [flush()]. *)
Inductive flusher := FWaiting | FWoken | FDownstream | FDone.
#[export] Instance flusher_eq_dec : EqDecision flusher.
Proof. solve_decision. Defined.

(** The thread in [stop()]: not called, the flag cleared, notified and joining,
    appending what was left, done. *)
Inductive stopper := SNone | SFlagged | SJoining | SDraining (leftover : list bytes) | SDone.

Record AsyncSink := mkAsyncSink {
  max_lines_ : nat;
  current_ : list bytes;
  writing_ : list bytes;
  dropped_ : nat;
  reported_drops_ : nat;
  running_ : bool;
  thread_ : writer;
  flushers : list flusher;
  stopping : stopper;
  downstream_ : list call;
  (* ghost *)
  accepted : list bytes;
  refused : nat;                (* lines offered after stop() began *)
  offered : nat;
}.
#[export] Instance AsyncSink_settable : Settable AsyncSink := fun s =>
  mkAsyncSink (max_lines_ s) (current_ s) (writing_ s) (dropped_ s) (reported_drops_ s) (running_ s)
    (thread_ s) (flushers s) (stopping s) (downstream_ s) (accepted s) (refused s) (offered s).

Definition AsyncSink_new (max_buffered_lines : nat) : AsyncSink :=
  mkAsyncSink (if max_buffered_lines =? 0 then 1 else max_buffered_lines) [] [] 0 0 true WLoop [] SNone [] [] 0 0.

Definition call_downstream (c : call) (s : AsyncSink) : AsyncSink := s <| downstream_ := downstream_ s ++ [c] |>.

(** [drained_.notify_all()] *)
Definition wake (f : flusher) : flusher := match f with FWaiting => FWoken | _ => f end.
Definition notify_drained (s : AsyncSink) : AsyncSink := s <| flushers := map wake (flushers s) |>.

Definition append (line : bytes) (s : AsyncSink) : AsyncSink :=
  let s := s <| offered := S (offered s) |> in
  if negb (running_ s) then s <| refused := S (refused s) |>
  else if max_lines_ s <=? length (current_ s) + length (writing_ s) then s <| dropped_ := S (dropped_ s) |>
  else s <| current_ := current_ s ++ [line] |> <| accepted := accepted s ++ [line] |>.

Definition isnil {A} (l : list A) : bool := match l with [] => true | _ => false end.

(** The predicate of [flush]'s wait. *)
Definition drained (s : AsyncSink) : bool := (isnil (current_ s) && isnil (writing_ s)) || negb (running_ s).

(** [flush()] up to its wait, by a new thread. *)
Definition flush_enter (s : AsyncSink) : AsyncSink :=
  if negb (running_ s) then s <| flushers := flushers s ++ [FDownstream] |>
  else s <| flushers := flushers s ++ [if drained s then FDownstream else FWaiting] |>.

(** Thread [i] leaves its wait, or waits on. *)
Definition flush_wake (i : nat) (s : AsyncSink) : AsyncSink :=
  s <| flushers := <[i := if drained s then FDownstream else FWaiting]> (flushers s) |>.

(** The end of [flush()]: the downstream sink is flushed without the mutex. *)
Definition flush_downstream (i : nat) (s : AsyncSink) : AsyncSink :=
  call_downstream FlushCall (s <| flushers := <[i := FDone]> (flushers s) |>).

(** [writerThread]'s critical section from behind the wait: exit, or swap. *)
Definition take_batch (s : AsyncSink) : AsyncSink :=
  if negb (running_ s) && isnil (current_ s) then notify_drained (s <| thread_ := WExited |>)
  else
    let batch := current_ s in
    let s := s <| current_ := writing_ s |> <| writing_ := [] |> in
    let total := dropped_ s in
    let drops := if reported_drops_ s <? total then total - reported_drops_ s else 0 in
    let s := if reported_drops_ s <? total then s <| reported_drops_ := total |> else s in
    s <| thread_ := WWriting batch drops (negb (isnil batch)) |>.

(** One step of the writer thread. *)
Definition writer_step (s : AsyncSink) : AsyncSink :=
  match thread_ s with
  | WLoop => if isnil (current_ s) && running_ s then s <| thread_ := WWaiting |> else take_batch s
  | WWaiting => take_batch s     (* notified with work to do or a stop, or timed out *)
  | WWriting (l :: rest) drops any => (call_downstream (AppendLine l) s) <| thread_ := WWriting rest drops any |>
  | WWriting [] drops any =>
    let s := if 0 <? drops then call_downstream (AppendReport drops) s else s in
    s <| thread_ := if any then WFlushing else WCheck |>
  | WFlushing => (call_downstream FlushCall s) <| thread_ := WCheck |>
  | WCheck =>
    let s := if isnil (current_ s) && isnil (writing_ s) then notify_drained s else s in
    s <| thread_ := WLoop |>
  | WExited => s
  end.

(** One step of [stop()]. *)
Definition stop_step (s : AsyncSink) : AsyncSink :=
  match stopping s with
  | SNone => s <| running_ := false |> <| stopping := SFlagged |>
  | SFlagged => (notify_drained s) <| stopping := SJoining |>
  | SJoining =>
    match thread_ s with
    | WExited => s <| stopping := SDraining (writing_ s ++ current_ s) |> <| writing_ := [] |> <| current_ := [] |>
    | _ => s                      (* join() waits *)
    end
  | SDraining (l :: rest) => (call_downstream (AppendLine l) s) <| stopping := SDraining rest |>
  | SDraining [] => (call_downstream FlushCall s) <| stopping := SDone |>
  | SDone => s                    (* stop() again returns at once *)
  end.

Inductive step : AsyncSink -> AsyncSink -> Prop :=
| step_append l s : step s (append l s)
| step_flush s : step s (flush_enter s)
| step_wake i s : flushers s !! i = Some FWaiting \/ flushers s !! i = Some FWoken -> step s (flush_wake i s)
| step_flushed i s : flushers s !! i = Some FDownstream -> step s (flush_downstream i s)
| step_writer s : step s (writer_step s)
| step_stop s : step s (stop_step s).

(** ** The invariant *)
Definition lines_of (cs : list call) : list bytes :=
  concat (map (fun c => match c with AppendLine l => [l] | _ => [] end) cs).
Definition reports_of (cs : list call) : nat :=
  sum_list (map (fun c => match c with AppendReport n => n | _ => 0 end) cs).
(** What the writer has taken and not handed on yet. *)
Definition in_hand (w : writer) : list bytes := match w with WWriting rest _ _ => rest | _ => [] end.
Definition to_report (w : writer) : nat := match w with WWriting _ d _ => d | _ => 0 end.
Definition leftover (p : stopper) : list bytes := match p with SDraining l => l | _ => [] end.

Record sink_ok (s : AsyncSink) : Prop := {
  ok_max : 0 < max_lines_ s;
  ok_writing : writing_ s = [];
  ok_lines : accepted s = lines_of (downstream_ s) ++ in_hand (thread_ s) ++ current_ s;
  ok_current : length (current_ s) <= max_lines_ s;
  ok_batch : length (in_hand (thread_ s)) <= max_lines_ s;
  ok_offered : offered s = length (accepted s) + dropped_ s + refused s;
  ok_reports : reports_of (downstream_ s) + to_report (thread_ s) = reported_drops_ s;
  ok_drops : reported_drops_ s <= dropped_ s;
  ok_running : running_ s = true <-> stopping s = SNone;
  ok_exited : thread_ s = WExited -> current_ s = [] /\ running_ s = false;
  ok_stopped : match stopping s with SDraining l => l = [] /\ thread_ s = WExited | SDone => thread_ s = WExited | _ => True end;
  (* a flusher asleep will be woken: there are lines for the writer to write, or
     it is on its way to the notification, or stop() is *)
  ok_asleep : FWaiting ∈ flushers s -> 
    (stopping s = SNone \/ stopping s = SFlagged) /\
    (current_ s <> [] \/ (exists r d a, thread_ s = WWriting r d a) \/ thread_ s = WFlushing \/ thread_ s = WCheck \/
     stopping s = SFlagged);
}.

Lemma lines_of_snoc cs c : lines_of (cs ++ [c]) = lines_of cs ++ match c with AppendLine l => [l] | _ => [] end.
Proof. unfold lines_of. rewrite map_app, concat_app. simpl. by rewrite app_nil_r. Qed.
Lemma reports_of_snoc cs c : reports_of (cs ++ [c]) = reports_of cs + match c with AppendReport n => n | _ => 0 end.
Proof. unfold reports_of. rewrite map_app, sum_list_with_app. simpl. lia. Qed.
Lemma isnil_spec {A} (l : list A) : isnil l = true <-> l = [].
Proof. by destruct l. Qed.

Lemma wake_asleep fs : FWaiting ∈ map wake fs -> False.
Proof. intros (f & Hf & _)%list_elem_of_fmap. by destruct f. Qed.

Lemma insert_asleep i f (fs : list flusher) : FWaiting ∈ <[i := f]> fs -> f = FWaiting \/ FWaiting ∈ fs.
Proof.
  intros Hf. apply list_elem_of_lookup in Hf as [j Hj]. apply list_lookup_insert_Some in Hj as [(_ & -> & _)|[_ Hj]]; [by left|].
  right. by eapply list_elem_of_lookup_2.
Qed.

Lemma asleep_drained s : sink_ok s -> drained s = false -> current_ s <> [] /\ stopping s = SNone.
Proof.
  intros [] Hd. unfold drained in Hd. rewrite ok_writing0 in Hd. apply orb_false_iff in Hd as [H1 H2]. split.
  - intros Hc. by rewrite Hc in H1.
  - apply ok_running0. by destruct (running_ s).
Qed.

Lemma ok_append l s : sink_ok s -> sink_ok (append l s).
Proof.
  intros []. unfold append. simpl. destruct (running_ s) eqn:Er; simpl.
  - destruct (max_lines_ s <=? _) eqn:El; bool_prop; rewrite ok_writing0 in El; split; simpl; rewrite ?Er; auto; try lia.
    + rewrite ok_lines0, !app_assoc. done.
    + rewrite length_app. simpl in *. lia.
    + rewrite length_app. simpl. lia.
    + intros Hx. destruct (ok_exited0 Hx). congruence.
    + intros Hf. destruct (ok_asleep0 Hf) as [H1 _]. split; [done|]. left. by destruct (current_ s).
  - split; simpl; rewrite ?Er; auto. lia.
Qed.

Lemma ok_flush_enter s : sink_ok s -> sink_ok (flush_enter s).
Proof.
  intros Hs. pose proof (asleep_drained s Hs) as Hd. destruct Hs. unfold flush_enter. destruct (running_ s) eqn:Er; simpl.
  - split; simpl; rewrite ?Er; auto. intros [Hf|Hf%list_elem_of_singleton]%elem_of_app; [auto|].
    destruct (drained s); [done|]. destruct Hd as [H1 H2]; [done|]. auto.
  - split; simpl; rewrite ?Er; auto. intros [Hf|Hf%list_elem_of_singleton]%elem_of_app; [auto|done].
Qed.

Lemma ok_flush_wake i s : sink_ok s -> sink_ok (flush_wake i s).
Proof.
  intros Hs. pose proof (asleep_drained s Hs) as Hd. destruct Hs. unfold flush_wake. split; simpl; auto.
  intros [Hf|Hf]%insert_asleep; [|auto]. destruct (drained s); [done|]. destruct Hd as [H1 H2]; [done|]. auto.
Qed.

Lemma ok_flush_downstream i s : sink_ok s -> sink_ok (flush_downstream i s).
Proof.
  intros []. unfold flush_downstream. split; simpl; rewrite ?lines_of_snoc, ?reports_of_snoc, ?app_nil_r; auto.
  - lia.
  - intros [Hf|Hf]%insert_asleep; [done|auto].
Qed.

Lemma ok_unstopped s :
  sink_ok s -> thread_ s <> WExited -> match stopping s with SDraining _ | SDone => False | _ => True end.
Proof. intros [] Ht. destruct (stopping s); try done. by destruct ok_stopped0. Qed.

Lemma ok_take_batch s :
  sink_ok s -> (thread_ s = WLoop \/ thread_ s = WWaiting) -> sink_ok (take_batch s).
Proof.
  intros Hs Ht. pose proof (ok_unstopped s Hs) as Hst. destruct Hs. unfold take_batch.
  assert (Hin : in_hand (thread_ s) = [] /\ to_report (thread_ s) = 0) by (by destruct Ht as [->| ->]).
  destruct Hin as [Hin Hre]. rewrite Hin in ok_lines0. rewrite Hre in ok_reports0.
  destruct (negb (running_ s) && isnil (current_ s)) eqn:Ex.
  - apply andb_true_iff in Ex as [Er%negb_true_iff Ec%isnil_spec].
    split; simpl; auto; try lia; [|by intros ?%wake_asleep].
    destruct (stopping s); naive_solver.
  - specialize (Hst ltac:(by destruct Ht as [->| ->])).
    assert (Hna : FWaiting ∈ flushers s -> stopping s = SNone \/ stopping s = SFlagged) by (intros Hf; by apply ok_asleep0).
    simpl. destruct (reported_drops_ s <? dropped_ s) eqn:Ed; bool_prop; split; simpl; try assumption; try lia;
      rewrite ?ok_writing0, ?app_nil_r; simpl; try done; try lia;
      try (by destruct (stopping s)); (intros Hf; split; [by apply Hna|right; left; by eauto]).
Qed.

Lemma ok_writer_step s : sink_ok s -> sink_ok (writer_step s).
Proof.
  intros Hs. pose proof (ok_unstopped s Hs) as Hst. unfold writer_step. destruct (thread_ s) as [| |[|l rest] drops any| | |] eqn:Et.
  - destruct (isnil (current_ s) && running_ s) eqn:E; [|apply ok_take_batch; auto].
    apply andb_true_iff in E as [Ec%isnil_spec Er]. destruct Hs. rewrite Et in *. split; simpl; auto; try done.
    + by rewrite (proj1 ok_running0 Er).
    + intros Hf. destruct (ok_asleep0 Hf) as [H1 H2]. split; [done|]. destruct H2 as [H2|[(?&?&?&H2)|[H2|[H2|H2]]]]; try done. auto.
  - apply ok_take_batch; auto.
  - destruct Hs. rewrite Et in *. simpl in *.
    specialize (Hst ltac:(done)).
    assert (Hna : FWaiting ∈ flushers s -> stopping s = SNone \/ stopping s = SFlagged) by (intros Hf; by apply ok_asleep0).
    destruct drops as [|d]; destruct any; split; simpl; rewrite ?lines_of_snoc, ?reports_of_snoc, ?app_nil_r; simpl;
      try assumption; try lia; try done; try (by destruct (stopping s)); (intros Hf; split; [by apply Hna|]; by auto).
  - destruct Hs. rewrite Et in *. simpl in *.
    specialize (Hst ltac:(done)).
    split; simpl; rewrite ?lines_of_snoc, ?reports_of_snoc; simpl; try assumption; try lia; try done.
    + by rewrite ok_lines0, <-app_assoc.
    + by destruct (stopping s).
    + intros Hf. destruct (ok_asleep0 Hf) as [H1 _]. split; [done|]. right; left. eauto.
  - destruct Hs. rewrite Et in *. simpl in *.
    split; simpl; rewrite ?lines_of_snoc, ?reports_of_snoc, ?app_nil_r; simpl; try assumption; try lia; try done.
    + specialize (Hst ltac:(done)). by destruct (stopping s).
    + intros Hf. destruct (ok_asleep0 Hf) as [H1 _]. split; [done|]. auto.
  - destruct Hs. rewrite Et in *. simpl in *. specialize (Hst ltac:(done)).
    destruct (isnil (current_ s) && isnil (writing_ s)) eqn:E; split; simpl; try assumption; try lia; try done;
      try (by destruct (stopping s)).
    + by intros ?%wake_asleep.
    + intros Hf. destruct (ok_asleep0 Hf) as [H1 _]. split; [done|]. left. intros Hc. by rewrite Hc, ok_writing0 in E.
  - done.
Qed.

Lemma ok_stop_step s : sink_ok s -> sink_ok (stop_step s).
Proof.
  intros Hs. unfold stop_step. destruct (stopping s) as [| | |[|l rest]|] eqn:Es; [..|done]; destruct Hs; rewrite Es in *.
  - split; simpl; try assumption; try done; try (by rewrite ok_running0); [naive_solver|]. intros _. split; [by right|by do 4 right].
  - split; simpl; try assumption; try done; try (by rewrite ok_running0). by intros ?%wake_asleep.
  - destruct (thread_ s) eqn:Et; try (by split; rewrite ?Et, ?Es).
    destruct (ok_exited0 eq_refl) as [Hc Hr]. split; simpl; rewrite ?Et, ?Hc, ?ok_writing0 in *; simpl in *; try assumption; try done; try (by rewrite ok_running0); try lia.
    intros Hf. destruct (ok_asleep0 Hf) as [[?|?] _]; done.
  - destruct ok_stopped0 as [_ Ht]. split; simpl; rewrite ?lines_of_snoc, ?reports_of_snoc, ?app_nil_r; simpl; try assumption; try lia; try done; try (by rewrite ok_running0).
    intros Hf. destruct (ok_asleep0 Hf) as [[?|?] _]; done.
  - by destruct ok_stopped0.
Qed.

Lemma sink_step_ok s s' : step s s' -> sink_ok s -> sink_ok s'.
Proof.
  intros [] Hs; [by apply ok_append|by apply ok_flush_enter|by apply ok_flush_wake|by apply ok_flush_downstream|
    by apply ok_writer_step|by apply ok_stop_step].
Qed.

Lemma sink_reachable_ok n s : rtc step (AsyncSink_new n) s -> sink_ok s.
Proof.
  intros Hr. eapply (rtc_ind_r sink_ok); [|intros y z _ Hs Hy; by eapply sink_step_ok|exact Hr].
  unfold AsyncSink_new. split; simpl; try done; try (destruct n; simpl; lia). by intros ?%elem_of_nil.
Qed.

(** C27: under every interleaving, the lines [append] accepted reach the
    downstream sink exactly once and in order; every line offered was accepted,
    counted as dropped, or came after [stop()]; the drops announced in the log
    never exceed the drops counted; and once [stop()] is done, every accepted
    line has been written. *)
Theorem async_lines_once n s :
  rtc step (AsyncSink_new n) s ->
  accepted s = lines_of (downstream_ s) ++ in_hand (thread_ s) ++ current_ s /\
  offered s = length (accepted s) + dropped_ s + refused s /\
  reports_of (downstream_ s) <= dropped_ s /\
  (stopping s = SDone -> lines_of (downstream_ s) = accepted s).
Proof.
  intros Hr. apply sink_reachable_ok in Hr as []. split; [done|]. split; [done|]. split; [lia|].
  intros Hd. rewrite Hd in ok_stopped0. destruct (ok_exited0 ok_stopped0) as [Hc _].
  by rewrite ok_lines0, ok_stopped0, Hc, !app_nil_r.
Qed.

(** Two lines, the second dropped (the buffer holds one), then [stop()]. *)
Definition demo_async_end : AsyncSink :=
  fold_left (fun s f => f s)
    ([append (bs "a"); append (bs "b"); stop_step; stop_step] ++ replicate 6 writer_step ++ replicate 3 stop_step)
    (AsyncSink_new 1).

Lemma demo_async_reachable : rtc step (AsyncSink_new 1) demo_async_end.
Proof.
  eapply rtc_l; [exact (step_append (bs "a") _)|]. eapply rtc_l; [exact (step_append (bs "b") _)|].
  do 2 (eapply rtc_l; [apply step_stop|]). do 6 (eapply rtc_l; [apply step_writer|]).
  do 3 (eapply rtc_l; [apply step_stop|]). exact (rtc_refl _ _).
Qed.

Lemma async_lines_once_witness :
  downstream_ demo_async_end = [AppendLine (bs "a"); AppendReport 1; FlushCall; FlushCall] /\
  lines_of (downstream_ demo_async_end) = [bs "a"].
Proof.
  split; [vm_compute; reflexivity|].
  exact (proj2 (proj2 (proj2 (async_lines_once 1 demo_async_end demo_async_reachable))) eq_refl).
Defined.

(** No wakeup of [flush()] is lost: whenever a thread sleeps in its wait,
    the writer still has lines to take or is between taking a batch and its
    notification, or [stop()] is about to notify. *)
Theorem flush_not_lost n s :
  rtc step (AsyncSink_new n) s -> FWaiting ∈ flushers s ->
  current_ s <> [] \/ (exists rest drops any, thread_ s = WWriting rest drops any) \/ thread_ s = WFlushing \/
  thread_ s = WCheck \/ stopping s = SFlagged.
Proof. intros Hr Hf. apply sink_reachable_ok in Hr as []. by apply ok_asleep0. Qed.

Definition demo_asleep : AsyncSink := flush_enter (append (bs "a") (AsyncSink_new 4)).

Lemma flush_not_lost_witness : flushers demo_asleep = [FWaiting] /\ current_ demo_asleep <> [].
Proof.
  split; [reflexivity|].
  assert (Hr : rtc step (AsyncSink_new 4) demo_asleep).
  { eapply rtc_l; [exact (step_append (bs "a") _)|]. eapply rtc_l; [exact (step_flush _)|]. exact (rtc_refl _ _). }
  assert (Hf : FWaiting ∈ flushers demo_asleep) by (vm_compute; left).
  destruct (flush_not_lost 4 demo_asleep Hr Hf) as [H|[(r & d & a & H)|[H|[H|H]]]]; [exact H|discriminate H..].
Defined.

(** [flush()] can return before the lines accepted earlier were handed
    downstream, and more lines than the bound can be buffered: the writer empties
    both buffers when it takes a batch, so while it writes, [flush()]'s condition
    holds and the batch does not count against the bound. *)
Theorem flush_returns_early :
  exists s, rtc step (AsyncSink_new 1) s /\
    flushers s = [FDone] /\ accepted s = [bs "a"; bs "b"] /\ downstream_ s = [FlushCall] /\
    max_lines_ s < length (in_hand (thread_ s) ++ current_ s).
Proof.
  exists (append (bs "b") (flush_downstream 0 (flush_enter (writer_step (append (bs "a") (AsyncSink_new 1)))))).
  split; [|vm_compute; repeat split; lia].
  eapply rtc_l; [exact (step_append (bs "a") _)|]. eapply rtc_l; [apply step_writer|].
  eapply rtc_l; [apply step_flush|]. eapply rtc_l; [apply (step_flushed 0); reflexivity|].
  eapply rtc_l; [apply (step_append (bs "b"))|]. exact (rtc_refl _ _).
Qed.
End AsyncSink.
