(* ===== verification/Metrics.v ===== *)
(** * Metrics (metrics/metrics.h, metrics/metrics.cc, metrics/registry.h,
    metrics/registry.cc)

    Counters, gauges and histograms are atomics; each atomic operation is one
    step.  The registry's methods hold its mutex.  An instrument reference is the
    index of its entry. *)

From Stdlib Require Import QArith.
From S2P Require Import Prelude CStr Double.
#[local] Open Scope nat_scope.
#[local] Open Scope cox_scope.

(** ** Counters and gauges *)
Module Instruments.
Definition counter_inc (n : Z) (value_ : Z) : Z := value_ +64 n.
(** A gauge is a signed 64-bit value; its arithmetic wraps. *)
Definition wrap_int64 (z : Z) : Z := ((z + 2 ^ 63) mod two64 - 2 ^ 63)%Z.
Definition gauge_inc (n : Z) (value_ : Z) : Z := wrap_int64 (value_ + n).
Definition gauge_dec (n : Z) (value_ : Z) : Z := wrap_int64 (value_ - n).
Definition gauge_set (v : Z) (value_ : Z) : Z := v.
End Instruments.

(** ** Histograms *)
Module Histogram.
Section histogram.
Context {D : Type} `{Double D}.

Record Histogram := mkHistogram {
  bounds_ : list D;
  counts_ : list Z;
  count_ : Z;
  sum_ : D;
}.

(** [!(bounds_[i] > bounds_[i - 1])] for no [i]. *)
Fixpoint ascending (l : list D) : bool :=
  match l with
  | a :: ((b :: _) as r) => d_lt a b && ascending r
  | _ => true
  end.

(** The constructor; [None] is [std::invalid_argument]. *)
Definition Histogram_new (upper_bounds : list D) : option Histogram :=
  if length upper_bounds =? 0 then None
  else if ascending upper_bounds
       then Some (mkHistogram upper_bounds (replicate (length upper_bounds + 1) 0%Z) 0 (d_of_Z 0))
       else None.

(** [std::lower_bound]: binary search in [\[first, first + len)]. *)
Fixpoint lower_bound_loop (fuel : nat) (bounds : list D) (v : D) (first len : nat) : nat :=
  match fuel with
  | O => first
  | S fuel' =>
    if len =? 0 then first
    else
      let half := Nat.div2 len in
      let mid := first + half in
      match bounds !! mid with
      | Some b =>
        if d_lt b v then lower_bound_loop fuel' bounds v (mid + 1) (len - half - 1)
        else lower_bound_loop fuel' bounds v first half
      | None => first
      end
  end.
Definition lower_bound (bounds : list D) (v : D) : nat :=
  lower_bound_loop (S (length bounds)) bounds v 0 (length bounds).

(** The three atomic steps of [observe(v)]; the last is the successful
    compare-and-swap of its loop. *)
Definition observe_bucket (v : D) (h : Histogram) : Histogram :=
  mkHistogram (bounds_ h) (alter (fun n => n +64 1) (lower_bound (bounds_ h) v) (counts_ h)) (count_ h) (sum_ h).
Definition observe_count (h : Histogram) : Histogram :=
  mkHistogram (bounds_ h) (counts_ h) (count_ h +64 1) (sum_ h).
Definition observe_sum (v : D) (h : Histogram) : Histogram :=
  mkHistogram (bounds_ h) (counts_ h) (count_ h) (d_add (sum_ h) v).
Definition observe (v : D) (h : Histogram) : Histogram := observe_sum v (observe_count (observe_bucket v h)).

Record Snapshot := mkSnapshot { bounds : list D; counts : list Z; count : Z; sum : D }.

(** The running total over the buckets. *)
Fixpoint cumulate (cumulative : Z) (l : list Z) : list Z :=
  match l with
  | [] => []
  | n :: l' => let c := cumulative +64 n in c :: cumulate c l'
  end.
Definition snapshot (h : Histogram) : Snapshot :=
  mkSnapshot (bounds_ h) (cumulate 0 (counts_ h)) (count_ h) (sum_ h).

(** ** Observations in flight

    [Start]: [observe] was called; then its bucket, the count and the sum. *)
Inductive stage := Start | Bucketed | Counted | Done.
Record system := mkSystem { hist : Histogram; threads : list (stage * D) }.

Definition advance (i : nat) (s : system) : system :=
  match threads s !! i with
  | Some (Start, v) => mkSystem (observe_bucket v (hist s)) (<[i := (Bucketed, v)]> (threads s))
  | Some (Bucketed, v) => mkSystem (observe_count (hist s)) (<[i := (Counted, v)]> (threads s))
  | Some (Counted, v) => mkSystem (observe_sum v (hist s)) (<[i := (Done, v)]> (threads s))
  | _ => s
  end.
Inductive step : system -> system -> Prop :=
| step_call v s : step s (mkSystem (hist s) (threads s ++ [(Start, v)]))
| step_advance i s : step s (advance i s).
End histogram.
Arguments Histogram D : clear implicits.
Arguments Snapshot D : clear implicits.
Arguments system D : clear implicits.

Section correct.
Context {D : Type} `{DoubleLaws D}.

(** [k] separates the bounds below [v] from those at or above it. *)
Definition splits (bounds : list D) (v : D) (k : nat) : Prop :=
  k <= length bounds /\ (forall i b, bounds !! i = Some b -> d_lt b v = (i <? k)).

Lemma d_lt_trans (a b c : D) : d_lt a b = true -> d_lt b c = true -> d_lt a c = true.
Proof.
  unfold d_lt. rewrite !negb_true_iff. intros H1 H2. destruct (d_le c a) eqn:E; [|done].
  destruct (d_le_total a b) as [H3|H3]; [|congruence].
  pose proof (d_le_trans _ _ _ E H3). congruence.
Qed.

Lemma ascending_lookup (l : list D) i j a b :
  ascending l = true -> i < j -> l !! i = Some a -> l !! j = Some b -> d_lt a b = true.
Proof.
  revert i j a b. induction l as [|x [|y l] IH]; intros i j a b Ha Hij Hi Hj; [done|destruct i, j; simpl in *; by try lia|].
  cbn [ascending] in Ha. apply andb_true_iff in Ha as [Hxy Ha]. destruct j as [|j]; [lia|]. simpl in Hj.
  destruct i as [|i]; [|by eapply (IH i j); [done|lia|..]].
  simpl in Hi. injection Hi as <-. destruct j as [|j]; [by injection Hj as <-|].
  eapply d_lt_trans; [exact Hxy|]. by eapply (IH 0 (S j)); [done|lia|..].
Qed.

(** The binary search of [std::lower_bound] over ascending bounds finds the
    first bucket whose bound is at least the value: the bounds before it are
    below the value, the others are not. *)
Lemma lower_bound_splits (bounds : list D) v : ascending bounds = true -> splits bounds v (lower_bound bounds v).
Proof.
  intros Ha. unfold lower_bound.
  assert (Hg : forall fuel first len, len < fuel -> first + len <= length bounds ->
    (forall i b, bounds !! i = Some b -> i < first -> d_lt b v = true) ->
    (forall i b, bounds !! i = Some b -> first + len <= i -> d_lt b v = false) ->
    splits bounds v (lower_bound_loop fuel bounds v first len)).
  { induction fuel as [|fuel IH]; intros first len Hf Hl Hlo Hhi; [lia|]. cbn [lower_bound_loop].
    destruct (len =? 0) eqn:E0; bool_prop.
    - split; [lia|]. intros i b Hi. destruct (i <? first) eqn:Ei; bool_prop; [by eapply Hlo|]. eapply Hhi; [done|lia].
    - assert (Hhalf : Nat.div2 len < len) by (apply Nat.lt_div2; lia).
      generalize dependent (Nat.div2 len). intros half Hhalf.
      destruct (bounds !! (first + half)) as [b|] eqn:Eb; [|apply lookup_ge_None in Eb; lia].
      destruct (d_lt b v) eqn:Ev; apply IH; try lia.
      + intros i c Hi Hlt. destruct (decide (i = first + half)) as [->|Hne]; [congruence|].
        eapply d_lt_trans; [|exact Ev]. eapply (ascending_lookup bounds i _ c b Ha); [|done..]. lia.
      + intros i c Hi Hge. eapply Hhi; [done|lia].
      + done.
      + intros i c Hi Hge. destruct (decide (i = first + half)) as [->|Hne]; [congruence|].
        assert (Hbc : d_lt b c = true) by (eapply (ascending_lookup bounds _ i b c Ha); [|done..]; lia).
        destruct (d_lt c v) eqn:Ec; [|done]. pose proof (d_lt_trans _ _ _ Hbc Ec). congruence. }
  apply Hg; try lia. intros i b Hi Hge. apply lookup_lt_Some in Hi. lia.
Qed.

(** How many threads satisfy a test. *)
Fixpoint num (f : stage * D -> bool) (l : list (stage * D)) : Z :=
  match l with [] => 0 | t :: l' => Z.b2z (f t) + num f l' end%Z.

Lemma num_app f l k : num f (l ++ k) = (num f l + num f k)%Z.
Proof. induction l as [|t l IH]; simpl; [done|]. lia. Qed.

Lemma num_insert f l i t t' :
  l !! i = Some t -> num f (<[i := t']> l) = (num f l - Z.b2z (f t) + Z.b2z (f t'))%Z.
Proof.
  revert i. induction l as [|x l IH]; intros [|i] Hi; simpl in *; [done..| |].
  - injection Hi as ->. lia.
  - rewrite IH by done. lia.
Qed.

Lemma num_ext f g l : (forall t, f t = g t) -> num f l = num g l.
Proof. intros E. induction l as [|t l IH]; simpl; [done|]. by rewrite E, IH. Qed.

Definition past_bucket (t : stage * D) : bool := match t.1 with Start => false | _ => true end.
Definition past_count (t : stage * D) : bool := match t.1 with Counted | Done => true | _ => false end.
Definition in_bucket (bounds : list D) (k : nat) (t : stage * D) : bool :=
  past_bucket t && (lower_bound bounds t.2 =? k).

Record hist_ok (bounds : list D) (s : system D) : Prop := {
  ho_bounds : bounds_ (hist s) = bounds;
  ho_len : length (counts_ (hist s)) = S (length bounds);
  ho_counts : forall k, k <= length bounds ->
    counts_ (hist s) !! k = Some (wrap64 (num (in_bucket bounds k) (threads s)));
  ho_count : count_ (hist s) = wrap64 (num past_count (threads s));
}.

Lemma hist_step_ok bounds s s' : ascending bounds = true -> step s s' -> hist_ok bounds s -> hist_ok bounds s'.
Proof.
  intros Ha Hs []. destruct Hs as [v s|i s].
  - split; simpl; auto; [intros k Hk|]; rewrite num_app; simpl; rewrite Z.add_0_r; auto.
  - unfold advance. destruct (threads s !! i) as [[[] v]|] eqn:Et; [..|by split].
    + split; simpl; rewrite ?ho_bounds0, ?length_alter; auto.
      * intros k Hk. rewrite (num_insert _ _ _ _ _ Et). unfold in_bucket at 2 3. simpl.
        destruct (lower_bound_splits bounds v Ha) as [Hle _].
        destruct (Nat.eqb_spec (lower_bound bounds v) k) as [->|Hne]; simpl.
        -- rewrite list_lookup_alter_eq, (ho_counts0 k Hk). simpl. f_equal. rewrite wrap64_add_l. f_equal. lia.
        -- rewrite list_lookup_alter_ne by done. rewrite (ho_counts0 k Hk). do 2 f_equal. lia.
      * rewrite (num_insert _ _ _ _ _ Et). simpl. rewrite ho_count0. f_equal. lia.
    + split; simpl; auto.
      * intros k Hk. rewrite (num_insert _ _ _ _ _ Et), (ho_counts0 k Hk). unfold in_bucket at 3 4. simpl. do 2 f_equal. lia.
      * rewrite (num_insert _ _ _ _ _ Et), ho_count0. simpl. rewrite wrap64_add_l. f_equal. lia.
    + split; simpl; auto.
      * intros k Hk. rewrite (num_insert _ _ _ _ _ Et), (ho_counts0 k Hk). unfold in_bucket at 3 4. simpl. do 2 f_equal. lia.
      * rewrite (num_insert _ _ _ _ _ Et), ho_count0. simpl. f_equal. lia.
    + by split.
Qed.

Lemma cumulate_lookup c l i a b :
  cumulate c l !! i = Some a -> l !! (S i) = Some b -> cumulate c l !! (S i) = Some (a +64 b).
Proof.
  revert c i. induction l as [|x l IH]; intros c i Ha Hb; [done|]. cbn [cumulate] in *. simpl in Hb.
  destruct i as [|i]; [|by apply IH]. injection Ha as <-. destruct l as [|y l]; [done|]. simpl in *. by injection Hb as ->.
Qed.

Lemma num_le_bucket bounds i l :
  (num (fun t => past_bucket t && (lower_bound bounds t.2 <=? i)%nat) l + num (in_bucket bounds (S i)) l =
   num (fun t => past_bucket t && (lower_bound bounds t.2 <=? S i)%nat) l)%Z.
Proof.
  induction l as [|t l IH]; simpl; [done|]. unfold in_bucket at 1. destruct (past_bucket t); simpl; [|lia].
  destruct (Nat.leb_spec (lower_bound bounds t.2) i), (Nat.eqb_spec (lower_bound bounds t.2) (S i)),
    (Nat.leb_spec (lower_bound bounds t.2) (S i)); simpl; lia.
Qed.

Lemma cumulate_counts bounds s i :
  hist_ok bounds s -> i <= length bounds ->
  cumulate 0 (counts_ (hist s)) !! i =
    Some (wrap64 (num (fun t => past_bucket t && (lower_bound bounds t.2 <=? i)) (threads s))).
Proof.
  intros [] Hi. induction i as [|i IH].
  - specialize (ho_counts0 0 Hi). destruct (counts_ (hist s)) as [|n l]; [done|]. simpl in *. injection ho_counts0 as ->.
    f_equal. rewrite Z.add_0_l, wrap64_wrap. f_equal. apply num_ext. intros t. unfold in_bucket.
    by destruct (lower_bound bounds t.2).
  - erewrite cumulate_lookup; [|apply IH; lia|by apply ho_counts0]. f_equal.
    by rewrite wrap64_add_l, wrap64_add_r, num_le_bucket.
Qed.

Lemma hist_reachable_ok bounds h s :
  Histogram_new bounds = Some h -> rtc step (mkSystem h []) s -> hist_ok bounds s /\ ascending bounds = true.
Proof.
  unfold Histogram_new. destruct (length bounds =? 0); [done|]. destruct (ascending bounds) eqn:Ha; [|done].
  intros [= <-] Hr. split; [|done].
  eapply (rtc_ind_r (hist_ok bounds)); [|intros y z _ Hs Hy; by eapply hist_step_ok|exact Hr].
  split; simpl; [done|rewrite length_replicate; lia|intros k Hk|done]. by rewrite lookup_replicate_2 by lia.
Qed.

(** A histogram's snapshot is the distribution: with any number of threads
    observing, and at any moment, the cumulative count of a bucket is the number
    of observations recorded so far that are at most its bound, the last one (the
    overflow bucket) that of all; when no observation is in flight the total
    count agrees with it and is the number of observations.  (Counts are modulo
    2^64.) *)
Theorem histogram_snapshot bounds h s :
  Histogram_new bounds = Some h -> rtc step (mkSystem h []) s ->
  let snap := snapshot (hist s) in
  (forall i b, bounds !! i = Some b ->
     counts snap !! i = Some (wrap64 (num (fun t => past_bucket t && d_le t.2 b) (threads s)))) /\
  counts snap !! length bounds = Some (wrap64 (num past_bucket (threads s))) /\
  count snap = wrap64 (num past_count (threads s)) /\
  (Forall (fun t => t.1 = Done) (threads s) ->
     counts snap !! length bounds = Some (count snap) /\ count snap = wrap64 (Z.of_nat (length (threads s)))).
Proof.
  intros Hn Hr snap. destruct (hist_reachable_ok bounds h s Hn Hr) as [Hok Ha].
  assert (Hlast : counts snap !! length bounds = Some (wrap64 (num past_bucket (threads s)))).
  { simpl. rewrite (cumulate_counts bounds s) by done. do 2 f_equal. apply num_ext. intros t.
    destruct (lower_bound_splits bounds t.2 Ha) as [Hle _]. apply Nat.leb_le in Hle. by rewrite Hle, andb_true_r. }
  assert (Hcount : count snap = wrap64 (num past_count (threads s))) by apply Hok.
  split_and!; [|done|done|].
  - intros i b Hi. pose proof (lookup_lt_Some _ _ _ Hi). simpl. rewrite (cumulate_counts bounds s) by (done || lia).
    do 2 f_equal. apply num_ext. intros t. f_equal. destruct (lower_bound_splits bounds t.2 Ha) as [_ Hs].
    specialize (Hs i b Hi). unfold d_lt in Hs. destruct (d_le t.2 b); simpl in Hs;
      destruct (Nat.ltb_spec i (lower_bound bounds t.2)); try done; [apply Nat.leb_le|apply Nat.leb_gt]; lia.
  - intros Hd. assert (E : forall f, (forall t, t.1 = Done -> f t = true) -> num f (threads s) = Z.of_nat (length (threads s))).
    { intros f Hf. clear -Hd Hf. induction Hd as [|t l Ht Hd IH]; [done|]. cbn [num length]. rewrite (Hf t Ht), IH. simpl Z.b2z. lia. }
    rewrite Hlast, Hcount, !E; [done|intros [[] ?]; done|intros [[] ?]; done].
Qed.
End correct.

(** Two threads, values 1 and 7 against the bounds 2 and 5; the second one has
    recorded its bucket only. *)
Definition demo_bounds : list Q := [inject_Z 2; inject_Z 5].
Definition demo_hist : Histogram Q := mkHistogram demo_bounds [0; 0; 0]%Z 0%Z (inject_Z 0).
Definition demo_system : system Q :=
  advance 1 (advance 0 (advance 0 (advance 0
    (mkSystem demo_hist [(Start, inject_Z 1); (Start, inject_Z 7)])))).

Lemma demo_system_reachable : rtc step (mkSystem demo_hist []) demo_system.
Proof.
  eapply rtc_l; [exact (step_call (inject_Z 1) _)|]. eapply rtc_l; [exact (step_call (inject_Z 7) _)|].
  do 3 (eapply rtc_l; [apply (step_advance 0)|]). eapply rtc_l; [apply (step_advance 1)|]. exact (rtc_refl _ _).
Qed.

Lemma histogram_snapshot_witness :
  counts (snapshot (hist demo_system)) = [1; 1; 2]%Z /\ count (snapshot (hist demo_system)) = 1%Z /\
  counts (snapshot (hist demo_system)) !! 2 = Some (wrap64 (num past_bucket (threads demo_system))).
Proof.
  split; [vm_compute; reflexivity|]. split; [vm_compute; reflexivity|].
  exact (proj1 (proj2 (histogram_snapshot demo_bounds demo_hist demo_system eq_refl demo_system_reachable))).
Defined.
End Histogram.

(** ** The registry *)
Module Registry.
Import Histogram.

Inductive Type_ := kCounter | kGauge | kHistogram.
#[export] Instance Type_eq_dec : EqDecision Type_.
Proof. solve_decision. Defined.

Definition Labels : Type := list (bytes * bytes).

(** [sameLabels] *)
Fixpoint sameLabels (a b : Labels) : bool :=
  match a, b with
  | [], [] => true
  | x :: a', y :: b' => bool_decide (x.1 = y.1) && bool_decide (x.2 = y.2) && sameLabels a' b'
  | _, _ => false
  end.

Inductive result (A : Type) := Ok (a : A) | Throws (what : bytes).
Arguments Ok {A} a.
Arguments Throws {A} what.

Section registry.
Context {D : Type} `{Double D}.

Record Entry := mkEntry {
  name : bytes;
  help : bytes;
  type : Type_;
  labels : Labels;
  counter_ : option Z;
  gauge_ : option Z;
  histogram_ : option (Histogram D);
  sample : option nat;               (* which sampling function, if any *)
}.
#[export] Instance Entry_settable : Settable Entry := fun e =>
  mkEntry (name e) (help e) (type e) (labels e) (counter_ e) (gauge_ e) (histogram_ e) (sample e).

Abbreviation Registry_t := (list Entry).          (* entries_ *)

(** The entry with this name and these labels, if there is one. *)
Definition matching (n : bytes) (ls : Labels) (e : Entry) : bool :=
  bool_decide (name e = n) && sameLabels (labels e) ls.
Fixpoint find_entry (n : bytes) (ls : Labels) (entries : Registry_t) : option nat :=
  match entries with
  | [] => None
  | e :: es => if matching n ls e then Some 0 else S <$> find_entry n ls es
  end.

Definition findOrCreate (n h : bytes) (t : Type_) (ls : Labels) (reg : Registry_t) : result nat * Registry_t :=
  match find_entry n ls reg with
  | Some i =>
    match reg !! i with
    | Some e =>
      if bool_decide (type e <> t)
      then (Throws (bs "metrics: instrument '" ++ n ++ bs "' redeclared with a different type"), reg)
      else (Ok i, reg)
    | None => (Ok i, reg)
    end
  | None => (Ok (length reg), reg ++ [mkEntry n h t ls None None None None])
  end.

(** [if (!e.counter) e.counter = make_unique<Counter>()] and so on. *)
Definition counter (n h : bytes) (ls : Labels) (reg : Registry_t) : result nat * Registry_t :=
  match findOrCreate n h kCounter ls reg with
  | (Ok i, reg) => (Ok i, alter (fun e => if counter_ e then e else e <| counter_ := Some 0%Z |>) i reg)
  | r => r
  end.
Definition gauge (n h : bytes) (ls : Labels) (reg : Registry_t) : result nat * Registry_t :=
  match findOrCreate n h kGauge ls reg with
  | (Ok i, reg) => (Ok i, alter (fun e => if gauge_ e then e else e <| gauge_ := Some 0%Z |>) i reg)
  | r => r
  end.
(** The histogram's constructor may throw, with the entry already in place. *)
Definition histogram (n h : bytes) (buckets : list D) (ls : Labels) (reg : Registry_t) : result nat * Registry_t :=
  match findOrCreate n h kHistogram ls reg with
  | (Ok i, reg) =>
    match reg !! i with
    | Some e =>
      if histogram_ e then (Ok i, reg)
      else
        match Histogram_new buckets with
        | Some hg => (Ok i, alter (fun e => e <| histogram_ := Some hg |>) i reg)
        | None => (Throws (bs "Histogram"), reg)
        end
    | None => (Ok i, reg)
    end
  | r => r
  end.
Definition registerSampled (n h : bytes) (t : Type_) (sampler : option nat) (ls : Labels) (reg : Registry_t)
    : result nat * Registry_t :=
  if bool_decide (t = kHistogram)
  then (Throws (bs "registerSampled: histograms are not supported as sampled instruments ('" ++ n ++ bs "')"), reg)
  else
    match findOrCreate n h t ls reg with
    | (Ok i, reg) => (Ok i, alter (fun e => e <| sample := sampler |>) i reg)
    | r => r
    end.

(** The instruments' own operations, through a reference. *)
Definition inc (i : nat) (n : Z) (reg : Registry_t) : Registry_t :=
  alter (fun e => e <| counter_ := Instruments.counter_inc n <$> counter_ e |>) i reg.
Definition gauge_inc (i : nat) (n : Z) (reg : Registry_t) : Registry_t :=
  alter (fun e => e <| gauge_ := Instruments.gauge_inc n <$> gauge_ e |>) i reg.
Definition gauge_dec (i : nat) (n : Z) (reg : Registry_t) : Registry_t :=
  alter (fun e => e <| gauge_ := Instruments.gauge_dec n <$> gauge_ e |>) i reg.
Definition gauge_set (i : nat) (v : Z) (reg : Registry_t) : Registry_t :=
  alter (fun e => e <| gauge_ := Instruments.gauge_set v <$> gauge_ e |>) i reg.
Definition observe_at (i : nat) (v : D) (reg : Registry_t) : Registry_t :=
  alter (fun e => e <| histogram_ := observe v <$> histogram_ e |>) i reg.

(** ** Scraping *)
Record MetricPoint := mkPoint {
  p_name : bytes;
  p_help : bytes;
  p_type : Type_;
  p_labels : Labels;
  value : D;
  bucket_bounds : list D;
  bucket_counts : list Z;
  hist_count : Z;
  hist_sum : D;
}.

Record ScrapeFilter := mkFilter {
  name_prefix : bytes;
  include_histograms : bool;
  predicate : option (MetricPoint -> bool);
}.
Definition no_filter : ScrapeFilter := mkFilter [] true None.

(** [size() < prefix.size() || compare(0, prefix.size(), prefix) != 0] *)
Definition lacks_prefix (prefix n : bytes) : bool :=
  (length n <? length prefix) || negb (bool_decide (take (length prefix) n = prefix)).

Definition matches (f : ScrapeFilter) (p : MetricPoint) : bool :=
  if negb (length (name_prefix f) =? 0) && lacks_prefix (name_prefix f) (p_name p) then false
  else if negb (include_histograms f) && bool_decide (p_type p = kHistogram) then false
  else match predicate f with Some g => g p | None => true end.

(** One entry's point; [env] gives the sampled values.  [None]: the code
    dereferences a null instrument pointer. *)
Definition read_entry (env : nat -> D) (e : Entry) : option MetricPoint :=
  let point v bb bc hc hs := mkPoint (name e) (help e) (type e) (labels e) v bb bc hc hs in
  let zero := d_of_Z 0 in
  match sample e with
  | Some k => Some (point (env k) [] [] 0%Z zero)
  | None =>
    match type e with
    | kCounter => v ← counter_ e; Some (point (d_of_Z v) [] [] 0%Z zero)
    | kGauge => v ← gauge_ e; Some (point (d_of_Z v) [] [] 0%Z zero)
    | kHistogram =>
      hg ← histogram_ e;
      let hs := snapshot hg in
      Some (point zero (Histogram.bounds hs) (Histogram.counts hs) (Histogram.count hs) (Histogram.sum hs))
    end
  end.

Fixpoint scrape (env : nat -> D) (f : ScrapeFilter) (entries : Registry_t) : option (list MetricPoint) :=
  match entries with
  | [] => Some []
  | e :: es =>
    if negb (length (name_prefix f) =? 0) && lacks_prefix (name_prefix f) (name e) then scrape env f es
    else if negb (include_histograms f) && bool_decide (type e = kHistogram) then scrape env f es
    else
      p ← read_entry env e;
      ps ← scrape env f es;
      Some (match predicate f with Some g => if g p then p :: ps else ps | None => p :: ps end)
  end.

(** ** Histories of a registry *)
Inductive op :=
| OpCounter (n h : bytes) (ls : Labels)
| OpGauge (n h : bytes) (ls : Labels)
| OpHistogram (n h : bytes) (buckets : list D) (ls : Labels)
| OpSampled (n h : bytes) (t : Type_) (sampler : option nat) (ls : Labels)
| OpInc (i : nat) (k : Z)
| OpGaugeInc (i : nat) (k : Z)
| OpGaugeDec (i : nat) (k : Z)
| OpGaugeSet (i : nat) (k : Z)
| OpObserve (i : nat) (v : D).

Definition run (o : op) (reg : Registry_t) : Registry_t :=
  match o with
  | OpCounter n h ls => (counter n h ls reg).2
  | OpGauge n h ls => (gauge n h ls reg).2
  | OpHistogram n h b ls => (histogram n h b ls reg).2
  | OpSampled n h t k ls => (registerSampled n h t k ls reg).2
  | OpInc i k => inc i k reg
  | OpGaugeInc i k => gauge_inc i k reg
  | OpGaugeDec i k => gauge_dec i k reg
  | OpGaugeSet i k => gauge_set i k reg
  | OpObserve i v => observe_at i v reg
  end.
Definition run_all (ops : list op) (reg : Registry_t) : Registry_t := fold_left (fun reg o => run o reg) ops reg.

(** The arguments the interface asks for: histogram bounds that are not
    rejected, and a sampling function that can be called. *)
Definition good_op (o : op) : Prop :=
  match o with
  | OpHistogram _ _ b _ => Histogram_new b <> None
  | OpSampled _ _ _ k _ => k <> None
  | _ => True
  end.

Definition identity (e : Entry) : bytes * Labels * Type_ := (name e, labels e, type e).
Definition has_instrument (e : Entry) : Prop :=
  sample e <> None \/ match type e with
                      | kCounter => counter_ e <> None
                      | kGauge => gauge_ e <> None
                      | kHistogram => histogram_ e <> None
                      end.

Lemma sameLabels_spec a b : sameLabels a b = true <-> a = b.
Proof.
  revert b. induction a as [|[k v] a IH]; intros [|[k' v'] b]; simpl; try done.
  rewrite !andb_true_iff, !bool_decide_eq_true, IH. naive_solver.
Qed.

Lemma matching_spec n ls e : matching n ls e = true <-> name e = n /\ labels e = ls.
Proof. unfold matching. by rewrite andb_true_iff, bool_decide_eq_true, sameLabels_spec. Qed.

Lemma find_entry_Some n ls reg i :
  find_entry n ls reg = Some i -> exists e, reg !! i = Some e /\ name e = n /\ labels e = ls.
Proof.
  revert i. induction reg as [|e es IH]; intros i; simpl; [done|]. destruct (matching n ls e) eqn:E.
  - intros [= <-]. exists e. split; [done|by apply matching_spec].
  - destruct (find_entry n ls es) as [k|]; [|done]. intros [= <-]. by apply IH.
Qed.

Lemma find_entry_None n ls reg :
  find_entry n ls reg = None -> forall e, e ∈ reg -> ~ (name e = n /\ labels e = ls).
Proof.
  induction reg as [|e es IH]; simpl; intros Hf e' He; [by apply elem_of_nil in He|].
  destruct (matching n ls e) eqn:E; [done|]. destruct (find_entry n ls es); [done|].
  apply elem_of_cons in He as [->|He]; [|by apply IH]. intros Hm%matching_spec. congruence.
Qed.

(** Every operation keeps the entries' identities, or adds one at the end. *)
Definition extends (reg reg' : Registry_t) : Prop := exists more, map identity reg' = map identity reg ++ more.

Lemma extends_refl reg : extends reg reg.
Proof. exists []. by rewrite app_nil_r. Qed.
Lemma extends_trans a b c : extends a b -> extends b c -> extends a c.
Proof. intros [x Hx] [y Hy]. exists (x ++ y). by rewrite Hy, Hx, app_assoc. Qed.

Lemma map_identity_alter f i reg : (forall e, identity (f e) = identity e) -> map identity (alter f i reg) = map identity reg.
Proof.
  intros Hf. revert i. induction reg as [|e es IH]; intros [|i]; simpl; [done..| |].
  - by rewrite Hf.
  - f_equal. apply IH.
Qed.

Lemma extends_alter f i reg : (forall e, identity (f e) = identity e) -> extends reg (alter f i reg).
Proof. intros Hf. exists []. by rewrite map_identity_alter, app_nil_r. Qed.

Lemma extends_findOrCreate n h t ls reg : extends reg (findOrCreate n h t ls reg).2.
Proof.
  unfold findOrCreate. destruct (find_entry n ls reg) as [i|].
  - destruct (reg !! i); [case_bool_decide|]; apply extends_refl.
  - eexists. simpl. by rewrite map_app.
Qed.

Lemma extends_run o reg : extends reg (run o reg).
Proof.
  destruct o as [n h ls|n h ls|n h b ls|n h t k ls| | | | |]; simpl; try (by apply extends_alter).
  - unfold counter. pose proof (extends_findOrCreate n h kCounter ls reg) as He.
    destruct (findOrCreate n h kCounter ls reg) as [[i|] reg1]; [|done].
    eapply extends_trans; [exact He|]. apply extends_alter. intros e. by destruct (counter_ e).
  - unfold gauge. pose proof (extends_findOrCreate n h kGauge ls reg) as He.
    destruct (findOrCreate n h kGauge ls reg) as [[i|] reg1]; [|done].
    eapply extends_trans; [exact He|]. apply extends_alter. intros e. by destruct (gauge_ e).
  - unfold histogram. pose proof (extends_findOrCreate n h kHistogram ls reg) as He.
    destruct (findOrCreate n h kHistogram ls reg) as [[i|] reg1]; [|done].
    destruct (reg1 !! i) as [e|]; [|done]. destruct (histogram_ e); [done|]. destruct (Histogram_new b); [|done].
    eapply extends_trans; [exact He|]. by apply extends_alter.
  - unfold registerSampled. case_bool_decide; [apply extends_refl|].
    pose proof (extends_findOrCreate n h t ls reg) as He. destruct (findOrCreate n h t ls reg) as [[i|] reg1]; [|done].
    eapply extends_trans; [exact He|]. by apply extends_alter.
Qed.

(** A well-typed registry: one entry per name and labels, each with the
    instrument of its type or a sampling function. *)
Definition uniq (reg : Registry_t) : Prop := NoDup (map fst (map identity reg)).
Record typed (reg : Registry_t) : Prop := { t_uniq : uniq reg; t_all : Forall has_instrument reg }.

Lemma findOrCreate_spec n h t ls reg r reg' :
  typed reg -> findOrCreate n h t ls reg = (r, reg') ->
  match r with
  | Ok i => uniq reg' /\ (exists e, reg' !! i = Some e /\ name e = n /\ labels e = ls /\ type e = t) /\
            (forall j e, j <> i -> reg' !! j = Some e -> has_instrument e)
  | Throws _ => reg' = reg
  end.
Proof.
  intros [Hu Ha] E. unfold findOrCreate in E. rewrite Forall_lookup in Ha. destruct (find_entry n ls reg) as [i|] eqn:Ef.
  - apply find_entry_Some in Ef as (e & He & Hn & Hl). rewrite He in E. case_bool_decide as Ht; injection E as <- <-; [done|].
    split_and!; [done| |by intros j e' _; apply Ha]. exists e. by split_and!.
  - injection E as <- <-. split_and!.
    + unfold uniq. rewrite !map_app. simpl. apply NoDup_app. split_and!; [done| |apply NoDup_singleton].
      intros x Hx ->%list_elem_of_singleton. rewrite map_map in Hx. apply list_elem_of_fmap in Hx as (e & Hxe & He).
      simpl in Hxe. injection Hxe as H1 H2. by eapply find_entry_None.
    + exists (mkEntry n h t ls None None None None). by split_and!; [apply list_lookup_middle|..].
    + intros j e Hj [He|[Hlen [? ?]%list_lookup_singleton_Some]]%lookup_app_Some; [by eapply Ha|lia].
Qed.

Lemma typed_alter f i reg e :
  uniq reg -> reg !! i = Some e -> (forall j e, j <> i -> reg !! j = Some e -> has_instrument e) ->
  (forall e, identity (f e) = identity e) -> has_instrument (f e) -> typed (alter f i reg).
Proof.
  intros Hu He Ho Hf Hi. split.
  - unfold uniq. by rewrite map_identity_alter.
  - apply Forall_lookup. intros j e'. destruct (decide (j = i)) as [->|Hj].
    + rewrite list_lookup_alter_eq, He. by intros [= <-].
    + rewrite list_lookup_alter_ne by done. by apply Ho.
Qed.

(** Recording through a reference keeps the instrument. *)
Lemma typed_update f i reg :
  typed reg -> (forall e, identity (f e) = identity e) -> (forall e, has_instrument e -> has_instrument (f e)) ->
  typed (alter f i reg).
Proof.
  intros [Hu Ha] Hf Hi. destruct (reg !! i) as [e|] eqn:E.
  - rewrite Forall_lookup in Ha. eapply typed_alter; eauto.
  - split; [unfold uniq; by rewrite map_identity_alter|].
    apply Forall_lookup. intros j e. rewrite Forall_lookup in Ha. destruct (decide (j = i)) as [->|Hj].
    + by rewrite list_lookup_alter_eq, E.
    + rewrite list_lookup_alter_ne by done. apply Ha.
Qed.

Lemma fmap_some {A B} (f : A -> B) (o : option A) : o <> None -> f <$> o <> None.
Proof. by destruct o. Qed.

Lemma typed_run o reg : good_op o -> typed reg -> typed (run o reg).
Proof.
  intros Hg Ht. destruct o as [n h ls|n h ls|n h b ls|n h t k ls|i k|i k|i k|i k|i v]; simpl;
    try (apply typed_update; [done|done|]; intros e [He|He]; [by left|right]; simpl; destruct (type e); by try apply fmap_some).
  - unfold counter. destruct (findOrCreate n h kCounter ls reg) as [r reg1] eqn:E.
    pose proof (findOrCreate_spec _ _ _ _ _ _ _ Ht E) as Hs. destruct r as [i|]; [|by subst].
    destruct Hs as (Hu & (e & He & _ & _ & Hty) & Ho). eapply typed_alter; eauto; [intros e'; by destruct (counter_ e')|].
    right. destruct (counter_ e) eqn:Ec; simpl; rewrite Hty; [by rewrite Ec|done].
  - unfold gauge. destruct (findOrCreate n h kGauge ls reg) as [r reg1] eqn:E.
    pose proof (findOrCreate_spec _ _ _ _ _ _ _ Ht E) as Hs. destruct r as [i|]; [|by subst].
    destruct Hs as (Hu & (e & He & _ & _ & Hty) & Ho). eapply typed_alter; eauto; [intros e'; by destruct (gauge_ e')|].
    right. destruct (gauge_ e) eqn:Ec; simpl; rewrite Hty; [by rewrite Ec|done].
  - unfold histogram. destruct (findOrCreate n h kHistogram ls reg) as [r reg1] eqn:E.
    pose proof (findOrCreate_spec _ _ _ _ _ _ _ Ht E) as Hs. destruct r as [i|]; [|by subst].
    destruct Hs as (Hu & (e & He & _ & _ & Hty) & Ho). rewrite He. destruct (histogram_ e) eqn:Eh.
    + split; [done|]. apply Forall_lookup. intros j e' Hj. simpl in Hj.
      destruct (decide (j = i)) as [->|]; [|by eapply Ho].
      assert (e' = e) as -> by congruence. right. rewrite Hty. simpl. congruence.
    + simpl in Hg. destruct (Histogram_new b) as [hg|]; [|done]. eapply typed_alter; eauto. right. simpl. by rewrite Hty.
  - unfold registerSampled. case_bool_decide; [done|]. destruct (findOrCreate n h t ls reg) as [r reg1] eqn:E.
    pose proof (findOrCreate_spec _ _ _ _ _ _ _ Ht E) as Hs. destruct r as [i|]; [|by subst].
    destruct Hs as (Hu & (e & He & _) & Ho). eapply typed_alter; eauto. by left.
Qed.

Lemma read_entry_some env e : has_instrument e -> is_Some (read_entry env e).
Proof.
  unfold has_instrument, read_entry. destruct (sample e); [by eauto|]. intros [?|Hi]; [done|].
  destruct (type e); [destruct (counter_ e)|destruct (gauge_ e)|destruct (histogram_ e)]; try done; simpl; eauto.
Qed.

Lemma read_entry_fields env e p : read_entry env e = Some p -> p_name p = name e /\ p_type p = type e.
Proof.
  unfold read_entry. destruct (sample e); [by intros [= <-]|].
  destruct (type e) eqn:Et; [destruct (counter_ e)|destruct (gauge_ e)|destruct (histogram_ e)]; try done; by intros [= <-].
Qed.

Lemma scrape_filter env f reg :
  Forall has_instrument reg ->
  exists ps, scrape env no_filter reg = Some ps /\ scrape env f reg = Some (filter (fun p => matches f p = true) ps) /\
    length ps = length reg.
Proof.
  induction 1 as [|e es He Hes (ps & E1 & E2 & E3)]; [by exists []|].
  destruct (read_entry_some env e He) as [p Hp]. destruct (read_entry_fields env e p Hp) as [Hn Ht].
  exists (p :: ps). cbn [scrape]. rewrite Hp. simpl. rewrite E1. split; [done|]. split; [|simpl; lia].
  assert (Hm : forall b, matches f p = b -> filter (fun p => matches f p = true) (p :: ps) =
    if b then p :: filter (fun p => matches f p = true) ps else filter (fun p => matches f p = true) ps).
  { intros b Hb. rewrite filter_cons. by destruct b, (decide (matches f p = true)); try congruence. }
  specialize (Hm (matches f p) eq_refl). rewrite Hm. unfold matches at 1. rewrite Hn, Ht.
  destruct (negb (length (name_prefix f) =? 0) && lacks_prefix (name_prefix f) (name e)); [done|].
  destruct (negb (include_histograms f) && bool_decide (type e = kHistogram)); [done|].
  simpl. rewrite E2. simpl. destruct (predicate f) as [g|]; [|done]. by destruct (g p).
Qed.

Lemma run_all_typed ops : Forall good_op ops -> typed (run_all ops []).
Proof.
  assert (H0 : typed []) by (split; [apply NoDup_nil_2|done]). revert H0. generalize (@nil Entry). unfold run_all.
  intros reg Hr Hops. revert reg Hr. induction Hops as [|o ops Ho Hops IH]; intros reg Hr; simpl; [done|].
  by apply IH, typed_run.
Qed.


Lemma find_entry_extends n ls reg reg' i :
  find_entry n ls reg = Some i -> extends reg reg' -> find_entry n ls reg' = Some i.
Proof.
  intros Hf [more He]. revert reg' i Hf He. induction reg as [|e es IH]; intros reg' i Hf He; [done|].
  destruct reg' as [|e' es']; [done|]. cbn [map app] in He. injection He as H1 H2 H3 He. simpl in Hf |- *.
  assert (Hm : matching n ls e' = matching n ls e) by (unfold matching; by rewrite H1, H2). rewrite Hm.
  destruct (matching n ls e); [done|]. destruct (find_entry n ls es) as [k|]; [|done]. by rewrite (IH es' k eq_refl He).
Qed.

Lemma extends_run_all ops reg : extends reg (run_all ops reg).
Proof.
  revert reg. induction ops as [|o ops IH]; intros reg; [apply extends_refl|].
  eapply extends_trans; [apply extends_run|apply IH].
Qed.

Lemma findOrCreate_found n h t ls reg i reg' :
  findOrCreate n h t ls reg = (Ok i, reg') -> find_entry n ls reg' = Some i /\ map identity reg' !! i = Some (n, ls, t).
Proof.
  unfold findOrCreate. destruct (find_entry n ls reg) as [k|] eqn:Ef.
  - pose proof (find_entry_Some _ _ _ _ Ef) as (e & He & Hn & Hl). rewrite He. case_bool_decide as Ht; [done|]. intros [= <- <-].
    split; [done|]. rewrite list_lookup_fmap, He. simpl. unfold identity. rewrite Hn, Hl. destruct (decide (type e = t)); [by subst|done].
  - intros [= <- <-]. split.
    + clear -Ef. induction reg as [|e es IH]; simpl in *.
      * unfold matching. simpl. by rewrite bool_decide_eq_true_2, (proj2 (sameLabels_spec ls ls)).
      * destruct (matching n ls e); [done|]. destruct (find_entry n ls es); [done|]. by rewrite IH.
    + rewrite map_app, lookup_app_r, length_map, Nat.sub_diag by (rewrite length_map; lia). done.
Qed.

(** Instrument references are stable: once [counter] has returned an
    instrument, asking for the same name and labels again returns the same one
    after any further use of the registry, and asking for it under another type
    throws and changes nothing. *)
Theorem instrument_stable n h ls reg i reg1 ops h' t :
  counter n h ls reg = (Ok i, reg1) -> t <> kCounter ->
  let reg2 := run_all ops reg1 in
  (counter n h' ls reg2).1 = Ok i /\
  exists what, findOrCreate n h' t ls reg2 = (Throws what, reg2).
Proof.
  intros Hc Ht reg2. unfold counter in Hc. destruct (findOrCreate n h kCounter ls reg) as [[k|] r] eqn:E; [|done].
  injection Hc as <- <-. apply findOrCreate_found in E as [Hf Hid].
  assert (He : extends r reg2).
  { eapply extends_trans; [|apply extends_run_all]. apply extends_alter. intros e. by destruct (counter_ e). }
  pose proof (find_entry_extends _ _ _ _ _ Hf He) as Hf2.
  assert (Hid2 : map identity reg2 !! k = Some (n, ls, kCounter)) by (destruct He as [more ->]; by apply lookup_app_l_Some).
  rewrite list_lookup_fmap in Hid2. destruct (reg2 !! k) as [e|] eqn:Ee; [|done]. injection Hid2 as _ _ Hty.
  unfold counter, findOrCreate. rewrite Hf2, Ee, Hty. split; [done|]. rewrite bool_decide_eq_true_2 by congruence. by eexists.
Qed.

(** ** Prometheus text

    [show] is [operator<<] of a [double]. *)
Definition QUOTE : ascii := "034"%char.
Definition typeName (t : Type_) : bytes :=
  match t with kCounter => bs "counter" | kGauge => bs "gauge" | kHistogram => bs "histogram" end.

Definition render_label (kv : bytes * bytes) : bytes := kv.1 ++ bs "=" ++ [QUOTE] ++ kv.2 ++ [QUOTE].
Fixpoint render_more (first : bool) (ls : Labels) : bool * bytes :=
  match ls with
  | [] => (first, [])
  | l :: ls' => let '(b, rest) := render_more false ls' in
                (b, (if first then [] else bs ",") ++ render_label l ++ rest)
  end.
Definition renderLabels (ls : Labels) (extra_key extra_val : bytes) : bytes :=
  match ls, extra_key with
  | [], [] => []
  | _, _ =>
    let '(first, body) := render_more true ls in
    bs "{" ++ body ++
    (match extra_key with
     | [] => []
     | _ => (if first then [] else bs ",") ++ render_label (extra_key, extra_val)
     end) ++ bs "}"
  end.

Section expo.
Context (show : D -> bytes).

Definition sample_line (n suffix : bytes) (ls : bytes) (v : bytes) : bytes := n ++ suffix ++ ls ++ bs " " ++ v ++ [LF].

(** The bucket lines; the counts have one element more than the bounds. *)
Fixpoint bucket_lines (p : MetricPoint) (bb : list D) (bc : list Z) : bytes :=
  match bb, bc with
  | b :: bb', c :: bc' =>
    sample_line (p_name p) (bs "_bucket") (renderLabels (p_labels p) (bs "le") (show b)) (dec c) ++ bucket_lines p bb' bc'
  | _, _ => []
  end.

Definition expo_header (p : MetricPoint) : bytes :=
  bs "# HELP " ++ p_name p ++ bs " " ++ p_help p ++ [LF] ++
  bs "# TYPE " ++ p_name p ++ bs " " ++ typeName (p_type p) ++ [LF].

Definition expo_point (p : MetricPoint) : bytes :=
  let ls := renderLabels (p_labels p) [] [] in
  expo_header p ++
  match p_type p with
  | kCounter | kGauge => sample_line (p_name p) [] ls (show (value p))
  | kHistogram =>
    bucket_lines p (bucket_bounds p) (bucket_counts p) ++
    sample_line (p_name p) (bs "_bucket") (renderLabels (p_labels p) (bs "le") (bs "+Inf"))
      (dec (default 0%Z (last (bucket_counts p)))) ++
    sample_line (p_name p) (bs "_sum") ls (show (hist_sum p)) ++
    sample_line (p_name p) (bs "_count") ls (dec (hist_count p))
  end.

Definition prometheus (snap : list MetricPoint) : bytes := concat (map expo_point snap).
End expo.

(** Finding: label values are not escaped: a value with a quote renders as two
    labels. *)
Lemma label_value_not_escaped k k' v v' :
  renderLabels [(k, v ++ [QUOTE] ++ bs "," ++ k' ++ bs "=" ++ [QUOTE] ++ v')] [] [] = renderLabels [(k, v); (k', v')] [] [].
Proof. unfold renderLabels, render_label. simpl. unfold render_label. simpl. by repeat (rewrite <-?app_assoc; simpl). Qed.

(** Finding: the [TYPE] line is written once per series, not once per metric. *)
Lemma type_line_per_series show p1 p2 :
  p_name p1 = p_name p2 -> p_help p1 = p_help p2 -> p_type p1 = kCounter -> p_type p2 = kCounter ->
  exists b1 b2, prometheus show [p1; p2] = expo_header p1 ++ b1 ++ expo_header p1 ++ b2.
Proof.
  intros Hn Hh H1 H2. unfold prometheus, expo_point. simpl.
  eexists _, _. rewrite <-app_assoc. f_equal. f_equal. rewrite app_nil_r.
  unfold expo_header. by rewrite Hn, Hh, H1, H2.
Qed.
End registry.

(** A counter, a histogram and some recordings. *)
Definition demo_ops : list (@op Q) :=
  [OpCounter (bs "a_total") (bs "A") [(bs "k", bs "v")]; OpHistogram (bs "b_seconds") (bs "B") [inject_Z 1; inject_Z 2] [];
   OpInc 0 3%Z; OpObserve 1 (inject_Z 2)].


Lemma instrument_stable_witness :
  (counter (bs "a_total") (bs "other help") [(bs "k", bs "v")] (run_all demo_ops (run_all demo_ops []))).1 = Ok 0 /\
  exists what, findOrCreate (bs "a_total") (bs "other help") kGauge [(bs "k", bs "v")] (run_all demo_ops (run_all demo_ops [])) =
    (Throws what, run_all demo_ops (run_all demo_ops [])).
Proof.
  apply (instrument_stable (bs "a_total") (bs "A") [(bs "k", bs "v")] (run_all demo_ops []) 0 (run_all demo_ops []) demo_ops
    (bs "other help") kGauge); [vm_compute; reflexivity|discriminate].
Defined.

(** A histogram with rejected bounds leaves a broken entry behind:
    [histogram] throws after the entry was added, and every later scrape
    dereferences its null instrument. *)
Theorem rejected_histogram_breaks_scrape :
  let '(r, reg) := histogram (bs "h") (bs "H") ([] : list Q) [] [] in
  (exists what, r = Throws what) /\ forall env, scrape env no_filter reg = None.
Proof. split; [by eexists|]. intros env. reflexivity. Qed.
End Registry.
