(* ===== verification/ServerMetrics.v ===== *)
(** * Built-in server metrics (metrics/server_metrics.h, metrics/server_metrics.cc)

    The callbacks [installServerMetrics] and [installHttpMetrics] chain onto a
    server.  A connection callback may come more than once for the end of a
    connection; a set of live names makes the accounting idempotent. *)

From stdpp Require Import gmap.
From Stdlib Require Import QArith.
From S2P Require Import Prelude CStr Double Metrics.
#[local] Open Scope nat_scope.

Module ServerMetrics.
Import Instruments.

Record ServerMetrics := mkServerMetrics {
  accepted : Z;
  closed : Z;
  live : Z;
  rejected : Z;
  bytes_in : Z;
  bytes_out : Z;
  dedup_live : gset bytes;
  prev_calls : list bytes;             (* what the chained callback was given *)
}.
#[export] Instance ServerMetrics_settable : Settable ServerMetrics := fun m =>
  mkServerMetrics (accepted m) (closed m) (live m) (rejected m) (bytes_in m) (bytes_out m) (dedup_live m) (prev_calls m).

Definition installServerMetrics : ServerMetrics := mkServerMetrics 0 0 0 0 0 0 ∅ [].

(** The connection callback.  [connected()] is read twice: under the mutex of
    the set, and after it ([c1], [c2]). *)
Definition on_connection (c1 c2 : bool) (name : bytes) (bytesRead bytesWritten : Z) (m : ServerMetrics) : ServerMetrics :=
  let account_disconnect := negb c1 && bool_decide (name ∈ dedup_live m) in
  let m := if c1 then m <| dedup_live := {[name]} ∪ dedup_live m |> else m <| dedup_live := dedup_live m ∖ {[name]} |> in
  let m :=
    if c2 then m <| accepted := counter_inc 1 (accepted m) |> <| live := gauge_inc 1 (live m) |>
    else if account_disconnect then
      m <| closed := counter_inc 1 (closed m) |> <| live := gauge_dec 1 (live m) |>
        <| bytes_in := counter_inc bytesRead (bytes_in m) |> <| bytes_out := counter_inc bytesWritten (bytes_out m) |>
    else m in
  m <| prev_calls := prev_calls m ++ [name] |>.

Definition on_overload (m : ServerMetrics) : ServerMetrics := m <| rejected := counter_inc 1 (rejected m) |>.

(** ** Histories *)
Inductive event :=
| Connect (name : bytes)
| Disconnect (name : bytes) (bytesRead bytesWritten : Z)
| Overload.

Definition handle (m : ServerMetrics) (e : event) : ServerMetrics :=
  match e with
  | Connect n => on_connection true true n 0 0 m
  | Disconnect n r w => on_connection false false n r w m
  | Overload => on_overload m
  end.

(** What happened, by the events alone: the names connected, and the first
    reported end of each connected name. *)
Record history := mkHistory { conns : list bytes; ends : list (bytes * (Z * Z)); overloads : nat; calls : list bytes }.
Definition record (h : history) (e : event) : history :=
  match e with
  | Connect n => mkHistory (conns h ++ [n]) (ends h) (overloads h) (calls h ++ [n])
  | Disconnect n r w =>
    mkHistory (conns h)
      (if bool_decide (n ∈ conns h) && negb (bool_decide (n ∈ map fst (ends h))) then ends h ++ [(n, (r, w))] else ends h)
      (overloads h) (calls h ++ [n])
  | Overload => mkHistory (conns h) (ends h) (S (overloads h)) (calls h)
  end.
Definition history_of (es : list event) : history := fold_left record es (mkHistory [] [] 0 []).

Definition sum_by {A} (f : A -> Z) (l : list A) : Z := fold_right (fun a n => f a + n)%Z 0%Z l.
Lemma sum_by_app {A} (f : A -> Z) l k : sum_by f (l ++ k) = (sum_by f l + sum_by f k)%Z.
Proof. induction l as [|a l IH]; simpl; [done|]. lia. Qed.

Lemma wrap_int64_add a b : wrap_int64 (wrap_int64 a + b) = wrap_int64 (a + b).
Proof.
  unfold wrap_int64. f_equal. replace (a + b + 2 ^ 63)%Z with (a + 2 ^ 63 + b)%Z by lia.
  rewrite <-(Zplus_mod_idemp_l (a + 2 ^ 63)). f_equal. lia.
Qed.
Lemma wrap_int64_id z : (0 <= z < 2 ^ 63)%Z -> wrap_int64 z = z.
Proof. intros. unfold wrap_int64. rewrite Z.mod_small; [lia|]. rewrite two64_val. lia. Qed.

Record metrics_ok (h : history) (m : ServerMetrics) : Prop := {
  mo_set : dedup_live m = list_to_set (conns h) ∖ list_to_set (map fst (ends h));
  mo_ends : NoDup (map fst (ends h));
  mo_sub : forall n, n ∈ map fst (ends h) -> n ∈ conns h;
  mo_accepted : accepted m = wrap64 (Z.of_nat (length (conns h)));
  mo_closed : closed m = wrap64 (Z.of_nat (length (ends h)));
  mo_live : live m = wrap_int64 (Z.of_nat (length (conns h)) - Z.of_nat (length (ends h)));
  mo_in : bytes_in m = wrap64 (sum_by (fun e => e.2.1) (ends h));
  mo_out : bytes_out m = wrap64 (sum_by (fun e => e.2.2) (ends h));
  mo_rejected : rejected m = wrap64 (Z.of_nat (overloads h));
  mo_calls : prev_calls m = calls h;
}.

Lemma counter_inc_wrap k a : counter_inc k (wrap64 a) = wrap64 (a + k).
Proof. apply wrap64_add_l. Qed.

Lemma handle_ok h m e :
  metrics_ok h m -> NoDup (conns (record h e)) -> metrics_ok (record h e) (handle m e).
Proof.
  intros [] Hnd. destruct e as [n|n r w|]; simpl in *.
  - apply NoDup_app in Hnd as (_ & Hn & _). assert (Hn' : n ∉ conns h) by (intros Hx; apply (Hn n Hx); by apply list_elem_of_singleton).
    split; simpl; rewrite ?length_app; simpl; auto.
    + rewrite mo_set0, list_to_set_app_L. simpl.
      assert (n ∉ map fst (ends h)) by (intros Hx; by apply Hn', mo_sub0). set_solver.
    + intros x Hx. rewrite elem_of_app. left. by apply mo_sub0.
    + rewrite mo_accepted0, counter_inc_wrap. f_equal. lia.
    + rewrite mo_live0. unfold gauge_inc. rewrite wrap_int64_add. f_equal. lia.
    + by rewrite mo_calls0.
  - assert (E : bool_decide (n ∈ dedup_live m) = bool_decide (n ∈ conns h) && negb (bool_decide (n ∈ map fst (ends h)))).
    { rewrite mo_set0. destruct (decide (n ∈ conns h)), (decide (n ∈ map fst (ends h)));
        rewrite ?(bool_decide_eq_true_2 (n ∈ conns h)), ?(bool_decide_eq_true_2 (n ∈ map fst (ends h))),
          ?(bool_decide_eq_false_2 (n ∈ conns h)), ?(bool_decide_eq_false_2 (n ∈ map fst (ends h))) by done; simpl;
        [apply bool_decide_eq_false_2|apply bool_decide_eq_true_2|apply bool_decide_eq_false_2|apply bool_decide_eq_false_2]; set_solver. }
    unfold on_connection. simpl. rewrite E. destruct (bool_decide (n ∈ conns h)) eqn:E1; simpl in *.
    + destruct (bool_decide (n ∈ map fst (ends h))) eqn:E2; simpl in *.
      * split; simpl; auto; [|by rewrite mo_calls0]. apply bool_decide_eq_true in E2. rewrite mo_set0. set_solver.
      * apply bool_decide_eq_false in E2. apply bool_decide_eq_true in E1.
        split; simpl; rewrite ?map_app, ?length_app, ?sum_by_app; simpl; rewrite ?Z.add_0_r; auto.
        -- rewrite mo_set0, list_to_set_app_L. simpl. set_solver.
        -- apply NoDup_app. split_and!; [done| |apply NoDup_singleton]. intros x Hx ->%list_elem_of_singleton. done.
        -- intros x [Hx|Hx%list_elem_of_singleton]%elem_of_app; [by apply mo_sub0|by subst].
        -- rewrite mo_closed0, counter_inc_wrap. f_equal. lia.
        -- rewrite mo_live0. unfold gauge_dec. rewrite <-Z.add_opp_r, wrap_int64_add. f_equal. lia.
        -- by rewrite mo_in0, counter_inc_wrap.
        -- by rewrite mo_out0, counter_inc_wrap.
        -- by rewrite mo_calls0.
    + split; simpl; auto; [|by rewrite mo_calls0]. apply bool_decide_eq_false in E1. rewrite mo_set0. set_solver.
  - split; simpl; auto. rewrite mo_rejected0, counter_inc_wrap. f_equal. lia.
Qed.

Lemma record_conns h e : exists more, conns (record h e) = conns h ++ more.
Proof. destruct e; simpl; [by eexists|exists []; by rewrite app_nil_r..]. Qed.

Lemma fold_conns es h : exists more, conns (fold_left record es h) = conns h ++ more.
Proof.
  revert h. induction es as [|e es IH]; intros h; simpl; [exists []; by rewrite app_nil_r|].
  destruct (IH (record h e)) as [m1 ->]. destruct (record_conns h e) as [m2 ->]. eexists. by rewrite <-app_assoc.
Qed.

Lemma handle_all_ok es h m :
  metrics_ok h m -> NoDup (conns (fold_left record es h)) -> metrics_ok (fold_left record es h) (fold_left handle es m).
Proof.
  revert h m. induction es as [|e es IH]; intros h m Hok Hnd; simpl; [done|]. apply IH; [|done].
  apply handle_ok; [done|]. simpl in Hnd. destruct (fold_conns es (record h e)) as [more E]. rewrite E in Hnd.
  by apply NoDup_app in Hnd as [? _].
Qed.

Lemma ends_le h : NoDup (map fst (ends h)) -> (forall n, n ∈ map fst (ends h) -> n ∈ conns h) -> length (ends h) <= length (conns h).
Proof.
  intros Hn Hs. rewrite <-(length_map fst (ends h)). apply submseteq_length, NoDup_submseteq; [done|]. intros x Hx. by apply Hs.
Qed.

(** The server's metrics are exact however often the end of a connection is
    reported: with connection names used once, accepted, closed and rejected
    count the connections, the ended ones and the overloads, the byte totals are
    the sums over the ended ones, the live gauge is accepted minus closed and
    never negative, the set of names is exactly the live connections, and the
    application's callback sees every event.  (Totals are modulo 2^64.) *)
Theorem server_metrics_exact es :
  NoDup (conns (history_of es)) ->
  let h := history_of es in
  let m := fold_left handle es installServerMetrics in
  accepted m = wrap64 (Z.of_nat (length (conns h))) /\ closed m = wrap64 (Z.of_nat (length (ends h))) /\
  rejected m = wrap64 (Z.of_nat (overloads h)) /\
  bytes_in m = wrap64 (sum_by (fun e => e.2.1) (ends h)) /\ bytes_out m = wrap64 (sum_by (fun e => e.2.2) (ends h)) /\
  NoDup (map fst (ends h)) /\
  dedup_live m = list_to_set (conns h) ∖ list_to_set (map fst (ends h)) /\
  ((Z.of_nat (length (conns h)) < 2 ^ 63)%Z ->
     live m = (Z.of_nat (length (conns h)) - Z.of_nat (length (ends h)))%Z /\ (0 <= live m)%Z) /\
  prev_calls m = calls h.
Proof.
  intros Hnd h m. assert (Hok : metrics_ok h m).
  { apply handle_all_ok; [|done]. split; simpl; try done. apply NoDup_nil_2. }
  destruct Hok. split_and!; try done. intros Hlt. pose proof (ends_le h mo_ends0 mo_sub0).
  rewrite mo_live0, wrap_int64_id by lia. lia.
Qed.

Definition demo_events : list event :=
  [Connect (bs "c1"); Connect (bs "c2"); Disconnect (bs "c1") 10 20; Overload; Disconnect (bs "c1") 10 20].

Lemma server_metrics_exact_witness :
  let m := fold_left handle demo_events installServerMetrics in
  (accepted m = 2 /\ closed m = 1 /\ live m = 1 /\ bytes_in m = 10)%Z /\ NoDup (map fst (ends (history_of demo_events))).
Proof.
  split; [by vm_compute|].
  apply (server_metrics_exact demo_events). apply (bool_decide_unpack _). vm_compute. exact I.
Defined.

(** Finding: [connected()] is read a second time after the mutex is released.
    When the connection is shut down from another thread in between, its name is
    in the set but it was not counted, and its end drives the gauge below zero. *)
Lemma connected_read_twice :
  let m := on_connection false false (bs "c") 0 0 (on_connection true false (bs "c") 0 0 installServerMetrics) in
  accepted m = 0%Z /\ closed m = 1%Z /\ live m = (-1)%Z.
Proof. vm_compute. done. Qed.

(** ** HTTP requests *)
Definition statusClass (status : Z) : bytes :=
  if (500 <=? status)%Z then bs "5xx"
  else if (400 <=? status)%Z then bs "4xx"
  else if (300 <=? status)%Z then bs "3xx"
  else if (200 <=? status)%Z then bs "2xx"
  else bs "1xx".

Section http.
Context {D : Type} `{Double D}.

Record HttpMetrics := mkHttpMetrics { c1xx : Z; c2xx : Z; c3xx : Z; c4xx : Z; c5xx : Z; dur : Histogram.Histogram D }.

Definition on_request (status : Z) (secs : D) (m : HttpMetrics) : HttpMetrics :=
  let hd := hd Ascii.zero (statusClass status) in
  let cls c := Ascii.eqb hd c in
  mkHttpMetrics
    (if cls "2"%char || cls "3"%char || cls "4"%char || cls "5"%char then c1xx m else counter_inc 1 (c1xx m))
    (if cls "2"%char then counter_inc 1 (c2xx m) else c2xx m)
    (if cls "3"%char then counter_inc 1 (c3xx m) else c3xx m)
    (if cls "4"%char then counter_inc 1 (c4xx m) else c4xx m)
    (if cls "5"%char then counter_inc 1 (c5xx m) else c5xx m)
    (Histogram.observe secs (dur m)).

(** Every request is counted in exactly one class. *)
Lemma on_request_total status secs m :
  let t m := (c1xx m + c2xx m + c3xx m + c4xx m + c5xx m)%Z in
  wrap64 (t (on_request status secs m)) = wrap64 (t m + 1).
Proof.
  assert (Hs : statusClass status ∈ [bs "1xx"; bs "2xx"; bs "3xx"; bs "4xx"; bs "5xx"]).
  { unfold statusClass. repeat case_match; set_solver. }
  assert (Hw : forall x y, exists k, wrap64 (x + 1) = (x + 1 + k * two64)%Z /\ wrap64 (y + k * two64) = wrap64 y).
  { intros x y. exists (- ((x + 1) / two64))%Z. split; [|by apply Z.mod_add].
    pose proof (Z.div_mod (x + 1) two64 ltac:(done)). unfold wrap64. lia. }
  unfold on_request, counter_inc. repeat (apply elem_of_cons in Hs as [E|Hs]; [rewrite E; cbn;
    match goal with |- wrap64 ?t = _ => match t with context [wrap64 (?x + 1)] =>
      destruct (Hw x (c1xx m + c2xx m + c3xx m + c4xx m + c5xx m + 1)%Z) as (k & E1 & E2) end end;
    rewrite E1, <-E2; f_equal; lia|]).
  by apply elem_of_nil in Hs.
Qed.

(** ** Loop statistics: two sampled counters ([iterations], [poll_wait]). *)
Definition installLoopMetrics (iterations poll_wait : nat) (ls : Registry.Labels) (reg : list (@Registry.Entry D))
    : list (@Registry.Entry D) :=
  let reg := (Registry.registerSampled (bs "cox_loop_iterations_total") (bs "Event-loop iterations")
                Registry.kCounter (Some iterations) ls reg).2 in
  (Registry.registerSampled (bs "cox_loop_poll_wait_seconds_total") (bs "Cumulative time blocked in poll()")
     Registry.kCounter (Some poll_wait) ls reg).2.
End http.
End ServerMetrics.
